(* ===== verification/_CoqProject ===== *)
-Q . S2P
Prelude.v
Telemetry.v
Binenc.v
Vclock.v
Version.v
Sketch.v
Policy.v
MapStore.v
ShardedStore.v
StoreSpec.v
Membership.v
Gossip.v
Ring.v
Router.v
Sha256.v
Merkle.v
GoQuote.v
Resp.v
Replica.v
AntiEntropy.v
TombstoneGC.v
Handoff.v
Coordinator.v
Handler.v
Server.v
Peer.v
Cluster.v
Concurrent.v
Durable.v
Serial.v
Sync.v
Repair.v
Converge.v
Loops.v
GoText.v
Config.v
Main.v
Node.v
