(* ===== verification/Prelude.v ===== *)
(** * Kyria: a verified model of a replicated key-value store

    Kyria (src/) is a Redis-protocol key-value server.  A node keeps its data in
    a sharded in-memory store with expiry and eviction; nodes find each other by
    gossip, place keys on a consistent-hash ring, and replicate every write to N
    nodes with read and write quorums.  Writes carry vector clocks; concurrent
    ones are kept as siblings.  Replicas that missed a write are repaired by
    hinted handoff, read repair and Merkle-tree anti-entropy; deletes leave
    tombstones that a collector removes after a grace period.

    ** Parts, files and sources

    Foundations.
    - Prelude.v: outcomes of Go code ([gres]: a value, an error or a panic),
      machine integers, loops, list and map lemmas, tactics and hint databases.
    - Binenc.v (internal/binenc): the binary encoders and bounds-checked decoders.
    - Telemetry.v (internal/telemetry): counters, histograms, gauges, snapshots.

    Data that replicas exchange.
    - Vclock.v (internal/vclock), Version.v (internal/version): clocks, siblings,
      [Reconcile], tombstones and the blob codec.
    - Sha256.v, Merkle.v (internal/merkle): trees over (key, blob) pairs and [Diff].
    - GoQuote.v, Resp.v (internal/protocol): RESP values, the stream decoder, commands,
      and the error texts with the quoting of Go's %q.

    The local store (internal/store).
    - Sketch.v, Policy.v: the count-min sketch; LRU, LFU and TinyLFU as instances
      of the type class [Policy].
    - MapStore.v: one shard, with expiry, limits and eviction.
    - ShardedStore.v: the type class [Store] of store.go with its laws
      [StoreLaws], and the sharded store; MapStore and ShardedStore are instances.
    - StoreSpec.v: the dictionary that every [Store] refines, call by call, Size and
      Range (which reads the clock once per shard) included.

    The cluster (internal/cluster).
    - Membership.v, Gossip.v: the roster, packets and rounds.
    - Ring.v, Router.v: the hash ring and who owns a key.

    Replication (internal/server).
    - Replica.v: a store whose values are sibling sets (what a replica holds).
    - Coordinator.v: quorum reads, writes and deletes, against the type class
      [Replicator] (the interface of coordinator.go) and its laws.
    - Handoff.v, AntiEntropy.v, TombstoneGC.v: the three background repairs.
    - Handler.v, Server.v: commands, connections, the life of the server.
    - Peer.v: calls to other nodes and their connection pool.
    - Cluster.v, Sync.v: all nodes together.  The network implements [Replicator]
      and [TreeSyncer] by [Peer.do_call] to the [Handle] of the node called, with
      calls that may be lost or repeated; the coordinator's and anti-entropy's
      theorems are applied to it.
    - Concurrent.v: operations in flight.  A configuration is the network, the hints
      of every node and the operations begun; [op_step i] is one step of one
      goroutine of operation [i]: a peer call of a fan-out, the send that follows it
      on a channel of the code's capacity, a turn of the loop that receives, a task
      of read repair.  [config_step] is a step of any operation, of a hint replayer,
      or of replica traffic and anti-entropy.
    - Durable.v: what an answered write leaves there, on replicas and as hints.
    - Serial.v: the functions of Coordinator.v are runs made of [op_step i] only.
    - Repair.v, Converge.v: the repairs together, on the same network: what handoff
      completes, what deletes and tombstone collection leave, and how anti-entropy
      makes any number of nodes agree.
    - Loops.v: the goroutines of the janitor, hint replayer, anti-entropy,
      tombstone collector, router and gossiper: how they are launched, their
      tickers, and the Stop protocol with its [sync.Once].

    The program (cmd/kyria).
    - GoText.v: the text formats of the Go library the flags are written in
      (integers, durations, log levels, host:port, IP addresses).
    - Config.v: the flag package on the argument list, the environment, validation,
      and the options built from the configuration.
    - Main.v: the process: which loops [main] starts and with which intervals, and
      its shutdown, over the loops of Loops.v, the pool of Peer.v and the server of
      Server.v.
    - Node.v: [main] up to serving: the roster, router, coordinator, handler,
      telemetry, repairs and server it builds from the configuration, and its exits.

    Definitions keep the names of the source; where two parts use one name, the
    file tells them apart ([Version.Decode], [Merkle.Decode]).

    ** How effects are modelled

    A Go function that changes an object takes and returns it.  Errors and panics
    are outcomes of [gres], so a theorem that a function returns [Ok] also says
    that it does not panic.  What the program does not choose is an argument that
    theorems quantify over: the clock, the order of a map iteration (any
    permutation: [lawful], [lawful_order], [range_order]), the result of an
    unstable sort ([sorts]), random draws, hash seeds, the order in which peers
    answer, which calls are lost.  Calls on a shard, a roster, a hint store or a
    pool run under their mutex and are atomic steps; what runs concurrently
    (the goroutines of the coordinators, hint replay against parking, the pool, accept
    and Close, background loops against Stop, shutdown) is a step relation whose theorems hold for every
    interleaving.  A call to a peer with its retries, a gossip round and a pull of
    anti-entropy are each one step.  Integers are Z or N with the wrap of their width written out
    where the source can reach it ([i64], [u64]).

    ** What the theorems show

    - Replication: a read quorum sees every acknowledged write when R + W > N, also
      with all operations in flight at once, none of which can be stuck;
      an acknowledged write is on W replicas and parked or delivered for the rest;
      replicas converge whatever the order and repetition of deliveries; a round of
      anti-entropy catches up, and rounds that carry word of every node to every other
      make a cluster agree; hints are not lost and their replay completes the write; a
      delete that reached everyone is not undone by repairs or collection (Concurrent,
      Durable, Serial, Cluster, Version, Sync, Converge, Handoff, Repair).
    - The store refines a dictionary, sharding is invisible, and caps, limits and
      eviction choices are as intended (StoreSpec, MapStore, Sketch).
    - Membership merges commute and converge, rings and routers of equal rosters
      agree, a join moves keys only to the joiner (Membership, Gossip, Ring, Router).
    - Codecs round-trip and reject what is malformed, tree differences are exact,
      every stream is decoded in finite time (Version, Gossip, Merkle, Resp).
    - Commands, connections, the pool, telemetry, start-up and shutdown (Handler,
      Server, Peer, Telemetry, Loops, Config, Main, Node).

    Lemmas such as [Merkle.Decode_panics], [Resp.parseInt_wraps],
    [Server.reply_splitting], [Config.intervals_unchecked], [Config.shards_unchecked],
    [Concurrent.older_hint_replaces_newer], [Repair.set_after_collection_lost],
    [Loops.receive_loop_dies] and [Main.requests_outlive_pool] record behaviour of
    the code that its comments do not announce.

    The theorems on replicated data (Concurrent, Durable, Serial, Cluster, Repair,
    Sync, Converge) are about clusters whose stores do not evict and whose nodes do
    not restart, which would lose what they hold; tombstone collection is a step in
    [deleted_stays_deleted] only.  Each theorem's comment lists its provisos.

    ** Fuel and bounds

    [Resp.decode] recurses on nesting; each level consumes a byte, so the length of
    the stream is enough fuel ([Decode_total]).  [serve_loop] likewise consumes a
    byte per request ([handleConn_total]).  [Merkle.collect] halves the tree and is
    given its depth ([Diff_exact]).  [trim_left] is given the length of its input,
    and each step removes a byte; so are [GoText.duration_loop] and [GoQuote.quoted]
    ([quoted_fuel]).  Lengths above 2^48 bytes make an allocation
    panic ([make_panics]); theorems on allocating code state the bound they need.

    ** Not modelled

    Log lines; sockets, binding, dialling and deadlines, which appear as byte
    streams that may end, as failing calls, or as operations of a type class.  The
    Go memory model is not modelled below the level of mutexes, channels and atomic
    pointers: [Get] holds a read lock, so two readers of a shard may record their
    accesses at once, and the load and the increment of a sketch counter, which the
    model runs as one step, may interleave and take it past its cap.  Replies
    between nodes of Cluster.v are not encoded and decoded again (Peer.v shows that
    this changes nothing for a reply within the limits of the decoder; a larger one
    is a call whose reply is lost).  Whether the background loops run often
    enough is a matter of timing and is not stated. *)

From Stdlib Require Export NArith ZArith Lia.
From Stdlib Require Export Strings.Byte.
From stdpp Require Export base gmap strings list fin_maps numbers sorting.

(** ** Bytes and Go strings

    A Go [string] and a Go [[]byte] are both sequences of bytes; the conversions
    between them copy and never change the contents, so one type models both. *)

#[global] Instance byte_eq_dec : EqDecision byte := Byte.byte_eq_dec.

#[global] Program Instance byte_countable : Countable byte :=
  inj_countable Byte.to_N Byte.of_N _.
Next Obligation. exact Byte.of_to_N. Qed.

Abbreviation bytes := (list byte).

(** A string literal of the source, as bytes. *)
Definition str (s : string) : bytes := String.list_byte_of_string s.

(** [len(x)] as a Go [int]. *)
Definition len {A} (l : list A) : Z := Z.of_nat (length l).

(** [byte(n)]: truncation to eight bits. *)
Definition byte_of_N (n : N) : byte :=
  match Byte.of_N (n mod 256) with Some b => b | None => x00 end.

(** ** Machine integers *)

Definition MaxUint16 : N := 65535.
Definition u16 (n : N) : N := n mod 2 ^ 16.
Definition u32 (n : N) : N := n mod 2 ^ 32.
Definition u64 (n : N) : N := n mod 2 ^ 64.

(** The value an [int] or [int64] holds after an operation whose exact result
    is [z]: two's complement wrap-around. *)
Definition i64 (z : Z) : Z := ((z + 2 ^ 63) mod 2 ^ 64 - 2 ^ 63)%Z.

(** [uint64(z)] and [int64(n)]. *)
Definition u64_of_int (z : Z) : N := Z.to_N (z mod 2 ^ 64).
Definition int_of_u64 (n : N) : Z := i64 (Z.of_N n).
Definition u32_of_int (z : Z) : N := Z.to_N (z mod 2 ^ 32).

(** [make([]T, n)] panics when [n] is negative or [n] elements of [size] bytes
    exceed the address space of the run time (48 bits on amd64). *)
Definition make_panics (n size : Z) : bool := (n <? 0)%Z || (2 ^ 48 <? n * size)%Z.

(** ** Results of Go functions

    [Ok] is a normal return with a nil error, [Err] a return with a non-nil
    error, and [Panic] a run-time panic (index out of range, slice bounds, a
    negative length given to [make]). *)

Inductive gres (E A : Type) : Type :=
| Ok (a : A)
| Err (e : E)
| Panic.
Arguments Ok {E A} a.
Arguments Err {E A} e.
Arguments Panic {E A}.

#[global] Instance gres_ret {E} : MRet (gres E) := λ A a, Ok a.
#[global] Instance gres_bind {E} : MBind (gres E) := λ A B f m,
  match m with Ok a => f a | Err e => Err e | Panic => Panic end.

#[global] Instance gres_eq_dec {E A} `{!EqDecision E, !EqDecision A} :
  EqDecision (gres E A).
Proof. solve_decision. Defined.

Declare Scope kyria_scope.
Delimit Scope kyria_scope with kyria.
Notation "'do' p '<-' m ; k" := (mbind (λ p, k) m)
  (at level 10, p pattern, m at level 100, k at level 200,
   format "'[v' 'do'  p  '<-'  m ; '/' k ']'") : kyria_scope.
Open Scope kyria_scope.

(** [for range n { s = body(s) }]: stops at the first error or panic.  The
    recursion follows the binary digits of [n], so a huge count read from a
    malformed packet costs nothing when the first iteration fails. *)
Fixpoint for_pos {E S} (p : positive) (body : S → gres E S) (s : S) : gres E S :=
  match p with
  | xH => body s
  | xO q => do s1 <- for_pos q body s; for_pos q body s1
  | xI q => do s0 <- body s; do s1 <- for_pos q body s0; for_pos q body s1
  end.

Definition for_range {E S} (n : N) (body : S → gres E S) (s : S) : gres E S :=
  match n with N0 => Ok s | Npos p => for_pos p body s end.

(** The same loop counted in unary, for proofs by induction. *)
Fixpoint for_nat {E S} (n : nat) (body : S → gres E S) (s : S) : gres E S :=
  match n with O => Ok s | S n => do s <- body s; for_nat n body s end.

(** [strconv.Itoa] and [strconv.AppendInt(_, _, 10)].  Twenty digits are enough
    for every 64-bit integer (lemma [digits_value]). *)
Definition digit (n : N) : byte := byte_of_N (48 + n).

Fixpoint digits (fuel : nat) (n : N) (acc : bytes) : bytes :=
  match fuel with
  | O => acc
  | S fuel =>
      if (n <? 10)%N then digit n :: acc else digits fuel (n / 10) (digit (n mod 10) :: acc)
  end.

Definition Itoa (z : Z) : bytes :=
  if (z <? 0)%Z then x2d :: digits 20 (Z.to_N (- z)) [] else digits 20 (Z.to_N z) [].

(** An iteration order of Go's [range] over a map: some enumeration of the
    entries, different from run to run.  Every definition that ranges over a
    map takes such an enumeration as an argument. *)
Definition range_order {K V} `{Countable K} (m : gmap K V) (l : list (K * V)) : Prop :=
  l ≡ₚ map_to_list m.

(** ** Tactics and hints *)

Create HintDb kyria.
Create Rewrite HintDb kyria.

(** Reduce binds of known results, and split on a result under scrutiny. *)
Ltac simp_res :=
  repeat match goal with
  | H : context [mbind _ (Ok _)] |- _ => progress simpl in H
  | H : Ok _ = Ok _ |- _ => injection H as H
  | H : Ok _ = Err _ |- _ => discriminate H
  | H : Ok _ = Panic |- _ => discriminate H
  | H : Err _ = Ok _ |- _ => discriminate H
  | H : Panic = Ok _ |- _ => discriminate H
  | H : Err _ = Panic |- _ => discriminate H
  | H : Panic = Err _ |- _ => discriminate H
  end; simplify_eq/=.

Ltac case_res :=
  match goal with
  | H : context [mbind _ ?m] |- _ => destruct m eqn:?; simp_res
  | |- context [mbind _ ?m] => destruct m eqn:?; simp_res
  end.

(** Case analysis on the boolean comparisons of the source. *)
Ltac case_bool :=
  match goal with
  | |- context [Z.ltb ?a ?b] => destruct (Z.ltb_spec a b)
  | |- context [Z.leb ?a ?b] => destruct (Z.leb_spec a b)
  | |- context [Z.eqb ?a ?b] => destruct (Z.eqb_spec a b)
  | |- context [N.ltb ?a ?b] => destruct (N.ltb_spec a b)
  | |- context [N.leb ?a ?b] => destruct (N.leb_spec a b)
  | |- context [N.eqb ?a ?b] => destruct (N.eqb_spec a b)
  | H : context [Z.ltb ?a ?b] |- _ => destruct (Z.ltb_spec a b)
  | H : context [Z.leb ?a ?b] |- _ => destruct (Z.leb_spec a b)
  | H : context [Z.eqb ?a ?b] |- _ => destruct (Z.eqb_spec a b)
  | H : context [N.ltb ?a ?b] |- _ => destruct (N.ltb_spec a b)
  | H : context [N.leb ?a ?b] |- _ => destruct (N.leb_spec a b)
  | H : context [N.eqb ?a ?b] |- _ => destruct (N.eqb_spec a b)
  end.

(** ** Bytes *)

Lemma byte_to_N_lt (b : byte) : (Byte.to_N b < 256)%N.
Proof. destruct b; reflexivity. Qed.

Lemma byte_of_N_to_N (b : byte) : byte_of_N (Byte.to_N b) = b.
Proof.
  unfold byte_of_N. rewrite N.mod_small by apply byte_to_N_lt.
  by rewrite Byte.of_to_N.
Qed.

Lemma byte_to_N_of_N (n : N) : Byte.to_N (byte_of_N n) = (n mod 256)%N.
Proof.
  unfold byte_of_N. destruct (Byte.of_N (n mod 256)) as [b|] eqn:E.
  - by apply Byte.to_of_N in E.
  - apply Byte.of_N_None_iff in E.
    pose proof (N.mod_lt n 256 ltac:(done)). lia.
Qed.

#[global] Instance byte_to_N_inj : Inj (=) (=) Byte.to_N.
Proof. intros a b H. by rewrite <-(byte_of_N_to_N a), H, byte_of_N_to_N. Qed.

(** ** Lists and lengths *)

Lemma len_nil {A} : len (@nil A) = 0%Z.
Proof. done. Qed.

Lemma len_cons {A} (x : A) l : len (x :: l) = (1 + len l)%Z.
Proof. unfold len. simpl. lia. Qed.

Lemma len_app {A} (l k : list A) : len (l ++ k) = (len l + len k)%Z.
Proof. unfold len. rewrite length_app. lia. Qed.

Lemma len_nonneg {A} (l : list A) : (0 <= len l)%Z.
Proof. unfold len. lia. Qed.

Lemma filter_none {A} (P : A → Prop) `{!∀ x, Decision (P x)} (l : list A) :
  (∀ x, x ∈ l → ¬ P x) → filter P l = [].
Proof.
  induction l as [|x l IH]; intros Hx; [done|].
  rewrite filter_cons, decide_False by (apply Hx; set_solver). apply IH. set_solver.
Qed.

Lemma filter_all {A} (P : A → Prop) `{!∀ x, Decision (P x)} (l : list A) :
  (∀ x, x ∈ l → P x) → filter P l = l.
Proof.
  induction l as [|x l IH]; intros Hx; [done|].
  rewrite filter_cons, decide_True by (apply Hx; set_solver). f_equal. apply IH. set_solver.
Qed.

(** What holds of every entry of a map holds of every entry of a part of it. *)
Lemma map_Forall_weaken {K V} `{Countable K} (Q : K → V → Prop) (m1 m2 : gmap K V) :
  m1 ⊆ m2 → map_Forall Q m2 → map_Forall Q m1.
Proof. intros Hs HQ k x Hx. apply HQ. by eapply lookup_weaken. Qed.

#[global] Hint Rewrite @len_nil @len_cons @len_app : kyria.
#[export] Hint Resolve len_nonneg byte_to_N_lt : kyria.

(** ** Machine integers *)

Lemma u16_small n : (n < 2 ^ 16)%N → u16 n = n.
Proof. apply N.mod_small. Qed.
Lemma u32_small n : (n < 2 ^ 32)%N → u32 n = n.
Proof. apply N.mod_small. Qed.
Lemma u64_small n : (n < 2 ^ 64)%N → u64 n = n.
Proof. apply N.mod_small. Qed.

Lemma u64_of_int_lt z : (u64_of_int z < 2 ^ 64)%N.
Proof.
  unfold u64_of_int. pose proof (Z.mod_pos_bound z (2 ^ 64) ltac:(lia)). lia.
Qed.

Lemma i64_small z : (- 2 ^ 63 <= z < 2 ^ 63)%Z → i64 z = z.
Proof. intros. unfold i64. rewrite Z.mod_small by lia. lia. Qed.

(** Converting an [int64] to [uint64] and back is the identity. *)
Lemma int_of_u64_of_int z : (- 2 ^ 63 <= z < 2 ^ 63)%Z → int_of_u64 (u64_of_int z) = z.
Proof.
  intros. unfold int_of_u64, u64_of_int, i64.
  rewrite Z2N.id by (apply Z.mod_pos_bound; lia).
  rewrite Zplus_mod_idemp_l, Z.mod_small; lia.
Qed.

#[export] Hint Resolve u64_of_int_lt : kyria.

(** [1 << bits.Len(uint(n-1))] is the least power of two that is at least [n]. *)
Lemma shiftl_len_log2_up n :
  (1 < n <= 2 ^ 62)%Z →
  i64 (Z.shiftl 1 (Z.of_N (N.size (u64_of_int (n - 1))))) = (2 ^ Z.log2_up n)%Z.
Proof.
  intros Hn. unfold u64_of_int. rewrite Z.mod_small by lia.
  assert (∀ m, Z.of_N (N.log2 m) = Z.log2 (Z.of_N m)) as Hlog by (by intros [|[]]).
  rewrite N.size_log2 by lia. rewrite N2Z.inj_succ, Hlog, Z2N.id by lia.
  rewrite Z.shiftl_1_l, Z.log2_up_eqn by lia. rewrite <-Z.sub_1_r. apply i64_small.
  split; [pose proof (Z.pow_nonneg 2 (Z.succ (Z.log2 (n - 1)))); lia|].
  apply Z.pow_lt_mono_r; [lia|lia|]. apply Z.lt_le_trans with (Z.succ 62); [|lia].
  apply Zsucc_lt_compat. apply Z.log2_lt_pow2; lia.
Qed.

(** ** Decimal notation *)

(** The value of a string of decimal digits read from the left. *)
Definition decimal (n : Z) (c : byte) : Z := (n * 10 + (Z.of_N (Byte.to_N c) - 48))%Z.

Definition is_digit (c : byte) : bool := (48 <=? Byte.to_N c)%N && (Byte.to_N c <=? 57)%N.

Lemma digit_N n : (n < 10)%N → Byte.to_N (digit n) = (48 + n)%N.
Proof. intros Hn. unfold digit. rewrite byte_to_N_of_N. apply N.mod_small. lia. Qed.

Lemma digits_value fuel n acc :
  (0 < fuel)%nat → (n < 10 ^ N.of_nat fuel)%N →
  ∃ ds, digits fuel n acc = ds ++ acc ∧ Forall (λ c, is_digit c = true) ds
    ∧ ds ≠ [] ∧ (length ds <= fuel)%nat ∧ ∀ m, foldl decimal m ds = (m * 10 ^ len ds + Z.of_N n)%Z.
Proof.
  assert (∀ k, k < 10 → is_digit (digit k) = true)%N as Hdig.
  { intros k Hk. unfold is_digit. rewrite digit_N by done. apply andb_true_iff; split; apply N.leb_le; lia. }
  revert n acc. induction fuel as [|fuel IH]; intros n acc Hf Hn; cbn [digits]; [lia|].
  destruct (N.ltb_spec n 10) as [Hlt|Hge].
  - exists [digit n]. split_and!; [done| |done|simpl; lia|].
    + constructor; [by apply Hdig|done].
    + intros m. simpl. unfold decimal. rewrite digit_N by done. change (len [digit n]) with 1%Z. lia.
  - pose proof (N.mod_lt n 10 ltac:(done)) as Hm. pose proof (N.div_mod n 10 ltac:(done)) as Hdm.
    destruct (IH (n / 10)%N (digit (n mod 10) :: acc)) as (ds & -> & Hds & Hne & Hlen & Hv).
    { destruct fuel; [change (10 ^ N.of_nat 1)%N with 10%N in Hn|]; lia. }
    { rewrite Nat2N.inj_succ, N.pow_succ_r' in Hn. apply N.Div0.div_lt_upper_bound. lia. }
    exists (ds ++ [digit (n mod 10)]). split_and!.
    + by rewrite <-app_assoc.
    + apply Forall_app. split; [done|]. constructor; [by apply Hdig|done].
    + by destruct ds.
    + rewrite length_app. simpl. lia.
    + intros m. rewrite foldl_app, Hv. simpl. unfold decimal. rewrite digit_N by done.
      rewrite len_app. change (len [_]) with 1%Z. rewrite Z.pow_add_r by (try apply len_nonneg; lia). lia.
Qed.

(** ** Loops *)

Lemma for_nat_app {E S} n m (body : S → gres E S) s :
  for_nat (n + m) body s = do s1 <- for_nat n body s; for_nat m body s1.
Proof.
  revert s. induction n as [|n IH]; intros s; simpl; [done|].
  destruct (body s); simpl; auto.
Qed.

Lemma for_pos_nat {E S} p (body : S → gres E S) s :
  for_pos p body s = for_nat (Pos.to_nat p) body s.
Proof.
  revert s. induction p as [p IH|p IH|]; intros s; cbn [for_pos].
  - rewrite Pos2Nat.inj_xI. simpl. destruct (body s) as [s0| |]; simpl; [|done..].
    rewrite Nat.add_0_r, for_nat_app, IH.
    destruct (for_nat _ _ s0); simpl; auto.
  - rewrite Pos2Nat.inj_xO. simpl. rewrite Nat.add_0_r, for_nat_app, IH.
    destruct (for_nat _ _ s); simpl; auto.
  - change (Pos.to_nat 1) with 1%nat. simpl. by destruct (body s).
Qed.

Lemma for_range_nat {E S} n (body : S → gres E S) s :
  for_range n body s = for_nat (N.to_nat n) body s.
Proof. destruct n; [done|]. apply for_pos_nat. Qed.

(** An invariant of the loop body is an invariant of the loop. *)
Lemma for_range_inv {E S} (I : S → Prop) n (body : S → gres E S) s s' :
  (∀ s s', I s → body s = Ok s' → I s') →
  I s → for_range n body s = Ok s' → I s'.
Proof.
  intros Hb. rewrite for_range_nat. revert s.
  induction (N.to_nat n) as [|k IH]; intros s Hs H; simpl in H; [by simp_res|].
  destruct (body s) eqn:E1; simp_res; eauto.
Qed.

(** A loop whose body never panics under an invariant never panics. *)
Lemma for_range_no_panic {E S} (I : S → Prop) n (body : S → gres E S) s :
  (∀ s, I s → body s ≠ Panic) →
  (∀ s s', I s → body s = Ok s' → I s') →
  I s → for_range n body s ≠ Panic.
Proof.
  intros Hp Hb. rewrite for_range_nat. revert s.
  induction (N.to_nat n) as [|k IH]; intros s Hs; simpl; [done|].
  destruct (body s) eqn:E1; simpl; [eauto|done|]. by destruct (Hp s Hs).
Qed.
