(* ===== verification/Telemetry.v ===== *)
(** * Telemetry (internal/telemetry/telemetry.go)

    Counters and latency histograms for the STATS command.  Every counter is an
    atomic 64-bit integer that wraps; concurrent recorders interleave at single
    additions, so a run is a sequence of recorder calls ([telemetryCall], folded
    by [apply_call]).  A nil [*Telemetry] is [None].  The float64 arithmetic of
    the quantiles is that of Stdlib's [SpecFloat]. *)

From Stdlib Require Import SpecFloat.
From S2P Require Import Prelude.

(** ** Histograms *)

Record histogram : Type := mkHistogram {
  bounds : list Z;
  counts : list Z;
  sum : Z;
  count : Z
}.

Definition Nanosecond : Z := 1.
Definition Microsecond : Z := 1000.
Definition Millisecond : Z := 1000000.
Definition Second : Z := 1000000000.

Definition defaultBuckets : list Z := [
  250 * Nanosecond; 500 * Nanosecond;
  Microsecond; 2500 * Nanosecond; 5 * Microsecond;
  10 * Microsecond; 25 * Microsecond; 50 * Microsecond; 100 * Microsecond;
  250 * Microsecond; 500 * Microsecond;
  Millisecond; 5 * Millisecond; 25 * Millisecond;
  100 * Millisecond; 500 * Millisecond]%Z.

(** The atomic counters start at zero. *)
Definition newHistogram (bounds : list Z) : histogram :=
  mkHistogram bounds (replicate (S (length bounds)) 0%Z) 0 0.

(** [x.Add(1)]. *)
Definition incr (x : Z) : Z := i64 (x + 1).

(** The bucket of [d]: the first bound it does not exceed, or the overflow. *)
Fixpoint bucket_of (bounds : list Z) (d : Z) : nat :=
  match bounds with
  | [] => 0
  | b :: bounds => if (d <=? b)%Z then 0 else S (bucket_of bounds d)
  end.

Definition Observe (h : option histogram) (d : Z) : option histogram :=
  match h with
  | None => None
  | Some h =>
      Some (mkHistogram (bounds h) (alter incr (bucket_of (bounds h) d) (counts h))
              (i64 (sum h + d)) (incr (count h)))
  end.

(** *** Quantiles *)

(** [float64(n)], and the constants 0.5 and 0.99. *)
Definition float64 (n : Z) : spec_float := binary_normalize 53 1024 n 0 false.
Definition half : spec_float := S754_finite false 4503599627370496 (-53).
Definition ninety_nine : spec_float := S754_finite false 8917127262193582 (-53).

(** [float64(running) >= q * float64(t)]. *)
Definition reaches (q : spec_float) (running t : Z) : bool :=
  SFleb (SFmul 53 1024 q (float64 t)) (float64 running).

(** The loop over the bounds; [None] when no bucket reaches the rank. *)
Fixpoint quantile_loop (q : spec_float) (t running : Z) (bounds counts : list Z) : option Z :=
  match bounds, counts with
  | b :: bounds, c :: counts =>
      let running := i64 (running + c) in
      if reaches q running t then Some b else quantile_loop q t running bounds counts
  | _, _ => None
  end.

(** [None] is the panic of a histogram without bounds. *)
Definition Quantile (h : option histogram) (q : spec_float) : option Z :=
  match h with
  | None => Some 0%Z
  | Some h =>
      if (count h =? 0)%Z then Some 0%Z
      else match quantile_loop q (count h) 0 (bounds h) (counts h) with
           | Some b => Some b
           | None => last (bounds h)
           end
  end.

(** ** Telemetry *)

Record commandStats : Type := mkStats {
  total : Z;
  hits : Z;
  misses : Z;
  errors : Z;
  latency : option histogram
}.

(** A gauge's function reads state that changes with time: it is given the
    moment of the sample. *)
Record gauge : Type := mkGauge { g_name : bytes; g_fn : Z → Z }.

Record Telemetry : Type := mkTelemetry {
  startedAt : Z;
  names : list bytes;
  tel_commands : gmap bytes commandStats;
  gauges : list gauge;
  eventNames : list bytes;
  events : gmap bytes Z
}.

Definition New (now : Z) (commands : list bytes) : Telemetry :=
  mkTelemetry now commands
    (foldl (λ cmds c, <[c := mkStats 0 0 0 0 (Some (newHistogram defaultBuckets))]> cmds) ∅ commands)
    [] [] ∅.

Definition RegisterGauge (t : option Telemetry) (name : bytes) (fn : Z → Z) : option Telemetry :=
  t ← t;
  Some (mkTelemetry (startedAt t) (names t) (tel_commands t) (gauges t ++ [mkGauge name fn])
          (eventNames t) (events t)).

(** The body of the loop of [RegisterEvents]. *)
Definition register_event (t : Telemetry) (e : bytes) : Telemetry :=
  match events t !! e with
  | Some _ => t
  | None =>
      mkTelemetry (startedAt t) (names t) (tel_commands t) (gauges t)
        (eventNames t ++ [e]) (<[e := 0%Z]> (events t))
  end.

Definition RegisterEvents (t : option Telemetry) (events : list bytes) : option Telemetry :=
  t ← t; Some (foldl register_event t events).

(** [cs := t.stats(command); if cs != nil { f(cs) }]. *)
Definition with_stats (f : commandStats → commandStats) (t : option Telemetry) (command : bytes) :
    option Telemetry :=
  t ← t;
  Some (mkTelemetry (startedAt t) (names t) (alter f command (tel_commands t)) (gauges t)
          (eventNames t) (events t)).

Definition RecordCommand : option Telemetry → bytes → option Telemetry :=
  with_stats (λ cs, mkStats (incr (total cs)) (hits cs) (misses cs) (errors cs) (latency cs)).
Definition RecordHit : option Telemetry → bytes → option Telemetry :=
  with_stats (λ cs, mkStats (total cs) (incr (hits cs)) (misses cs) (errors cs) (latency cs)).
Definition RecordMiss : option Telemetry → bytes → option Telemetry :=
  with_stats (λ cs, mkStats (total cs) (hits cs) (incr (misses cs)) (errors cs) (latency cs)).
Definition RecordError : option Telemetry → bytes → option Telemetry :=
  with_stats (λ cs, mkStats (total cs) (hits cs) (misses cs) (incr (errors cs)) (latency cs)).
Definition RecordDuration (t : option Telemetry) (command : bytes) (d : Z) : option Telemetry :=
  with_stats (λ cs, mkStats (total cs) (hits cs) (misses cs) (errors cs) (Observe (latency cs) d)) t command.

Definition RecordEvent (t : option Telemetry) (name : bytes) : option Telemetry :=
  t ← t;
  Some (mkTelemetry (startedAt t) (names t) (tel_commands t) (gauges t) (eventNames t)
          (alter incr name (events t))).

(** ** Snapshots *)

Record CommandSnapshot : Type := mkCommandSnapshot {
  cs_command : bytes;
  cs_total : Z;
  cs_hits : Z;
  cs_misses : Z;
  cs_errors : Z;
  cs_p50 : Z;
  cs_p99 : Z
}.

Record Snapshot : Type := mkSnapshot {
  Uptime : Z;
  Commands : list CommandSnapshot;
  Gauges : list (bytes * Z);
  Events : list (bytes * Z)
}.

Definition command_row (n : bytes) (c : commandStats) : option CommandSnapshot :=
  p50 ← Quantile (latency c) half;
  p99 ← Quantile (latency c) ninety_nine;
  Some (mkCommandSnapshot n (total c) (hits c) (misses c) (errors c) p50 p99).

(** [None] is a panic: a name without its counters, or a quantile's. *)
Definition TakeSnapshot (t : option Telemetry) (now : Z) : option Snapshot :=
  match t with
  | None => Some (mkSnapshot 0 [] [] [])
  | Some t =>
      cmds ← mapM (λ n, c ← tel_commands t !! n; command_row n c) (names t);
      evs ← mapM (λ n, (λ v, (n, v)) <$> events t !! n) (eventNames t);
      Some (mkSnapshot (now - startedAt t) cmds ((λ g, (g_name g, g_fn g now)) <$> gauges t) evs)
  end.

(** ** Sequences of recorder calls *)

Inductive telemetryCall : Type :=
| Event (ev : bytes)
| Count (name : bytes)
| Duration (name : bytes) (d : Z)
| Failure (name : bytes)
| Hit (name : bytes)
| Miss (name : bytes).

#[global] Instance telemetryCall_eq_dec : EqDecision telemetryCall.
Proof. solve_decision. Defined.

Definition apply_call (t : option Telemetry) (c : telemetryCall) : option Telemetry :=
  match c with
  | Event ev => RecordEvent t ev
  | Count n => RecordCommand t n
  | Duration n d => RecordDuration t n d
  | Failure n => RecordError t n
  | Hit n => RecordHit t n
  | Miss n => RecordMiss t n
  end.

(** A telemetry whose snapshot does not panic: every name has its counters. *)
Definition telemetry_wf (t : option Telemetry) : Prop :=
  match t with
  | None => True
  | Some t =>
      (∀ n, n ∈ names t → ∃ cs h, tel_commands t !! n = Some cs ∧ latency cs = Some h ∧ bounds h ≠ [])
      ∧ ∀ e, e ∈ eventNames t → is_Some (events t !! e)
  end.

(** ** Histogram lemmas *)

(** How many of [l] satisfy [P]. *)
Definition tally {A} (P : A → Prop) `{!∀ x, Decision (P x)} (l : list A) : Z := len (filter P l).

Lemma tally_nil {A} (P : A → Prop) `{!∀ x, Decision (P x)} : tally P [] = 0%Z.
Proof. done. Qed.

Lemma tally_snoc {A} (P : A → Prop) `{!∀ x, Decision (P x)} l x :
  tally P (l ++ [x]) = (tally P l + if decide (P x) then 1 else 0)%Z.
Proof.
  unfold tally, len. rewrite filter_app, length_app, filter_cons, filter_nil. destruct (decide (P x)); simpl; lia.
Qed.

Lemma tally_bounds {A} (P : A → Prop) `{!∀ x, Decision (P x)} l : (0 <= tally P l <= len l)%Z.
Proof. unfold tally, len. pose proof (length_filter P l). lia. Qed.

(** The tallies of the buckets, from the observations themselves. *)
Fixpoint tallies (bs : list Z) (ds : list Z) : list Z :=
  match bs with
  | [] => [len ds]
  | b :: bs => tally (λ d, d <= b)%Z ds :: tallies bs (filter (λ d, ¬ (d <= b))%Z ds)
  end.

Lemma tallies_nil bs : tallies bs [] = replicate (S (length bs)) 0%Z.
Proof. induction bs as [|b bs IH]; [done|]. simpl. rewrite filter_nil, IH. done. Qed.

Lemma incr_small x : (0 <= x < 2 ^ 63 - 1)%Z → incr x = (x + 1)%Z.
Proof. intros. apply i64_small. lia. Qed.

Lemma tallies_snoc bs ds d :
  (len ds < 2 ^ 63 - 1)%Z → alter incr (bucket_of bs d) (tallies bs ds) = tallies bs (ds ++ [d]).
Proof.
  revert ds. induction bs as [|b bs IH]; intros ds Hlen; simpl.
  - rewrite incr_small by (pose proof (len_nonneg ds); lia). unfold len. rewrite length_app. simpl. do 2 f_equal. lia.
  - pose proof (tally_bounds (λ d, d <= b)%Z ds) as Ht. rewrite tally_snoc, filter_app, filter_cons, filter_nil.
    destruct (Z.leb_spec d b) as [Hd|Hd].
    + rewrite decide_True, decide_False by lia. rewrite app_nil_r. simpl. rewrite incr_small by lia. done.
    + rewrite decide_False, decide_True by lia. simpl. rewrite Z.add_0_r. f_equal. apply IH.
      pose proof (length_filter (λ d, ¬ (d <= b))%Z ds). unfold len in *. lia.
Qed.

Lemma Observe_all bs ds :
  (len ds < 2 ^ 63)%Z →
  ∃ sm, foldl Observe (Some (newHistogram bs)) ds = Some (mkHistogram bs (tallies bs ds) sm (len ds)).
Proof.
  induction ds as [|d ds IH] using rev_ind; intros Hlen.
  - exists 0%Z. simpl. rewrite tallies_nil. done.
  - unfold len in Hlen. rewrite length_app in Hlen. simpl in Hlen.
    destruct IH as [sm IH]; [unfold len; lia|]. rewrite foldl_app, IH. simpl. eexists. f_equal.
    rewrite tallies_snoc by (unfold len; lia). f_equal. rewrite incr_small by (unfold len; lia).
    unfold len. rewrite length_app. simpl. lia.
Qed.

(** The first bound at or below which enough observations lie. *)
Definition first_reaching (q : spec_float) (bs ds : list Z) : option Z :=
  List.find (λ b, reaches q (tally (λ d, d <= b)%Z ds) (len ds)) bs.

Lemma tally_filter_above b b' ds :
  (b <= b')%Z →
  (tally (λ d, d <= b)%Z ds + tally (λ d, d <= b')%Z (filter (λ d, ¬ (d <= b))%Z ds) = tally (λ d, d <= b')%Z ds)%Z.
Proof.
  intros Hb. induction ds as [|d ds IH]; [done|]. unfold tally, len in *. rewrite !filter_cons.
  destruct (decide (d <= b)%Z) as [Hd|Hd].
  - rewrite decide_False, (decide_True _ _ (P := (d <= b')%Z)) by lia. simpl. lia.
  - rewrite decide_True by done. rewrite filter_cons. destruct (decide (d <= b')%Z); simpl; lia.
Qed.

Lemma tally_split b ds : (tally (λ d, d <= b)%Z ds + len (filter (λ d, ¬ (d <= b))%Z ds) = len ds)%Z.
Proof.
  induction ds as [|d ds IH]; [done|]. unfold tally, len in *. rewrite !filter_cons.
  destruct (decide (d <= b)%Z); [rewrite decide_False by lia|rewrite decide_True by lia]; simpl; lia.
Qed.

Lemma quantile_loop_spec q t bs ds r :
  StronglySorted Z.le bs → (0 <= r)%Z → (r + len ds < 2 ^ 63)%Z →
  quantile_loop q t r bs (tallies bs ds)
  = List.find (λ b, reaches q (r + tally (λ d, d <= b)%Z ds) t) bs.
Proof.
  intros Hs. revert ds r. induction Hs as [|b bs Hs IH Hb]; intros ds r Hr Hlen; [done|]. simpl.
  pose proof (tally_bounds (λ d, d <= b)%Z ds) as Ht. rewrite i64_small by lia.
  destruct (reaches q (r + tally (λ d, d <= b)%Z ds) t); [done|].
  rewrite IH.
  - assert (∀ b', b' ∈ bs → (r + tally (λ d, d <= b)%Z ds
      + tally (λ d, d <= b')%Z (filter (λ d, ¬ (d <= b))%Z ds) = r + tally (λ d, d <= b')%Z ds)%Z) as He.
    { intros b' Hb'. rewrite Forall_forall in Hb. pose proof (tally_filter_above b b' ds (Hb b' Hb')). lia. }
    clear -He. induction bs as [|b' bs IH]; [done|]. simpl. rewrite He by set_solver.
    destruct (reaches _ _ _); [done|]. apply IH. set_solver.
  - lia.
  - pose proof (tally_split b ds). lia.
Qed.

(** What the quantile is, from the observations. *)
Definition quantile_of (q : spec_float) (bs ds : list Z) : option Z :=
  match ds with
  | [] => Some 0%Z
  | _ => match first_reaching q bs ds with Some b => Some b | None => last bs end
  end.

Lemma Quantile_eq q bs ds :
  StronglySorted Z.le bs → (len ds < 2 ^ 63)%Z →
  Quantile (foldl Observe (Some (newHistogram bs)) ds) q = quantile_of q bs ds.
Proof.
  intros Hs Hlen. destruct (Observe_all bs ds Hlen) as [sm ->]. simpl. unfold quantile_of.
  destruct ds as [|d ds]; [done|]. destruct (Z.eqb_spec (len (d :: ds)) 0) as [E|_].
  { rewrite len_cons in E. pose proof (len_nonneg ds). lia. }
  by rewrite quantile_loop_spec by (done || lia).
Qed.

(** ** Exactness of the median's rank *)

(** A positive integer below 2^53 as a normalised float. *)
Definition mantissa (n : Z) : Z := (n * 2 ^ (52 - Z.log2 n))%Z.

Lemma digits2_log2 p : Zpos (digits2_pos p) = (Z.log2 (Zpos p) + 1)%Z.
Proof.
  induction p as [p IH|p IH|]; simpl digits2_pos; [| |done].
  - rewrite Pos2Z.inj_succ, IH. change (Zpos p~1) with (2 * Zpos p + 1)%Z. rewrite Z.log2_succ_double by lia. lia.
  - rewrite Pos2Z.inj_succ, IH. change (Zpos p~0) with (2 * Zpos p)%Z. rewrite Z.log2_double by lia. lia.
Qed.

Lemma iter_xO p d : Zpos (Pos.iter xO p d) = (Zpos p * 2 ^ Zpos d)%Z.
Proof.
  induction d as [|d IH] using Pos.peano_ind; [simpl; lia|].
  rewrite Pos.iter_succ, Pos2Z.inj_succ, Z.pow_succ_r by lia.
  change (Zpos (Pos.iter xO p d)~0) with (2 * Zpos (Pos.iter xO p d))%Z. rewrite IH. lia.
Qed.

Lemma log2_mantissa n : (0 < n < 2 ^ 53)%Z → Z.log2 (mantissa n) = 52%Z.
Proof.
  intros Hn. unfold mantissa. assert (0 <= Z.log2 n <= 52)%Z as Hl.
  { split; [apply Z.log2_nonneg|]. assert (Z.log2 n < 53)%Z; [|lia]. apply Z.log2_lt_pow2; lia. }
  rewrite Z.log2_mul_pow2 by lia. lia.
Qed.

Lemma log2_bound n : (0 < n < 2 ^ 53)%Z → (0 <= Z.log2 n <= 52)%Z.
Proof.
  intros Hn. split; [apply Z.log2_nonneg|]. assert (Z.log2 n < 53)%Z; [|lia]. apply Z.log2_lt_pow2; lia.
Qed.

(** A 53-bit mantissa is not rounded. *)
Lemma round_exact p e :
  Z.log2 (Zpos p) = 52%Z → (-1074 <= e <= 971)%Z →
  binary_round_aux 53 1024 false (Zpos p) e loc_Exact = S754_finite false p e.
Proof.
  intros Hp He. unfold binary_round_aux.
  assert (shr_fexp 53 1024 (Zpos p) e loc_Exact = ({| shr_m := Zpos p; shr_r := false; shr_s := false |}, e)) as Hs.
  { unfold shr_fexp, fexp, emin. cbn [Zdigits2]. rewrite digits2_log2, Hp.
    replace (Z.max (52 + 1 + e - 53) (3 - 1024 - 53) - e)%Z with 0%Z by lia. done. }
  rewrite Hs. cbn [shr_m loc_of_shr_record round_nearest_even]. rewrite Hs. cbn [shr_m].
  destruct (Z.leb_spec e (1024 - 53)); [done|lia].
Qed.

Lemma float64_eq n :
  (0 < n < 2 ^ 53)%Z → float64 n = S754_finite false (Z.to_pos (mantissa n)) (Z.log2 n - 52).
Proof.
  intros Hn. pose proof (log2_bound n Hn) as Hl. pose proof (log2_mantissa n Hn) as Hm.
  unfold float64, binary_normalize. destruct n as [|p|p]; [lia| |lia]. unfold binary_round, fexp, emin.
  rewrite digits2_log2. replace (Z.max (Z.log2 (Zpos p) + 1 + 0 - 53) (3 - 1024 - 53))%Z
    with (Z.log2 (Zpos p) - 52)%Z by lia.
  unfold shl_align. unfold mantissa in *. rewrite Z.sub_0_r.
  destruct (Z.log2 (Zpos p) - 52)%Z as [|d|d] eqn:E; [|lia|].
  - replace (52 - Z.log2 (Zpos p))%Z with 0%Z in * by lia. rewrite Z.mul_1_r in *. apply round_exact; [done|lia].
  - replace (52 - Z.log2 (Zpos p))%Z with (Zpos d) in * by lia. rewrite <-iter_xO in *. simpl Z.to_pos.
    apply round_exact; [done|lia].
Qed.

Lemma mul_half p e :
  Z.log2 (Zpos p) = 52%Z → (-1000 <= e <= 971)%Z →
  SFmul 53 1024 half (S754_finite false p e) = S754_finite false p (e - 1).
Proof.
  intros Hp He. unfold SFmul, half. cbn [xorb].
  assert (shr_fexp 53 1024 (Zpos (4503599627370496 * p)) (-53 + e) loc_Exact
    = ({| shr_m := Zpos p; shr_r := false; shr_s := false |}, e - 1)%Z) as Hs.
  { unfold shr_fexp, fexp, emin. cbn [Zdigits2]. rewrite digits2_log2.
    change (Zpos (4503599627370496 * p)) with (2 ^ 52 * Zpos p)%Z. rewrite (Z.mul_comm (2 ^ 52)), Z.log2_mul_pow2, Hp by lia.
    replace (Z.max (52 + 52 + 1 + (-53 + e) - 53) (3 - 1024 - 53) - (-53 + e))%Z with 52%Z by lia.
    unfold shr. f_equal; [|lia]. rewrite Z.mul_comm. reflexivity. }
  pose proof (round_exact p (e - 1) Hp ltac:(lia)) as Hr. unfold binary_round_aux in *.
  rewrite Hs. cbn [shr_m loc_of_shr_record round_nearest_even].
  unfold shr_fexp at 1 in Hr. cbn [Zdigits2] in Hr. revert Hr. unfold fexp, emin. rewrite digits2_log2, Hp.
  replace (Z.max (52 + 1 + (e - 1) - 53) (3 - 1024 - 53) - (e - 1))%Z with 0%Z by lia. done.
Qed.

(** Below 2^53 observations the rank of the median is computed exactly. *)
Lemma reaches_half k n : (0 < n < 2 ^ 53)%Z → (0 <= k < 2 ^ 53)%Z → reaches half k n = (n <=? 2 * k)%Z.
Proof.
  intros Hn Hk. pose proof (log2_bound n Hn) as Hl. pose proof (log2_mantissa n Hn) as Hm.
  assert (0 < mantissa n)%Z as Hpos by (unfold mantissa; apply Z.mul_pos_pos; [lia|apply Z.pow_pos_nonneg; lia]).
  unfold reaches. rewrite float64_eq, mul_half by (done || rewrite ?Z2Pos.id by done; (done || lia)).
  destruct (decide (k = 0)%Z) as [->|Hk0]; [destruct (Z.leb_spec n (2 * 0)); [lia|done]|].
  rewrite (float64_eq k) by lia. pose proof (log2_bound k ltac:(lia)) as Hlk.
  assert (0 < mantissa k)%Z as Hposk by (unfold mantissa; apply Z.mul_pos_pos; [lia|apply Z.pow_pos_nonneg; lia]).
  pose proof (Z.log2_double k ltac:(lia)) as H2. unfold SFleb, SFcompare.
  destruct (Z.compare_spec (Z.log2 n - 52 - 1) (Z.log2 k - 52)) as [E|E|E].
  - change (Pos.compare_cont Eq (Z.to_pos (mantissa n)) (Z.to_pos (mantissa k)))
      with (Pos.compare (Z.to_pos (mantissa n)) (Z.to_pos (mantissa k))).
    rewrite Pos2Z.inj_compare, !Z2Pos.id by done.
    assert (mantissa k = 2 * k * 2 ^ (52 - Z.log2 n))%Z as ->.
    { unfold mantissa. replace (52 - Z.log2 k)%Z with (Z.succ (52 - Z.log2 n)) by lia. rewrite Z.pow_succ_r by lia. lia. }
    unfold mantissa. assert (0 < 2 ^ (52 - Z.log2 n))%Z by (apply Z.pow_pos_nonneg; lia).
    destruct (Z.compare_spec (n * 2 ^ (52 - Z.log2 n)) (2 * k * 2 ^ (52 - Z.log2 n))); symmetry;
      [apply Z.leb_le|apply Z.leb_le|apply Z.leb_gt]; nia.
  - symmetry. apply Z.leb_le. apply Z.lt_le_incl, Z.log2_lt_cancel. lia.
  - symmetry. apply Z.leb_gt. apply Z.log2_lt_cancel. lia.
Qed.

(** ** Counter lemmas *)

Definition is_duration (n : bytes) (c : telemetryCall) : option Z :=
  match c with Duration m d => if decide (m = n) then Some d else None | _ => None end.

(** The counters of a command after a sequence of calls. *)
Definition stats_after (n : bytes) (log : list telemetryCall) : commandStats :=
  mkStats (tally (λ c, c = Count n) log) (tally (λ c, c = Hit n) log) (tally (λ c, c = Miss n) log)
    (tally (λ c, c = Failure n) log)
    (foldl Observe (Some (newHistogram defaultBuckets)) (omap (is_duration n) log)).

(** A telemetry that tracks [cmds] and [evs] and has seen the calls [log]. *)
Record has_seen (cmds evs : list bytes) (start : Z) (gs : list gauge) (log : list telemetryCall) (t : Telemetry) : Prop := {
  hs_start : startedAt t = start;
  hs_names : names t = cmds;
  hs_commands : ∀ n, tel_commands t !! n = if decide (n ∈ cmds) then Some (stats_after n log) else None;
  hs_gauges : gauges t = gs;
  hs_eventNames : NoDup (eventNames t) ∧ ∀ e, e ∈ eventNames t ↔ e ∈ evs;
  hs_events : ∀ e, events t !! e = if decide (e ∈ evs) then Some (tally (λ c, c = Event e) log) else None
}.

Lemma New_commands cmds m n :
  foldl (λ (cmds : gmap bytes commandStats) c, <[c := mkStats 0 0 0 0 (Some (newHistogram defaultBuckets))]> cmds) m cmds !! n
  = if decide (n ∈ cmds) then Some (stats_after n []) else m !! n.
Proof.
  revert m. induction cmds as [|c cmds IH]; intros m; cbn [foldl].
  - by rewrite decide_False by set_solver.
  - rewrite IH. destruct (decide (n ∈ cmds)) as [Hn|Hn]; [by rewrite decide_True by set_solver|].
    destruct (decide (n = c)) as [->|Hne].
    + rewrite decide_True by set_solver. by rewrite lookup_insert_eq.
    + rewrite decide_False by set_solver. by rewrite lookup_insert_ne by done.
Qed.

Lemma New_has_seen now cmds : has_seen cmds [] now [] [] (New now cmds).
Proof.
  split; try done.
  - intros n. apply New_commands.
  - split; [constructor|done].
Qed.

Lemma register_has_seen cmds evs start gs t evs' :
  has_seen cmds evs start gs [] t → has_seen cmds (evs ++ evs') start gs [] (foldl register_event t evs').
Proof.
  revert evs t. induction evs' as [|e evs' IH]; intros evs t Ht; simpl; [by rewrite app_nil_r|].
  replace (evs ++ e :: evs') with ((evs ++ [e]) ++ evs') by (by rewrite <-app_assoc). apply IH.
  destruct Ht as [H1 H2 H3 H4 [H5 H6] H7]. unfold register_event. destruct (events t !! e) as [v|] eqn:Ee.
  - assert (e ∈ evs) as He by (rewrite H7 in Ee; by destruct (decide (e ∈ evs))).
    split; try done; [split; [done|]; set_solver|]. intros x. rewrite H7.
    destruct (decide (x ∈ evs)); [by rewrite decide_True by set_solver|by rewrite decide_False by set_solver].
  - assert (e ∉ evs) as He by (intros Hin; rewrite H7, decide_True in Ee by done; done).
    split; simpl; try done.
    + split; [|set_solver]. apply NoDup_app. split_and!; [done|set_solver|apply NoDup_singleton].
    + intros x. destruct (decide (x = e)) as [->|Hne].
      * rewrite lookup_insert_eq, decide_True by set_solver. done.
      * rewrite lookup_insert_ne, H7 by done.
        destruct (decide (x ∈ evs)); [by rewrite decide_True by set_solver|by rewrite decide_False by set_solver].
Qed.

Lemma is_duration_eq n d : is_duration n (Duration n d) = Some d.
Proof. unfold is_duration. by rewrite decide_True. Qed.

Lemma omap_duration n d : omap (is_duration n) [Duration n d] = [d].
Proof.
  change (match is_duration n (Duration n d) with Some y => [y] | None => [] end = [d]).
  by rewrite is_duration_eq.
Qed.

Lemma apply_has_seen cmds evs start gs log t c :
  (len log < 2 ^ 63 - 1)%Z → has_seen cmds evs start gs log t →
  ∃ t', apply_call (Some t) c = Some t' ∧ has_seen cmds evs start gs (log ++ [c]) t'.
Proof.
  intros Hlen [H1 H2 H3 H4 H5 H6].
  assert (∀ P `{!∀ x, Decision (P x)} x, P x → incr (tally P log) = tally P (log ++ [x])) as Hincr.
  { intros P HP x Hx. pose proof (tally_bounds P log). rewrite tally_snoc, decide_True, incr_small by (done || lia). done. }
  assert (∀ P `{!∀ x, Decision (P x)} x, ¬ P x → tally P log = tally P (log ++ [x])) as Hsame.
  { intros P HP x Hx. rewrite tally_snoc, decide_False by done. lia. }
  assert (∀ n x, is_duration n x = None → omap (is_duration n) log = omap (is_duration n) (log ++ [x])) as Hdur.
  { intros n x Hx. rewrite omap_app. simpl. rewrite Hx. by rewrite app_nil_r. }
  assert (∀ f n, (∀ m, m ≠ n → stats_after m log = stats_after m (log ++ [c])) →
    f (stats_after n log) = stats_after n (log ++ [c]) →
    (∀ e, events t !! e = if decide (e ∈ evs) then Some (tally (λ c, c = Event e) (log ++ [c])) else None) →
    ∃ t', with_stats f (Some t) n = Some t' ∧ has_seen cmds evs start gs (log ++ [c]) t') as Hws.
  { intros f n Hm Hf He. eexists. split; [done|]. split; simpl; try done. intros m. destruct (decide (m = n)) as [->|Hne].
    - rewrite lookup_alter_eq, H3. destruct (decide _); simpl; [by rewrite Hf|done].
    - rewrite lookup_alter_ne, H3 by done. destruct (decide _); [by rewrite Hm|done]. }
  assert (∀ m, c ≠ Count m → c ≠ Hit m → c ≠ Miss m → c ≠ Failure m → is_duration m c = None →
    stats_after m log = stats_after m (log ++ [c])) as Hother.
  { intros. unfold stats_after. f_equal; [by apply Hsame..|]. by rewrite (Hdur m c). }
  assert (∀ e, c ≠ Event e → events t !! e
    = if decide (e ∈ evs) then Some (tally (λ c, c = Event e) (log ++ [c])) else None) as Hev.
  { intros e Hne. rewrite H6. by rewrite (Hsame (λ c, c = Event e) _ c). }
  destruct c as [ev|n|n d|n|n|n]; simpl.
  2-6: apply Hws; [intros m Hne; apply Hother; try congruence; simpl; by rewrite ?decide_False by congruence| |by intros e; apply Hev];
    unfold stats_after; cbn [total hits misses errors latency]; f_equal;
    try (by apply Hincr); try (by apply Hsame); try (f_equal; by apply Hdur).
  - eexists. split; [done|]. split; simpl; try done.
    + intros n. rewrite H3, (Hother n); done.
    + intros e. destruct (decide (e = ev)) as [->|Hne].
      * rewrite lookup_alter_eq, H6. destruct (decide _); simpl; [|done]. by rewrite (Hincr (λ c, c = Event ev) _ (Event ev)).
      * rewrite lookup_alter_ne by done. apply Hev. congruence.
  - by rewrite omap_app, omap_duration, foldl_app.
Qed.

Lemma apply_all_has_seen cmds evs start gs log t log' :
  (len (log ++ log') < 2 ^ 63)%Z → has_seen cmds evs start gs log t →
  ∃ t', foldl apply_call (Some t) log' = Some t' ∧ has_seen cmds evs start gs (log ++ log') t'.
Proof.
  revert log t. induction log' as [|c log' IH]; intros log t Hlen Ht; [rewrite app_nil_r; by exists t|].
  replace (log ++ c :: log') with ((log ++ [c]) ++ log') in * by (by rewrite <-app_assoc). cbn [foldl].
  destruct (apply_has_seen cmds evs start gs log t c) as (t' & E & Ht'); [|done|rewrite E; by apply IH].
  unfold len in *. rewrite !length_app in Hlen. simpl in Hlen. lia.
Qed.

Lemma defaultBuckets_sorted : StronglySorted Z.le defaultBuckets.
Proof. repeat constructor; vm_compute; discriminate. Qed.

Lemma first_reaching_spec q bs ds :
  match first_reaching q bs ds with
  | Some b => ∃ l l', bs = l ++ b :: l' ∧ reaches q (tally (λ d, d <= b)%Z ds) (len ds) = true
      ∧ ∀ b', b' ∈ l → reaches q (tally (λ d, d <= b')%Z ds) (len ds) = false
  | None => ∀ b', b' ∈ bs → reaches q (tally (λ d, d <= b')%Z ds) (len ds) = false
  end.
Proof.
  unfold first_reaching. induction bs as [|b bs IH]; [set_solver|]. cbn [List.find].
  destruct (reaches q (tally (λ d, d <= b)%Z ds) (len ds)) eqn:E.
  - exists [], bs. split_and!; [done|done|set_solver].
  - destruct (List.find _ bs) as [x|].
    + destruct IH as (l & l' & -> & H1 & H2). exists (b :: l), l'. split_and!; [done|done|].
      intros b' [->|Hb]%elem_of_cons; auto.
    + intros b' [->|Hb]%elem_of_cons; auto.
Qed.

Lemma len_omap {A B} (f : A → option B) l : (len (omap f l) <= len l)%Z.
Proof.
  unfold len. induction l as [|x l IH]; [done|].
  change (omap f (x :: l)) with (match f x with Some y => y :: omap f l | None => omap f l end).
  destruct (f x); simpl length; lia.
Qed.

Lemma command_row_spec n log :
  (len log < 2 ^ 63)%Z →
  ∃ p50 p99, command_row n (stats_after n log)
    = Some (mkCommandSnapshot n (tally (λ c, c = Count n) log) (tally (λ c, c = Hit n) log)
        (tally (λ c, c = Miss n) log) (tally (λ c, c = Failure n) log) p50 p99)
    ∧ quantile_of half defaultBuckets (omap (is_duration n) log) = Some p50
    ∧ quantile_of ninety_nine defaultBuckets (omap (is_duration n) log) = Some p99.
Proof.
  intros Hlen. pose proof (len_omap (is_duration n) log) as Hd.
  assert (∀ q, ∃ p, quantile_of q defaultBuckets (omap (is_duration n) log) = Some p) as Hq.
  { intros q. unfold quantile_of. destruct (omap _ _); [by eexists|]. destruct (first_reaching _ _ _); by eexists. }
  destruct (Hq half) as [p50 H50], (Hq ninety_nine) as [p99 H99]. exists p50, p99. split_and!; [|done..].
  unfold command_row, stats_after. cbn [latency]. rewrite !Quantile_eq, H50, H99 by (apply defaultBuckets_sorted || lia).
  done.
Qed.

Lemma with_stats_wf f t n :
  (∀ cs h, latency cs = Some h → ∃ h', latency (f cs) = Some h' ∧ bounds h' = bounds h) →
  telemetry_wf t → telemetry_wf (with_stats f t n).
Proof.
  intros Hf. destruct t as [t|]; [|done]. intros [H1 H2]. split; [|done]. intros m Hm.
  destruct (H1 m Hm) as (cs & h & E & L & B). simpl. destruct (decide (m = n)) as [->|Hne].
  - destruct (Hf cs h L) as (h' & L' & B'). exists (f cs), h'. rewrite lookup_alter_eq, E, B'. done.
  - exists cs, h. by rewrite lookup_alter_ne.
Qed.

Lemma apply_call_wf t c : telemetry_wf t → telemetry_wf (apply_call t c).
Proof.
  intros Ht. destruct c as [ev|n|n d|n|n|n]; simpl; try (apply with_stats_wf; [simpl; by eauto|done]).
  - destruct t as [t|]; [|done]. destruct Ht as [H1 H2]. split; [done|]. intros e He. simpl.
    destruct (decide (e = ev)) as [->|Hne]; [rewrite lookup_alter_eq, fmap_is_Some; by apply H2|].
    rewrite lookup_alter_ne by done. by apply H2.
  - apply with_stats_wf; [|done]. intros cs h L. simpl. rewrite L. by eexists.
Qed.

Lemma apply_calls_wf t log : telemetry_wf t → telemetry_wf (foldl apply_call t log).
Proof. revert t. induction log as [|c log IH]; intros t Ht; [done|]. by apply IH, apply_call_wf. Qed.

Lemma TakeSnapshot_total t now : telemetry_wf t → ∃ s, TakeSnapshot t now = Some s.
Proof.
  destruct t as [t|]; [|by eexists]. intros [H1 H2]. unfold TakeSnapshot.
  assert (is_Some (mapM (λ n, c ← tel_commands t !! n; command_row n c) (names t))) as [rows ->].
  { apply mapM_is_Some, Forall_forall. intros n Hn. unfold compose.
    destruct (H1 n Hn) as (cs & h & -> & L & B). simpl. unfold command_row. rewrite L.
    assert (∀ q, is_Some (Quantile (Some h) q)) as Hq.
    { intros q. unfold Quantile. destruct (count h =? 0)%Z; [by eexists|]. destruct (quantile_loop _ _ _ _ _); [by eexists|].
      by apply last_is_Some. }
    destruct (Hq half) as [p50 ->], (Hq ninety_nine) as [p99 ->]. by eexists. }
  assert (is_Some (mapM (λ n, (λ v, (n, v)) <$> events t !! n) (eventNames t))) as [evs ->].
  { apply mapM_is_Some, Forall_forall. intros e He. unfold compose. apply fmap_is_Some. by apply H2. }
  by eexists.
Qed.

(** ** Properties *)

(** A snapshot is what happened.  After any sequence of fewer than 2^63
    recorder calls, STATS has one row per registered command, in registration
    order, whose total, hits, misses and errors are the numbers of such calls for
    that command and whose quantiles are those of the durations recorded for it;
    every registered event appears once with the number of its occurrences; calls
    for names that were not registered leave no trace; and the snapshot never
    panics. *)
Theorem snapshot_counts (now0 now : Z) (cmds evs : list bytes) (log : list telemetryCall) :
  (len log < 2 ^ 63)%Z →
  ∃ s, TakeSnapshot (foldl apply_call (RegisterEvents (Some (New now0 cmds)) evs) log) now = Some s
    ∧ Uptime s = (now - now0)%Z
    ∧ Forall2 (λ n row, cs_command row = n
        ∧ cs_total row = tally (λ c, c = Count n) log ∧ cs_hits row = tally (λ c, c = Hit n) log
        ∧ cs_misses row = tally (λ c, c = Miss n) log ∧ cs_errors row = tally (λ c, c = Failure n) log
        ∧ quantile_of half defaultBuckets (omap (is_duration n) log) = Some (cs_p50 row)
        ∧ quantile_of ninety_nine defaultBuckets (omap (is_duration n) log) = Some (cs_p99 row))
        cmds (Commands s)
    ∧ NoDup (Events s).*1
    ∧ ∀ e v, (e, v) ∈ Events s ↔ e ∈ evs ∧ v = tally (λ c, c = Event e) log.
Proof.
  intros Hlen. change (RegisterEvents (Some (New now0 cmds)) evs) with (Some (foldl register_event (New now0 cmds) evs)).
  destruct (apply_all_has_seen cmds evs now0 [] [] _ log Hlen
    (register_has_seen _ _ _ _ _ evs (New_has_seen now0 cmds))) as (t & -> & [H1 H2 H3 H4 [H5 H6] H7]).
  simpl app in *. unfold TakeSnapshot.
  assert (∃ rows, mapM (λ n, c ← tel_commands t !! n; command_row n c) (names t) = Some rows) as [rows Hrows].
  { rewrite H2. apply mapM_is_Some, Forall_forall. intros n Hn. unfold compose. rewrite H3, decide_True by done. simpl.
    destruct (command_row_spec n log Hlen) as (p50 & p99 & -> & _). by eexists. }
  assert (mapM (λ n, (λ v, (n, v)) <$> events t !! n) (eventNames t)
    = Some ((λ n, (n, tally (λ c, c = Event n) log)) <$> eventNames t)) as ->.
  { apply mapM_Some, Forall2_fmap_r, Forall_Forall2_diag, Forall_forall. intros e He.
    rewrite H7, decide_True by (by apply H6). done. }
  rewrite Hrows. simpl. eexists. split; [done|]. cbn [Uptime Commands Events]. split_and!.
  - by rewrite H1.
  - apply mapM_Some in Hrows. rewrite H2 in Hrows. clear -Hrows H3 Hlen.
    assert (∀ n, n ∈ cmds → tel_commands t !! n = Some (stats_after n log)) as Hc.
    { intros n Hn. by rewrite H3, decide_True. }
    clear H3. induction Hrows as [|n row ns rows Hrow Hrows IH]; [constructor|].
    constructor; [|apply IH; set_solver]. rewrite Hc in Hrow by set_solver. simpl in Hrow.
    destruct (command_row_spec n log Hlen) as (p50 & p99 & E & A & B). rewrite E in Hrow. injection Hrow as <-. done.
  - rewrite <-list_fmap_compose. change (NoDup ((λ n : bytes, n) <$> eventNames t)). by rewrite list_fmap_id.
  - intros e v. rewrite list_elem_of_fmap. split.
    + intros (n & [= -> ->] & Hn). split; [by apply H6|done].
    + intros [He ->]. exists e. split; [done|]. by apply H6.
Qed.

(** C40: what a quantile of the histogram is. Over ascending bounds, whatever
    durations were observed, it is the smallest bucket bound at or below which the
    required share of them lies, or the largest bound when none has: an upper
    estimate of the quantile of the durations themselves, pinned at the largest
    bound, and not that quantile. For the median the share is exact below 2^53
    observations: at least half of the durations are at most P50 (unless it is the
    largest bound), and fewer than half are at most any smaller bound. *)
Theorem Quantile_exact (bs ds : list Z) (q : spec_float) :
  StronglySorted Z.le bs → bs ≠ [] → (len ds < 2 ^ 53)%Z →
  let h := foldl Observe (Some (newHistogram bs)) ds in
  Quantile h q = quantile_of q bs ds
  ∧ (ds ≠ [] → ∃ b, Quantile h half = Some b ∧ b ∈ bs
      ∧ (last bs = Some b ∨ len ds <= 2 * tally (λ d, d <= b) ds)%Z
      ∧ ∀ b', b' ∈ bs → (b' < b)%Z → (2 * tally (λ d, d <= b') ds < len ds)%Z).
Proof.
  intros Hs Hne Hlen h. split; [apply Quantile_eq; [done|lia]|]. intros Hds.
  unfold h. clear h. rewrite Quantile_eq by (done || lia).
  assert (0 < len ds)%Z as Hpos.
  { destruct ds; [done|]. rewrite len_cons. pose proof (len_nonneg ds). lia. }
  assert (∀ b, reaches half (tally (λ d, d <= b)%Z ds) (len ds) = (len ds <=? 2 * tally (λ d, d <= b)%Z ds)%Z) as Hr.
  { intros b. pose proof (tally_bounds (λ d, d <= b)%Z ds). apply reaches_half; lia. }
  unfold quantile_of. destruct ds as [|d0 ds0] eqn:Eds; [done|]. rewrite <-Eds in *. clear Eds d0 ds0.
  pose proof (first_reaching_spec half bs ds) as Hf. destruct (first_reaching half bs ds) as [b|].
  - destruct Hf as (l & l' & -> & H1 & H2). exists b. rewrite Hr in H1. apply Z.leb_le in H1.
    split_and!; [done|set_solver|by right|]. intros b' Hb' Hlt. apply Z.leb_gt. rewrite <-Hr. apply H2.
    apply elem_of_app in Hb' as [Hb'|Hb']; [done|]. exfalso.
    apply StronglySorted_app_1_r in Hs. apply StronglySorted_inv in Hs as [_ Hs]. rewrite Forall_forall in Hs.
    apply elem_of_cons in Hb' as [->|Hb']; [lia|]. specialize (Hs b' Hb'). lia.
  - destruct (last bs) as [b|] eqn:El; [|by apply last_None in El]. exists b.
    split_and!; [done|by apply last_Some_elem_of|by left|].
    intros b' Hb' _. apply Z.leb_gt. rewrite <-Hr. by apply Hf.
Qed.

(** ** Witnesses *)

Definition ex_log : list telemetryCall :=
  [Count (str "GET"); Hit (str "GET"); Duration (str "GET") 300; Count (str "NOPE"); Event (str "e");
   Count (str "GET"); Failure (str "GET"); Duration (str "GET") 7000; Event (str "e")].

Lemma snapshot_counts_witness :
  ∃ s, TakeSnapshot (foldl apply_call (RegisterEvents (Some (New 5 [str "GET"])) [str "e"; str "e"]) ex_log) 9 = Some s
    ∧ Uptime s = 4%Z ∧ (str "e", 2%Z) ∈ Events s.
Proof.
  destruct (snapshot_counts 5 9 [str "GET"] [str "e"; str "e"] ex_log) as (s & E & U & _ & _ & H).
  - reflexivity.
  - exists s. split; [exact E|]. split; [exact U|]. apply H. split; [left|reflexivity].
Defined.

Lemma Quantile_exact_witness :
  Quantile (foldl Observe (Some (newHistogram defaultBuckets)) [300; 7000; 400; 9000000000]%Z) half = Some 500%Z
  ∧ quantile_of half defaultBuckets [300; 7000; 400; 9000000000]%Z = Some 500%Z.
Proof.
  destruct (Quantile_exact defaultBuckets [300; 7000; 400; 9000000000]%Z half) as [E _].
  - apply defaultBuckets_sorted.
  - discriminate.
  - reflexivity.
  - rewrite E. split; reflexivity.
Defined.
