(* ===== verification/Binenc.v ===== *)
(** * Big-endian binary primitives (internal/binenc/binenc.go)

    The encoders append to a buffer; the decoders read at an offset and return
    the advanced offset, or [ErrMalformed].  The file ends with [Codec], the
    interface the hand-rolled codecs of the program rely on: what is written is
    read back, a truncated value is reported as an error, and no input makes a
    reader panic. *)

From S2P Require Import Prelude.

(** ** Data *)

(** The errors of the package: [ErrMalformed], and the formatted error of
    [PutString], which carries the offending length. *)
Inductive binerr : Type :=
| ErrMalformed
| ErrTooLong (n : Z).

#[global] Instance binerr_eq_dec : EqDecision binerr.
Proof. solve_decision. Defined.

(** [binary.BigEndian.PutUintN]: the [n] bytes of [v], most significant first. *)
Fixpoint be (n : nat) (v : N) : bytes :=
  match n with
  | O => []
  | S m => byte_of_N (v / 256 ^ N.of_nat m) :: be m v
  end.

#[global] Arguments be : simpl never.

(** [binary.BigEndian.UintN] on exactly the bytes given. *)
Definition unbe (bs : bytes) : N :=
  foldl (λ acc b, acc * 256 + Byte.to_N b)%N 0%N bs.

(** ** Encoders: each returns the buffer after its writes *)

Definition PutUint16 (buf : bytes) (v : N) : bytes := buf ++ be 2 v.
Definition PutUint32 (buf : bytes) (v : N) : bytes := buf ++ be 4 v.
Definition PutUint64 (buf : bytes) (v : N) : bytes := buf ++ be 8 v.

Definition PutString (buf : bytes) (value : bytes) : bytes * option binerr :=
  if (Z.of_N MaxUint16 <? len value)%Z then (buf, Some (ErrTooLong (len value)))
  else (PutUint16 buf (u16 (N.of_nat (length value))) ++ value, None).

Definition PutBool (buf : bytes) (value : bool) : bytes :=
  buf ++ [if value then x01 else x00].

(** ** Decoders *)

(** [data[off:]], with the panic of a slice expression out of bounds. *)
Definition slice_from (data : bytes) (off : Z) : gres binerr bytes :=
  if (off <? 0)%Z then Panic
  else if (len data <? off)%Z then Panic
  else Ok (drop (Z.to_nat off) data).

(** Read a [w]-byte unsigned integer at [off]: the common body of [Uint16],
    [Uint32] and [Uint64]. *)
Definition uint_at (w : nat) (data : bytes) (off : Z) : gres binerr (N * Z) :=
  if (len data - off <? Z.of_nat w)%Z then Err ErrMalformed
  else do s <- slice_from data off; Ok (unbe (take w s), off + Z.of_nat w)%Z.

Definition Uint16 (data : bytes) (off : Z) : gres binerr (N * Z) := uint_at 2 data off.
Definition Uint32 (data : bytes) (off : Z) : gres binerr (N * Z) := uint_at 4 data off.
Definition Uint64 (data : bytes) (off : Z) : gres binerr (N * Z) := uint_at 8 data off.

Definition String (data : bytes) (off : Z) : gres binerr (bytes * Z) :=
  do (n, off) <- Uint16 data off;
  if (len data - off <? Z.of_N n)%Z then Err ErrMalformed
  else do s <- slice_from data off; Ok (take (N.to_nat n) s, off + Z.of_N n)%Z.

Definition Bytes (data : bytes) (off n : Z) : gres binerr (bytes * Z) :=
  if (n <? 0)%Z || (len data - off <? n)%Z then Err ErrMalformed
  else do s <- slice_from data off; Ok (take (Z.to_nat n) s, off + n)%Z.

Definition Bool (data : bytes) (off : Z) : gres binerr (bool * Z) :=
  if (len data - off <? 1)%Z then Err ErrMalformed
  else do s <- slice_from data off;
  match s with
  | [] => Panic
  | b :: _ =>
      if negb (bool_decide (b = x00)) && negb (bool_decide (b = x01))
      then Err ErrMalformed
      else Ok (bool_decide (b = x01), off + 1)%Z
  end.

(** ** The cursor

    [at_cursor data off rest]: the offset is inside the input and [rest] is
    what remains to be read there. *)

Definition at_cursor (data : bytes) (off : Z) (rest : bytes) : Prop :=
  (0 <= off <= len data)%Z ∧ drop (Z.to_nat off) data = rest.

(** [p] is [s] cut short. *)
Definition strict_prefix (p s : bytes) : Prop := ∃ t, s = p ++ t ∧ t ≠ [].

(** [reads dec a bs]: the reader [dec], placed at the bytes [bs], returns [a] and
    moves past them; placed at a part of [bs] cut short, it reports the input
    malformed.  It is a relation because one value may have several encodings
    (a map is written in iteration order). *)
Record reads {A} (dec : bytes → Z → gres binerr (A * Z)) (a : A) (bs : bytes) : Prop := {
  reads_ok data off rest :
    at_cursor data off (bs ++ rest) → dec data off = Ok (a, (off + len bs)%Z);
  reads_truncated data off p :
    at_cursor data off p → strict_prefix p bs → dec data off = Err ErrMalformed
}.

(** What the codecs promise each other about untrusted input: a reader never
    panics, never moves backwards, and its only error is [ErrMalformed]. *)
Class Reader {A} (dec : bytes → Z → gres binerr (A * Z)) : Prop :=
  reader_safe data off : (0 <= off)%Z →
    match dec data off with
    | Ok (_, off') => (off <= off')%Z
    | Err e => e = ErrMalformed
    | Panic => False
    end.

(** ** Big-endian integers *)

Lemma be_S n v : be (S n) v = byte_of_N (v / 256 ^ N.of_nat n) :: be n v.
Proof. done. Qed.

Lemma length_be n v : length (be n v) = n.
Proof. induction n as [|n IH]; [done|]. rewrite be_S. simpl. by rewrite IH. Qed.

Lemma len_be n v : len (be n v) = Z.of_nat n.
Proof. unfold len. by rewrite length_be. Qed.

#[global] Hint Rewrite len_be : kyria.

Lemma unbe_foldl bs acc :
  foldl (λ acc b, acc * 256 + Byte.to_N b)%N acc bs
  = (acc * 256 ^ N.of_nat (length bs) + unbe bs)%N.
Proof.
  unfold unbe. revert acc. induction bs as [|b bs IH]; intros acc; simpl; [lia|].
  rewrite IH, (IH (0 * 256 + _)%N), Nat2N.inj_succ, N.pow_succ_r'. lia.
Qed.

Lemma unbe_cons b bs :
  unbe (b :: bs) = (Byte.to_N b * 256 ^ N.of_nat (length bs) + unbe bs)%N.
Proof. unfold unbe at 1. simpl. rewrite unbe_foldl. lia. Qed.

Lemma unbe_be n v : unbe (be n v) = (v mod 256 ^ N.of_nat n)%N.
Proof.
  induction n as [|n IH]; [symmetry; apply N.mod_1_r|].
  rewrite be_S, unbe_cons, length_be, IH, byte_to_N_of_N, Nat2N.inj_succ, N.pow_succ_r'.
  rewrite (N.mul_comm 256), N.Div0.mod_mul_r. lia.
Qed.

Lemma unbe_lt bs : (unbe bs < 256 ^ N.of_nat (length bs))%N.
Proof.
  induction bs as [|b bs IH]; [done|].
  rewrite unbe_cons. cbn [length]. rewrite Nat2N.inj_succ, N.pow_succ_r'.
  pose proof (byte_to_N_lt b). nia.
Qed.

(** The high part of a number does not reach its low bytes. *)
Lemma be_add_high n k w : be n (k * 256 ^ N.of_nat n + w) = be n w.
Proof.
  revert k w. induction n as [|n IH]; intros k w; [done|]. rewrite !be_S.
  rewrite Nat2N.inj_succ, N.pow_succ_r', N.mul_assoc, IH. f_equal.
  unfold byte_of_N. rewrite (N.add_comm _ w), N.div_add by (apply N.pow_nonzero; done).
  by rewrite N.Div0.mod_add.
Qed.

Lemma be_unbe bs : be (length bs) (unbe bs) = bs.
Proof.
  induction bs as [|b bs IH]; [done|]. cbn [length].
  rewrite be_S, unbe_cons, be_add_high, IH. f_equal. pose proof (unbe_lt bs).
  rewrite N.div_add_l, N.div_small, N.add_0_r by (try done; apply N.pow_nonzero; done).
  apply byte_of_N_to_N.
Qed.

(** ** The cursor *)

Lemma at_cursor_start data : at_cursor data 0 data.
Proof. split; [|done]. pose proof (len_nonneg data). lia. Qed.

Lemma at_cursor_len data off s : at_cursor data off s → len data = (off + len s)%Z.
Proof.
  intros [? <-]. unfold len in *. rewrite length_drop. lia.
Qed.

Lemma at_cursor_step data off x s :
  at_cursor data off (x ++ s) → at_cursor data (off + len x) s.
Proof.
  intros Hc. pose proof (at_cursor_len _ _ _ Hc) as Hl. destruct Hc as [Hr Hd].
  rewrite len_app in Hl. pose proof (len_nonneg x). pose proof (len_nonneg s). split; [lia|].
  unfold len. rewrite Z2Nat.inj_add, Nat2Z.id by lia.
  by rewrite <-drop_drop, Hd, drop_app_length.
Qed.

Lemma slice_from_cursor data off s : at_cursor data off s → slice_from data off = Ok s.
Proof.
  intros [? <-]. unfold slice_from. repeat case_bool; [lia..|done].
Qed.

Lemma slice_from_ok data off s :
  slice_from data off = Ok s → at_cursor data off s.
Proof. unfold slice_from. repeat case_bool; intros; simp_res. by split. Qed.

Lemma slice_from_safe data off :
  (0 <= off <= len data)%Z → slice_from data off ≠ Panic.
Proof. unfold slice_from. intros. repeat case_bool; first [exfalso; lia|done]. Qed.

Lemma strict_prefix_len p s : strict_prefix p s → (len p < len s)%Z.
Proof. intros (t & -> & Ht). rewrite len_app. destruct t; [done|]. rewrite len_cons. pose proof (len_nonneg t). lia. Qed.

Lemma strict_prefix_nil p : ¬ strict_prefix p [].
Proof. intros H%strict_prefix_len. pose proof (len_nonneg p). autorewrite with kyria in H. lia. Qed.

Lemma strict_prefix_app p x y :
  strict_prefix p (x ++ y) →
  strict_prefix p x ∨ ∃ q, p = x ++ q ∧ strict_prefix q y.
Proof.
  intros (t & Ht & Hne). symmetry in Ht.
  apply app_eq_inv in Ht as [(k & -> & ->)|(k & -> & ->)].
  - right. exists k. split; [done|]. by exists t.
  - destruct k as [|b k]; [|left; by exists (b :: k)].
    right. exists []. rewrite !app_nil_r. split; [done|]. by exists y.
Qed.

#[export] Hint Resolve at_cursor_start : kyria.

(** ** The primitive readers *)

Lemma uint_at_reads w v : (v < 256 ^ N.of_nat w)%N → reads (uint_at w) v (be w v).
Proof.
  intros Hv. constructor; unfold uint_at.
  - intros data off rest Hc. pose proof (at_cursor_len _ _ _ Hc) as Hl.
    autorewrite with kyria in *. pose proof (len_nonneg rest).
    case_bool; [lia|]. rewrite (slice_from_cursor _ _ _ Hc). simpl.
    rewrite take_app_le, take_ge by (rewrite length_be; lia).
    by rewrite unbe_be, N.mod_small.
  - intros data off p Hc Hp%strict_prefix_len. pose proof (at_cursor_len _ _ _ Hc).
    autorewrite with kyria in *. case_bool; [done|lia].
Qed.

Lemma uint_at_reader w : Reader (uint_at w).
Proof.
  intros data off Ho. unfold uint_at. case_bool; [done|].
  destruct (slice_from data off) eqn:E; simpl; [lia| |].
  - unfold slice_from in E. repeat case_bool; done.
  - apply slice_from_safe in E; [done|lia].
Qed.

Lemma Uint16_reads v : (v < 2 ^ 16)%N → reads Uint16 v (be 2 v).
Proof. apply (uint_at_reads 2). Qed.
Lemma Uint32_reads v : (v < 2 ^ 32)%N → reads Uint32 v (be 4 v).
Proof. apply (uint_at_reads 4). Qed.
Lemma Uint64_reads v : (v < 2 ^ 64)%N → reads Uint64 v (be 8 v).
Proof. apply (uint_at_reads 8). Qed.

#[export] Instance Uint16_reader : Reader Uint16 := uint_at_reader 2.
#[export] Instance Uint32_reader : Reader Uint32 := uint_at_reader 4.
#[export] Instance Uint64_reader : Reader Uint64 := uint_at_reader 8.

Lemma Bytes_reads v n : len v = n → reads (λ data off, Bytes data off n) v v.
Proof.
  intros <-. constructor; unfold Bytes.
  - intros data off rest Hc. pose proof (at_cursor_len _ _ _ Hc) as Hl.
    autorewrite with kyria in *. pose proof (len_nonneg rest). pose proof (len_nonneg v).
    repeat case_bool; [lia..|]. simpl. rewrite (slice_from_cursor _ _ _ Hc). simpl.
    unfold len. by rewrite Nat2Z.id, take_app_length.
  - intros data off p Hc Hp%strict_prefix_len. pose proof (at_cursor_len _ _ _ Hc).
    repeat case_bool; simpl; try done; lia.
Qed.

#[export] Instance Bytes_reader n : Reader (λ data off, Bytes data off n).
Proof.
  intros data off Ho. unfold Bytes. repeat case_bool; simpl; try done.
  destruct (slice_from data off) eqn:E; simpl; [lia| |].
  - unfold slice_from in E. repeat case_bool; done.
  - apply slice_from_safe in E; [done|lia].
Qed.

Lemma Bool_reads b : reads Bool b [if b then x01 else x00].
Proof.
  constructor; unfold Bool.
  - intros data off rest Hc. pose proof (at_cursor_len _ _ _ Hc) as Hl.
    autorewrite with kyria in *. pose proof (len_nonneg rest).
    case_bool; [lia|]. rewrite (slice_from_cursor _ _ _ Hc). by destruct b.
  - intros data off p Hc Hp%strict_prefix_len. pose proof (at_cursor_len _ _ _ Hc).
    autorewrite with kyria in *. case_bool; [done|lia].
Qed.

#[export] Instance Bool_reader : Reader Bool.
Proof.
  intros data off Ho. unfold Bool. case_bool; [done|].
  destruct (slice_from data off) as [s| |] eqn:E; simpl.
  - apply slice_from_ok, at_cursor_len in E. destruct s; [autorewrite with kyria in E; lia|].
    destruct (_ && _); [done|lia].
  - unfold slice_from in E. repeat case_bool; done.
  - apply slice_from_safe in E; [done|lia].
Qed.

(** ** Composing readers *)

Lemma reads_ext {A} (dec dec' : bytes → Z → gres binerr (A * Z)) a bs :
  (∀ data off, dec data off = dec' data off) → reads dec a bs → reads dec' a bs.
Proof. intros He [H1 H2]. split; intros; rewrite <-He; eauto. Qed.

Lemma reader_ext {A} (dec dec' : bytes → Z → gres binerr (A * Z)) :
  (∀ data off, dec data off = dec' data off) → Reader dec → Reader dec'.
Proof. intros He Hr data off Ho. rewrite <-He. by apply Hr. Qed.

Lemma reads_ret {A} (a : A) : reads (λ _ off, Ok (a, off)) a [].
Proof.
  split.
  - intros data off rest _. autorewrite with kyria. by rewrite Z.add_0_r.
  - intros data off p _ Hp. by apply strict_prefix_nil in Hp.
Qed.

Lemma reads_bind {A B} (decA : bytes → Z → gres binerr (A * Z)) a ba
    (decB : A → bytes → Z → gres binerr (B * Z)) b bb :
  reads decA a ba → reads (decB a) b bb →
  reads (λ data off, do (a, off) <- decA data off; decB a data off) b (ba ++ bb).
Proof.
  intros HA HB. split.
  - intros data off rest Hc. rewrite <-app_assoc in Hc.
    rewrite (reads_ok _ _ _ HA _ _ _ Hc). simpl. apply at_cursor_step in Hc.
    rewrite (reads_ok _ _ _ HB _ _ _ Hc). autorewrite with kyria. do 2 f_equal. lia.
  - intros data off p Hc [Hp|(q & -> & Hq)]%strict_prefix_app.
    + by rewrite (reads_truncated _ _ _ HA _ _ _ Hc Hp).
    + rewrite (reads_ok _ _ _ HA _ _ _ Hc). simpl. apply at_cursor_step in Hc.
      by rewrite (reads_truncated _ _ _ HB _ _ _ Hc Hq).
Qed.

(** The last step of a reader, which only rearranges what was read. *)
Lemma reads_map {A B} (f : A → B) decA a ba :
  reads decA a ba → reads (λ data off, do (a, off) <- decA data off; Ok (f a, off)) (f a) ba.
Proof.
  intros HA. rewrite <-(app_nil_r ba).
  apply (reads_bind _ a _ (λ a _ off, Ok (f a, off))); [done|apply reads_ret].
Qed.

#[export] Instance reader_ret {A} (a : A) : Reader (λ _ off, Ok (a, off)).
Proof. intros data off Ho. lia. Qed.

#[export] Instance reader_bind {A B} (decA : bytes → Z → gres binerr (A * Z))
    (decB : A → bytes → Z → gres binerr (B * Z)) :
  Reader decA → (∀ a, Reader (decB a)) →
  Reader (λ data off, do (a, off) <- decA data off; decB a data off).
Proof.
  intros HA HB data off Ho. specialize (HA data off Ho).
  destruct (decA data off) as [[a off1]|e|]; simpl; [|done..].
  specialize (HB a data off1 ltac:(lia)).
  destruct (decB a data off1) as [[b off2]|e|]; [lia|done..].
Qed.

#[export] Instance reader_if {A} (b : bool) (d1 d2 : bytes → Z → gres binerr (A * Z)) :
  Reader d1 → Reader d2 → Reader (λ data off, if b then d1 data off else d2 data off).
Proof. by destruct b. Qed.

(** [for range n], each iteration reading one element and appending it. *)
Definition read_list {A} (dec : bytes → Z → gres binerr (A * Z)) (n : N)
    (data : bytes) (off : Z) : gres binerr (list A * Z) :=
  for_range n (λ '(acc, off), do (a, off) <- dec data off; Ok (acc ++ [a], off)) ([], off).

(** The same loop, folding each element into an accumulator. *)
Definition read_fold {A S} (f : S → A → S) (dec : bytes → Z → gres binerr (A * Z)) (n : N)
    (data : bytes) (s : S) (off : Z) : gres binerr (S * Z) :=
  for_range n (λ '(s, off), do (a, off) <- dec data off; Ok (f s a, off)) (s, off).

Lemma read_fold_list {A S} (f : S → A → S) dec n data s off :
  read_fold f dec n data s off
  = do (xs, off) <- read_list dec n data off; Ok (foldl f s xs, off).
Proof.
  unfold read_list, read_fold. rewrite !for_range_nat.
  enough (∀ acc off,
    for_nat (N.to_nat n) (λ '(s, off), do (a, off) <- dec data off; Ok (f s a, off))
      (foldl f s acc, off)
    = do (xs, off) <- for_nat (N.to_nat n)
        (λ '(acc, off), do (a, off) <- dec data off; Ok (acc ++ [a], off)) (acc, off);
      Ok (foldl f s xs, off)) as H by apply (H []).
  induction (N.to_nat n) as [|k IH]; intros acc o; simpl; [done|].
  destruct (dec data o) as [[a o1]|e|]; simpl; [|done..].
  rewrite <-IH. by rewrite foldl_app.
Qed.

Section read_list.
Context {A : Type} (dec : bytes → Z → gres binerr (A * Z)).

Let body (data : bytes) : list A * Z → gres binerr (list A * Z) :=
  λ '(acc, off), do (a, off) <- dec data off; Ok (acc ++ [a], off).

Lemma read_list_loop xs bss acc :
  Forall2 (reads dec) xs bss →
  reads (λ data off, for_nat (length xs) (body data) (acc, off)) (acc ++ xs) (concat bss).
Proof.
  intros Hxs. revert acc. induction Hxs as [|x bs xs bss Hx _ IH]; intros acc; simpl.
  { rewrite app_nil_r. apply reads_ret. }
  eapply reads_ext, (reads_bind dec x bs (λ x data off,
    for_nat (length xs) (body data) (acc ++ [x], off))); [|exact Hx|].
  - intros data off. simpl. by destruct (dec data off) as [[a o]| |].
  - simpl. specialize (IH (acc ++ [x])). by rewrite <-app_assoc in IH.
Qed.

Lemma read_list_reads xs bss n :
  Forall2 (reads dec) xs bss → n = N.of_nat (length xs) →
  reads (read_list dec n) xs (concat bss).
Proof.
  intros Hxs ->. eapply reads_ext, (read_list_loop xs bss []); [|done].
  intros data off. unfold read_list. by rewrite for_range_nat, Nat2N.id.
Qed.

Lemma read_list_loop_reader k acc :
  Reader dec → Reader (λ data off, for_nat k (body data) (acc, off)).
Proof.
  intros HR data. revert acc. induction k as [|k IH]; intros acc off Ho; simpl; [reflexivity|].
  specialize (HR data off Ho). destruct (dec data off) as [[a o]|e|]; simpl; [|done..].
  specialize (IH (acc ++ [a]) o ltac:(lia)). simpl in IH.
  destruct (for_nat k (body data) (acc ++ [a], o)) as [[? ?]| |]; [lia|done..].
Qed.

#[export] Instance read_list_reader n : Reader dec → Reader (read_list dec n).
Proof.
  intros HR. eapply reader_ext; [intros; symmetry; apply for_range_nat|].
  by apply read_list_loop_reader.
Qed.

#[export] Instance read_fold_reader {S} (f : S → A → S) n s :
  Reader dec → Reader (λ data off, read_fold f dec n data s off).
Proof.
  intros HR. eapply reader_ext; [intros; symmetry; apply read_fold_list|].
  apply (reader_bind (read_list dec n) (λ xs _ off, Ok (foldl f s xs, off))); apply _.
Qed.
End read_list.

(** ** Strings *)

(** What [PutString] appends when it succeeds. *)
Definition enc_string (s : bytes) : bytes := be 2 (N.of_nat (length s)) ++ s.

Lemma PutString_ok buf s :
  (len s < 2 ^ 16)%Z → PutString buf s = (buf ++ enc_string s, None).
Proof.
  intros Hs. unfold PutString, PutUint16, enc_string, len in *.
  case_bool; [unfold MaxUint16 in *; lia|].
  rewrite u16_small by lia. by rewrite <-app_assoc.
Qed.

Lemma String_eq data off :
  String data off = do (n, off) <- Uint16 data off; Bytes data off (Z.of_N n).
Proof.
  unfold String, Bytes. destruct (Uint16 data off) as [[n o]| |]; simpl; [|done..].
  repeat case_bool; simpl; try done; try lia. by rewrite <-Z_N_nat, N2Z.id.
Qed.

Lemma String_reads s : (len s < 2 ^ 16)%Z → reads String s (enc_string s).
Proof.
  intros Hs. unfold len in Hs. eapply reads_ext; [intros; symmetry; apply String_eq|].
  apply (reads_bind Uint16 (N.of_nat (length s)) _ (λ n data off, Bytes data off (Z.of_N n))).
  - apply Uint16_reads. lia.
  - apply Bytes_reads. unfold len. lia.
Qed.

#[export] Instance String_reader : Reader String.
Proof. eapply reader_ext; [intros; symmetry; apply String_eq|]. apply _. Qed.

#[export] Hint Resolve Uint16_reads Uint32_reads Uint64_reads Bytes_reads Bool_reads
  String_reads reads_ret : kyria.
