(* ===== verification/Vclock.v ===== *)
(** * Vector clocks (internal/vclock/vclock.go)

    [Clock] with [Increment], [Merge], [Compare] and [aheadOf].  A node missing
    from a clock reads as counter 0, so two different maps may be the same
    history: [clock_equiv] is that coarser equality, and every operation is
    proved to respect it.  The abstract specification is the pointwise order
    [clock_le] on counters. *)

From S2P Require Import Prelude.

(** ** Data *)

(** [type Clock map[string]uint64] *)
Abbreviation Clock := (gmap bytes N).

Inductive Order : Type :=
| Equal
| Before
| After
| Concurrent.

#[global] Instance Order_eq_dec : EqDecision Order.
Proof. solve_decision. Defined.

(** [c[n]]: a missing node reads as 0. *)
Definition counter (c : Clock) (n : bytes) : N := default 0%N (c !! n).

(** ** Operations *)

Definition Increment (c : Clock) (node : bytes) : Clock :=
  <[node := u64 (counter c node + 1)]> c.

(** The loop of [Merge] over the entries of [other], in iteration order. *)
Definition merge_entries (clock : Clock) (other : list (bytes * N)) : Clock :=
  foldl (λ clock '(node, count), <[node := N.max (counter clock node) count]> clock)
    clock other.

Definition Merge (c other : Clock) : Clock := merge_entries c (map_to_list other).

(** The loop of [aheadOf] over the entries of [c], in iteration order,
    returning at the first node that is ahead. *)
Fixpoint ahead_entries (c : list (bytes * N)) (other : Clock) : bool :=
  match c with
  | [] => false
  | (n, cnt) :: c => if (counter other n <? cnt)%N then true else ahead_entries c other
  end.

Definition aheadOf (c other : Clock) : bool := ahead_entries (map_to_list c) other.

Definition Compare (c other : Clock) : Order :=
  match aheadOf c other, aheadOf other c with
  | true, true => Concurrent
  | true, false => After
  | false, true => Before
  | false, false => Equal
  end.

(** ** Specification: histories ordered pointwise *)

Definition clock_le (c d : Clock) : Prop := ∀ n, (counter c n <= counter d n)%N.
Definition clock_equiv (c d : Clock) : Prop := ∀ n, counter c n = counter d n.
Definition clock_lt (c d : Clock) : Prop := clock_le c d ∧ ¬ clock_le d c.

(** Every counter is a [uint64]. *)
Definition clock_wf (c : Clock) : Prop := map_Forall (λ _ v, v < 2 ^ 64)%N c.

#[global] Instance clock_le_preorder : PreOrder clock_le.
Proof. split; [intros c n; lia|]. intros c d e H1 H2 n. specialize (H1 n). specialize (H2 n). lia. Qed.

#[global] Instance clock_equiv_equivalence : Equivalence clock_equiv.
Proof. split; unfold clock_equiv; [done|by intros ? ? H n|congruence]. Qed.

#[global] Instance counter_proper : Proper (clock_equiv ==> (=) ==> (=)) counter.
Proof. intros c d H n ? <-. apply H. Qed.

Lemma clock_equiv_le c d : clock_equiv c d ↔ clock_le c d ∧ clock_le d c.
Proof.
  split.
  - intros H. split; intros n; rewrite (H n); lia.
  - intros [H1 H2] n. specialize (H1 n). specialize (H2 n). lia.
Qed.

#[global] Instance clock_le_proper : Proper (clock_equiv ==> clock_equiv ==> iff) clock_le.
Proof. intros c c' Hc d d' Hd. unfold clock_le. by setoid_rewrite Hc; setoid_rewrite Hd. Qed.

#[global] Instance clock_lt_proper : Proper (clock_equiv ==> clock_equiv ==> iff) clock_lt.
Proof. intros c c' Hc d d' Hd. unfold clock_lt. by rewrite Hc, Hd. Qed.

#[global] Instance clock_lt_strict : StrictOrder clock_lt.
Proof.
  split; [intros c [? []]; done|].
  intros c d e [H1 H2] [H3 H4]. split; [by trans d|]. intros H. apply H4. by trans c.
Qed.

Lemma clock_lt_le_trans c d e : clock_lt c d → clock_le d e → clock_lt c e.
Proof. intros [H1 H2] H3. split; [by trans d|]. intros H. apply H2. by trans e. Qed.

Lemma clock_le_lt_trans c d e : clock_le c d → clock_lt d e → clock_lt c e.
Proof. intros H1 [H2 H3]. split; [by trans d|]. intros H. apply H3. by trans c. Qed.

Lemma clock_lt_le c d : clock_lt c d → clock_le c d.
Proof. by intros []. Qed.

#[export] Hint Resolve clock_lt_le : kyria.

(** ** aheadOf and Compare *)

Lemma ahead_entries_spec l d :
  ahead_entries l d = true ↔ ∃ n cnt, (n, cnt) ∈ l ∧ (counter d n < cnt)%N.
Proof.
  induction l as [|[n cnt] l IH]; simpl.
  - split; [done|]. by intros (? & ? & ?%elem_of_nil & _).
  - setoid_rewrite elem_of_cons. case_bool.
    + split; [intros _; exists n, cnt; auto|done].
    + rewrite IH. split; [intros (m & v & ? & ?); exists m, v; auto|].
      intros (m & v & [[= -> ->]|Hin] & Hlt); [lia|eauto].
Qed.

(** The iteration order of the map does not matter. *)
Lemma ahead_entries_order c l d :
  range_order c l → ahead_entries l d = aheadOf c d.
Proof.
  intros Hl. apply eq_bool_prop_intro. unfold aheadOf.
  rewrite !Is_true_true, !ahead_entries_spec. by setoid_rewrite Hl.
Qed.

(** Only the nodes present in the smaller clock need to be looked at. *)
Lemma clock_le_map_Forall c d :
  clock_le c d ↔ map_Forall (λ n cnt, cnt <= counter d n)%N c.
Proof.
  split.
  - intros Hle n cnt E. specialize (Hle n). unfold counter at 1 in Hle. by rewrite E in Hle.
  - intros Hall n. unfold counter at 1.
    destruct (c !! n) as [cnt|] eqn:E; simpl; [by apply (Hall n)|lia].
Qed.

#[global] Instance clock_le_dec : RelDecision clock_le.
Proof.
  intros c d. destruct (decide (map_Forall (λ n cnt, cnt <= counter d n)%N c)) as [H|H].
  - left. by apply clock_le_map_Forall.
  - right. by rewrite clock_le_map_Forall.
Defined.

Lemma aheadOf_spec c d : aheadOf c d = negb (bool_decide (clock_le c d)).
Proof.
  apply eq_bool_prop_intro. unfold aheadOf.
  rewrite negb_True, bool_decide_spec, Is_true_true, ahead_entries_spec, clock_le_map_Forall.
  setoid_rewrite elem_of_map_to_list. split.
  - intros (n & cnt & E & Hlt) Hall. specialize (Hall n cnt E). simpl in Hall. lia.
  - intros (n & cnt & E & Hlt)%map_not_Forall; [|apply _].
    exists n, cnt. split; [done|]. lia.
Qed.

Lemma Compare_eq c d :
  Compare c d =
    if decide (clock_le c d) then (if decide (clock_le d c) then Equal else Before)
    else (if decide (clock_le d c) then After else Concurrent).
Proof.
  unfold Compare. rewrite !aheadOf_spec.
  repeat case_bool_decide; repeat case_decide; done.
Qed.

Lemma Compare_Equal c d : Compare c d = Equal ↔ clock_equiv c d.
Proof. rewrite Compare_eq, clock_equiv_le. repeat case_decide; naive_solver. Qed.
Lemma Compare_Before c d : Compare c d = Before ↔ clock_lt c d.
Proof. rewrite Compare_eq. unfold clock_lt. repeat case_decide; naive_solver. Qed.
Lemma Compare_After c d : Compare c d = After ↔ clock_lt d c.
Proof. rewrite Compare_eq. unfold clock_lt. repeat case_decide; naive_solver. Qed.
Lemma Compare_Concurrent c d : Compare c d = Concurrent ↔ ¬ clock_le c d ∧ ¬ clock_le d c.
Proof. rewrite Compare_eq. repeat case_decide; naive_solver. Qed.

(** [Compare] sees histories, not maps. *)
#[global] Instance Compare_proper : Proper (clock_equiv ==> clock_equiv ==> (=)) Compare.
Proof.
  intros c c' Hc d d' Hd. rewrite !Compare_eq.
  repeat case_decide; try done; exfalso; rewrite <-?Hc, <-?Hd in *; naive_solver.
Qed.

(** ** Increment *)

Lemma counter_insert c n m v :
  counter (<[n := v]> c) m = if decide (n = m) then v else counter c m.
Proof. unfold counter. rewrite lookup_insert. by case_decide. Qed.

Lemma counter_Increment c n m :
  counter (Increment c n) m = if decide (n = m) then u64 (counter c n + 1) else counter c m.
Proof. apply counter_insert. Qed.

Lemma counter_wf c n : clock_wf c → (counter c n < 2 ^ 64)%N.
Proof.
  intros Hc. unfold counter. destruct (c !! n) eqn:E; simpl; [by apply (Hc n)|done].
Qed.

Lemma Increment_wf c n : clock_wf c → clock_wf (Increment c n).
Proof. intros Hc. apply map_Forall_insert_2; [|done]. by apply N.mod_lt. Qed.

Lemma Increment_lt c n : (counter c n + 1 < 2 ^ 64)%N → clock_lt c (Increment c n).
Proof.
  intros Hlt. split.
  - intros m. rewrite counter_Increment. case_decide; [subst|lia]. rewrite u64_small; lia.
  - intros H. specialize (H n). rewrite counter_Increment, decide_True in H by done.
    rewrite u64_small in H; lia.
Qed.

(** ** Merge *)

Lemma counter_merge_entries c l n :
  NoDup l.*1 →
  counter (merge_entries c l) n
  = N.max (counter c n) (counter (list_to_map l) n).
Proof.
  unfold merge_entries. revert c. induction l as [|[m v] l IH]; intros c Hnd; simpl.
  - unfold counter at 3. rewrite lookup_empty. simpl. lia.
  - apply NoDup_cons in Hnd as [Hm Hnd]. rewrite IH by done.
    assert (counter (list_to_map l) m = 0%N) as E.
    { unfold counter. by rewrite (not_elem_of_list_to_map_1 _ _ Hm). }
    rewrite !counter_insert. case_decide; [subst; lia|done].
Qed.

Lemma counter_Merge c d n : counter (Merge c d) n = N.max (counter c n) (counter d n).
Proof.
  unfold Merge. rewrite counter_merge_entries by apply NoDup_fst_map_to_list.
  by rewrite list_to_map_to_list.
Qed.

(** The iteration order of the map does not matter. *)
Lemma merge_entries_order c d l :
  range_order d l → clock_equiv (merge_entries c l) (Merge c d).
Proof.
  intros Hl n. rewrite counter_Merge, counter_merge_entries.
  - rewrite <-(list_to_map_to_list d). do 2 f_equal.
    apply list_to_map_proper; [|done]. rewrite Hl. apply NoDup_fst_map_to_list.
  - rewrite Hl. apply NoDup_fst_map_to_list.
Qed.

Lemma merge_entries_wf c l :
  clock_wf c → Forall (λ e, e.2 < 2 ^ 64)%N l → clock_wf (merge_entries c l).
Proof.
  intros Hc Hl. revert c Hc. induction Hl as [|[m v] l Hv _ IH]; intros c Hc; simpl; [done|].
  apply IH. apply map_Forall_insert_2; [|done].
  pose proof (counter_wf c m Hc). simpl in *. lia.
Qed.

Lemma Merge_wf c d : clock_wf c → clock_wf d → clock_wf (Merge c d).
Proof.
  intros Hc Hd. apply merge_entries_wf; [done|].
  apply Forall_forall. intros [n v] Hin%elem_of_map_to_list. by apply (Hd n).
Qed.

Lemma clock_wf_empty : clock_wf ∅.
Proof. apply map_Forall_empty. Qed.

#[export] Hint Resolve Increment_wf Merge_wf clock_wf_empty : kyria.

(** ** Properties *)

(** [Compare] decides the causal relation: its four verdicts are exactly the
    four possible relations between the two histories in the pointwise order of
    their counters, a node missing from a clock counting as 0. *)
Theorem Compare_decides_causality (c d : Clock) :
  (Compare c d = Equal ↔ clock_equiv c d) ∧
  (Compare c d = Before ↔ clock_le c d ∧ ¬ clock_le d c) ∧
  (Compare c d = After ↔ clock_le d c ∧ ¬ clock_le c d) ∧
  (Compare c d = Concurrent ↔ ¬ clock_le c d ∧ ¬ clock_le d c).
Proof.
  split_and!; [apply Compare_Equal|apply Compare_Before|apply Compare_After|].
  apply Compare_Concurrent.
Qed.

(** [Merge] is the causal join: a history includes the merge of two clocks
    exactly when it includes both, and the order in which Go happens to range
    over the other clock never changes the outcome. *)
Theorem Merge_least_upper_bound (c d : Clock) :
  (∀ e, clock_le (Merge c d) e ↔ clock_le c e ∧ clock_le d e) ∧
  (∀ l, range_order d l → clock_equiv (merge_entries c l) (Merge c d)).
Proof.
  split; [|by apply merge_entries_order].
  intros e. unfold clock_le. setoid_rewrite counter_Merge. split.
  - intros H. split; intros n; specialize (H n); lia.
  - intros [H1 H2] n. specialize (H1 n). specialize (H2 n). lia.
Qed.

(** [Increment] mints a clock that supersedes the one it copies, for every
    counter below the last [uint64]; at the last one the counter wraps to 0 and
    the result is superseded by the original instead. *)
Theorem Increment_order (c : Clock) (node : bytes) :
  clock_wf c →
  Compare c (Increment c node)
  = if (counter c node =? 2 ^ 64 - 1)%N then After else Before.
Proof.
  intros Hwf. pose proof (counter_wf c node Hwf). destruct (N.eqb_spec (counter c node) (2 ^ 64 - 1)) as [e|e].
  - apply Compare_After. split.
    + intros m. rewrite counter_Increment. case_decide; [subst|lia]. rewrite e. vm_compute. done.
    + intros H'. specialize (H' node). rewrite counter_Increment, decide_True, e in H' by done.
      by vm_compute in H'.
  - apply Compare_Before, Increment_lt. lia.
Qed.

Lemma Increment_order_witness :
  Compare {[str "n1" := 4%N]} (Increment {[str "n1" := 4%N]} (str "n1")) = Before.
Proof.
  refine (Increment_order {[str "n1" := 4%N]} (str "n1") _).
  apply map_Forall_singleton. reflexivity.
Defined.
