(* ===== verification/Version.v ===== *)
(** * Versions and sibling sets (internal/version/version.go)

    A key holds a list of concurrent versions.  [Reconcile] folds one version
    into such a list, [Frontier] is the join of its clocks, and [Encode] and
    [Decode] are the blob the store holds.  The specification side is causal
    coverage: [covers vs c] says that some version of [vs] has a history that
    includes [c]. *)

From S2P Require Import Prelude Binenc Vclock.

(** ** Data *)

Record Version : Type := mkVersion {
  Value : bytes;
  Clk : Clock;
  Deleted : bool;
  DeletedAt : Z
}.

#[global] Instance Version_eq_dec : EqDecision Version.
Proof. solve_decision. Defined.

(** ** Operations on sibling sets *)

(** One iteration of the loop of [Reconcile]: the state is [result, covered]. *)
Definition reconcile_step (incoming : Version) (st : list Version * bool) (v : Version) :
    list Version * bool :=
  let '(result, covered) := st in
  match Compare (Clk v) (Clk incoming) with
  | After | Equal => (result ++ [v], true)
  | Concurrent => (result ++ [v], covered)
  | Before => (result, covered)
  end.

Definition Reconcile (existing : list Version) (incoming : Version) : list Version :=
  let '(result, covered) := foldl (reconcile_step incoming) ([], false) existing in
  if covered : bool then result else result ++ [incoming].

Definition Frontier (versions : list Version) : Clock :=
  foldl (λ merged v, Merge (Clk v) merged) ∅ versions.

Definition Tombstone (clock : Clock) (deletedAt : Z) : Version :=
  {| Value := []; Clk := clock; Deleted := true; DeletedAt := deletedAt |}.

Definition Live (versions : list Version) : list Version :=
  foldl (λ l v, if negb (Deleted v) then l ++ [v] else l) [] versions.

(** The test of the inner loop of [Equal]. *)
Definition same_version (va vb : Version) : bool :=
  bool_decide (Value va = Value vb)
  && bool_decide (Compare (Clk va) (Clk vb) = Equal)
  && bool_decide (Deleted va = Deleted vb).

Definition EqualVersions (a b : list Version) : bool :=
  if negb (len a =? len b)%Z then false
  else forallb (λ va, existsb (same_version va) b) a.

(** ** Serialization

    [Encode] ranges over each clock, so it takes the iteration orders: [ord i]
    enumerates the clock of the [i]-th version. *)

Definition encode_clock (buf : bytes) (entries : list (bytes * N)) : bytes :=
  foldl (λ buf '(n, counter), PutUint64 (PutString buf n).1 counter) buf entries.

Definition encode_version (buf : bytes) (v : Version) (entries : list (bytes * N)) : bytes :=
  let buf := PutUint32 buf (u32 (N.of_nat (length (Value v)))) in
  let buf := buf ++ Value v in
  let buf := PutBool buf (Deleted v) in
  let buf := if Deleted v then PutUint64 buf (u64_of_int (DeletedAt v)) else buf in
  let buf := PutUint32 buf (u32 (N.of_nat (size (Clk v)))) in
  encode_clock buf entries.

Fixpoint encode_versions (ord : nat → Clock → list (bytes * N)) (i : nat) (buf : bytes)
    (versions : list Version) : bytes :=
  match versions with
  | [] => buf
  | v :: vs => encode_versions ord (S i) (encode_version buf v (ord i (Clk v))) vs
  end.

Definition Encode (ord : nat → Clock → list (bytes * N)) (versions : list Version) : bytes :=
  encode_versions ord 0 (PutUint32 [] (u32 (N.of_nat (length versions)))) versions.

(** One entry of a clock. *)
Definition decode_entry (b : bytes) (cursor : Z) : gres binerr (bytes * N * Z) :=
  do (node, cursor) <- String b cursor;
  do (counter, cursor) <- Uint64 b cursor;
  Ok (node, counter, cursor).

(** The inner loop of [Decode]: [clock[node] = counter], [clockN] times. *)
Definition decode_clock (b : bytes) (clockN : N) (cursor : Z) : gres binerr (Clock * Z) :=
  read_fold (λ clock '(node, counter), <[node := counter]> clock) decode_entry
    clockN b (∅ : Clock) cursor.

(** The body of the outer loop of [Decode]. *)
Definition decode_version (b : bytes) (cursor : Z) : gres binerr (Version * Z) :=
  do (valueLen, cursor) <- Uint32 b cursor;
  do (value, cursor) <- Bytes b cursor (Z.of_N valueLen);
  do (deleted, cursor) <- Bool b cursor;
  do (deletedAt, cursor) <- (if deleted : bool then Uint64 b cursor else Ok (0%N, cursor));
  do (clockN, cursor) <- Uint32 b cursor;
  do (clock, cursor) <- decode_clock b clockN cursor;
  Ok ({| Value := value; Clk := clock; Deleted := deleted;
         DeletedAt := int_of_u64 deletedAt |}, cursor).

Definition Decode (b : bytes) : gres binerr (list Version) :=
  if (len b =? 0)%Z then Ok []
  else
    do (count, cursor) <- Uint32 b 0;
    do (results, _) <- read_list decode_version count b cursor;
    Ok results.

(** [existing, _ := version.Decode(old)]: on an error the list is nil. *)
Definition decode_or_nil (b : bytes) : list Version :=
  match Decode b with Ok vs => vs | _ => [] end.

(** ** Specification *)

(** Some version of [vs] has a history that includes [c]. *)
Definition covers (vs : list Version) (c : Clock) : Prop :=
  ∃ v, v ∈ vs ∧ clock_le c (Clk v).

Definition concurrent (v w : Version) : Prop := Compare (Clk v) (Clk w) = Concurrent.

(** A sibling set: no version supersedes or repeats another. *)
Definition antichain (vs : list Version) : Prop := StronglySorted concurrent vs.

(** One history names one version. *)
Definition unique_clocks (vs : list Version) : Prop :=
  ∀ v w, v ∈ vs → w ∈ vs → clock_equiv (Clk v) (Clk w) → v = w.

(** [v] is in [vs] and nothing in [vs] supersedes it. *)
Definition maximal (vs : list Version) (v : Version) : Prop :=
  v ∈ vs ∧ ∀ w, w ∈ vs → ¬ clock_lt (Clk v) (Clk w).

(** What a replica holds after receiving [vs] in that order. *)
Definition reconcile_all (existing vs : list Version) : list Version :=
  foldl Reconcile existing vs.

(** The version [write] mints: the frontier with the coordinator's counter raised. *)
Definition mint (self : bytes) (existing : list Version) : Clock :=
  Increment (Frontier existing) self.

(** A version the wire format can carry. *)
Record version_wf (v : Version) : Prop := {
  wf_value : (len (Value v) < 2 ^ 32)%Z;
  wf_nodes : map_Forall (λ n _, len n < 2 ^ 16)%Z (Clk v);
  wf_clock : clock_wf (Clk v);
  wf_size : (N.of_nat (size (Clk v)) < 2 ^ 32)%N;
  wf_deletedAt : if Deleted v then (- 2 ^ 63 <= DeletedAt v < 2 ^ 63)%Z else DeletedAt v = 0%Z
}.

Definition lawful_order (ord : nat → Clock → list (bytes * N)) : Prop :=
  ∀ i c, range_order c (ord i c).

(** ** Reconcile, in closed form *)

(** [v] makes [incoming] redundant. *)
Definition covering (incoming v : Version) : bool :=
  bool_decide (clock_le (Clk incoming) (Clk v)).

(** [v] is kept next to [incoming]. *)
Definition kept (incoming v : Version) : Prop := ¬ clock_lt (Clk v) (Clk incoming).

#[global] Instance kept_dec incoming v : Decision (kept incoming v).
Proof. unfold kept, clock_lt. apply _. Defined.

Lemma reconcile_step_eq inc result covered v :
  reconcile_step inc (result, covered) v
  = (result ++ filter (kept inc) [v], covered || covering inc v).
Proof.
  unfold reconcile_step, covering. rewrite filter_cons, filter_nil.
  destruct (Compare (Clk v) (Clk inc)) eqn:E.
  - apply Compare_Equal, clock_equiv_le in E as [E1 E2].
    rewrite decide_True by (unfold kept, clock_lt; naive_solver).
    by rewrite bool_decide_true, orb_true_r.
  - apply Compare_Before in E. rewrite decide_False by (unfold kept; naive_solver).
    rewrite app_nil_r, bool_decide_false, orb_false_r; [done|apply E].
  - apply Compare_After in E. rewrite decide_True
      by (intros H; exact (irreflexivity clock_lt _ (transitivity E H))).
    by rewrite bool_decide_true, orb_true_r by auto with kyria.
  - apply Compare_Concurrent in E as [E1 E2].
    rewrite decide_True by (unfold kept, clock_lt; naive_solver).
    by rewrite bool_decide_false, orb_false_r.
Qed.

Lemma Reconcile_eq existing inc :
  Reconcile existing inc
  = filter (kept inc) existing
    ++ (if existsb (covering inc) existing then [] else [inc]).
Proof.
  unfold Reconcile.
  enough (∀ r c, foldl (reconcile_step inc) (r, c) existing
    = (r ++ filter (kept inc) existing, c || existsb (covering inc) existing)) as ->.
  { simpl. destruct (existsb _ _); [by rewrite app_nil_r|done]. }
  induction existing as [|v vs IH]; intros r c; cbn [foldl existsb].
  { by rewrite filter_nil, app_nil_r, orb_false_r. }
  rewrite reconcile_step_eq, IH, <-app_assoc, orb_assoc. do 2 f_equal.
  rewrite !filter_cons, filter_nil. by case_decide.
Qed.

Lemma existsb_covering inc vs : existsb (covering inc) vs = true ↔ covers vs (Clk inc).
Proof.
  rewrite existsb_exists. unfold covers, covering. split; intros (v & Hin & H); exists v.
  - split; [by apply list_elem_of_In|by apply bool_decide_eq_true in H].
  - split; [by apply list_elem_of_In|by apply bool_decide_eq_true].
Qed.

Lemma elem_of_Reconcile existing inc v :
  v ∈ Reconcile existing inc ↔
  (v ∈ existing ∧ kept inc v) ∨ (v = inc ∧ ¬ covers existing (Clk inc)).
Proof.
  rewrite Reconcile_eq, elem_of_app, list_elem_of_filter.
  pose proof (existsb_covering inc existing) as Hc.
  destruct (existsb _ _).
  - rewrite elem_of_nil. naive_solver.
  - rewrite list_elem_of_singleton. naive_solver.
Qed.

(** ** Coverage *)

Lemma covers_le vs c d : clock_le d c → covers vs c → covers vs d.
Proof. intros H (v & Hin & Hle). exists v. split; [done|by trans c]. Qed.

Lemma covers_elem vs v : v ∈ vs → covers vs (Clk v).
Proof. intros H. by exists v. Qed.

Lemma Reconcile_covers_incoming existing inc : covers (Reconcile existing inc) (Clk inc).
Proof.
  pose proof (existsb_covering inc existing) as Hc.
  destruct (existsb (covering inc) existing) eqn:E.
  - destruct (proj1 Hc eq_refl) as (v & Hin & Hle). exists v. split; [|done].
    apply elem_of_Reconcile. left. split; [done|]. by intros [_ ?].
  - exists inc. split; [|done]. apply elem_of_Reconcile. right. split; [done|]. naive_solver.
Qed.

Lemma Reconcile_covers_iff existing inc c :
  covers (Reconcile existing inc) c ↔ covers existing c ∨ clock_le c (Clk inc).
Proof.
  split.
  - intros (v & [[Hin _]|[-> _]]%elem_of_Reconcile & Hle); [left; by exists v|by right].
  - intros [(v & Hin & Hle)|Hle].
    + destruct (decide (kept inc v)) as [Hk|Hk].
      * exists v. split; [|done]. apply elem_of_Reconcile. by left.
      * apply (covers_le _ (Clk inc)); [|apply Reconcile_covers_incoming].
        trans (Clk v); [done|]. apply clock_lt_le, dec_stable, Hk.
    + eapply covers_le; [exact Hle|]. apply Reconcile_covers_incoming.
Qed.

Lemma reconcile_all_covers existing vs c :
  covers (reconcile_all existing vs) c ↔ covers existing c ∨ covers vs c.
Proof.
  unfold reconcile_all. revert existing. induction vs as [|v vs IH]; intros ex; simpl.
  - split; [by left|intros [H|(w & H%elem_of_nil & _)]; done].
  - rewrite IH, Reconcile_covers_iff. split.
    + intros [[H|H]|(w & H & Hle)]; [by left|right; exists v|right; exists w]; set_solver.
    + intros [H|(w & [->|H]%elem_of_cons & Hle)]; [by left; left|by left; right|].
      right. by exists w.
Qed.

(** ** Sibling sets are antichains *)

#[global] Instance concurrent_sym : Symmetric concurrent.
Proof. intros v w. unfold concurrent. rewrite !Compare_Concurrent. naive_solver. Qed.

Lemma antichain_filter (P : Version → Prop) `{!∀ v, Decision (P v)} vs :
  antichain vs → antichain (filter P vs).
Proof.
  unfold antichain. induction 1 as [|v vs _ IH Hall]; [by rewrite filter_nil; constructor|].
  rewrite filter_cons. case_decide; [|done]. constructor; [done|].
  apply Forall_forall. intros w [_ Hw]%list_elem_of_filter. by eapply Forall_forall in Hall.
Qed.

Lemma antichain_snoc vs v :
  antichain vs → Forall (concurrent v) vs → antichain (vs ++ [v]).
Proof.
  intros H1 H2. apply StronglySorted_app. split_and!; [|done|repeat constructor].
  intros x y Hx ->%list_elem_of_singleton. symmetry. by eapply Forall_forall in H2.
Qed.

Lemma Reconcile_antichain_step existing inc :
  antichain existing → antichain (Reconcile existing inc).
Proof.
  intros Ha. rewrite Reconcile_eq. destruct (existsb _ _) eqn:E.
  { rewrite app_nil_r. by apply antichain_filter. }
  apply antichain_snoc; [by apply antichain_filter|].
  apply Forall_forall. intros v [Hk Hin]%list_elem_of_filter.
  assert (¬ clock_le (Clk inc) (Clk v)) as Hn.
  { intros Hle. assert (false = true); [|done]. rewrite <-E. apply existsb_covering. by exists v. }
  apply Compare_Concurrent. split; [done|]. intros Hle. apply Hk. by split.
Qed.

Lemma reconcile_all_antichain existing vs :
  antichain existing → antichain (reconcile_all existing vs).
Proof.
  unfold reconcile_all. revert existing. induction vs as [|v vs IH]; intros ex H; simpl; [done|].
  apply IH. by apply Reconcile_antichain_step.
Qed.

Lemma antichain_nil : antichain [].
Proof. constructor. Qed.

Lemma antichain_NoDup vs : antichain vs → NoDup vs.
Proof.
  induction 1 as [|v vs _ IH Hall]; constructor; [|done]. intros Hin.
  eapply Forall_forall in Hall; [|exact Hin].
  apply Compare_Concurrent in Hall as [H _]. by apply H.
Qed.

#[export] Hint Resolve antichain_nil reconcile_all_antichain covers_elem : kyria.

(** ** The result is the set of maximal versions *)

Lemma elem_of_reconcile_all existing vs v :
  v ∈ reconcile_all existing vs → v ∈ existing ∨ v ∈ vs.
Proof.
  unfold reconcile_all. revert existing. induction vs as [|w vs IH]; intros ex H; simpl in *; [by left|].
  apply IH in H as [H|H]; [|set_solver]. apply elem_of_Reconcile in H as [[H _]|[-> _]]; set_solver.
Qed.

Lemma antichain_maximal vs v w :
  antichain vs → v ∈ vs → w ∈ vs → clock_le (Clk v) (Clk w) → v = w.
Proof.
  induction 1 as [|u vs _ IH Hall]; intros Hv Hw Hle; [by apply elem_of_nil in Hv|].
  rewrite Forall_forall in Hall.
  apply elem_of_cons in Hv as [->|Hv]; apply elem_of_cons in Hw as [->|Hw]; [done|..|by apply IH].
  - specialize (Hall w Hw). apply Compare_Concurrent in Hall. naive_solver.
  - specialize (Hall v Hv). apply Compare_Concurrent in Hall. naive_solver.
Qed.

Lemma reconcile_all_maximal vs v :
  unique_clocks vs → v ∈ reconcile_all [] vs ↔ maximal vs v.
Proof.
  intros Hu. assert (antichain (reconcile_all [] vs)) as Ha by auto with kyria. split.
  - intros Hv. pose proof (elem_of_reconcile_all [] vs v Hv) as [H%elem_of_nil|Hin]; [done|].
    split; [done|]. intros w Hw Hlt.
    destruct (proj2 (reconcile_all_covers [] vs (Clk w)) (or_intror (covers_elem _ _ Hw)))
      as (u & Hu1 & Hu2).
    assert (v = u) as <-.
    { eapply antichain_maximal; [done..|]. trans (Clk w); auto with kyria. }
    by apply Hlt.
  - intros [Hin Hmax].
    destruct (proj2 (reconcile_all_covers [] vs (Clk v)) (or_intror (covers_elem _ _ Hin)))
      as (u & Hu1 & Hu2).
    assert (u ∈ vs) as Huin.
    { by destruct (elem_of_reconcile_all [] vs u Hu1) as [H%elem_of_nil|]. }
    assert (v = u) as ->; [|done]. apply Hu; [done..|].
    apply clock_equiv_le. split; [done|]. apply dec_stable. intros Hn.
    apply (Hmax u Huin). by split.
Qed.

(** ** Frontier and mint *)

Lemma Frontier_foldl vs acc v :
  v ∈ vs → clock_le (Clk v) (foldl (λ merged v, Merge (Clk v) merged) acc vs).
Proof.
  assert (∀ vs acc, clock_le acc (foldl (λ merged v, Merge (Clk v) merged) acc vs)) as Hacc.
  { clear. induction vs as [|w vs IH]; intros acc; simpl; [done|].
    etrans; [|apply IH]. intros n. rewrite counter_Merge. lia. }
  revert acc. induction vs as [|w vs IH]; intros acc Hv; [by apply elem_of_nil in Hv|]. simpl.
  apply elem_of_cons in Hv as [->|Hv]; [|by apply IH].
  etrans; [|apply Hacc]. intros n. rewrite counter_Merge. lia.
Qed.

Lemma Frontier_ub vs v : v ∈ vs → clock_le (Clk v) (Frontier vs).
Proof. apply Frontier_foldl. Qed.

Lemma Frontier_wf vs : Forall (λ v, clock_wf (Clk v)) vs → clock_wf (Frontier vs).
Proof.
  unfold Frontier. generalize clock_wf_empty. generalize (∅ : Clock).
  intros acc Hacc Hvs. revert acc Hacc. induction Hvs; intros acc Hacc; simpl; auto with kyria.
Qed.

Lemma mint_supersedes self vs v :
  (counter (Frontier vs) self + 1 < 2 ^ 64)%N → v ∈ vs → clock_lt (Clk v) (mint self vs).
Proof.
  intros Hc Hv. eapply clock_le_lt_trans; [by apply Frontier_ub|]. by apply Increment_lt.
Qed.

(** Reconciling a version that supersedes everything leaves it alone. *)
Lemma Reconcile_dominating existing inc :
  (∀ v, v ∈ existing → clock_lt (Clk v) (Clk inc)) → Reconcile existing inc = [inc].
Proof.
  intros Hd. rewrite Reconcile_eq.
  assert (filter (kept inc) existing = []) as ->.
  { apply filter_none. intros v Hv Hk. by apply Hk, Hd. }
  destruct (existsb _ _) eqn:E; [|done].
  apply existsb_covering in E as (v & Hv & Hle). by destruct (Hd v Hv).
Qed.

(** ** The blob format *)

(** What [encode_version] appends. *)
Definition enc_entry (e : bytes * N) : bytes := enc_string e.1 ++ be 8 e.2.

Definition enc_deletedAt (v : Version) : bytes :=
  if Deleted v then be 8 (u64_of_int (DeletedAt v)) else [].

Definition enc_version (v : Version) (entries : list (bytes * N)) : bytes :=
  be 4 (N.of_nat (length (Value v))) ++ Value v ++ [if Deleted v then x01 else x00]
  ++ enc_deletedAt v ++ be 4 (N.of_nat (size (Clk v))) ++ concat (enc_entry <$> entries).

Definition entry_wf (e : bytes * N) : Prop := (len e.1 < 2 ^ 16)%Z ∧ (e.2 < 2 ^ 64)%N.

Lemma encode_clock_eq buf entries :
  Forall entry_wf entries → encode_clock buf entries = buf ++ concat (enc_entry <$> entries).
Proof.
  unfold encode_clock. intros H. revert buf.
  induction H as [|[n c] es [Hn Hc] _ IH]; intros buf; simpl; [by rewrite app_nil_r|].
  rewrite IH, PutString_ok by done. simpl. unfold PutUint64, enc_entry.
  simpl. by rewrite <-!app_assoc.
Qed.

Lemma encode_version_eq buf v entries :
  version_wf v → Forall entry_wf entries →
  encode_version buf v entries = buf ++ enc_version v entries.
Proof.
  intros [Hv _ _ Hs _] He. unfold encode_version, PutUint32, PutBool, PutUint64.
  rewrite encode_clock_eq by done. unfold enc_version, enc_deletedAt.
  rewrite !u32_small by (unfold len in Hv; lia).
  destruct (Deleted v); by rewrite <-!app_assoc.
Qed.

Lemma range_order_wf v l : version_wf v → range_order (Clk v) l → Forall entry_wf l.
Proof.
  intros Hv Hl. apply Forall_forall. intros [n c] Hin.
  rewrite Hl, elem_of_map_to_list in Hin.
  split; [by apply (wf_nodes _ Hv n c)|by apply (wf_clock _ Hv n)].
Qed.

Fixpoint enc_versions (ord : nat → Clock → list (bytes * N)) (i : nat) (vs : list Version) : bytes :=
  match vs with
  | [] => []
  | v :: vs => enc_version v (ord i (Clk v)) ++ enc_versions ord (S i) vs
  end.

Lemma encode_versions_eq ord i buf vs :
  lawful_order ord → Forall version_wf vs →
  encode_versions ord i buf vs = buf ++ enc_versions ord i vs.
Proof.
  intros Ho H. revert i buf. induction H as [|v vs Hv _ IH]; intros i buf; simpl; [by rewrite app_nil_r|].
  rewrite IH, encode_version_eq by eauto using range_order_wf. by rewrite <-app_assoc.
Qed.


Lemma decode_entry_reads e : entry_wf e → reads decode_entry e (enc_entry e).
Proof.
  destruct e as [n c]. intros [Hn Hc].
  apply (reads_bind String n _ (λ n data off, do (c, off) <- Uint64 data off; Ok (n, c, off)));
    [by auto with kyria|].
  by apply (reads_map (pair n)), Uint64_reads.
Qed.

(** Inserting the entries of a map one by one, in any order, rebuilds the map. *)
Lemma insert_entries_lookup {V} (l : list (bytes * V)) (m : gmap bytes V) (k : bytes) :
  NoDup l.*1 →
  foldl (λ (acc : gmap bytes V) '(n, c), <[n:=c]> acc) m l !! k
  = (list_to_map l : gmap bytes V) !! k ∪ m !! k.
Proof.
  revert m. induction l as [|[n c] l IH]; intros m Hnd; simpl.
  { by rewrite lookup_empty, (left_id None (∪)). }
  apply NoDup_cons in Hnd as [Hn Hnd]. rewrite IH, !lookup_insert by done.
  case_decide as Hd; [|done]. simpl in *. subst.
  rewrite (not_elem_of_list_to_map_1 _ _ Hn). by rewrite (left_id None (∪)), union_Some_l.
Qed.

Lemma insert_entries {V} (m : gmap bytes V) l :
  range_order m l → foldl (λ (acc : gmap bytes V) '(n, c), <[n:=c]> acc) ∅ l = m.
Proof.
  intros Hl. assert (NoDup l.*1) by (rewrite Hl; apply NoDup_fst_map_to_list).
  apply map_eq. intros k. rewrite insert_entries_lookup by done.
  rewrite lookup_empty, (right_id None (∪)).
  by rewrite (list_to_map_proper l (map_to_list m)), list_to_map_to_list.
Qed.

Lemma decode_clock_reads clk l :
  range_order clk l → Forall entry_wf l →
  reads (λ data off, decode_clock data (N.of_nat (size clk)) off) clk (concat (enc_entry <$> l)).
Proof.
  intros Hl He. remember (size clk) as k eqn:Hk.
  rewrite <-(insert_entries clk l Hl). unfold decode_clock.
  eapply reads_ext; [intros; symmetry; apply read_fold_list|].
  apply (reads_map (foldl _ _)), read_list_reads.
  - apply Forall2_fmap_r, Forall_Forall2_diag.
    eapply Forall_impl; [exact He|]. apply decode_entry_reads.
  - by rewrite Hk, Hl, length_map_to_list.
Qed.

Lemma decode_version_reads v l :
  version_wf v → range_order (Clk v) l → reads decode_version v (enc_version v l).
Proof.
  intros Hv Hl. pose proof (range_order_wf v l Hv Hl) as He.
  destruct v as [value clk del at_]. destruct Hv as [H1 H2 H3 H4 H5]. simpl in *.
  unfold decode_version, enc_version, enc_deletedAt.
  cbn [Value Clk Deleted DeletedAt].
  eapply (reads_bind Uint32); [apply Uint32_reads; unfold len in *; lia|]. cbv beta.
  eapply (reads_bind (λ b c, Bytes b c _)); [apply Bytes_reads; unfold len; lia|]. cbv beta.
  eapply (reads_bind Bool); [apply Bool_reads|]. cbv beta.
  eapply (reads_bind (λ b c, if del then Uint64 b c else Ok (0%N, c))
    (if del then u64_of_int at_ else 0%N)).
  { destruct del; [apply Uint64_reads; auto with kyria|apply reads_ret]. }
  cbv beta. eapply (reads_bind Uint32); [by apply Uint32_reads|]. cbv beta.
  assert (int_of_u64 (if del then u64_of_int at_ else 0%N) = at_) as Hat.
  { destruct del; [by apply int_of_u64_of_int|by rewrite H5]. }
  rewrite Hat.
  by apply (reads_map (λ clock, mkVersion value clock del _)), decode_clock_reads.
Qed.

#[export] Instance decode_entry_reader : Reader decode_entry.
Proof.
  apply (reader_bind String (λ n data off, do (c, off) <- Uint64 data off; Ok (n, c, off)));
    [apply _|]. intros n. apply (reader_bind Uint64 (λ c _ off, Ok (n, c, off))); apply _.
Qed.

#[export] Instance decode_version_reader : Reader decode_version.
Proof.
  unfold decode_version.
  apply (reader_bind Uint32 (λ valueLen b cursor, _)); [apply _|]. intros valueLen.
  apply (reader_bind (λ b c, Bytes b c _) (λ value b cursor, _)); [apply _|]. intros value.
  apply (reader_bind Bool (λ deleted b cursor, _)); [apply _|]. intros deleted.
  apply (reader_bind (λ b c, if deleted then Uint64 b c else Ok (0%N, c))
    (λ deletedAt b cursor, _)); [apply _|]. intros deletedAt.
  apply (reader_bind Uint32 (λ clockN b cursor, _)); [apply _|]. intros clockN.
  apply (reader_bind (λ b c, decode_clock b clockN c) (λ clock b cursor, _));
    [unfold decode_clock; apply _|]. intros clock. apply reader_ret.
Qed.

Lemma enc_versions_reads ord i vs :
  lawful_order ord → Forall version_wf vs →
  reads (read_list decode_version (N.of_nat (length vs))) vs (enc_versions ord i vs).
Proof.
  intros Ho Hvs.
  assert (∃ bss, enc_versions ord i vs = concat bss ∧ Forall2 (reads decode_version) vs bss)
    as (bss & -> & Hr).
  { revert i. induction Hvs as [|v vs Hv _ IH]; intros i; [by exists []|].
    destruct (IH (S i)) as (bss & Hb & Hr).
    exists (enc_version v (ord i (Clk v)) :: bss). simpl. rewrite Hb. split; [done|].
    constructor; [|done]. by apply decode_version_reads. }
  by apply read_list_reads.
Qed.

(** The reader of a whole blob after the empty-input test. *)
Definition decode_blob (b : bytes) (off : Z) : gres binerr (list Version * Z) :=
  do (count, off) <- Uint32 b off; read_list decode_version count b off.

#[export] Instance decode_blob_reader : Reader decode_blob.
Proof.
  apply (reader_bind Uint32 (λ count b off, read_list decode_version count b off)); apply _.
Qed.

Lemma Decode_eq b :
  Decode b = if (len b =? 0)%Z then Ok [] else do (vs, _) <- decode_blob b 0; Ok vs.
Proof.
  unfold Decode, decode_blob. case_bool; [done|]. by destruct (Uint32 b 0) as [[k o]| |].
Qed.

Lemma Encode_eq ord vs :
  lawful_order ord → Forall version_wf vs → (len vs < 2 ^ 32)%Z →
  Encode ord vs = be 4 (N.of_nat (length vs)) ++ enc_versions ord 0 vs.
Proof.
  intros Ho Hvs Hl. unfold Encode, PutUint32, len in *.
  rewrite encode_versions_eq by done. by rewrite u32_small by lia.
Qed.

Lemma Encode_reads ord vs :
  lawful_order ord → Forall version_wf vs → (len vs < 2 ^ 32)%Z →
  reads decode_blob vs (Encode ord vs).
Proof.
  intros Ho Hvs Hl. rewrite Encode_eq by done. unfold decode_blob, len in *.
  eapply (reads_bind Uint32); [apply Uint32_reads; lia|]. by apply enc_versions_reads.
Qed.

(** ** Live and Equal *)

Lemma Live_eq vs : Live vs = filter (λ v, Deleted v = false) vs.
Proof.
  unfold Live.
  enough (∀ l, foldl (λ l v, if negb (Deleted v) then l ++ [v] else l) l vs
    = l ++ filter (λ v, Deleted v = false) vs) as H by apply (H []).
  induction vs as [|v vs IH]; intros l; simpl.
  { by rewrite filter_nil, app_nil_r. }
  rewrite IH, filter_cons. destruct (Deleted v); simpl; [done|]. by rewrite <-app_assoc.
Qed.

Definition version_equiv (v w : Version) : Prop :=
  Value v = Value w ∧ clock_equiv (Clk v) (Clk w) ∧ Deleted v = Deleted w.

#[global] Instance version_equiv_equivalence : Equivalence version_equiv.
Proof.
  unfold version_equiv. split.
  - intros v. split_and!; done.
  - intros v w (? & ? & ?). split_and!; by symmetry.
  - intros u v w (? & ? & ?) (? & ? & ?). split_and!; etrans; eassumption.
Qed.

Lemma same_version_spec v w : same_version v w = true ↔ version_equiv v w.
Proof.
  unfold same_version, version_equiv. rewrite !andb_true_iff, !bool_decide_eq_true, Compare_Equal.
  naive_solver.
Qed.

(** The list of matches of an antichain has no repetition. *)
Lemma matches_NoDup a b : antichain a → Forall2 version_equiv a b → NoDup b.
Proof.
  intros Ha Hm. induction Hm as [|v w a b Hvw Hm IH]; [constructor|].
  inversion Ha as [|? ? Ha' Hall]; subst. constructor; [|by apply IH].
  intros Hin. apply list_elem_of_lookup in Hin as [i Hi].
  destruct (Forall2_lookup_r _ _ _ _ _ Hm Hi) as (u & Hu & Huw).
  eapply Forall_lookup in Hall; [|exact Hu].
  apply Compare_Concurrent in Hall as [H _]. apply H.
  destruct Hvw as (_ & Hv & _), Huw as (_ & Hw & _). by rewrite Hv, Hw.
Qed.

Lemma matches_exist (a b : list Version) :
  (∀ v, v ∈ a → ∃ w, w ∈ b ∧ version_equiv v w) →
  ∃ b', Forall2 version_equiv a b' ∧ (∀ w, w ∈ b' → w ∈ b).
Proof.
  induction a as [|v a IH]; intros Hm; [exists []; split; [constructor|set_solver]|].
  destruct IH as (b' & Hf & Hs); [set_solver|].
  destruct (Hm v) as (w & Hw & Hvw); [set_solver|].
  exists (w :: b'). split; [by constructor|set_solver].
Qed.

(** An antichain matched into a list of the same length is matched onto it. *)
Lemma matches_onto (a b : list Version) :
  antichain a → length a = length b →
  (∀ v, v ∈ a → ∃ w, w ∈ b ∧ version_equiv v w) →
  ∃ b', Forall2 version_equiv a b' ∧ b' ≡ₚ b.
Proof.
  intros Ha Hl Hm. destruct (matches_exist a b Hm) as (b' & Hf & Hs).
  exists b'. split; [done|]. pose proof (Forall2_length _ _ _ Hf).
  apply submseteq_length_Permutation; [|lia].
  apply NoDup_submseteq; [by apply (matches_NoDup a)|done].
Qed.

(** ** Properties *)

(** C9: [Reconcile] keeps a sibling set a sibling set (no version in it
    supersedes or repeats another) and loses and invents no causal history: the
    result covers exactly what the set covered, plus the incoming version. *)
Theorem Reconcile_sound (existing : list Version) (incoming : Version) :
  antichain existing →
  antichain (Reconcile existing incoming) ∧
  ∀ c, covers (Reconcile existing incoming) c
       ↔ covers existing c ∨ clock_le c (Clk incoming).
Proof.
  intros Ha. split; [by apply Reconcile_antichain_step|]. intros c. apply Reconcile_covers_iff.
Qed.

Definition v_ex (value : string) (clock : Clock) : Version :=
  {| Value := str value; Clk := clock; Deleted := false; DeletedAt := 0 |}.

Lemma Reconcile_sound_witness :
  antichain (Reconcile [v_ex "x" {[str "a" := 1%N]}] (v_ex "y" {[str "b" := 1%N]}))
  ∧ covers (Reconcile [v_ex "x" {[str "a" := 1%N]}] (v_ex "y" {[str "b" := 1%N]}))
      {[str "b" := 1%N]}.
Proof.
  destruct (Reconcile_sound [v_ex "x" {[str "a" := 1%N]}] (v_ex "y" {[str "b" := 1%N]}))
    as [H1 H2]; [repeat constructor|].
  split; [exact H1|]. apply H2. right. intros n. simpl. lia.
Defined.

(** C8: replicas converge.  Two replicas that received the same versions, in any
    order and any number of times each, cover the same histories, those of the
    versions received.  If moreover no two different versions received carry equal
    clocks, they hold the same siblings, which are exactly the versions received
    that no other supersedes.  (Without that proviso they may keep different ones of
    two versions with equal clocks: Repair.set_after_collection_lost reaches such a
    pair.) *)
Theorem reconcile_converges (vs ws : list Version) :
  (∀ v, v ∈ vs ↔ v ∈ ws) →
  (∀ c, covers (reconcile_all [] vs) c ↔ covers vs c) ∧
  (∀ c, covers (reconcile_all [] vs) c ↔ covers (reconcile_all [] ws) c) ∧
  (unique_clocks vs →
   reconcile_all [] vs ≡ₚ reconcile_all [] ws ∧
   ∀ v, v ∈ reconcile_all [] vs ↔ maximal vs v).
Proof.
  intros Hs.
  assert (∀ l c, covers (reconcile_all [] l) c ↔ covers l c) as Hcov.
  { intros l c. rewrite reconcile_all_covers. split; [|by right]. intros [(v & ?%elem_of_nil & _)|?]; done. }
  split; [apply Hcov|]. split.
  { intros c. rewrite !Hcov. split; intros (v & Hv & Hle); exists v; (split; [by apply Hs|done]). }
  intros Hu.
  assert (unique_clocks ws) as Hu' by (intros v w ? ? ?; apply Hu; [by apply Hs..|done]).
  split; [|by intros v; apply reconcile_all_maximal].
  apply NoDup_Permutation; [apply antichain_NoDup; auto with kyria..|].
  intros v. rewrite !reconcile_all_maximal by done. unfold maximal.
  rewrite Hs. by setoid_rewrite Hs.
Qed.

Lemma reconcile_converges_witness :
  let v1 := v_ex "x" {[str "a" := 1%N]} in
  let v2 := v_ex "y" {[str "b" := 1%N]} in
  reconcile_all [] [v1; v2] ≡ₚ reconcile_all [] [v2; v1; v2].
Proof.
  intros v1 v2. refine (proj1 (proj2 (proj2 (reconcile_converges [v1; v2] [v2; v1; v2] _)) _)).
  - set_solver.
  - intros v w Hv Hw He.
    apply elem_of_cons in Hv as [->|Hv%list_elem_of_singleton];
      apply elem_of_cons in Hw as [->|Hw%list_elem_of_singleton]; subst; try done;
      exfalso; specialize (He (str "a")); vm_compute in He; discriminate He.
Defined.

(** C10: a coordinated write resolves the conflict it sees.  The clock minted from
    the frontier of the stored siblings supersedes every one of them, so
    reconciling the new version leaves it as the only one, whether it is a
    value or a tombstone; the coordinator's counter must not be the last
    [uint64]. *)
Theorem mint_collapses (self : bytes) (existing : list Version) (v : Version) :
  (counter (Frontier existing) self < 2 ^ 64 - 1)%N →
  Clk v = mint self existing →
  (∀ w, w ∈ existing → Compare (Clk w) (Clk v) = Before) ∧
  Reconcile existing v = [v].
Proof.
  intros Hc Hv.
  assert (∀ w, w ∈ existing → clock_lt (Clk w) (Clk v)) as Hlt.
  { intros w Hw. rewrite Hv. apply mint_supersedes; [lia|done]. }
  split; [intros w Hw; by apply Compare_Before, Hlt|]. by apply Reconcile_dominating.
Qed.

Lemma mint_collapses_witness :
  let sibs := [v_ex "x" {[str "a" := 2%N]}; v_ex "y" {[str "b" := 1%N]}] in
  Reconcile sibs (v_ex "z" (mint (str "a") sibs)) = [v_ex "z" (mint (str "a") sibs)].
Proof.
  intros sibs.
  apply (mint_collapses (str "a") sibs (v_ex "z" (mint (str "a") sibs))); reflexivity.
Defined.

(** Redelivery is harmless.  Reconciling a version again, or a version some
    sibling already covers, leaves the sibling set exactly as it was; this is
    why a retried or replayed RSET is safe. *)
Theorem Reconcile_redelivery (existing : list Version) (incoming : Version) :
  antichain existing →
  Reconcile (Reconcile existing incoming) incoming = Reconcile existing incoming ∧
  (covers existing (Clk incoming) → Reconcile existing incoming = existing).
Proof.
  assert (∀ ex, antichain ex → covers ex (Clk incoming) → Reconcile ex incoming = ex) as Hcov.
  { intros ex Ha (v & Hv & Hle). rewrite Reconcile_eq.
    assert (existsb (covering incoming) ex = true) as ->
      by (apply existsb_covering; by exists v).
    rewrite app_nil_r. apply filter_all. intros w Hw Hlt.
    assert (w = v) as ->; [|by destruct Hlt].
    eapply antichain_maximal; [done..|]. trans (Clk incoming); auto with kyria. }
  intros Ha. split; [|by apply Hcov].
  apply Hcov; [by apply Reconcile_antichain_step|apply Reconcile_covers_incoming].
Qed.

Lemma Reconcile_redelivery_witness :
  Reconcile [v_ex "x" {[str "a" := 2%N]}] (v_ex "y" {[str "a" := 1%N]})
  = [v_ex "x" {[str "a" := 2%N]}].
Proof.
  refine (proj2 (Reconcile_redelivery
    [v_ex "x" {[str "a" := 2%N]}] (v_ex "y" {[str "a" := 1%N]}) _) _).
  - repeat constructor.
  - exists (v_ex "x" {[str "a" := 2%N]}). split; [set_solver|].
    apply (bool_decide_unpack (clock_le _ _)). vm_compute. exact I.
Defined.

(** Deletes bury and never overreach.  A tombstone minted from the stored
    siblings leaves the key with no live version, so it reads as a miss; a
    tombstone concurrent with a live version leaves that version live. *)
Theorem Tombstone_buries (self : bytes) (existing : list Version) (at_ : Z) :
  (counter (Frontier existing) self < 2 ^ 64 - 1)%N →
  Live (Reconcile existing (Tombstone (mint self existing) at_)) = [] ∧
  ∀ (t : Version) (v : Version),
    Deleted t = true → v ∈ existing → Deleted v = false →
    Compare (Clk v) (Clk t) = Concurrent → v ∈ Live (Reconcile existing t).
Proof.
  intros Hc. split.
  - rewrite Reconcile_dominating; [done|]. intros v Hv. simpl. apply mint_supersedes; [lia|done].
  - intros t v Ht Hv Hl [H1 H2]%Compare_Concurrent. rewrite Live_eq.
    apply list_elem_of_filter. split; [done|]. apply elem_of_Reconcile. left.
    split; [done|]. by intros [H _].
Qed.

Lemma Tombstone_buries_witness :
  let sibs := [v_ex "x" {[str "a" := 2%N]}; v_ex "y" {[str "b" := 1%N]}] in
  Live (Reconcile sibs (Tombstone (mint (str "a") sibs) 1000)) = [].
Proof.
  intros sibs. apply (Tombstone_buries (str "a") sibs 1000). reflexivity.
Defined.

(** On sibling sets, [Equal] is set equality: it answers true exactly when
    the two sets have the same number of versions and each version of either
    set has a version of the other with the same value, history and deletion
    mark, whatever the order. *)
Theorem EqualVersions_spec (a b : list Version) :
  antichain a → antichain b →
  EqualVersions a b = true ↔
    (∀ v, v ∈ a → ∃ w, w ∈ b ∧ version_equiv v w) ∧
    (∀ w, w ∈ b → ∃ v, v ∈ a ∧ version_equiv v w).
Proof.
  intros Ha Hb.
  assert (forallb (λ va, existsb (same_version va) b) a = true ↔
    ∀ v, v ∈ a → ∃ w, w ∈ b ∧ version_equiv v w) as Hfor.
  { rewrite forallb_forall. setoid_rewrite existsb_exists.
    setoid_rewrite same_version_spec. by setoid_rewrite list_elem_of_In. }
  unfold EqualVersions, len. destruct (Z.eqb_spec (Z.of_nat (length a)) (Z.of_nat (length b))) as [Hl|Hl].
  - simpl. rewrite Hfor. split; [|by intros []]. intros Hm. split; [done|].
    destruct (matches_onto a b) as (b' & Hf & Hp); [done|lia|done|].
    intros w Hw. rewrite <-Hp in Hw. apply list_elem_of_lookup in Hw as [i Hi].
    destruct (Forall2_lookup_r _ _ _ _ _ Hf Hi) as (v & Hv & Hvw).
    exists v. split; [|done]. apply list_elem_of_lookup. by exists i.
  - simpl. split; [done|]. intros [H1 H2]. destruct Hl. f_equal.
    destruct (matches_exist a b H1) as (b' & Hf & Hs).
    destruct (matches_exist b a) as (a' & Hf' & Hs').
    { intros w Hw. destruct (H2 w Hw) as (v & ? & ?). exists v. by split. }
    apply Nat.le_antisymm.
    + rewrite (Forall2_length _ _ _ Hf). apply submseteq_length, NoDup_submseteq; [|done].
      by apply (matches_NoDup a).
    + rewrite (Forall2_length _ _ _ Hf'). apply submseteq_length, NoDup_submseteq; [|done].
      by apply (matches_NoDup b).
Qed.

Lemma EqualVersions_spec_witness :
  EqualVersions [v_ex "x" {[str "a" := 1%N]}; v_ex "y" {[str "b" := 1%N]}]
    [v_ex "y" {[str "b" := 1%N]}; v_ex "x" {[str "a" := 1%N]}] = true.
Proof.
  apply EqualVersions_spec; [repeat constructor..|].
  split; intros v Hv; exists v; (split; [set_solver|reflexivity]).
Defined.

(** C11: the blob format round-trips.  Whatever iteration order Go picks for each
    clock, decoding an encoded sibling set returns that set, version for
    version, and bytes after it are ignored. *)
Theorem Decode_Encode (ord : nat → Clock → list (bytes * N)) (vs : list Version) (junk : bytes) :
  lawful_order ord → Forall version_wf vs → (len vs < 2 ^ 32)%Z →
  Decode (Encode ord vs ++ junk) = Ok vs.
Proof.
  intros Ho Hvs Hl. pose proof (Encode_reads ord vs Ho Hvs Hl) as Hr.
  rewrite Decode_eq. destruct (Z.eqb_spec (len (Encode ord vs ++ junk)) 0) as [Hz|Hz].
  { rewrite (Encode_eq ord vs) in Hz by done. autorewrite with kyria in Hz.
    pose proof (len_nonneg (enc_versions ord 0 vs)). pose proof (len_nonneg junk). lia. }
  by rewrite (reads_ok _ _ _ Hr _ _ junk (at_cursor_start _)).
Qed.

Lemma Decode_Encode_witness :
  let v := Tombstone {[str "n1" := 3%N; str "n2" := 1%N]} 1700000000 in
  Decode (Encode (λ _ c, reverse (map_to_list c)) [v] ++ str "tail") = Ok [v].
Proof.
  intros v. apply Decode_Encode.
  - intros i c. unfold range_order. apply reverse_Permutation.
  - constructor; [|constructor]. split.
    + reflexivity.
    + apply (bool_decide_unpack _). vm_compute. exact I.
    + apply (bool_decide_unpack _). vm_compute. exact I.
    + reflexivity.
    + simpl. lia.
  - reflexivity.
Defined.

(** [Decode] is defensive.  On any input at all it returns a sibling set or
    [ErrMalformed], never a panic, and an encoded set cut short anywhere after
    its first byte is reported malformed. *)
Theorem Decode_defensive (b : bytes) (ord : nat → Clock → list (bytes * N)) (vs : list Version) :
  (Decode b = Err ErrMalformed ∨ ∃ ws, Decode b = Ok ws) ∧
  (lawful_order ord → Forall version_wf vs → (len vs < 2 ^ 32)%Z →
   strict_prefix b (Encode ord vs) → b ≠ [] → Decode b = Err ErrMalformed).
Proof.
  rewrite Decode_eq. split.
  - pose proof (reader_safe (dec := decode_blob) b 0 ltac:(lia)) as Hs. case_bool; [eauto|].
    destruct (decode_blob b 0) as [[ws o]|e|]; simpl; [eauto|subst; eauto|done].
  - intros Ho Hvs Hl Hp Hne. destruct (Z.eqb_spec (len b) 0) as [Hz|Hz].
    { destruct b; [done|]. autorewrite with kyria in Hz. pose proof (len_nonneg b0). lia. }
    by rewrite (reads_truncated _ _ _ (Encode_reads ord vs Ho Hvs Hl) _ _ _ (at_cursor_start b) Hp).
Qed.

Lemma Decode_defensive_witness :
  Decode (take 20 (Encode (λ _, map_to_list) [v_ex "x" {[str "n1" := 3%N]}])) = Err ErrMalformed.
Proof.
  apply (Decode_defensive _ (λ _, map_to_list) [v_ex "x" {[str "n1" := 3%N]}]).
  - intros i c. unfold range_order. reflexivity.
  - constructor; [|constructor]. split; try reflexivity;
      apply (bool_decide_unpack _); vm_compute; exact I.
  - reflexivity.
  - exists (drop 20 (Encode (λ _, map_to_list) [v_ex "x" {[str "n1" := 3%N]}])).
    split; [symmetry; apply take_drop|]. vm_compute. discriminate.
  - vm_compute. discriminate.
Defined.

(** The blob is not canonical.  Because [Encode] writes a clock in Go's map
    iteration order, one sibling set has several encodings; two replicas that
    hold the same versions may hold different bytes. *)
Theorem Encode_not_canonical :
  ∃ (ord ord' : nat → Clock → list (bytes * N)) (vs : list Version),
    lawful_order ord ∧ lawful_order ord' ∧
    Decode (Encode ord vs) = Decode (Encode ord' vs) ∧ Encode ord vs ≠ Encode ord' vs.
Proof.
  exists (λ _, map_to_list), (λ _ c, reverse (map_to_list c)),
    [v_ex "x" {[str "n1" := 3%N; str "n2" := 1%N]}].
  split_and!.
  - intros i c. unfold range_order. reflexivity.
  - intros i c. unfold range_order. apply reverse_Permutation.
  - vm_compute. reflexivity.
  - vm_compute. discriminate.
Qed.
