(* ===== verification/Sketch.v ===== *)
(** * The count-min sketch behind TinyLFU (internal/store/sketch.go)

    [maphash.String(seed, key)] is some fixed function of the key, chosen by the
    random seed: a sketch carries that function in the field [seed], and every
    theorem holds for all of them.  The counters are a flat list in row-major
    order; [column_bound] shows that every index the code computes is inside
    it. *)

From S2P Require Import Prelude.

(** ** Data *)

Definition sketchDepth : Z := 4.
Definition counterMax : N := 15.

Record countMinSketch : Type := mkSketch {
  counters : list N;
  width : Z;
  mask : N;
  sketch_size : N;
  sampleSize : Z;
  seed : bytes → N
}.

(** ** Operations *)

Definition nextPowerOfTwo (n : Z) : Z :=
  if (n <=? 1)%Z then 1 else i64 (Z.shiftl 1 (Z.of_N (N.size (u64_of_int (n - 1))))).

(** [NewCountMinSketch]; [make] panics on a length that is negative or whose
    bytes exceed the address space. *)
Definition NewCountMinSketch (seed : bytes → N) (capacity : Z) : gres False countMinSketch :=
  let capacity := if (capacity <? 1)%Z then 1%Z else capacity in
  let width := nextPowerOfTwo capacity in
  let n := i64 (sketchDepth * width) in
  if make_panics n 4 then Panic
  else Ok {| counters := replicate (Z.to_nat n) 0%N;
             width := width;
             mask := u64_of_int (width - 1);
             sketch_size := 0;
             sampleSize := i64 (10 * capacity);
             seed := seed |}.

Definition column (s : countMinSketch) (row : Z) (h1 h2 : N) : Z :=
  let col := N.land (u32 (h1 + u32 (u32_of_int row * h2))) (u32 (mask s)) in
  i64 (row * width s + Z.of_N col).

Definition counter_at (s : countMinSketch) (i : Z) : N := counters s !!! Z.to_nat i.

(** The two halves of the hash. *)
Definition hash1 (s : countMinSketch) (key : bytes) : N := u32 (seed s key).
Definition hash2 (s : countMinSketch) (key : bytes) : N := u32 (N.shiftr (seed s key) 32).

(** One iteration of the row loop of [add]. *)
Definition add_row (h1 h2 : N) (s : countMinSketch) (row : Z) : countMinSketch :=
  let i := column s row h1 h2 in
  if (counter_at s i <? counterMax)%N
  then {| counters := <[Z.to_nat i := u32 (counter_at s i + 1)]> (counters s);
          width := width s; mask := mask s; sketch_size := sketch_size s;
          sampleSize := sampleSize s; seed := seed s |}
  else s.

Definition reset (s : countMinSketch) : countMinSketch :=
  {| counters := (λ c, N.shiftr c 1) <$> counters s;
     width := width s; mask := mask s; sketch_size := 0;
     sampleSize := sampleSize s; seed := seed s |}.

Definition rows : list Z := [0; 1; 2; 3]%Z.

Definition add (s : countMinSketch) (key : bytes) : countMinSketch :=
  let s1 := foldl (add_row (hash1 s key) (hash2 s key)) s rows in
  let s2 := {| counters := counters s1; width := width s1; mask := mask s1;
               sketch_size := u64 (sketch_size s1 + 1);
               sampleSize := sampleSize s1; seed := seed s1 |} in
  if (sampleSize s2 <=? int_of_u64 (sketch_size s2))%Z then reset s2 else s2.

Definition estimate (s : countMinSketch) (key : bytes) : N :=
  foldl (λ minCount row,
    let c := counter_at s (column s row (hash1 s key) (hash2 s key)) in
    if (c <? minCount)%N then c else minCount) counterMax rows.

(** ** Invariant *)

(** The grid has [4 * width] saturating counters, [width] is a power of two
    with [mask] its low bits, and aging is due exactly when [sampleSize]
    increments have been counted. *)
Record sketch_wf (s : countMinSketch) : Prop := {
  wf_width : ∃ k, (0 <= k <= 44)%Z ∧ width s = (2 ^ k)%Z;
  wf_mask : mask s = Z.to_N (width s - 1);
  wf_counters : len (counters s) = (4 * width s)%Z;
  wf_saturated : Forall (λ c, c <= counterMax)%N (counters s);
  wf_sample : (10 <= sampleSize s < 2 ^ 63)%Z;
  wf_sketch_size : (Z.of_N (sketch_size s) < sampleSize s)%Z
}.

Definition adds (s : countMinSketch) (keys : list bytes) : countMinSketch := foldl add s keys.

Definition count (k : bytes) (keys : list bytes) : N :=
  N.of_nat (length (filter (λ x, x = k) keys)).

(** ** Geometry *)

Lemma nextPowerOfTwo_spec n :
  (n <= 2 ^ 62)%Z → nextPowerOfTwo n = (2 ^ Z.log2_up n)%Z.
Proof.
  intros Hn. unfold nextPowerOfTwo. case_bool.
  - by rewrite Z.log2_up_eqn0 by lia.
  - apply shiftl_len_log2_up. lia.
Qed.

Lemma column_eq s row h1 h2 :
  sketch_wf s → (0 <= row < 4)%Z →
  ∃ col, (0 <= col < width s)%Z ∧ column s row h1 h2 = (row * width s + col)%Z.
Proof.
  intros [(k & Hk & Hw) Hm _ _ _ _] Hr.
  exists (Z.of_N (N.land (u32 (h1 + u32 (u32_of_int row * h2))) (u32 (mask s)))).
  set (x := u32 (h1 + _)). rewrite Hm.
  assert (0 < 2 ^ k)%Z by (apply Z.pow_pos_nonneg; lia).
  assert (2 ^ k <= 2 ^ 44)%Z by (apply Z.pow_le_mono_r; lia).
  assert (N.land x (u32 (Z.to_N (width s - 1))) <= Z.to_N (width s - 1))%N as Hle.
  { apply N.le_trans with (u32 (Z.to_N (width s - 1))).
    - apply N.land_le_r.
    - apply N.Div0.mod_le. }
  split; [lia|]. unfold column. fold x. rewrite Hm. apply i64_small. nia.
Qed.

Lemma column_bound s row h1 h2 :
  sketch_wf s → row ∈ rows → (0 <= column s row h1 h2 < len (counters s))%Z.
Proof.
  intros Hs Hr. assert (0 <= row < 4)%Z as Hr' by (unfold rows in Hr; set_solver by lia).
  destruct (column_eq s row h1 h2 Hs Hr') as (col & Hc & ->).
  rewrite (wf_counters _ Hs). nia.
Qed.

(** ** One row of one insertion *)

(** Two sketches with the same shape and hash. *)
Definition same_shape (s t : countMinSketch) : Prop :=
  width s = width t ∧ mask s = mask t ∧ sampleSize s = sampleSize t ∧ seed s = seed t
  ∧ length (counters s) = length (counters t).

Lemma column_shape s t row h1 h2 : same_shape s t → column s row h1 h2 = column t row h1 h2.
Proof. intros (Hw & Hm & _). unfold column. by rewrite Hw, Hm. Qed.

Lemma hash_shape s t key :
  same_shape s t → hash1 s key = hash1 t key ∧ hash2 s key = hash2 t key.
Proof. intros (_ & _ & _ & Hs & _). unfold hash1, hash2. by rewrite Hs. Qed.

Lemma add_row_shape h1 h2 s row : same_shape (add_row h1 h2 s row) s.
Proof.
  unfold add_row. case_bool; split_and!; simpl; try done. by rewrite length_insert.
Qed.

Lemma counter_saturated s i : sketch_wf s → (counter_at s i <= counterMax)%N.
Proof.
  intros Hs. unfold counter_at. destruct (decide (Z.to_nat i < length (counters s))%nat) as [Hi|Hi].
  - destruct (lookup_lt_is_Some_2 _ _ Hi) as [c Hc]. rewrite (list_lookup_total_correct _ _ _ Hc).
    by apply (Forall_lookup_1 _ _ _ _ (wf_saturated _ Hs) Hc).
  - rewrite list_lookup_total_alt, lookup_ge_None_2 by lia. done.
Qed.

Lemma add_row_wf h1 h2 s row : sketch_wf s → sketch_wf (add_row h1 h2 s row).
Proof.
  intros Hs. destruct (add_row_shape h1 h2 s row) as (Hw & Hm & Hss & _ & Hl).
  destruct Hs as [H1 H2 H3 H4 H5 H6] eqn:E.
  split; try (rewrite ?Hw, ?Hm, ?Hss; done).
  - unfold len. by rewrite Hl, Hw.
  - unfold add_row. case_bool; [|done]. simpl. apply Forall_insert; [done|].
    unfold counterMax in *. rewrite u32_small; lia.
  - unfold add_row. by case_bool.
Qed.

Lemma counter_add_row h1 h2 s row j :
  sketch_wf s → row ∈ rows → (0 <= j)%Z →
  counter_at (add_row h1 h2 s row) j
  = if (j =? column s row h1 h2)%Z then N.min counterMax (counter_at s j + 1) else counter_at s j.
Proof.
  intros Hs Hr Hj. pose proof (column_bound s row h1 h2 Hs Hr) as Hb. unfold len in Hb.
  pose proof (counter_saturated s (column s row h1 h2) Hs) as Hsat.
  unfold add_row. destruct (Z.eqb_spec j (column s row h1 h2)) as [->|Hne].
  - case_bool; [|lia]. unfold counter_at at 1. simpl.
    rewrite list_lookup_total_insert_eq by lia. unfold counterMax in *. rewrite u32_small; lia.
  - case_bool; [|done]. unfold counter_at at 1. simpl.
    rewrite list_lookup_total_insert_ne by lia. done.
Qed.

(** ** A whole insertion *)

(** The counter of [key] in [row]. *)
Definition cell (s : countMinSketch) (key : bytes) (row : Z) : N :=
  counter_at s (column s row (hash1 s key) (hash2 s key)).

Lemma estimate_ge s key n :
  (n <= estimate s key)%N ↔ (n <= counterMax)%N ∧ ∀ row, row ∈ rows → (n <= cell s key row)%N.
Proof.
  unfold estimate, cell. generalize rows, counterMax. intros l. induction l as [|r l IH]; intros m; simpl.
  - split; [intros; split; [done|set_solver]|by intros []].
  - rewrite IH. setoid_rewrite elem_of_cons. case_bool; split; intros [Hm Hl]; split_and!; try lia;
      try (intros r' [->|Hr']; [lia|by apply Hl]); try (by apply Hl; left);
      intros r' Hr'; apply Hl; by right.
Qed.

Section rows.
Context (h1 h2 : N).

Lemma add_rows_shape l s : same_shape (foldl (add_row h1 h2) s l) s.
Proof.
  revert s. induction l as [|r l IH]; intros s; simpl; [by split_and!|].
  destruct (IH (add_row h1 h2 s r)) as (? & ? & ? & ? & ?).
  destruct (add_row_shape h1 h2 s r) as (? & ? & ? & ? & ?). split_and!; congruence.
Qed.

Lemma add_rows_wf l s : sketch_wf s → sketch_wf (foldl (add_row h1 h2) s l).
Proof. revert s. induction l; intros s Hs; simpl; auto using add_row_wf. Qed.

Lemma add_rows_monotone l s j :
  sketch_wf s → (∀ r, r ∈ l → r ∈ rows) → (0 <= j)%Z →
  (counter_at s j <= counter_at (foldl (add_row h1 h2) s l) j)%N.
Proof.
  revert s. induction l as [|r l IH]; intros s Hs Hl Hj; simpl; [done|].
  etrans; [|apply IH; [by apply add_row_wf|set_solver|done]].
  rewrite counter_add_row by (try done; set_solver).
  pose proof (counter_saturated s j Hs). case_bool; lia.
Qed.

Lemma add_rows_increment l s row :
  sketch_wf s → (∀ r, r ∈ l → r ∈ rows) → row ∈ l →
  (N.min counterMax (counter_at s (column s row h1 h2) + 1)
   <= counter_at (foldl (add_row h1 h2) s l) (column s row h1 h2))%N.
Proof.
  revert s. induction l as [|r l IH]; intros s Hs Hl Hr; [by apply elem_of_nil in Hr|]. simpl.
  assert (r ∈ rows) as Hrr by set_solver.
  assert (row ∈ rows) as Hrow by set_solver.
  pose proof (column_bound s row h1 h2 Hs Hrow) as Hb.
  apply elem_of_cons in Hr as [->|Hr].
  - etrans; [|apply add_rows_monotone; [by apply add_row_wf|set_solver|lia]].
    rewrite counter_add_row by (try done; lia). by rewrite Z.eqb_refl.
  - rewrite <-(column_shape _ _ row h1 h2 (add_row_shape h1 h2 s r)).
    etrans; [|apply IH; [by apply add_row_wf|set_solver|done]].
    rewrite (column_shape _ _ row h1 h2 (add_row_shape h1 h2 s r)).
    rewrite counter_add_row by (try done; lia).
    pose proof (counter_saturated s (column s row h1 h2) Hs). case_bool; lia.
Qed.
End rows.

(** The sketch after the row loop and the size increment of [add]. *)
Definition bump (s : countMinSketch) : countMinSketch :=
  {| counters := counters s; width := width s; mask := mask s;
     sketch_size := u64 (sketch_size s + 1); sampleSize := sampleSize s; seed := seed s |}.

Definition add_counted (s : countMinSketch) (key : bytes) : countMinSketch :=
  bump (foldl (add_row (hash1 s key) (hash2 s key)) s rows).

Lemma sketch_size_add_rows h1 h2 l s :
  sketch_size (foldl (add_row h1 h2) s l) = sketch_size s.
Proof.
  revert s. induction l as [|r l IH]; intros s; simpl; [done|].
  rewrite IH. unfold add_row. by case_bool.
Qed.

Lemma add_eq s key :
  sketch_wf s →
  add s key = if (sampleSize s <=? Z.of_N (sketch_size s) + 1)%Z
              then reset (add_counted s key) else add_counted s key.
Proof.
  intros Hs. destruct (add_rows_shape (hash1 s key) (hash2 s key) rows s) as (_ & _ & Hss & _).
  unfold add. fold (bump (foldl (add_row (hash1 s key) (hash2 s key)) s rows)).
  fold (add_counted s key). unfold add_counted at 1 2. cbn [bump sampleSize sketch_size]. rewrite Hss, sketch_size_add_rows.
  destruct Hs as [_ _ _ _ H5 H6].
  rewrite u64_small by lia. unfold int_of_u64. rewrite i64_small by lia.
  by rewrite N2Z.inj_add.
Qed.

Lemma shiftr_1_le c : (c <= counterMax)%N → (N.shiftr c 1 <= counterMax)%N.
Proof.
  rewrite N.shiftr_div_pow2. unfold counterMax. intros. change (2 ^ 1)%N with 2%N.
  apply N.Div0.div_le_upper_bound. lia.
Qed.

Lemma reset_wf_gen s (t : countMinSketch) :
  sketch_wf s → same_shape t s → Forall (λ c, c <= counterMax)%N (counters t) →
  sketch_wf (reset t).
Proof.
  intros [H1 H2 H3 H4 H5 H6] (Hw & Hm & Hss & Hsd & Hl) Hc.
  split; simpl; rewrite ?Hw, ?Hm, ?Hss; try done.
  - unfold len. by rewrite length_fmap, Hl.
  - apply Forall_fmap. eapply Forall_impl; [exact Hc|]. apply shiftr_1_le.
  - lia.
Qed.

Lemma add_counted_shape s key : same_shape (add_counted s key) s.
Proof. apply add_rows_shape. Qed.

Lemma add_wf s key : sketch_wf s → sketch_wf (add s key).
Proof.
  intros Hs. rewrite add_eq by done.
  pose proof (add_rows_wf (hash1 s key) (hash2 s key) rows s Hs) as Hr.
  case_bool.
  - eapply reset_wf_gen; [exact Hs|apply add_counted_shape|]. apply (wf_saturated _ Hr).
  - destruct (add_rows_shape (hash1 s key) (hash2 s key) rows s) as (_ & _ & Hss & _).
    destruct Hr as [H1 H2 H3 H4 H5 H6]. split; try done. cbn [add_counted bump sampleSize sketch_size].
    rewrite Hss in *. rewrite sketch_size_add_rows in *. rewrite u64_small; lia.
Qed.

Lemma adds_wf s keys : sketch_wf s → sketch_wf (adds s keys).
Proof. revert s. induction keys; intros s Hs; simpl; auto using add_wf. Qed.

Lemma cell_add_counted s key k row :
  sketch_wf s → row ∈ rows →
  ((if decide (key = k) then N.min counterMax (cell s k row + 1) else cell s k row)
   <= cell (add_counted s key) k row)%N.
Proof.
  intros Hs Hr. unfold cell.
  destruct (hash_shape _ _ k (add_counted_shape s key)) as [-> ->].
  rewrite (column_shape _ _ row _ _ (add_counted_shape s key)).
  change (counter_at (add_counted s key)) with
    (counter_at (foldl (add_row (hash1 s key) (hash2 s key)) s rows)).
  case_decide; [subst k; by apply add_rows_increment|].
  apply add_rows_monotone; [done..|]. by apply column_bound.
Qed.

Lemma estimate_le_max s k : (estimate s k <= counterMax)%N.
Proof. by apply (proj1 (estimate_ge s k (estimate s k))). Qed.

Lemma estimate_cell s k row : row ∈ rows → (estimate s k <= cell s k row)%N.
Proof. intros Hr. by apply (proj1 (estimate_ge s k (estimate s k))). Qed.

Lemma estimate_add s key k :
  sketch_wf s → (Z.of_N (sketch_size s) + 1 < sampleSize s)%Z →
  (N.min counterMax (estimate s k + (if decide (key = k) then 1 else 0)) <= estimate (add s key) k)%N.
Proof.
  intros Hs Hlt. rewrite add_eq by done. case_bool; [lia|].
  apply estimate_ge. split; [lia|]. intros row Hr.
  pose proof (estimate_cell s k row Hr). pose proof (estimate_le_max s k).
  etrans; [|by apply cell_add_counted]. case_decide; lia.
Qed.

Lemma sketch_size_add s key :
  sketch_wf s → (Z.of_N (sketch_size s) + 1 < sampleSize s)%Z →
  sketch_size (add s key) = (sketch_size s + 1)%N ∧ sampleSize (add s key) = sampleSize s.
Proof.
  intros Hs Hlt. rewrite add_eq by done. case_bool; [lia|].
  destruct (add_counted_shape s key) as (_ & _ & Hss & _). split; [|done].
  cbn [add_counted bump sketch_size]. rewrite sketch_size_add_rows. destruct Hs. by rewrite u64_small by lia.
Qed.

(** ** Construction *)

Lemma NewCountMinSketch_ok hash capacity :
  (capacity <= 2 ^ 44)%Z → ∃ s, NewCountMinSketch hash capacity = Ok s ∧ sketch_wf s.
Proof.
  intros Hc. unfold NewCountMinSketch.
  set (cap := if (capacity <? 1)%Z then 1%Z else capacity).
  assert (1 <= cap <= 2 ^ 44)%Z as Hcap by (unfold cap; case_bool; lia).
  rewrite (nextPowerOfTwo_spec cap) by lia. set (k := Z.log2_up cap).
  assert (0 <= k <= 44)%Z as Hk.
  { split; [apply Z.log2_up_nonneg|]. apply Z.log2_up_le_pow2; lia. }
  assert (0 < 2 ^ k <= 2 ^ 44)%Z as Hw
    by (split; [apply Z.pow_pos_nonneg; lia|apply Z.pow_le_mono_r; lia]).
  unfold sketchDepth, make_panics. rewrite !i64_small by lia.
  destruct (Z.ltb_spec (4 * 2 ^ k) 0); [lia|].
  destruct (Z.ltb_spec (2 ^ 48) (4 * 2 ^ k * 4)); [lia|]. simpl.
  eexists. split; [reflexivity|]. split; simpl.
  - by exists k.
  - unfold u64_of_int. by rewrite Z.mod_small by lia.
  - unfold len. rewrite length_replicate. lia.
  - apply Forall_replicate. done.
  - lia.
  - lia.
Qed.

(** ** Properties *)

(** A sketch built for any capacity up to 2^44 exists and stays well formed
    however many keys are recorded: the width is a power of two, no counter
    passes 15, aging is never overdue, and each row's index is inside the grid,
    so no access panics. *)
Theorem sketch_reachable_wf (hash : bytes → N) (capacity : Z) :
  (capacity <= 2 ^ 44)%Z →
  ∃ s, NewCountMinSketch hash capacity = Ok s ∧
  ∀ keys, sketch_wf (adds s keys) ∧
    ∀ row h1 h2, row ∈ rows →
      (0 <= column (adds s keys) row h1 h2 < len (counters (adds s keys)))%Z.
Proof.
  intros Hc. destruct (NewCountMinSketch_ok hash capacity Hc) as (s & Hs & Hw).
  exists s. split; [done|]. intros keys. pose proof (adds_wf s keys Hw) as Hk.
  split; [done|]. intros row h1 h2 Hr. by apply column_bound.
Qed.

Lemma sketch_reachable_wf_witness :
  ∃ s, NewCountMinSketch (λ k, N.of_nat (length k)) 5 = Ok s ∧ width s = 8%Z.
Proof.
  destruct (sketch_reachable_wf (λ k, N.of_nat (length k)) 5) as (s & Hs & _); [lia|].
  exists s. split; [exact Hs|]. vm_compute in Hs. injection Hs as <-. reflexivity.
Defined.

(** C20: the sketch never underestimates.  Until the next aging, recording a list
    of keys raises the estimate of every key by at least the number of times
    the key occurs in the list, up to the saturation cap of 15, whatever
    collisions the hash has. *)
Theorem estimate_never_under (s : countMinSketch) (keys : list bytes) (k : bytes) :
  sketch_wf s → (Z.of_N (sketch_size s) + len keys < sampleSize s)%Z →
  (N.min counterMax (estimate s k + count k keys) <= estimate (adds s keys) k)%N.
Proof.
  unfold count. revert s. induction keys as [|key keys IH]; intros s Hs Hlt; simpl.
  { pose proof (estimate_le_max s k). lia. }
  autorewrite with kyria in Hlt. pose proof (len_nonneg keys).
  destruct (sketch_size_add s key Hs) as [E1 E2]; [lia|].
  pose proof (estimate_add s key k Hs ltac:(lia)) as H1.
  specialize (IH (add s key) (add_wf s key Hs) ltac:(lia)).
  rewrite filter_cons. case_decide; simpl; lia.
Qed.

Lemma estimate_never_under_witness :
  ∃ s, NewCountMinSketch (λ k, N.of_nat (length k)) 2 = Ok s ∧
    (N.min counterMax (estimate s (str "a") + 2)
     <= estimate (adds s [str "a"; str "bb"; str "a"]) (str "a"))%N.
Proof.
  destruct (NewCountMinSketch_ok (λ k, N.of_nat (length k)) 2) as (s & Hs & Hw); [lia|].
  exists s. split; [exact Hs|].
  refine (estimate_never_under s [str "a"; str "bb"; str "a"] (str "a") Hw _).
  vm_compute in Hs. injection Hs as <-. reflexivity.
Defined.

(** Aging halves what the sketch believes of every key, rounding down. *)
Theorem reset_halves (s : countMinSketch) (k : bytes) :
  sketch_wf s → estimate (reset s) k = (estimate s k / 2)%N.
Proof.
  intros Hs. pose proof (estimate_le_max s k) as Hmax.
  assert (∀ row, row ∈ rows → cell (reset s) k row = (cell s k row / 2)%N) as Hcell.
  { intros row Hr. pose proof (column_bound s row (hash1 s k) (hash2 s k) Hs Hr) as Hb.
    unfold cell, counter_at. change (column (reset s)) with (column s).
    change (hash1 (reset s) k) with (hash1 s k). change (hash2 (reset s) k) with (hash2 s k).
    unfold len in Hb. cbn [reset counters].
    rewrite !list_lookup_total_alt, list_lookup_fmap.
    destruct (counters s !! _) as [c|] eqn:Hc; simpl; [by rewrite N.shiftr_div_pow2|].
    apply lookup_ge_None in Hc. lia. }
  unfold counterMax in *. apply N.le_antisymm.
  - apply N.div_le_lower_bound; [done|]. apply estimate_ge.
    assert (∀ row, row ∈ rows → (2 * estimate (reset s) k <= cell s k row)%N) as Hc.
    { intros row Hr. pose proof (estimate_cell (reset s) k row Hr) as H1.
      rewrite Hcell in H1 by done. pose proof (N.Div0.mul_div_le (cell s k row) 2). lia. }
    split; [|done]. specialize (Hc 0%Z ltac:(set_solver)).
    pose proof (counter_saturated s (column s 0 (hash1 s k) (hash2 s k)) Hs).
    unfold cell, counterMax in *. lia.
  - apply estimate_ge.
    split; [apply N.Div0.div_le_upper_bound; unfold counterMax; lia|]. intros row Hr.
    rewrite Hcell by done. apply N.Div0.div_le_mono. by apply estimate_cell.
Qed.

Lemma reset_halves_witness :
  ∃ s, NewCountMinSketch (λ k, N.of_nat (length k)) 2 = Ok s ∧
    estimate (reset (adds s [str "a"; str "bb"; str "a"])) (str "a")
    = (estimate (adds s [str "a"; str "bb"; str "a"]) (str "a") / 2)%N.
Proof.
  destruct (NewCountMinSketch_ok (λ k, N.of_nat (length k)) 2) as (s & Hs & Hw); [lia|].
  exists s. split; [exact Hs|]. refine (reset_halves _ _ (adds_wf _ _ Hw)).
Defined.
