(* ===== verification/Policy.v ===== *)
(** * Eviction policies (internal/store/policy.go)

    The Go interface [Policy] is the class [Policy]; [lru], [lfu] and [tinyLFU]
    are its instances.  An entry's hint is the [uint64] the atomic pointer
    designates: the recorders return the policy's new state and the hint's new
    value. *)

From S2P Require Import Prelude Sketch.

(** ** The interface *)

Class Policy (P : Type) := {
  recordAccess : P → bytes → N → P * N;
  recordInsert : P → bytes → N → P * N;
  score : P → bytes → N → N;
  policyAdmit : P → N → N → bool
}.

(** ** LRU *)

(** The monotonic clock. *)
Record lru : Type := mkLru { lru_clock : N }.

Definition NewLRU : lru := {| lru_clock := 0 |}.

(** [hint.Store(p.clock.Add(1))] *)
Definition lru_stamp (p : lru) (key : bytes) (hint : N) : lru * N :=
  let t := u64 (lru_clock p + 1) in ({| lru_clock := t |}, t).

#[export] Instance lru_policy : Policy lru := {|
  recordAccess := lru_stamp;
  recordInsert := lru_stamp;
  score p key hint := hint;
  policyAdmit p candidateScore victimScore := true
|}.

(** ** LFU *)

Definition lfuBaseCount : N := 5.

Inductive lfu : Type := NewLFU.

#[export] Instance lfu_policy : Policy lfu := {|
  recordAccess p key hint := (p, u64 (hint + 1));
  recordInsert p key hint := (p, lfuBaseCount);
  score p key hint := hint;
  policyAdmit p candidateScore victimScore := true
|}.

(** ** TinyLFU *)

Record tinyLFU : Type := mkTinyLFU { tiny_sketch : countMinSketch }.

Definition NewTinyLFU (seed : bytes → N) (capacity : Z) : gres False tinyLFU :=
  do s <- NewCountMinSketch seed capacity; Ok {| tiny_sketch := s |}.

(** Both recorders add the key to the sketch and leave the hint alone. *)
Definition tiny_record (p : tinyLFU) (key : bytes) (hint : N) : tinyLFU * N :=
  ({| tiny_sketch := add (tiny_sketch p) key |}, hint).

#[export] Instance tinyLFU_policy : Policy tinyLFU := {|
  recordAccess := tiny_record;
  recordInsert := tiny_record;
  score p key hint := estimate (tiny_sketch p) key;
  policyAdmit p candidateScore victimScore := (victimScore <? candidateScore)%N
|}.
