(* ===== verification/MapStore.v ===== *)
(** * The single-shard store (internal/store/store.go, map_store.go, janitor.go)

    [MapStore] is a Go map with size limits, lazy expiry and an optional
    eviction policy.  The state is explicit: every operation returns the store
    after it.  [time.Now()] is the argument [now] (nanoseconds), the zero
    [time.Time] is [None], and the order in which Go ranges over the map is the
    argument [ord].  The pointer to an entry's hint is reachable only from its
    entry, so the entry carries the value it designates. *)

From S2P Require Import Prelude Sketch Policy.

(** ** Data *)

Inductive storeErr : Type :=
| ErrEmptyKey
| ErrKeyTooLarge
| ErrValueTooLarge
| ErrInvalidTTL.

#[global] Instance storeErr_eq_dec : EqDecision storeErr.
Proof. solve_decision. Defined.

Definition DefaultMaxKeySize : Z := Z.shiftl 1 10.
Definition DefaultMaxValueSize : Z := Z.shiftl 1 20.

Record entry : Type := mkEntry {
  value : bytes;
  expiresAt : option Z;
  hint : option N
}.

#[global] Instance entry_eq_dec : EqDecision entry.
Proof. solve_decision. Defined.

Record MapStore (P : Type) : Type := mkMapStore {
  maxKeySize : Z;
  maxValueSize : Z;
  data : gmap bytes entry;
  maxEntries : Z;
  policy : option P
}.
Arguments mkMapStore {P}.
Arguments maxKeySize {P} _.
Arguments maxValueSize {P} _.
Arguments data {P} _.
Arguments maxEntries {P} _.
Arguments policy {P} _.

(** An enumeration of a shard's map, as [range m.data] may produce it. *)
Abbreviation orders := (gmap bytes entry → list (bytes * entry)).

Definition lawful (ord : orders) : Prop := ∀ m, range_order m (ord m).

Definition expired (e : entry) (now : Z) : bool :=
  match expiresAt e with None => false | Some t => (t <? now)%Z end.

Section store.
Context {P : Type} `{!Policy P}.
Implicit Types m : MapStore P.

(** ** Construction *)

Definition Option_ : Type := MapStore P → MapStore P.

Definition WithMaxKeySize (size : Z) : Option_ := λ m,
  mkMapStore size (maxValueSize m) (data m) (maxEntries m) (policy m).
Definition WithMaxValueSize (size : Z) : Option_ := λ m,
  mkMapStore (maxKeySize m) size (data m) (maxEntries m) (policy m).
Definition WithMaxEntries (n : Z) : Option_ := λ m,
  mkMapStore (maxKeySize m) (maxValueSize m) (data m) n (policy m).
Definition WithPolicy (newPolicy : P) : Option_ := λ m,
  mkMapStore (maxKeySize m) (maxValueSize m) (data m) (maxEntries m) (Some newPolicy).

Definition New (opts : list Option_) : MapStore P :=
  foldl (λ m opt, opt m)
    (mkMapStore DefaultMaxKeySize DefaultMaxValueSize ∅ 0 None) opts.

(** Replace the map, or the map and the policy state. *)
Definition with_data m (d : gmap bytes entry) : MapStore P :=
  mkMapStore (maxKeySize m) (maxValueSize m) d (maxEntries m) (policy m).
Definition with_policy m (d : gmap bytes entry) (p : P) : MapStore P :=
  mkMapStore (maxKeySize m) (maxValueSize m) d (maxEntries m) (Some p).

(** ** Reading *)

Definition Get m (now : Z) (key : bytes) : MapStore P * option bytes :=
  match data m !! key with
  | None => (m, None)
  | Some e =>
      if expired e now then (m, None)
      else match policy m with
           | None => (m, Some (value e))
           | Some p =>
               let '(p', h) := recordAccess p key (default 0%N (hint e)) in
               (with_policy m (<[key := mkEntry (value e) (expiresAt e) (Some h)]> (data m)) p',
                Some (value e))
           end
  end.

Definition Size m : Z := Z.of_nat (size (data m)).

(** ** Eviction *)

Definition evictionSampleSize : Z := 5.

(** The loop of [sampleVictim]: the chosen key and hint, the smallest score and
    the number of entries inspected. *)
Fixpoint sample_loop (p : P) (excludeKey : bytes) (l : list (bytes * entry))
    (chosenKey : bytes) (chosenHint : N) (smallestScore : N) (counter : Z) :
    bytes * N * Z :=
  match l with
  | [] => (chosenKey, chosenHint, counter)
  | (k, e) :: l =>
      if bool_decide (k = excludeKey)
      then sample_loop p excludeKey l chosenKey chosenHint smallestScore counter
      else
        let tmpCount := score p k (default 0%N (hint e)) in
        let better := (counter =? 0)%Z || (tmpCount <? smallestScore)%N in
        let chosenKey := if better then k else chosenKey in
        let chosenHint := if better then default 0%N (hint e) else chosenHint in
        let smallestScore := if better then tmpCount else smallestScore in
        let counter := (counter + 1)%Z in
        if (evictionSampleSize <=? counter)%Z then (chosenKey, chosenHint, counter)
        else sample_loop p excludeKey l chosenKey chosenHint smallestScore counter
  end.

Definition sampleVictim (ord : orders) m (p : P) (excludeKey : bytes) : bytes * N * bool :=
  let '(chosenKey, chosenHint, counter) := sample_loop p excludeKey (ord (data m)) [] 0 0 0 in
  (chosenKey, chosenHint, (0 <? counter)%Z).

Definition evictIfNeeded (ord : orders) m (p : P) (newKey : bytes) (newHint : N)
    (bypassAdmission : bool) : MapStore P * bool :=
  if (maxEntries m =? 0)%Z || (Size m <=? maxEntries m)%Z then (m, true)
  else
    let '(k, h, ok) := sampleVictim ord m p newKey in
    if negb ok then (m, true)
    else
      let scoredNewKey := score p newKey newHint in
      let scoredVictimKey := score p k h in
      let admitted :=
        if bypassAdmission then true else policyAdmit p scoredNewKey scoredVictimKey in
      (with_data m (if admitted then delete k (data m) else delete newKey (data m)), admitted).

(** ** Writing *)

Definition set (ord : orders) m (key v : bytes) (exp : option Z) (bypassAdmission : bool) :
    MapStore P * gres storeErr bool :=
  if (len key =? 0)%Z then (m, Err ErrEmptyKey)
  else if (maxKeySize m <? len key)%Z then (m, Err ErrKeyTooLarge)
  else if (maxValueSize m <? len v)%Z then (m, Err ErrValueTooLarge)
  else
    let existed := bool_decide (is_Some (data m !! key)) in
    match policy m with
    | None => (with_data m (<[key := mkEntry v exp None]> (data m)), Ok true)
    | Some p =>
        let '(p', h) := recordInsert p key 0%N in
        let m1 := with_policy m (<[key := mkEntry v exp (Some h)]> (data m)) p' in
        if existed then (m1, Ok true)
        else let '(m2, admitted) := evictIfNeeded ord m1 p' key h bypassAdmission in
             (m2, Ok admitted)
    end.

Definition Set_ (ord : orders) m (key v : bytes) : MapStore P * gres storeErr bool :=
  set ord m key v None false.

Definition SetWithTTL (ord : orders) m (now : Z) (key v : bytes) (ttl : Z) :
    MapStore P * gres storeErr bool :=
  if (ttl <=? 0)%Z then (m, Err ErrInvalidTTL)
  else set ord m key v (Some (now + ttl)%Z) false.

(** The closure may also assign variables it captures: [X] is what it assigns. *)
Definition UpdateReplica {X : Type} (ord : orders) m (now : Z) (key : bytes) (fn : bytes → bytes * X) :
    MapStore P * gres storeErr unit * X :=
  let '(m1, old) := Get m now key in
  let '(v, x) := fn (default [] old) in
  let '(m2, r) := set ord m1 key v None true in
  (m2, (match r with Ok _ => Ok tt | Err e => Err e | Panic => Panic end), x).

Definition Delete m (key : bytes) : MapStore P * bool :=
  (with_data m (delete key (data m)), bool_decide (is_Some (data m !! key))).

Definition DeleteIf m (now : Z) (key : bytes) (pred : bytes → bool) : MapStore P * bool :=
  match Get m now key with
  | (m1, None) => (m1, false)
  | (m1, Some b) => if pred b then Delete m1 key else (m1, false)
  end.

(** The calls [fn(k, v)] that [Range] makes, in order. *)
Definition Range (ord : orders) m (now : Z) : list (bytes * bytes) :=
  (λ '(k, e), (k, value e)) <$> filter (λ '(k, e), expired e now = false) (ord (data m)).

(** ** The janitor's sweep *)

(** One iteration: the map and the number removed so far. *)
Definition reap_step (now : Z) (acc : gmap bytes entry * Z) (kv : bytes * entry) :
    gmap bytes entry * Z :=
  if expired kv.2 now then (delete kv.1 acc.1, acc.2 + 1)%Z else acc.

Definition reapExpired (ord : orders) m (now : Z) : MapStore P * Z :=
  let '(d, removed) := foldl (reap_step now) (data m, 0%Z) (ord (data m)) in
  (with_data m d, removed).

End store.

(** ** What a store shows

    [view] is what is stored, without the eviction bookkeeping; [live] is what a
    reader sees at a given time. *)

Definition entry_view (e : entry) : bytes * option Z := (value e, expiresAt e).

Section views.
Context {P : Type}.
Implicit Types m : MapStore P.

Definition view m (k : bytes) : option (bytes * option Z) := entry_view <$> data m !! k.

Definition live m (now : Z) (k : bytes) : option bytes :=
  match data m !! k with
  | Some e => if expired e now then None else Some (value e)
  | None => None
  end.

(** A reader sees an entry until it expires. *)
Definition visible (o : option (bytes * option Z)) (now : Z) : option bytes :=
  match o with
  | Some (v, t) => if expired (mkEntry v t None) now then None else Some v
  | None => None
  end.

Lemma live_view m now k : live m now k = visible (view m k) now.
Proof. unfold live, view. by destruct (data m !! k). Qed.

(** The error of a write that violates the size limits (largest key, largest
    value), the first violation reported. *)
Definition limit_error (lim : Z * Z) (key v : bytes) : option storeErr :=
  if (len key =? 0)%Z then Some ErrEmptyKey
  else if (lim.1 <? len key)%Z then Some ErrKeyTooLarge
  else if (lim.2 <? len v)%Z then Some ErrValueTooLarge else None.

Definition limits m : Z * Z := (maxKeySize m, maxValueSize m).

Lemma limit_error_None lim key v :
  limit_error lim key v = None ↔ (0 < len key <= lim.1)%Z ∧ (len v <= lim.2)%Z.
Proof.
  unfold limit_error. pose proof (len_nonneg key).
  repeat case_bool; (split; [intros; try done; lia|intros; try done; lia]).
Qed.

(** [m'] was configured like [m]. *)
Definition same_config m m' : Prop :=
  maxKeySize m' = maxKeySize m ∧ maxValueSize m' = maxValueSize m
  ∧ maxEntries m' = maxEntries m ∧ (policy m' = None ↔ policy m = None).

#[global] Instance same_config_refl : Reflexive same_config.
Proof. by intros m. Qed.

#[global] Instance same_config_trans : Transitive same_config.
Proof.
  intros m1 m2 m3 (H1 & H2 & H3 & H4) (K1 & K2 & K3 & K4).
  split_and!; [congruence..|]. by rewrite K4.
Qed.

(** The invariant of a store: the cap holds, every entry respects the size
    limits, and every entry of a store with a policy has its hint. *)
Record store_inv m : Prop := {
  inv_cap : policy m ≠ None → (0 < maxEntries m)%Z → (Size m <= maxEntries m)%Z;
  inv_limits : map_Forall (λ k e, 0 < len k <= maxKeySize m ∧ len (value e) <= maxValueSize m)%Z
    (data m);
  inv_hints : policy m ≠ None → map_Forall (λ _ e, is_Some (hint e)) (data m)
}.
End views.

(** ** Operations as steps *)

Inductive op : Type :=
| OpGet (now : Z) (key : bytes)
| OpSet (key v : bytes)
| OpSetWithTTL (now : Z) (key v : bytes) (ttl : Z)
| OpUpdateReplica (now : Z) (key : bytes) (fn : bytes → bytes)
| OpDelete (key : bytes)
| OpDeleteIf (now : Z) (key : bytes) (pred : bytes → bool)
| OpReap (now : Z).

Section steps.
Context {P : Type} `{!Policy P}.
Implicit Types m : MapStore P.

Definition run (ord : orders) m (o : op) : MapStore P :=
  match o with
  | OpGet now key => (Get m now key).1
  | OpSet key v => (Set_ ord m key v).1
  | OpSetWithTTL now key v ttl => (SetWithTTL ord m now key v ttl).1
  | OpUpdateReplica now key fn => (UpdateReplica ord m now key (λ old, (fn old, tt))).1.1
  | OpDelete key => (Delete m key).1
  | OpDeleteIf now key pred => (DeleteIf m now key pred).1
  | OpReap now => (reapExpired ord m now).1
  end.

(** A store that has served some operations, each under some iteration order. *)
Inductive reachable (m0 : MapStore P) : MapStore P → Prop :=
| reachable_start : reachable m0 m0
| reachable_step m ord o : reachable m0 m → lawful ord → reachable m0 (run ord m o).

(** ** Reading *)

Lemma Get_eq m now key :
  ∃ m', Get m now key = (m', live m now key) ∧ same_config m m' ∧ (∀ k, view m' k = view m k)
    ∧ (store_inv m → store_inv m').
Proof.
  unfold Get, live. destruct (data m !! key) as [e|] eqn:E; [|by exists m; split_and!].
  destruct (expired e now); [by exists m; split_and!|].
  destruct (policy m) as [p|] eqn:Ep; [|by exists m; split_and!].
  destruct (recordAccess _ _ _) as [p' h]. eexists. split; [reflexivity|]. split_and!.
  - split_and!; simpl; try done. by rewrite Ep.
  - intros k. unfold view. simpl. rewrite lookup_insert. case_decide; [subst; by rewrite E|done].
  - intros [H1 H2 H3]. split; simpl.
    + intros _. unfold Size. simpl. rewrite map_size_insert_Some by done.
      apply H1. by rewrite Ep.
    + apply map_Forall_insert_2; [exact (H2 key e E)|done].
    + intros _. apply map_Forall_insert_2; [done|]. apply H3. by rewrite Ep.
Qed.

(** ** Choosing a victim *)

(** The incumbents in iteration order. *)
Definition candidates (ex : bytes) (l : list (bytes * entry)) : list (bytes * entry) :=
  filter (λ kv, kv.1 ≠ ex) l.

Definition entry_score (p : P) (kv : bytes * entry) : N := score p kv.1 (default 0%N (hint kv.2)).

(** Keep the weaker of two incumbents, the earlier one on a tie. *)
Definition weaker (p : P) (best : option (bytes * entry)) (kv : bytes * entry) :
    option (bytes * entry) :=
  match best with
  | None => Some kv
  | Some b => if (entry_score p kv <? entry_score p b)%N then Some kv else Some b
  end.

(** The incumbent [sampleVictim] picks. *)
Definition victim (p : P) (ex : bytes) (l : list (bytes * entry)) : option (bytes * entry) :=
  foldl (weaker p) None (take 5 (candidates ex l)).

(** The loop variables of [sampleVictim] describe [best]. *)
Definition describes (p : P) (best : option (bytes * entry)) (ck : bytes) (ch ss : N) (c : Z) : Prop :=
  match best with
  | None => c = 0%Z
  | Some b => (0 < c)%Z ∧ ck = b.1 ∧ ch = default 0%N (hint b.2) ∧ ss = entry_score p b
  end.

Lemma sample_loop_weaker p ex l best ck ch ss c :
  (0 <= c < 5)%Z → describes p best ck ch ss c →
  ∃ k h ss' c', sample_loop p ex l ck ch ss c = (k, h, c') ∧
    describes p (foldl (weaker p) best (take (Z.to_nat (5 - c)) (candidates ex l))) k h ss' c'.
Proof.
  revert best ck ch ss c. induction l as [|[k0 e0] l IH]; intros best ck ch ss c Hc Hd; simpl.
  { unfold candidates. rewrite filter_nil, take_nil. by exists ck, ch, ss, c. }
  unfold candidates. rewrite filter_cons. simpl. destruct (decide (k0 = ex)) as [->|Hne].
  { rewrite bool_decide_eq_true_2, decide_False by naive_solver. by apply IH. }
  rewrite bool_decide_eq_false_2, decide_True by done.
  replace (Z.to_nat (5 - c)) with (S (Z.to_nat (5 - (c + 1)))) by lia. simpl.
  fold (candidates ex l). change (score p k0 (default 0%N (hint e0))) with (entry_score p (k0, e0)).
  set (better := (c =? 0)%Z || (entry_score p (k0, e0) <? ss)%N).
  assert (describes p (weaker p best (k0, e0)) (if better then k0 else ck)
    (if better then default 0%N (hint e0) else ch)
    (if better then entry_score p (k0, e0) else ss) (c + 1)) as Hd'.
  { unfold describes, weaker, better in *. destruct best as [b|].
    - destruct Hd as (Hc0 & -> & -> & ->). destruct (Z.eqb_spec c 0); [lia|]. simpl.
      case_bool; split_and!; by try lia.
    - subst c. simpl. split_and!; by try lia. }
  destruct (Z.leb_spec evictionSampleSize (c + 1)) as [Hge|Hlt]; unfold evictionSampleSize in *.
  - assert (c = 4%Z) as -> by lia. simpl. eauto 10.
  - by apply IH; [lia|].
Qed.

Lemma sampleVictim_eq ord m p ex :
  match victim p ex (ord (data m)) with
  | None => ∃ k h, sampleVictim ord m p ex = (k, h, false)
  | Some (k, e) => sampleVictim ord m p ex = (k, default 0%N (hint e), true)
  end.
Proof.
  destruct (sample_loop_weaker p ex (ord (data m)) None [] 0 0 0) as (k & h & ss & c & E & Hd);
    [lia|done|].
  change (Z.to_nat (5 - 0)) with 5%nat in Hd. fold (victim p ex (ord (data m))) in Hd.
  unfold sampleVictim. rewrite E. destruct (victim _ _ _) as [[k' e']|]; simpl in *.
  - destruct Hd as (Hc & -> & -> & _). by rewrite (proj2 (Z.ltb_lt 0 c)).
  - subst c. eauto.
Qed.

Lemma foldl_weaker p best l :
  match foldl (weaker p) best l with
  | None => best = None ∧ l = []
  | Some b => (best = Some b ∨ b ∈ l) ∧ (∀ kv, kv ∈ l → entry_score p b <= entry_score p kv)%N
              ∧ (∀ b0, best = Some b0 → entry_score p b <= entry_score p b0)%N
  end.
Proof.
  revert best. induction l as [|kv l IH]; intros best; simpl.
  { destruct best; [|done]. split_and!; [by left|set_solver|by intros ? [= ->]]. }
  specialize (IH (weaker p best kv)). destruct (foldl _ _ l) as [b|].
  - destruct IH as (I1 & I2 & I3). unfold weaker in *. destruct best as [b0|].
    + case_bool; (split_and!; [set_solver| |]);
        try (intros ? [= <-]; specialize (I3 _ eq_refl); lia);
        intros kv' [->|Hin]%elem_of_cons; auto; specialize (I3 _ eq_refl); lia.
    + split_and!; [set_solver| |done].
      intros kv' [->|Hin]%elem_of_cons; auto.
  - destruct IH as [H _]. unfold weaker in H. destruct best; [by case_bool|done].
Qed.

(** The victim is an incumbent, and the weakest of the first five met. *)
Lemma victim_spec p ex l b :
  victim p ex l = Some b →
  b ∈ l ∧ b.1 ≠ ex ∧ b ∈ take 5 (candidates ex l)
  ∧ ∀ kv, kv ∈ take 5 (candidates ex l) → (entry_score p b <= entry_score p kv)%N.
Proof.
  intros H. pose proof (foldl_weaker p None (take 5 (candidates ex l))) as Hf.
  unfold victim in H. rewrite H in Hf. destruct Hf as ([?|Hin] & Hmin & _); [done|].
  assert (b ∈ candidates ex l) as Hc by (rewrite <-(take_drop 5 (candidates ex l)); set_solver).
  apply list_elem_of_filter in Hc as [? ?]. by split_and!.
Qed.

Lemma victim_None p ex l : victim p ex l = None → ∀ kv, kv ∈ l → kv.1 = ex.
Proof.
  intros H. pose proof (foldl_weaker p None (take 5 (candidates ex l))) as Hf.
  unfold victim in H. rewrite H in Hf. destruct Hf as [_ Ht].
  assert (candidates ex l = []) as Hc by (by destruct (candidates ex l)).
  intros kv Hkv. apply dec_stable. intros Hne.
  assert (kv ∈ candidates ex l) as Hin by (by apply list_elem_of_filter).
  rewrite Hc in Hin. by apply elem_of_nil in Hin.
Qed.
End steps.

(** ** Eviction and writing *)

Section laws.
Context {P : Type} `{!Policy P}.
Implicit Types m : MapStore P.

(** Removing an entry keeps the invariant. *)
Lemma store_inv_delete m k : store_inv m → store_inv (with_data m (delete k (data m))).
Proof.
  intros [H1 H2 H3]. split; simpl.
  - intros Hp Hm. specialize (H1 Hp Hm). unfold Size in *. simpl.
    rewrite map_size_delete. destruct (data m !! k); simpl; lia.
  - by apply map_Forall_delete.
  - intros Hp. by apply map_Forall_delete, H3.
Qed.

(** What eviction may do to a store that has just received [newKey]. *)
Record evict_ok m (newKey : bytes) (bypass : bool) m' (adm : bool) : Prop := {
  ev_config : same_config m m' ∧ policy m' = policy m;
  ev_data : (data m' = data m ∧ adm = true)
    ∨ ∃ k, data m' = delete k (data m) ∧ is_Some (data m !! k)
           ∧ (if adm then k ≠ newKey else k = newKey);
  ev_bypass : bypass = true → adm = true;
  ev_cap : (0 < maxEntries m)%Z → (Size m <= maxEntries m + 1)%Z → (Size m' <= maxEntries m)%Z
}.

(** A map with no key but [newKey] has at most one entry. *)
Lemma only_key_size ord m newKey :
  lawful ord → (∀ kv, kv ∈ ord (data m) → kv.1 = newKey) → (Size m <= 1)%Z.
Proof.
  intros Hord Hall. assert (dom (data m) ⊆ {[newKey]}) as Hd.
  { intros j [x Hx]%elem_of_dom. apply elem_of_singleton, (Hall (j, x)).
    by rewrite (Hord (data m)), elem_of_map_to_list. }
  apply subseteq_size in Hd. rewrite size_dom, size_singleton in Hd. unfold Size in *. lia.
Qed.

Lemma evictIfNeeded_ok ord m p newKey h bypass :
  lawful ord → is_Some (data m !! newKey) →
  let '(m', adm) := evictIfNeeded ord m p newKey h bypass in evict_ok m newKey bypass m' adm.
Proof.
  intros Hord Hnew. unfold evictIfNeeded.
  destruct ((maxEntries m =? 0)%Z || (Size m <=? maxEntries m)%Z) eqn:Eskip.
  { split; [done|by left|done|]. intros. apply orb_true_iff in Eskip as [?%Z.eqb_eq|?%Z.leb_le]; lia. }
  apply orb_false_iff in Eskip as [H1%Z.eqb_neq H2%Z.leb_gt].
  pose proof (sampleVictim_eq ord m p newKey) as Hv.
  destruct (victim p newKey (ord (data m))) as [[k e]|] eqn:Ev.
  - rewrite Hv. simpl. apply victim_spec in Ev as (Hin & Hne & _).
    rewrite (Hord (data m)), elem_of_map_to_list in Hin. simpl in Hne.
    set (adm := if bypass then true else _).
    assert (∀ j, is_Some (data m !! j) → size (delete j (data m)) = Nat.pred (size (data m))) as Hsz
      by (intros j [x Hx]; by rewrite map_size_delete, Hx).
    split; simpl.
    + done.
    + right. destruct adm; [exists k|exists newKey]; split_and!; eauto.
    + by unfold adm; intros ->.
    + intros Hm Hle. unfold Size in *. simpl.
      destruct adm; rewrite Hsz by eauto; lia.
  - destruct Hv as (k & h' & ->). simpl. split; [done|by left|done|].
    intros Hm Hle. pose proof (only_key_size ord m newKey Hord (victim_None _ _ _ Ev)). lia.
Qed.

(** What a successful [set] does. *)
Record set_ok m (key v : bytes) (exp : option Z) (bypass : bool) m' (adm : bool) : Prop := {
  so_key : (0 < len key <= maxKeySize m)%Z;
  so_value : (len v <= maxValueSize m)%Z;
  so_config : same_config m m';
  so_view : view m' key = if adm then Some (v, exp) else None;
  so_other k : k ≠ key → view m' k = view m k ∨ (view m' k = None ∧ policy m ≠ None);
  so_one k1 k2 : k1 ≠ key → k2 ≠ key → view m' k1 ≠ view m k1 → view m' k2 ≠ view m k2 → k1 = k2;
  so_admitted : bypass = true ∨ policy m = None ∨ is_Some (data m !! key) → adm = true;
  so_inv : store_inv m → store_inv m'
}.

Lemma insert_inv m key v exp h (p : option P) :
  store_inv m → (0 < len key <= maxKeySize m)%Z → (len v <= maxValueSize m)%Z →
  let m1 := mkMapStore (maxKeySize m) (maxValueSize m) (<[key := mkEntry v exp h]> (data m))
              (maxEntries m) p in
  (p = None ↔ policy m = None) → (p ≠ None → is_Some h) →
  (p ≠ None → (0 < maxEntries m)%Z → (Size m1 <= maxEntries m)%Z) → store_inv m1.
Proof.
  intros [H1 H2 H3] Hk Hv m1 Hp Hh Hcap. split; simpl; [done|by apply map_Forall_insert_2|].
  intros Hp'. apply map_Forall_insert_2; [by apply Hh|]. apply H3. by rewrite <-Hp.
Qed.

Lemma view_insert m key v exp h (p : option P) k :
  view (mkMapStore (maxKeySize m) (maxValueSize m) (<[key := mkEntry v exp h]> (data m))
          (maxEntries m) p) k
  = if decide (key = k) then Some (v, exp) else view m k.
Proof. unfold view. simpl. rewrite lookup_insert. by case_decide. Qed.

(** The branch of [set] that inserts a new key under a policy. *)
Lemma set_new_ok ord m key v exp h p p' bypass :
  lawful ord → policy m = Some p → data m !! key = None →
  (0 < len key <= maxKeySize m)%Z → (len v <= maxValueSize m)%Z →
  let m1 := with_policy m (<[key := mkEntry v exp (Some h)]> (data m)) p' in
  let '(m2, adm) := evictIfNeeded ord m1 p' key h bypass in
  set_ok m key v exp bypass m2 adm.
Proof.
  intros Hord Ep Hex Hkey Hval m1.
  assert (same_config m m1) as Hc1 by (split_and!; simpl; try done; by rewrite Ep).
  assert (data m1 !! key = Some (mkEntry v exp (Some h))) as Hk1 by apply lookup_insert_eq.
  pose proof (evictIfNeeded_ok ord m1 p' key h bypass Hord ltac:(eauto)) as Hev.
  destruct (evictIfNeeded ord m1 p' key h bypass) as [m2 adm].
  destruct Hev as [[Hc2 Hp2] Hd Hb Hcap].
  assert (data m2 ⊆ data m1) as Hsub.
  { destruct Hd as [[-> _]|(k' & -> & _)]; [done|apply delete_subseteq]. }
  split; try done.
  - by trans m1.
  - unfold view. destruct Hd as [[-> ->]|(k' & -> & _ & Hk')]; [by rewrite Hk1|].
    rewrite lookup_delete. destruct adm; [by rewrite decide_False, Hk1|]. by rewrite decide_True.
  - intros k Hk. rewrite <-(decide_False (P := key = k) (Some (v, exp)) (view m k)) by done.
    rewrite <-(view_insert m key v exp (Some h) (Some p') k). change (mkMapStore _ _ _ _ _) with m1.
    unfold view. destruct Hd as [[-> _]|(k' & -> & _)]; [by left|].
    rewrite lookup_delete. case_decide; [right; split; [done|by rewrite Ep]|by left].
  - assert (∀ k, k ≠ key → view m1 k = view m k) as Hm1.
    { intros k Hk. unfold m1, with_policy. rewrite view_insert. by rewrite decide_False. }
    intros k1 k2 H1 H2. rewrite <-(Hm1 k1), <-(Hm1 k2) by done. unfold view.
    destruct Hd as [[-> _]|(k' & -> & _)]; [done|]. rewrite !lookup_delete.
    repeat case_decide; congruence.
  - intros [?|[?|[x Hx]]]; [by apply Hb|congruence..].
  - intros Hinv. destruct Hc2 as (K1 & K2 & K3 & _). destruct Hinv as [I1 I2 I3]. rewrite Ep in I1, I3.
    split; rewrite ?K1, ?K2, ?K3; simpl.
    + intros _ Hm. apply Hcap; [done|]. unfold Size, m1. simpl.
      rewrite map_size_insert_None by done. specialize (I1 ltac:(done) Hm). unfold Size in I1. lia.
    + eapply map_Forall_weaken; [exact Hsub|]. by apply map_Forall_insert_2.
    + intros _. eapply map_Forall_weaken; [exact Hsub|].
      apply map_Forall_insert_2; [done|by apply I3].
Qed.

Lemma set_spec ord m key v exp bypass :
  lawful ord →
  match set ord m key v exp bypass with
  | (m', Ok adm) => set_ok m key v exp bypass m' adm
  | (m', Err e) => m' = m ∧ limit_error (limits m) key v = Some e
  | (_, Panic) => False
  end.
Proof.
  intros Hord. unfold set, limit_error. pose proof (len_nonneg key). cbn [limits fst snd].
  destruct (Z.eqb_spec (len key) 0); [done|].
  destruct (Z.ltb_spec (maxKeySize m) (len key)); [done|].
  destruct (Z.ltb_spec (maxValueSize m) (len v)); [done|].
  assert (0 < len key <= maxKeySize m)%Z as Hkey by lia.
  destruct (policy m) as [p|] eqn:Ep.
  2:{ split; try done.
      - unfold with_data. rewrite view_insert. by rewrite decide_True.
      - intros k Hk. left. unfold with_data. rewrite view_insert. by rewrite decide_False.
      - intros k1 k2 Hk1 _ []. unfold with_data. rewrite view_insert. by rewrite decide_False.
      - intros Hinv. unfold with_data. rewrite Ep. by apply insert_inv. }
  destruct (recordInsert p key 0%N) as [p' h]. case_bool_decide as Hex.
  2:{ apply eq_None_not_Some in Hex.
      pose proof (set_new_ok ord m key v exp h p p' bypass Hord Ep Hex Hkey ltac:(done)) as Hn.
      cbv zeta in Hn. destruct (evictIfNeeded _ _ _ _ _ _) as [m2 adm]. exact Hn. }
  unfold with_policy. split; try done.
  - split_and!; simpl; try done. by rewrite Ep.
  - rewrite view_insert. by rewrite decide_True.
  - intros k Hk. left. rewrite view_insert. by rewrite decide_False.
  - intros k1 k2 Hk1 _ []. rewrite view_insert. by rewrite decide_False.
  - intros Hinv. apply insert_inv; try done; [by rewrite Ep|]. intros _ Hm.
    unfold Size. simpl. destruct Hex as [x Hx]. rewrite map_size_insert_Some by done.
    apply (inv_cap _ Hinv); [by rewrite Ep|done].
Qed.

(** ** Reaping *)

(** The sweep deletes the expired entries of the enumeration and counts them. *)
Lemma reap_loop now (l : list (bytes * entry)) d n :
  NoDup l.*1 → (∀ k e, (k, e) ∈ l → d !! k = Some e) →
  (∀ k e, (foldl (reap_step now) (d, n) l).1 !! k = Some e
     ↔ d !! k = Some e ∧ ((k, e) ∈ l → expired e now = false))
  ∧ Z.of_nat (size (foldl (reap_step now) (d, n) l).1)
    = (Z.of_nat (size d) - ((foldl (reap_step now) (d, n) l).2 - n))%Z.
Proof.
  revert d n. induction l as [|[k e] l IH]; intros d n Hnd Hin; simpl.
  { split; [|lia]. intros k e. split; [|by intros []]. intros H. split; [done|].
    by intros ?%elem_of_nil. }
  apply NoDup_cons in Hnd as [Hk Hnd]. pose proof (Hin k e ltac:(left)) as Hke.
  unfold reap_step at 2 4 6. simpl. destruct (expired e now) eqn:Ex.
  - destruct (IH (delete k d) (n + 1)%Z Hnd) as [I1 I2].
    { intros j x Hj. rewrite lookup_delete_ne; [by apply Hin; right|].
      intros ->. apply Hk, list_elem_of_fmap. by exists (j, x). }
    split.
    + intros j x. rewrite I1, lookup_delete_Some, elem_of_cons. split.
      * intros [[Hne Hj] Hl]. split; [done|]. intros [[= -> ->]|H]; [done|auto].
      * intros [Hj Hl]. split; [split; [|done]|auto]. intros <-.
        rewrite Hke in Hj. injection Hj as <-. rewrite Hl in Ex by auto. done.
    + rewrite I2, map_size_delete, Hke.
      destruct (size d) eqn:Es; [|simpl; lia]. apply map_size_empty_inv in Es as ->. done.
  - destruct (IH d n Hnd) as [I1 I2]; [by intros j x Hj; apply Hin; right|].
    split; [|done]. intros j x. rewrite I1, elem_of_cons.
    split; intros [Hj Hl]; (split; [done|auto]). intros [[= -> ->]|H]; auto.
Qed.

Lemma reapExpired_spec ord m now :
  lawful ord →
  (∀ k e, data (reapExpired ord m now).1 !! k = Some e
     ↔ data m !! k = Some e ∧ expired e now = false)
  ∧ (reapExpired ord m now).2 = (Size m - Size (reapExpired ord m now).1)%Z
  ∧ same_config m (reapExpired ord m now).1
  ∧ policy (reapExpired ord m now).1 = policy m.
Proof.
  intros Hord. pose proof (Hord (data m)) as Ho. unfold range_order in Ho.
  destruct (reap_loop now (ord (data m)) (data m) 0) as [H1 H2].
  - rewrite Ho. apply NoDup_fst_map_to_list.
  - intros k e. by rewrite Ho, elem_of_map_to_list.
  - unfold reapExpired. destruct (foldl _ _ _) as [d n]. simpl in *. split_and!; [|unfold Size; simpl; lia|done|done].
    intros k e. rewrite H1, Ho, elem_of_map_to_list. split; intros [? ?]; auto.
Qed.

Lemma reap_live ord m now t k :
  lawful ord → (now <= t)%Z → live (reapExpired ord m now).1 t k = live m t k.
Proof.
  intros Hord Ht. destruct (reapExpired_spec ord m now Hord) as [H1 _]. unfold live.
  destruct (data (reapExpired ord m now).1 !! k) as [e|] eqn:E.
  - apply H1 in E as [-> _]. done.
  - destruct (data m !! k) as [e|] eqn:E'; [|done].
    destruct (expired e now) eqn:Ex.
    + unfold expired in *. destruct (expiresAt e); [|done].
      apply Z.ltb_lt in Ex. by rewrite (proj2 (Z.ltb_lt _ _)) by lia.
    + rewrite (proj2 (H1 k e)) in E by done. done.
Qed.

(** ** Replica writes *)

Lemma UpdateReplica_spec {X : Type} ord m now key (fn : bytes → bytes * X) :
  lawful ord →
  let v := (fn (default [] (live m now key))).1 in
  match UpdateReplica ord m now key fn with
  | (m', Ok _, x) => x = (fn (default [] (live m now key))).2
      ∧ view m' key = Some (v, None)
      ∧ (∀ k, k ≠ key → view m' k = view m k ∨ (view m' k = None ∧ policy m ≠ None))
      ∧ (∀ k1 k2, k1 ≠ key → k2 ≠ key → view m' k1 ≠ view m k1 → view m' k2 ≠ view m k2 → k1 = k2)
      ∧ same_config m m' ∧ (0 < len key <= maxKeySize m)%Z ∧ (len v <= maxValueSize m)%Z
  | (m', Err e, x) => x = (fn (default [] (live m now key))).2 ∧ (∀ k, view m' k = view m k)
      ∧ same_config m m' ∧ limit_error (limits m) key v = Some e
  | (_, Panic, _) => False
  end.
Proof.
  intros Hord v. unfold UpdateReplica.
  destruct (Get_eq m now key) as (m1 & -> & Hc1 & Hvw & _). unfold v.
  destruct Hc1 as (C1 & C2 & C3 & C4) eqn:Hc1'. clear Hc1'.
  destruct (fn _) as [w x]. simpl.
  pose proof (set_spec ord m1 key w None true Hord) as H.
  destruct (set _ _ _ _ _ _) as [m2 [adm|e|]]; simpl in *; [|by unfold limits in *; rewrite <-C1, <-C2; destruct H as [-> ?]|done].
  destruct H as [Hk Hw Hc H1 H2 H3 H4 _]. rewrite (H4 ltac:(by left)) in H1. rewrite C1 in Hk.
  rewrite C2 in Hw. split_and!; try done; try apply Hk.
  - intros k Hne. rewrite <-Hvw, <-C4. by apply H2.
  - intros k1 k2. rewrite <-!Hvw. apply H3.
  - by trans m1.
Qed.

(** ** Every operation preserves the invariant *)

Lemma store_inv_subseteq m m' :
  same_config m m' → policy m' = policy m → data m' ⊆ data m → store_inv m → store_inv m'.
Proof.
  intros (E1 & E2 & E3 & _) Ep Hs [H1 H2 H3]. split; rewrite ?E1, ?E2, ?E3, ?Ep.
  - intros Hp Hm. specialize (H1 Hp Hm). apply map_subseteq_size in Hs. unfold Size in *. lia.
  - by eapply map_Forall_weaken.
  - intros Hp. eapply map_Forall_weaken; [done|by apply H3].
Qed.

Lemma Delete_ok m key :
  same_config m (Delete m key).1 ∧ (store_inv m → store_inv (Delete m key).1)
  ∧ view (Delete m key).1 key = None ∧ (∀ k, k ≠ key → view (Delete m key).1 k = view m k).
Proof.
  unfold Delete, view. simpl. split_and!; [done| |by rewrite lookup_delete_eq|].
  - apply store_inv_subseteq; [done..|]. apply delete_subseteq.
  - intros k Hk. by rewrite lookup_delete_ne.
Qed.

Lemma set_inv ord m key v exp bypass :
  lawful ord →
  same_config m (set ord m key v exp bypass).1
  ∧ (store_inv m → store_inv (set ord m key v exp bypass).1).
Proof.
  intros Hord. pose proof (set_spec ord m key v exp bypass Hord) as H.
  destruct (set _ _ _ _ _ _) as [m' [adm|e|]]; [|naive_solver..]. simpl. by destruct H.
Qed.

Lemma UpdateReplica_inv {X : Type} ord m now key (fn : bytes → bytes * X) :
  lawful ord → store_inv m → store_inv (UpdateReplica ord m now key fn).1.1.
Proof.
  intros Hord Hi. unfold UpdateReplica. destruct (Get_eq m now key) as (m' & -> & Hc & _ & Hi').
  destruct (fn _) as [v x]. destruct (set_inv ord m' key v None true Hord) as [_ Hi2].
  destruct (set _ _ _ _ _ _) as [m2 r]. simpl in *. auto.
Qed.

Lemma run_inv ord m o :
  lawful ord → same_config m (run ord m o) ∧ (store_inv m → store_inv (run ord m o)).
Proof.
  intros Hord. destruct o as [now key|key v|now key v ttl|now key fn|key|now key pred|now]; simpl.
  - destruct (Get_eq m now key) as (m' & -> & ? & _ & ?). done.
  - by apply set_inv.
  - unfold SetWithTTL. case_bool; [done|]. by apply set_inv.
  - unfold UpdateReplica. destruct (Get_eq m now key) as (m' & -> & Hc & _ & Hi). simpl.
    destruct (set_inv ord m' key (fn (default [] (live m now key))) None true Hord) as [Hc' Hi'].
    destruct (set _ _ _ _ _ _) as [m2 r]. simpl in *. split; [by trans m'|auto].
  - by destruct (Delete_ok m key) as (? & ? & _).
  - unfold DeleteIf. destruct (Get_eq m now key) as (m' & -> & Hc & _ & Hi).
    destruct (live m now key) as [b|]; [|done]. destruct (pred b); [|done].
    destruct (Delete_ok m' key) as (Hc' & Hi' & _). split; [by trans m'|auto].
  - destruct (reapExpired_spec ord m now Hord) as (H1 & _ & Hc & Hp). split; [done|].
    apply store_inv_subseteq; [done..|]. apply map_subseteq_spec. intros k e He. by apply H1.
Qed.

Lemma store_inv_empty m : data m = ∅ → store_inv m.
Proof.
  intros E. split; rewrite ?E; [|apply map_Forall_empty|intros; apply map_Forall_empty].
  intros _ Hm. unfold Size. rewrite E, map_size_empty. lia.
Qed.
End laws.

(** ** Properties *)

Section properties.
Context {P : Type} `{!Policy P}.
Implicit Types m : MapStore P.

(** The invariant of the store holds after any sequence of operations on a
    new store, under any iteration order at every step: with a policy the cap
    is never exceeded, no entry exceeds the size limits or has an empty key,
    every entry carries its hint (so no recorder meets a nil pointer), and the
    limits stay what the options set. *)
Theorem store_reachable_inv (opts : list (@Option_ P)) m :
  data (New opts) = ∅ → reachable (New opts) m → store_inv m ∧ same_config (New opts) m.
Proof.
  intros E H. induction H as [|m ord o _ [Hi Hc] Hord]; [by split; [apply store_inv_empty|]|].
  destruct (run_inv ord m o Hord). split; [auto|by trans m].
Qed.

(** C18: what [set] does, on every branch.  It fails exactly on an empty key, a
    key over the limit or a value over the limit, in that order, and then
    changes nothing.  Otherwise an admitted entry is what a reader finds until
    its expiry, a refused one is absent; every other key keeps its value and
    expiry or was evicted, at most one key is evicted, only under a policy, and
    an update in place or a bypassing write is never refused. *)
Theorem set_functional ord m key v exp bypass m' r :
  lawful ord → set ord m key v exp bypass = (m', r) →
  match r with
  | Err e => m' = m ∧ limit_error (limits m) key v = Some e
  | Ok adm => limit_error (limits m) key v = None
      ∧ (∀ now, live m' now key =
           if adm then (if expired (mkEntry v exp None) now then None else Some v) else None)
      ∧ (∀ k, k ≠ key → view m' k = view m k ∨ (view m' k = None ∧ policy m ≠ None))
      ∧ (∀ k1 k2, k1 ≠ key → k2 ≠ key → view m' k1 ≠ view m k1 → view m' k2 ≠ view m k2 → k1 = k2)
      ∧ (bypass = true ∨ policy m = None ∨ is_Some (data m !! key) → adm = true)
  | Panic => False
  end.
Proof.
  intros Hord E. pose proof (set_spec ord m key v exp bypass Hord) as H. rewrite E in H.
  destruct r as [adm|e|]; [|done..]. destruct H as [H1 H2 _ H4 H5 H6 H7 _]. split_and!; try done.
  { by apply limit_error_None. }
  intros now. rewrite live_view, H4. by destruct adm.
Qed.

(** C19: when a new key overflows the cap, the incumbent judged against it is the
    weakest of the first five the iteration meets (the earliest on a tie), it is
    never the newcomer, and exactly one of the two leaves: the incumbent if the
    write bypasses admission or the policy admits the newcomer's score over the
    incumbent's, the newcomer otherwise. *)
Theorem eviction_picks_weakest ord m p newKey h bypass :
  lawful ord → data m !! newKey ≠ None → (0 < maxEntries m < Size m)%Z →
  ∃ b : bytes * entry, b ∈ take 5 (candidates newKey (ord (data m)))
    ∧ data m !! b.1 = Some b.2 ∧ b.1 ≠ newKey
    ∧ (∀ kv, kv ∈ take 5 (candidates newKey (ord (data m))) → (entry_score p b <= entry_score p kv)%N)
    ∧ let admitted := bypass || policyAdmit p (score p newKey h) (entry_score p b) in
      evictIfNeeded ord m p newKey h bypass
      = (with_data m (delete (if admitted then b.1 else newKey) (data m)), admitted).
Proof.
  intros Hord Hnew Hm. pose proof (sampleVictim_eq ord m p newKey) as Hv.
  destruct (victim p newKey (ord (data m))) as [[k e]|] eqn:Ev.
  - apply victim_spec in Ev as (Hin & Hne & Ht & Hmin). exists (k, e).
    rewrite (Hord (data m)), elem_of_map_to_list in Hin. split_and!; [done..|]. cbv zeta.
    unfold evictIfNeeded. rewrite (proj2 (Z.eqb_neq _ _)), (proj2 (Z.leb_gt _ _)) by lia.
    rewrite Hv. by destruct bypass, (policyAdmit _ _ _).
  - exfalso. pose proof (only_key_size ord m newKey Hord (victim_None _ _ _ Ev)). lia.
Qed.

(** A replica write cannot be refused.  Within the size limits
    [UpdateReplica] stores exactly [fn] of what a reader sees ([[]], Go's nil,
    when there is nothing), without expiry, whatever the eviction policy thinks
    of the key, and it makes at most one other key disappear. *)
Theorem UpdateReplica_never_refused {X : Type} ord m now key (fn : bytes → bytes * X) :
  lawful ord →
  let v := (fn (default [] (live m now key))).1 in
  (0 < len key <= maxKeySize m)%Z → (len v <= maxValueSize m)%Z →
  ∃ m', UpdateReplica ord m now key fn = (m', Ok tt, (fn (default [] (live m now key))).2)
    ∧ (∀ t, live m' t key = Some v)
    ∧ (∀ k, k ≠ key → view m' k = view m k ∨ (view m' k = None ∧ policy m ≠ None))
    ∧ (∀ k1 k2, k1 ≠ key → k2 ≠ key → view m' k1 ≠ view m k1 → view m' k2 ≠ view m k2 → k1 = k2).
Proof.
  intros Hord v Hk Hv. pose proof (UpdateReplica_spec ord m now key fn Hord) as H.
  destruct (UpdateReplica ord m now key fn) as [[m' [[]|e|]] x].
  - destruct H as (-> & H1 & H2 & H3 & _). exists m'. split_and!; try done.
    intros t. rewrite live_view. by rewrite H1.
  - unfold v in *. destruct H as (_ & _ & _ & H). by rewrite (proj2 (limit_error_None _ _ _)) in H.
  - done.
Qed.

(** Reaping is invisible.  After a sweep at time [now] every reader at
    [now] or later sees what it would have seen, the store holds exactly the
    entries that had not expired, and the count returned is the number of
    entries removed. *)
Theorem reapExpired_invisible ord m now :
  lawful ord →
  (∀ t k, (now <= t)%Z → live (reapExpired ord m now).1 t k = live m t k)
  ∧ (∀ k e, data (reapExpired ord m now).1 !! k = Some e
       ↔ data m !! k = Some e ∧ expired e now = false)
  ∧ (reapExpired ord m now).2 = (Size m - Size (reapExpired ord m now).1)%Z.
Proof.
  intros Hord. destruct (reapExpired_spec ord m now Hord) as (H1 & H2 & _).
  split_and!; [|done..]. intros t k Ht. by apply reap_live.
Qed.
End properties.

(** ** Witnesses: an LFU store capped at two entries *)

Definition opts_lfu2 : list (@Option_ lfu) := [WithMaxEntries 2; WithPolicy NewLFU].

Definition full : MapStore lfu :=
  foldl (run map_to_list) (New opts_lfu2)
    [OpSet (str "a") (str "1"); OpSetWithTTL 10 (str "b") (str "2") 5; OpGet 12 (str "b")].

Lemma lawful_map_to_list : lawful map_to_list.
Proof. intros m. unfold range_order. reflexivity. Qed.

Lemma store_reachable_inv_witness :
  store_inv full ∧ same_config (New opts_lfu2) full.
Proof.
  apply (store_reachable_inv opts_lfu2 full); [reflexivity|].
  repeat (apply reachable_step; [|apply lawful_map_to_list]). apply reachable_start.
Defined.

Lemma set_functional_witness :
  ∃ m', set map_to_list full (str "c") (str "3") None false = (m', Ok true)
    ∧ (∀ now, live m' now (str "c") = Some (str "3")) ∧ Size m' = 2%Z.
Proof.
  destruct (set map_to_list full (str "c") (str "3") None false) as [m' r] eqn:E.
  pose proof (set_functional map_to_list full (str "c") (str "3") None false m' r
    lawful_map_to_list E) as H.
  assert (r = Ok true ∧ Size m' = 2%Z) as [-> Hs].
  { replace m' with (set map_to_list full (str "c") (str "3") None false).1 by (by rewrite E).
    replace r with (set map_to_list full (str "c") (str "3") None false).2 by (by rewrite E).
    split; vm_compute; reflexivity. }
  exists m'. split_and!; [done| |done]. intros now. destruct H as (_ & Hl & _). apply (Hl now).
Defined.

Lemma eviction_picks_weakest_witness :
  let m := with_data full (<[str "c" := mkEntry (str "3") None (Some 5%N)]> (data full)) in
  (evictIfNeeded map_to_list m NewLFU (str "c") 5 false).2 = true.
Proof.
  intros m. destruct (eviction_picks_weakest map_to_list m NewLFU (str "c") 5 false) as (b & _ & _ & _ & _ & E).
  - apply lawful_map_to_list.
  - vm_compute. discriminate.
  - vm_compute. split; reflexivity.
  - rewrite E. reflexivity.
Defined.

Lemma UpdateReplica_never_refused_witness :
  ∃ m', UpdateReplica map_to_list full 12 (str "b") (λ old, (old ++ str "!", 7%Z)) = (m', Ok tt, 7%Z)
    ∧ (∀ t, live m' t (str "b") = Some (str "2!")).
Proof.
  destruct (UpdateReplica_never_refused map_to_list full 12 (str "b") (λ old, (old ++ str "!", 7%Z)))
    as (m' & E & Hl & _).
  - apply lawful_map_to_list.
  - vm_compute. split; [reflexivity|discriminate].
  - vm_compute. discriminate.
  - exists m'. split; [exact E|]. intros t. rewrite Hl. vm_compute. reflexivity.
Defined.

Lemma reapExpired_invisible_witness :
  (reapExpired map_to_list full 20).2 = 1%Z
  ∧ ∀ t k, (20 <= t)%Z → live (reapExpired map_to_list full 20).1 t k = live full t k.
Proof.
  split; [vm_compute; reflexivity|].
  apply (reapExpired_invisible map_to_list full 20 lawful_map_to_list).
Defined.
