(* ===== verification/ShardedStore.v ===== *)
(** * The store interface and the sharded store (internal/store/store.go,
      sharded_store.go, janitor.go)

    [Store] is the Go interface the server is written against, and [StoreLaws]
    what its documentation promises, stated on [slive], what a reader sees at a
    given time.  [MapStore] and [ShardedStore] are its two instances.

    Every operation of a [ShardedStore] on a key runs under the lock of the one
    shard that owns the key, so operations on a shard are totally ordered and
    each is one step of the shard's [MapStore]; operations that visit all shards
    take the locks one at a time and are folds over the shards.
    [maphash.String(seed, _)] is the field [hash]. *)

From S2P Require Import Prelude Sketch Policy MapStore.

(** ** The interface *)

(** [sord] is what decides the map iteration orders during a call.  The [Z] given to
    the others is what [time.Now] returns; [Range] may read the clock several times
    and is given all readings, by their number. *)
Class Store (S : Type) := {
  sord : Type;
  slawful : sord → Prop;
  sGet : S → Z → bytes → S * option bytes;
  sSet : sord → S → bytes → bytes → S * gres storeErr bool;
  sSetWithTTL : sord → S → Z → bytes → bytes → Z → S * gres storeErr bool;
  sUpdateReplica {X : Type} : sord → S → Z → bytes → (bytes → bytes * X) → S * gres storeErr unit * X;
  sDelete : S → bytes → S * bool;
  sSize : S → Z;
  sRange : sord → S → (nat → Z) → list (bytes * bytes);
  sDeleteIf : S → Z → bytes → (bytes → bool) → S * bool;
  (** what is stored under a key, which of its clock readings [Range] judges a key
      by, the size limits, whether entries may be evicted, and the invariant *)
  sview : S → bytes → option (bytes * option Z);
  sclock : S → bytes → nat;
  slimits : S → Z * Z;
  sevicts : S → Prop;
  swf : S → Prop
}.

Definition slive {S} `{!Store S} (s : S) (now : Z) (k : bytes) : option bytes :=
  visible (sview s k) now.

(** Size limits accept a key and a value. *)
Definition fits {S} `{!Store S} (s : S) (key v : bytes) : Prop :=
  limit_error (slimits s) key v = None.

Section contracts.
Context {S : Type} `{!Store S}.

(** A call leaves a well-formed store with the same configuration. *)
Definition call_ok (s s' : S) : Prop :=
  swf s' ∧ slimits s' = slimits s ∧ (sevicts s' → sevicts s) ∧ ∀ k, sclock s' k = sclock s k.

Lemma call_ok_refl s : swf s → call_ok s s.
Proof. intros Hs. by repeat split. Qed.

(** A write to [key] may evict other keys, never change them. *)
Definition bystanders (s s' : S) (key : bytes) : Prop :=
  ∀ k, k ≠ key → sview s' k = sview s k ∨ (sview s' k = None ∧ sevicts s).

(** The outcome of a write: stored, refused by the policy, or over a limit. *)
Definition write_ok (s s' : S) (key v : bytes) (exp : option Z) (r : gres storeErr bool) : Prop :=
  call_ok s s' ∧
  match r with
  | Ok adm => fits s key v ∧ bystanders s s' key
      ∧ sview s' key = (if adm then Some (v, exp) else None) ∧ (adm = true ∨ sevicts s)
  | Err e => limit_error (slimits s) key v = Some e ∧ ∀ k, sview s' k = sview s k
  | Panic => False
  end.
End contracts.

Class StoreLaws (S : Type) `{!Store S} : Prop := {
  law_Get s now key : swf s →
    call_ok s (sGet s now key).1 ∧ (sGet s now key).2 = slive s now key
    ∧ ∀ k, sview (sGet s now key).1 k = sview s k;
  law_Set o s key v : swf s → slawful o →
    write_ok s (sSet o s key v).1 key v None (sSet o s key v).2;
  law_SetWithTTL o s now key v ttl : swf s → slawful o →
    if decide (0 < ttl)%Z
    then write_ok s (sSetWithTTL o s now key v ttl).1 key v (Some (now + ttl)%Z)
           (sSetWithTTL o s now key v ttl).2
    else (sSetWithTTL o s now key v ttl).2 = Err ErrInvalidTTL
         ∧ call_ok s (sSetWithTTL o s now key v ttl).1
         ∧ ∀ k, sview (sSetWithTTL o s now key v ttl).1 k = sview s k;
  law_UpdateReplica {X} o s now key (fn : bytes → bytes * X) : swf s → slawful o →
    let old := default [] (slive s now key) in
    let '(s', r, x) := sUpdateReplica o s now key fn in
    x = (fn old).2 ∧ call_ok s s' ∧
    match r with
    | Ok _ => fits s key (fn old).1 ∧ bystanders s s' key ∧ sview s' key = Some ((fn old).1, None)
    | Err e => limit_error (slimits s) key (fn old).1 = Some e ∧ ∀ k, sview s' k = sview s k
    | Panic => False
    end;
  law_Delete s key : swf s →
    call_ok s (sDelete s key).1
    ∧ (sDelete s key).2 = bool_decide (is_Some (sview s key))
    ∧ sview (sDelete s key).1 key = None
    ∧ ∀ k, k ≠ key → sview (sDelete s key).1 k = sview s k;
  law_Range o s now : swf s → slawful o →
    (∀ k v, (k, v) ∈ sRange o s now ↔ slive s (now (sclock s k)) k = Some v) ∧ NoDup (sRange o s now).*1;
  law_Size s : swf s →
    ∃ ks, NoDup ks ∧ (∀ k, k ∈ ks ↔ is_Some (sview s k)) ∧ sSize s = len ks;
  law_DeleteIf s now key pred : swf s →
    let hit := match slive s now key with Some b => pred b | None => false end in
    call_ok s (sDeleteIf s now key pred).1
    ∧ (sDeleteIf s now key pred).2 = hit
    ∧ ∀ k, sview (sDeleteIf s now key pred).1 k
           = if hit && bool_decide (k = key) then None else sview s k
}.

(** ** The single shard implements the interface *)

#[export] Instance MapStore_store {P} `{!Policy P} : Store (MapStore P) := {|
  sord := orders;
  slawful := lawful;
  sGet := Get;
  sSet := Set_;
  sSetWithTTL := SetWithTTL;
  sUpdateReplica X := UpdateReplica;
  sDelete := Delete;
  sSize := Size;
  sRange ord m now := Range ord m (now 0%nat);
  sDeleteIf := DeleteIf;
  sview := view;
  sclock _ _ := 0%nat;
  slimits := limits;
  sevicts m := policy m ≠ None;
  swf := store_inv
|}.

Section map_store.
Context {P : Type} `{!Policy P}.
Implicit Types m : MapStore P.

Lemma slive_live m now k : slive m now k = live m now k.
Proof. unfold slive. simpl. by rewrite live_view. Qed.

Lemma same_config_call_ok m m' : same_config m m' → store_inv m' → call_ok m m'.
Proof.
  intros (E1 & E2 & _ & E4) Hi. split_and!; [done|by simpl; unfold limits; f_equal| |done]. simpl. by rewrite E4.
Qed.

Lemma run_call_ok ord m o : lawful ord → store_inv m → call_ok m (run ord m o).
Proof.
  intros Ho Hi. destruct (run_inv ord m o Ho) as [Hc Hi']. apply same_config_call_ok; auto.
Qed.

Lemma set_write_ok ord m key v exp bypass :
  lawful ord → store_inv m →
  write_ok m (set ord m key v exp bypass).1 key v exp (set ord m key v exp bypass).2.
Proof.
  intros Hord Hi. pose proof (set_spec ord m key v exp bypass Hord) as H.
  destruct (set_inv ord m key v exp bypass Hord) as [Hc Hi'].
  split; [by apply same_config_call_ok; auto|].
  destruct (set _ _ _ _ _ _) as [m' [adm|e|]]; simpl in *.
  - destruct H as [H1 H2 H3 H4 H5 _ H6 _].
    split_and!; [by apply limit_error_None|intros k Hk; by apply H5|done|].
    destruct (policy m); [by right|left; naive_solver].
  - by destruct H as [-> H].
  - done.
Qed.

Lemma elem_of_Range ord m now k v :
  lawful ord → (k, v) ∈ Range ord m now ↔ live m now k = Some v.
Proof.
  intros Hord. unfold Range, live. rewrite list_elem_of_fmap. split.
  - intros ([k' e] & [= -> ->] & [Hx Hin]%list_elem_of_filter).
    rewrite (Hord (data m)), elem_of_map_to_list in Hin. by rewrite Hin, Hx.
  - destruct (data m !! k) as [e|] eqn:E; [|done]. destruct (expired e now) eqn:Ex; [done|].
    intros [= <-]. exists (k, e). split; [done|]. apply list_elem_of_filter. split; [done|].
    by rewrite (Hord (data m)), elem_of_map_to_list.
Qed.

Lemma NoDup_Range ord m now : lawful ord → NoDup (Range ord m now).*1.
Proof.
  intros Hord. unfold Range. rewrite <-list_fmap_compose.
  apply (sublist_NoDup _ (ord (data m)).*1).
  - rewrite (Hord (data m)). apply NoDup_fst_map_to_list.
  - induction (ord (data m)) as [|[k e] l IH]; [done|]. rewrite filter_cons. simpl.
    case_decide; simpl; by constructor.
Qed.

(** The keys of a shard. *)
Lemma stored_keys m :
  NoDup (map_to_list (data m)).*1 ∧ (∀ k, k ∈ (map_to_list (data m)).*1 ↔ is_Some (view m k))
  ∧ Size m = len (map_to_list (data m)).*1.
Proof.
  split_and!; [apply NoDup_fst_map_to_list| |unfold Size, len; by rewrite length_fmap, length_map_to_list].
  intros k. unfold view. rewrite fmap_is_Some, list_elem_of_fmap. split.
  - intros ([k' e] & -> & He%elem_of_map_to_list). by exists e.
  - intros [e He]. exists (k, e). by rewrite elem_of_map_to_list.
Qed.

#[export] Instance MapStore_laws : StoreLaws (MapStore P).
Proof.
  split.
  - intros m now key Hi. pose proof (run_call_ok map_to_list m (OpGet now key) lawful_map_to_list Hi) as Hc.
    split; [done|]. simpl in *. clear Hc. destruct (Get_eq m now key) as (m' & -> & _ & Hv & _). by rewrite slive_live.
  - intros o m key v Hi Ho. by apply (set_write_ok o m).
  - intros o m now key v ttl Hi Ho. simpl. unfold SetWithTTL. case_bool.
    + rewrite decide_False by lia. split_and!; [done|by apply same_config_call_ok|done].
    + rewrite decide_True by lia. by apply set_write_ok.
  - intros X o m now key fn Hi Ho. simpl. rewrite slive_live.
    pose proof (UpdateReplica_spec o m now key fn Ho) as H.
    pose proof (UpdateReplica_inv o m now key fn Ho Hi) as Hi'.
    destruct (UpdateReplica o m now key fn) as [[m' [[]|e|]] x]; [| |done].
    + destruct H as (-> & H1 & H2 & _ & Hc & Hk & Hv).
      split_and!; try done; [by apply same_config_call_ok|by apply limit_error_None].
    + destruct H as (-> & H1 & Hc & H2).
      split_and!; [done|by apply same_config_call_ok|done|done].
  - intros m key Hi. simpl. destruct (Delete_ok m key) as (Hc & Hi' & H1 & H2).
    split_and!; try done; [by apply same_config_call_ok; auto|].
    unfold Delete, view. simpl. by destruct (data m !! key).
  - intros o m now Hi Ho. split; [|by apply NoDup_Range].
    intros k v. rewrite slive_live. by apply elem_of_Range.
  - intros m Hi. destruct (stored_keys m) as (H1 & H2 & H3). by exists (map_to_list (data m)).*1.
  - intros m now key pred Hi. pose proof (run_call_ok map_to_list m (OpDeleteIf now key pred) lawful_map_to_list Hi) as Hc.
    cbv zeta. split; [done|]. simpl. rewrite slive_live. clear Hc. unfold DeleteIf.
    destruct (Get_eq m now key) as (m' & -> & Hc & Hv & _).
    destruct (live m now key) as [b|] eqn:El; [|done].
    destruct (pred b); [|done]. destruct (Delete_ok m' key) as (_ & _ & H1 & H2). split.
    + unfold Delete. simpl. apply bool_decide_eq_true.
      apply fmap_is_Some with (f := entry_view). fold (view m' key). rewrite Hv.
      rewrite live_view in El. by destruct (view m key).
    + intros k. case_bool_decide as Hk; simpl; [by subst|]. by rewrite H2, Hv.
Qed.
End map_store.

(** ** The sharded store *)

Record ShardedStore (P : Type) : Type := mkSharded {
  shards : list (MapStore P);
  hash : bytes → N
}.
Arguments mkSharded {P}.
Arguments shards {P} _.
Arguments hash {P} _.

(** A concatenation whose parts own disjoint sets of keys has no duplicates. *)
Lemma NoDup_join_owner {K V} (f : K → nat) (ls : list (list (K * V))) :
  (∀ i l, ls !! i = Some l → NoDup l.*1) →
  (∀ i l k v, ls !! i = Some l → (k, v) ∈ l → f k = i) →
  NoDup (mjoin ls).*1.
Proof.
  intros Hnd Hown. assert (∃ n, ∀ i l k v, ls !! i = Some l → (k, v) ∈ l → f k = n + i)%nat
    as [n Hn] by (by exists 0%nat).
  clear Hown. revert n Hn. induction ls as [|l ls IH]; intros n Hn; simpl; [constructor|].
  rewrite fmap_app. apply NoDup_app. split_and!.
  - by apply (Hnd 0%nat).
  - intros k ([k1 v1] & -> & H1)%list_elem_of_fmap ([k2 v2] & E & H2)%list_elem_of_fmap.
    simpl in E. subst k2. apply list_elem_of_join in H2 as (l' & H2 & [i Hi]%list_elem_of_lookup).
    pose proof (Hn 0%nat l k1 v1 eq_refl H1). pose proof (Hn (S i) l' k1 v2 Hi H2). lia.
  - apply (IH (λ i, Hnd (S i)) (S n)). intros i l' k v Hi Hin.
    rewrite (Hn (S i) l' k v Hi Hin). lia.
Qed.

Section sharded.
Context {P : Type} `{!Policy P}.
Implicit Types (s : ShardedStore P) (m : MapStore P).

(** [opts i] are the options as applied to shard [i]: the policy factory runs
    once per shard, so the policies may differ in their random seeds. *)
Definition NewSharded (hash : bytes → N) (shardCount : Z) (opts : nat → list (@Option_ P)) :
    gres False (ShardedStore P) :=
  let shardCount := if (shardCount <? 1)%Z then 1%Z else shardCount in
  if make_panics shardCount 8 then Panic
  else Ok (mkSharded ((λ i, New (opts i)) <$> seq 0 (Z.to_nat shardCount)) hash).

(** The index of the shard responsible for [key]. *)
Definition shardFor s (key : bytes) : nat := N.to_nat (hash s key mod N.of_nat (length (shards s))).

(** [s.shards[i]], and the same with that shard replaced.  A [ShardedStore] has
    a shard, so the index is always in range (lemma [shardFor_lookup]). *)
Definition shard_at s (i : nat) : MapStore P := default (New []) (shards s !! i).
Definition with_shard s (i : nat) m : ShardedStore P := mkSharded (<[i := m]> (shards s)) (hash s).

Definition ShardedGet s (now : Z) (key : bytes) : ShardedStore P * option bytes :=
  let i := shardFor s key in
  let '(m, r) := Get (shard_at s i) now key in (with_shard s i m, r).

Definition ShardedSet (ord : nat → orders) s (key v : bytes) : ShardedStore P * gres storeErr bool :=
  let i := shardFor s key in
  let '(m, r) := Set_ (ord i) (shard_at s i) key v in (with_shard s i m, r).

Definition ShardedSetWithTTL (ord : nat → orders) s (now : Z) (key v : bytes) (ttl : Z) :
    ShardedStore P * gres storeErr bool :=
  let i := shardFor s key in
  let '(m, r) := SetWithTTL (ord i) (shard_at s i) now key v ttl in (with_shard s i m, r).

Definition ShardedUpdateReplica {X : Type} (ord : nat → orders) s (now : Z) (key : bytes)
    (fn : bytes → bytes * X) : ShardedStore P * gres storeErr unit * X :=
  let i := shardFor s key in
  let '(m, r, x) := UpdateReplica (ord i) (shard_at s i) now key fn in (with_shard s i m, r, x).

Definition ShardedDelete s (key : bytes) : ShardedStore P * bool :=
  let i := shardFor s key in
  let '(m, r) := Delete (shard_at s i) key in (with_shard s i m, r).

Definition ShardedDeleteIf s (now : Z) (key : bytes) (pred : bytes → bool) : ShardedStore P * bool :=
  let i := shardFor s key in
  let '(m, r) := DeleteIf (shard_at s i) now key pred in (with_shard s i m, r).

Definition ShardedSize s : Z := foldl (λ size m, (size + Size m)%Z) 0%Z (shards s).

(** Each shard reads the clock for itself. *)
Definition ShardedRange (ord : nat → orders) s (now : nat → Z) : list (bytes * bytes) :=
  mjoin (imap (λ i m, Range (ord i) m (now i)) (shards s)).

(** One shard at a time: the new shards and the total removed. *)
Definition ShardedReapExpired (ord : nat → orders) s (now : Z) : ShardedStore P * Z :=
  let swept := imap (λ i m, reapExpired (ord i) m now) (shards s) in
  (mkSharded (fst <$> swept) (hash s), foldl (λ removed n, (removed + n)%Z) 0%Z (snd <$> swept)).

(** ** Invariant *)

(** Every shard is well formed and configured alike, and a key is only ever
    stored in the shard that owns it. *)
Record sharded_wf s : Prop := {
  sw_some : shards s ≠ [];
  sw_shards : Forall store_inv (shards s);
  sw_limits i m : shards s !! i = Some m → slimits m = slimits (shard_at s 0);
  sw_placed i m k : shards s !! i = Some m → view m k ≠ None → shardFor s k = i
}.

#[export] Instance ShardedStore_store : Store (ShardedStore P) := {|
  sord := nat → orders;
  slawful ord := ∀ i, lawful (ord i);
  sGet := ShardedGet;
  sSet := ShardedSet;
  sSetWithTTL := ShardedSetWithTTL;
  sUpdateReplica X := ShardedUpdateReplica;
  sDelete := ShardedDelete;
  sSize := ShardedSize;
  sRange := ShardedRange;
  sDeleteIf := ShardedDeleteIf;
  sview s k := view (shard_at s (shardFor s k)) k;
  sclock := shardFor;
  slimits s := slimits (shard_at s 0);
  sevicts s := ∃ m, m ∈ shards s ∧ policy m ≠ None;
  swf := sharded_wf
|}.

(** ** One shard changes *)

Lemma shardFor_lookup s k : sharded_wf s → shards s !! shardFor s k = Some (shard_at s (shardFor s k)).
Proof.
  intros Hs. unfold shard_at. assert (shardFor s k < length (shards s))%nat as Hlt.
  { unfold shardFor. pose proof (sw_some s Hs). destruct (shards s); [done|]. simpl length.
    pose proof (N.mod_lt (hash s k) (N.of_nat (S (length l))) ltac:(lia)). lia. }
  apply lookup_lt_is_Some in Hlt as [m Hm]. by rewrite Hm.
Qed.

Lemma shardFor_with_shard s i m k : shardFor (with_shard s i m) k = shardFor s k.
Proof. unfold shardFor. simpl. by rewrite length_insert. Qed.

Lemma sview_with_shard s key m k :
  sharded_wf s →
  sview (with_shard s (shardFor s key) m) k
  = if decide (shardFor s k = shardFor s key) then view m k else sview s k.
Proof.
  intros Hs. simpl. rewrite shardFor_with_shard. pose proof (shardFor_lookup s key Hs) as Hk.
  apply lookup_lt_Some in Hk. unfold shard_at. simpl. case_decide as E.
  - rewrite E. by rewrite list_lookup_insert_eq.
  - by rewrite list_lookup_insert_ne.
Qed.

(** A call on the owning shard that adds at most its own key is a good call of
    the whole store. *)
Lemma with_shard_call_ok s key m :
  sharded_wf s → call_ok (shard_at s (shardFor s key)) m →
  (∀ k, k ≠ key → view m k ≠ None → view (shard_at s (shardFor s key)) k ≠ None) →
  call_ok s (with_shard s (shardFor s key) m).
Proof.
  intros Hs (Hi & Hl & Hp & _) Hadd. pose proof (shardFor_lookup s key Hs) as Hk.
  assert (∀ j, shard_at (with_shard s (shardFor s key) m) j
    = if decide (j = shardFor s key) then m else shard_at s j) as Hat.
  { intros j. unfold shard_at. simpl. case_decide as E.
    - subst. apply lookup_lt_Some in Hk. by rewrite list_lookup_insert_eq.
    - by rewrite list_lookup_insert_ne. }
  assert (∀ j, slimits (shard_at (with_shard s (shardFor s key) m) j) = slimits (shard_at s j)) as Hlim.
  { intros j. rewrite Hat. case_decide; [by subst|done]. }
  split_and!; [|apply Hlim| |intros k; apply shardFor_with_shard].
  2:{ intros (m' & [i Hi']%list_elem_of_lookup & Hp'). simpl in Hi'.
      apply list_lookup_insert_Some in Hi' as [(_ & <- & _)|[_ Hi']].
      - exists (shard_at s (shardFor s key)). split; [by eapply list_elem_of_lookup_2|]. by apply Hp.
      - exists m'. split; [by eapply list_elem_of_lookup_2|done]. }
  destruct Hs as [H1 H2 H3 H4]. split.
  - intros E. apply H1. apply (f_equal length) in E. simpl in E. rewrite length_insert in E.
    by apply nil_length_inv.
  - by apply Forall_insert.
  - intros i m' Hm'. rewrite Hlim. simpl in Hm'.
    apply list_lookup_insert_Some in Hm' as [(<- & <- & _)|[_ Hm']]; [|by eapply H3].
    rewrite Hl. by eapply H3.
  - intros i m' k Hm'. rewrite shardFor_with_shard. simpl in Hm'.
    apply list_lookup_insert_Some in Hm' as [(<- & <- & _)|[_ Hm']]; [|by eapply H4].
    intros Hv. destruct (decide (k = key)) as [->|Hne]; [done|]. eapply H4; [done|]. auto.
Qed.

(** ** What a shard promises, the store promises *)

Section lift.
Context s (Hs : sharded_wf s) (key : bytes).
Let m : MapStore P := shard_at s (shardFor s key).

Lemma owner_wf : swf m.
Proof.
  eapply (Forall_lookup_1 store_inv); [apply (sw_shards s Hs)|]. by apply shardFor_lookup.
Qed.

Lemma lift_evicts : sevicts m → sevicts s.
Proof.
  intros Hp. exists m. split; [|done]. eapply list_elem_of_lookup_2. by apply shardFor_lookup.
Qed.

(** A key's view through the store, relative to a changed owner of [key]. *)
Lemma lift_view m' (Q : option (bytes * option Z) → option (bytes * option Z) → Prop) k :
  (∀ o, Q o o) → Q (view m' k) (view m k) →
  Q (sview (with_shard s (shardFor s key) m') k) (sview s k).
Proof.
  intros Hrefl HQ. rewrite sview_with_shard by done. case_decide as E; [|done].
  simpl. rewrite E. done.
Qed.

Lemma lift_same m' :
  call_ok m m' → (∀ k, view m' k = view m k) →
  call_ok s (with_shard s (shardFor s key) m')
  ∧ ∀ k, sview (with_shard s (shardFor s key) m') k = sview s k.
Proof.
  intros Hc Hv. split.
  - apply with_shard_call_ok; [done..|]. intros k _. by rewrite Hv.
  - intros k. by apply (lift_view m' eq).
Qed.

Lemma lift_bystanders m' :
  call_ok m m' → bystanders m m' key →
  call_ok s (with_shard s (shardFor s key) m')
  ∧ bystanders s (with_shard s (shardFor s key) m') key.
Proof.
  intros Hc Hb. split.
  - apply with_shard_call_ok; [done..|]. intros k Hk Hv. fold m.
    intros E. apply Hv. by destruct (Hb k Hk) as [E'|[E' _]]; [rewrite <-E|].
  - intros k Hk. apply (lift_view m' (λ x y, x = y ∨ (x = None ∧ sevicts s))); [by left|].
    destruct (Hb k Hk) as [?|[? Hp]]; [by left|right; split; [done|by apply lift_evicts]].
Qed.

Lemma lift_key m' : sview (with_shard s (shardFor s key) m') key = view m' key.
Proof. rewrite sview_with_shard by done. by rewrite decide_True. Qed.

Lemma lift_limits : slimits m = slimits s.
Proof. eapply (sw_limits s Hs). by apply shardFor_lookup. Qed.

Lemma lift_write m' v exp r :
  write_ok m m' key v exp r → write_ok s (with_shard s (shardFor s key) m') key v exp r.
Proof.
  intros [Hc H]. destruct r as [adm|e|]; [| |done].
  - destruct H as (Hf & Hb & Hv & Ha). destruct (lift_bystanders m' Hc Hb) as [Hc' Hb'].
    split; [done|]. split_and!; [by unfold fits; rewrite <-lift_limits|done|by rewrite lift_key|].
    destruct Ha; [by left|right; by apply lift_evicts].
  - destruct H as [Hf Hv]. destruct (lift_same m' Hc Hv) as [Hc' Hv'].
    split; [done|]. split; [|done]. by rewrite <-lift_limits.
Qed.
End lift.

(** The sweep of all shards visits what a reader sees, each key once. *)
Lemma ShardedRange_spec ord s now :
  sharded_wf s → (∀ i, lawful (ord i)) →
  (∀ k v, (k, v) ∈ ShardedRange ord s now ↔ slive s (now (shardFor s k)) k = Some v)
  ∧ NoDup (ShardedRange ord s now).*1.
Proof.
  intros Hs Hord. assert (∀ i m k v, shards s !! i = Some m → (k, v) ∈ Range (ord i) m (now i) →
    shardFor s k = i) as Hown.
  { intros i m k v Hi Hin. apply (elem_of_Range _ m) in Hin; [|done].
    apply (sw_placed s Hs i m k Hi). rewrite live_view in Hin. by destruct (view m k). }
  unfold ShardedRange. split.
  - intros k v. rewrite list_elem_of_join. split.
    + intros (l & Hin & Hl). apply elem_of_lookup_imap in Hl as (i & m & -> & Hi).
      pose proof (Hown i m k v Hi Hin) as E. apply (elem_of_Range _ m) in Hin; [|done].
      unfold slive. simpl. rewrite E. unfold shard_at. rewrite Hi. simpl. by rewrite <-live_view.
    + intros Hl. pose proof (shardFor_lookup s k Hs) as Hi.
      exists (Range (ord (shardFor s k)) (shard_at s (shardFor s k)) (now (shardFor s k))). split.
      * apply elem_of_Range; [done|]. by rewrite live_view.
      * apply elem_of_lookup_imap. eauto.
  - apply NoDup_join_owner with (f := shardFor s).
    + intros i l Hi. apply list_lookup_imap_Some in Hi as (m & Hi & ->). by apply NoDup_Range.
    + intros i l k v Hi Hin. apply list_lookup_imap_Some in Hi as (m & Hi & ->). eauto.
Qed.

(** The total over the shards is the number of keys stored. *)
Lemma ShardedSize_spec s :
  sharded_wf s →
  ∃ ks, NoDup ks ∧ (∀ k, k ∈ ks ↔ is_Some (sview s k)) ∧ ShardedSize s = len ks.
Proof.
  intros Hs. exists (mjoin ((λ m, map_to_list (data m)) <$> shards s)).*1. split_and!.
  - apply NoDup_join_owner with (f := shardFor s).
    + intros i l (m & -> & Hi)%list_lookup_fmap_Some. apply stored_keys.
    + intros i l k e (m & -> & Hi)%list_lookup_fmap_Some Hin. apply (sw_placed s Hs i m k Hi).
      intros Hn. destruct (stored_keys m) as (_ & H2 & _). apply (list_elem_of_fmap_2 fst), H2 in Hin. simpl in Hin.
      rewrite Hn in Hin. by destruct Hin.
  - intros k. rewrite list_elem_of_fmap. split.
    + intros ([k' e] & -> & (l & Hin & Hl)%list_elem_of_join). simpl.
      apply list_elem_of_lookup in Hl as [i (m & -> & Hi)%list_lookup_fmap_Some].
      destruct (stored_keys m) as (_ & H2 & _). apply (list_elem_of_fmap_2 fst), H2 in Hin. simpl in Hin.
      assert (shardFor s k' = i) as E by (apply (sw_placed s Hs i m k' Hi); by apply not_eq_None_Some).
      pose proof (shardFor_lookup s k' Hs) as Ho. rewrite E in Ho. rewrite Hi in Ho. injection Ho as Ho. rewrite E. by rewrite <-Ho.
    + intros Hv. pose proof (shardFor_lookup s k Hs) as Hi. simpl in Hv.
      destruct (stored_keys (shard_at s (shardFor s k))) as (_ & H2 & _).
      apply H2, list_elem_of_fmap in Hv as ([k' e] & -> & He). exists (k', e). split; [done|].
      apply list_elem_of_join. eexists. split; [exact He|]. eapply (list_elem_of_fmap_2 (λ m, map_to_list (data m))), list_elem_of_lookup_2, Hi.
  - unfold ShardedSize. clear Hs. generalize (shards s). intros l.
    assert (∀ z, foldl (λ size m, (size + Size m)%Z) z l = (z + len (mjoin ((λ m, map_to_list (data m)) <$> l)).*1)%Z) as H.
    { induction l as [|m l IH]; intros z; [simpl; rewrite len_nil; lia|]. cbn [foldl]. rewrite IH, fmap_cons. cbn [mjoin list_join].
      rewrite fmap_app, len_app. destruct (stored_keys m) as (_ & _ & ->). symmetry. apply Z.add_assoc. }
    rewrite H. lia.
Qed.

#[export] Instance ShardedStore_laws : StoreLaws (ShardedStore P).
Proof.
  split.
  - intros s now key Hs. pose proof (law_Get (shard_at s (shardFor s key)) now key (owner_wf s Hs key)) as (Hc & Hr & Hv).
    simpl. unfold ShardedGet. simpl in *. destruct (Get _ _ _) as [m' r]. simpl in *.
    destruct (lift_same s Hs key m' Hc Hv) as [Hc' Hv']. by split_and!.
  - intros o s key v Hs Ho.
    pose proof (law_Set (o (shardFor s key)) (shard_at s (shardFor s key)) key v (owner_wf s Hs key) (Ho _)) as H.
    simpl. unfold ShardedSet. simpl in *. destruct (Set_ _ _ _ _) as [m' r]. by apply lift_write.
  - intros o s now key v ttl Hs Ho.
    pose proof (law_SetWithTTL (o (shardFor s key)) (shard_at s (shardFor s key)) now key v ttl
      (owner_wf s Hs key) (Ho _)) as H.
    simpl. unfold ShardedSetWithTTL. simpl in *. destruct (SetWithTTL _ _ _ _ _ _) as [m' r].
    case_decide; [by apply lift_write|]. destruct H as (? & Hc & Hv). split; [done|].
    by apply (lift_same s Hs key m').
  - intros X o s now key fn Hs Ho.
    pose proof (law_UpdateReplica (o (shardFor s key)) (shard_at s (shardFor s key)) now key fn
      (owner_wf s Hs key) (Ho _)) as H.
    cbv zeta. simpl. unfold ShardedUpdateReplica. simpl in *.
    destruct (UpdateReplica _ _ _ _ _) as [[m' r] x]. destruct H as (-> & Hc & H).
    split; [done|]. destruct r as [[]|e|]; [| |done].
    + destruct H as (Hf & Hb & Hv). destruct (lift_bystanders s Hs key m' Hc Hb).
      split; [done|]. split_and!; [by unfold fits; rewrite <-(lift_limits s Hs key)|done|]. exact (eq_trans (lift_key s Hs key m') Hv).
    + destruct H as [Hf Hv]. destruct (lift_same s Hs key m' Hc Hv). split; [done|].
      split; [|done].
      rewrite <-Hf. f_equal. symmetry. apply (lift_limits s Hs key).
  - intros s key Hs. pose proof (law_Delete (shard_at s (shardFor s key)) key (owner_wf s Hs key)) as (Hc & Hr & Hk & Hv).
    set (m := shard_at s (shardFor s key)) in *. change (sDelete m key) with (Delete m key) in *.
    change (sDelete s key) with (with_shard s (shardFor s key) (Delete m key).1, (Delete m key).2).
    destruct (Delete m key) as [m' r]. cbn [fst snd] in *.
    destruct (lift_bystanders s Hs key m' Hc) as [Hc' Hb]; [by intros k Hk'; left; apply Hv|].
    split; [done|]. split; [done|]. split; [exact (eq_trans (lift_key s Hs key m') Hk)|].
    intros k Hk'. apply (lift_view s Hs key m' eq); [done|]. by apply Hv.
  - intros o s now Hs Ho. by apply (ShardedRange_spec o s now).
  - intros s Hs. by apply ShardedSize_spec.
  - intros s now key pred Hs. cbv zeta.
    pose proof (law_DeleteIf (shard_at s (shardFor s key)) now key pred (owner_wf s Hs key)) as (Hc & Hr & Hv).
    change (slive s now key) with (slive (shard_at s (shardFor s key)) now key).
    change (sDeleteIf s now key pred) with (ShardedDeleteIf s now key pred).
    unfold ShardedDeleteIf. cbv zeta. set (m := shard_at s (shardFor s key)) in *.
    change (sDeleteIf m now key pred) with (DeleteIf m now key pred) in *.
    destruct (DeleteIf m now key pred) as [m' r]. cbn [fst snd] in *. rewrite <-Hr in *.
    destruct (lift_bystanders s Hs key m' Hc) as [Hc' Hb].
    { intros k Hk. left. fold m. by rewrite Hv, bool_decide_eq_false_2, andb_false_r. }
    split; [done|]. split; [done|]. intros k.
    destruct (decide (k = key)) as [->|Hne].
    + rewrite lift_key by done. exact (Hv key).
    + rewrite bool_decide_eq_false_2, andb_false_r by done.
      apply (lift_view s Hs key m' eq k); [done|]. specialize (Hv k).
      by rewrite bool_decide_eq_false_2, andb_false_r in Hv.
Qed.
End sharded.
