(* ===== verification/StoreSpec.v ===== *)
(** * What a store promises, end to end (internal/store)

    The abstract store is a dictionary.  A store without an eviction policy
    refines it call by call, so the sharded store and the single-shard store are
    indistinguishable to their users, but for a sweep of the sharded store that
    reads the clock once per shard.  With a policy, the sharded store keeps
    its placement and cap invariants. *)

From S2P Require Import Prelude Sketch Policy MapStore ShardedStore.

(** ** Calls and results *)

Inductive call : Type :=
| CGet (now : Z) (key : bytes)
| CSet (key v : bytes)
| CSetWithTTL (now : Z) (key v : bytes) (ttl : Z)
| CUpdateReplica (now : Z) (key : bytes) (fn : bytes → bytes)
| CDelete (key : bytes)
| CDeleteIf (now : Z) (key : bytes) (pred : bytes → bool)
| CSize
| CRange (now : nat → Z).

(** [Range] may read the clock several times: [now i] is what the [i]-th reading
    gives.  Its result is what it visits, without the order. *)
Inductive result : Type :=
| RGet (r : option bytes)
| RWrite (r : gres storeErr bool)
| RUpdate (r : gres storeErr unit)
| RDelete (r : bool)
| RSize (n : Z)
| RRange (r : gmap bytes bytes).

#[global] Instance result_eq_dec : EqDecision result.
Proof. solve_decision. Defined.

(** ** The dictionary *)

Abbreviation dict := (gmap bytes (bytes * option Z)).

Definition dict_live (d : dict) (now : Z) (key : bytes) : option bytes := visible (d !! key) now.

Definition dict_write (lim : Z * Z) (d : dict) (key v : bytes) (exp : option Z) :
    dict * gres storeErr bool :=
  match limit_error lim key v with
  | Some e => (d, Err e)
  | None => (<[key := (v, exp)]> d, Ok true)
  end.

(** [place k] is the number of the reading by which a sweep judges [k]. *)
Definition dict_range (place : bytes → nat) (now : nat → Z) (d : dict) : gmap bytes bytes :=
  map_imap (λ k e, visible (Some e) (now (place k))) d.

Definition dict_call (lim : Z * Z) (place : bytes → nat) (d : dict) (c : call) : dict * result :=
  match c with
  | CGet now key => (d, RGet (dict_live d now key))
  | CSet key v => let '(d', r) := dict_write lim d key v None in (d', RWrite r)
  | CSetWithTTL now key v ttl =>
      if (ttl <=? 0)%Z then (d, RWrite (Err ErrInvalidTTL))
      else let '(d', r) := dict_write lim d key v (Some (now + ttl)%Z) in (d', RWrite r)
  | CUpdateReplica now key fn =>
      let '(d', r) := dict_write lim d key (fn (default [] (dict_live d now key))) None in
      (d', RUpdate (do _ <- r; Ok tt))
  | CDelete key => (delete key d, RDelete (bool_decide (is_Some (d !! key))))
  | CDeleteIf now key pred =>
      match dict_live d now key with
      | Some b => if pred b then (delete key d, RDelete true) else (d, RDelete false)
      | None => (d, RDelete false)
      end
  | CSize => (d, RSize (Z.of_nat (size d)))
  | CRange now => (d, RRange (dict_range place now d))
  end.

Fixpoint dict_calls (lim : Z * Z) (place : bytes → nat) (d : dict) (cs : list call) : dict * list result :=
  match cs with
  | [] => (d, [])
  | c :: cs =>
      let '(d1, r) := dict_call lim place d c in
      let '(d2, rs) := dict_calls lim place d1 cs in (d2, r :: rs)
  end.

(** ** Calls on a store *)

Section refine.
Context {S : Type} `{!Store S}.
Implicit Types s : S.

Definition store_call (o : sord) s (c : call) : S * result :=
  match c with
  | CGet now key => let '(s', r) := sGet s now key in (s', RGet r)
  | CSet key v => let '(s', r) := sSet o s key v in (s', RWrite r)
  | CSetWithTTL now key v ttl => let '(s', r) := sSetWithTTL o s now key v ttl in (s', RWrite r)
  | CUpdateReplica now key fn =>
      let '(s', r, _) := sUpdateReplica o s now key (λ old, (fn old, tt)) in (s', RUpdate r)
  | CDelete key => let '(s', r) := sDelete s key in (s', RDelete r)
  | CDeleteIf now key pred => let '(s', r) := sDeleteIf s now key pred in (s', RDelete r)
  | CSize => (s, RSize (sSize s))
  | CRange now => (s, RRange (list_to_map (sRange o s now)))
  end.

(** A sequence of calls, each under its own iteration orders. *)
Fixpoint store_calls s (cs : list (sord * call)) : S * list result :=
  match cs with
  | [] => (s, [])
  | (o, c) :: cs =>
      let '(s1, r) := store_call o s c in
      let '(s2, rs) := store_calls s1 cs in (s2, r :: rs)
  end.

(** The store holds what the dictionary holds. *)
Definition represents s (d : dict) : Prop := ∀ k, sview s k = d !! k.

Context `{!StoreLaws S}.

Lemma represents_live s d now key : represents s d → slive s now key = dict_live d now key.
Proof. intros H. unfold slive, dict_live. by rewrite H. Qed.

(** A write to a store that does not evict is a write to the dictionary. *)
Lemma represents_write s s' d key v exp r :
  represents s d → ¬ sevicts s → write_ok s s' key v exp r →
  represents s' (dict_write (slimits s) d key v exp).1
  ∧ r = (dict_write (slimits s) d key v exp).2 ∧ call_ok s s'.
Proof.
  intros Hd He [Hc H]. unfold dict_write, fits in *. destruct r as [adm|e|]; [| |done].
  - destruct H as (-> & Hb & Hv & [-> |?]); [|done]. split_and!; [|done..]. intros k. simpl.
    destruct (decide (k = key)) as [->|Hne]; [by rewrite lookup_insert_eq|].
    rewrite lookup_insert_ne by done. by destruct (Hb k Hne) as [->|[_ ?]].
  - destruct H as [-> Hv]. split_and!; [|done..]. intros k. by rewrite Hv.
Qed.

Lemma represents_delete s s' d key :
  represents s d → (∀ k, sview s' k = if bool_decide (k = key) then None else sview s k) →
  represents s' (delete key d).
Proof.
  intros Hd H k. rewrite H, lookup_delete. case_bool_decide; [by rewrite decide_True|].
  by rewrite decide_False.
Qed.

Lemma represents_range o s d now :
  swf s → slawful o → represents s d →
  list_to_map (sRange o s now) = dict_range (sclock s) now d.
Proof.
  intros Hs Ho Hd. destruct (law_Range o s now Hs Ho) as [H1 H2]. apply map_eq. intros k.
  apply option_eq. intros v. rewrite <-elem_of_list_to_map by done.
  rewrite H1, (represents_live s d) by done. unfold dict_live, dict_range.
  rewrite map_lookup_imap. by destruct (d !! k).
Qed.

Lemma represents_size s d : swf s → represents s d → sSize s = Z.of_nat (size d).
Proof.
  intros Hs Hd. destruct (law_Size s Hs) as (ks & H1 & H2 & ->). unfold len. f_equal.
  rewrite <-length_map_to_list, <-(length_fmap fst). apply Permutation_length, NoDup_Permutation; [done|apply NoDup_fst_map_to_list|].
  intros k. rewrite H2, Hd, list_elem_of_fmap. split.
  - intros [e He]. exists (k, e). by rewrite elem_of_map_to_list.
  - intros ([k' e] & -> & He%elem_of_map_to_list). by exists e.
Qed.

Lemma store_call_refines o s d c :
  swf s → ¬ sevicts s → slawful o → represents s d →
  let '(s', r) := store_call o s c in
  let '(d', r') := dict_call (slimits s) (sclock s) d c in
  r = r' ∧ represents s' d' ∧ call_ok s s'.
Proof.
  intros Hs He Ho Hd. destruct c as [now key|key v|now key v ttl|now key fn|key|now key pred| |now]; simpl.
  - destruct (law_Get s now key Hs) as (Hc & Hr & Hv). destruct (sGet s now key) as [s' r].
    simpl in *. rewrite Hr, (represents_live s d) by done.
    split_and!; [done| |done]. intros k. by rewrite Hv.
  - pose proof (represents_write _ _ _ _ _ _ _ Hd He (law_Set o s key v Hs Ho)) as (H1 & H2 & H3).
    destruct (sSet o s key v) as [s' r], (dict_write _ _ _ _ _) as [d' r']. simpl in *. by subst.
  - pose proof (law_SetWithTTL o s now key v ttl Hs Ho) as H. case_bool.
    + rewrite decide_False in H by lia. destruct (sSetWithTTL _ _ _ _ _ _) as [s' r]. simpl in H.
      destruct H as (-> & Hc & Hv). split_and!; [done| |done]. intros k. by rewrite Hv.
    + rewrite decide_True in H by lia.
      pose proof (represents_write _ _ _ _ _ _ _ Hd He H) as (H1 & H2 & H3).
      destruct (sSetWithTTL _ _ _ _ _ _) as [s' r], (dict_write _ _ _ _ _) as [d' r']. simpl in *. by subst.
  - pose proof (law_UpdateReplica o s now key (λ old, (fn old, tt)) Hs Ho) as H. cbv zeta in H. simpl in H.
    rewrite (represents_live s d) in H by done.
    destruct (sUpdateReplica _ _ _ _ _) as [[s' r] x]. destruct H as (_ & Hc & H).
    destruct (represents_write s s' d key (fn (default [] (dict_live d now key))) None
      (do _ <- r; Ok true) Hd He) as (H1 & H2 & _).
    { split; [done|]. destruct r; [|done..]. destruct H as (? & ? & ?). split_and!; try done. by left. }
    destruct (dict_write _ _ _ _ _) as [d' r']. simpl in *. split_and!; [|done..]. subst r'.
    by destruct r as [[]| |].
  - destruct (law_Delete s key Hs) as (Hc & Hr & Hk & Hv). destruct (sDelete s key) as [s' r].
    simpl in *. rewrite <-Hd. split_and!; [by subst| |done].
    apply (represents_delete s); [done|]. intros k. clear Hr. case_bool_decide as E; [by rewrite E|auto].
  - destruct (law_DeleteIf s now key pred Hs) as (Hc & Hr & Hv).
    rewrite (represents_live s d) in Hr, Hv by done. destruct (sDeleteIf _ _ _ _) as [s' r].
    simpl in *. destruct (dict_live d now key) as [b|]; [destruct (pred b)|]; simpl in *; subst;
      (split_and!; [done| |done]); try (intros k; by rewrite Hv). by apply (represents_delete s).
  - split_and!; [by rewrite (represents_size s d)|done|]. by apply call_ok_refl.
  - split_and!; [by rewrite (represents_range o s d)|done|]. by apply call_ok_refl.
Qed.

Lemma store_calls_refines s d cs place :
  swf s → ¬ sevicts s → Forall slawful cs.*1 → represents s d → (∀ k, place k = sclock s k) →
  (store_calls s cs).2 = (dict_calls (slimits s) place d cs.*2).2.
Proof.
  revert s d. induction cs as [|[o c] cs IH]; intros s d Hs He Ho Hd Hpl; simpl; [done|].
  assert (dict_call (slimits s) place d c = dict_call (slimits s) (sclock s) d c) as ->.
  { destruct c; try done. simpl. do 2 f_equal. apply map_eq. intros k. unfold dict_range. by rewrite !map_lookup_imap, Hpl. }
  apply Forall_cons in Ho as [Ho Hos]. pose proof (store_call_refines o s d c Hs He Ho Hd) as H.
  destruct (store_call o s c) as [s1 r], (dict_call _ _ d c) as [d1 r'].
  destruct H as (-> & Hd' & Hs' & Hl & He' & Hcl).
  specialize (IH s1 d1 Hs' ltac:(auto) Hos Hd' ltac:(intros k; by rewrite Hcl)). rewrite Hl in IH.
  destruct (store_calls s1 cs), (dict_calls _ _ d1 _). simpl in *. by subst.
Qed.

(** Whatever it evicts, a well-formed store stays well formed. *)
Lemma store_call_ok o s c : swf s → slawful o → call_ok s (store_call o s c).1.
Proof.
  intros Hs Ho. destruct c as [now key|key v|now key v ttl|now key fn|key|now key pred| |now]; simpl.
  - pose proof (law_Get s now key Hs) as [H _]. by destruct (sGet _ _ _).
  - pose proof (law_Set o s key v Hs Ho) as [H _]. by destruct (sSet _ _ _ _).
  - pose proof (law_SetWithTTL o s now key v ttl Hs Ho) as H.
    case_decide; destruct (sSetWithTTL _ _ _ _ _ _); [by destruct H|by destruct H as (_ & ? & _)].
  - pose proof (law_UpdateReplica o s now key (λ old, (fn old, tt)) Hs Ho) as H. cbv zeta in H.
    destruct (sUpdateReplica _ _ _ _ _) as [[s' r] x]. by destruct H as (_ & ? & _).
  - pose proof (law_Delete s key Hs) as [H _]. by destruct (sDelete _ _).
  - pose proof (law_DeleteIf s now key pred Hs) as [H _]. by destruct (sDeleteIf _ _ _ _).
  - by apply call_ok_refl.
  - by apply call_ok_refl.
Qed.

Lemma store_calls_ok s cs : swf s → Forall slawful cs.*1 → call_ok s (store_calls s cs).1.
Proof.
  revert s. induction cs as [|[o c] cs IH]; intros s Hs Ho; simpl; [by apply call_ok_refl|].
  apply Forall_cons in Ho as [Ho Hos]. pose proof (store_call_ok o s c Hs Ho) as (H1 & H2 & H3 & H4).
  destruct (store_call o s c) as [s1 r]. simpl in *.
  specialize (IH s1 H1 Hos) as (K1 & K2 & K3 & K4). destruct (store_calls s1 cs). simpl in *.
  split; [done|]. split; [congruence|]. split; [auto|]. intros k. by rewrite K4, H4.
Qed.
End refine.

(** ** New stores *)

Section new.
Context {P : Type} `{!Policy P}.
Implicit Types (opts : nat → list (@Option_ P)) (m : MapStore P).

(** [opts i] configure an empty store whose limits and cap do not depend on [i]. *)
Definition uniform_opts (opts : nat → list (@Option_ P)) : Prop :=
  ∀ i, data (New (opts i)) = ∅ ∧ same_config (New (opts 0%nat)) (New (opts i)).

(** The store [NewSharded] returns when it returns. *)
Definition sharded_of h (n : Z) opts : ShardedStore P :=
  mkSharded ((λ i, New (opts i)) <$> seq 0 (Z.to_nat (Z.max 1 n))) h.

Lemma NewSharded_eq h n opts :
  NewSharded h n opts = if (n <=? 2 ^ 45)%Z then Ok (sharded_of h n opts) else Panic.
Proof.
  unfold NewSharded, sharded_of, make_panics. assert ((if (n <? 1)%Z then 1 else n) = Z.max 1 n)%Z as -> by (case_bool; lia).
  replace (2 ^ 48)%Z with (2 ^ 45 * 8)%Z by lia.
  destruct (Z.ltb_spec (Z.max 1 n) 0), (Z.ltb_spec (2 ^ 45 * 8) (Z.max 1 n * 8)), (Z.leb_spec n (2 ^ 45)); simpl; (done || lia).
Qed.

Lemma NewSharded_Ok h n opts s : NewSharded h n opts = Ok s → s = sharded_of h n opts.
Proof. rewrite NewSharded_eq. case_bool; [by intros [= <-]|done]. Qed.

Lemma lookup_sharded_of h n opts i m :
  shards (sharded_of h n opts) !! i = Some m → m = New (opts i).
Proof. simpl. intros (j & -> & [-> _]%lookup_seq)%list_lookup_fmap_Some. done. Qed.

Lemma sharded_of_length h n opts :
  length (shards (sharded_of h n opts)) = Z.to_nat (Z.max 1 n).
Proof. simpl. by rewrite length_fmap, length_seq. Qed.

Lemma sharded_of_wf h n opts : uniform_opts opts → swf (sharded_of h n opts).
Proof.
  intros Hu. pose proof (sharded_of_length h n opts) as Hlen.
  assert (shard_at (sharded_of h n opts) 0 = New (opts 0%nat)) as H0.
  { unfold shard_at. destruct (shards (sharded_of h n opts) !! 0) as [m|] eqn:E.
    - by apply lookup_sharded_of in E.
    - apply lookup_ge_None in E. lia. }
  split.
  - intros E. rewrite E in Hlen. simpl in Hlen. lia.
  - apply Forall_lookup_2. intros i m ->%lookup_sharded_of. apply store_inv_empty, Hu.
  - intros i m ->%lookup_sharded_of. rewrite H0. destruct (Hu i) as (_ & E1 & E2 & _).
    simpl. unfold limits. by f_equal.
  - intros i m k ->%lookup_sharded_of. unfold view. by rewrite (proj1 (Hu i)), lookup_empty.
Qed.

Lemma sharded_of_represents h n opts : uniform_opts opts → represents (sharded_of h n opts) ∅.
Proof.
  intros Hu k. pose proof (sharded_of_wf h n opts Hu) as Hs. simpl.
  pose proof (shardFor_lookup _ k Hs) as ->%lookup_sharded_of.
  unfold view. by rewrite (proj1 (Hu _)), !lookup_empty.
Qed.

Lemma sharded_of_evicts h n opts :
  uniform_opts opts → policy (New (opts 0%nat)) = None → ¬ sevicts (sharded_of h n opts).
Proof.
  intros Hu Hp (m & [i ->%lookup_sharded_of]%list_elem_of_lookup & Hne).
  apply Hne, (proj2 (Hu i)), Hp.
Qed.

Lemma sharded_of_limits h n opts :
  uniform_opts opts → slimits (sharded_of h n opts) = limits (New (opts 0%nat)).
Proof.
  intros Hu. pose proof (sharded_of_wf h n opts Hu) as Hs. pose proof (sw_some _ Hs).
  simpl. unfold shard_at. destruct (shards _ !! 0%nat) as [m|] eqn:E.
  - by apply lookup_sharded_of in E as ->.
  - apply lookup_ge_None in E. rewrite sharded_of_length in E. lia.
Qed.
End new.

(** ** Properties *)

(** A sweep that reads the same time at every shard. *)
Definition steady (c : call) : Prop :=
  match c with CRange now => ∀ i, now i = now 0%nat | _ => True end.

Lemma dict_calls_steady lim place place' d cs :
  Forall steady cs → dict_calls lim place d cs = dict_calls lim place' d cs.
Proof.
  intros Hcs. revert d. induction Hcs as [|c cs Hc _ IH]; intros d; simpl; [done|].
  assert (dict_call lim place d c = dict_call lim place' d c) as ->.
  { destruct c; try done. simpl in *. do 2 f_equal. apply map_eq. intros k. unfold dict_range.
    by rewrite !map_lookup_imap, Hc, (Hc (place' k)). }
  destruct (dict_call lim place' d c) as [d1 r]. by rewrite IH.
Qed.

Lemma single_refines {P : Type} `{!Policy P} (opts : list (@Option_ P)) (cs : list (orders * call)) :
  data (New opts) = ∅ → policy (New opts) = None → Forall lawful cs.*1 →
  (store_calls (S := MapStore P) (New opts) cs).2 = (dict_calls (limits (New opts)) (λ _, 0%nat) ∅ cs.*2).2.
Proof.
  intros H0 Hp Ho. apply (store_calls_refines (S := MapStore P) (Store0 := MapStore_store) (New opts) ∅ cs (λ _, 0%nat)); auto.
  - by apply store_inv_empty.
  - intros k. simpl. unfold view. by rewrite H0, !lookup_empty.
Qed.

Lemma sharded_refines {P : Type} `{!Policy P} (h : bytes → N) (n : Z) (opts : nat → list (@Option_ P)) (s : ShardedStore P) (cs : list ((nat → orders) * call)) :
  uniform_opts opts → policy (New (opts 0%nat)) = None → NewSharded h n opts = Ok s →
  Forall (λ o, ∀ i, lawful (o i)) cs.*1 →
  (store_calls (S := ShardedStore P) s cs).2 = (dict_calls (limits (New (opts 0%nat))) (shardFor s) ∅ cs.*2).2.
Proof.
  intros Hu Hp ->%NewSharded_Ok Ho. rewrite <-(sharded_of_limits h n opts Hu).
  apply (store_calls_refines (S := ShardedStore P) (Store0 := ShardedStore_store) (sharded_of h n opts) ∅ cs (shardFor _));
    auto using sharded_of_wf, sharded_of_evicts, sharded_of_represents.
Qed.

(** C16: both stores of the package are dictionaries while no eviction policy is
    configured.  Whatever sequence of Get, Set, SetWithTTL, UpdateReplica, Delete,
    DeleteIf, Size and Range is called on a new [ShardedStore], of any hash and any
    shard count [NewSharded] can allocate, or on a new [MapStore], at any times and
    under any iteration orders, each call returns what the dictionary returns: size-limit
    and TTL errors included, expired keys hidden from all but Size and Delete,
    and Range judging each key by the clock as read at the shard that holds it. *)
Theorem store_refines_dictionary {P : Type} `{!Policy P} (h : bytes → N) (n : Z) (opts : nat → list (@Option_ P))
    (s : ShardedStore P) (cs : list ((nat → orders) * call)) (cs' : list (orders * call)) :
  uniform_opts opts → policy (New (opts 0%nat)) = None → NewSharded h n opts = Ok s →
  Forall (λ o, ∀ i, lawful (o i)) cs.*1 → Forall lawful cs'.*1 →
  let lim := (maxKeySize (New (opts 0%nat)), maxValueSize (New (opts 0%nat))) in
  (store_calls (S := ShardedStore P) s cs).2 = (dict_calls lim (shardFor s) ∅ cs.*2).2
  ∧ (store_calls (S := MapStore P) (New (opts 0%nat)) cs').2 = (dict_calls lim (λ _, 0%nat) ∅ cs'.*2).2.
Proof.
  intros Hu Hp Hn Ho Ho'. split; [by apply (sharded_refines h n opts)|]. apply single_refines; [apply Hu|done..].
Qed.

(** C15: sharding is invisible.  Without an eviction policy, a sharded store with
    any hash and any shard count it can allocate answers every sequence of Get, Set,
    SetWithTTL, UpdateReplica, Delete, DeleteIf, Size and Range exactly as one
    unsharded [MapStore] with the same options, provided each Range reads the same
    time at all shards (the code reads the clock once per shard, so a key that
    expires during a sweep may be judged at either time). *)
Theorem sharded_equals_single {P : Type} `{!Policy P} (h : bytes → N) (n : Z)
    (opts : nat → list (@Option_ P)) (s : ShardedStore P) (cs : list ((nat → orders) * call)) (cs' : list (orders * call)) :
  uniform_opts opts → policy (New (opts 0%nat)) = None → NewSharded h n opts = Ok s →
  Forall (λ o, ∀ i, lawful (o i)) cs.*1 → Forall lawful cs'.*1 → cs.*2 = cs'.*2 → Forall steady cs.*2 →
  (store_calls (S := ShardedStore P) s cs).2 = (store_calls (S := MapStore P) (New (opts 0%nat)) cs').2.
Proof.
  intros Hu Hp Hn H1 H2 E Hst. rewrite (sharded_refines h n opts) by done. rewrite single_refines by (apply Hu || done).
  by rewrite <-E, (dict_calls_steady _ (shardFor s) (λ _, 0%nat)).
Qed.

(** C17: with any policy, after any sequence of calls on a new sharded store every
    key still lives only in the shard its hash selects, every shard satisfies
    the store invariant (its cap included), Size is the number of keys stored, and a
    full sweep visits each key a reader would find, once, with the value the reader
    would get. *)
Theorem sharded_reachable {P : Type} `{!Policy P} (h : bytes → N) (n : Z)
    (opts : nat → list (@Option_ P)) (s0 : ShardedStore P) (cs : list ((nat → orders) * call)) :
  uniform_opts opts → NewSharded h n opts = Ok s0 → Forall (λ o, ∀ i, lawful (o i)) cs.*1 →
  let s := (store_calls (S := ShardedStore P) s0 cs).1 in
  (∀ i m k, shards s !! i = Some m → view m k ≠ None → shardFor s k = i)
  ∧ Forall store_inv (shards s)
  ∧ (∃ ks, NoDup ks ∧ (∀ k, k ∈ ks ↔ is_Some (sview s k)) ∧ ShardedSize s = len ks)
  ∧ ∀ ord now, (∀ i, lawful (ord i)) →
      NoDup (ShardedRange ord s now).*1
      ∧ ∀ k v, (k, v) ∈ ShardedRange ord s now ↔ slive s (now (shardFor s k)) k = Some v.
Proof.
  intros Hu ->%NewSharded_Ok Ho s. destruct (store_calls_ok (S := ShardedStore P) (Store0 := ShardedStore_store)
    _ cs (sharded_of_wf h n opts Hu) Ho) as [Hs _].
  fold s in Hs. split_and!; [apply (sw_placed s Hs)|apply (sw_shards s Hs)|by apply ShardedSize_spec|].
  intros ord now Hord. by destruct (ShardedRange_spec ord s now Hs Hord).
Qed.

(** ** Witnesses *)

Definition opts8 (i : nat) : list (@Option_ lfu) := [WithMaxKeySize 8].
Definition hash_len (k : bytes) : N := N.of_nat (length k).

Definition calls8 : list call :=
  [CSet (str "a") (str "1"); CSetWithTTL 10 (str "bb") (str "2") 5; CSet (str "too long key") [];
   CSize; CRange (λ _, 12%Z); CRange (λ _, 20%Z); CUpdateReplica 20 (str "bb") (λ old, old ++ str "3");
   CGet 30 (str "bb"); CDeleteIf 30 (str "a") (λ v, bool_decide (v = str "1")); CGet 30 (str "a")].

Definition sharded_calls8 : list ((nat → orders) * call) := (λ c, (λ _, map_to_list, c)) <$> calls8.
Definition single_calls8 : list (orders * call) := (λ c, (map_to_list, c)) <$> calls8.

Lemma uniform_opts8 : uniform_opts opts8.
Proof. intros i. split; reflexivity. Qed.

Lemma sharded_calls8_lawful : Forall (λ o, ∀ i : nat, lawful (o i)) sharded_calls8.*1.
Proof. repeat constructor; intros; apply lawful_map_to_list. Qed.

Lemma single_calls8_lawful : Forall lawful single_calls8.*1.
Proof. repeat constructor; intros; apply lawful_map_to_list. Qed.

Definition sharded8 : ShardedStore lfu := sharded_of hash_len 3 opts8.

Lemma sharded8_new : NewSharded hash_len 3 opts8 = Ok sharded8.
Proof. reflexivity. Qed.

Lemma store_refines_dictionary_witness :
  (store_calls (New (opts8 0)) single_calls8).2 = (dict_calls (8, 2 ^ 20)%Z (λ _, 0%nat) ∅ calls8).2.
Proof.
  refine (proj2 (store_refines_dictionary hash_len 3 opts8 sharded8 sharded_calls8 single_calls8 _ _ _ _ _)).
  - apply uniform_opts8.
  - reflexivity.
  - apply sharded8_new.
  - apply sharded_calls8_lawful.
  - apply single_calls8_lawful.
Defined.

Lemma sharded_equals_single_witness :
  (store_calls (S := ShardedStore lfu) sharded8 sharded_calls8).2
  = (store_calls (S := MapStore lfu) (New (opts8 0)) single_calls8).2.
Proof.
  apply (sharded_equals_single hash_len 3 opts8 sharded8 sharded_calls8 single_calls8).
  - apply uniform_opts8.
  - reflexivity.
  - apply sharded8_new.
  - apply sharded_calls8_lawful.
  - apply single_calls8_lawful.
  - reflexivity.
  - repeat constructor.
Defined.

Lemma sharded_reachable_witness :
  Forall store_inv (shards (store_calls (S := ShardedStore lfu) sharded8 sharded_calls8).1).
Proof.
  apply (sharded_reachable hash_len 3 opts8 sharded8 sharded_calls8).
  - apply uniform_opts8.
  - apply sharded8_new.
  - apply sharded_calls8_lawful.
Defined.

(** A sweep that reads the clock at a later shard later does not see one moment: the
    key of the later shard has expired by then. *)
Lemma sweep_straddles_expiry :
  let s := (store_calls (S := ShardedStore lfu) sharded8
    ((λ c, (λ _, map_to_list, c)) <$> [CSetWithTTL 0 (str "a") (str "1") 10; CSetWithTTL 0 (str "bb") (str "2") 10])).1 in
  ShardedRange (λ _, map_to_list) s (λ _, 9%Z) = [(str "a", str "1"); (str "bb", str "2")]
  ∧ ShardedRange (λ _, map_to_list) s (λ i, if (i =? 2)%nat then 11 else 9)%Z = [(str "a", str "1")].
Proof. split; vm_compute; reflexivity. Qed.
