(* ===== verification/Membership.v ===== *)
(** * The cluster view (internal/cluster/membership.go)

    A roster is a map from node IDs to entries, each method one state
    transformer (every method holds the roster's lock for its whole body).  A
    state is a [uint8]: the wire can carry any byte, and the code does not
    validate it.  Logging is left out; [now] is nanoseconds. *)

From S2P Require Import Prelude.

(** ** Data *)

(** [NodeState] is a [uint8]. *)
Abbreviation NodeState := N.
Definition Alive : NodeState := 0.
Definition Suspect : NodeState := 1.
Definition Dead : NodeState := 2.

Record Node : Type := mkNode {
  ID : bytes;
  Addr : bytes;
  State : NodeState;
  Incarnation : N
}.

#[global] Instance Node_eq_dec : EqDecision Node.
Proof. solve_decision. Defined.

Record member : Type := mkMember { node : Node; lastSeen : Z }.

Record Members : Type := mkMembers { self : bytes; nodes : gmap bytes member }.

(** An enumeration of the roster, as [range m.nodes] may produce it. *)
Abbreviation roster_order := (gmap bytes member → list (bytes * member)).

(** ** Operations *)

Definition NewMembers (s : Node) (now : Z) : Members :=
  let s := mkNode (ID s) (Addr s) Alive (Incarnation s) in
  mkMembers (ID s) {[ ID s := mkMember s now ]}.

(** [Panic]: a nil entry for self. *)
Definition Bump (m : Members) (now : Z) : gres False Members :=
  match nodes m !! self m with
  | None => Panic
  | Some e =>
      let n := node e in
      let n := mkNode (ID n) (Addr n) (State n) (u64 (Incarnation n + 1)) in
      Ok (mkMembers (self m) (<[self m := mkMember n now]> (nodes m)))
  end.

(** One iteration of [Merge]. *)
Definition merge_node (now : Z) (m : Members) (r : Node) : Members :=
  let put e := mkMembers (self m) (<[ID r := e]> (nodes m)) in
  match nodes m !! ID r with
  | None => put (mkMember r now)
  | Some local =>
      let n := node local in
      if bool_decide (ID r = self m) then
        if negb (State r =? Alive)%N && (Incarnation n <=? Incarnation r)%N
        then put (mkMember (mkNode (ID n) (Addr n) Alive (u64 (Incarnation r + 1))) now)
        else m
      else if (Incarnation n <? Incarnation r)%N then put (mkMember r now)
      else if (Incarnation r =? Incarnation n)%N && (State n <? State r)%N
      then put (mkMember (mkNode (ID n) (Addr n) (State r) (Incarnation n)) now)
      else m
  end.

Definition Merge (m : Members) (remote : list Node) (now : Z) : Members :=
  foldl (merge_node now) m remote.

(** One entry of [DetectFailures]. *)
Definition detect (self : bytes) (now timeout : Z) (l : member) : member :=
  let n := node l in
  if bool_decide (ID n = self) then l
  else if (State n =? Alive)%N && (timeout <? now - lastSeen l)%Z
  then mkMember (mkNode (ID n) (Addr n) Dead (Incarnation n)) (lastSeen l)
  else l.

(** The entries are distinct pointers, so the order of the loop is immaterial. *)
Definition DetectFailures (m : Members) (now timeout : Z) : Members :=
  mkMembers (self m) (detect (self m) now timeout <$> nodes m).

Definition Snapshot (ord : roster_order) (m : Members) : list Node :=
  (λ kv, node kv.2) <$> ord (nodes m).

Definition AliveNodes (ord : roster_order) (m : Members) : list Node :=
  (λ kv, node kv.2) <$> filter (λ kv, State (node kv.2) = Alive) (ord (nodes m)).

(** [Panic]: a nil entry for self. *)
Definition Self (m : Members) : gres False Node :=
  match nodes m !! self m with Some e => Ok (node e) | None => Panic end.

(** ** Invariant and order of information *)

(** The field widths of the wire: a state is a byte, an incarnation a [uint64]
    with room for one refutation. *)
Definition node_ok (n : Node) : Prop := (State n < 256)%N ∧ (Incarnation n < 2 ^ 64 - 1)%N.

#[global] Instance node_ok_dec n : Decision (node_ok n).
Proof. unfold node_ok. apply _. Defined.

Record members_wf (m : Members) : Prop := {
  mw_keys k e : nodes m !! k = Some e → ID (node e) = k;
  mw_self : ∃ e, nodes m !! self m = Some e ∧ State (node e) = Alive;
  mw_states k e : nodes m !! k = Some e → (State (node e) < 256)%N
}.

(** Freshness first, deadness on a tie: one number. *)
Definition rank (n : Node) : N := (Incarnation n * 256 + State n)%N.

Definition rank_of (m : Members) (id : bytes) : option N := (λ e, rank (node e)) <$> nodes m !! id.

(** What a received record contributes: its rank, or, for a claim that self is
    not alive, the incarnation that refutes it. *)
Definition claim (self : bytes) (r : Node) : N :=
  if decide (ID r = self)
  then if decide (State r = Alive) then 0 else ((Incarnation r + 1) * 256)%N
  else rank r.

Definition claims (m : Members) (id : bytes) (rs : list Node) : list N :=
  option_list (rank_of m id) ++ (claim (self m) <$> filter (λ r, ID r = id) rs).

(** [o] is the greatest of [l], if there is one. *)
Definition is_max (l : list N) (o : option N) : Prop :=
  match o with None => l = [] | Some x => x ∈ l ∧ ∀ y, y ∈ l → (y <= x)%N end.

Lemma is_max_unique l l' o o' :
  (∀ x, x ∈ l ↔ x ∈ l') → is_max l o → is_max l' o' → o = o'.
Proof.
  intros E. destruct o as [x|], o' as [y|]; simpl.
  - intros [H1 H2] [K1 K2]. f_equal. apply N.le_antisymm; [apply K2|apply H2]; by apply E.
  - intros [H1 _] ->. apply E, elem_of_nil in H1. done.
  - intros -> [K1 _]. apply E, elem_of_nil in K1. done.
  - done.
Qed.

(** ** Merging one record *)

Lemma merge_node_self now m r : self (merge_node now m r) = self m.
Proof. unfold merge_node. repeat case_match; done. Qed.

Lemma put_wf m id e :
  members_wf m → ID (node e) = id → (State (node e) < 256)%N →
  (id = self m → State (node e) = Alive) → members_wf (mkMembers (self m) (<[id := e]> (nodes m))).
Proof.
  intros [H1 (e0 & He0 & Ha0) H3] Hid Hst Hself. split; simpl.
  - intros k x [[<- <-]|[_ Hx]]%lookup_insert_Some; auto.
  - destruct (decide (id = self m)) as [->|Hne].
    + exists e. rewrite lookup_insert_eq. auto.
    + exists e0. by rewrite lookup_insert_ne.
  - intros k x [[<- <-]|[_ Hx]]%lookup_insert_Some; eauto.
Qed.

Lemma merge_node_wf now m r :
  members_wf m → (State r < 256)%N → members_wf (merge_node now m r).
Proof.
  intros Hm Hr. unfold merge_node. destruct (nodes m !! ID r) as [l|] eqn:E.
  - pose proof (mw_keys _ Hm _ _ E) as Hid. case_bool_decide as Es.
    + case_match; [|done]. by apply put_wf.
    + repeat case_match; try done; by apply put_wf.
  - apply put_wf; try done. intros Es. destruct (mw_self _ Hm) as (e & He & _). congruence.
Qed.

(** The rank of every node moves to the maximum of what is known. *)
Lemma merge_node_rank now m r id :
  members_wf m → node_ok r →
  rank_of (merge_node now m r) id
  = if decide (ID r = id)
    then Some (match rank_of m id with None => claim (self m) r | Some x => N.max x (claim (self m) r) end)
    else rank_of m id.
Proof.
  intros [H1 H2 H3] [Hs Hi]. unfold merge_node, rank_of, claim. case_decide as E.
  2:{ repeat case_match; simpl; rewrite ?lookup_insert_ne by done; done. }
  subst id. destruct (nodes m !! ID r) as [l|] eqn:El; simpl.
  2:{ rewrite lookup_insert_eq. simpl. case_decide as Es; [|done].
      destruct H2 as (e & He & _). congruence. }
  pose proof (H3 _ _ El) as Hls. unfold rank. case_bool_decide as Es.
  - rewrite decide_True by done. destruct H2 as (e & He & Ha). rewrite <-Es, El in He.
    injection He as <-. unfold Alive in *. destruct (N.eqb_spec (State r) 0); simpl.
    + rewrite decide_True, El by done. simpl. f_equal. lia.
    + rewrite decide_False by done. case_bool; simpl; rewrite ?lookup_insert_eq, ?El; simpl; f_equal; [|lia].
      rewrite u64_small by lia. lia.
  - rewrite decide_False by done. destruct (N.ltb_spec (Incarnation (node l)) (Incarnation r)); simpl.
    + rewrite lookup_insert_eq. simpl. f_equal. lia.
    + destruct (N.eqb_spec (Incarnation r) (Incarnation (node l))); simpl.
      * case_bool; simpl; rewrite ?lookup_insert_eq, ?El; simpl; f_equal; lia.
      * rewrite El. simpl. f_equal. lia.
Qed.

(** ** Merging a view *)

Lemma Merge_self m rs now : self (Merge m rs now) = self m.
Proof.
  unfold Merge. revert m. induction rs as [|r rs IH]; intros m; simpl; [done|].
  by rewrite IH, merge_node_self.
Qed.

Lemma roster_merge_wf m rs now :
  members_wf m → Forall (λ r, State r < 256)%N rs → members_wf (Merge m rs now).
Proof.
  unfold Merge. intros Hm Hrs. revert m Hm.
  induction Hrs; intros m Hm; simpl; auto using merge_node_wf.
Qed.

Lemma Merge_rank m rs now id :
  members_wf m → Forall node_ok rs → is_max (claims m id rs) (rank_of (Merge m rs now) id).
Proof.
  unfold Merge. intros Hm Hrs. revert m Hm.
  induction Hrs as [|r rs Hr Hrs IH]; intros m Hm; simpl.
  { unfold claims. destruct (rank_of m id) as [x|]; simpl; [|done]. split; [by left|].
    intros y Hy. apply elem_of_cons in Hy as [->|Hy]; [done|by apply elem_of_nil in Hy]. }
  specialize (IH _ (merge_node_wf now m r Hm (proj1 Hr))).
  unfold claims in *. rewrite merge_node_self, (merge_node_rank now m r id Hm Hr) in IH.
  rewrite filter_cons. case_decide as E; [|done].
  rewrite fmap_cons. destruct (rank_of m id) as [x|]; simpl in *; [|exact IH].
  destruct (rank_of (foldl _ _ _) id) as [y|]; simpl in *; [|done]. destruct IH as [I1 I2].
  split.
  - apply elem_of_cons in I1 as [->|I1]; [|set_solver].
    destruct (N.max_spec x (claim (self m) r)) as [[_ ->]|[_ ->]]; set_solver.
  - intros z Hz. assert (N.max x (claim (self m) r) <= y)%N by (apply I2; set_solver).
    apply elem_of_cons in Hz as [->|Hz]; [lia|].
    apply elem_of_cons in Hz as [->|Hz]; [lia|]. apply I2. set_solver.
Qed.

(** ** Where a merged record comes from *)

(** The records known for [id]: the local one and the received ones. *)
Definition known (m : Members) (id : bytes) (rs : list Node) (n : Node) : Prop :=
  (∃ e, nodes m !! id = Some e ∧ n = node e) ∨ (n ∈ rs ∧ ID n = id).

Lemma merge_node_known now m r id e :
  members_wf m → id ≠ self m → nodes (merge_node now m r) !! id = Some e →
  ∃ n, known m id [r] n ∧ Addr (node e) = Addr n ∧ Incarnation (node e) = Incarnation n.
Proof.
  intros Hm Hne. unfold merge_node, known. destruct (decide (ID r = id)) as [Er|Er].
  - rewrite Er. destruct (nodes m !! id) as [l|] eqn:El; simpl.
    + rewrite bool_decide_eq_false_2 by done.
      assert (∀ n, n = node l ∨ n = r → (∃ e, Some l = Some e ∧ n = node e) ∨ (n ∈ [r] ∧ ID n = id)) as Hk.
      { intros n [->| ->]; [left; by exists l|right; by split; [left|]]. }
      repeat case_match; simpl; rewrite ?lookup_insert_eq, ?El; intros [= <-]; simpl; eauto 10.
    + rewrite lookup_insert_eq. intros [= <-]. exists r. split; [right; by split; [left|]|done].
  - intros He. exists (node e). split; [|done]. left. exists e. split; [|done].
    revert He. repeat case_match; simpl; rewrite ?lookup_insert_ne by done; done.
Qed.

Lemma Merge_known m rs now id e :
  members_wf m → id ≠ self m → Forall (λ r, State r < 256)%N rs →
  nodes (Merge m rs now) !! id = Some e →
  ∃ n, known m id rs n ∧ Addr (node e) = Addr n ∧ Incarnation (node e) = Incarnation n.
Proof.
  unfold Merge. intros Hm Hne Hrs. revert m Hm Hne.
  induction Hrs as [|r rs Hr Hrs IH]; intros m Hm Hne He; simpl in *.
  { exists (node e). split; [left; eauto|done]. }
  apply IH in He as (n & Hn & Ha & Hi); [|by apply merge_node_wf|by rewrite merge_node_self].
  destruct Hn as [(e' & He' & ->)|[Hn Hid]].
  - apply merge_node_known in He' as (n & Hn & Ha' & Hi'); [|done..].
    exists n. split; [|split; congruence]. unfold known in *. set_solver.
  - exists n. split; [|done]. right. set_solver.
Qed.

(** Self's own identity is never taken from the network. *)
Lemma Merge_self_addr m rs now e :
  members_wf m → Forall (λ r, State r < 256)%N rs → nodes m !! self m = Some e →
  ∃ e', nodes (Merge m rs now) !! self m = Some e' ∧ Addr (node e') = Addr (node e).
Proof.
  unfold Merge. intros Hm Hrs. revert m Hm e.
  induction Hrs as [|r rs Hr Hrs IH]; intros m Hm e He; simpl; [eauto|].
  assert (∃ e1, nodes (merge_node now m r) !! self m = Some e1 ∧ Addr (node e1) = Addr (node e))
    as (e1 & He1 & Ha1).
  { unfold merge_node. destruct (decide (ID r = self m)) as [E|E].
    - rewrite E, He, bool_decide_eq_true_2 by done. case_match; simpl; rewrite ?lookup_insert_eq; eauto.
    - repeat case_match; simpl; rewrite ?lookup_insert_ne by done; eauto. }
  rewrite <-(merge_node_self now m r) in He1 |- *.
  destruct (IH _ (merge_node_wf now m r Hm Hr) e1 He1) as (e' & ? & ?). exists e'. split; congruence.
Qed.

(** Records of a node that carry the same incarnation carry the same address: a
    node that changes address restarts with a higher incarnation. *)
Definition consistent (m : Members) (id : bytes) (rs : list Node) : Prop :=
  ∀ n1 n2, known m id rs n1 → known m id rs n2 → Incarnation n1 = Incarnation n2 → Addr n1 = Addr n2.

Lemma rank_inj n1 n2 :
  (State n1 < 256)%N → (State n2 < 256)%N → rank n1 = rank n2 →
  Incarnation n1 = Incarnation n2 ∧ State n1 = State n2.
Proof. unfold rank. intros. lia. Qed.

Definition lookup_node (m : Members) (id : bytes) : option Node := node <$> nodes m !! id.

Lemma Merge_set_node m rs rs' now now' id :
  members_wf m → Forall node_ok rs → (∀ r, r ∈ rs ↔ r ∈ rs') → consistent m id rs →
  lookup_node (Merge m rs now) id = lookup_node (Merge m rs' now') id.
Proof.
  intros Hm Hrs Hset Hcon.
  assert (Forall node_ok rs') as Hrs' by (rewrite Forall_forall in *; naive_solver).
  assert (rank_of (Merge m rs now) id = rank_of (Merge m rs' now') id) as Hrank.
  { eapply is_max_unique; [|by apply Merge_rank..]. intros x. unfold claims. rewrite !elem_of_app.
    f_equiv. rewrite !list_elem_of_fmap. setoid_rewrite list_elem_of_filter.
    split; intros (r & ? & ? & ?); exists r; naive_solver. }
  assert (∀ l, Forall node_ok l → Forall (λ r, State r < 256)%N l) as Hst
    by (intros l H; eapply Forall_impl; [exact H|by intros ? []]).
  pose proof (roster_merge_wf m rs now Hm (Hst _ Hrs)) as W. pose proof (roster_merge_wf m rs' now' Hm (Hst _ Hrs')) as W'.
  unfold lookup_node, rank_of in *. destruct (nodes (Merge m rs now) !! id) as [e|] eqn:E,
    (nodes (Merge m rs' now') !! id) as [e'|] eqn:E'; simpl in *; try done. f_equal. injection Hrank as Hrank.
  apply rank_inj in Hrank as [Hi Hs]; [|exact (mw_states _ W _ _ E)|exact (mw_states _ W' _ _ E')].
  assert (Addr (node e) = Addr (node e')) as Ha.
  { destruct (decide (id = self m)) as [->|Hne].
    - destruct (mw_self _ Hm) as (e0 & He0 & _).
      destruct (Merge_self_addr m rs now e0 Hm (Hst _ Hrs) He0) as (e1 & H1 & ?).
      destruct (Merge_self_addr m rs' now' e0 Hm (Hst _ Hrs') He0) as (e2 & H2 & ?). congruence.
    - apply Merge_known in E as (n & Hn & -> & Hni); [|auto..].
      apply Merge_known in E' as (n' & Hn' & -> & Hni'); [|auto..].
      apply Hcon; [done| |congruence]. unfold known in *. naive_solver. }
  pose proof (mw_keys _ W _ _ E). pose proof (mw_keys _ W' _ _ E').
  destruct (node e), (node e'). simpl in *. congruence.
Qed.

(** ** A roster's life *)

Inductive mop : Type :=
| MBump (now : Z)
| MMerge (remote : list Node) (now : Z)
| MDetect (now timeout : Z).

Definition mop_ok (o : mop) : Prop :=
  match o with MMerge rs _ => Forall (λ r, State r < 256)%N rs | _ => True end.

Inductive mstep (m : Members) : mop → Members → Prop :=
| mstep_bump now m' : Bump m now = Ok m' → mstep m (MBump now) m'
| mstep_merge rs now : mstep m (MMerge rs now) (Merge m rs now)
| mstep_detect now timeout : mstep m (MDetect now timeout) (DetectFailures m now timeout).

Inductive roster (s : Node) (t : Z) : Members → Prop :=
| roster_new : roster s t (NewMembers s t)
| roster_step m o m' : roster s t m → mop_ok o → mstep m o m' → roster s t m'.

Lemma NewMembers_wf s now : members_wf (NewMembers s now).
Proof.
  split; simpl.
  - by intros k e [<- <-]%lookup_singleton_Some.
  - rewrite lookup_singleton_eq. eauto.
  - by intros k e [<- <-]%lookup_singleton_Some.
Qed.

Lemma Bump_wf m now : members_wf m → ∃ m', Bump m now = Ok m' ∧ members_wf m' ∧ self m' = self m.
Proof.
  intros Hm. destruct (mw_self _ Hm) as (e & He & Ha). unfold Bump. rewrite He.
  eexists. split; [reflexivity|]. split; [|done].
  apply put_wf; simpl; [done|by apply (mw_keys _ Hm)|by apply (mw_states _ Hm _ _ He)|done].
Qed.

Lemma DetectFailures_wf m now timeout : members_wf m → members_wf (DetectFailures m now timeout).
Proof.
  intros [H1 (e & He & Ha) H3].
  assert (∀ l, ID (node (detect (self m) now timeout l)) = ID (node l)) as Hid
    by (intros l; unfold detect; repeat case_match; done).
  split; simpl.
  - intros k x (l & <- & Hl)%lookup_fmap_Some. rewrite Hid. by apply H1.
  - rewrite lookup_fmap, He. simpl. eexists. split; [reflexivity|].
    unfold detect. by rewrite bool_decide_eq_true_2 by (by apply H1).
  - intros k x (l & <- & Hl)%lookup_fmap_Some. pose proof (H3 _ _ Hl).
    unfold detect. repeat case_match; done.
Qed.

Lemma roster_wf s t m : roster s t m → members_wf m ∧ self m = ID s.
Proof.
  induction 1 as [|m o m' _ [Hm Hs] Ho Hstep]; [split; [apply NewMembers_wf|done]|].
  destruct Hstep as [now m' Hb|rs now|now timeout]; simpl in *.
  - destruct (Bump_wf m now Hm) as (m1 & Hb' & ? & Hs').
    rewrite Hb in Hb'. injection Hb' as ->. split; [done|congruence].
  - split; [by apply roster_merge_wf|by rewrite Merge_self].
  - split; [by apply DetectFailures_wf|done].
Qed.

(** ** Exchanging views *)

Definition lawful_roster (ord : roster_order) : Prop := ∀ m, range_order m (ord m).

Lemma elem_of_Snapshot ord m n :
  lawful_roster ord → members_wf m → n ∈ Snapshot ord m ↔ lookup_node m (ID n) = Some n.
Proof.
  intros Hord Hm. unfold Snapshot, lookup_node. rewrite list_elem_of_fmap. split.
  - intros ([k e] & -> & Hin). rewrite (Hord (nodes m)), elem_of_map_to_list in Hin.
    simpl. by rewrite (mw_keys _ Hm _ _ Hin), Hin.
  - intros (e & He & ->)%fmap_Some. exists (ID (node e), e).
    by rewrite (Hord (nodes m)), elem_of_map_to_list.
Qed.

(** What a snapshot of [b] contributes to what is known of [id]. *)
Lemma claims_Snapshot ord a b id :
  lawful_roster ord → members_wf b →
  ∀ x, x ∈ claims a id (Snapshot ord b)
    ↔ rank_of a id = Some x ∨ ∃ n, lookup_node b id = Some n ∧ x = claim (self a) n.
Proof.
  intros Hord Hb x. unfold claims. rewrite elem_of_app. f_equiv.
  - destruct (rank_of a id); simpl; [rewrite list_elem_of_singleton; split; congruence|]. by rewrite elem_of_nil.
  - rewrite list_elem_of_fmap. setoid_rewrite list_elem_of_filter.
    setoid_rewrite (elem_of_Snapshot ord b _ Hord Hb). split.
    + intros (n & -> & <- & Hn). eauto.
    + intros (n & Hn & ->). exists n. unfold lookup_node in *. apply fmap_Some in Hn as (e & He & ->).
      by rewrite (mw_keys _ Hb _ _ He), He.
Qed.

Lemma rank_lookup m id : rank_of m id = rank <$> lookup_node m id.
Proof. unfold rank_of, lookup_node. by destruct (nodes m !! id). Qed.

(** Every incarnation of the roster is below [bound]. *)
Definition below (bound : N) (m : Members) : Prop :=
  ∀ id n, lookup_node m id = Some n → (Incarnation n < bound)%N.

Lemma Snapshot_node_ok ord m :
  lawful_roster ord → members_wf m → below (2 ^ 64 - 1) m → Forall node_ok (Snapshot ord m).
Proof.
  intros Hord Hm Hb. apply Forall_forall. intros n Hn.
  apply (elem_of_Snapshot ord) in Hn; [|done..]. split; [|by eapply Hb].
  unfold lookup_node in Hn. apply fmap_Some in Hn as (e & He & ->). by eapply (mw_states _ Hm).
Qed.

Lemma Merge_below ord a b now :
  lawful_roster ord → members_wf a → members_wf b → below (2 ^ 64 - 2) a → below (2 ^ 64 - 2) b →
  below (2 ^ 64 - 1) (Merge a (Snapshot ord b) now).
Proof.
  intros Hord Ha Hb La Lb id n Hn.
  assert (below (2 ^ 64 - 1) b) as Lb' by (intros i x Hx; specialize (Lb i x Hx); lia).
  pose proof (Snapshot_node_ok ord b Hord Hb Lb') as Hok.
  pose proof (Merge_rank a (Snapshot ord b) now id Ha Hok) as Hmax.
  rewrite rank_lookup, Hn in Hmax. simpl in Hmax. destruct Hmax as [Hin _].
  apply (claims_Snapshot ord a b id Hord Hb) in Hin. rewrite rank_lookup in Hin.
  assert (∀ m i x, members_wf m → lookup_node m i = Some x → (State x < 256)%N) as Hst.
  { intros m i x Hm (e & He & ->)%fmap_Some. by eapply (mw_states _ Hm). }
  assert (members_wf (Merge a (Snapshot ord b) now)) as W.
  { apply roster_merge_wf; [done|]. eapply Forall_impl; [exact Hok|by intros ? []]. }
  pose proof (Hst _ _ _ W Hn) as Hs.
  destruct Hin as [(n0 & H0 & E)%fmap_Some|(n0 & H0 & E)].
  - apply rank_inj in E as [-> _]; [|done|by apply (Hst a id)]. specialize (La id n0 H0). lia.
  - specialize (Lb id n0 H0). pose proof (Hst _ _ _ Hb H0) as Hs0. unfold claim, rank in E.
    case_decide; [case_decide|]; lia.
Qed.

(** [b]'s belief about [a] is not ahead of [a]: only [a] raises its own
    incarnation, so this can fail only after [a] restarts with a lower one. *)
Definition not_ahead (b a : Members) : Prop :=
  ∀ n x, lookup_node b (self a) = Some n → State n = Alive → lookup_node a (self a) = Some x →
         (rank n <= rank x)%N.

Lemma exchange_rank orda ordb a b now id :
  lawful_roster orda → lawful_roster ordb → members_wf a → members_wf b →
  below (2 ^ 64 - 2) a → below (2 ^ 64 - 2) b → not_ahead b a → id ≠ self b →
  let a' := Merge a (Snapshot ordb b) now in
  let b' := Merge b (Snapshot orda a') now in
  rank_of b' id = rank_of a' id.
Proof.
  intros Hoa Hob Ha Hb La Lb Hna Hne a' b'.
  assert (below (2 ^ 64 - 1) b) as Lb' by (intros i x Hx; specialize (Lb i x Hx); lia).
  pose proof (Snapshot_node_ok ordb b Hob Hb Lb') as Hokb.
  assert (members_wf a') as Wa.
  { apply roster_merge_wf; [done|]. eapply Forall_impl; [exact Hokb|by intros ? []]. }
  pose proof (Merge_below ordb a b now Hob Ha Hb La Lb) as La'. fold a' in La'.
  pose proof (Merge_rank a (Snapshot ordb b) now id Ha Hokb) as Ma. fold a' in Ma.
  pose proof (Merge_rank b (Snapshot orda a') now id Hb (Snapshot_node_ok orda a' Hoa Wa La')) as Mb.
  fold b' in Mb. eapply (is_max_unique _ _ _ _ (λ x, reflexivity _)); [exact Mb|].
  pose proof (claims_Snapshot orda b a' id Hoa Wa) as Cb.
  pose proof (claims_Snapshot ordb a b id Hob Hb) as Ca.
  rewrite (rank_lookup a') in *. destruct (lookup_node a' id) as [na|] eqn:Ea; simpl in *.
  - assert (claim (self b) na = rank na) as Hcl.
    { unfold claim. rewrite decide_False; [done|]. apply fmap_Some in Ea as (e & He & ->).
      by rewrite (mw_keys _ Wa _ _ He). }
    split; [apply Cb; right; by exists na|]. intros y [Hy|(n & [= <-] & ->)]%Cb; [|by rewrite Hcl].
    rewrite rank_lookup in Hy. apply fmap_Some in Hy as (nb & Hnb & ->). destruct Ma as [_ Ma].
    destruct (decide (id = self a)) as [->|Hna'].
    + destruct (mw_self _ Ha) as (ea & Hea & _). assert (lookup_node a (self a) = Some (node ea)) as Hx
        by (unfold lookup_node; by rewrite Hea).
      specialize (Hna nb (node ea) Hnb). destruct (decide (State nb = Alive)) as [Hal|Hal].
      * etrans; [by apply Hna|]. apply Ma, Ca. left. by rewrite rank_lookup, Hx.
      * etrans; [|apply Ma, Ca; right; exists nb; split; [done|reflexivity]].
        apply fmap_Some in Hnb as (eb & Heb & ->). pose proof (mw_states _ Hb _ _ Heb).
        unfold claim, rank. rewrite decide_True by (by apply (mw_keys _ Hb)).
        rewrite decide_False by done. lia.
    + apply Ma, Ca. right. exists nb. split; [done|]. unfold claim. rewrite decide_False; [done|].
      apply fmap_Some in Hnb as (eb & Heb & ->). by rewrite (mw_keys _ Hb _ _ Heb).
  - apply elem_of_nil_inv. intros y [Hy|(n & ? & _)]%Cb; [|done].
    rewrite rank_lookup in Hy. apply fmap_Some in Hy as (nb & Hnb & ->).
    assert (claim (self a) nb ∈ claims a id (Snapshot ordb b)) as Hin by (apply Ca; eauto).
    rewrite Ma in Hin. by apply elem_of_nil in Hin.
Qed.

(** ** Properties *)

(** In any life of a roster (heartbeats, merges of arbitrary views, failure
    sweeps in any order) self stays in the roster and Alive, whatever peers
    claim, every entry sits under its own ID, and neither [Bump] nor [Self]
    meets a nil entry. *)
Theorem roster_invariant (s : Node) (t : Z) (m : Members) :
  roster s t m →
  self m = ID s ∧ (∀ k e, nodes m !! k = Some e → ID (node e) = k)
  ∧ (∃ n, Self m = Ok n ∧ State n = Alive) ∧ (∀ now, Bump m now ≠ Panic).
Proof.
  intros H. destruct (roster_wf _ _ _ H) as [Hm Hs]. split_and!; [done|apply (mw_keys _ Hm)| |].
  - destruct (mw_self _ Hm) as (e & He & Ha). unfold Self. rewrite He. eauto.
  - intros now. destruct (Bump_wf m now Hm) as (m' & -> & _). done.
Qed.

(** C21: merging is commutative and idempotent, addresses permitting. Two batches of
    the same records, in any order and with any repetition, leave the same record
    for every node, self included, provided that records of one node that carry the
    same incarnation, the roster's own among them, carry the same address (otherwise
    the address depends on the order, [Merge_address_depends_on_order]) and that no
    incarnation is the last [uint64]. *)
Theorem Merge_order_independent (m : Members) (rs rs' : list Node) (now now' : Z) :
  members_wf m → Forall node_ok rs → (∀ r, r ∈ rs ↔ r ∈ rs') → (∀ id, consistent m id rs) →
  ∀ id, lookup_node (Merge m rs now) id = lookup_node (Merge m rs' now') id.
Proof. intros Hm Hrs Hset Hcon id. by apply Merge_set_node. Qed.

(** C22: one exchange brings two views together, and a node outlives the rumour of
    its death. When [a] merges [b]'s view and [b] then merges [a]'s, they agree on
    the incarnation and the state, though not necessarily on the address, of every
    node except [b] itself, and [b] takes [a] for Alive even if it believed it dead.
    Needs that the incarnations leave room for a refutation, and that [b] does not
    know [a] alive under a higher incarnation than [a] has ([not_ahead], which a
    restart of [a] can break). About [b] itself they may differ until the next
    exchange: [b] may just have refuted what [a] still believes. *)
Theorem exchange_converges (orda ordb : roster_order) (a b : Members) (now : Z) :
  lawful_roster orda → lawful_roster ordb → members_wf a → members_wf b →
  below (2 ^ 64 - 2) a → below (2 ^ 64 - 2) b → not_ahead b a → self a ≠ self b →
  let a' := Merge a (Snapshot ordb b) now in
  let b' := Merge b (Snapshot orda a') now in
  (∀ id, id ≠ self b → rank_of b' id = rank_of a' id)
  ∧ ∃ n, lookup_node b' (self a) = Some n ∧ State n = Alive.
Proof.
  intros Hoa Hob Ha Hb La Lb Hna Hne a' b'.
  assert (∀ id, id ≠ self b → rank_of b' id = rank_of a' id) as Hr by (intros; by apply exchange_rank).
  split; [done|]. assert (below (2 ^ 64 - 1) b) as Lb' by (intros i x Hx; specialize (Lb i x Hx); lia).
  assert (∀ m ord, members_wf m → lawful_roster ord → below (2 ^ 64 - 1) m →
    Forall (λ r, State r < 256)%N (Snapshot ord m)) as Hst.
  { intros m ord Hm Ho Hl. eapply Forall_impl; [by apply Snapshot_node_ok|by intros ? []]. }
  assert (members_wf a') as Wa by (apply roster_merge_wf; auto).
  assert (members_wf b') as Wb by 
    (apply roster_merge_wf; [exact Hb|]; exact (Hst a' orda Wa Hoa (Merge_below ordb a b now Hob Ha Hb La Lb))).
  destruct (mw_self _ Wa) as (e & He & Hal). 
  replace (self a') with (self a) in He by (symmetry; apply Merge_self).
  specialize (Hr (self a) Hne). unfold rank_of in Hr. rewrite He in Hr.
  apply fmap_Some in Hr as (e' & He' & E). exists (node e'). unfold lookup_node. rewrite He'.
  split; [done|]. apply rank_inj in E as [_ <-]; [done|exact (mw_states _ Wa _ _ He)|exact (mw_states _ Wb _ _ He')].
Qed.

(** A failure sweep marks Dead exactly the Alive nodes other than self that
    have been silent for longer than the timeout; it changes nothing else, in
    particular no incarnation, so a revived node can refute. *)
Theorem DetectFailures_exact (m : Members) (now timeout : Z) (k : bytes) (e : member) :
  members_wf m → nodes m !! k = Some e →
  ∃ e', nodes (DetectFailures m now timeout) !! k = Some e'
    ∧ ID (node e') = ID (node e) ∧ Addr (node e') = Addr (node e)
    ∧ Incarnation (node e') = Incarnation (node e) ∧ lastSeen e' = lastSeen e
    ∧ State (node e') = (if decide (k ≠ self m ∧ State (node e) = Alive ∧ timeout < now - lastSeen e)%Z
                         then Dead else State (node e)).
Proof.
  intros Hm He. pose proof (mw_keys _ Hm _ _ He) as <-. simpl. rewrite lookup_fmap, He. simpl.
  eexists. split; [reflexivity|]. unfold detect. case_bool_decide as Es.
  - rewrite decide_False by (by intros [? _]). done.
  - destruct (N.eqb_spec (State (node e)) Alive), (Z.ltb_spec timeout (now - lastSeen e)); simpl;
      try (rewrite decide_False by (intros (_ & ? & ?); (done || lia)); done).
    rewrite decide_True by done. done.
Qed.

(** The order of a batch matters for the address when two records of a node
    carry the same incarnation: the first one met stays. *)
Lemma Merge_address_depends_on_order :
  let m := NewMembers (mkNode (str "a") (str "h:1") Alive 1) 0 in
  let r1 := mkNode (str "b") (str "h:2") Alive 7 in
  let r2 := mkNode (str "b") (str "h:3") Alive 7 in
  lookup_node (Merge m [r1; r2] 0) (str "b") ≠ lookup_node (Merge m [r2; r1] 0) (str "b").
Proof. vm_compute. discriminate. Qed.

(** ** Witnesses *)

Definition node_a : Node := mkNode (str "a") (str "h:1") Alive 1.
Definition node_b : Node := mkNode (str "b") (str "h:2") Alive 4.
Definition roster_a : Members := Merge (NewMembers node_a 0) [mkNode (str "b") (str "h:2") Alive 3] 5.
Definition roster_b : Members :=
  DetectFailures (Merge (NewMembers node_b 0) [mkNode (str "a") (str "h:1") Alive 1] 0) 100 50.

Lemma lawful_roster_map_to_list : lawful_roster map_to_list.
Proof. intros m. unfold range_order. reflexivity. Qed.

Lemma roster_a_roster : roster node_a 0 roster_a.
Proof.
  apply (roster_step _ _ (NewMembers node_a 0) (MMerge [mkNode (str "b") (str "h:2") Alive 3] 5)).
  - apply roster_new.
  - repeat constructor.
  - apply mstep_merge.
Qed.

Lemma roster_b_roster : roster node_b 0 roster_b.
Proof.
  eapply (roster_step _ _ (Merge (NewMembers node_b 0) [mkNode (str "a") (str "h:1") Alive 1] 0) (MDetect 100 50)).
  - eapply (roster_step _ _ (NewMembers node_b 0) (MMerge [mkNode (str "a") (str "h:1") Alive 1] 0)).
    + apply roster_new.
    + repeat constructor.
    + apply mstep_merge.
  - exact I.
  - apply mstep_detect.
Qed.

Lemma roster_invariant_witness : ∃ n, Self roster_b = Ok n ∧ State n = Alive.
Proof. apply (roster_invariant node_b 0 roster_b). apply roster_b_roster. Defined.

Lemma Merge_order_independent_witness :
  lookup_node (Merge roster_a [mkNode (str "b") (str "h:9") Dead 8; mkNode (str "c") (str "h:3") Alive 1] 9) (str "b")
      = lookup_node (Merge roster_a [mkNode (str "c") (str "h:3") Alive 1; mkNode (str "b") (str "h:9") Dead 8;
                                     mkNode (str "c") (str "h:3") Alive 1] 9) (str "b").
Proof.
  apply Merge_order_independent.
  - apply (roster_wf node_a 0), roster_a_roster.
  - apply (bool_decide_unpack _). vm_compute. exact I.
  - set_solver.
  - intros id n1 n2 H1 H2 Hi. unfold known in *.
    assert (∀ n, (∃ e, nodes roster_a !! id = Some e ∧ n = node e)
        ∨ n ∈ [mkNode (str "b") (str "h:9") Dead 8; mkNode (str "c") (str "h:3") Alive 1] ∧ ID n = id →
      n ∈ [node_a; mkNode (str "b") (str "h:2") Alive 3; mkNode (str "b") (str "h:9") Dead 8;
           mkNode (str "c") (str "h:3") Alive 1] ∧ ID n = id) as Hk.
    { assert (map_Forall (λ k e, ID (node e) = k ∧
        node e ∈ [node_a; mkNode (str "b") (str "h:2") Alive 3]) (nodes roster_a)) as Hr
        by (apply (bool_decide_unpack _); vm_compute; exact I).
      intros n [(e & He & ->)|[Hn Hid]]; [|split; [set_solver|done]].
      destruct (Hr id e He) as [Hid Hin]. split; [set_solver|done]. }
    apply Hk in H1 as [H1 <-], H2 as [H2 Hid]. clear Hk.
    repeat (apply elem_of_cons in H1 as [->|H1]; [
      repeat (apply elem_of_cons in H2 as [->|H2]; [first [done|discriminate]|]); by apply elem_of_nil in H2|]).
    by apply elem_of_nil in H1.
Defined.

Lemma exchange_converges_witness :
  ∃ n, lookup_node (Merge roster_b (Snapshot map_to_list
         (Merge roster_a (Snapshot map_to_list roster_b) 200)) 200) (str "a") = Some n ∧ State n = Alive.
Proof.
  assert (∀ m, bool_decide (map_Forall (λ _ e, (Incarnation (node e) < 2 ^ 64 - 2)%N) (nodes m)) = true →
    below (2 ^ 64 - 2) m) as Hb.
  { intros m Hm%bool_decide_eq_true id n (e & He & ->)%fmap_Some. exact (Hm id e He). }
  apply (exchange_converges map_to_list map_to_list roster_a roster_b 200).
  - apply lawful_roster_map_to_list.
  - apply lawful_roster_map_to_list.
  - apply (roster_wf node_a 0), roster_a_roster.
  - apply (roster_wf node_b 0), roster_b_roster.
  - apply Hb. vm_compute. reflexivity.
  - apply Hb. vm_compute. reflexivity.
  - intros n x Hn Hal Hx. vm_compute in Hn. injection Hn as <-. discriminate.
  - vm_compute. discriminate.
Defined.

Lemma DetectFailures_exact_witness :
  ∃ e', nodes (DetectFailures roster_a 100 50) !! str "b" = Some e' ∧ State (node e') = Dead.
Proof.
  destruct (DetectFailures_exact roster_a 100 50 (str "b") (mkMember (mkNode (str "b") (str "h:2") Alive 3) 5))
    as (e' & He & _ & _ & _ & _ & Hs).
  - apply (roster_wf node_a 0), roster_a_roster.
  - vm_compute. reflexivity.
  - exists e'. split; [exact He|]. rewrite Hs. vm_compute. reflexivity.
Defined.
