(* ===== verification/Gossip.v ===== *)
(** * Gossip (internal/cluster/gossip.go)

    The packet codec, the receive loop's step and one gossip round.  The UDP
    socket is outside the model: a round returns the datagrams it sends, and a
    received datagram is an argument.  [net.ResolveUDPAddr] and the permutation
    [rand.Shuffle] draws are arguments too. *)

From S2P Require Import Prelude Binenc Membership.

(** ** The wire format *)

Inductive gossipErr : Type :=
| ErrTooManyNodes (n : Z)
| ErrBin (e : binerr).

(** The writes of one node, in [marshal]'s field order. *)
Definition marshal_node (buf : bytes) (n : Node) : gres gossipErr bytes :=
  let buf := buf ++ [byte_of_N (State n)] in
  let buf := PutUint64 buf (Incarnation n) in
  match PutString buf (ID n) with
  | (_, Some e) => Err (ErrBin e)
  | (buf, None) =>
      match PutString buf (Addr n) with
      | (_, Some e) => Err (ErrBin e)
      | (buf, None) => Ok buf
      end
  end.

Fixpoint marshal_nodes (buf : bytes) (nodes : list Node) : gres gossipErr bytes :=
  match nodes with
  | [] => Ok buf
  | n :: nodes => do buf <- marshal_node buf n; marshal_nodes buf nodes
  end.

Definition marshal (nodes : list Node) : gres gossipErr bytes :=
  if (Z.of_N MaxUint16 <? len nodes)%Z then Err (ErrTooManyNodes (len nodes))
  else marshal_nodes (PutUint16 [] (u16 (N.of_nat (length nodes)))) nodes.

(** [state := NodeState(data[cursor])] after its guard. *)
Definition state_at (data : bytes) (cursor : Z) : gres binerr (N * Z) :=
  if (len data - cursor <? 1)%Z then Err ErrMalformed
  else do s <- slice_from data cursor;
  match s with [] => Panic | b :: _ => Ok (Byte.to_N b, cursor + 1)%Z end.

(** The body of [unmarshal]'s loop. *)
Definition unmarshal_node (data : bytes) (cursor : Z) : gres binerr (Node * Z) :=
  do (state, cursor) <- state_at data cursor;
  do (incarnation, cursor) <- Uint64 data cursor;
  do (id, cursor) <- String data cursor;
  do (addr, cursor) <- String data cursor;
  Ok (mkNode id addr state incarnation, cursor).

Definition unmarshal (data : bytes) : gres binerr (list Node) :=
  do (count, cursor) <- Uint16 data 0;
  do (nodes, _) <- read_list unmarshal_node count data cursor;
  Ok nodes.

(** ** The engine *)

Record Gossiper : Type := mkGossiper {
  members : Members;
  seeds : list bytes;
  gossipInterval : Z;
  failTimeout : Z;
  fanout : Z
}.

Definition second : Z := 1000000000.

Definition GossiperOption : Type := Gossiper → Gossiper.

Definition WithSeeds (s : list bytes) : GossiperOption := λ g,
  mkGossiper (members g) s (gossipInterval g) (failTimeout g) (fanout g).
Definition WithGossipInterval (d : Z) : GossiperOption := λ g,
  mkGossiper (members g) (seeds g) d (failTimeout g) (fanout g).
Definition WithFailTimeout (d : Z) : GossiperOption := λ g,
  mkGossiper (members g) (seeds g) (gossipInterval g) d (fanout g).
Definition WithFanout (i : Z) : GossiperOption := λ g,
  mkGossiper (members g) (seeds g) (gossipInterval g) (failTimeout g) i.

Definition NewGossiper (m : Members) (opts : list GossiperOption) : Gossiper :=
  foldl (λ g opt, opt g) (mkGossiper m [] (1 * second) (5 * second) 3) opts.

Definition with_members (g : Gossiper) (m : Members) : Gossiper :=
  mkGossiper m (seeds g) (gossipInterval g) (failTimeout g) (fanout g).

(** One iteration of [receiveLoop] on a datagram; [Panic] if [unmarshal] panics. *)
Definition receive (g : Gossiper) (packet : bytes) (now : Z) : gres False Gossiper :=
  match unmarshal packet with
  | Ok nodes => Ok (with_members g (Merge (members g) nodes now))
  | Err _ => Ok g
  | Panic => Panic
  end.

(** [shuffled] is [addrs] after [rand.Shuffle]; [shuffled[:k]] panics when [k]
    is negative. *)
Definition pickPeers (shuffle : list bytes → list bytes) (addrs : list bytes) (k : Z) :
    gres False (list bytes) :=
  let shuffled := shuffle addrs in
  let k := if (len shuffled <? k)%Z then len shuffled else k in
  if (k <? 0)%Z then Panic else Ok (take (Z.to_nat k) shuffled).

(** [addCandidate]: the addresses seen so far are the candidates. *)
Definition addCandidate (candidates : list bytes) (addr : bytes) : list bytes :=
  if bool_decide (addr ∈ candidates) then candidates else candidates ++ [addr].

Definition round_candidates (g : Gossiper) (self_id : bytes) (alive : list Node) : list bytes :=
  let peers := foldl (λ cs n, if bool_decide (ID n = self_id) then cs else addCandidate cs (Addr n))
                 [] alive in
  foldl addCandidate peers (seeds g).

(** The last part of a round: the datagrams sent, each a destination and a
    payload. *)
Definition send_round {D : Type} (ord' : roster_order) (shuffle : list bytes → list bytes)
    (resolve : bytes → option D) (m : Members) (candidates : list bytes) (fanout : Z) :
    gres False (list (D * bytes)) :=
  match marshal (Snapshot ord' m) with
  | Err _ => Ok []
  | Panic => Panic
  | Ok payload =>
      match pickPeers shuffle candidates fanout with
      | Ok peers => Ok ((λ dst, (dst, payload)) <$> omap resolve peers)
      | Err e => Err e
      | Panic => Panic
      end
  end.

(** One gossip round: the engine after it and the datagrams sent. *)
Definition round {D : Type} (ord ord' : roster_order) (shuffle : list bytes → list bytes)
    (resolve : bytes → option D) (g : Gossiper) (now : Z) :
    gres False (Gossiper * list (D * bytes)) :=
  match Bump (members g) now with
  | Ok m1 =>
      let m := DetectFailures m1 now (failTimeout g) in
      match Self m with
      | Ok s =>
          let candidates := round_candidates g (ID s) (AliveNodes ord m) in
          do sent <- send_round ord' shuffle resolve m candidates (fanout g);
          Ok (with_members g m, sent)
      | _ => Panic
      end
  | _ => Panic
  end.

(** ** The codec *)

(** A node whose fields fit the wire. *)
Record node_wf (n : Node) : Prop := {
  nw_state : (State n < 256)%N;
  nw_incarnation : (Incarnation n < 2 ^ 64)%N;
  nw_id : (len (ID n) < 2 ^ 16)%Z;
  nw_addr : (len (Addr n) < 2 ^ 16)%Z
}.

Definition enc_node (n : Node) : bytes :=
  [byte_of_N (State n)] ++ be 8 (Incarnation n) ++ enc_string (ID n) ++ enc_string (Addr n).

Lemma marshal_node_eq buf n : node_wf n → marshal_node buf n = Ok (buf ++ enc_node n).
Proof.
  intros [_ _ H1 H2]. unfold marshal_node, PutUint64, enc_node.
  rewrite !PutString_ok by done. by rewrite <-!app_assoc.
Qed.

Lemma marshal_nodes_eq buf ns :
  Forall node_wf ns → marshal_nodes buf ns = Ok (buf ++ concat (enc_node <$> ns)).
Proof.
  intros H. revert buf. induction H as [|n ns Hn _ IH]; intros buf; simpl; [by rewrite app_nil_r|].
  rewrite marshal_node_eq by done. simpl. by rewrite IH, <-app_assoc.
Qed.

Lemma marshal_eq ns :
  Forall node_wf ns → (len ns < 2 ^ 16)%Z →
  marshal ns = Ok (be 2 (N.of_nat (length ns)) ++ concat (enc_node <$> ns)).
Proof.
  intros Hns Hl. unfold marshal, PutUint16, len in *. case_bool; [unfold MaxUint16 in *; lia|].
  rewrite u16_small by lia. by rewrite marshal_nodes_eq.
Qed.

Lemma marshal_no_panic ns : marshal ns ≠ Panic.
Proof.
  unfold marshal. case_bool; [done|]. generalize (PutUint16 [] (u16 (N.of_nat (length ns)))).
  induction ns as [|n ns IH]; intros buf; simpl; [done|].
  unfold marshal_node. destruct (PutString _ (ID n)) as [? []]; [done|].
  destruct (PutString _ (Addr n)) as [? []]; [done|]. apply IH. rewrite len_cons in *. lia.
Qed.

Lemma state_at_eq data off : (0 <= off)%Z → state_at data off = uint_at 1 data off.
Proof.
  intros Ho. unfold state_at, uint_at. change (Z.of_nat 1) with 1%Z. case_bool; [done|].
  destruct (slice_from data off) as [s| |] eqn:E; simpl; [|done..].
  apply slice_from_ok, at_cursor_len in E. destruct s as [|b s]; [autorewrite with kyria in E; lia|].
  simpl. by rewrite unbe_cons, N.mul_1_r, N.add_0_r.
Qed.

Lemma state_at_reads v : (v < 256)%N → reads state_at v [byte_of_N v].
Proof.
  intros Hv. assert (be 1 v = [byte_of_N v]) as <- by (rewrite be_S, N.div_1_r; done).
  destruct (uint_at_reads 1 v Hv) as [H1 H2].
  split; intros data off rest Hc; (rewrite state_at_eq by (destruct Hc; lia)); eauto.
Qed.

#[export] Instance state_at_reader : Reader state_at.
Proof. intros data off Ho. rewrite state_at_eq by done. by apply uint_at_reader. Qed.

Lemma unmarshal_node_reads n : node_wf n → reads unmarshal_node n (enc_node n).
Proof.
  destruct n as [id addr st inc]. intros [H1 H2 H3 H4]. simpl in *. unfold unmarshal_node, enc_node. simpl ID; simpl Addr; simpl State; simpl Incarnation.
  eapply (reads_bind state_at); [by apply state_at_reads|]. cbv beta.
  eapply (reads_bind Uint64); [by apply Uint64_reads|]. cbv beta.
  eapply (reads_bind String); [by apply String_reads|]. cbv beta.
  by apply (reads_map (λ a, mkNode id a st inc)), String_reads.
Qed.

#[export] Instance unmarshal_node_reader : Reader unmarshal_node.
Proof.
  unfold unmarshal_node.
  apply (reader_bind state_at (λ st b cursor, _)); [apply _|]. intros st.
  apply (reader_bind Uint64 (λ inc b cursor, _)); [apply _|]. intros inc.
  apply (reader_bind String (λ id b cursor, _)); [apply _|]. intros id.
  apply (reader_bind String (λ addr b cursor, _)); [apply _|]. intros addr. apply reader_ret.
Qed.

(** The whole packet as a reader. *)
Definition unmarshal_at (data : bytes) (off : Z) : gres binerr (list Node * Z) :=
  do (count, off) <- Uint16 data off; read_list unmarshal_node count data off.

Lemma unmarshal_eq data : unmarshal data = do (ns, _) <- unmarshal_at data 0; Ok ns.
Proof. unfold unmarshal, unmarshal_at. by destruct (Uint16 data 0) as [[k o]| |]. Qed.

#[export] Instance unmarshal_at_reader : Reader unmarshal_at.
Proof. apply (reader_bind Uint16 (λ count b off, read_list unmarshal_node count b off)); apply _. Qed.

Lemma unmarshal_at_reads ns :
  Forall node_wf ns → (len ns < 2 ^ 16)%Z →
  reads unmarshal_at ns (be 2 (N.of_nat (length ns)) ++ concat (enc_node <$> ns)).
Proof.
  intros Hns Hl. unfold len in Hl.
  apply (reads_bind Uint16 (N.of_nat (length ns)) _ (λ count b off, read_list unmarshal_node count b off)).
  - apply Uint16_reads. lia.
  - apply read_list_reads; [|done]. apply Forall2_fmap_r, Forall_Forall2_diag.
    eapply Forall_impl; [exact Hns|]. apply unmarshal_node_reads.
Qed.

(** What was decoded came from bytes, so every state is a byte. *)
Lemma unmarshal_states data ns : unmarshal data = Ok ns → Forall (λ n, State n < 256)%N ns.
Proof.
  rewrite unmarshal_eq. unfold unmarshal_at. destruct (Uint16 data 0) as [[k o]| |]; simpl; [|done..].
  destruct (read_list unmarshal_node k data o) as [[l o']| |] eqn:E; simpl; [|done..]. intros [= <-].
  unfold read_list in E. change l with (l, o').1.
  refine (for_range_inv (λ s, Forall (λ n, State n < 256)%N s.1) k _ ([], o) (l, o') _ _ E); [|by constructor].
  intros [acc c] s' Hs Hb. simpl in *.
  destruct (unmarshal_node data c) as [[n c']| |] eqn:En; simp_res.
  apply Forall_app. split; [done|]. constructor; [|done].
  unfold unmarshal_node in En. destruct (state_at data c) as [[st c1]| |] eqn:Es; simp_res.
  destruct (Uint64 data c1) as [[inc c2]| |]; simp_res.
  destruct (String data c2) as [[id c3]| |]; simp_res.
  destruct (String data c3) as [[addr c4]| |]; simp_res. unfold state_at in Es. case_bool; [done|].
  destruct (slice_from data c) as [[|b s]| |]; simp_res. apply byte_to_N_lt.
Qed.

Lemma unmarshal_no_panic data : unmarshal data ≠ Panic ∧ ∀ e, unmarshal data = Err e → e = ErrMalformed.
Proof.
  rewrite unmarshal_eq. pose proof (reader_safe (dec := unmarshal_at) data 0 ltac:(lia)) as H.
  destruct (unmarshal_at data 0) as [[ns o]|e|]; simpl; [done| |done]. split; [done|]. by intros ? [= <-].
Qed.

(** ** Rounds *)

Lemma elem_of_addCandidate cs a x : x ∈ addCandidate cs a ↔ x ∈ cs ∨ x = a.
Proof. unfold addCandidate. case_bool_decide; set_solver. Qed.

Lemma NoDup_addCandidate cs a : NoDup cs → NoDup (addCandidate cs a).
Proof.
  intros H. unfold addCandidate. case_bool_decide; [done|].
  apply NoDup_app. split_and!; [done|set_solver|apply NoDup_singleton].
Qed.

Lemma seeds_candidates cs l :
  NoDup cs → NoDup (foldl addCandidate cs l) ∧ ∀ x, x ∈ foldl addCandidate cs l ↔ x ∈ cs ∨ x ∈ l.
Proof.
  revert cs. induction l as [|a l IH]; intros cs H; simpl; [set_solver|].
  destruct (IH (addCandidate cs a) (NoDup_addCandidate cs a H)) as [H1 H2].
  split; [done|]. intros x. rewrite H2, elem_of_addCandidate. set_solver.
Qed.

Lemma peers_candidates self_id cs (l : list Node) :
  NoDup cs →
  let f := λ cs n, if bool_decide (ID n = self_id) then cs else addCandidate cs (Addr n) in
  NoDup (foldl f cs l) ∧
  ∀ x, x ∈ foldl f cs l ↔ x ∈ cs ∨ ∃ n, n ∈ l ∧ ID n ≠ self_id ∧ x = Addr n.
Proof.
  intros H f. revert cs H. induction l as [|n l IH]; intros cs H; simpl.
  { split; [done|]. intros x. set_solver. }
  destruct (IH (f cs n)) as [H1 H2].
  { unfold f. case_bool_decide; auto using NoDup_addCandidate. }
  split; [done|]. intros x. rewrite H2. unfold f. case_bool_decide as E.
  - setoid_rewrite elem_of_cons. split; [intros [?|(n' & ? & ? & ?)]; eauto 10|].
    intros [?|(n' & [->|?] & ? & ?)]; [by left|done|]. eauto 10.
  - rewrite elem_of_addCandidate. setoid_rewrite elem_of_cons. split.
    + intros [[?| ->]|(n' & ? & ? & ?)]; eauto 10.
    + intros [?|(n' & [->|?] & ? & ?)]; eauto 10.
Qed.

Lemma round_candidates_spec g sid alive :
  NoDup (round_candidates g sid alive) ∧
  ∀ x, x ∈ round_candidates g sid alive ↔
    (∃ n, n ∈ alive ∧ ID n ≠ sid ∧ x = Addr n) ∨ x ∈ seeds g.
Proof.
  destruct (peers_candidates sid [] alive (NoDup_nil_2)) as [H1 H2]. unfold round_candidates.
  destruct (seeds_candidates _ (seeds g) H1) as [H3 H4]. split; [done|].
  intros x. rewrite H4, H2, elem_of_nil. naive_solver.
Qed.

Lemma receive_spec g packet now :
  members_wf (members g) →
  ∃ g', receive g packet now = Ok g' ∧ members_wf (members g')
    ∧ (∀ ns, unmarshal packet = Ok ns → members g' = Merge (members g) ns now)
    ∧ (∀ e, unmarshal packet = Err e → g' = g).
Proof.
  intros Hg. destruct (unmarshal_no_panic packet) as [Hp _]. unfold receive.
  destruct (unmarshal packet) as [ns|e|] eqn:E; [| |done].
  - exists (with_members g (Merge (members g) ns now)).
    split_and!; [done|by apply roster_merge_wf, (unmarshal_states packet)|by intros ? [= <-]|done].
  - exists g. by split_and!.
Qed.

Lemma pickPeers_spec shuffle addrs k :
  (∀ l, shuffle l ≡ₚ l) → (0 <= k)%Z →
  ∃ peers, pickPeers shuffle addrs k = Ok peers ∧ peers = take (Z.to_nat k) (shuffle addrs)
    ∧ (len peers <= k)%Z ∧ peers ⊆ addrs.
Proof.
  intros Hsh Hk. unfold pickPeers. pose proof (len_nonneg (shuffle addrs)).
  assert (take (Z.to_nat (if (len (shuffle addrs) <? k)%Z then len (shuffle addrs) else k)) (shuffle addrs)
    = take (Z.to_nat k) (shuffle addrs)) as ->.
  { case_bool; [|done]. unfold len in *. rewrite !take_ge by lia. done. }
  destruct (Z.ltb_spec (if (len (shuffle addrs) <? k)%Z then len (shuffle addrs) else k) 0) as [Hn|_].
  { case_bool; lia. }
  eexists. split; [reflexivity|]. split_and!; [done| |].
  - unfold len. rewrite length_take. lia.
  - intros x Hx. rewrite <-(Hsh addrs). by eapply subseteq_take.
Qed.

(** ** Properties *)

(** C23: a gossip packet carries a view faithfully and nothing else harms.  A view
    whose fields fit the wire is marshalled; the packet, even followed by other
    bytes, is decoded to exactly that view, and cut short anywhere it is
    reported malformed.  Any datagram whatever leaves a well-formed roster:
    either what it decodes to is merged, or nothing changes. *)
Theorem gossip_packet (ns : list Node) (g : Gossiper) (now : Z) :
  Forall node_wf ns → (len ns < 2 ^ 16)%Z → members_wf (members g) →
  (∃ packet, marshal ns = Ok packet
    ∧ (∀ junk, unmarshal (packet ++ junk) = Ok ns)
    ∧ (∀ p, strict_prefix p packet → unmarshal p = Err ErrMalformed))
  ∧ ∀ packet, ∃ g', receive g packet now = Ok g' ∧ members_wf (members g')
    ∧ (∀ ns, unmarshal packet = Ok ns → members g' = Merge (members g) ns now)
    ∧ (∀ e, unmarshal packet = Err e → g' = g).
Proof.
  intros Hns Hl Hg. split; [|intros packet; by apply receive_spec].
  destruct (unmarshal_at_reads ns Hns Hl) as [H1 H2].
  eexists. split; [by apply marshal_eq|]. split.
  - intros junk. rewrite unmarshal_eq, (H1 _ 0%Z junk (at_cursor_start _)). done.
  - intros p Hp. by rewrite unmarshal_eq, (H2 p 0%Z p (at_cursor_start p) Hp).
Qed.

(** A gossip round on a well-formed roster never panics.  It heartbeats and
    sweeps, then sends one and the same snapshot to at most [fanout] distinct
    addresses (those that resolve), each the address of an alive peer other than
    self or a seed; when the snapshot does not fit the wire it sends nothing. *)
Theorem round_spec {D : Type} (ord ord' : roster_order) (shuffle : list bytes → list bytes)
    (resolve : bytes → option D) (g : Gossiper) (now : Z) :
  members_wf (members g) → (0 <= fanout g)%Z → (∀ l, shuffle l ≡ₚ l) →
  ∃ m1 m sent peers, Bump (members g) now = Ok m1 ∧ m = DetectFailures m1 now (failTimeout g)
    ∧ round ord ord' shuffle resolve g now = Ok (with_members g m, sent)
    ∧ members_wf m ∧ (len peers <= fanout g)%Z ∧ NoDup peers
    ∧ (∀ a, a ∈ peers →
         (∃ n, n ∈ AliveNodes ord m ∧ ID n ≠ self m ∧ a = Addr n) ∨ a ∈ seeds g)
    ∧ match marshal (Snapshot ord' m) with
      | Ok payload => sent = (λ dst, (dst, payload)) <$> omap resolve peers
      | _ => sent = []
      end.
Proof.
  intros Hg Hf Hsh. destruct (Bump_wf (members g) now Hg) as (m1 & HB & Hm1 & Hs1).
  set (m := DetectFailures m1 now (failTimeout g)).
  assert (members_wf m) as Hm by (by apply DetectFailures_wf).
  unfold round. rewrite HB. fold m. destruct (mw_self _ Hm) as (e & He & _).
  unfold Self. rewrite He. pose proof (mw_keys _ Hm _ _ He) as Hid. rewrite Hid.
  destruct (round_candidates_spec g (self m) (AliveNodes ord m)) as [Hnd Hin].
  unfold send_round. destruct (pickPeers_spec shuffle (round_candidates g (self m) (AliveNodes ord m))
    (fanout g) Hsh Hf) as (peers & -> & Hpe & Hlen & Hsub).
  assert (NoDup peers) as Hndp.
  { subst peers. eapply sublist_NoDup; [|apply sublist_take]. by rewrite Hsh. }
  pose proof (marshal_no_panic (Snapshot ord' m)) as Hnp.
  destruct (marshal (Snapshot ord' m)) as [payload|err|] eqn:Em; [| |done]; simpl;
    (exists m1, m; eexists; exists peers; split_and!; try done; [|by rewrite Em]);
    intros a Ha; apply Hin, Hsub, Ha.
Qed.

(** ** Witnesses *)

Definition gossip_a : Gossiper := NewGossiper roster_a [WithSeeds [str "h:2"; str "h:7"]; WithFanout 2].

Lemma gossip_packet_witness :
  ∃ packet, marshal [node_a; node_b] = Ok packet ∧ unmarshal (packet ++ str "xyz") = Ok [node_a; node_b].
Proof.
  destruct (gossip_packet [node_a; node_b] gossip_a 7) as [(packet & Hm & Hu & _) _].
  - repeat constructor; vm_compute; reflexivity.
  - vm_compute. reflexivity.
  - apply (roster_wf node_a 0), roster_a_roster.
  - exists packet. split; [exact Hm|]. exact (Hu (str "xyz")).
Defined.

Lemma round_spec_witness :
  ∃ g' sent, round map_to_list map_to_list reverse Some gossip_a 20 = Ok (g', sent) ∧ members_wf (members g').
Proof.
  destruct (round_spec map_to_list map_to_list reverse Some gossip_a 20)
    as (m1 & m & sent & peers & _ & _ & E & W & _).
  - apply (roster_wf node_a 0), roster_a_roster.
  - vm_compute. discriminate.
  - intros l. apply reverse_Permutation.
  - exists (with_members gossip_a m), sent. split; [exact E|exact W].
Defined.
