(* ===== verification/Ring.v ===== *)
(** * The consistent-hash ring (internal/cluster/ring.go)

    The ring is a list of points ordered by hash.  [slices.SortFunc] is an
    unstable sort: the argument [sort] is any function that returns an ordered
    permutation of its input ([sorts]), so nothing here depends on how ties are
    broken.  [sort.Search] is modelled as the binary search it is. *)

From S2P Require Import Prelude.

(** ** Data *)

Record point : Type := mkPoint { hash : N; node : bytes }.

#[global] Instance point_eq_dec : EqDecision point.
Proof. solve_decision. Defined.

Record Ring : Type := mkRing { replicas : Z; points : list point }.

(** ** Hashing *)

Definition fnv1aOffset : N := 14695981039346656037.
Definition fnv1aPrime : N := 1099511628211.

(** FNV-1a: XOR in a byte, multiply by the prime modulo 2^64. *)
Definition hashStr (s : bytes) : N :=
  foldl (λ h b, u64 (N.lxor h (Byte.to_N b) * fnv1aPrime)) fnv1aOffset s.

(** ** Operations *)

Definition NewRing (replicas : Z) : Ring := mkRing replicas [].

(** The virtual points of [n]. *)
Definition vpoints (replicas : Z) (n : bytes) : list point :=
  (λ i, mkPoint (hashStr (n ++ str "#" ++ Itoa (Z.of_nat i))) n) <$> seq 0 (Z.to_nat replicas).

Definition Add (r : Ring) (n : bytes) : Ring :=
  mkRing (replicas r) (points r ++ vpoints (replicas r) n).

Definition Sort (sort : list point → list point) (r : Ring) : Ring :=
  mkRing (replicas r) (sort (points r)).

Definition Remove (r : Ring) (n : bytes) : Ring :=
  mkRing (replicas r) (filter (λ p, node p ≠ n) (points r)).

(** [sort.Search(n, f)]: [fuel] bounds the iterations; the interval shrinks at
    every one, so [n] is enough (lemma [search_spec]). *)
Fixpoint search_loop (fuel : nat) (f : nat → bool) (i j : nat) : nat :=
  match fuel with
  | O => i
  | S fuel =>
      if (i <? j)%nat then
        let h := ((i + j) / 2)%nat in
        if f h then search_loop fuel f i h else search_loop fuel f (h + 1) j
      else i
  end.

Definition search (n : nat) (f : nat → bool) : nat := search_loop n f 0 n.

Definition point_at (l : list point) (i : nat) : point := default (mkPoint 0 []) (l !! i).

Definition findIndex (r : Ring) (h : N) : nat :=
  let idx := search (length (points r)) (λ i, (h <=? hash (point_at (points r) i))%N) in
  if (idx =? length (points r))%nat then 0%nat else idx.

Definition Get (r : Ring) (key : bytes) : option bytes :=
  if (length (points r) =? 0)%nat then None
  else Some (node (point_at (points r) (findIndex r (hashStr key)))).

(** The walk of [GetN] over the remaining indices. *)
Fixpoint getn_loop (l : list point) (idx : nat) (n : Z) (todo : list nat) (nodes : list bytes) :
    list bytes :=
  match todo with
  | [] => nodes
  | i :: todo =>
      let p := point_at l ((idx + i) mod length l) in
      let nodes := if bool_decide (node p ∈ nodes) then nodes else nodes ++ [node p] in
      if (len nodes =? n)%Z then nodes else getn_loop l idx n todo nodes
  end.

Definition GetN (r : Ring) (key : bytes) (n : Z) : list bytes :=
  if (length (points r) =? 0)%nat || (n <=? 0)%Z then []
  else getn_loop (points r) (findIndex r (hashStr key)) n (seq 0 (length (points r))) [].

(** ** Specification *)

Definition hash_le (p q : point) : Prop := (hash p <= hash q)%N.

#[global] Instance hash_le_dec : RelDecision hash_le.
Proof. intros p q. unfold hash_le. apply _. Defined.

#[global] Instance hash_le_trans : Transitive hash_le.
Proof. intros p q r. unfold hash_le. lia. Qed.

#[global] Instance hash_le_total : Total hash_le.
Proof. intros p q. unfold hash_le. lia. Qed.

(** What [slices.SortFunc] promises. *)
Definition sorts (sort : list point → list point) : Prop :=
  ∀ l, StronglySorted hash_le (sort l) ∧ sort l ≡ₚ l.

Definition ring_sorted (r : Ring) : Prop := StronglySorted hash_le (points r).

(** The points clockwise from [h]: those at or after it, then the others. *)
Definition clockwise (h : N) (l : list point) : list point :=
  filter (λ p, h <= hash p)%N l ++ filter (λ p, hash p < h)%N l.

(** The distinct elements in order of first occurrence. *)
Definition uniq_step (acc : list bytes) (x : bytes) : list bytes :=
  if bool_decide (x ∈ acc) then acc else acc ++ [x].
Definition uniq (l : list bytes) : list bytes := foldl uniq_step [] l.

(** The nodes of the ring in the order a key prefers them. *)
Definition preference (r : Ring) (key : bytes) : list bytes :=
  uniq (node <$> clockwise (hashStr key) (points r)).

(** ** Binary search *)

Lemma search_loop_spec f fuel i j :
  (j - i <= fuel)%nat → (i <= j)%nat → (∀ a b, a <= b → b < j → f a = true → f b = true)%nat →
  (∀ a, a < i → f a = false)%nat →
  (i <= search_loop fuel f i j <= j)%nat
  ∧ (∀ a, a < search_loop fuel f i j → f a = false)%nat
  ∧ (∀ a, search_loop fuel f i j <= a → a < j → f a = true)%nat.
Proof.
  revert i j. induction fuel as [|fuel IH]; intros i j Hf Hij Hmono Hlow; cbn [search_loop].
  { split; [lia|]. split; [done|]. intros a ? ?. exfalso. lia. }
  destruct (Nat.ltb_spec i j) as [Hlt|Hge]; [|split; [lia|]; split; [done|]; intros a ? ?; exfalso; lia].
  pose proof (Nat.div_mod_eq (i + j) 2). pose proof (Nat.mod_upper_bound (i + j) 2 ltac:(lia)).
  cbv zeta. set (h := ((i + j) / 2)%nat) in *. destruct (f h) eqn:Eh.
  - destruct (IH i h) as (H1 & H2 & H3); [lia..| |done|].
    { intros a b Hab Hb. apply Hmono; lia. }
    split; [lia|]. split; [done|]. intros a Ha Haj. destruct (decide (a < h)%nat); [by apply H3|].
    apply (Hmono h); [lia..|done].
  - destruct (IH (h + 1)%nat j) as (H1 & H2 & H3); [lia..|done| |].
    { intros a Ha. destruct (f a) eqn:Ea; [|done]. rewrite (Hmono a h) in Eh; [done|lia..|done]. }
    split; [lia|]. split; [done|]. intros a Ha Haj. apply H3; lia.
Qed.

Lemma search_spec n f :
  (∀ a b, a <= b → b < n → f a = true → f b = true)%nat →
  let k := search n f in
  (k <= n)%nat ∧ (∀ a, a < k → f a = false)%nat ∧ (∀ a, k <= a → a < n → f a = true)%nat.
Proof.
  intros Hmono. destruct (search_loop_spec f n 0 n) as (H1 & H2 & H3); [lia..|done|lia|].
  cbv zeta. unfold search. split; [lia|]. done.
Qed.

(** ** The key's position *)

Lemma sorted_lookup l i j p q :
  StronglySorted hash_le l → (i <= j)%nat → l !! i = Some p → l !! j = Some q → hash_le p q.
Proof.
  intros Hs Hij Hp Hq. destruct (decide (i = j)) as [->|Hne].
  { assert (p = q) as -> by congruence. unfold hash_le. lia. }
  revert i j Hij Hp Hq Hne. induction Hs as [|x l Hs IH Hx]; intros i j Hij Hp Hq Hne; [done|].
  destruct i as [|i], j as [|j]; simpl in *; [done| |lia|].
  - injection Hp as <-. eapply (Forall_lookup_1 (hash_le x)); [exact Hx|exact Hq].
  - apply (IH i j); [lia|done..|lia].
Qed.

(** The predicate [findIndex] searches with is monotone. *)
Lemma at_or_after_mono l h a b :
  StronglySorted hash_le l → (a <= b)%nat → (b < length l)%nat →
  (h <=? hash (point_at l a))%N = true → (h <=? hash (point_at l b))%N = true.
Proof.
  intros Hs Hab Hb Ha%N.leb_le. apply N.leb_le. etrans; [exact Ha|].
  destruct (lookup_lt_is_Some_2 l b Hb) as [q Hq].
  destruct (lookup_lt_is_Some_2 l a ltac:(lia)) as [p Hp].
  unfold point_at. rewrite Hp, Hq. by apply (sorted_lookup l a b).
Qed.

(** Where a sorted list is cut at [h]. *)
Lemma findIndex_split r h :
  ring_sorted r →
  let k := search (length (points r)) (λ i, (h <=? hash (point_at (points r) i))%N) in
  filter (λ p, h <= hash p)%N (points r) = drop k (points r)
  ∧ filter (λ p, hash p < h)%N (points r) = take k (points r).
Proof.
  intros Hs k. unfold ring_sorted in Hs. set (l := points r) in *.
  destruct (search_spec (length l) (λ i, (h <=? hash (point_at l i))%N)) as (Hk & Hlow & Hhigh).
  { intros a b. by apply at_or_after_mono. }
  fold k in Hk, Hlow, Hhigh.
  assert (Forall (λ p, hash p < h)%N (take k l)) as Ht.
  { apply Forall_lookup_2. intros i p [Hp Hi]%lookup_take_Some. specialize (Hlow i Hi).
    unfold point_at in Hlow. rewrite Hp in Hlow. by apply N.leb_gt in Hlow. }
  assert (Forall (λ p, h <= hash p)%N (drop k l)) as Hd.
  { apply Forall_lookup_2. intros i p Hp. rewrite lookup_drop in Hp.
    pose proof (lookup_lt_Some _ _ _ Hp). specialize (Hhigh (k + i)%nat ltac:(lia) ltac:(lia)).
    unfold point_at in Hhigh. rewrite Hp in Hhigh. by apply N.leb_le in Hhigh. }
  rewrite Forall_forall in Ht, Hd.
  split; rewrite <-(take_drop k l) at 1; rewrite filter_app.
  - rewrite filter_none by (intros p Hp; specialize (Ht p Hp); lia). by rewrite filter_all.
  - rewrite (filter_none _ (drop k l)) by (intros p Hp; specialize (Hd p Hp); lia).
    by rewrite app_nil_r, filter_all.
Qed.

(** The list walked from the key's index on. *)
Definition rotate (i : nat) (l : list point) : list point := drop i l ++ take i l.

Lemma rotate_findIndex r h :
  ring_sorted r → rotate (findIndex r h) (points r) = clockwise h (points r).
Proof.
  intros Hs. destruct (findIndex_split r h Hs) as [H1 H2]. unfold clockwise, rotate, findIndex.
  rewrite H1, H2. set (k := search _ _) in *. destruct (Nat.eqb_spec k (length (points r))) as [E|E]; [|done].
  rewrite E, drop_0, take_0, drop_all, firstn_all. by rewrite app_nil_r.
Qed.

Lemma findIndex_lt r h : ring_sorted r → points r ≠ [] → (findIndex r h < length (points r))%nat.
Proof.
  intros Hs Hne. unfold findIndex. set (k := search _ _).
  destruct (Nat.eqb_spec k (length (points r))); [destruct (points r); [done|simpl; lia]|].
  pose proof (search_spec (length (points r)) (λ i, (h <=? hash (point_at (points r) i))%N)) as Hsp.
  fold k in Hsp. cut (k <= length (points r))%nat; [lia|]. apply Hsp.
  intros a b. by apply at_or_after_mono.
Qed.

(** ** Distinct nodes *)

Lemma uniq_prefix acc xs : ∃ rest, foldl uniq_step acc xs = acc ++ rest.
Proof.
  revert acc. induction xs as [|x xs IH]; intros acc; simpl; [exists []; by rewrite app_nil_r|].
  destruct (IH (uniq_step acc x)) as [rest ->]. unfold uniq_step. case_bool_decide; [by exists rest|].
  exists (x :: rest). by rewrite <-app_assoc.
Qed.

Lemma uniq_spec acc xs :
  NoDup acc → NoDup (foldl uniq_step acc xs) ∧ ∀ y, y ∈ foldl uniq_step acc xs ↔ y ∈ acc ∨ y ∈ xs.
Proof.
  revert acc. induction xs as [|x xs IH]; intros acc Ha; simpl; [set_solver|].
  destruct (IH (uniq_step acc x)) as [H1 H2].
  { unfold uniq_step. case_bool_decide; [done|]. apply NoDup_app.
    split_and!; [done|set_solver|apply NoDup_singleton]. }
  split; [done|]. intros y. rewrite H2. unfold uniq_step. case_bool_decide; set_solver.
Qed.

(** Dropping a node before or after taking distinct ones is the same. *)
Lemma uniq_filter x acc xs :
  foldl uniq_step (filter (λ y, y ≠ x) acc) (filter (λ y, y ≠ x) xs)
  = filter (λ y, y ≠ x) (foldl uniq_step acc xs).
Proof.
  revert acc. induction xs as [|y xs IH]; intros acc; simpl; [done|].
  rewrite filter_cons. rewrite <-IH. clear IH. case_decide as E; simpl.
  - f_equal. unfold uniq_step. assert (y ∈ filter (λ y, y ≠ x) acc ↔ y ∈ acc) as Hiff.
    { rewrite list_elem_of_filter. naive_solver. }
    case_bool_decide as H1; rewrite Hiff in H1.
    + by rewrite bool_decide_eq_true_2.
    + rewrite bool_decide_eq_false_2 by done. by rewrite filter_app, filter_cons, decide_True.
  - f_equal. rewrite E. unfold uniq_step. case_bool_decide; [done|].
    by rewrite filter_app, filter_cons, decide_False, app_nil_r by (intros H'; by apply H').
Qed.

Lemma uniq_head xs : head (uniq xs) = head xs.
Proof.
  destruct xs as [|x xs]; [done|]. unfold uniq. simpl. unfold uniq_step at 2.
  rewrite bool_decide_eq_false_2 by (by intros ?%elem_of_nil).
  by destruct (uniq_prefix ([] ++ [x]) xs) as [rest ->].
Qed.

(** ** The walk *)

Lemma lookup_rotate idx l i :
  (idx < length l)%nat → (i < length l)%nat →
  rotate idx l !! i = l !! ((idx + i) mod length l)%nat.
Proof.
  intros Hidx Hi. unfold rotate. destruct (decide (i < length l - idx)%nat) as [Hlt|Hge].
  - rewrite lookup_app_l by (rewrite length_drop; lia). rewrite lookup_drop.
    by rewrite Nat.mod_small by lia.
  - rewrite lookup_app_r by (rewrite length_drop; lia). rewrite length_drop, lookup_take_lt by lia.
    f_equal. apply (Nat.mod_unique _ _ 1); lia.
Qed.

Lemma walk_rotate idx l :
  (idx < length l)%nat →
  (λ i, point_at l ((idx + i) mod length l)) <$> seq 0 (length l) = rotate idx l.
Proof.
  intros Hidx. assert (length (rotate idx l) = length l) as Hlen.
  { unfold rotate. rewrite length_app, length_drop, length_take. lia. }
  apply list_eq. intros i. rewrite list_lookup_fmap.
  destruct (decide (i < length l)%nat) as [Hi|Hi].
  - rewrite lookup_seq_lt by done. simpl. rewrite lookup_rotate by done. unfold point_at.
    pose proof (Nat.mod_upper_bound (idx + i) (length l) ltac:(lia)) as Hm.
    apply lookup_lt_is_Some_2 in Hm as [p Hp]. by rewrite Hp.
  - rewrite lookup_seq_ge by lia. simpl. symmetry. apply lookup_ge_None. lia.
Qed.

Lemma getn_loop_eq l idx n todo nodes :
  (len nodes < n)%Z →
  getn_loop l idx n todo nodes
  = take (Z.to_nat n) (foldl uniq_step nodes
      ((λ i, node (point_at l ((idx + i) mod length l))) <$> todo)).
Proof.
  revert nodes. induction todo as [|i todo IH]; intros nodes Hn; cbn [getn_loop fmap list_fmap foldl].
  { unfold len in Hn. rewrite take_ge by lia. done. }
  cbv zeta. set (x := node _). change (if bool_decide (x ∈ nodes) then nodes else nodes ++ [x])
    with (uniq_step nodes x).
  assert (len (uniq_step nodes x) <= n)%Z as Hle.
  { unfold uniq_step. case_bool_decide; [lia|]. autorewrite with kyria. lia. }
  destruct (Z.eqb_spec (len (uniq_step nodes x)) n) as [E|E]; [|apply IH; lia].
  destruct (uniq_prefix (uniq_step nodes x)
    ((λ i, node (point_at l ((idx + i) mod length l))) <$> todo)) as [rest ->].
  rewrite <-E. unfold len. by rewrite Nat2Z.id, take_app_length.
Qed.

(** ** Owners *)

Lemma GetN_preference r key n :
  ring_sorted r → GetN r key n = take (Z.to_nat n) (preference r key).
Proof.
  intros Hs. unfold GetN, preference. destruct (Z.leb_spec n 0) as [Hn|Hn].
  { rewrite orb_true_r. by replace (Z.to_nat n) with 0%nat by lia. }
  rewrite orb_false_r. destruct (Nat.eqb_spec (length (points r)) 0) as [E|E].
  { apply nil_length_inv in E. rewrite E. by destruct (Z.to_nat n). }
  pose proof (findIndex_lt r (hashStr key) Hs ltac:(by intros H; rewrite H in E)) as Hlt.
  rewrite getn_loop_eq by (autorewrite with kyria; lia). unfold uniq. do 2 f_equal.
  rewrite <-(rotate_findIndex r _ Hs), <-(walk_rotate _ _ Hlt). by rewrite <-list_fmap_compose.
Qed.

Lemma Get_preference r key : ring_sorted r → Get r key = head (preference r key).
Proof.
  intros Hs. unfold Get, preference. rewrite uniq_head.
  destruct (Nat.eqb_spec (length (points r)) 0) as [E|E].
  { apply nil_length_inv in E. by rewrite E. }
  pose proof (findIndex_lt r (hashStr key) Hs ltac:(by intros H; rewrite H in E)) as Hlt.
  rewrite <-(rotate_findIndex r _ Hs), head_lookup, list_lookup_fmap, lookup_rotate by lia.
  rewrite Nat.add_0_r, Nat.mod_small by done. unfold point_at.
  apply lookup_lt_is_Some_2 in Hlt as [p Hp]. by rewrite Hp.
Qed.

Lemma elem_of_preference r key x : x ∈ preference r key ↔ x ∈ node <$> points r.
Proof.
  unfold preference. destruct (uniq_spec [] (node <$> clockwise (hashStr key) (points r))) as [_ H];
    [constructor|]. unfold uniq. rewrite H, elem_of_nil.
  assert (∀ p, p ∈ clockwise (hashStr key) (points r) ↔ p ∈ points r) as Hp.
  { intros p. unfold clockwise. rewrite elem_of_app, !list_elem_of_filter.
    split; [naive_solver|]. intros Hin. destruct (decide (hashStr key <= hash p)%N); [by left|right].
    split; [lia|done]. }
  rewrite !list_elem_of_fmap. setoid_rewrite Hp. naive_solver.
Qed.

Lemma NoDup_preference r key : NoDup (preference r key).
Proof. apply uniq_spec. constructor. Qed.

Lemma Remove_sorted r x : ring_sorted r → ring_sorted (Remove r x).
Proof.
  unfold ring_sorted. simpl. induction 1 as [|p l Hs IH Hp]; [constructor|].
  rewrite filter_cons. case_decide; [|done]. constructor; [done|].
  rewrite Forall_forall in *. intros q [_ Hq]%list_elem_of_filter. auto.
Qed.

Lemma preference_Remove r x key :
  preference (Remove r x) key = filter (λ y, y ≠ x) (preference r key).
Proof.
  unfold preference, uniq. rewrite <-(uniq_filter x []). f_equal. simpl.
  assert (∀ l : list point, node <$> filter (λ p, node p ≠ x) l = filter (λ y, y ≠ x) (node <$> l)) as Hf.
  { intros l. induction l as [|p l IH]; [done|]. rewrite fmap_cons, !filter_cons.
    destruct (decide (node p = x)) as [E|E];
      [rewrite !decide_False by (by intros H; apply H)|rewrite !decide_True by done].
    - exact IH.
    - rewrite fmap_cons. by f_equal. }
  rewrite <-Hf. f_equal. unfold clockwise. rewrite filter_app, !list_filter_filter.
  f_equal; apply list_filter_iff; intros p; tauto.
Qed.

(** ** Building a ring *)

(** [NewRing], one [Add] per node, then [Sort], as the router does it. *)
Definition build (sort : list point → list point) (replicas : Z) (ids : list bytes) : Ring :=
  Sort sort (foldl Add (NewRing replicas) ids).

Definition all_points (replicas : Z) (ids : list bytes) : list point := ids ≫= vpoints replicas.

(** No two virtual points of these nodes collide. *)
Definition no_collision (replicas : Z) (ids : list bytes) : Prop :=
  NoDup (hash <$> all_points replicas ids).

Lemma points_foldl_Add r ids : points (foldl Add r ids) = points r ++ all_points (replicas r) ids
  ∧ replicas (foldl Add r ids) = replicas r.
Proof.
  revert r. induction ids as [|x ids IH]; intros r; simpl; [by rewrite app_nil_r|].
  destruct (IH (Add r x)) as [-> ->]. simpl. by rewrite <-app_assoc.
Qed.

Lemma build_points sort replicas ids :
  sorts sort → points (build sort replicas ids) ≡ₚ all_points replicas ids.
Proof.
  intros Hs. unfold build. simpl. rewrite (proj2 (Hs _)).
  by rewrite (proj1 (points_foldl_Add (NewRing replicas) ids)).
Qed.

Lemma build_sorted sort replicas ids : sorts sort → ring_sorted (build sort replicas ids).
Proof. intros Hs. apply Hs. Qed.

(** Ordered lists of points with distinct hashes are determined by their elements. *)
Lemma sorted_unique (l1 l2 : list point) :
  StronglySorted hash_le l1 → StronglySorted hash_le l2 → l1 ≡ₚ l2 → NoDup (hash <$> l1) → l1 = l2.
Proof.
  intros H1 H2 Hp Hnd. apply (StronglySorted_unique_strong hash_le); try done.
  intros p q Hin Hq Hle1 Hle2. rewrite <-Hp in Hq. unfold hash_le in *.
  assert (hash p = hash q) as E by lia.
  apply list_elem_of_lookup in Hin as [i Hi]. apply list_elem_of_lookup in Hq as [j Hj].
  assert (i = j) as ->.
  { eapply (NoDup_lookup (hash <$> l1)); [done|by rewrite list_lookup_fmap, Hi|].
    rewrite list_lookup_fmap, Hj. simpl. by rewrite E. }
  congruence.
Qed.

Lemma build_agree sort sort' replicas ids ids' :
  sorts sort → sorts sort' → ids ≡ₚ ids' → no_collision replicas ids →
  points (build sort replicas ids) = points (build sort' replicas ids').
Proof.
  intros Hs Hs' Hp Hnc. apply sorted_unique.
  - by apply build_sorted.
  - by apply build_sorted.
  - rewrite !build_points by done. unfold all_points. by rewrite Hp.
  - rewrite build_points by done. done.
Qed.

(** Without the points of [x] the ring is the ring of the other nodes. *)
Lemma build_Remove sort sort' replicas ids x :
  sorts sort → sorts sort' → x ∉ ids → no_collision replicas (x :: ids) →
  points (Remove (build sort replicas (x :: ids)) x) = points (build sort' replicas ids).
Proof.
  intros Hs Hs' Hx Hnc.
  assert (∀ l, filter (λ p, node p ≠ x) (all_points replicas l) = all_points replicas (filter (λ y, y ≠ x) l)) as Hf.
  { intros l. unfold all_points. induction l as [|y l IH]; [done|].
    cbn [mbind list_bind]. rewrite filter_app, filter_cons, IH.
    assert (∀ p, p ∈ vpoints replicas y → node p = y) as Hv.
    { intros p (i & -> & _)%list_elem_of_fmap. done. }
    case_decide as E.
    - rewrite filter_all; [done|]. intros p Hp. by rewrite (Hv p Hp).
    - rewrite filter_none; [done|]. intros p Hp. rewrite (Hv p Hp), E. by intros H; apply H. }
  assert (filter (λ p, node p ≠ x) (points (build sort replicas (x :: ids))) ≡ₚ all_points replicas ids) as Hperm.
  { rewrite build_points by done. rewrite Hf, filter_cons, decide_False by (by intros H; apply H).
    by rewrite filter_all by (intros y Hy E; subst; done). }
  apply sorted_unique.
  - by apply Remove_sorted, build_sorted.
  - by apply build_sorted.
  - rewrite (build_points sort') by done. exact Hperm.
  - unfold Remove. cbn [points]. rewrite Hperm. unfold no_collision, all_points in *. simpl in Hnc.
    rewrite fmap_app in Hnc. by apply NoDup_app in Hnc as (_ & _ & ?).
Qed.

(** ** Properties *)

(** [Get] is the first virtual point clockwise: on an ordered ring with a
    point, the owner's point is at or after the key's hash and no other such
    point comes before it; when every point lies before the hash, it is the
    smallest point.  The binary search always terminates inside the ring. *)
Theorem Get_first_clockwise (r : Ring) (key : bytes) :
  ring_sorted r → points r ≠ [] →
  (findIndex r (hashStr key) < length (points r))%nat ∧
  ∃ p, p ∈ points r ∧ Get r key = Some (node p) ∧
    ((hashStr key <= hash p)%N ∧ (∀ q, q ∈ points r → hashStr key <= hash q → hash p <= hash q)%N
     ∨ (∀ q, q ∈ points r → hash q < hashStr key ∧ hash p <= hash q)%N).
Proof.
  intros Hs Hne. split; [by apply findIndex_lt|]. rewrite Get_preference by done.
  unfold preference. rewrite uniq_head. unfold clockwise. unfold ring_sorted in Hs.
  set (h := hashStr key). set (l := points r) in *. rewrite fmap_app.
  assert (∀ (Q : point → Prop) `{!∀ p, Decision (Q p)} p l', filter Q l = p :: l' →
    p ∈ l ∧ Q p ∧ ∀ q, q ∈ l → Q q → hash_le p q) as Hfirst.
  { intros Q HQ p l' E. assert (p ∈ filter Q l) as [Hq Hin]%list_elem_of_filter by (rewrite E; left).
    split_and!; [done..|]. clear Hne. induction Hs as [|a l0 Hs IH Ha]; [done|].
    rewrite filter_cons in E. rewrite Forall_forall in Ha. intros q [->|Hql]%elem_of_cons HQq.
    - rewrite decide_True in E by done. injection E as -> _. unfold hash_le. lia.
    - case_decide; [injection E as -> _; auto|]. apply elem_of_cons in Hin as [->|Hin]; [done|auto]. }
  destruct (filter (λ p, h <= hash p)%N l) as [|p l'] eqn:E1; simpl.
  - assert (∀ q, q ∈ l → hash q < h)%N as Hall.
    { intros q Hq. apply N.nle_gt. intros Hle. assert (q ∈ filter (λ p, h <= hash p)%N l) as Hq'
        by (by apply list_elem_of_filter). rewrite E1 in Hq'. by apply elem_of_nil in Hq'. }
    rewrite filter_all by done. destruct l as [|p l'] eqn:El; [done|]. exists p. simpl.
    split_and!; [left|done|]. right. intros q Hq. split; [by apply Hall|].
    apply elem_of_cons in Hq as [->|Hq]; [lia|]. inversion Hs as [|? ? _ Hf]; subst.
    rewrite Forall_forall in Hf. by apply Hf.
  - destruct (Hfirst _ _ p l' E1) as (H1 & H2 & H3). exists p. split_and!; [done..|]. left. by split.
Qed.

(** C24: [GetN] returns the replica set: distinct nodes of the ring, the owner
    [Get] returns first, as many as asked for or all the nodes there are, and a
    larger replica set extends a smaller one. *)
Theorem GetN_replica_set (r : Ring) (key : bytes) (n : Z) :
  ring_sorted r →
  NoDup (GetN r key n) ∧ (∀ x, x ∈ GetN r key n → x ∈ node <$> points r)
  ∧ (len (GetN r key n) = Z.min (Z.max 0 n) (Z.of_nat (size (list_to_set (node <$> points r) : gset bytes))))
  ∧ (0 < n → head (GetN r key n) = Get r key)%Z
  ∧ (∀ m, n <= m → GetN r key n `prefix_of` GetN r key m)%Z.
Proof.
  intros Hs. rewrite GetN_preference by done. pose proof (NoDup_preference r key) as Hnd.
  pose proof (elem_of_preference r key) as Hel. split_and!.
  - eapply sublist_NoDup; [exact Hnd|apply sublist_take].
  - intros x Hx. apply Hel. by eapply subseteq_take.
  - unfold len. rewrite length_take.
    replace (list_to_set (node <$> points r) : gset bytes) with (list_to_set (preference r key) : gset bytes).
    + rewrite size_list_to_set by done. lia.
    + apply set_eq. intros x. rewrite !elem_of_list_to_set. apply Hel.
  - intros Hn. rewrite Get_preference by done. destruct (Z.to_nat n) eqn:E; [lia|].
    by destruct (preference r key).
  - intros m Hm. rewrite GetN_preference by done.
    replace (Z.to_nat n) with (Z.to_nat n `min` Z.to_nat m)%nat by lia.
    rewrite <-take_take. apply prefix_take.
Qed.

(** Consistent hashing: a node that leaves only drops out of the preference
    lists, in which the others keep their order.  So a key owned by another node
    keeps its owner, and replica sets without the leaver keep every member. *)
Theorem Remove_keeps_owners (r : Ring) (x key : bytes) (n : Z) :
  ring_sorted r →
  GetN (Remove r x) key n = take (Z.to_nat n) (filter (λ y, y ≠ x) (preference r key))
  ∧ (Get r key ≠ Some x → Get (Remove r x) key = Get r key)
  ∧ (x ∉ GetN r key n → GetN (Remove r x) key n = GetN r key n).
Proof.
  intros Hs. pose proof (Remove_sorted r x Hs) as Hs'.
  rewrite !GetN_preference, !Get_preference, preference_Remove by done. split_and!; [done| |].
  - destruct (preference r key) as [|y l]; [done|]. simpl. intros Hne.
    rewrite filter_cons, decide_True by (intros ->; done). done.
  - intros Hx. rewrite <-(take_drop (Z.to_nat n) (preference r key)) at 1.
    rewrite filter_app, (filter_all _ (take _ _)) by (intros y Hy ->; done).
    destruct (decide (Z.to_nat n <= length (preference r key)))%nat.
    + rewrite take_app_le, take_ge by (rewrite length_take; lia). done.
    + rewrite (drop_ge (preference r key)) by lia. rewrite filter_nil, app_nil_r.
      by rewrite take_take, Nat.min_id.
Qed.

(** C25: every member computes the same ring, and a join moves keys only to the
    joiner.  Rings built from the same nodes in any order, with any (unstable)
    sort, give every key the same replica set; and when [x] joins, a key's owner
    is [x] or the owner it had.  Both assume that no two virtual points of these
    nodes have the same 64-bit hash. *)
Theorem ring_agreement_and_join (sort sort' : list point → list point) (replicas : Z)
    (ids ids' : list bytes) (x : bytes) :
  sorts sort → sorts sort' → ids ≡ₚ ids' → x ∉ ids → no_collision replicas (x :: ids) →
  ∀ key,
    (∀ n, GetN (build sort replicas ids) key n = GetN (build sort' replicas ids') key n)
    ∧ (Get (build sort replicas (x :: ids)) key = Some x
       ∨ Get (build sort replicas (x :: ids)) key = Get (build sort' replicas ids') key).
Proof.
  intros Hs Hs' Hp Hx Hnc key.
  assert (no_collision replicas ids) as Hnc'.
  { unfold no_collision, all_points in *. simpl in Hnc. rewrite fmap_app in Hnc.
    by apply NoDup_app in Hnc as (_ & _ & ?). }
  pose proof (build_agree sort sort' replicas ids ids' Hs Hs' Hp Hnc') as Heq.
  assert (∀ r r', points r = points r' → preference r key = preference r' key) as Hpref
    by (unfold preference; by intros r r' ->).
  split.
  - intros n. rewrite !GetN_preference by (by apply build_sorted). f_equal. by apply Hpref.
  - rewrite !Get_preference by (by apply build_sorted).
    rewrite <-(Hpref _ _ Heq), <-(Hpref _ _ (build_Remove sort sort replicas ids x Hs Hs Hx Hnc)).
    rewrite preference_Remove. destruct (preference _ key) as [|y l]; [by right|].
    rewrite filter_cons. case_decide as E; [by right|left].
    simpl. by rewrite E.
Qed.

(** ** Witnesses *)

Lemma merge_sort_sorts : sorts (merge_sort hash_le).
Proof. intros l. split; [apply (StronglySorted_merge_sort _)|apply merge_sort_Permutation]. Qed.

Definition ring3 : Ring := build (merge_sort hash_le) 3 [str "n1"; str "n2"; str "n3"].

Lemma ring3_sorted : ring_sorted ring3.
Proof. apply build_sorted, merge_sort_sorts. Qed.

Lemma Get_first_clockwise_witness :
  ∃ p, p ∈ points ring3 ∧ Get ring3 (str "user:42") = Some (node p).
Proof.
  destruct (Get_first_clockwise ring3 (str "user:42")) as [_ (p & H1 & H2 & _)].
  - apply ring3_sorted.
  - vm_compute. discriminate.
  - exists p. split; [exact H1|exact H2].
Defined.

Lemma GetN_replica_set_witness :
  NoDup (GetN ring3 (str "user:42") 2) ∧ len (GetN ring3 (str "user:42") 2) = 2%Z.
Proof.
  destruct (GetN_replica_set ring3 (str "user:42") 2 ring3_sorted) as (H1 & _ & H2 & _).
  split; [exact H1|]. rewrite H2. vm_compute. reflexivity.
Defined.

Lemma Remove_keeps_owners_witness :
  ∃ x, x ∈ [str "n1"; str "n2"; str "n3"] ∧ Get ring3 (str "user:42") ≠ Some x
    ∧ Get (Remove ring3 x) (str "user:42") = Get ring3 (str "user:42").
Proof.
  destruct (decide (Get ring3 (str "user:42") = Some (str "n1"))) as [E|E].
  - exists (str "n2"). assert (Get ring3 (str "user:42") ≠ Some (str "n2")) as Hne by (rewrite E; discriminate).
    split; [right; left|]. split; [exact Hne|].
    apply (Remove_keeps_owners ring3 (str "n2") (str "user:42") 1 ring3_sorted), Hne.
  - exists (str "n1"). split; [left|]. split; [exact E|].
    apply (Remove_keeps_owners ring3 (str "n1") (str "user:42") 1 ring3_sorted), E.
Defined.

Lemma ring_agreement_and_join_witness :
  GetN (build (merge_sort hash_le) 3 [str "n2"; str "n3"]) (str "user:42") 2
  = GetN (build (merge_sort hash_le) 3 [str "n3"; str "n2"]) (str "user:42") 2.
Proof.
  apply (ring_agreement_and_join (merge_sort hash_le) (merge_sort hash_le) 3
    [str "n2"; str "n3"] [str "n3"; str "n2"] (str "n1")).
  - apply merge_sort_sorts.
  - apply merge_sort_sorts.
  - constructor.
  - apply (bool_decide_unpack _). vm_compute. exact I.
  - unfold no_collision. apply (bool_decide_unpack _). vm_compute. exact I.
Defined.
