(* ===== verification/Router.v ===== *)
(** * The router (internal/cluster/router.go)

    The router publishes a ring built from the alive members.  Publication is
    one atomic pointer store, so a reader always sees a whole ring: [rebuild] is
    one step that replaces the field [ring].  The ticker goroutine only repeats
    [rebuild]. *)

From S2P Require Import Prelude Membership Ring.

(** ** Data and operations *)

Record Router : Type := mkRouter {
  router_self : bytes;
  router_replicas : Z;
  interval : Z;
  ring : Ring;
  lastNodes : list bytes
}.

(** Go's [<=] on strings: bytewise lexicographic. *)
Fixpoint bytes_leb (a b : bytes) : bool :=
  match a, b with
  | [], _ => true
  | _ :: _, [] => false
  | x :: a, y :: b =>
      (Byte.to_N x <? Byte.to_N y)%N || ((Byte.to_N x =? Byte.to_N y)%N && bytes_leb a b)
  end.

Definition bytes_le (a b : bytes) : Prop := bytes_leb a b = true.

#[global] Instance bytes_le_dec : RelDecision bytes_le.
Proof. intros a b. unfold bytes_le. apply _. Defined.

(** The alive IDs, in the order [Alive()] lists them. *)
Definition alive_ids (ord : roster_order) (m : Members) : list bytes := ID <$> AliveNodes ord m.

Definition rebuild (sort : list point → list point) (ord : roster_order) (m : Members) (r : Router) :
    Router :=
  let nodes := alive_ids ord m in
  let new := Sort sort (foldl Add (NewRing (router_replicas r)) nodes) in
  let sorted := merge_sort bytes_le nodes in
  mkRouter (router_self r) (router_replicas r) (interval r) new
    (if bool_decide (sorted = lastNodes r) then lastNodes r else sorted).

Definition NewRouter (sort : list point → list point) (ord : roster_order) (m : Members)
    (replicas interval : Z) : Router :=
  rebuild sort ord m (mkRouter (self m) replicas interval (NewRing replicas) []).

Definition Owner (r : Router) (key : bytes) : option bytes := Get (ring r) key.

Definition IsLocal (r : Router) (key : bytes) : bool :=
  match Owner r key with Some owner => bool_decide (owner = router_self r) | None => false end.

Definition Owners (r : Router) (key : bytes) (n : Z) : list bytes := GetN (ring r) key n.

(** ** Lemmas *)

Lemma rebuild_ring sort ord m r : ring (rebuild sort ord m r) = build sort (router_replicas r) (alive_ids ord m).
Proof. done. Qed.

Lemma elem_of_alive_ids ord m x :
  lawful_roster ord → members_wf m →
  x ∈ alive_ids ord m ↔ ∃ e, nodes m !! x = Some e ∧ State (Membership.node e) = Alive.
Proof.
  intros Hord Hm. unfold alive_ids, AliveNodes. rewrite list_elem_of_fmap. split.
  - intros (n & -> & ([k e] & -> & [Ha Hin]%list_elem_of_filter)%list_elem_of_fmap).
    rewrite (Hord (nodes m)), elem_of_map_to_list in Hin. simpl in *.
    exists e. by rewrite (mw_keys _ Hm _ _ Hin).
  - intros (e & He & Ha). exists (Membership.node e). split; [by rewrite (mw_keys _ Hm _ _ He)|].
    apply list_elem_of_fmap. exists (x, e). split; [done|]. apply list_elem_of_filter.
    split; [done|]. by rewrite (Hord (nodes m)), elem_of_map_to_list.
Qed.

Lemma NoDup_alive_ids ord m : lawful_roster ord → members_wf m → NoDup (alive_ids ord m).
Proof.
  intros Hord Hm. unfold alive_ids, AliveNodes. rewrite <-list_fmap_compose.
  assert (∀ l : list (bytes * member), (∀ k e, (k, e) ∈ l → ID (Membership.node e) = k) →
    (ID ∘ (λ kv : bytes * member, Membership.node kv.2)) <$> l = l.*1) as Hk.
  { intros l Hl. apply list_fmap_ext. intros i [k e] Hi. simpl. apply Hl. by eapply list_elem_of_lookup_2. }
  rewrite Hk.
  - eapply sublist_NoDup; [|apply fmap_sublist, sublist_filter].
    rewrite (Hord (nodes m)). apply NoDup_fst_map_to_list.
  - intros k e [_ Hin]%list_elem_of_filter. rewrite (Hord (nodes m)), elem_of_map_to_list in Hin.
    by apply (mw_keys _ Hm).
Qed.

Lemma alive_ids_perm ord ord' m m' :
  lawful_roster ord → lawful_roster ord' → members_wf m → members_wf m' →
  (∀ x, (∃ e, nodes m !! x = Some e ∧ State (Membership.node e) = Alive)
    ↔ (∃ e, nodes m' !! x = Some e ∧ State (Membership.node e) = Alive)) →
  alive_ids ord m ≡ₚ alive_ids ord' m'.
Proof.
  intros Ho Ho' Hm Hm' Hsame. apply NoDup_Permutation; [by apply NoDup_alive_ids..|].
  intros x. by rewrite !elem_of_alive_ids.
Qed.

(** ** Property *)

(** Members that agree on who is alive route alike, without coordination.
    For every key the replica sets are equal, the owner is an alive member, and
    at most one of the two nodes takes the key for its own.  The order in which
    each lists its members and breaks ties does not matter, provided no two
    virtual points of the alive nodes collide. *)
Theorem router_agreement (sort sort' : list point → list point) (ord ord' : roster_order)
    (m m' : Members) (replicas ivl ivl' : Z) (key : bytes) :
  sorts sort → sorts sort' → lawful_roster ord → lawful_roster ord' →
  members_wf m → members_wf m' →
  (∀ x, (∃ e, nodes m !! x = Some e ∧ State (Membership.node e) = Alive)
    ↔ (∃ e, nodes m' !! x = Some e ∧ State (Membership.node e) = Alive)) →
  no_collision replicas (alive_ids ord m) → (0 < replicas)%Z →
  let r := NewRouter sort ord m replicas ivl in
  let r' := NewRouter sort' ord' m' replicas ivl' in
  (∀ n, Owners r key n = Owners r' key n)
  ∧ (∃ o, Owner r key = Some o ∧ Owner r' key = Some o
       ∧ ∃ e, nodes m !! o = Some e ∧ State (Membership.node e) = Alive)
  ∧ (IsLocal r key = true → IsLocal r' key = true → self m = self m').
Proof.
  intros Hs Hs' Ho Ho' Hm Hm' Hsame Hnc Hrep r r'.
  pose proof (alive_ids_perm ord ord' m m' Ho Ho' Hm Hm' Hsame) as Hperm.
  pose proof (build_agree sort sort' replicas _ _ Hs Hs' Hperm Hnc) as Heq.
  assert (ring r = ring r') as Hr.
  { unfold r, r', NewRouter. rewrite !rebuild_ring. simpl router_replicas.
    unfold build in *. unfold Sort in *. f_equal; [|exact Heq].
    by rewrite !(proj2 (points_foldl_Add _ _)). }
  assert (Owner r key = Owner r' key) as HO by (unfold Owner; by rewrite Hr).
  assert (∃ o, Owner r key = Some o ∧ o ∈ alive_ids ord m) as (o & Hown & Hin).
  { unfold Owner. pose proof (build_sorted sort replicas (alive_ids ord m) Hs) as Hsorted.
    change (ring r) with (build sort replicas (alive_ids ord m)). rewrite Get_preference by done.
    assert (self m ∈ preference (build sort replicas (alive_ids ord m)) key) as Hself.
    { apply elem_of_preference, list_elem_of_fmap.
      exists (mkPoint (hashStr (self m ++ str "#" ++ Itoa 0)) (self m)). split; [done|].
      rewrite build_points by done. apply list_elem_of_bind.
      exists (self m). split; [|by apply elem_of_alive_ids, (mw_self _ Hm)].
      apply list_elem_of_fmap. exists 0%nat. split; [done|]. apply elem_of_seq. lia. }
    destruct (preference _ key) as [|o l] eqn:Epref; [by apply elem_of_nil in Hself|].
    exists o. split; [done|]. assert (o ∈ preference (build sort replicas (alive_ids ord m)) key) as Hop
      by (rewrite Epref; left).
    apply elem_of_preference, list_elem_of_fmap in Hop as (p & -> & Hp).
    rewrite build_points in Hp by done. apply list_elem_of_bind in Hp as (y & Hp & Hy).
    by apply list_elem_of_fmap in Hp as (i & -> & _). }
  split_and!.
  - intros n. unfold Owners. by rewrite Hr.
  - exists o. split_and!; [done|congruence|]. by apply (elem_of_alive_ids ord).
  - unfold IsLocal. rewrite <-HO, Hown. intros H1%bool_decide_eq_true H2%bool_decide_eq_true.
    simpl in *. congruence.
Qed.

(** A roster of two members seen from each side. *)
Lemma router_agreement_witness :
  Owners (NewRouter (merge_sort hash_le) map_to_list roster_a 4 1) (str "k") 2
  = Owners (NewRouter (merge_sort hash_le) map_to_list
         (Merge (NewMembers node_b 0) [node_a] 0) 4 9) (str "k") 2.
Proof.
  apply (router_agreement (merge_sort hash_le) (merge_sort hash_le) map_to_list map_to_list
    roster_a (Merge (NewMembers node_b 0) [node_a] 0) 4 1 9 (str "k")).
  - apply merge_sort_sorts.
  - apply merge_sort_sorts.
  - apply lawful_roster_map_to_list.
  - apply lawful_roster_map_to_list.
  - apply (roster_wf node_a 0), roster_a_roster.
  - apply roster_merge_wf; [apply NewMembers_wf|repeat constructor].
  - intros x. rewrite <-!(elem_of_alive_ids map_to_list).
    + replace (alive_ids map_to_list (Merge (NewMembers node_b 0) [node_a] 0))
        with (alive_ids map_to_list roster_a) by (vm_compute; reflexivity). done.
    + apply lawful_roster_map_to_list.
    + apply roster_merge_wf; [apply NewMembers_wf|repeat constructor].
    + apply lawful_roster_map_to_list.
    + apply (roster_wf node_a 0), roster_a_roster.
  - unfold no_collision. apply (bool_decide_unpack _). vm_compute. exact I.
  - lia.
Defined.
