(* ===== verification/Sha256.v ===== *)
(** * SHA-256 (crypto/sha256)

    The hash the Merkle tree is built on, written out from FIPS 180-4 on 32-bit
    words, so that the tree's digests can be evaluated.  [sum256] is both
    [sha256.Sum256] and a [sha256.New] fed by several [Write]s: the digest of the
    concatenation. *)

From S2P Require Import Prelude Binenc.

Definition round_constants : list N :=
  [
   1116352408; 1899447441; 3049323471; 3921009573; 961987163; 1508970993;
   2453635748; 2870763221; 3624381080; 310598401; 607225278; 1426881987;
   1925078388; 2162078206; 2614888103; 3248222580; 3835390401; 4022224774;
   264347078; 604807628; 770255983; 1249150122; 1555081692; 1996064986;
   2554220882; 2821834349; 2952996808; 3210313671; 3336571891; 3584528711;
   113926993; 338241895; 666307205; 773529912; 1294757372; 1396182291;
   1695183700; 1986661051; 2177026350; 2456956037; 2730485921; 2820302411;
   3259730800; 3345764771; 3516065817; 3600352804; 4094571909; 275423344;
   430227734; 506948616; 659060556; 883997877; 958139571; 1322822218;
   1537002063; 1747873779; 1955562222; 2024104815; 2227730452; 2361852424;
   2428436474; 2756734187; 3204031479; 3329325298
  ]%N.

(** The eight working variables. *)
Record sha_state : Type := mkSha { sa : N; sb : N; sc : N; sd : N; se : N; sf : N; sg : N; sh : N }.

Definition initial : sha_state :=
  mkSha 1779033703 3144134277 1013904242 2773480762 1359893119 2600822924 528734635 1541459225.

Definition rotr (x n : N) : N := N.lor (N.shiftr x n) (u32 (N.shiftl x (32 - n))).
Definition add32 (x y : N) : N := u32 (x + y).
Definition not32 (x : N) : N := N.lxor x 4294967295.

Definition Ch (x y z : N) : N := N.lxor (N.land x y) (N.land (not32 x) z).
Definition Maj (x y z : N) : N := N.lxor (N.lxor (N.land x y) (N.land x z)) (N.land y z).
Definition Sigma0 (x : N) : N := N.lxor (N.lxor (rotr x 2) (rotr x 13)) (rotr x 22).
Definition Sigma1 (x : N) : N := N.lxor (N.lxor (rotr x 6) (rotr x 11)) (rotr x 25).
Definition sigma0 (x : N) : N := N.lxor (N.lxor (rotr x 7) (rotr x 18)) (N.shiftr x 3).
Definition sigma1 (x : N) : N := N.lxor (N.lxor (rotr x 17) (rotr x 19)) (N.shiftr x 10).

(** The message schedule, latest word first. *)
Fixpoint extend (n : nat) (w : list N) : list N :=
  match n with
  | O => w
  | S n =>
      let get i := nth i w 0%N in
      extend n (add32 (add32 (sigma1 (get 1%nat)) (get 6%nat))
                      (add32 (sigma0 (get 14%nat)) (get 15%nat)) :: w)
  end.

Definition sha_round (s : sha_state) (kw : N * N) : sha_state :=
  let t1 := add32 (add32 (add32 (sh s) (Sigma1 (se s))) (Ch (se s) (sf s) (sg s)))
                  (add32 kw.1 kw.2) in
  let t2 := add32 (Sigma0 (sa s)) (Maj (sa s) (sb s) (sc s)) in
  mkSha (add32 t1 t2) (sa s) (sb s) (sc s) (add32 (sd s) t1) (se s) (sf s) (sg s).

Definition compress (s : sha_state) (words : list N) : sha_state :=
  let w := reverse (extend 48 (reverse words)) in
  let r := foldl sha_round s (zip round_constants w) in
  mkSha (add32 (sa s) (sa r)) (add32 (sb s) (sb r)) (add32 (sc s) (sc r)) (add32 (sd s) (sd r))
        (add32 (se s) (se r)) (add32 (sf s) (sf r)) (add32 (sg s) (sg r)) (add32 (sh s) (sh r)).

(** The message followed by a one bit, zeros and its length in bits. *)
Definition pad (m : bytes) : bytes :=
  m ++ [x80] ++ replicate (Z.to_nat ((55 - len m) mod 64)) x00 ++ be 8 (8 * N.of_nat (length m)).

(** The 32-bit words of a whole number of blocks. *)
Fixpoint words (fuel : nat) (m : bytes) : list N :=
  match fuel, m with
  | S fuel, _ :: _ => unbe (take 4 m) :: words fuel (drop 4 m)
  | _, _ => []
  end.

Fixpoint blocks (fuel : nat) (s : sha_state) (ws : list N) : sha_state :=
  match fuel, ws with
  | S fuel, _ :: _ => blocks fuel (compress s (take 16 ws)) (drop 16 ws)
  | _, _ => s
  end.

Definition sum256 (m : bytes) : bytes :=
  let p := pad m in
  let s := blocks (length p) initial (words (length p) p) in
  concat (be 4 <$> [sa s; sb s; sc s; sd s; se s; sf s; sg s; sh s]).

Lemma length_sum256 m : length (sum256 m) = 32%nat.
Proof.
  unfold sum256. cbv zeta. cbn [concat fmap list_fmap]. by rewrite !length_app, !length_be.
Qed.

(** A digest in hexadecimal notation, as one number. *)
Definition digest (m : bytes) : N := unbe (sum256 m).

(** Test vectors: the empty message, one block and two blocks. *)

Example sha256_empty : digest (str "") = 102987336249554097029535212322581322789799900648198034993379397001115665086549%N.
Proof. vm_compute. reflexivity. Qed.

Example sha256_abc : digest (str "abc") = 84342368487090800366523834928142263660104883695016514377462985829716817089965%N.
Proof. vm_compute. reflexivity. Qed.

Example sha256_two_blocks : digest (str "abcdbcdecdefdefgefghfghighijhijkijkljklmklmnlmnomnopnopq") = 16533122207477069341668099752125637525043274373652441057433006174010909329089%N.
Proof. vm_compute. reflexivity. Qed.

