(* ===== verification/Merkle.v ===== *)
(** * Merkle trees for anti-entropy (internal/merkle/merkle.go)

    The heap-layout array of the source, with a nil slice as [[]] (the code
    never stores an empty slice that is not nil).  An index out of range, or a
    length [make] refuses, is [Panic].  The digests are SHA-256 of file Sha256. *)

From S2P Require Import Prelude Binenc Sha256.

(** ** Data and array accesses *)

Record Tree : Type := mkTree { leafCount : Z; tnodes : list bytes }.

#[global] Instance Tree_eq_dec : EqDecision Tree.
Proof. solve_decision. Defined.

(** [t.nodes[i]] *)
Definition node_at (t : Tree) (i : Z) : gres binerr bytes :=
  if (i <? 0)%Z then Panic
  else match tnodes t !! Z.to_nat i with Some b => Ok b | None => Panic end.

(** [t.nodes[i] = v] *)
Definition set_node (t : Tree) (i : Z) (v : bytes) : gres binerr Tree :=
  if (i <? 0)%Z || (len (tnodes t) <=? i)%Z then Panic
  else Ok (mkTree (leafCount t) (<[Z.to_nat i := v]> (tnodes t))).

(** ** Operations *)

Definition nextPowerOfTwo (n : Z) : Z :=
  if (n <=? 1)%Z then 1 else i64 (Z.shiftl 1 (Z.of_N (N.size (u64_of_int (n - 1))))).

Definition New (leaves : Z) : gres binerr Tree :=
  let roundedLeafCount := nextPowerOfTwo leaves in
  let n := i64 (roundedLeafCount * 2) in
  if make_panics n 24 then Panic else Ok (mkTree roundedLeafCount (replicate (Z.to_nat n) [])).

Definition Leaves (t : Tree) : Z := leafCount t.

Definition Bucket (t : Tree) (key : bytes) : Z :=
  int_of_u64 (N.land (unbe (take 8 (sum256 key))) (u64_of_int (leafCount t - 1))).

Definition xor_byte (x y : byte) : byte := byte_of_N (N.lxor (Byte.to_N x) (Byte.to_N y)).

(** The digest [Add] folds in for an entry. *)
Definition entry_hash (key blob : bytes) : bytes := sum256 (sum256 key ++ blob).

Definition Add (t : Tree) (key blob : bytes) : gres binerr Tree :=
  let fullHash := entry_hash key blob in
  let leafIndex := i64 (leafCount t + Bucket t key) in
  do leaf <- node_at t leafIndex;
  let leaf := match leaf with [] => replicate 32 x00 | _ => leaf end in
  if (len leaf <? 32)%Z then Panic
  else set_node t leafIndex (zip_with xor_byte (take 32 leaf) fullHash ++ drop 32 leaf).

(** The loop of [Root], from node [k] down to node 1. *)
Fixpoint root_loop (k : nat) (t : Tree) : gres binerr Tree :=
  match k with
  | O => Ok t
  | S k' =>
      let i := Z.of_nat k in
      do l <- node_at t (2 * i);
      do r <- node_at t (2 * i + 1);
      do t <- set_node t i (sum256 (l ++ r));
      root_loop k' t
  end.

Definition Root (t : Tree) : gres binerr (Tree * bytes) :=
  do t <- root_loop (Z.to_nat (i64 (leafCount t - 1))) t;
  do r <- node_at t 1;
  Ok (t, r).

(** [collect]; a path from the root has at most [log2_up leafCount + 1] nodes, which is the
    [fuel] that [Diff] gives it. *)
Fixpoint collect (fuel : nat) (t other : Tree) (start : Z) (diffs : list Z) : gres binerr (list Z) :=
  match fuel with
  | O => Ok diffs
  | S fuel =>
      do a <- node_at t start;
      do b <- node_at other start;
      if bool_decide (a = b) then Ok diffs
      else if (leafCount t <=? start)%Z then Ok (diffs ++ [start - leafCount t])%Z
      else do diffs <- collect fuel t other (2 * start) diffs;
           collect fuel t other (2 * start + 1) diffs
  end.

(** Both trees have their internal nodes rebuilt. *)
Definition Diff (t other : Tree) : gres binerr (Tree * Tree * list Z) :=
  if negb (leafCount t =? leafCount other)%Z then Ok (t, other, [])
  else
    do (t, _) <- Root t;
    do (other, _) <- Root other;
    do diffs <- collect (S (Z.to_nat (Z.log2_up (leafCount t)))) t other 1 [];
    Ok (t, other, diffs).

(** ** The wire format *)

(** The writes of the leaves from index [l], [n] of them. *)
Fixpoint encode_leaves (t : Tree) (l : Z) (n : nat) (buf : bytes) : gres binerr bytes :=
  match n with
  | O => Ok buf
  | S n =>
      do leaf <- node_at t l;
      encode_leaves t (l + 1) n (PutUint32 buf (u32 (N.of_nat (length leaf))) ++ leaf)
  end.

Definition Encode (t : Tree) : gres binerr bytes :=
  encode_leaves t (leafCount t) (Z.to_nat (leafCount t))
    (PutUint32 [] (u32_of_int (leafCount t))).

(** The reads of one leaf. *)
Definition decode_leaf (b : bytes) (cursor : Z) : gres binerr (bytes * Z) :=
  do (leafSize, cursor) <- Uint32 b cursor;
  if (leafSize =? 0)%N then Ok ([], cursor) else Bytes b cursor (Z.of_N leafSize).

(** One iteration of the loop of [Decode]: the index [l] is a [uint32], and so is
    [leafCount+l]. *)
Definition decode_step (b : bytes) (leafCount : N) (st : N * Z * list bytes) :
    gres binerr (N * Z * list bytes) :=
  let '(l, cursor, nodes) := st in
  do (leaf, cursor) <- decode_leaf b cursor;
  let i := u32 (leafCount + l) in
  if (N.of_nat (length nodes) <=? i)%N then Panic
  else Ok (l + 1, cursor, <[N.to_nat i := leaf]> nodes)%N.

Definition Decode (b : bytes) : gres binerr Tree :=
  do (leafCount, cursor) <- Uint32 b 0;
  let nodes := replicate (N.to_nat (u32 (leafCount * 2))) [] in
  do (_, _, nodes) <- for_range leafCount (decode_step b leafCount) (0%N, cursor, nodes);
  Ok (mkTree (Z.of_N leafCount) nodes).

(** ** Well-formed trees *)

(** A perfect binary tree whose leaves are empty or digests; [2^44] leaves is
    more than the address space holds. *)
Record tree_wf (t : Tree) : Prop := {
  tw_count : ∃ k, (0 <= k <= 44)%Z ∧ leafCount t = (2 ^ k)%Z;
  tw_nodes : len (tnodes t) = (2 * leafCount t)%Z;
  tw_leaves i b : tnodes t !! i = Some b → (leafCount t <= Z.of_nat i)%Z → b = [] ∨ length b = 32%nat
}.

(** The node at an index, and the leaf of a bucket. *)
Definition nd (t : Tree) (i : nat) : bytes := default [] (tnodes t !! i).
Definition leaf (t : Tree) (b : nat) : bytes := nd t (Z.to_nat (leafCount t) + b).

Lemma tw_pos t : tree_wf t → (1 <= leafCount t <= 2 ^ 44)%Z.
Proof.
  intros [(k & Hk & ->) _ _]. split.
  - pose proof (Z.pow_pos_nonneg 2 k). lia.
  - apply Z.pow_le_mono_r; lia.
Qed.

Lemma node_at_nd t i : (0 <= i < len (tnodes t))%Z → node_at t i = Ok (nd t (Z.to_nat i)).
Proof.
  intros Hi. unfold node_at, nd. case_bool; [lia|].
  destruct (lookup_lt_is_Some_2 (tnodes t) (Z.to_nat i)) as [b Hb]; [unfold len in *; lia|]. by rewrite Hb.
Qed.

Lemma nd_insert c t i v j :
  (i < length (tnodes t))%nat →
  nd (mkTree c (<[i := v]> (tnodes t))) j = if decide (j = i) then v else nd t j.
Proof.
  intros Hi. unfold nd. simpl. case_decide as E; [by rewrite E, list_lookup_insert_eq|].
  by rewrite list_lookup_insert_ne.
Qed.

Lemma set_node_ok t i v :
  (0 <= i < len (tnodes t))%Z →
  set_node t i v = Ok (mkTree (leafCount t) (<[Z.to_nat i := v]> (tnodes t))).
Proof. intros Hi. unfold set_node. repeat case_bool; by try lia. Qed.

Lemma Bucket_range t key : tree_wf t → (0 <= Bucket t key < leafCount t)%Z.
Proof.
  intros Ht. pose proof (tw_pos t Ht) as Hp. destruct (tw_count t Ht) as (k & Hk & Hc).
  unfold Bucket, u64_of_int. rewrite Z.mod_small by lia.
  set (h := unbe _). assert (Z.to_N (leafCount t - 1) = N.ones (Z.to_N k)) as ->.
  { rewrite Hc. rewrite N.ones_equiv. apply N2Z.inj. rewrite Z2N.id by lia.
    rewrite N2Z.inj_pred by (apply N.neq_0_lt_0, N.pow_nonzero; done).
    rewrite N2Z.inj_pow, Z2N.id by lia. lia. }
  rewrite N.land_ones. pose proof (N.mod_lt h (2 ^ Z.to_N k) ltac:(apply N.pow_nonzero; done)) as Hlt.
  assert (Z.of_N (2 ^ Z.to_N k) = leafCount t) as E by (rewrite N2Z.inj_pow, Z2N.id by lia; lia).
  set (q := (h mod 2 ^ Z.to_N k)%N) in *. set (p := (2 ^ Z.to_N k)%N) in *. clearbody q p.
  unfold int_of_u64. rewrite i64_small by lia. lia.
Qed.

(** ** Adding entries *)

Lemma xor_byte_N x y : Byte.to_N (xor_byte x y) = N.lxor (Byte.to_N x) (Byte.to_N y).
Proof.
  unfold xor_byte. rewrite byte_to_N_of_N. apply N.mod_small.
  destruct (N.eq_dec (N.lxor (Byte.to_N x) (Byte.to_N y)) 0%N) as [->|Hne]; [done|].
  apply N.log2_lt_pow2 with (b := 8%N); [lia|].
  eapply N.le_lt_trans; [apply N.log2_lxor|].
  assert (∀ b, N.log2 (Byte.to_N b) < 8)%N as Hb by (by intros []).
  apply N.max_lub_lt; apply Hb.
Qed.

Lemma xor_byte_swap x y z : xor_byte (xor_byte x y) z = xor_byte (xor_byte x z) y.
Proof.
  apply (inj Byte.to_N). rewrite !xor_byte_N, !N.lxor_assoc. f_equal. apply N.lxor_comm.
Qed.

(** The accumulator of a leaf, and a digest folded into it. *)
Definition norm (l : bytes) : bytes := match l with [] => replicate 32 x00 | _ => l end.
Definition fold_in (l h : bytes) : bytes := zip_with xor_byte (norm l) h.

Lemma length_fold_in l h :
  l = [] ∨ length l = 32%nat → length h = 32%nat → length (fold_in l h) = 32%nat.
Proof.
  intros Hl Hh. unfold fold_in. rewrite length_zip_with, Hh.
  destruct Hl as [->|Hl]; [done|]. destruct l; [done|]. simpl norm. rewrite Hl. done.
Qed.

Lemma norm_32 l : length l = 32%nat → norm l = l.
Proof. by destruct l. Qed.

Lemma fold_in_swap l g h :
  l = [] ∨ length l = 32%nat → length g = 32%nat → length h = 32%nat →
  fold_in (fold_in l g) h = fold_in (fold_in l h) g.
Proof.
  intros Hl Hg Hh. unfold fold_in at 1 3.
  rewrite !norm_32 by (by apply length_fold_in). unfold fold_in.
  assert (length (norm l) = 32%nat) as Hn.
  { destruct Hl as [->|Hl]; [done|]. by rewrite norm_32. }
  apply list_eq. intros i. rewrite !lookup_zip_with.
  destruct (norm l !! i), (g !! i), (h !! i); simpl; try done. by rewrite xor_byte_swap.
Qed.

(** The array index of a key's leaf. *)
Definition slot (t : Tree) (key : bytes) : nat := Z.to_nat (leafCount t + Bucket t key).

Lemma slot_leaf t key : tree_wf t → slot t key = (Z.to_nat (leafCount t) + Z.to_nat (Bucket t key))%nat.
Proof. intros Ht. pose proof (Bucket_range t key Ht). pose proof (tw_pos t Ht). unfold slot. lia. Qed.

Lemma leaf_ok t i :
  tree_wf t → (Z.to_nat (leafCount t) <= i)%nat → nd t i = [] ∨ length (nd t i) = 32%nat.
Proof.
  intros Ht Hi. unfold nd. destruct (tnodes t !! i) as [b|] eqn:E; simpl; [|by left].
  pose proof (tw_pos t Ht). eapply (tw_leaves t Ht); [done|lia].
Qed.

Lemma Add_eq t key blob :
  tree_wf t →
  Add t key blob = Ok (mkTree (leafCount t)
    (<[slot t key := fold_in (nd t (slot t key)) (entry_hash key blob)]> (tnodes t))).
Proof.
  intros Ht. pose proof (Bucket_range t key Ht) as Hb. pose proof (tw_pos t Ht) as Hp.
  pose proof (tw_nodes t Ht) as Hn. unfold Add. rewrite i64_small by lia.
  rewrite node_at_nd by lia. cbv beta iota zeta delta [mbind gres_bind]. fold (slot t key).
  assert (Z.to_nat (leafCount t) <= slot t key)%nat as Hs by (unfold slot; lia).
  pose proof (leaf_ok t (slot t key) Ht Hs) as Hl. fold (norm (nd t (slot t key))).
  assert (length (norm (nd t (slot t key))) = 32%nat) as H32.
  { destruct Hl as [->|Hl]; [done|]. by rewrite norm_32. }
  unfold len at 1. rewrite H32. cbn [Z.ltb]. change (Z.of_nat 32 <? 32)%Z with false. cbv iota.
  rewrite set_node_ok by lia. fold (slot t key).
  unfold fold_in. rewrite take_ge, drop_ge, app_nil_r by lia. done.
Qed.

Lemma Add_wf t key blob : tree_wf t → ∃ t', Add t key blob = Ok t' ∧ tree_wf t' ∧ leafCount t' = leafCount t.
Proof.
  intros Ht. rewrite Add_eq by done. eexists. split; [reflexivity|]. split; [|done].
  destruct Ht as [H1 H2 H3] eqn:HH. split; simpl; [done|by unfold len in *; rewrite length_insert|].
  intros i b [(<- & <- & _)|[_ Hb]]%list_lookup_insert_Some Hi; [|by eapply H3].
  right. apply length_fold_in; [|apply length_sum256]. apply leaf_ok; [done|]. lia.
Qed.

(** A tree after adding entries in order. *)
Definition add_all (t : Tree) (es : list (bytes * bytes)) : gres binerr Tree :=
  foldl (λ r e, do t <- r; Add t e.1 e.2) (Ok t) es.

Lemma add_all_app t es es' : add_all t (es ++ es') = do t <- add_all t es; add_all t es'.
Proof.
  unfold add_all. rewrite foldl_app. destruct (foldl _ (Ok t) es) as [u|err|]; simpl; [done|..];
    induction es' as [|x es' IH]; done.
Qed.

Lemma add_all_wf t es :
  tree_wf t → ∃ t', add_all t es = Ok t' ∧ tree_wf t' ∧ leafCount t' = leafCount t.
Proof.
  revert t. induction es as [|[k b] es IH]; intros t Ht; [by exists t|].
  destruct (Add_wf t k b Ht) as (t1 & E1 & H1 & L1).
  destruct (IH t1 H1) as (t2 & E2 & H2 & L2). exists t2. split; [|split; [done|congruence]].
  unfold add_all. simpl. rewrite E1. exact E2.
Qed.

Lemma Add_swap t k b k' b' :
  tree_wf t → add_all t [(k, b); (k', b')] = add_all t [(k', b'); (k, b)].
Proof.
  intros Ht. unfold add_all. simpl.
  destruct (Add_wf t k b Ht) as (t1 & E1 & H1 & L1). destruct (Add_wf t k' b' Ht) as (t2 & E2 & H2 & L2).
  rewrite E1, E2. simpl. rewrite !Add_eq by done.
  assert (∀ u x, leafCount u = leafCount t → slot u x = slot t x) as Hslot.
  { intros u x E. unfold slot, Bucket. by rewrite E. }
  rewrite (Hslot t1 k'), (Hslot t2 k), L1, L2 by done. do 2 f_equal.
  rewrite Add_eq in E1, E2 by done. injection E1 as <-. injection E2 as <-. simpl.
  pose proof (tw_nodes t Ht) as Hn.
  assert (∀ x, slot t x < length (tnodes t))%nat as Hlt.
  { intros x. pose proof (Bucket_range t x Ht). pose proof (tw_pos t Ht). unfold slot, len in *. lia. }
  rewrite !nd_insert by done. destruct (decide (slot t k = slot t k')) as [E|Hne].
  - rewrite (decide_True (P := slot t k' = slot t k)) by done.
    rewrite <-E, !list_insert_insert_eq. f_equal.
    apply fold_in_swap; [|apply length_sum256..]. apply leaf_ok; [done|].
    rewrite slot_leaf by done. lia.
  - rewrite (decide_False (P := slot t k' = slot t k)) by done. by rewrite list_insert_insert_ne.
Qed.

Lemma add_all_perm t es es' : tree_wf t → es ≡ₚ es' → add_all t es = add_all t es'.
Proof.
  intros Ht Hp. revert t Ht. induction Hp as [|[k b] es es' _ IH|[k b] [k' b'] es|es1 es2 es3 _ IH1 _ IH2];
    intros t Ht.
  - done.
  - destruct (Add_wf t k b Ht) as (t1 & E1 & H1 & _). unfold add_all. simpl. rewrite E1. by apply IH.
  - etrans; [exact (add_all_app t [(k', b'); (k, b)] es)|].
    rewrite Add_swap by done. symmetry. exact (add_all_app t [(k, b); (k', b')] es).
  - by rewrite IH1, IH2.
Qed.

(** ** New trees *)

Lemma New_wf leaves :
  (leaves <= 2 ^ 42)%Z → ∃ t, New leaves = Ok t ∧ tree_wf t ∧ (leaves <= leafCount t)%Z.
Proof.
  intros Hl. unfold New. assert (∃ k, (0 <= k <= 42)%Z ∧ nextPowerOfTwo leaves = (2 ^ k)%Z ∧ leaves <= 2 ^ k)%Z
    as (k & Hk & E & Hle).
  { unfold nextPowerOfTwo. case_bool; [by exists 0%Z; simpl; split_and!; try lia|].
    exists (Z.log2_up leaves). rewrite shiftl_len_log2_up by lia. split_and!; [apply Z.log2_up_nonneg| |done|].
    - apply Z.log2_up_le_pow2; lia.
    - apply Z.log2_up_spec. lia. }
  assert (0 < 2 ^ k <= 2 ^ 42)%Z as Hp by (split; [apply Z.pow_pos_nonneg; lia|apply Z.pow_le_mono_r; lia]).
  rewrite E, i64_small by lia. unfold make_panics. repeat case_bool; simpl; try lia.
  eexists. split; [reflexivity|]. split; [|done]. split; simpl.
  - exists k. split; [lia|done].
  - unfold len. rewrite length_replicate. lia.
  - intros i b [-> _]%lookup_replicate _. by left.
Qed.

(** ** Internal nodes *)

(** The digest of a node's children. *)
Definition children_hash (t : Tree) (i : nat) : bytes := sum256 (nd t (2 * i) ++ nd t (2 * i + 1)).

Lemma root_loop_spec t k :
  (0 < leafCount t)%Z → len (tnodes t) = (2 * leafCount t)%Z → (Z.of_nat k < leafCount t)%Z →
  (∀ i, (k < i)%nat → (Z.of_nat i < leafCount t)%Z → nd t i = children_hash t i) →
  ∃ t', root_loop k t = Ok t' ∧ leafCount t' = leafCount t ∧ len (tnodes t') = len (tnodes t)
    ∧ (∀ i, (leafCount t <= Z.of_nat i)%Z → nd t' i = nd t i)
    ∧ (∀ i, (0 < i)%nat → (Z.of_nat i < leafCount t)%Z → nd t' i = children_hash t' i).
Proof.
  revert t. induction k as [|k IH]; intros t Hpos Hlen Hk Hdone; cbn [root_loop].
  { exists t. by split_and!. }
  cbv zeta. rewrite !node_at_nd by lia. cbn [mbind gres_bind]. rewrite set_node_ok by lia.
  cbn [mbind gres_bind]. rewrite Nat2Z.id.
  set (v := sum256 _). set (t1 := mkTree (leafCount t) (<[S k := v]> (tnodes t))).
  assert (S k < length (tnodes t))%nat as Hlt by (unfold len in Hlen; lia).
  assert (∀ j, nd t1 j = if decide (j = S k) then v else nd t j) as Hnd by (intros j; by apply nd_insert).
  assert (len (tnodes t1) = len (tnodes t)) as Hl1 by (unfold t1, len; simpl; by rewrite length_insert).
  destruct (IH t1) as (t' & E & L & N & Hle & Hin); [done|by rewrite Hl1|unfold t1; simpl; lia| |].
  { intros i Hi Hic. change (leafCount t1) with (leafCount t) in Hic. unfold children_hash. rewrite !Hnd.
    rewrite (decide_False (P := (2 * i)%nat = S k)), (decide_False (P := (2 * i + 1)%nat = S k)) by lia.
    case_decide as Ei; [|apply Hdone; lia]. subst i v. do 2 f_equal; unfold nd; do 2 f_equal; lia. }
  exists t'. split_and!; [done|done|by rewrite N| |exact Hin].
  intros i Hi. rewrite Hle by done. rewrite Hnd, decide_False; [done|]. lia.
Qed.

(** [Root] keeps the leaves and makes every internal node the digest of its
    children. *)
Definition hashed (t : Tree) : Prop :=
  ∀ i, (0 < i)%nat → (Z.of_nat i < leafCount t)%Z → nd t i = children_hash t i.

Lemma Root_spec t :
  tree_wf t → ∃ t', Root t = Ok (t', nd t' 1) ∧ tree_wf t' ∧ leafCount t' = leafCount t
    ∧ hashed t' ∧ ∀ b, leaf t' b = leaf t b.
Proof.
  intros Ht. pose proof (tw_pos t Ht) as Hp. pose proof (tw_nodes t Ht) as Hn. unfold Root.
  rewrite i64_small by lia.
  destruct (root_loop_spec t (Z.to_nat (leafCount t - 1))) as (t' & -> & L & N & Hle & Hin); [lia..| |].
  { intros i Hi Hic. lia. }
  cbn [mbind gres_bind]. rewrite node_at_nd by lia. cbn [mbind gres_bind]. exists t'.
  split; [done|]. split_and!; [|done|by intros i; rewrite L; apply Hin|].
  - split; [destruct (tw_count t Ht) as (k & ? & ?); exists k; split; [done|congruence]|congruence|].
    intros i b Hb Hi. rewrite L in Hi. specialize (Hle i Hi). unfold nd in Hle. rewrite Hb in Hle. simpl in Hle.
    rewrite Hle. apply leaf_ok; [done|lia].
  - intros b. unfold leaf. rewrite L. apply Hle. lia.
Qed.

(** ** Comparing *)

Lemma collect_S fuel t o start diffs :
  collect (S fuel) t o start diffs =
  (do a <- node_at t start;
   do b <- node_at o start;
   if bool_decide (a = b) then Ok diffs
   else if (leafCount t <=? start)%Z then Ok (diffs ++ [start - leafCount t])%Z
   else do diffs <- collect fuel t o (2 * start) diffs; collect fuel t o (2 * start + 1) diffs).
Proof. done. Qed.

Section compare.
Context (t o : Tree) (Ht : tree_wf t) (Ho : tree_wf o) (Hc : leafCount o = leafCount t).
Context (Hht : hashed t) (Hho : hashed o).

(** No two different pairs of children at the same place have the same digest. *)
Definition no_alias : Prop :=
  ∀ i, (0 < i)%nat → (Z.of_nat i < leafCount t)%Z → children_hash t i = children_hash o i →
    nd t (2 * i) = nd o (2 * i) ∧ nd t (2 * i + 1) = nd o (2 * i + 1).

(** The buckets below node [start] at height [h]. *)
Definition below_node (start h : nat) : list nat := seq (start * 2 ^ h - Z.to_nat (leafCount t)) (2 ^ h).

Definition differing (bs : list nat) : list Z :=
  Z.of_nat <$> filter (λ b, leaf t b ≠ leaf o b) bs.

Definition at_height (start h : nat) : Prop :=
  (Z.to_nat (leafCount t) <= start * 2 ^ h)%nat ∧ ((start + 1) * 2 ^ h <= 2 * Z.to_nat (leafCount t))%nat.

Lemma below_node_S start h :
  at_height start (S h) → below_node start (S h) = below_node (2 * start) h ++ below_node (2 * start + 1) h.
Proof.
  intros [H1 H2]. unfold below_node. rewrite Nat.pow_succ_r' in *.
  replace (2 ^ h + (2 ^ h + 0))%nat with (2 ^ h + 2 ^ h)%nat by lia.
  replace (2 * 2 ^ h)%nat with (2 ^ h + 2 ^ h)%nat by lia. rewrite seq_app. f_equal; f_equal; nia.
Qed.

Lemma at_height_S start h :
  at_height start (S h) → at_height (2 * start) h ∧ at_height (2 * start + 1) h
    ∧ (Z.of_nat start < leafCount t)%Z ∧ (0 < start)%nat.
Proof.
  intros [H1 H2]. unfold at_height. rewrite Nat.pow_succ_r' in *. pose proof (tw_pos t Ht).
  assert (0 < 2 ^ h)%nat by (apply Nat.neq_0_lt_0, Nat.pow_nonzero; lia).
  split_and!; nia.
Qed.

Lemma equal_below start h :
  no_alias → at_height start h → nd t start = nd o start → differing (below_node start h) = [].
Proof.
  intros Hna. revert start. induction h as [|h IH]; intros start Hh E.
  - unfold differing, below_node. rewrite Nat.pow_0_r, Nat.mul_1_r. simpl.
    destruct Hh as [Hh _]. rewrite Nat.pow_0_r, Nat.mul_1_r in Hh.
    rewrite filter_none; [done|]. intros b ->%list_elem_of_singleton Hne. apply Hne.
    unfold leaf. rewrite Hc. replace (_ + _)%nat with start by lia. done.
  - destruct (at_height_S start h Hh) as (H1 & H2 & H3 & H4). rewrite below_node_S by done.
    rewrite Hht, Hho in E by (try done; by rewrite ?Hc). destruct (Hna start H4 H3 E) as [E1 E2].
    unfold differing. rewrite filter_app, fmap_app. fold (differing (below_node (2 * start) h)).
    fold (differing (below_node (2 * start + 1) h)). by rewrite (IH _ H1), (IH _ H2).
Qed.

Lemma at_height_bound start h : at_height start h → (Z.of_nat start < len (tnodes t))%Z ∧ (Z.of_nat start < len (tnodes o))%Z.
Proof.
  intros [H1 H2]. rewrite (tw_nodes t Ht), (tw_nodes o Ho), Hc. pose proof (tw_pos t Ht).
  assert (0 < 2 ^ h)%nat by (apply Nat.neq_0_lt_0, Nat.pow_nonzero; lia). nia.
Qed.

Lemma collect_spec start h acc :
  no_alias → at_height start h →
  collect (S h) t o (Z.of_nat start) acc = Ok (acc ++ differing (below_node start h)).
Proof.
  intros Hna. revert start acc. induction h as [|h IH]; intros start acc Hh;
    (destruct (at_height_bound start _ Hh) as [B1 B2]); rewrite collect_S;
    rewrite !node_at_nd by lia; cbn [mbind gres_bind]; rewrite !Nat2Z.id.
  - case_bool_decide as E; [by rewrite (equal_below start 0), app_nil_r|].
    destruct Hh as [Hh _]. rewrite Nat.pow_0_r, Nat.mul_1_r in Hh. pose proof (tw_pos t Ht).
    case_bool; [|lia].
    do 2 f_equal. unfold differing, below_node. rewrite Nat.pow_0_r, Nat.mul_1_r. simpl.
    rewrite filter_all; [simpl; do 2 f_equal; lia|].
    intros b ->%list_elem_of_singleton. unfold leaf. rewrite Hc.
    replace (_ + _)%nat with start by lia. done.
  - case_bool_decide as E; [by rewrite (equal_below start (S h)), app_nil_r|].
    destruct (at_height_S start h Hh) as (H1 & H2 & H3 & H4). case_bool; [lia|].
    replace (2 * Z.of_nat start)%Z with (Z.of_nat (2 * start)) by lia. rewrite IH by done.
    cbn [mbind gres_bind]. replace (Z.of_nat (2 * start) + 1)%Z with (Z.of_nat (2 * start + 1)) by lia.
    rewrite IH by done. rewrite below_node_S by done. unfold differing.
    by rewrite filter_app, fmap_app, <-app_assoc.
Qed.
End compare.

Lemma Diff_spec t o :
  tree_wf t → tree_wf o → leafCount o = leafCount t →
  ∃ t' o', Root t = Ok (t', nd t' 1) ∧ Root o = Ok (o', nd o' 1) ∧
    (no_alias t' o' →
     Diff t o = Ok (t', o', Z.of_nat <$> filter (λ b, leaf t b ≠ leaf o b) (seq 0 (Z.to_nat (leafCount t))))).
Proof.
  intros Ht Ho Hc. destruct (Root_spec t Ht) as (t' & Et & Wt & Lt & Ht' & Hl).
  destruct (Root_spec o Ho) as (o' & Eo & Wo & Lo & Ho' & Hl'). exists t', o'.
  split; [done|]. split; [done|]. intros Hna. unfold Diff. rewrite Hc, Z.eqb_refl. cbn [negb].
  rewrite Et. cbn [mbind gres_bind]. rewrite Eo. cbn [mbind gres_bind].
  destruct (tw_count t' Wt) as (k & Hk & Hlc). rewrite Hlc, Z.log2_up_pow2 by lia.
  assert (Z.to_nat (2 ^ k) = 2 ^ Z.to_nat k)%nat as Hpow 
    by (apply Nat2Z.inj; rewrite Z2Nat.id, Nat2Z.inj_pow, Z2Nat.id by (try apply Z.pow_nonneg; lia); done).
  pose proof (collect_spec t' o' Wt Wo ltac:(congruence) Ht' Ho' 1 (Z.to_nat k) [] Hna) as Hcol.
  change (Z.of_nat 1) with 1%Z in Hcol. rewrite Hcol.
  2:{ split; rewrite Hlc, Hpow; lia. }
  cbn [mbind gres_bind app]. do 2 f_equal. unfold differing, below_node.
  rewrite Hlc, Hpow, Nat.mul_1_l, Nat.sub_diag, <-Lt, Hlc, Hpow. f_equal.
  apply list_filter_iff. intros b. by rewrite Hl, Hl'.
Qed.

(** ** The codec *)

Definition leaves (t : Tree) : list bytes := drop (Z.to_nat (leafCount t)) (tnodes t).
Definition enc_leaf (b : bytes) : bytes := be 4 (N.of_nat (length b)) ++ b.

Lemma length_leaves t : tree_wf t → length (leaves t) = Z.to_nat (leafCount t).
Proof.
  intros Ht. pose proof (tw_nodes t Ht). pose proof (tw_pos t Ht).
  unfold leaves, len in *. rewrite length_drop. lia.
Qed.

Lemma leaves_ok t : tree_wf t → Forall (λ b, b = [] ∨ length b = 32%nat) (leaves t).
Proof.
  intros Ht. apply Forall_lookup_2. intros i b Hb. unfold leaves in Hb. rewrite lookup_drop in Hb.
  eapply (tw_leaves t Ht); [exact Hb|]. pose proof (tw_pos t Ht). lia.
Qed.

Lemma encode_leaves_eq t l n buf :
  (0 <= l)%Z → (l + Z.of_nat n = len (tnodes t))%Z →
  Forall (λ b, b = [] ∨ length b = 32%nat) (drop (Z.to_nat l) (tnodes t)) →
  encode_leaves t l n buf = Ok (buf ++ concat (enc_leaf <$> drop (Z.to_nat l) (tnodes t))).
Proof.
  revert l buf. induction n as [|n IH]; intros l buf Hl Hn Hf; simpl.
  { rewrite drop_ge by (unfold len in *; lia). by rewrite app_nil_r. }
  rewrite node_at_nd by lia. cbn [mbind gres_bind].
  destruct (lookup_lt_is_Some_2 (tnodes t) (Z.to_nat l)) as [b Hb]; [unfold len in *; lia|].
  rewrite (drop_S _ _ _ Hb) in Hf |- *. replace (S (Z.to_nat l)) with (Z.to_nat (l + 1)) in * by lia.
  apply Forall_cons in Hf as [Hb32 Hf]. rewrite IH by (try done; lia).
  unfold nd. rewrite Hb. simpl. unfold PutUint32, enc_leaf.
  rewrite u32_small by (destruct Hb32 as [->| ->]; done). by rewrite <-!app_assoc.
Qed.

Lemma Encode_tree_eq t :
  tree_wf t → (leafCount t < 2 ^ 32)%Z →
  Encode t = Ok (be 4 (Z.to_N (leafCount t)) ++ concat (enc_leaf <$> leaves t)).
Proof.
  intros Ht Hlt. pose proof (tw_pos t Ht). pose proof (tw_nodes t Ht). unfold Encode.
  rewrite encode_leaves_eq by (try lia; by apply leaves_ok).
  unfold PutUint32, u32_of_int. by rewrite Z.mod_small by lia.
Qed.

Lemma decode_leaf_reads b : b = [] ∨ length b = 32%nat → reads decode_leaf b (enc_leaf b).
Proof.
  intros Hb. unfold enc_leaf. apply (reads_bind Uint32 (N.of_nat (length b)) _
    (λ n b cursor, if (n =? 0)%N then Ok ([], cursor) else Bytes b cursor (Z.of_N n))).
  - apply Uint32_reads. destruct Hb as [->| ->]; done.
  - destruct Hb as [->|Hb]; [apply reads_ret|]. rewrite Hb. simpl. apply Bytes_reads. unfold len. by rewrite Hb.
Qed.

#[export] Instance decode_leaf_reader : Reader decode_leaf.
Proof.
  apply (reader_bind Uint32 (λ n b cursor,
    if (n =? 0)%N then Ok ([], cursor) else Bytes b cursor (Z.of_N n))); [apply _|].
  intros n. apply (reader_if (n =? 0)%N (λ _ c, Ok ([], c)) (λ b c, Bytes b c (Z.of_N n))); apply _.
Qed.

(** Filling the upper half of the array is reading a list of leaves. *)
Lemma decode_loop b (lc : N) n acc cursor :
  (lc < 2 ^ 31)%N → (N.of_nat n + N.of_nat (length acc) = lc)%N →
  for_nat n (decode_step b lc)
    (N.of_nat (length acc), cursor, replicate (N.to_nat lc) [] ++ acc ++ replicate n [])
  = do (ls, cursor) <- for_nat n (λ '(acc, off), do (a, off) <- decode_leaf b off; Ok (acc ++ [a], off)) (acc, cursor);
    Ok (lc, cursor, replicate (N.to_nat lc) [] ++ ls).
Proof.
  intros Hlc. revert acc cursor. induction n as [|n IH]; intros acc cursor Hn; simpl.
  { rewrite app_nil_r. do 2 f_equal. f_equal. lia. }
  destruct (decode_leaf b cursor) as [[a c1]|e|]; simpl; [|done..].
  rewrite u32_small by lia. case_bool.
  { rewrite !length_app, length_replicate in *. simpl in *. lia. }
  simpl. rewrite <-IH; [|rewrite length_app; simpl; lia]. f_equal. f_equal; [f_equal; rewrite length_app; simpl; lia|].
  rewrite insert_app_r_alt by (rewrite length_replicate; lia). f_equal. rewrite length_replicate.
  rewrite insert_app_r_alt by lia. rewrite <-app_assoc. f_equal.
  replace (N.to_nat (lc + N.of_nat (length acc)) - N.to_nat lc - length acc)%nat with 0%nat by lia. done.
Qed.

Lemma Decode_tree_eq b :
  (∀ lc c, Uint32 b 0 = Ok (lc, c) → (lc < 2 ^ 31)%N) →
  Decode b = do (lc, c) <- Uint32 b 0; do (ls, _) <- read_list decode_leaf lc b c;
             Ok (mkTree (Z.of_N lc) (replicate (N.to_nat lc) [] ++ ls)).
Proof.
  intros Hlc. unfold Decode. destruct (Uint32 b 0) as [[lc c]|e|] eqn:E; simpl; [|done..].
  specialize (Hlc lc c eq_refl). rewrite u32_small by lia. unfold read_list. rewrite !for_range_nat.
  pose proof (decode_loop b lc (N.to_nat lc) [] c Hlc ltac:(simpl; lia)) as H.
  cbn [length app] in H. change (N.of_nat 0) with 0%N in H.
  replace (N.to_nat (lc * 2)) with (N.to_nat lc + N.to_nat lc)%nat by lia.
  rewrite replicate_add, H.
  by destruct (for_nat (N.to_nat lc) _ ([], c)) as [[ls c']| |].
Qed.

Lemma Uint32_Decode_tree t :
  tree_wf t → (leafCount t < 2 ^ 31)%Z →
  ∃ wire, Encode t = Ok wire
    ∧ (∀ junk, Decode (wire ++ junk)
               = Ok (mkTree (leafCount t) (replicate (Z.to_nat (leafCount t)) [] ++ leaves t)))
    ∧ (∀ p, strict_prefix p wire → Decode p = Err ErrMalformed).
Proof.
  intros Ht Hlt. pose proof (tw_pos t Ht) as Hp. exists (be 4 (Z.to_N (leafCount t)) ++ concat (enc_leaf <$> leaves t)).
  split; [by apply Encode_tree_eq; [|lia]|]. set (lc := Z.to_N (leafCount t)).
  assert (reads Uint32 lc (be 4 lc)) as Hu by (apply Uint32_reads; lia).
  assert (reads (read_list decode_leaf lc) (leaves t) (concat (enc_leaf <$> leaves t))) as Hl.
  { apply read_list_reads; [|rewrite length_leaves by done; lia]. apply Forall2_fmap_r, Forall_Forall2_diag.
    eapply Forall_impl; [by apply leaves_ok|]. apply decode_leaf_reads. }
  split.
  - intros junk. pose proof (at_cursor_start ((be 4 lc ++ concat (enc_leaf <$> leaves t)) ++ junk)) as Hc.
    rewrite <-app_assoc in Hc. pose proof (reads_ok _ _ _ Hu _ _ _ Hc) as E1.
    apply at_cursor_step in Hc. pose proof (reads_ok _ _ _ Hl _ _ _ Hc) as E2. rewrite app_assoc in E1, E2.
    rewrite Decode_tree_eq; rewrite E1; [|intros ? ? [= <- _]; lia].
    cbn [mbind gres_bind]. rewrite E2. cbn [mbind gres_bind]. do 2 f_equal; [lia|]. do 2 f_equal. lia.
  - intros p [Hs|(q & -> & Hs)]%strict_prefix_app.
    + pose proof (reads_truncated _ _ _ Hu p 0%Z p (at_cursor_start p) Hs) as E1.
      unfold Decode. by rewrite E1.
    + pose proof (at_cursor_start (be 4 lc ++ q)) as Hc. pose proof (reads_ok _ _ _ Hu _ _ _ Hc) as E1.
      apply at_cursor_step in Hc. pose proof (reads_truncated _ _ _ Hl _ _ _ Hc Hs) as E2.
      rewrite Decode_tree_eq; rewrite E1; [|intros ? ? [= <- _]; lia].
      cbn [mbind gres_bind]. by rewrite E2.
Qed.

Lemma Decode_tree_safe b :
  (∀ lc c, Uint32 b 0 = Ok (lc, c) → (lc < 2 ^ 31)%N) →
  Decode b = Err ErrMalformed ∨ ∃ t, Decode b = Ok t.
Proof.
  intros Hlc. rewrite Decode_tree_eq by done.
  pose proof (reader_safe (dec := Uint32) b 0 ltac:(lia)) as Hu. destruct (Uint32 b 0) as [[lc c]|e|]; simpl; [|by subst; left|done].
  pose proof (reader_safe (dec := read_list decode_leaf lc) b c ltac:(lia)) as Hr.
  destruct (read_list decode_leaf lc b c) as [[ls c']|e|]; simpl; [by right; eauto|by subst; left|done].
Qed.

(** ** Properties *)

(** A tree depends only on the set of entries.  Adding the same (key, blob)
    pairs in any order, as two replicas ranging over their maps do, gives the
    same tree, never panics, and keeps it well formed. *)
Theorem Add_order_independent (n : Z) (es es' : list (bytes * bytes)) :
  (n <= 2 ^ 42)%Z → es ≡ₚ es' →
  ∃ t0 t, New n = Ok t0 ∧ add_all t0 es = Ok t ∧ add_all t0 es' = Ok t ∧ tree_wf t
    ∧ (∀ key, 0 <= Bucket t key < leafCount t)%Z.
Proof.
  intros Hn Hp. destruct (New_wf n Hn) as (t0 & H0 & W0 & _).
  destruct (add_all_wf t0 es W0) as (t & Ha & W & _). exists t0, t.
  split_and!; [done..| |done|intros key; by apply Bucket_range]. by rewrite <-(add_all_perm t0 es es').
Qed.

(** C26: [Diff] finds exactly the buckets that differ.  On well-formed trees of
    equal leaf count it never panics and its descent terminates; provided no two
    different pairs of children met at the same place have the same SHA-256
    digest, it returns the differing buckets, all of them, in order. *)
Theorem Diff_exact (t o : Tree) :
  tree_wf t → tree_wf o → leafCount o = leafCount t →
  ∃ t' o', Root t = Ok (t', nd t' 1) ∧ Root o = Ok (o', nd o' 1) ∧
    (no_alias t' o' →
     ∃ ds, Diff t o = Ok (t', o', ds) ∧ StronglySorted Z.lt ds
       ∧ ∀ b, b ∈ ds ↔ (0 <= b < leafCount t)%Z ∧ leaf t (Z.to_nat b) ≠ leaf o (Z.to_nat b)).
Proof.
  intros Ht Ho Hc. destruct (Diff_spec t o Ht Ho Hc) as (t' & o' & E1 & E2 & E). exists t', o'.
  split; [done|]. split; [done|]. intros Hna. eexists. split; [by apply E|]. split.
  - clear E. generalize 0%nat. induction (Z.to_nat (leafCount t)) as [|m IH]; intros a; simpl; [constructor|].
    rewrite filter_cons. case_decide; [|apply IH]. simpl. constructor; [apply IH|].
    apply Forall_forall. intros x (y & -> & [_ Hy]%list_elem_of_filter)%list_elem_of_fmap.
    apply elem_of_seq in Hy. lia.
  - intros b. rewrite list_elem_of_fmap. setoid_rewrite list_elem_of_filter. setoid_rewrite elem_of_seq.
    split.
    + intros (y & -> & Hne & Hy). rewrite Nat2Z.id. split; [lia|done].
    + intros [Hb Hne]. exists (Z.to_nat b). split_and!; [lia|done|lia..].
Qed.

(** A tree crosses the wire.  A peer decodes an encoded tree, even followed by
    other bytes, to a tree with the same leaf count and leaves; a truncated one
    is malformed.  Any input whose leaf count is below 2^31 decodes to a tree or
    to [ErrMalformed]. *)
Theorem tree_codec (t : Tree) (b : bytes) :
  tree_wf t → (leafCount t < 2 ^ 31)%Z → (∀ lc c, Uint32 b 0 = Ok (lc, c) → (lc < 2 ^ 31)%N) →
  (∃ wire, Encode t = Ok wire
    ∧ (∀ junk, ∃ u, Decode (wire ++ junk) = Ok u ∧ leafCount u = leafCount t ∧ leaves u = leaves t)
    ∧ (∀ p, strict_prefix p wire → Decode p = Err ErrMalformed))
  ∧ (Decode b = Err ErrMalformed ∨ ∃ u, Decode b = Ok u).
Proof.
  intros Ht Hlt Hb. split; [|by apply Decode_tree_safe].
  destruct (Uint32_Decode_tree t Ht Hlt) as (wire & H1 & H2 & H3). exists wire. split_and!; [done| |done].
  intros junk. eexists. split; [apply H2|]. split; [done|]. unfold leaves. simpl.
  by rewrite drop_app_length' by (by rewrite length_replicate).
Qed.

(** A leaf count of 2^31 makes the [uint32] product [leafCount*2] wrap to zero, so
    an eight-byte input makes [Decode] index an empty slice. *)
Lemma Decode_panics : Decode [x80; x00; x00; x00; x00; x00; x00; x00] = Panic.
Proof. vm_compute. reflexivity. Qed.

(** A requested leaf count above 2^61 overflows the size given to [make], or
    leaves a tree with a negative leaf count and no nodes. *)
Lemma New_overflows :
  New (2 ^ 61 + 1) = Panic ∧ New (2 ^ 62 + 1) = Ok (mkTree (- 2 ^ 63) [])
  ∧ Add (mkTree (- 2 ^ 63) []) (str "k") (str "v") = Panic.
Proof. vm_compute. done. Qed.

(** ** Witnesses *)

Definition es_a : list (bytes * bytes) := [(str "k1", str "v1"); (str "k2", str "v2"); (str "k3", str "v3")].
Definition es_b : list (bytes * bytes) := [(str "k3", str "v3"); (str "k1", str "v1"); (str "k2", str "other")].

Definition tree_of (es : list (bytes * bytes)) : Tree :=
  match New 4 with
  | Ok t0 => match add_all t0 es with Ok t => t | _ => mkTree 0 [] end
  | _ => mkTree 0 []
  end.

Lemma tree_of_wf es : tree_wf (tree_of es) ∧ leafCount (tree_of es) = 4%Z.
Proof.
  unfold tree_of. destruct (New_wf 4 ltac:(lia)) as (t0 & E & W & _). rewrite E.
  destruct (add_all_wf t0 es W) as (t & -> & Wt & L). split; [done|]. rewrite L.
  vm_compute in E. by injection E as <-.
Qed.

Lemma Add_order_independent_witness :
  ∃ t0 t, New 4 = Ok t0 ∧ add_all t0 es_a = Ok t ∧ add_all t0 (reverse es_a) = Ok t.
Proof.
  destruct (Add_order_independent 4 es_a (reverse es_a)) as (t0 & t & H0 & H1 & H2 & _).
  - lia.
  - symmetry. apply reverse_Permutation.
  - exists t0, t. split; [exact H0|]. split; [exact H1|exact H2].
Defined.

(** The inputs of the internal digests of the two trees, compared pairwise. *)
Definition no_alias_b (t o : Tree) : bool :=
  forallb (λ i, negb (bool_decide (children_hash t i = children_hash o i))
    || (bool_decide (nd t (2 * i) = nd o (2 * i)) && bool_decide (nd t (2 * i + 1) = nd o (2 * i + 1))))
    (seq 1 (Z.to_nat (leafCount t) - 1)).

Lemma no_alias_b_spec t o : no_alias_b t o = true → no_alias t o.
Proof.
  unfold no_alias_b. rewrite forallb_forall. intros H i Hi Hlt Heq.
  assert (In i (seq 1 (Z.to_nat (leafCount t) - 1))) as Hin by (apply in_seq; lia).
  specialize (H i Hin). rewrite (bool_decide_eq_true_2 _ Heq) in H. simpl in H.
  apply andb_true_iff in H as [H1%bool_decide_eq_true H2%bool_decide_eq_true]. done.
Qed.

Definition rooted (t : Tree) : Tree := match Root t with Ok (t', _) => t' | _ => t end.

Lemma Diff_exact_witness :
  ∃ t' o' ds, Diff (tree_of es_a) (tree_of es_b) = Ok (t', o', ds) ∧ StronglySorted Z.lt ds.
Proof.
  destruct (tree_of_wf es_a) as [Wa La]. destruct (tree_of_wf es_b) as [Wb Lb].
  destruct (Diff_exact (tree_of es_a) (tree_of es_b)) as (t' & o' & E1 & E2 & E).
  - exact Wa.
  - exact Wb.
  - rewrite La, Lb. reflexivity.
  - assert (t' = rooted (tree_of es_a)) as Et by (unfold rooted; rewrite E1; reflexivity).
    assert (o' = rooted (tree_of es_b)) as Eo by (unfold rooted; rewrite E2; reflexivity).
    destruct E as (ds & E & Hds & _).
    + rewrite Et, Eo. apply no_alias_b_spec. vm_compute. reflexivity.
    + exists t', o', ds. split; [exact E|exact Hds].
Defined.

(** The two trees differ, and the descent says where. *)
Example Diff_example : ∃ t' o', Diff (tree_of es_a) (tree_of es_b) = Ok (t', o', [Bucket (tree_of es_a) (str "k2")]).
Proof. eexists _, _. vm_compute. reflexivity. Qed.

Lemma tree_codec_witness :
  ∃ wire u, Encode (tree_of es_a) = Ok wire ∧ Decode (wire ++ str "tail") = Ok u
    ∧ leaves u = leaves (tree_of es_a).
Proof.
  destruct (tree_of_wf es_a) as [Wa La].
  destruct (tree_codec (tree_of es_a) []) as [(wire & E & H & _) _].
  - exact Wa.
  - rewrite La. reflexivity.
  - intros lc c Hu. discriminate.
  - destruct (H (str "tail")) as (u & Hu & _ & Hl). exists wire, u. split; [exact E|]. split; [exact Hu|exact Hl].
Defined.
