(* ===== verification/GoQuote.v ===== *)
(** * Quoting in error texts

    The verb [%q] of Go's fmt, which the protocol errors use: [strconv.QuoteRune] on
    a byte and [strconv.Quote] on bytes read from the network.  Runes above 0xFF are
    printable or not by Unicode's tables, which are the argument [isPrint]. *)

From S2P Require Import Prelude.

(** ** UTF-8 *)

Definition RuneError : N := 65533.

Definition in_range (lo hi : N) (b : byte) : bool := (lo <=? Byte.to_N b)%N && (Byte.to_N b <=? hi)%N.
Definition continuation : byte → bool := in_range 128 191.
Definition low6 (b : byte) : N := N.land (Byte.to_N b) 63.

(** The bytes allowed after a first byte of two, three and four. *)
Definition second3 (b0 : byte) : byte → bool :=
  in_range (if (Byte.to_N b0 =? 224)%N then 160 else 128) (if (Byte.to_N b0 =? 237)%N then 159 else 191).
Definition second4 (b0 : byte) : byte → bool :=
  in_range (if (Byte.to_N b0 =? 240)%N then 144 else 128) (if (Byte.to_N b0 =? 244)%N then 143 else 191).

(** [utf8.DecodeRuneInString]: the rune and its width; an encoding that is not
    valid is [RuneError] of width one. *)
Definition DecodeRune (s : bytes) : N * nat :=
  match s with
  | [] => (RuneError, 0%nat)
  | b0 :: s =>
      if (Byte.to_N b0 <? 128)%N then (Byte.to_N b0, 1%nat)
      else if in_range 194 223 b0 then
        match s with
        | b1 :: _ =>
            if continuation b1 then (N.land (Byte.to_N b0) 31 * 64 + low6 b1, 2%nat)%N else (RuneError, 1%nat)
        | _ => (RuneError, 1%nat)
        end
      else if in_range 224 239 b0 then
        match s with
        | b1 :: b2 :: _ =>
            if second3 b0 b1 && continuation b2
            then ((N.land (Byte.to_N b0) 15 * 64 + low6 b1) * 64 + low6 b2, 3%nat)%N else (RuneError, 1%nat)
        | _ => (RuneError, 1%nat)
        end
      else if in_range 240 244 b0 then
        match s with
        | b1 :: b2 :: b3 :: _ =>
            if second4 b0 b1 && continuation b2 && continuation b3
            then (((N.land (Byte.to_N b0) 7 * 64 + low6 b1) * 64 + low6 b2) * 64 + low6 b3, 4%nat)%N
            else (RuneError, 1%nat)
        | _ => (RuneError, 1%nat)
        end
      else (RuneError, 1%nat)
  end.

(** [utf8.AppendRune] of a valid rune. *)
Definition tail6 (r : N) (shift : N) : byte := byte_of_N (128 + N.land (N.shiftr r shift) 63).
Definition EncodeRune (r : N) : bytes :=
  if (r <? 128)%N then [byte_of_N r]
  else if (r <? 2048)%N then [byte_of_N (192 + N.shiftr r 6); tail6 r 0]
  else if (r <? 65536)%N then [byte_of_N (224 + N.shiftr r 12); tail6 r 6; tail6 r 0]
  else [byte_of_N (240 + N.shiftr r 18); tail6 r 12; tail6 r 6; tail6 r 0].

(** ** Quoting *)

Definition hex_digit (n : N) : byte := byte_of_N (if (n <? 10)%N then 48 + n else 87 + n).
Fixpoint hex (digits : nat) (n : N) : bytes :=
  match digits with O => [] | S k => hex_digit (N.land (N.shiftr n (4 * N.of_nat k)) 15) :: hex k n end.

Section quote.
Variable isPrint : N → bool.

(** [strconv.IsPrint]. *)
Definition IsPrint (r : N) : bool :=
  if (r <=? 255)%N then
    (32 <=? r)%N && (r <? 127)%N || (161 <=? r)%N && negb (r =? 173)%N
  else isPrint r.

(** The escapes with a letter. *)
Definition escapes : list (N * byte) :=
  [(7, x61); (8, x62); (12, x66); (10, x6e); (13, x72); (9, x74); (11, x76)]%N.

(** [appendEscapedRune]; [quote] is the delimiter. *)
Definition appendEscapedRune (quote r : N) : bytes :=
  if (r =? quote)%N || (r =? 92)%N then [x5c; byte_of_N r]
  else if IsPrint r then EncodeRune r
  else
    match find (λ e, (e.1 =? r)%N) escapes with
    | Some (_, c) => [x5c; c]
    | None =>
        if (r <? 32)%N || (r =? 127)%N then [x5c; x78] ++ hex 2 r
        else if (r <? 65536)%N then [x5c; x75] ++ hex 4 r
        else [x5c; x55] ++ hex 8 r
    end.

(** The loop of [appendQuotedWith]; a round consumes a byte at least. *)
Fixpoint quoted (fuel : nat) (s : bytes) : bytes :=
  match fuel, s with
  | S fuel, b :: _ =>
      let '(r, width) := DecodeRune s in
      (if (width =? 1)%nat && (r =? RuneError)%N then [x5c; x78] ++ hex 2 (Byte.to_N b)
       else appendEscapedRune 34 r)
      ++ quoted fuel (drop width s)
  | _, _ => []
  end.

(** [%q] of a byte slice and of a byte. *)
Definition Quote (s : bytes) : bytes := [x22] ++ quoted (length s) s ++ [x22].
Definition QuoteByte (b : byte) : bytes := [x27] ++ appendEscapedRune 39 (Byte.to_N b) ++ [x27].
End quote.

(** ** Lemmas *)

Lemma DecodeRune_width b s : (1 <= (DecodeRune (b :: s)).2)%nat.
Proof.
  unfold DecodeRune. repeat (match goal with |- context [if ?c then _ else _] => destruct c end; simpl; [lia|]).
  all: destruct s as [|b1 [|b2 [|b3 s]]]; repeat case_match; simpl; lia.
Qed.

(** The length is enough fuel. *)
Lemma quoted_fuel p fuel s : (length s <= fuel)%nat → quoted p fuel s = quoted p (length s) s.
Proof.
  revert s. induction fuel as [fuel IH] using lt_wf_ind. intros [|b s] Hf; [by destruct fuel|].
  destruct fuel as [|fuel]; simpl in Hf; [lia|]. cbn [quoted length].
  pose proof (DecodeRune_width b s) as Hw. destruct (DecodeRune (b :: s)) as [r w]. simpl in Hw. f_equal.
  destruct w as [|w]; [lia|]. cbn [drop]. pose proof (length_drop s w).
  rewrite (IH fuel), (IH (length s)) by (rewrite ?length_drop; lia). done.
Qed.

(** What is quoted stays on one line: no byte is a control character. *)
Definition graphic (b : byte) : Prop := (32 <= Byte.to_N b)%N.

Lemma land_bound n k : (N.land n (2 ^ k - 1) < 2 ^ k)%N.
Proof. replace (2 ^ k - 1)%N with (N.ones k) by (rewrite N.ones_equiv; lia). rewrite N.land_ones. apply N.mod_lt. lia. Qed.

Lemma low6_lt b : (low6 b < 64)%N.
Proof. apply (land_bound _ 6). Qed.

Lemma DecodeRune_lt s : ((DecodeRune s).1 < 2 ^ 21)%N.
Proof.
  unfold DecodeRune. destruct s as [|b0 s]; [done|].
  pose proof (byte_to_N_lt b0). pose proof (land_bound (Byte.to_N b0) 5). pose proof (land_bound (Byte.to_N b0) 4).
  pose proof (land_bound (Byte.to_N b0) 3). change (2 ^ 5 - 1)%N with 31%N in *.
  change (2 ^ 4 - 1)%N with 15%N in *. change (2 ^ 3 - 1)%N with 7%N in *.
  change (2 ^ 21)%N with 2097152%N. change RuneError with 65533%N.
  destruct s as [|b1 [|b2 [|b3 s]]];
    try pose proof (low6_lt b1); try pose proof (low6_lt b2); try pose proof (low6_lt b3);
    repeat case_match; cbn [fst]; unfold RuneError; simpl in *; lia.
Qed.

Lemma graphic_of_N n : (32 <= n < 256)%N → graphic (byte_of_N n).
Proof. intros H. unfold graphic. rewrite byte_to_N_of_N, N.mod_small by lia. lia. Qed.

Lemma hex_graphic k n : Forall graphic (hex k n).
Proof.
  induction k as [|k IH]; constructor; [|done]. apply graphic_of_N.
  pose proof (land_bound (N.shiftr n (4 * N.of_nat k)) 4) as H. change (2 ^ 4 - 1)%N with 15%N in H.
  change (2 ^ 4)%N with 16%N in H. case_match; lia.
Qed.

Lemma tail6_graphic r k : graphic (tail6 r k).
Proof.
  apply graphic_of_N. pose proof (land_bound (N.shiftr r k) 6) as H. change (2 ^ 6 - 1)%N with 63%N in H.
  change (2 ^ 6)%N with 64%N in H. lia.
Qed.

Lemma EncodeRune_graphic r : (32 <= r < 2 ^ 21)%N → Forall graphic (EncodeRune r).
Proof.
  intros H. change (2 ^ 21)%N with 2097152%N in H. unfold EncodeRune.
  assert (∀ k, N.shiftr r k = r / 2 ^ k)%N as Hs by (intros; apply N.shiftr_div_pow2).
  assert (∀ n a b c, r < b * c → c <= a → 32 <= n → n + a <= 256 → 32 <= n + r / b < 256)%N as Hd.
  { intros n a b c H1 H2 H3 H4. pose proof (N.Div0.div_lt_upper_bound r b c H1) as H5.
    generalize dependent (r / b)%N. intros q H5. lia. }
  destruct (N.ltb_spec r 128); [|destruct (N.ltb_spec r 2048); [|destruct (N.ltb_spec r 65536)]];
    repeat constructor; try apply tail6_graphic; apply graphic_of_N; rewrite ?Hs; [lia|..].
  - apply (Hd 192 64 (2 ^ 6) 32)%N; lia.
  - apply (Hd 224 32 (2 ^ 12) 16)%N; lia.
  - apply (Hd 240 16 (2 ^ 18) 8)%N; lia.
Qed.

Lemma escaped_graphic p q r : (32 <= q < 127)%N → (r < 2 ^ 21)%N → Forall graphic (appendEscapedRune p q r).
Proof.
  intros Hq Hr. unfold appendEscapedRune. destruct (_ || _) eqn:E1.
  { assert (r = q ∨ r = 92)%N as Hqr by (by rewrite orb_true_iff, !N.eqb_eq in E1).
    repeat constructor; [done|]. apply graphic_of_N. destruct Hqr; subst; lia. }
  destruct (IsPrint p r) eqn:E2.
  { apply EncodeRune_graphic. split; [|done]. unfold IsPrint in E2. destruct (N.leb_spec r 255); [|lia].
    rewrite orb_true_iff, !andb_true_iff, !N.leb_le in E2. destruct E2 as [[? _]|[? _]]; lia. }
  destruct (find _ _) as [[? c]|] eqn:E3.
  { apply find_some in E3 as [E3 _]. repeat constructor; [done|]. unfold escapes in E3. simpl in E3.
    repeat destruct E3 as [E3|E3]; try (injection E3 as <- <-; done). done. }
  repeat case_match; apply Forall_app; split; try apply hex_graphic; repeat constructor; done.
Qed.

Lemma quoted_graphic p fuel s : Forall graphic (quoted p fuel s).
Proof.
  revert s. induction fuel as [|fuel IH]; intros [|b s]; [done..|]. cbn [quoted].
  pose proof (DecodeRune_lt (b :: s)) as Hr. destruct (DecodeRune (b :: s)) as [r w]. simpl in Hr.
  apply Forall_app. split; [|done]. case_match; [|apply escaped_graphic; lia || done].
  apply Forall_app. split; [by repeat constructor|apply hex_graphic].
Qed.

Lemma Quote_graphic p s : Forall graphic (Quote p s).
Proof. apply Forall_app. split; [by repeat constructor|]. apply Forall_app. split; [apply quoted_graphic|by repeat constructor]. Qed.

Lemma QuoteByte_graphic p b : Forall graphic (QuoteByte p b).
Proof.
  pose proof (byte_to_N_lt b). apply Forall_app. split; [by repeat constructor|].
  apply Forall_app. split; [apply escaped_graphic; lia|by repeat constructor].
Qed.

Lemma Itoa_graphic z : Forall graphic (Itoa z).
Proof.
  assert (∀ fuel n acc, Forall graphic acc → Forall graphic (digits fuel n acc)) as Hd.
  { induction fuel as [|fuel IH]; intros n acc Ha; [done|]. cbn [digits].
    destruct (N.ltb_spec n 10); [|apply IH]; constructor; try done; apply graphic_of_N; [lia|].
    pose proof (N.mod_lt n 10 ltac:(done)) as Hm. generalize dependent (n mod 10)%N. intros; lia. }
  unfold Itoa. case_match; repeat constructor; try done; by apply Hd.
Qed.

Example quote_examples :
  let p := (λ _, true) in
  QuoteByte p x2b = str "'+'" ∧ QuoteByte p x00 = str "'\x00'" ∧ QuoteByte p x27 = str "'\''"
  ∧ QuoteByte p xe9 = x27 :: [xc3; xa9; x27] ∧ QuoteByte p x85 = str "'\u0085'"
  ∧ Quote p (str "1a" ++ [x0a; xff]) = x22 :: str "1a\n\xff" ++ [x22]
  ∧ Quote p [xe2; x82; xac] = [x22; xe2; x82; xac; x22].
Proof. vm_compute. done. Qed.
