(* ===== verification/Resp.v ===== *)
(** * RESP2 (internal/protocol/resp.go, command.go)

    A reader is the list of bytes still to come, its end the end of the stream;
    [bufio.Reader.ReadSlice] looks for its delimiter within the 4096 bytes of the
    default buffer.  The writer never fails, so the only error [Encode] meets is
    its own.  A [Value] is the tagged union of the source: [VNone] is the zero
    [Value{}], a nil bulk is [VBulk None], a nil array [VNullArray]. *)

From S2P Require Import Prelude GoQuote.

(** ** Data *)

Inductive Value : Type :=
| VNone
| VSimple (s : bytes)
| VError (s : bytes)
| VInteger (i : Z)
| VBulk (b : option bytes)
| VNullArray
| VArray (elems : list Value).

(** [io.EOF], [io.ErrUnexpectedEOF], [bufio.ErrBufferFull], and the
    [ProtocolError]s by the call that builds them. *)
Inductive respErr : Type :=
| EOF
| UnexpectedEOF
| BufferFull
| ErrMissingCRLF
| ErrEmptyInteger
| ErrInvalidInteger (b : bytes)
| ErrBulkTooLarge (n : Z)
| ErrArrayTooLarge (n : Z)
| ErrUnknownType (tag : byte)
| ErrCannotEncode (tag : byte)
| ErrEmptyCommand
| ErrNameNotBulk (tag : byte)
| ErrArgNotBulk (tag : byte).

Definition typeSimpleString : byte := x2b.
Definition typeError : byte := x2d.
Definition typeInteger : byte := x3a.
Definition typeBulkString : byte := x24.
Definition typeArray : byte := x2a.
Definition crlf : bytes := [x0d; x0a].

Definition maxBulkSize : Z := Z.shiftl 512 20.
Definition maxArrayCount : Z := Z.shiftl 1 20.
Definition bufioSize : nat := 4096.

(** The field [typeTag]. *)
Definition typeTag (v : Value) : byte :=
  match v with
  | VNone => x00
  | VSimple _ => typeSimpleString
  | VError _ => typeError
  | VInteger _ => typeInteger
  | VBulk _ => typeBulkString
  | VNullArray | VArray _ => typeArray
  end.

(** [Error()] of an error, with the format strings of the calls that build the
    protocol errors; [isPrint] is Unicode's table for [%q]. *)
Definition protocol_text (isPrint : N → bool) (e : respErr) : option bytes :=
  match e with
  | EOF | UnexpectedEOF | BufferFull => None
  | ErrMissingCRLF => Some (str "line missing CRLF terminator")
  | ErrEmptyInteger => Some (str "empty integer")
  | ErrInvalidInteger b => Some (str "invalid integer " ++ Quote isPrint b)
  | ErrBulkTooLarge n => Some (str "bulk too large: " ++ Itoa n ++ str " bytes")
  | ErrArrayTooLarge n => Some (str "array too large: " ++ Itoa n ++ str " elements")
  | ErrUnknownType tag => Some (str "unknown type byte " ++ QuoteByte isPrint tag)
  | ErrCannotEncode tag => Some (str "cannot encode unknown type " ++ QuoteByte isPrint tag)
  | ErrEmptyCommand => Some (str "command must be a non-empty array")
  | ErrNameNotBulk tag => Some (str "command name must be a bulk string, got type " ++ QuoteByte isPrint tag)
  | ErrArgNotBulk tag => Some (str "command argument must be a bulk string, got type " ++ QuoteByte isPrint tag)
  end.

Definition message (isPrint : N → bool) (e : respErr) : bytes :=
  match e with
  | EOF => str "EOF"
  | UnexpectedEOF => str "unexpected EOF"
  | BufferFull => str "bufio: buffer full"
  | _ => str "protocol: " ++ default [] (protocol_text isPrint e)
  end.

(** ** Constructors and accessors *)

Definition SimpleString (s : bytes) : Value := VSimple s.
Definition Error (msg : bytes) : Value := VError msg.
Definition Integer (i : Z) : Value := VInteger i.
Definition BulkString (b : option bytes) : Value := VBulk b.

(** [None] is a nil slice, which is what a call without arguments passes. *)
Definition Array (elems : option (list Value)) : Value :=
  match elems with None => VNullArray | Some l => VArray l end.

Definition AsError (v : Value) : option bytes := match v with VError s => Some s | _ => None end.
Definition AsBulk (v : Value) : option bytes := match v with VBulk (Some b) => Some b | _ => None end.

(** ** Decoding *)

(** [r.ReadSlice('\n')] with [n] bytes of buffer left. *)
Fixpoint read_slice (n : nat) (r : bytes) : gres respErr (bytes * bytes) :=
  match n with
  | O => Err BufferFull
  | S n =>
      match r with
      | [] => Err EOF
      | c :: r =>
          if bool_decide (c = x0a) then Ok ([c], r)
          else do (line, r) <- read_slice n r; Ok (c :: line, r)
      end
  end.

(** The line without its last two bytes, the second last of which must be CR. *)
Definition readLine (r : bytes) : gres respErr (bytes * bytes) :=
  do (line, r) <- read_slice bufioSize r;
  match reverse line with
  | _ :: c :: rest => if bool_decide (c = x0d) then Ok (reverse rest, r) else Err ErrMissingCRLF
  | _ => Err ErrMissingCRLF
  end.

(** The digit loop of [parseInt], in [int64]. *)
Fixpoint parse_digits (b : bytes) (n : Z) (ds : bytes) : gres respErr Z :=
  match ds with
  | [] => Ok n
  | c :: ds => if is_digit c then parse_digits b (i64 (decimal n c)) ds else Err (ErrInvalidInteger b)
  end.

Definition parseInt (b : bytes) : gres respErr Z :=
  match b with
  | [] => Err ErrEmptyInteger
  | c :: ds =>
      if bool_decide (c = x2d) then
        if (len ds =? 0)%Z then Err (ErrInvalidInteger b)
        else do n <- parse_digits b 0 ds; Ok (i64 (- n))
      else parse_digits b 0 b
  end.

(** [io.ReadFull] of [n] bytes, then [Discard] of the CRLF. *)
Definition read_bulk (n : Z) (r : bytes) : gres respErr (bytes * bytes) :=
  if (len r <? n)%Z then Err (if (len r =? 0)%Z then EOF else UnexpectedEOF)
  else
    let rest := drop (Z.to_nat n) r in
    if (len rest <? 2)%Z then Err EOF else Ok (take (Z.to_nat n) r, drop 2 rest).

(** [fuel] bounds the nesting; every level consumes a byte, so the [fuel] of
    [Decode] is never used up ([Panic] marks that, theorem [Decode_total]). *)
Fixpoint decode (fuel : nat) (r : bytes) : gres respErr (Value * bytes) :=
  match fuel with
  | O => Panic
  | S fuel =>
      match r with
      | [] => Err EOF
      | tag :: r =>
          do (line, r) <- readLine r;
          if bool_decide (tag = typeSimpleString) then Ok (SimpleString line, r)
          else if bool_decide (tag = typeError) then Ok (Error line, r)
          else if bool_decide (tag = typeInteger) then
            do parsedInt <- parseInt line; Ok (Integer parsedInt, r)
          else if bool_decide (tag = typeBulkString) then
            do lineLen <- parseInt line;
            if (lineLen <? 0)%Z then Ok (BulkString None, r)
            else if (maxBulkSize <? lineLen)%Z then Err (ErrBulkTooLarge lineLen)
            else do (buf, r) <- read_bulk lineLen r; Ok (BulkString (Some buf), r)
          else if bool_decide (tag = typeArray) then
            do lineLen <- parseInt line;
            if (lineLen <? 0)%Z then Ok (VNullArray, r)
            else if (maxArrayCount <? lineLen)%Z then Err (ErrArrayTooLarge lineLen)
            else
              do (elems, r) <-
                for_range (Z.to_N lineLen) (λ '(acc, r), do (v, r) <- decode fuel r; Ok (acc ++ [v], r)) ([], r);
              Ok (Array (Some elems), r)
          else Err (ErrUnknownType tag)
      end
  end.

Definition Decode (r : bytes) : gres respErr (Value * bytes) := decode (S (length r)) r.

(** ** Encoding *)

Record MemoizedWriter : Type := mkWriter { w : bytes; werr : option respErr }.

Definition writeBytes (ew : MemoizedWriter) (b : bytes) : MemoizedWriter :=
  match werr ew with None => mkWriter (w ew ++ b) None | Some _ => ew end.
Definition writeString (ew : MemoizedWriter) (s : bytes) : MemoizedWriter := writeBytes ew s.
Definition writeByte (ew : MemoizedWriter) (c : byte) : MemoizedWriter := writeBytes ew [c].
Definition writeInt (ew : MemoizedWriter) (n : Z) : MemoizedWriter := writeBytes ew (Itoa n).

Fixpoint encode (v : Value) (ew : MemoizedWriter) : MemoizedWriter :=
  match v with
  | VSimple s => writeString (writeString (writeByte ew typeSimpleString) s) crlf
  | VError s => writeString (writeString (writeByte ew typeError) s) crlf
  | VInteger i => writeString (writeInt (writeByte ew typeInteger) i) crlf
  | VBulk None => writeString ew (str "$-1" ++ crlf)
  | VBulk (Some b) =>
      writeString (writeBytes (writeString (writeInt (writeByte ew typeBulkString) (len b)) crlf) b) crlf
  | VNullArray => writeString ew (str "*-1" ++ crlf)
  | VArray elems =>
      foldl (λ ew v, encode v ew)
        (writeString (writeInt (writeByte ew typeArray) (len elems)) crlf) elems
  | VNone => mkWriter (w ew) (Some (ErrCannotEncode (typeTag v)))
  end.

(** The bytes written and the first error. *)
Definition Encode (v : Value) : bytes * option respErr :=
  let ew := encode v (mkWriter [] None) in (w ew, werr ew).

(** ** Commands *)

Record Command : Type := mkCommand { Name : bytes; Args : list bytes }.

(** The argument loop: a null bulk is a nil slice. *)
Fixpoint command_args (vs : list Value) : gres respErr (list bytes) :=
  match vs with
  | [] => Ok []
  | VBulk b :: vs => do args <- command_args vs; Ok (default [] b :: args)
  | v :: _ => Err (ErrArgNotBulk (typeTag v))
  end.

Definition to_command (v : Value) : gres respErr Command :=
  match v with
  | VArray (VBulk name :: vs) => do args <- command_args vs; Ok (mkCommand (default [] name) args)
  | VArray (v :: _) => Err (ErrNameNotBulk (typeTag v))
  | _ => Err ErrEmptyCommand
  end.

(** ** Consumption *)

(** [r'] is what remains of [r] after reading at least one byte. *)
Definition consumed (r r' : bytes) : Prop := ∃ p, p ≠ [] ∧ r = p ++ r'.

Lemma consumed_trans r1 r2 r3 : consumed r1 r2 → consumed r2 r3 ∨ r2 = r3 → consumed r1 r3.
Proof.
  intros (p & Hp & ->) [(q & _ & ->)| ->]; [|by exists p].
  exists (p ++ q). split; [by destruct p|by rewrite app_assoc].
Qed.

Lemma consumed_length r r' : consumed r r' → (length r' < length r)%nat.
Proof. intros (p & Hp & ->). rewrite length_app. destruct p; [done|simpl; lia]. Qed.

Lemma consumed_cons c r r' : consumed r r' ∨ r = r' → consumed (c :: r) r'.
Proof. intros [(p & _ & ->)| ->]; [by exists (c :: p)|by exists [c]]. Qed.

Lemma read_slice_spec n r :
  match read_slice n r with
  | Ok (_, r') => consumed r r'
  | Err _ => True
  | Panic => False
  end.
Proof.
  revert r. induction n as [|n IH]; intros r; simpl; [done|]. destruct r as [|c r]; [done|].
  case_bool_decide; [apply consumed_cons; by right|]. specialize (IH r).
  destruct (read_slice n r) as [[l r']| |]; simpl; [|done..]. apply consumed_cons. by left.
Qed.

Lemma readLine_spec r :
  match readLine r with
  | Ok (_, r') => consumed r r'
  | Err _ => True
  | Panic => False
  end.
Proof.
  unfold readLine. pose proof (read_slice_spec bufioSize r) as H.
  destruct (read_slice bufioSize r) as [[l r']| |]; simpl; [|done..].
  destruct (reverse l) as [|? [|c rest]]; [done..|]. by case_bool_decide.
Qed.

Lemma parse_digits_no_panic b n ds : parse_digits b n ds ≠ Panic.
Proof. revert n. induction ds as [|c ds IH]; intros n; simpl; [done|]. by destruct (is_digit c). Qed.

Lemma parseInt_no_panic b : parseInt b ≠ Panic.
Proof.
  destruct b as [|c ds]; simpl; [done|]. case_bool_decide; [|apply (parse_digits_no_panic _ 0 (c :: ds))].
  case_bool; [done|]. pose proof (parse_digits_no_panic (c :: ds) 0 ds).
  by destruct (parse_digits (c :: ds) 0 ds).
Qed.

Lemma read_bulk_spec n r :
  (0 <= n)%Z →
  match read_bulk n r with
  | Ok (b, r') => consumed r r' ∧ len b = n
  | Err _ => True
  | Panic => False
  end.
Proof.
  intros Hn. unfold read_bulk. destruct (Z.ltb_spec (len r) n) as [|H1]; [done|]. cbv zeta.
  destruct (Z.ltb_spec (len (drop (Z.to_nat n) r)) 2) as [|H2]; [done|].
  unfold len in *. rewrite length_drop in H2. split.
  - exists (take (Z.to_nat n) r ++ take 2 (drop (Z.to_nat n) r)). split.
    + intros E%(f_equal length). rewrite length_app, !length_take, length_drop in E. cbn [length] in E. lia.
    + by rewrite <-app_assoc, !take_drop.
  - rewrite length_take. lia.
Qed.

(** Reading elements of an array: what one element promises, the loop promises. *)
Lemma elems_loop (dec : bytes → gres respErr (Value * bytes)) m n acc r :
  (length r <= m)%nat →
  (∀ r, (length r <= m)%nat → match dec r with Ok (_, r') => consumed r r' | Err _ => True | Panic => False end) →
  match for_nat n (λ '(acc, r), do (v, r) <- dec r; Ok (acc ++ [v], r)) (acc, r) with
  | Ok (_, r') => consumed r r' ∨ r = r'
  | Err _ => True
  | Panic => False
  end.
Proof.
  intros Hm Hdec. revert acc r Hm. induction n as [|n IH]; intros acc r Hm; simpl; [by right|].
  pose proof (Hdec r Hm) as Hd. destruct (dec r) as [[v r1]| |]; simpl; [|done..].
  pose proof (consumed_length _ _ Hd). specialize (IH (acc ++ [v]) r1 ltac:(lia)).
  destruct (for_nat n _ (acc ++ [v], r1)) as [[l r2]| |]; [|done..]. left. by eapply consumed_trans.
Qed.

Lemma decode_spec fuel r :
  (length r < fuel)%nat →
  match decode fuel r with
  | Ok (_, r') => consumed r r'
  | Err _ => True
  | Panic => False
  end.
Proof.
  revert r. induction fuel as [|fuel IH]; intros r Hf; [lia|]. cbn [decode].
  destruct r as [|tag r]; [done|]. pose proof (readLine_spec r) as Hl.
  destruct (readLine r) as [[line r1]| |]; cbn [mbind gres_bind]; [|done..].
  pose proof (consumed_length _ _ Hl) as Hlen. simpl in Hf.
  assert (consumed (tag :: r) r1) as Hc by (apply consumed_cons; by left).
  repeat (case_bool_decide; [done || idtac|]); try done.
  - pose proof (parseInt_no_panic line). by destruct (parseInt line).
  - pose proof (parseInt_no_panic line). destruct (parseInt line) as [n| |]; cbn [mbind gres_bind]; [|done..].
    destruct (Z.ltb_spec n 0); [done|]. case_bool; [done|]. pose proof (read_bulk_spec n r1 ltac:(lia)) as Hb.
    destruct (read_bulk n r1) as [[b r2]| |]; cbn [mbind gres_bind]; [|done..].
    eapply consumed_trans; [exact Hc|left; apply Hb].
  - pose proof (parseInt_no_panic line). destruct (parseInt line) as [n| |]; cbn [mbind gres_bind]; [|done..].
    destruct (Z.ltb_spec n 0); [done|]. case_bool; [done|]. rewrite for_range_nat.
    pose proof (elems_loop (decode fuel) (length r1) (N.to_nat (Z.to_N n)) [] r1 ltac:(done)) as He.
    destruct (for_nat _ _ _) as [[l r2]| |]; cbn [mbind gres_bind].
    + eapply consumed_trans; [exact Hc|]. apply He. intros r' Hr'. apply IH. lia.
    + done.
    + apply He. intros r' Hr'. apply IH. lia.
Qed.

(** ** Lines and integers *)

Lemma read_slice_line n l r :
  x0a ∉ l → (length l < n)%nat → read_slice n (l ++ x0a :: r) = Ok (l ++ [x0a], r).
Proof.
  revert n. induction l as [|c l IH]; intros n Hl Hn; destruct n as [|n]; simpl in *; try lia.
  - done.
  - rewrite bool_decide_eq_false_2 by set_solver. rewrite IH by (try lia; set_solver). done.
Qed.

Lemma readLine_line l r :
  x0a ∉ l → (length l + 2 <= bufioSize)%nat → readLine (l ++ crlf ++ r) = Ok (l, r).
Proof.
  intros Hl Hn. unfold readLine.
  replace (l ++ crlf ++ r) with ((l ++ [x0d]) ++ x0a :: r) by (by rewrite <-app_assoc).
  rewrite read_slice_line by (rewrite ?length_app; simpl; (lia || set_solver)). cbn [mbind gres_bind].
  rewrite !reverse_app. simpl. by rewrite reverse_involutive.
Qed.

(** Reading digits in [int64] is reading them exactly and wrapping once. *)
Lemma i64_decimal n c : i64 (decimal (i64 n) c) = i64 (decimal n c).
Proof.
  unfold i64, decimal. set (d := (Z.of_N (Byte.to_N c) - 48)%Z). f_equal.
  replace (((n + 2 ^ 63) mod 2 ^ 64 - 2 ^ 63) * 10 + d + 2 ^ 63)%Z
    with ((n + 2 ^ 63) mod 2 ^ 64 * 10 + (d - 9 * 2 ^ 63))%Z by lia.
  rewrite <-Zplus_mod_idemp_l, Zmult_mod_idemp_l, Zplus_mod_idemp_l. f_equal. lia.
Qed.

Lemma parse_digits_value b ds n :
  Forall (λ c, is_digit c = true) ds →
  parse_digits b (i64 n) ds = Ok (i64 (foldl decimal n ds)).
Proof.
  intros H. revert n. induction H as [|c ds Hc _ IH]; intros n; simpl; [done|].
  by rewrite Hc, i64_decimal, IH.
Qed.

Lemma i64_opp n : i64 (- i64 n) = i64 (- n).
Proof.
  unfold i64. f_equal.
  replace (- ((n + 2 ^ 63) mod 2 ^ 64 - 2 ^ 63) + 2 ^ 63)%Z with (2 ^ 64 - (n + 2 ^ 63) mod 2 ^ 64)%Z by lia.
  rewrite Zminus_mod_idemp_r. f_equal. lia.
Qed.

(** What [Itoa] writes for an [int64]. *)
Lemma Itoa_digits z :
  (- 2 ^ 63 <= z < 2 ^ 63)%Z →
  ∃ ds, Forall (λ c, is_digit c = true) ds ∧ ds ≠ [] ∧ (length ds <= 20)%nat
    ∧ foldl decimal 0%Z ds = Z.abs z ∧ Itoa z = (if (z <? 0)%Z then x2d :: ds else ds).
Proof.
  intros Hz. destruct (digits_value 20 (Z.to_N (Z.abs z)) []) as (ds & E & H1 & H2 & H3 & H4); [lia| |].
  { change (10 ^ N.of_nat 20)%N with 100000000000000000000%N. lia. }
  rewrite app_nil_r in E. exists ds. split_and!; try done; [rewrite H4; lia|].
  unfold Itoa. destruct (Z.ltb_spec z 0).
  - replace (Z.to_N (- z)) with (Z.to_N (Z.abs z)) by lia. by rewrite E.
  - replace (Z.to_N z) with (Z.to_N (Z.abs z)) by lia. by rewrite E.
Qed.

Lemma digit_not c d : is_digit c = true → is_digit d = false → c ≠ d.
Proof. congruence. Qed.

Lemma parseInt_Itoa z : (- 2 ^ 63 <= z < 2 ^ 63)%Z → parseInt (Itoa z) = Ok z.
Proof.
  intros Hz. destruct (Itoa_digits z Hz) as (ds & H1 & H2 & _ & H4 & ->).
  assert (∀ b, parse_digits b 0 ds = Ok (i64 (Z.abs z))) as Hp.
  { intros b. rewrite <-H4. change 0%Z with (i64 0%Z) at 1. by apply parse_digits_value. }
  destruct ds as [|c ds]; [done|]. destruct (Z.ltb_spec z 0).
  - cbn [parseInt]. rewrite bool_decide_eq_true_2 by done. rewrite len_cons.
    destruct (Z.eqb_spec (1 + len ds) 0) as [E|_]; [pose proof (len_nonneg ds); lia|].
    rewrite Hp. cbn [mbind gres_bind]. rewrite i64_opp. f_equal. rewrite i64_small; lia.
  - cbn [parseInt]. apply Forall_cons in H1 as [Hc _].
    rewrite bool_decide_eq_false_2 by (by apply (digit_not c)). rewrite Hp.
    f_equal. rewrite i64_small; lia.
Qed.

Lemma Itoa_line z :
  (- 2 ^ 63 <= z < 2 ^ 63)%Z → (x0a ∉ Itoa z) ∧ (length (Itoa z) + 2 <= bufioSize)%nat.
Proof.
  intros Hz. destruct (Itoa_digits z Hz) as (ds & H1 & _ & H3 & _ & ->).
  assert (x0a ∉ ds) as Hn.
  { intros Hin. rewrite Forall_forall in H1. by specialize (H1 _ Hin). }
  unfold bufioSize. case_bool; simpl; split; try lia; set_solver.
Qed.

(** The text of an error is one line, whatever bytes it quotes. *)
Lemma message_one_line p e : x0a ∉ message p e.
Proof.
  assert (Forall graphic (message p e)) as H.
  { destruct e; cbv beta iota delta [message protocol_text from_option id]; rewrite ?Forall_app; split_and?;
      first [apply Quote_graphic | apply QuoteByte_graphic | apply Itoa_graphic | by repeat constructor | idtac]. }
  intros Hin. rewrite Forall_forall in H. by specialize (H _ Hin).
Qed.

(** ** Round trip *)

(** Induction over values, with the hypothesis for every element of an array. *)
Lemma Value_elems_ind (P : Value → Prop) :
  P VNone → (∀ s, P (VSimple s)) → (∀ s, P (VError s)) → (∀ i, P (VInteger i)) →
  (∀ b, P (VBulk b)) → P VNullArray → (∀ l, Forall P l → P (VArray l)) → ∀ v, P v.
Proof.
  intros H0 H1 H2 H3 H4 H5 H6. fix IH 1.
  intros [ |s|s|i|b| |l]; [exact H0|apply H1|apply H2|apply H3|apply H4|exact H5|apply H6].
  induction l as [|v l IHl]; constructor; [apply IH|exact IHl].
Qed.

(** A value that RESP can carry: text without a line break that fits a line,
    integers of 64 bits, sizes within the limits of the decoder. *)
Fixpoint wire_ok (v : Value) : Prop :=
  match v with
  | VNone => False
  | VSimple s | VError s => (x0a ∉ s) ∧ (length s + 2 <= bufioSize)%nat
  | VInteger i => (- 2 ^ 63 <= i < 2 ^ 63)%Z
  | VBulk (Some b) => (len b <= maxBulkSize)%Z
  | VBulk None | VNullArray => True
  | VArray l => (len l <= maxArrayCount)%Z ∧ foldr (λ v P, wire_ok v ∧ P) True l
  end.

(** The wire form of a value. *)
Fixpoint wire (v : Value) : bytes :=
  match v with
  | VNone => []
  | VSimple s => typeSimpleString :: s ++ crlf
  | VError s => typeError :: s ++ crlf
  | VInteger i => typeInteger :: Itoa i ++ crlf
  | VBulk None => str "$-1" ++ crlf
  | VBulk (Some b) => typeBulkString :: Itoa (len b) ++ crlf ++ b ++ crlf
  | VNullArray => str "*-1" ++ crlf
  | VArray l => typeArray :: Itoa (len l) ++ crlf ++ concat (wire <$> l)
  end.

Lemma wire_ok_elems l : foldr (λ v P, wire_ok v ∧ P) True l ↔ Forall wire_ok l.
Proof.
  induction l as [|v l IH]; simpl; [split; [constructor|done]|]. rewrite IH. by rewrite Forall_cons.
Qed.

Lemma writeBytes_ok b x : writeBytes (mkWriter b None) x = mkWriter (b ++ x) None.
Proof. done. Qed.

Lemma encode_wire v b : wire_ok v → encode v (mkWriter b None) = mkWriter (b ++ wire v) None.
Proof.
  revert b. induction v as [ |s|s|i|o| |l IH] using Value_elems_ind; intros b Hv;
    cbn [encode wire]; unfold writeString, writeByte, writeInt; try done.
  - rewrite !writeBytes_ok. f_equal. by rewrite <-!app_assoc.
  - rewrite !writeBytes_ok. f_equal. by rewrite <-!app_assoc.
  - rewrite !writeBytes_ok. f_equal. by rewrite <-!app_assoc.
  - destruct o; [|done]. rewrite !writeBytes_ok. f_equal. by rewrite <-!app_assoc.
  - rewrite !writeBytes_ok. destruct Hv as [_ Hl]. rewrite wire_ok_elems in Hl.
    assert (∀ b, foldl (λ ew v, encode v ew) (mkWriter b None) l
      = mkWriter (b ++ concat (wire <$> l)) None) as Hf.
    { clear -IH Hl. induction l as [|v l IHl]; intros b; simpl; [by rewrite app_nil_r|].
      apply Forall_cons in IH as [Hv IH]. apply Forall_cons in Hl as [Hw Hl].
      rewrite Hv by done. rewrite IHl by done. f_equal. by rewrite <-app_assoc. }
    rewrite Hf. f_equal. by rewrite <-!app_assoc.
Qed.

Lemma length_concat_elem v l : v ∈ l → (length (wire v) <= length (concat (wire <$> l)))%nat.
Proof. induction 1; rewrite fmap_cons; cbn [concat]; rewrite length_app; lia. Qed.

Lemma elems_wire dec l acc rest :
  Forall (λ v, ∀ rest, dec (wire v ++ rest) = Ok (v, rest)) l →
  for_nat (length l) (λ '(acc, r), do (v, r) <- dec r; Ok (acc ++ [v], r)) (acc, concat (wire <$> l) ++ rest)
  = Ok (acc ++ l, rest) :> gres respErr (list Value * bytes).
Proof.
  intros H. revert acc. induction H as [|v l Hv _ IH]; intros acc; simpl; [by rewrite app_nil_r|].
  rewrite <-app_assoc, Hv. simpl. rewrite IH. by rewrite <-app_assoc.
Qed.

(** Decide the type-byte tests of [decode] on a known tag. *)
Ltac eval_tag :=
  repeat match goal with
  | |- context [bool_decide (?a = ?b)] =>
      let x := eval vm_compute in (bool_decide (a = b)) in
      change (bool_decide (a = b)) with x
  end; cbv iota.

Lemma read_bulk_app b rest : read_bulk (len b) (b ++ crlf ++ rest) = Ok (b, rest).
Proof.
  pose proof (len_nonneg rest). assert (len (crlf ++ rest) = 2 + len rest)%Z as Hc by (by rewrite len_app).
  unfold read_bulk. destruct (Z.ltb_spec (len (b ++ crlf ++ rest)) (len b)) as [Hlt|_].
  { rewrite len_app, Hc in Hlt. lia. }
  cbv zeta. replace (Z.to_nat (len b)) with (length b) by (unfold len; lia).
  rewrite drop_app_length, take_app_length, Hc. by destruct (Z.ltb_spec (2 + len rest) 2); [lia|].
Qed.

Lemma len_int {A} (l : list A) n : (len l <= n)%Z → (n < 2 ^ 63)%Z → (- 2 ^ 63 <= len l < 2 ^ 63)%Z.
Proof. pose proof (len_nonneg l). lia. Qed.

Lemma decode_wire v fuel rest :
  wire_ok v → (length (wire v) <= fuel)%nat → decode fuel (wire v ++ rest) = Ok (v, rest).
Proof.
  revert fuel rest. induction v as [ |s|s|i|o| |l IH] using Value_elems_ind; intros fuel rest Hv Hf.
  - done.
  - destruct fuel as [|fuel]; [simpl in Hf; lia|]. cbn [wire]. cbn [app decode].
    rewrite <-app_assoc, readLine_line by apply Hv. done.
  - destruct fuel as [|fuel]; [simpl in Hf; lia|]. cbn [wire]. cbn [app decode].
    rewrite <-app_assoc, readLine_line by apply Hv. done.
  - destruct fuel as [|fuel]; [simpl in Hf; lia|]. cbn [wire]. cbn [app decode].
    rewrite <-app_assoc, readLine_line by (apply Itoa_line, Hv). cbn [mbind gres_bind].
    eval_tag. by rewrite parseInt_Itoa.
  - destruct fuel as [|fuel]; [destruct o; simpl in Hf; lia|]. destruct o as [b|]; [|done].
    assert (- 2 ^ 63 <= len b < 2 ^ 63)%Z as Hr by (eapply len_int; [exact Hv|done]).
    cbn [wire]. cbn [app decode]. rewrite <-!app_assoc, readLine_line by (by apply Itoa_line).
    cbn [mbind gres_bind]. eval_tag. rewrite parseInt_Itoa by done.
    cbn [mbind gres_bind]. pose proof (len_nonneg b). simpl in Hv.
    destruct (Z.ltb_spec (len b) 0); [lia|]. destruct (Z.ltb_spec maxBulkSize (len b)); [lia|].
    by rewrite read_bulk_app.
  - destruct fuel as [|fuel]; [simpl in Hf; lia|]. done.
  - destruct fuel as [|fuel]; [simpl in Hf; lia|]. destruct Hv as [Hn Hl]. rewrite wire_ok_elems in Hl.
    assert (- 2 ^ 63 <= len l < 2 ^ 63)%Z as Hr by (eapply len_int; [exact Hn|done]).
    cbn [wire] in *. cbn [app decode]. rewrite <-!app_assoc, readLine_line by (by apply Itoa_line).
    cbn [mbind gres_bind]. eval_tag. rewrite parseInt_Itoa by done.
    cbn [mbind gres_bind]. pose proof (len_nonneg l).
    destruct (Z.ltb_spec (len l) 0); [lia|]. destruct (Z.ltb_spec maxArrayCount (len l)); [lia|].
    rewrite for_range_nat. replace (N.to_nat (Z.to_N (len l))) with (length l) by (unfold len; lia).
    rewrite elems_wire; [done|]. rewrite Forall_forall in *. intros v Hv rest'.
    apply IH; [done|by apply Hl|]. etrans; [by apply length_concat_elem|].
    cbn [length] in Hf. rewrite !length_app in Hf. lia.
Qed.

(** ** Properties *)

(** C27: whatever RESP can carry arrives as it was sent.  Encoding a value and
    decoding the bytes, followed by anything, gives the value back and leaves
    exactly what followed; so pipelined replies are never misaligned. *)
Theorem Decode_Encode_value (v : Value) (rest : bytes) :
  wire_ok v → ∃ bs, Encode v = (bs, None) ∧ Decode (bs ++ rest) = Ok (v, rest).
Proof.
  intros Hv. exists (wire v). unfold Encode. rewrite encode_wire by done. split; [done|].
  unfold Decode. apply decode_wire; [done|]. rewrite length_app. lia.
Qed.

(** Decoding terminates on every stream.  [Decode] returns a value, having
    consumed at least a byte and left a suffix of the stream, or an error; it
    never panics, however malformed or deeply nested the input. *)
Theorem Decode_total (r : bytes) :
  (∃ v r', Decode r = Ok (v, r') ∧ consumed r r') ∨ (∃ e, Decode r = Err e).
Proof.
  pose proof (decode_spec (S (length r)) r ltac:(lia)) as H. unfold Decode.
  destruct (decode _ r) as [[v r']|e|]; [left|right|done]; eauto.
Qed.

(** A request crosses the wire: a command name and its arguments, sent as an
    array of bulk strings within the size limits, are what the server reads. *)
Theorem command_roundtrip (name : bytes) (args : list bytes) (rest : bytes) :
  (len args < maxArrayCount)%Z → Forall (λ b, len b <= maxBulkSize)%Z (name :: args) →
  ∃ bs v, Encode (Array (Some ((λ b, BulkString (Some b)) <$> name :: args))) = (bs, None)
    ∧ Decode (bs ++ rest) = Ok (v, rest) ∧ to_command v = Ok (mkCommand name args).
Proof.
  intros Hn Hl. set (vs := (λ b, BulkString (Some b)) <$> name :: args).
  assert (wire_ok (VArray vs)) as Hv.
  { split.
    - unfold len. unfold vs. rewrite length_fmap. cbn [length]. unfold len in Hn. lia.
    - apply wire_ok_elems. unfold vs. rewrite Forall_fmap. exact Hl. }
  exists (wire (VArray vs)), (VArray vs). split_and!.
  - change (Array (Some vs)) with (VArray vs). unfold Encode. by rewrite encode_wire.
  - unfold Decode. apply decode_wire; [done|]. rewrite length_app. lia.
  - assert (command_args ((λ b, BulkString (Some b)) <$> args) = Ok args) as Ha.
    { clear. induction args as [|a args IH]; [done|]. rewrite fmap_cons. cbn [command_args BulkString].
      by rewrite IH. }
    unfold vs. rewrite fmap_cons. cbn [to_command BulkString]. by rewrite Ha.
Qed.

(** [parseInt] does not notice overflow: twenty digits can name any [int64]. *)
Lemma parseInt_wraps :
  parseInt (str "18446744073709551617") = Ok 1%Z
  ∧ Decode (str "$18446744073709551617" ++ crlf ++ str "x" ++ crlf) = Ok (VBulk (Some (str "x")), []).
Proof. vm_compute. done. Qed.

(** ** Witnesses *)

Lemma Decode_Encode_value_witness :
  ∃ bs, Encode (VArray [VInteger (-7); VBulk None; VArray [VSimple (str "OK"); VBulk (Some crlf)]]) = (bs, None)
    ∧ Decode (bs ++ str "+next") =
      Ok (VArray [VInteger (-7); VBulk None; VArray [VSimple (str "OK"); VBulk (Some crlf)]], str "+next").
Proof.
  apply Decode_Encode_value. simpl. repeat split; try done; try (vm_compute; discriminate).
  - apply (bool_decide_unpack _). vm_compute. exact I.
  - unfold bufioSize. lia.
Defined.

Lemma command_roundtrip_witness :
  ∃ bs v, Encode (Array (Some ((λ b, BulkString (Some b)) <$> [str "SET"; str "k"; str "v"]))) = (bs, None)
    ∧ Decode (bs ++ str "more") = Ok (v, str "more")
    ∧ to_command v = Ok (mkCommand (str "SET") [str "k"; str "v"]).
Proof.
  apply (command_roundtrip (str "SET") [str "k"; str "v"] (str "more")).
  - vm_compute. reflexivity.
  - repeat constructor; vm_compute; discriminate.
Defined.
