(* ===== verification/Replica.v ===== *)
(** * What a replica stores for a key

    Every replicated write, whatever its route (a coordinated SET or DEL, an RSET
    from a coordinator or from hinted handoff, read repair, anti-entropy), is
    one [store.UpdateReplica] whose function decodes the stored blob, reconciles
    versions into it and encodes the result.  This file gives that shape once,
    for any store: what [UpdateReplica] with such a function does to the sibling
    set a replica holds ([update_siblings]). *)

From S2P Require Import Prelude Binenc Vclock Version Sketch Policy MapStore ShardedStore.

(** ** What was decoded can be encoded again *)

Lemma uint_at_bound w data off v off' :
  uint_at w data off = Ok (v, off') → (v < 256 ^ N.of_nat w)%N.
Proof.
  unfold uint_at. case_bool; [done|]. intros E. destruct (slice_from data off) as [s| |]; simp_res.
  eapply N.lt_le_trans; [apply unbe_lt|]. apply N.pow_le_mono_r; [done|]. rewrite length_take. lia.
Qed.

Lemma Bytes_bound data off n v off' : Bytes data off n = Ok (v, off') → (len v <= n)%Z.
Proof.
  unfold Bytes. repeat case_bool; simpl; [done..|]. intros E.
  destruct (slice_from data off); simp_res. unfold len. rewrite length_take. lia.
Qed.

(** [n] iterations of a reader give [n] elements, each read by it. *)
Lemma read_list_Forall {A} (dec : bytes → Z → gres binerr (A * Z)) (Q : A → Prop) n data off xs off' :
  (∀ off a off', dec data off = Ok (a, off') → Q a) →
  read_list dec n data off = Ok (xs, off') → Forall Q xs ∧ length xs = N.to_nat n.
Proof.
  intros HQ. unfold read_list. rewrite for_range_nat.
  enough (∀ k acc off, Forall Q acc →
    for_nat k (λ '(acc, off), do (a, off) <- dec data off; Ok (acc ++ [a], off)) (acc, off) = Ok (xs, off') →
    Forall Q xs ∧ length xs = (length acc + k)%nat) as H by (intros E; by apply (H _ [] off)).
  clear off. induction k as [|k IH]; intros acc off Hacc; simpl.
  { intros H. simp_res. split; [done|lia]. }
  destruct (dec data off) as [[a o]| |] eqn:E; simpl; [|done..]. intros H.
  apply IH in H; [|apply Forall_app; split; [done|by apply Forall_singleton, (HQ off _ o)]].
  rewrite length_app in H. simpl in H. destruct H. split; [done|lia].
Qed.

Lemma decode_entry_wf data off e off' : decode_entry data off = Ok (e, off') → entry_wf e.
Proof.
  unfold decode_entry. rewrite String_eq. unfold Uint16, Uint64.
  destruct (uint_at 2 data off) as [[n o1]| |] eqn:E1; simpl; [|done..].
  destruct (Bytes data o1 (Z.of_N n)) as [[s o2]| |] eqn:E2; simpl; [|done..].
  destruct (uint_at 8 data o2) as [[c o3]| |] eqn:E3; simpl; [|done..]. intros H. simp_res.
  apply uint_at_bound in E1, E3. apply Bytes_bound in E2. split; simpl in *; lia.
Qed.

Lemma decode_clock_wf data n off clk off' :
  decode_clock data n off = Ok (clk, off') →
  map_Forall (λ k c, entry_wf (k, c)) clk ∧ (size clk <= N.to_nat n)%nat.
Proof.
  unfold decode_clock. rewrite read_fold_list.
  destruct (read_list decode_entry n data off) as [[es o]| |] eqn:E; simpl; [|done..].
  apply (read_list_Forall _ entry_wf) in E as [He <-]; [|apply decode_entry_wf]. intros H. simp_res.
  assert (∀ (m : Clock), map_Forall (λ k c, entry_wf (k, c)) m →
    map_Forall (λ k c, entry_wf (k, c)) (foldl (λ (clock : Clock) '(node, counter), <[node:=counter]> clock) m es)
    ∧ (size (foldl (λ (clock : Clock) '(node, counter), <[node:=counter]> clock) m es) <= size m + length es)%nat) as H.
  { induction He as [|[k c] es Hkc _ IH]; intros m Hm; simpl; [split; [done|lia]|].
    destruct (IH (<[k:=c]> m)) as [? Hs]; [by apply map_Forall_insert_2|]. split; [done|].
    rewrite map_size_insert in Hs. destruct (m !! k); simpl in Hs; lia. }
  destruct (H ∅) as [? Hs]; [apply map_Forall_empty|]. split; [done|]. by rewrite map_size_empty in Hs.
Qed.

Lemma int_of_u64_range n : (- 2 ^ 63 <= int_of_u64 n < 2 ^ 63)%Z.
Proof. unfold int_of_u64, i64. pose proof (Z.mod_pos_bound (Z.of_N n + 2 ^ 63) (2 ^ 64)). lia. Qed.

Lemma decode_version_wf data off v off' : decode_version data off = Ok (v, off') → version_wf v.
Proof.
  unfold decode_version, Uint32, Uint64.
  destruct (uint_at 4 data off) as [[n o1]| |] eqn:E1; simpl; [|done..].
  destruct (Bytes data o1 (Z.of_N n)) as [[value o2]| |] eqn:E2; simpl; [|done..].
  destruct (Bool data o2) as [[del o3]| |]; simpl; [|done..].
  destruct (if del then uint_at 8 data o3 else Ok (0%N, o3)) as [[at_ o4]| |] eqn:E4; simpl; [|done..].
  destruct (uint_at 4 data o4) as [[k o5]| |] eqn:E5; simpl; [|done..].
  destruct (decode_clock data k o5) as [[clk o6]| |] eqn:E6; simpl; [|done..]. intros H. simp_res.
  apply uint_at_bound in E1, E5. apply Bytes_bound in E2. apply decode_clock_wf in E6 as [Hc Hs].
  change (256 ^ N.of_nat 4)%N with (2 ^ 32)%N in *. split; simpl.
  - lia.
  - intros x c Hx. apply (Hc x c Hx).
  - intros x c Hx. apply (Hc x c Hx).
  - lia.
  - destruct del; [apply int_of_u64_range|by simplify_eq/=].
Qed.

(** Whatever bytes are decoded, the versions are ones the format can carry. *)
Lemma Decode_wf b vs : Decode b = Ok vs → Forall version_wf vs ∧ (len vs < 2 ^ 32)%Z.
Proof.
  unfold Decode. case_bool; [intros E; simp_res; split; [constructor|done]|].
  unfold Uint32. destruct (uint_at 4 b 0) as [[cnt o]| |] eqn:E1; simpl; [|done..].
  destruct (read_list decode_version cnt b o) as [[ws o']| |] eqn:E2; simpl; [|done..]. intros E. simp_res.
  apply (read_list_Forall _ version_wf) in E2 as [Hw Hl]; [|apply decode_version_wf].
  apply uint_at_bound in E1. change (256 ^ N.of_nat 4)%N with (2 ^ 32)%N in *.
  split; [done|]. unfold len. lia.
Qed.

Lemma decode_or_nil_wf b : Forall version_wf (decode_or_nil b).
Proof. unfold decode_or_nil. destruct (Decode b) eqn:E; [by apply Decode_wf in E as [? _]|done..]. Qed.

(** ** A blob within the size limit is not truncated

    [Encode] writes counts and lengths as [uint32]s; when the whole blob is
    shorter than that, none of them wraps. *)

(** What does not follow from the length of the blob. *)
Record version_ids (v : Version) : Prop := {
  vi_nodes : map_Forall (λ n _, len n < 2 ^ 16)%Z (Clk v);
  vi_clock : clock_wf (Clk v);
  vi_deletedAt : if Deleted v then (- 2 ^ 63 <= DeletedAt v < 2 ^ 63)%Z else DeletedAt v = 0%Z
}.

Lemma version_wf_ids v : version_wf v → version_ids v.
Proof. by intros []. Qed.

Lemma len_entries es : (len es <= len (concat (enc_entry <$> es)))%Z.
Proof.
  induction es as [|e es IH]; [done|]. rewrite fmap_cons, concat_cons, len_app, len_cons.
  enough (1 <= len (enc_entry e))%Z by lia. unfold enc_entry.
  rewrite len_app, len_be. pose proof (len_nonneg (enc_string e.1)). lia.
Qed.

Lemma len_encode_version buf v es :
  version_ids v → range_order (Clk v) es →
  (len buf + 1 + len (Value v) + Z.of_nat (size (Clk v)) <= len (encode_version buf v es))%Z.
Proof.
  intros Hv Hes. unfold encode_version, PutUint32, PutBool, PutUint64.
  assert (Forall entry_wf es).
  { apply Forall_forall. intros [n c] Hin. rewrite Hes, elem_of_map_to_list in Hin.
    split; [by apply (vi_nodes _ Hv n c)|by apply (vi_clock _ Hv n)]. }
  rewrite encode_clock_eq by done. pose proof (len_entries es) as He.
  assert (len es = Z.of_nat (size (Clk v))) as Hs by (unfold len; by rewrite Hes, length_map_to_list).
  destruct (Deleted v); autorewrite with kyria; rewrite ?len_be; lia.
Qed.

Lemma len_encode_versions ord i buf vs :
  lawful_order ord → Forall version_ids vs →
  (len buf + len vs <= len (encode_versions ord i buf vs))%Z
  ∧ ∀ v, v ∈ vs → (len (Value v) + Z.of_nat (size (Clk v)) <= len (encode_versions ord i buf vs))%Z.
Proof.
  intros Ho Hvs. revert i buf. induction Hvs as [|v vs Hv _ IH]; intros i buf; simpl.
  { split; [rewrite len_nil; lia|]. by intros v ?%elem_of_nil. }
  destruct (IH (S i) (encode_version buf v (ord i (Clk v)))) as [H1 H2].
  pose proof (len_encode_version buf v (ord i (Clk v)) Hv (Ho i (Clk v))) as H3.
  pose proof (len_nonneg buf). pose proof (len_nonneg vs). pose proof (len_nonneg (Value v)).
  split; [rewrite len_cons; lia|]. intros w [->|Hw]%elem_of_cons; [lia|by apply H2].
Qed.

Lemma Encode_short_wf ord vs :
  lawful_order ord → Forall version_ids vs → (len (Encode ord vs) < 2 ^ 32)%Z →
  Forall version_wf vs ∧ (len vs < 2 ^ 32)%Z.
Proof.
  intros Ho Hvs Hl. unfold Encode in Hl.
  destruct (len_encode_versions ord 0 (PutUint32 [] (u32 (N.of_nat (length vs)))) vs Ho Hvs) as [H1 H2].
  split; [|pose proof (len_nonneg (PutUint32 [] (u32 (N.of_nat (length vs))))); lia].
  rewrite Forall_forall in *. intros v Hv. specialize (H2 v Hv). destruct (Hvs v Hv).
  pose proof (len_nonneg (Value v)). split; [lia|done|done|lia|done].
Qed.

Lemma decode_encode_wf ord vs :
  lawful_order ord → Forall version_wf vs → (len vs < 2 ^ 32)%Z → Decode (Encode ord vs) = Ok vs.
Proof.
  intros Ho Hw Hn. pose proof (Encode_reads ord vs Ho Hw Hn) as Hr. rewrite Decode_eq.
  destruct (Z.eqb_spec (len (Encode ord vs)) 0) as [Hz|Hz].
  { rewrite (Encode_eq ord vs) in Hz by done. autorewrite with kyria in Hz.
    pose proof (len_nonneg (enc_versions ord 0 vs)). lia. }
  by rewrite (reads_ok _ _ _ Hr _ _ [] (eq_ind_r (λ x, at_cursor _ 0 x) (at_cursor_start _) (app_nil_r _))).
Qed.

(** Encoding is faithful for every blob the store accepts. *)
Lemma decode_encode ord vs :
  lawful_order ord → Forall version_ids vs → (len (Encode ord vs) < 2 ^ 32)%Z →
  Decode (Encode ord vs) = Ok vs.
Proof.
  intros Ho Hvs Hl. destruct (Encode_short_wf ord vs Ho Hvs Hl) as [Hw Hn]. by apply decode_encode_wf.
Qed.

Lemma reconcile_all_Forall (Q : Version → Prop) vs ws :
  Forall Q vs → Forall Q ws → Forall Q (reconcile_all vs ws).
Proof.
  intros Hv Hw. rewrite Forall_forall in *. intros v [?|?]%elem_of_reconcile_all; auto.
Qed.

(** The node names of a merged clock come from the two clocks. *)
Lemma Merge_names (Q : bytes → Prop) c d :
  map_Forall (λ n _, Q n) c → map_Forall (λ n _, Q n) d → map_Forall (λ n _, Q n) (Merge c d).
Proof.
  intros Hc Hd. unfold Merge, merge_entries.
  assert (Forall (λ e : bytes * N, Q e.1) (map_to_list d)) as H.
  { apply Forall_forall. intros [n v] Hin%elem_of_map_to_list. by apply (Hd n v). }
  revert c Hc. induction H as [|[n v] l Hn _ IH]; intros c Hc; simpl; [done|].
  apply IH. by apply map_Forall_insert_2.
Qed.

Lemma mint_ids self vs :
  (len self < 2 ^ 16)%Z → Forall version_ids vs →
  map_Forall (λ n _, len n < 2 ^ 16)%Z (mint self vs) ∧ clock_wf (mint self vs).
Proof.
  intros Hs Hvs. split.
  - unfold mint, Increment. apply map_Forall_insert_2; [done|]. unfold Frontier.
    assert (map_Forall (λ n (_ : N), len n < 2 ^ 16)%Z (∅ : Clock)) as He by apply map_Forall_empty.
    revert He. generalize (∅ : Clock). induction Hvs as [|v vs Hv _ IH]; intros acc Hacc; simpl; [done|].
    apply IH, (Merge_names (λ n, len n < 2 ^ 16)%Z); [apply Hv|done].
  - apply Increment_wf, Frontier_wf. eapply Forall_impl; [exact Hvs|]. by intros v [].
Qed.

(** ** Reconciling into a store *)

Section update.
Context {S : Type} `{!Store S, !StoreLaws S}.
Implicit Types (s : S) (key : bytes) (vs : list Version).

(** The sibling set of a key. *)
Definition siblings s (now : Z) key : list Version := decode_or_nil (default [] (slive s now key)).

(** The sibling set of a key that never expires, as every replicated write leaves it. *)
Definition replicated s key vs : Prop :=
  ∃ blob, sview s key = Some (blob, None) ∧ Decode blob = Ok vs.

(** The store keeps blobs the format can carry. *)
Definition store_ok s : Prop := swf s ∧ ((slimits s).2 < 2 ^ 32)%Z.

Lemma replicated_siblings s now key vs : replicated s key vs → siblings s now key = vs.
Proof. intros (b & Hv & Hd). unfold siblings, slive. rewrite Hv. simpl. unfold decode_or_nil. by rewrite Hd. Qed.

Lemma siblings_view s s' now key : sview s' key = sview s key → siblings s' now key = siblings s now key.
Proof. intros E. unfold siblings, slive. by rewrite E. Qed.

Lemma siblings_ids s now key : Forall version_ids (siblings s now key).
Proof. eapply Forall_impl; [apply decode_or_nil_wf|apply version_wf_ids]. Qed.

Lemma store_ok_call s s' : store_ok s → call_ok s s' → store_ok s'.
Proof. intros [_ Hl] (Hw & Hc & _). split; [done|]. by rewrite Hc. Qed.

Lemma call_ok_trans s1 s2 s3 : call_ok s1 s2 → call_ok s2 s3 → call_ok s1 s3.
Proof. intros (_ & E1 & H1 & C1) (H & E2 & H2 & C2). split_and!; [done|congruence|auto|]. intros k. by rewrite C2. Qed.

(** [UpdateReplica] with a function that reconciles [vs] and encodes: on success
    the key holds the reconciled set, on a size error nothing changed, and it
    does not panic. *)
Lemma update_siblings {X} o s now key (fn : bytes → bytes * X) ord vs :
  store_ok s → slawful o → lawful_order ord → Forall version_ids vs →
  (fn (default [] (slive s now key))).1 = Encode ord (reconcile_all (siblings s now key) vs) →
  let '(s', r, x) := sUpdateReplica o s now key fn in
  x = (fn (default [] (slive s now key))).2 ∧ store_ok s' ∧ call_ok s s' ∧
  match r with
  | Ok _ => replicated s' key (reconcile_all (siblings s now key) vs) ∧ bystanders s s' key
      ∧ (len (Encode ord (reconcile_all (siblings s now key) vs)) <= (slimits s).2)%Z
  | Err err => limit_error (slimits s) key (Encode ord (reconcile_all (siblings s now key) vs)) = Some err
      ∧ ∀ k, sview s' k = sview s k
  | Panic => False
  end.
Proof.
  intros [Hw Hl] Ho Hord Hvs Hfn. pose proof (law_UpdateReplica o s now key fn Hw Ho) as H. cbv zeta in H.
  destruct (sUpdateReplica o s now key fn) as [[s' r] x]. destruct H as (Hx & Hc & Hr).
  split; [done|]. split; [eapply store_ok_call; [by split|done]|]. split; [done|].
  destruct r as [u|e|]; [|by rewrite Hfn in Hr|done]. destruct Hr as (Hfit & Hby & Hv).
  rewrite Hfn in *. unfold fits in Hfit. apply limit_error_None in Hfit as [_ Hfit].
  split_and!; [|done|done]. eexists. split; [exact Hv|]. apply decode_encode; [done| |lia].
  apply reconcile_all_Forall; [apply siblings_ids|done].
Qed.

(** A replica covers a history: some version it holds for the key includes it,
    and the entry does not expire. *)
Definition holds s key (c : Clock) : Prop := ∃ vs, replicated s key vs ∧ covers vs c.

Lemma holds_view s s' key c : sview s' key = sview s key → holds s key c → holds s' key c.
Proof. intros E (vs & (b & Hv & Hd) & Hc). exists vs. split; [|done]. exists b. by rewrite E. Qed.

Lemma holds_le s key c d : clock_le d c → holds s key c → holds s key d.
Proof. intros Hle (vs & Hr & Hc). exists vs. split; [done|]. by eapply covers_le. Qed.

Lemma holds_siblings s now key c : holds s key c → covers (siblings s now key) c.
Proof. intros (vs & Hr & Hc). by rewrite (replicated_siblings _ _ _ _ Hr). Qed.

(** A store that does not evict never loses a history to a replicated write,
    and gains those of the versions written. *)
Lemma update_holds {X} o s now key (fn : bytes → bytes * X) ord vs s' r x :
  store_ok s → slawful o → lawful_order ord → Forall version_ids vs →
  (fn (default [] (slive s now key))).1 = Encode ord (reconcile_all (siblings s now key) vs) →
  sUpdateReplica o s now key fn = (s', r, x) → ¬ sevicts s →
  (∀ k c, holds s k c → holds s' k c) ∧ (r = Ok () → ∀ c, covers vs c → holds s' key c).
Proof.
  intros Hs Ho Hord Hvs Hfn E Hne.
  pose proof (update_siblings o s now key fn ord vs Hs Ho Hord Hvs Hfn) as H. rewrite E in H.
  destruct H as (_ & _ & _ & Hr). destruct r as [[]|e|]; [|split; [|done]|done].
  - destruct Hr as (Hrep & Hby & _). split.
    + intros k c Hh. destruct (decide (k = key)) as [->|Hk].
      * eexists. split; [exact Hrep|]. apply reconcile_all_covers. left. by apply holds_siblings.
      * destruct (Hby k Hk) as [E'|[_ He]]; [by eapply holds_view|done].
    + intros _ c Hc. eexists. split; [exact Hrep|]. apply reconcile_all_covers. by right.
  - intros k c. apply holds_view, (proj2 Hr).
Qed.

(** It leaves the other keys alone. *)
Lemma update_others {X} o s now key (fn : bytes → bytes * X) s' r x k :
  swf s → slawful o → sUpdateReplica o s now key fn = (s', r, x) → ¬ sevicts s → k ≠ key →
  sview s' k = sview s k.
Proof.
  intros Hw Ho E Hne Hk. pose proof (law_UpdateReplica o s now key fn Hw Ho) as H. cbv zeta in H.
  rewrite E in H. destruct H as (_ & _ & Hr). destruct r as [u|err|]; [|by apply Hr|done].
  destruct Hr as (_ & Hby & _). destruct (Hby k Hk) as [?|[_ He]]; done.
Qed.

(** Every version stored for the key, at whatever time it is read, satisfies [Q]. *)
Definition store_only s key (Q : Version → Prop) : Prop := ∀ now, Forall Q (siblings s now key).

Lemma update_only {X} o s now key (fn : bytes → bytes * X) ord vs s' r x k Q :
  store_ok s → slawful o → lawful_order ord → Forall version_ids vs →
  (fn (default [] (slive s now key))).1 = Encode ord (reconcile_all (siblings s now key) vs) →
  sUpdateReplica o s now key fn = (s', r, x) →
  (k = key → Forall Q vs) → store_only s k Q → store_only s' k Q.
Proof.
  intros Hs Ho Hord Hvs Hfn E HQ Hk t.
  pose proof (update_siblings o s now key fn ord vs Hs Ho Hord Hvs Hfn) as H. rewrite E in H.
  destruct H as (_ & _ & _ & Hr). destruct r as [u|e|]; [| |done].
  - destruct Hr as (Hrep & Hby & _). destruct (decide (k = key)) as [->|Hne].
    + rewrite (replicated_siblings _ t _ _ Hrep). apply reconcile_all_Forall; [apply Hk|by apply HQ].
    + destruct (Hby k Hne) as [E'|[E' _]]; [by rewrite (siblings_view s)|].
      unfold siblings, slive. by rewrite E'.
  - by rewrite (siblings_view s) by apply (proj2 Hr).
Qed.

(** Every sibling set stored is one: no version in it supersedes another. *)
Definition store_antichains s : Prop := ∀ now key, antichain (siblings s now key).

Lemma antichains_view s s' : (∀ k, sview s' k = sview s k) → store_antichains s → store_antichains s'.
Proof. intros E H now key. by rewrite (siblings_view s). Qed.

(** Replacing one sibling set by another. *)
Lemma antichains_replaced s s' key vs :
  replicated s' key vs → bystanders s s' key → antichain vs → store_antichains s → store_antichains s'.
Proof.
  intros Hrep Hby Hvs H now k. destruct (decide (k = key)) as [->|Hk].
  - by rewrite (replicated_siblings _ now _ _ Hrep).
  - destruct (Hby k Hk) as [E|[E _]]; [by rewrite (siblings_view s)|].
    unfold siblings, slive. rewrite E. constructor.
Qed.

Lemma update_antichains {X} o s now key (fn : bytes → bytes * X) ord vs s' r x :
  store_ok s → slawful o → lawful_order ord → Forall version_ids vs →
  (fn (default [] (slive s now key))).1 = Encode ord (reconcile_all (siblings s now key) vs) →
  sUpdateReplica o s now key fn = (s', r, x) → store_antichains s → store_antichains s'.
Proof.
  intros Hs Ho Hord Hvs Hfn E Ha.
  pose proof (update_siblings o s now key fn ord vs Hs Ho Hord Hvs Hfn) as H. rewrite E in H.
  destruct H as (_ & _ & _ & Hr). destruct r as [u|e|]; [| |done].
  - destruct Hr as (Hrep & Hby & _). eapply antichains_replaced; [done..| |done].
    apply reconcile_all_antichain, Ha.
  - apply (antichains_view s); [apply Hr|done].
Qed.
End update.

(** A store with the default limits and no eviction, for the examples. *)
Definition empty_store : MapStore lfu := New [].

Lemma empty_store_ok : store_ok empty_store ∧ ¬ sevicts empty_store.
Proof.
  split; [split; [apply store_inv_empty; reflexivity|reflexivity]|]. simpl. by intros H.
Qed.

Lemma lawful_clock_map_to_list : lawful_order (λ _, map_to_list).
Proof. intros i c. unfold range_order. reflexivity. Qed.
