(* ===== verification/AntiEntropy.v ===== *)
(** * Anti-entropy (internal/server/antientropy.go)

    The codecs of the bucket exchange, and the loop that pulls from a peer what
    differs.  The loop reaches the peer through the interface [TreeSyncer]. *)

From S2P Require Import Prelude Binenc Vclock Version Sketch Policy MapStore ShardedStore.
From S2P Require Import Membership Sha256 Merkle Replica.

(** ** The bucket codecs *)

Definition encodeBuckets (buckets : list Z) : bytes :=
  foldl (λ buf b, PutUint32 buf (u32_of_int b)) (PutUint32 [] (u32 (N.of_nat (length buckets)))) buckets.

Definition decode_bucket (b : bytes) (cursor : Z) : gres binerr (Z * Z) :=
  do (bucket, cursor) <- Uint32 b cursor; Ok (Z.of_N bucket, cursor).

Definition decodeBuckets (b : bytes) : gres binerr (list Z) :=
  do (bucketSize, cursor) <- Uint32 b 0;
  do (buckets, _) <- read_list decode_bucket bucketSize b cursor;
  Ok buckets.

(** [entries] is a map ranged over in the order given.  The error of
    [PutString] on a key of 64 KiB or more is discarded, as in the source. *)
Definition encodeEntries (entries : list (bytes * bytes)) : bytes :=
  foldl (λ buf '(key, blob), PutUint32 (PutString buf key).1 (u32 (N.of_nat (length blob))) ++ blob)
    (PutUint32 [] (u32 (N.of_nat (length entries)))) entries.

Definition decode_pair (b : bytes) (cursor : Z) : gres binerr (bytes * bytes * Z) :=
  do (key, cursor) <- String b cursor;
  do (blobLen, cursor) <- Uint32 b cursor;
  do (blob, cursor) <- Bytes b cursor (Z.of_N blobLen);
  Ok (key, blob, cursor).

Definition decodeEntries (b : bytes) : gres binerr (gmap bytes bytes) :=
  do (entriesSize, cursor) <- Uint32 b 0;
  do (entries, _) <-
    read_fold (λ entries '(key, blob), <[key := blob]> entries) decode_pair entriesSize b
      (∅ : gmap bytes bytes) cursor;
  Ok entries.

(** ** The loop *)

(** The peer surface: [Tree] and [BucketEntries], each an error or a result (or
    a panic while decoding it). *)
Class TreeSyncer (W : Type) := {
  PeerTree : W → bytes → Z → W * gres bytes Tree;
  PeerBucketEntries : W → bytes → Z → list Z → W * gres bytes (gmap bytes bytes)
}.

Record AntiEntropy : Type := mkAntiEntropy {
  a_self : bytes;
  a_leaves : Z
}.

(** Reservoir sampling over the alive members: [rnd i] is the [i]-th draw of
    [rand.IntN(count)], used only as zero or not. *)
Definition pick_step (self : bytes) (rnd : nat → Z → Z) (st : bytes * Z * nat) (n : Node) : bytes * Z * nat :=
  let '(chosen, count, i) := st in
  if bool_decide (ID n = self) then st
  else
    let count := (count + 1)%Z in
    (if (rnd i count =? 0)%Z then ID n else chosen, count, Datatypes.S i).

Definition pickPeer (a : AntiEntropy) (ord : roster_order) (m : Members) (rnd : nat → Z → Z) : bytes * bool :=
  let '(chosen, count, _) := foldl (pick_step (a_self a) rnd) ([], 0%Z, 0%nat) (AliveNodes ord m) in
  (chosen, (0 <? count)%Z).

Section sync.
Context {S W : Type} `{!Store S, !TreeSyncer W}.

(** [t.Add] for every entry ranged over. *)
Definition tree_over (leaves : Z) (entries : list (bytes * bytes)) : gres binerr Tree :=
  do t <- New leaves; add_all t entries.

(** The fold over the entries received: each is one [UpdateReplica]. *)
Definition pull_entry (o : sord) (now : Z) (clk : bytes → nat → Clock → list (bytes * N)) (s : S)
    (kb : bytes * bytes) : S :=
  let '(key, blob) := kb in
  (sUpdateReplica o s now key (λ old,
     (Version.Encode (clk key) (foldl Reconcile (decode_or_nil old) (decode_or_nil blob)), ()))).1.1.

(** [o], [clk] and [ord] are the iteration orders of the store, of each clock
    encoded and of the entries received; [rnow] is the clock as the sweep of the
    store reads it, [now] as the entries are stored.  [None] is a panic. *)
Definition syncWith (a : AntiEntropy) (o : sord) (rnow : nat → Z) (now : Z) (clk : bytes → nat → Clock → list (bytes * N))
    (ord : gmap bytes bytes → list (bytes * bytes)) (s : S) (w : W) (addr : bytes) : option (S * W) :=
  match tree_over (a_leaves a) (sRange o s rnow) with
  | Ok t =>
      match PeerTree w addr (a_leaves a) with
      | (_, Panic) => None
      | (w, Err _) => Some (s, w)
      | (w, Ok pt) =>
          match Diff t pt with
          | Ok (_, _, diffs) =>
              if (len diffs =? 0)%Z then Some (s, w)
              else
                match PeerBucketEntries w addr (a_leaves a) diffs with
                | (_, Panic) => None
                | (w, Err _) => Some (s, w)
                | (w, Ok entries) => Some (foldl (pull_entry o now clk) s (ord entries), w)
                end
          | _ => None
          end
      end
  | _ => None
  end.
End sync.

(** ** The codecs round-trip *)

Lemma encodeBuckets_eq bs :
  (len bs < 2 ^ 32)%Z → Forall (λ b, 0 <= b < 2 ^ 32)%Z bs →
  encodeBuckets bs = be 4 (N.of_nat (length bs)) ++ concat ((λ b, be 4 (Z.to_N b)) <$> bs).
Proof.
  intros Hl Hb. unfold encodeBuckets, PutUint32, len in *. rewrite u32_small by lia.
  change ([] ++ be 4 (N.of_nat (length bs))) with (be 4 (N.of_nat (length bs))).
  generalize (be 4 (N.of_nat (length bs))) as buf. clear Hl.
  induction Hb as [|b bs Hb _ IH]; intros buf; simpl; [by rewrite app_nil_r|].
  rewrite IH. unfold u32_of_int. rewrite Z.mod_small by lia. by rewrite <-app_assoc.
Qed.

Definition decode_bucket_list (b : bytes) (off : Z) : gres binerr (list Z * Z) :=
  do (n, off) <- Uint32 b off; read_list decode_bucket n b off.

Lemma decode_bucket_reads b : (0 <= b < 2 ^ 32)%Z → reads decode_bucket b (be 4 (Z.to_N b)).
Proof.
  intros Hb. replace b with (Z.of_N (Z.to_N b)) at 1 by lia.
  apply (reads_map Z.of_N), Uint32_reads. lia.
Qed.

#[export] Instance decode_bucket_reader : Reader decode_bucket.
Proof. apply (reader_bind Uint32 (λ b _ off, Ok (Z.of_N b, off))); apply _. Qed.

#[export] Instance decode_bucket_list_reader : Reader decode_bucket_list.
Proof. apply (reader_bind Uint32 (λ n b off, read_list decode_bucket n b off)); apply _. Qed.

Lemma decodeBuckets_eq b : decodeBuckets b = do (bs, _) <- decode_bucket_list b 0; Ok bs.
Proof. unfold decodeBuckets, decode_bucket_list. by destruct (Uint32 b 0) as [[n o]| |]. Qed.

Lemma encodeBuckets_reads bs :
  (len bs < 2 ^ 32)%Z → Forall (λ b, 0 <= b < 2 ^ 32)%Z bs → reads decode_bucket_list bs (encodeBuckets bs).
Proof.
  intros Hl Hb. rewrite encodeBuckets_eq by done. unfold len in Hl.
  eapply (reads_bind Uint32); [apply Uint32_reads; lia|]. apply read_list_reads; [|done].
  apply Forall2_fmap_r, Forall_Forall2_diag. eapply Forall_impl; [exact Hb|]. apply decode_bucket_reads.
Qed.

(** An entry the reply can carry. *)
Definition pair_wf (kb : bytes * bytes) : Prop := (len kb.1 < 2 ^ 16 ∧ len kb.2 < 2 ^ 32)%Z.

Definition enc_pair (kb : bytes * bytes) : bytes :=
  enc_string kb.1 ++ be 4 (N.of_nat (length kb.2)) ++ kb.2.

Lemma encodeEntries_eq es :
  (len es < 2 ^ 32)%Z → Forall pair_wf es →
  encodeEntries es = be 4 (N.of_nat (length es)) ++ concat (enc_pair <$> es).
Proof.
  intros Hl He. unfold encodeEntries, len in *. unfold PutUint32 at 2. rewrite u32_small by lia.
  change ([] ++ be 4 (N.of_nat (length es))) with (be 4 (N.of_nat (length es))).
  generalize (be 4 (N.of_nat (length es))) as buf. clear Hl.
  induction He as [|[k b] es [Hk Hb] _ IH]; intros buf; simpl; [by rewrite app_nil_r|]. simpl in *.
  rewrite IH, PutString_ok by done. unfold PutUint32, enc_pair, len in *. simpl.
  rewrite u32_small by lia. by rewrite <-!app_assoc.
Qed.

Lemma decode_pair_reads kb : pair_wf kb → reads decode_pair kb (enc_pair kb).
Proof.
  destruct kb as [k b]. intros [Hk Hb]. unfold decode_pair, enc_pair, len in *. cbn [fst snd] in *.
  eapply (reads_bind String); [by apply String_reads|]. cbv beta.
  eapply (reads_bind Uint32); [apply Uint32_reads; lia|]. cbv beta.
  apply (reads_map (pair k)), Bytes_reads. unfold len. lia.
Qed.

#[export] Instance decode_pair_reader : Reader decode_pair.
Proof.
  unfold decode_pair. apply (reader_bind String (λ key b cursor, _)); [apply _|]. intros key.
  apply (reader_bind Uint32 (λ n b cursor, _)); [apply _|]. intros n.
  apply (reader_bind (λ b c, Bytes b c _) (λ blob b cursor, _)); [apply _|]. intros blob. apply reader_ret.
Qed.

Definition decode_entry_map (b : bytes) (off : Z) : gres binerr (gmap bytes bytes * Z) :=
  do (n, off) <- Uint32 b off;
  read_fold (λ entries '(key, blob), <[key := blob]> entries) decode_pair n b (∅ : gmap bytes bytes) off.

#[export] Instance decode_entry_map_reader : Reader decode_entry_map.
Proof.
  apply (reader_bind Uint32 (λ n b off, read_fold _ decode_pair n b (∅ : gmap bytes bytes) off)); apply _.
Qed.

Lemma decodeEntries_eq b : decodeEntries b = do (m, _) <- decode_entry_map b 0; Ok m.
Proof. unfold decodeEntries, decode_entry_map. by destruct (Uint32 b 0) as [[n o]| |]. Qed.

Lemma encodeEntries_reads m es :
  range_order m es → (len es < 2 ^ 32)%Z → Forall pair_wf es →
  reads decode_entry_map m (encodeEntries es).
Proof.
  intros Hm Hl He. rewrite encodeEntries_eq by done. unfold len in Hl.
  eapply (reads_bind Uint32); [apply Uint32_reads; lia|].
  eapply reads_ext; [intros; symmetry; apply read_fold_list|]. rewrite <-(insert_entries m es Hm).
  apply (reads_map (foldl _ _)), read_list_reads; [|done].
  apply Forall2_fmap_r, Forall_Forall2_diag. eapply Forall_impl; [exact He|]. apply decode_pair_reads.
Qed.

(** A reader run on what it reads, and on it cut short. *)
Lemma reads_whole {A} (dec : bytes → Z → gres binerr (A * Z)) a bs junk :
  reads dec a bs → dec (bs ++ junk) 0%Z = Ok (a, len bs).
Proof. intros Hr. by rewrite (reads_ok _ _ _ Hr _ _ junk (at_cursor_start _)). Qed.

Lemma reads_cut {A} (dec : bytes → Z → gres binerr (A * Z)) a bs p :
  reads dec a bs → strict_prefix p bs → dec p 0%Z = Err ErrMalformed.
Proof. intros Hr Hp. by rewrite (reads_truncated _ _ _ Hr _ _ _ (at_cursor_start p) Hp). Qed.

(** ** The loop pulls what differs *)

Section pull.
Context {S : Type} `{!Store S, !StoreLaws S}.
Implicit Types (s : S).

(** What a blob brings to a key fits the store. *)
Definition pull_fits clk s now key blob : Prop :=
  fits s key (Version.Encode (clk key) (reconcile_all (siblings s now key) (decode_or_nil blob))).

(** [s'] comes from [s] by pulling some of [entries]: no key loses a history,
    and every version gained is one of theirs. *)
Record pulled s s' (entries : list (bytes * bytes)) : Prop := {
  pl_ok : store_ok s';
  pl_call : call_ok s s';
  pl_holds : ∀ k c, holds s k c → holds s' k c;
  pl_only : ∀ k Q, (∀ b, (k, b) ∈ entries → Forall Q (decode_or_nil b)) → store_only s k Q → store_only s' k Q;
  pl_others : ∀ k, k ∉ entries.*1 → sview s' k = sview s k;
  pl_antichains : store_antichains s → store_antichains s'
}.

Lemma pull_entry_spec o now clk s key blob :
  store_ok s → slawful o → (∀ k, lawful_order (clk k)) → ¬ sevicts s →
  let s' := pull_entry o now clk s (key, blob) in
  pulled s s' [(key, blob)] ∧ (pull_fits clk s now key blob → ∀ c, covers (decode_or_nil blob) c → holds s' key c).
Proof.
  intros Hs Ho Hclk Hne. cbv zeta. unfold pull_entry.
  set (fn := λ old : bytes, (Version.Encode (clk key) (foldl Reconcile (decode_or_nil old) (decode_or_nil blob)), ())).
  assert (Forall version_ids (decode_or_nil blob)) as Hids
    by (eapply Forall_impl; [apply decode_or_nil_wf|apply version_wf_ids]).
  pose proof (update_siblings o s now key fn (clk key) _ Hs Ho (Hclk key) Hids eq_refl) as H.
  destruct (sUpdateReplica o s now key fn) as [[s' r] x] eqn:E. simpl.
  destruct (update_holds o s now key fn (clk key) _ s' r x Hs Ho (Hclk key) Hids eq_refl E Hne) as [H1 H2].
  destruct H as (_ & Hs' & Hcall & Hr). split; [split; try done|].
  - intros k Q HQ. apply (update_only o s now key fn (clk key) _ s' r x k Q Hs Ho (Hclk key) Hids eq_refl E).
    intros ->. apply HQ. set_solver.
  - intros k Hk. eapply (update_others o s now key fn); [apply Hs|done..|set_solver].
  - by apply (update_antichains o s now key fn (clk key) _ s' r x Hs Ho (Hclk key) Hids eq_refl E).
  - intros Hfit. destruct r as [[]|err|]; [by apply H2| |done]. unfold pull_fits, fits in Hfit.
    destruct Hr as [Hlim _]. congruence.
Qed.

Lemma pull_entries o now clk s es :
  store_ok s → slawful o → (∀ k, lawful_order (clk k)) → ¬ sevicts s → NoDup es.*1 →
  let s' := foldl (pull_entry o now clk) s es in
  pulled s s' es
  ∧ ∀ key blob, (key, blob) ∈ es → pull_fits clk s now key blob →
      ∀ c, covers (decode_or_nil blob) c → holds s' key c.
Proof.
  cbv zeta. revert s. induction es as [|[key blob] es IH]; intros s Hs Ho Hclk Hne Hnd; simpl.
  { split; [split; try done; apply call_ok_refl, Hs|]. by intros ? ? ?%elem_of_nil. }
  apply NoDup_cons in Hnd as [Hk Hnd]. simpl in Hk.
  destruct (pull_entry_spec o now clk s key blob Hs Ho Hclk Hne) as [[A1 A2 A3 A4 A5 A6] Hnew].
  set (s1 := pull_entry o now clk s (key, blob)) in *.
  destruct (IH s1 A1 Ho Hclk) as [[B1 B2 B3 B4 B5 B6] Hrest]; [|done|].
  { intros He. apply Hne. by apply A2. }
  split; [split; try done; auto|].
  - by eapply call_ok_trans.
  - intros k Q HQ Hq. apply B4; [intros b Hb; apply HQ; set_solver|]. apply A4; [|done].
    intros b Hb. apply HQ. set_solver.
  - intros k Hk'. rewrite B5 by set_solver. apply A5. set_solver.
  - intros key' blob' [[= -> ->]|Hin]%elem_of_cons Hfit c Hc; [by apply B3, Hnew|].
    apply (Hrest key' blob'); [done| |done]. unfold pull_fits, fits in *.
    assert (key' ≠ key) as Hne' by (intros ->; apply Hk, list_elem_of_fmap; by exists (key, blob')).
    rewrite (siblings_view s) by (apply A5; set_solver). by rewrite (proj1 (proj2 A2)).
Qed.
End pull.

(** [tree_over] builds a well-formed tree of the rounded leaf count. *)
Lemma tree_over_wf leaves es :
  (leaves <= 2 ^ 42)%Z →
  ∃ t0 t, New leaves = Ok t0 ∧ tree_over leaves es = Ok t ∧ tree_wf t ∧ leafCount t = leafCount t0.
Proof.
  intros Hl. destruct (New_wf leaves Hl) as (t0 & E0 & W0 & _).
  destruct (add_all_wf t0 es W0) as (t & E & W & L). exists t0, t.
  split_and!; [done| |done|done]. unfold tree_over. rewrite E0. exact E.
Qed.

(** The bucket of a key depends on the leaf count alone. *)
Lemma Bucket_leafCount t t' key : leafCount t = leafCount t' → Bucket t key = Bucket t' key.
Proof. intros E. unfold Bucket. by rewrite E. Qed.

(** ** Properties *)

(** The bucket exchange survives the wire.  A bucket set and a map of entries
    decode to what was encoded, in whatever order the map was ranged over and
    whatever follows; cut short anywhere they are malformed; and no input makes
    either decoder panic. *)
Theorem exchange_codec (bs : list Z) (m : gmap bytes bytes) (es : list (bytes * bytes)) (b : bytes) :
  (len bs < 2 ^ 32)%Z → Forall (λ x, 0 <= x < 2 ^ 32)%Z bs →
  range_order m es → (len es < 2 ^ 32)%Z → Forall pair_wf es →
  (∀ junk, decodeBuckets (encodeBuckets bs ++ junk) = Ok bs
    ∧ decodeEntries (encodeEntries es ++ junk) = Ok m)
  ∧ (∀ p, strict_prefix p (encodeBuckets bs) → decodeBuckets p = Err ErrMalformed)
  ∧ (∀ p, strict_prefix p (encodeEntries es) → decodeEntries p = Err ErrMalformed)
  ∧ (decodeBuckets b = Err ErrMalformed ∨ ∃ bs', decodeBuckets b = Ok bs')
  ∧ (decodeEntries b = Err ErrMalformed ∨ ∃ m', decodeEntries b = Ok m').
Proof.
  intros Hl Hb Hm Hel He. pose proof (encodeBuckets_reads bs Hl Hb) as Hrb.
  pose proof (encodeEntries_reads m es Hm Hel He) as Hre. split_and!.
  - intros junk. rewrite decodeBuckets_eq, decodeEntries_eq.
    by rewrite (reads_whole _ _ _ _ Hrb), (reads_whole _ _ _ _ Hre).
  - intros p Hp. by rewrite decodeBuckets_eq, (reads_cut _ _ _ _ Hrb Hp).
  - intros p Hp. by rewrite decodeEntries_eq, (reads_cut _ _ _ _ Hre Hp).
  - rewrite decodeBuckets_eq. pose proof (reader_safe (dec := decode_bucket_list) b 0 ltac:(lia)) as Hs.
    destruct (decode_bucket_list b 0) as [[x o]|e|]; simpl; [eauto|subst; eauto|done].
  - rewrite decodeEntries_eq. pose proof (reader_safe (dec := decode_entry_map) b 0 ltac:(lia)) as Hs.
    destruct (decode_entry_map b 0) as [[x o]|e|]; simpl; [eauto|subst; eauto|done].
Qed.

(** A round of anti-entropy catches up with the peer.  When the peer serves
    the tree and the entries of its store [remote], the round ends without a
    panic; for every key of the peer whose bucket differs, the local store then
    covers every version the peer holds (unless the merged siblings exceed the
    value limit); no key loses a history, every version gained is one of the
    peer's, and with equal trees nothing changes.  The digests met must not
    collide. *)
Lemma syncWith_pulls {S W} `{!Store S, !StoreLaws S, !TreeSyncer W}
    (a : AntiEntropy) (o : sord) (rnow : nat → Z) (now : Z) (clk : bytes → nat → Clock → list (bytes * N))
    (ord : gmap bytes bytes → list (bytes * bytes)) (s : S) (w w1 : W) (addr : bytes)
    (remote : gmap bytes bytes) (t pt : Tree) :
  store_ok s → slawful o → (∀ k, lawful_order (clk k)) → (∀ m, range_order m (ord m)) → ¬ sevicts s →
  (a_leaves a <= 2 ^ 42)%Z → tree_over (a_leaves a) (sRange o s rnow) = Ok t →
  PeerTree w addr (a_leaves a) = (w1, Ok pt) → tree_wf pt → leafCount pt = leafCount t →
  (∀ diffs, Forall (λ b, 0 <= b < leafCount t)%Z diffs → (len diffs <= leafCount t)%Z →
     ∃ w2, PeerBucketEntries w1 addr (a_leaves a) diffs = (w2, Ok (filter (λ kb, Bucket t kb.1 ∈ diffs) remote))) →
  no_alias (rooted t) (rooted pt) →
  ∃ s' w', syncWith a o rnow now clk ord s w addr = Some (s', w')
    ∧ pulled s s' (map_to_list remote)
    ∧ (∀ key blob, remote !! key = Some blob →
         leaf t (Z.to_nat (Bucket t key)) ≠ leaf pt (Z.to_nat (Bucket t key)) →
         pull_fits clk s now key blob → ∀ c, covers (decode_or_nil blob) c → holds s' key c)
    ∧ ((∀ b, leaf t b = leaf pt b) → s' = s)
    ∧ (w' = w1 ∨ ∃ diffs, Forall (λ b, 0 <= b < leafCount t)%Z diffs ∧ (len diffs <= leafCount t)%Z
         ∧ w' = (PeerBucketEntries w1 addr (a_leaves a) diffs).1).
Proof.
  intros Hs Ho Hclk Hord Hne Hleaves Ht Hpt Hwpt Hlc Hpe Hna.
  destruct (tree_over_wf (a_leaves a) (sRange o s rnow) Hleaves) as (t0 & t1 & _ & Et & Wt & _).
  rewrite Ht in Et. injection Et as <-.
  destruct (Diff_spec t pt Wt Hwpt Hlc) as (t' & pt' & E1 & E2 & Hdiff).
  unfold rooted in Hna. rewrite E1, E2 in Hna. specialize (Hdiff Hna).
  set (diffs := Z.of_nat <$> filter (λ b, leaf t b ≠ leaf pt b) (seq 0 (Z.to_nat (leafCount t)))) in *.
  assert (∀ key, leaf t (Z.to_nat (Bucket t key)) ≠ leaf pt (Z.to_nat (Bucket t key)) → Bucket t key ∈ diffs) as Hin.
  { intros key Hd. pose proof (Bucket_range t key Wt). apply list_elem_of_fmap. exists (Z.to_nat (Bucket t key)).
    split; [lia|]. apply list_elem_of_filter. split; [done|]. apply elem_of_seq. lia. }
  assert (pulled s s (map_to_list remote)) as Hself by (split; try done; apply call_ok_refl, Hs).
  unfold syncWith. rewrite Ht, Hpt, Hdiff. destruct (Z.eqb_spec (len diffs) 0) as [Hz|Hz].
  { exists s, w1. split_and!; [done..| |done|by left]. intros key blob _ Hd. apply Hin in Hd.
    destruct diffs; [by apply elem_of_nil in Hd|]. rewrite len_cons in Hz. pose proof (len_nonneg diffs). lia. }
  assert (Forall (λ b, 0 <= b < leafCount t)%Z diffs) as Hrange.
  { apply Forall_forall. intros x (b & -> & [_ Hb%elem_of_seq]%list_elem_of_filter)%list_elem_of_fmap. lia. }
  assert (len diffs <= leafCount t)%Z as Hlen.
  { unfold diffs, len. rewrite length_fmap. pose proof (length_filter (λ b, leaf t b ≠ leaf pt b)
      (seq 0 (Z.to_nat (leafCount t)))) as Hl. rewrite length_seq in Hl. pose proof (tw_pos t Wt). lia. }
  destruct (Hpe diffs Hrange Hlen) as [w2 Hw2]. rewrite Hw2. set (es := ord _).
  assert (∀ k b, (k, b) ∈ es ↔ remote !! k = Some b ∧ Bucket t k ∈ diffs) as Hes.
  { intros k b. unfold es. rewrite Hord, elem_of_map_to_list, map_lookup_filter_Some. done. }
  destruct (pull_entries o now clk s es Hs Ho Hclk Hne) as [[P1 P2 P3 P4 P5 P6] Hnew].
  { unfold es. rewrite Hord. apply NoDup_fst_map_to_list. }
  eexists _, w2. split; [done|]. split; [split; try done|split_and!].
  - intros k Q HQ. apply P4. intros b [Hb _]%Hes. apply HQ. by apply elem_of_map_to_list.
  - intros k Hk. apply P5. intros ([k' b] & -> & [Hb _]%Hes)%list_elem_of_fmap. apply Hk.
    apply list_elem_of_fmap. exists (k', b). split; [done|]. by apply elem_of_map_to_list.
  - intros key blob Hr Hd Hfit. apply (Hnew key blob); [|done]. apply Hes. split; [done|by apply Hin].
  - intros Heq. exfalso. apply Hz. unfold diffs. rewrite filter_none; [done|]. intros b _ Hb. by apply Hb.
  - right. exists diffs. by rewrite Hw2.
Qed.

(** The comment on [decodeEntries] calls an empty input a valid empty map; the
    code reports it malformed, as it does any input without a count. *)
Lemma decodeEntries_empty : decodeEntries [] = Err ErrMalformed.
Proof. reflexivity. Qed.

(** ** Witnesses *)

Definition ex_version : Version := v_ex "hello" {[str "n1" := 2%N]}.
Definition ex_remote : gmap bytes bytes := {[str "greeting" := Version.Encode (λ _, map_to_list) [ex_version]]}.

(** A peer that holds [ex_remote]. *)
Definition ex_peer : TreeSyncer unit := {|
  PeerTree w _ leaves :=
    (w, match tree_over leaves (map_to_list ex_remote) with Ok t => Ok t | _ => Panic end);
  PeerBucketEntries w _ leaves diffs :=
    (w, Ok (filter (λ kb, Bucket (mkTree 4 []) kb.1 ∈ diffs) ex_remote))
|}.

Lemma exchange_codec_witness :
  decodeBuckets (encodeBuckets [0; 3; 77]%Z ++ str "tail") = Ok [0; 3; 77]%Z
  ∧ decodeEntries (encodeEntries (map_to_list ex_remote)) = Ok ex_remote.
Proof.
  destruct (exchange_codec [0; 3; 77]%Z ex_remote (map_to_list ex_remote) []) as (H & _).
  - reflexivity.
  - repeat constructor; simpl; lia.
  - unfold range_order. reflexivity.
  - reflexivity.
  - unfold ex_remote. rewrite map_to_list_singleton. constructor; [|constructor]. split; vm_compute; reflexivity.
  - split; [apply (H (str "tail"))|]. destruct (H []) as [_ H2]. rewrite app_nil_r in H2. exact H2.
Defined.

(** A fresh node catches up with the peer. *)
Lemma syncWith_pulls_example :
  ∃ s', @syncWith (MapStore lfu) unit _ ex_peer (mkAntiEntropy (str "n2") 4) map_to_list (λ _, 0%Z) 0 (λ _ _, map_to_list) map_to_list
      empty_store () (str "n1") = Some (s', ())
    ∧ holds s' (str "greeting") {[str "n1" := 2%N]}.
Proof.
  destruct (tree_over_wf 4 (sRange (Store := MapStore_store) map_to_list empty_store (λ _, 0%Z)) ltac:(lia))
    as (t0 & t & E0 & Et & Wt & Lt).
  destruct (tree_over_wf 4 (map_to_list ex_remote) ltac:(lia)) as (t0' & pt & E0' & Ept & Wpt & Lpt).
  rewrite E0 in E0'. injection E0' as <-.
  assert (leafCount t0 = 4%Z) as L0 by (vm_compute in E0; injection E0 as <-; reflexivity).
  destruct (syncWith_pulls (S := MapStore lfu) (Store0 := MapStore_store) (TreeSyncer0 := ex_peer)
    (mkAntiEntropy (str "n2") 4) map_to_list (λ _, 0%Z) 0 (λ _ _, map_to_list) map_to_list empty_store () () (str "n1")
    ex_remote t pt) as (s' & [] & E & _ & H & _).
  - apply empty_store_ok.
  - apply lawful_map_to_list.
  - intros k. apply lawful_clock_map_to_list.
  - intros m. unfold range_order. reflexivity.
  - apply empty_store_ok.
  - simpl. lia.
  - exact Et.
  - simpl. rewrite Ept. reflexivity.
  - exact Wpt.
  - congruence.
  - intros diffs _ _. exists (). simpl. do 2 f_equal. apply map_filter_ext. intros k b _. simpl.
    rewrite (Bucket_leafCount t (mkTree 4 [])) by (simpl; congruence). reflexivity.
  - replace t with (match tree_over 4 (sRange (Store := MapStore_store) map_to_list empty_store (λ _, 0%Z)) with Ok t => t | _ => t0 end)
      by (by rewrite Et).
    replace pt with (match tree_over 4 (map_to_list ex_remote) with Ok t => t | _ => t0 end) by (by rewrite Ept).
    apply no_alias_b_spec. vm_compute. reflexivity.
  - exists s'. split; [exact E|].
    apply (H (str "greeting") (Version.Encode (λ _, map_to_list) [ex_version])).
    + reflexivity.
    + replace t with (match tree_over 4 (sRange (Store := MapStore_store) map_to_list empty_store (λ _, 0%Z)) with Ok t => t | _ => t0 end)
        by (by rewrite Et).
      replace pt with (match tree_over 4 (map_to_list ex_remote) with Ok t => t | _ => t0 end) by (by rewrite Ept).
      vm_compute. discriminate.
    + vm_compute. reflexivity.
    + exists ex_version. split; [vm_compute; left|]. intros n. reflexivity.
Defined.
