(* ===== verification/TombstoneGC.v ===== *)
(** * Tombstone collection (internal/server/tombstonegc.go)

    A sweep ranges over the store for keys whose every version is a tombstone
    past its grace period, then removes each under its own lock, testing again
    what is stored by then.  The ticker goroutine only repeats [sweep]. *)

From S2P Require Import Prelude Telemetry Binenc Vclock Version Sketch Policy MapStore ShardedStore Replica.

(** ** Operations *)

(** [now.Sub(time.Unix(at, 0))]: [now] in nanoseconds since 1970; seconds are
    kept since year 1 in an [int64], and the difference saturates. *)
Definition unixToInternal : Z := 62135596800.

Definition Sub (now at_ : Z) : Z :=
  let sec := (now / 1000000000 + unixToInternal)%Z in
  let d := ((sec - i64 (at_ + unixToInternal)) * 1000000000 + now mod 1000000000)%Z in
  Z.max (- 2 ^ 63) (Z.min (2 ^ 63 - 1) d).

Definition reapable (versions : list Version) (now grace : Z) : bool :=
  if (len versions =? 0)%Z then false
  else if (0 <? len (Live versions))%Z then false
  else forallb (λ v, negb (Sub now (DeletedAt v) <=? grace)%Z) versions.

(** The test of both phases: an undecodable blob is left alone. *)
Definition reapable_blob (now grace : Z) (blob : bytes) : bool :=
  match Version.Decode blob with Ok versions => reapable versions now grace | _ => false end.

Definition evTombstonesReaped : bytes := str "tombstones_reaped".

Section sweep.
Context {S : Type} `{!Store S}.

(** One removal: the store, the count, and the log of telemetry calls. *)
Definition sweep_step (now grace tnow : Z) (st : S * Z * list telemetryCall) (key : bytes) :
    S * Z * list telemetryCall :=
  let '(s, reaped, log) := st in
  let '(s, deleted) := sDeleteIf s tnow key (reapable_blob now grace) in
  if deleted : bool then (s, reaped + 1, log ++ [Event evTombstonesReaped])%Z else (s, reaped, log).

(** [now] is the sweep's argument; [rnow] is the store's own clock as the first phase
    reads it, [tnow] in the second. *)
Definition sweep (o : sord) (now grace : Z) (rnow : nat → Z) (tnow : Z) (s : S) : S * Z * list telemetryCall :=
  let expired := foldl (λ expired '(key, blob), if reapable_blob now grace blob then expired ++ [key] else expired)
                   [] (sRange o s rnow) in
  foldl (sweep_step now grace tnow) (s, 0%Z, []) expired.
End sweep.

(** ** Lemmas *)

Lemma Sub_exact now at_ :
  (0 <= at_ < 2 ^ 62)%Z → (0 <= now - at_ * 1000000000 < 2 ^ 63)%Z → Sub now at_ = (now - at_ * 1000000000)%Z.
Proof.
  intros Ha Hd. unfold Sub, unixToInternal. rewrite i64_small by lia.
  pose proof (Z.div_mod now 1000000000 ltac:(lia)). lia.
Qed.

(** What a reapable blob holds: at least one version, and only tombstones whose
    grace is over. *)
Lemma reapable_spec vs now grace :
  reapable vs now grace = true ↔
  vs ≠ [] ∧ ∀ v, v ∈ vs → Deleted v = true ∧ (grace < Sub now (DeletedAt v))%Z.
Proof.
  unfold reapable. destruct vs as [|v0 vs0] eqn:E; [simpl; naive_solver|]. rewrite <-E.
  assert (vs ≠ []) as Hne by (by subst). clear E.
  destruct (Z.eqb_spec (len vs) 0) as [Hz|_]; [destruct vs; [done|rewrite len_cons in Hz; pose proof (len_nonneg vs); lia]|].
  rewrite Live_eq. destruct (Z.ltb_spec 0 (len (filter (λ v, Deleted v = false) vs))) as [Hl|Hl].
  - split; [done|]. intros [_ Hall]. exfalso. rewrite filter_none in Hl; [unfold len in Hl; simpl in Hl; lia|].
    intros v Hv Hd. destruct (Hall v Hv). congruence.
  - assert (∀ v, v ∈ vs → Deleted v = true) as Hdel.
    { intros v Hv. destruct (Deleted v) eqn:Ev; [done|]. exfalso.
      assert (v ∈ filter (λ v, Deleted v = false) vs) as Hin by (by apply list_elem_of_filter).
      destruct (filter _ vs); [by apply elem_of_nil in Hin|]. rewrite len_cons in Hl.
      pose proof (len_nonneg l). lia. }
    rewrite forallb_forall. split.
    + intros H. split; [done|]. intros v Hv. split; [by apply Hdel|]. specialize (H v).
      rewrite negb_true_iff, Z.leb_gt in H. by apply H, list_elem_of_In.
    + intros [_ H] v Hv%list_elem_of_In. rewrite negb_true_iff, Z.leb_gt. by apply H.
Qed.

Section gc.
Context {S : Type} `{!Store S, !StoreLaws S}.
Implicit Types (s : S).

(** The key holds, at time [tnow], a blob the sweep at [now] may drop. *)
Definition reapable_key s (tnow now grace : Z) (key : bytes) : bool :=
  match slive s tnow key with Some b => reapable_blob now grace b | None => false end.

Lemma sweep_steps now grace tnow keys s n log :
  swf s → NoDup keys →
  let '(s', n', log') := foldl (sweep_step now grace tnow) (s, n, log) keys in
  call_ok s s'
  ∧ (∀ k, sview s' k = if bool_decide (k ∈ keys) && reapable_key s tnow now grace k then None else sview s k)
  ∧ n' = (n + len (filter (λ k, reapable_key s tnow now grace k = true) keys))%Z
  ∧ log' = log ++ replicate (length (filter (λ k, reapable_key s tnow now grace k = true) keys)) (Event evTombstonesReaped).
Proof.
  intros Hs Hnd. revert s n log Hs. induction Hnd as [|key keys Hk Hnd IH]; intros s n log Hs; simpl.
  { split_and!; [by apply call_ok_refl|done|rewrite filter_nil, len_nil; lia|by rewrite app_nil_r]. }
  pose proof (law_DeleteIf s tnow key (reapable_blob now grace) Hs) as H. cbv zeta in H.
  fold (reapable_key s tnow now grace key) in H.
  destruct (sDeleteIf s tnow key (reapable_blob now grace)) as [s1 del]. cbn [fst snd] in H.
  destruct H as (Hc1 & -> & Hv1).
  specialize (IH s1 (if reapable_key s tnow now grace key then n + 1 else n)%Z
    (if reapable_key s tnow now grace key then log ++ [Event evTombstonesReaped] else log) (proj1 Hc1)).
  replace (if reapable_key s tnow now grace key then (s1, (n + 1)%Z, log ++ [Event evTombstonesReaped]) else (s1, n, log))
    with (s1, (if reapable_key s tnow now grace key then n + 1 else n)%Z,
      if reapable_key s tnow now grace key then log ++ [Event evTombstonesReaped] else log)
    by (by destruct (reapable_key s tnow now grace key)).
  destruct (foldl _ _ keys) as [[s' n'] log']. destruct IH as (Hc & Hv & -> & ->).
  assert (∀ k, k ∈ keys → reapable_key s1 tnow now grace k = reapable_key s tnow now grace k) as Hsame.
  { intros k Hin. unfold reapable_key, slive. rewrite Hv1, (bool_decide_eq_false_2 (k = key)) by (by intros ->).
    by rewrite andb_false_r. }
  assert (filter (λ k, reapable_key s1 tnow now grace k = true) keys
      = filter (λ k, reapable_key s tnow now grace k = true) keys) as ->.
  { clear -Hsame. induction keys as [|k keys IH]; [done|]. rewrite !filter_cons, IH by set_solver.
    by rewrite Hsame by set_solver. }
  split_and!; [by eapply call_ok_trans| | |].
  - intros k. rewrite Hv, Hv1. destruct (decide (k = key)) as [->|Hne].
    + rewrite (bool_decide_eq_false_2 (key ∈ keys)), (bool_decide_eq_true_2 (key = key)) by done.
      rewrite (bool_decide_eq_true_2 (key ∈ key :: keys)) by set_solver. simpl. by rewrite andb_true_r.
    + rewrite (bool_decide_eq_false_2 (k = key)) by done. rewrite andb_false_r.
      destruct (decide (k ∈ keys)) as [Hin|Hnin].
      * rewrite Hsame by done. by rewrite !bool_decide_eq_true_2 by set_solver.
      * by rewrite !bool_decide_eq_false_2 by set_solver.
  - rewrite filter_cons. destruct (reapable_key s tnow now grace key) eqn:E.
    + rewrite decide_True, len_cons by done. lia.
    + rewrite decide_False by done. lia.
  - rewrite filter_cons. destruct (reapable_key s tnow now grace key) eqn:E.
    + rewrite decide_True by done. simpl. by rewrite <-app_assoc.
    + by rewrite decide_False by done.
Qed.

(** Both phases find the key reapable. *)
Definition reaped_key s (rnow : nat → Z) (tnow now grace : Z) (key : bytes) : bool :=
  reapable_key s (rnow (sclock s key)) now grace key && reapable_key s tnow now grace key.

(** What a sweep does to the store. *)
Lemma sweep_spec o now grace rnow tnow s :
  swf s → slawful o →
  let '(s', reaped, log) := sweep o now grace rnow tnow s in
  call_ok s s'
  ∧ (∀ k, sview s' k = if reaped_key s rnow tnow now grace k then None else sview s k)
  ∧ reaped = len (filter (λ kb, reaped_key s rnow tnow now grace kb.1 = true) (sRange o s rnow))
  ∧ log = replicate (Z.to_nat reaped) (Event evTombstonesReaped).
Proof.
  intros Hs Ho. destruct (law_Range o s rnow Hs Ho) as [Hr Hnd]. unfold sweep.
  assert (∀ (l : list (bytes * bytes)) acc, foldl (λ expired '(key, blob), if reapable_blob now grace blob then expired ++ [key] else expired) acc l
    = acc ++ (filter (λ kb, reapable_blob now grace kb.2 = true) l).*1) as Hf.
  { induction l as [|[k b] l IH]; intros acc; simpl; [by rewrite app_nil_r|].
    rewrite IH, filter_cons. simpl. destruct (reapable_blob now grace b); [|done]. simpl. by rewrite <-app_assoc. }
  rewrite Hf. simpl. set (keys := (filter _ (sRange o s rnow)).*1).
  assert (NoDup keys) as Hk by (unfold keys; eapply sublist_NoDup; [exact Hnd|apply fmap_sublist, sublist_filter]).
  assert (∀ k, k ∈ keys ↔ reapable_key s (rnow (sclock s k)) now grace k = true) as Hin.
  { intros k. unfold keys, reapable_key. rewrite list_elem_of_fmap. split.
    - intros ([k1 b] & -> & [Hb Hkb]%list_elem_of_filter). apply Hr in Hkb. simpl in *. by rewrite Hkb.
    - destruct (slive s (rnow (sclock s k)) k) as [b|] eqn:E; [|done]. intros Hb. exists (k, b). split; [done|].
      apply list_elem_of_filter. split; [done|]. by apply Hr. }
  pose proof (sweep_steps now grace tnow keys s 0 [] Hs Hk) as H.
  destruct (foldl _ _ keys) as [[s' reaped] log]. destruct H as (Hcall & Hv & -> & ->).
  split_and!; [done|..|unfold len; by rewrite Z.add_0_l, Nat2Z.id].
  - intros k. rewrite Hv. unfold reaped_key.
    assert (bool_decide (k ∈ keys) = reapable_key s (rnow (sclock s k)) now grace k) as ->; [|done].
    apply eq_true_iff_eq. by rewrite bool_decide_eq_true, Hin.
  - unfold keys, len. rewrite Z.add_0_l. f_equal.
    assert (∀ l : list (bytes * bytes), (∀ kb, kb ∈ l → slive s (rnow (sclock s kb.1)) kb.1 = Some kb.2) →
      length (filter (λ k, reapable_key s tnow now grace k = true) (filter (λ kb, reapable_blob now grace kb.2 = true) l).*1)
      = length (filter (λ kb, reaped_key s rnow tnow now grace kb.1 = true) l)) as Hl.
    { induction l as [|kb l IH]; intros Hl; [done|].
      assert (reaped_key s rnow tnow now grace kb.1 = reapable_blob now grace kb.2 && reapable_key s tnow now grace kb.1) as E.
      { unfold reaped_key. f_equal. unfold reapable_key. by rewrite (Hl kb) by set_solver. }
      specialize (IH ltac:(set_solver)). rewrite !filter_cons, E.
      destruct (reapable_blob now grace kb.2); [rewrite (decide_True (P := true = true)) by done|by rewrite !decide_False by done].
      rewrite fmap_cons, filter_cons. cbn [andb]. destruct (decide (reapable_key s tnow now grace kb.1 = true)); simpl; by rewrite IH. }
    apply Hl. intros [k b] Hkb. by apply Hr.
Qed.
End gc.

(** ** Property *)

(** C28: a sweep collects exactly what may be collected. It removes the keys that
    hold only tombstones older than the grace period, all of them, counts them,
    records one event for each, and changes nothing else: a key with a live version,
    a younger tombstone or an unreadable blob is kept, and so is an entry with a TTL
    that runs out between the two looks the sweep takes at it. If another goroutine
    wrote to a key since the sweep looked at it, the removal acts on what is stored
    by then ([s1]): it drops the key only if that is still reapable. *)
Theorem sweep_exact {S} `{!Store S, !StoreLaws S} (o : sord) (now grace : Z) (rnow : nat → Z) (tnow : Z) (s : S) :
  swf s → slawful o →
  let '(s', reaped, log) := sweep o now grace rnow tnow s in
  (∀ k, sview s' k = if reaped_key s rnow tnow now grace k then None else sview s k)
  ∧ reaped = len (filter (λ kb, reaped_key s rnow tnow now grace kb.1 = true) (sRange o s rnow))
  ∧ log = replicate (Z.to_nat reaped) (Event evTombstonesReaped)
  ∧ (∀ k vs, replicated s k vs →
       reaped_key s rnow tnow now grace k = true ↔
       vs ≠ [] ∧ ∀ v, v ∈ vs → Deleted v = true ∧ (grace < Sub now (DeletedAt v))%Z)
  ∧ ∀ (s1 : S) n l k, swf s1 →
      let s2 := (sweep_step now grace tnow (s1, n, l) k).1.1 in
      ∀ k', sview s2 k' = if bool_decide (k' = k) && reapable_key s1 tnow now grace k then None else sview s1 k'.
Proof.
  intros Hs Ho. pose proof (sweep_spec o now grace rnow tnow s Hs Ho) as H.
  destruct (sweep o now grace rnow tnow s) as [[s' reaped] log]. destruct H as (_ & Hv & Hr & Hl). split_and!; [done|done|done|..].
  - intros k vs (b & Hb & Hd). unfold reaped_key, reapable_key, slive. rewrite Hb. simpl. unfold reapable_blob. rewrite Hd.
    rewrite andb_diag. apply reapable_spec.
  - intros s1 n l k Hs1 s2 k'. unfold s2, sweep_step. pose proof (law_DeleteIf s1 tnow k (reapable_blob now grace) Hs1) as H. cbv zeta in H.
    fold (reapable_key s1 tnow now grace k) in H.
    destruct (sDeleteIf s1 tnow k (reapable_blob now grace)) as [s3 del]. cbn [fst snd] in *.
    destruct H as (_ & _ & Hv'). transitivity (sview s3 k'); [by destruct del|]. rewrite Hv'. by rewrite andb_comm.
Qed.

(** ** Witness *)

Definition old_tombstone : Version := Tombstone {[str "n1" := 3%N]} 1000.

(** A store that holds one tombstone a thousand seconds old. *)
Definition tomb_store : MapStore lfu :=
  (sUpdateReplica (Store := MapStore_store) map_to_list empty_store 0 (str "k")
    (λ _, (Version.Encode (λ _, map_to_list) [old_tombstone], ()))).1.1.

Lemma sweep_exact_witness :
  let '(s', n, log) := sweep (Store0 := MapStore_store) map_to_list (2000 * 1000000000) (600 * 1000000000) (λ _, 0%Z) 0 tomb_store in
  sview (Store := MapStore_store) s' (str "k") = None ∧ n = 1%Z ∧ log = [Event evTombstonesReaped].
Proof.
  pose proof (sweep_exact (Store0 := MapStore_store) map_to_list (2000 * 1000000000) (600 * 1000000000) (λ _, 0%Z) 0 tomb_store) as H.
  destruct (sweep _ _ _ _ _ _) as [[s' n] log]. destruct H as (H1 & H2 & H3 & _).
  - pose proof (law_UpdateReplica (Store0 := MapStore_store) map_to_list empty_store 0 (str "k")
      (λ _, (Version.Encode (λ _, map_to_list) [old_tombstone], ())) (proj1 (proj1 empty_store_ok)) lawful_map_to_list) as H.
    cbv zeta in H. unfold tomb_store. destruct (sUpdateReplica _ _ _ _ _) as [[s1 r] x]. apply H.
  - apply lawful_map_to_list.
  - assert (n = 1%Z) as Hn by (rewrite H2; vm_compute; reflexivity).
    split; [rewrite H1; vm_compute; reflexivity|]. split; [exact Hn|]. rewrite H3, Hn. reflexivity.
Defined.
