(* ===== verification/Handoff.v ===== *)
(** * Hinted handoff (internal/server/handoff.go)

    Writes a replica missed are parked in a [hintStore] and replayed.  Every
    method of the hint store holds its mutex, so each is one step; a replay is
    many: one goroutine per parked hint, each a network call followed by a
    conditional [remove], interleaved with one another and with writers that
    park new hints.  [replay_step] is that interleaving; [replayOnce] is a
    round that no writer disturbs, its goroutines in any order.

    [Replicator] is the Go interface [replicator] through which the coordinator
    and the replayer reach the other nodes; [W] is the state of the network and
    of the nodes behind it. *)

From S2P Require Import Prelude.

(** ** The peer interface *)

(** An error is its message.  [PeerGet] is [Get(addr, key)]: an error, or the
    value with [None] for a miss. *)
Class Replicator (W : Type) := {
  Replicate : W → bytes → bytes → list bytes → W * option bytes;
  PeerGet : W → bytes → bytes → W * (bytes + option bytes)
}.

Definition rset : bytes := str "RSET".

(** ** The hint store *)

Record hintStore : Type := mkHints { hints : gmap bytes (gmap bytes bytes) }.

Definition NewHintStore : hintStore := mkHints ∅.

Definition add (h : hintStore) (target key blob : bytes) : hintStore :=
  let outer := default ∅ (hints h !! target) in
  mkHints (<[target := <[key := blob]> outer]> (hints h)).

(** The copy holds the same hints: fresh maps, shared blobs nobody changes. *)
Definition snapshot (h : hintStore) : gmap bytes (gmap bytes bytes) := hints h.

Definition remove (h : hintStore) (target key delivered : bytes) : hintStore :=
  match hints h !! target with
  | None => h
  | Some keys =>
      if negb (bool_decide (default [] (keys !! key) = delivered)) then h
      else
        let keys := delete key keys in
        if decide (size keys = 0%nat) then mkHints (delete target (hints h))
        else mkHints (<[target := keys]> (hints h))
  end.

Definition Size (h : hintStore) : Z :=
  map_fold (λ _ inner totalHints, totalHints + Z.of_nat (size inner))%Z 0%Z (hints h).

(** ** The replayer *)

(** A hint: target, key and blob. *)
Definition task : Type := bytes * bytes * bytes.

(** The goroutines [replayOnce] starts, one per hint of the snapshot. *)
Definition tasks_of (snap : gmap bytes (gmap bytes bytes)) : list task :=
  '(target, hintMap) ← map_to_list snap;
  '(key, blob) ← map_to_list hintMap;
  [(target, key, blob)].

Section replay.
Context {W : Type} `{!Replicator W}.

(** The body of one goroutine: the store, the network and [delivered, failed]. *)
Definition replay_task (st : hintStore * W * Z * Z) (t : task) : hintStore * W * Z * Z :=
  let '(h, w, delivered, failed) := st in
  let '(target, key, blob) := t in
  match Replicate w target rset [key; blob] with
  | (w, None) => (remove h target key blob, w, delivered + 1, failed)%Z
  | (w, Some _) => (h, w, delivered, failed + 1)%Z
  end.

(** [sched] orders the goroutines. *)
Definition replayOnce (sched : list task → list task) (h : hintStore) (w : W) : hintStore * W * Z :=
  let '(h, w, delivered, _) := foldl replay_task (h, w, 0, 0)%Z (sched (tasks_of (snapshot h))) in
  (h, w, delivered).

(** The interleaving with writers: goroutines that have not called yet, and
    those whose call succeeded and that have not removed their hint yet.  The
    last two fields record, for the statements only, the last blob parked for
    each target and key and the hints delivered. *)
Record rstate : Type := mkR {
  r_hints : hintStore;
  r_net : W;
  r_pending : list task;
  r_acked : list task;
  r_latest : gmap (bytes * bytes) bytes;
  r_delivered : list task
}.

Inductive replayer_step : rstate → rstate → Prop :=
| step_tick r :
    (** a tick: the previous round is over, and a new one takes its snapshot *)
    r_pending r = [] → r_acked r = [] →
    replayer_step r (mkR (r_hints r) (r_net r) (tasks_of (snapshot (r_hints r))) []
      (r_latest r) (r_delivered r))
| step_deliver r target key blob ts ts' w :
    r_pending r = ts ++ (target, key, blob) :: ts' →
    Replicate (r_net r) target rset [key; blob] = (w, None) →
    replayer_step r (mkR (r_hints r) w (ts ++ ts') ((target, key, blob) :: r_acked r)
      (r_latest r) ((target, key, blob) :: r_delivered r))
| step_fail r target key blob ts ts' w e :
    r_pending r = ts ++ (target, key, blob) :: ts' →
    Replicate (r_net r) target rset [key; blob] = (w, Some e) →
    replayer_step r (mkR (r_hints r) w (ts ++ ts') (r_acked r) (r_latest r) (r_delivered r))
| step_remove r target key blob ts ts' :
    r_acked r = ts ++ (target, key, blob) :: ts' →
    replayer_step r (mkR (remove (r_hints r) target key blob) (r_net r) (r_pending r) (ts ++ ts')
      (r_latest r) (r_delivered r)).

(** With the coordinators, which park hints at any time. *)
Inductive replay_step : rstate → rstate → Prop :=
| step_park r target key blob :
    replay_step r (mkR (add (r_hints r) target key blob) (r_net r) (r_pending r) (r_acked r)
      (<[(target, key) := blob]> (r_latest r)) (r_delivered r))
| step_replayer r r' : replayer_step r r' → replay_step r r'.
End replay.

(** ** Lemmas on the hint store *)

(** The blob parked for a target and a key. *)
Definition parked (h : hintStore) (target key : bytes) : option bytes :=
  hints h !! target ≫= (!!) key.

(** No target is kept without a hint. *)
Definition hints_wf (h : hintStore) : Prop := map_Forall (λ _ inner, inner ≠ ∅) (hints h).

Lemma hints_wf_new : hints_wf NewHintStore.
Proof. apply map_Forall_empty. Qed.

Lemma add_hints_wf h t k b : hints_wf h → hints_wf (add h t k b).
Proof. intros H. apply map_Forall_insert_2; [apply insert_non_empty|done]. Qed.

Lemma remove_hints_wf h t k b : hints_wf h → hints_wf (remove h t k b).
Proof.
  intros H. unfold remove. destruct (hints h !! t) as [keys|]; [|done].
  destruct (negb _); [done|]. destruct (decide _) as [|Hs]; [by apply map_Forall_delete|].
  apply map_Forall_insert_2; [|done]. intros E. rewrite E, map_size_empty in Hs. done.
Qed.

Lemma parked_add h t k b t' k' :
  parked (add h t k b) t' k' = if decide (t' = t ∧ k' = k) then Some b else parked h t' k'.
Proof.
  unfold parked, add. simpl. rewrite lookup_insert. destruct (decide (t = t')) as [->|Ht].
  - simpl. rewrite lookup_insert. destruct (decide (k = k')) as [->|Hk].
    + by rewrite decide_True.
    + rewrite decide_False by naive_solver. by destruct (hints h !! t').
  - rewrite decide_False by naive_solver. done.
Qed.

(** After [remove] the inner map has lost the key, whether or not it is kept. *)
Lemma parked_delete h t k keys t' k' :
  hints h !! t = Some keys →
  parked (if decide (size (delete k keys) = 0%nat) then mkHints (delete t (hints h))
          else mkHints (<[t := delete k keys]> (hints h))) t' k'
  = if decide (t' = t ∧ k' = k) then None else parked h t' k'.
Proof.
  intros E. assert (∀ o : option (gmap bytes bytes), o ≫= (!!) k' = default ∅ o !! k') as Hd by (by intros []).
  unfold parked. rewrite Hd. destruct (decide (t' = t)) as [->|Ht].
  - assert (default ∅ (hints (if decide (size (delete k keys) = 0%nat) then mkHints (delete t (hints h))
      else mkHints (<[t := delete k keys]> (hints h))) !! t) = delete k keys) as ->.
    { destruct (decide _) as [Hz|]; simpl; [|by rewrite lookup_insert_eq].
      rewrite lookup_delete_eq. by apply map_size_empty_inv in Hz. }
    rewrite E, lookup_delete. simpl. destruct (decide (k = k')) as [->|]; [by rewrite decide_True|].
    by rewrite decide_False by naive_solver.
  - rewrite (decide_False (P := t' = t ∧ k' = k)) by naive_solver. rewrite Hd.
    destruct (decide _); simpl; by rewrite ?lookup_delete_ne, ?lookup_insert_ne by done.
Qed.

(** [remove] takes out the hint it names when it is still the one parked, and
    nothing else. *)
Lemma parked_remove h t k b t' k' :
  parked (remove h t k b) t' k' =
    match parked h t k with
    | Some b' => if decide (b' = b ∧ t' = t ∧ k' = k) then None else parked h t' k'
    | None => parked h t' k'
    end.
Proof.
  unfold remove. destruct (hints h !! t) as [keys|] eqn:E.
  2:{ unfold parked at 2. by rewrite E. }
  assert (parked h t k = keys !! k) as -> by (unfold parked; by rewrite E).
  case_bool_decide as Hd; simpl.
  - rewrite (parked_delete h t k keys t' k' E). destruct (keys !! k) as [b'|] eqn:Ek; simpl in Hd; subst.
    + apply decide_ext. naive_solver.
    + destruct (decide _) as [[-> ->]|]; [|done]. unfold parked. by rewrite E.
  - destruct (keys !! k) as [b'|] eqn:Ek; [|done]. by rewrite decide_False by naive_solver.
Qed.

(** ** Counting hints *)

Lemma elem_of_tasks h t k b : (t, k, b) ∈ tasks_of (hints h) ↔ parked h t k = Some b.
Proof.
  unfold tasks_of, parked. rewrite list_elem_of_bind. setoid_rewrite elem_of_map_to_list'.
  split.
  - intros ([t' inner] & Hin & Ht). apply list_elem_of_bind in Hin as ([k' b'] & Hin & Hk).
    apply list_elem_of_singleton in Hin as [= <- <- <-]. apply elem_of_map_to_list in Hk.
    simpl in *. by rewrite Ht.
  - intros H. destruct (hints h !! t) as [inner|] eqn:E; [|done]. simpl in H.
    exists (t, inner). split; [|done]. apply list_elem_of_bind. exists (k, b).
    split; [by apply list_elem_of_singleton|]. by apply elem_of_map_to_list.
Qed.

Lemma NoDup_tasks h : NoDup (tasks_of (hints h)).
Proof.
  unfold tasks_of. apply NoDup_bind; [| |apply NoDup_map_to_list].
  - intros [t1 m1] [t2 m2] [[t k] b] Ht1%elem_of_map_to_list Ht2%elem_of_map_to_list H1 H2.
    apply list_elem_of_bind in H1 as ([k1 b1] & H1 & _). apply list_elem_of_bind in H2 as ([k2 b2] & H2 & _).
    apply list_elem_of_singleton in H1, H2. simplify_eq. by simplify_map_eq.
  - intros [t m] _. apply NoDup_bind; [| |apply NoDup_map_to_list].
    + intros [k1 b1] [k2 b2] y _ _ H1%list_elem_of_singleton H2%list_elem_of_singleton. by simplify_eq.
    + intros [k b] _. apply NoDup_singleton.
Qed.

Lemma Size_tasks h : Size h = len (tasks_of (hints h)).
Proof.
  unfold Size, tasks_of, len. rewrite map_fold_foldr.
  induction (map_to_list (hints h)) as [|[t m] l IH]; [done|].
  rewrite bind_cons, length_app. cbn [foldr uncurry]. rewrite IH.
  assert (∀ es : list (bytes * bytes), length (es ≫= λ '(key, blob), [(t, key, blob)]) = length es) as ->.
  { induction es as [|[k b] es IHes]; [done|]. rewrite bind_cons, length_app, IHes. done. }
  rewrite length_map_to_list. rewrite Nat2Z.inj_add. apply Z.add_comm.
Qed.

Lemma tasks_remove h t k b :
  parked h t k = Some b → tasks_of (hints h) ≡ₚ (t, k, b) :: tasks_of (hints (remove h t k b)).
Proof.
  intros Hp. apply NoDup_Permutation; [apply NoDup_tasks| |].
  - apply NoDup_cons. split; [|apply NoDup_tasks]. rewrite elem_of_tasks, parked_remove, Hp.
    by rewrite decide_True by done.
  - intros [[t' k'] b']. rewrite elem_of_cons, !elem_of_tasks, parked_remove, Hp.
    destruct (decide _) as [(_ & -> & ->)|Hd]; naive_solver.
Qed.

Lemma Size_remove h t k b : parked h t k = Some b → Size h = (1 + Size (remove h t k b))%Z.
Proof.
  intros Hp%tasks_remove%Permutation_length. rewrite !Size_tasks. unfold len. rewrite Hp. simpl. lia.
Qed.

(** ** A replay round *)

Section round.
Context {W : Type} `{!Replicator W}.
Implicit Types (w : W) (ts : list task).

(** Whether each call of a round succeeds. *)
Fixpoint outcomes w ts : list bool :=
  match ts with
  | [] => []
  | (target, key, blob) :: ts =>
      let '(w, e) := Replicate w target rset [key; blob] in
      bool_decide (e = None) :: outcomes w ts
  end.

Lemma replay_tasks ts h w d f :
  hints_wf h → NoDup ts → (∀ t k b, (t, k, b) ∈ ts → parked h t k = Some b) →
  let '(h', w', d', f') := foldl replay_task (h, w, d, f) ts in
  hints_wf h' ∧ (Size h' + d' = Size h + d)%Z ∧ (d' + f' = d + f + len ts)%Z
  ∧ ∀ t k b, parked h' t k = Some b ↔
      parked h t k = Some b ∧ ∀ i, ts !! i = Some (t, k, b) → outcomes w ts !! i = Some false.
Proof.
  revert h w d f. induction ts as [|[[t k] b] ts IH]; intros h w d f Hwf Hnd Hts; simpl.
  { split_and!; [done|lia|unfold len; simpl; lia|]. intros. by split; [intros; split|intros []]. }
  apply NoDup_cons in Hnd as [Hni Hnd].
  assert (parked h t k = Some b) as Hp by (apply Hts; set_solver).
  destruct (Replicate w t rset [k; b]) as [w1 [e|]]; simpl.
  - specialize (IH h w1 d (f + 1)%Z Hwf Hnd ltac:(set_solver)).
    destruct (foldl _ _ ts) as [[[h' w'] d'] f']. destruct IH as (? & ? & Hf & Hpk).
    split_and!; [done|lia|rewrite len_cons; lia|]. intros t' k' b'. rewrite Hpk.
    split; (intros [H1 H2]; split; [done|]).
    + intros [|i] Hi; simpl in *; [done|by apply H2].
    + intros i Hi. by apply (H2 (S i)).
  - specialize (IH (remove h t k b) w1 (d + 1)%Z f (remove_hints_wf _ _ _ _ Hwf) Hnd).
    destruct (foldl _ _ ts) as [[[h' w'] d'] f']. destruct IH as (? & Hs & Hf & Hpk).
    { intros t' k' b' Hin. rewrite parked_remove, Hp, decide_False; [apply Hts; set_solver|].
      intros (_ & -> & ->). assert (parked h t k = Some b') by (apply Hts; set_solver). naive_solver. }
    split_and!; [done| |rewrite len_cons; lia|].
    { rewrite (Size_remove h t k b Hp). lia. }
    intros t' k' b'. rewrite Hpk, parked_remove, Hp. split.
    + destruct (decide _) as [|Hd]; [by intros [? _]|]. intros [H1 H2]. split; [done|].
      intros [|i] Hi; simpl in *; [|by apply H2]. destruct Hd. naive_solver.
    + intros [H1 H2]. rewrite decide_False; [split; [done|]|].
      * intros i Hi. by apply (H2 (S i)).
      * intros (_ & -> & ->). rewrite H1 in Hp. injection Hp as ->.
        specialize (H2 0%nat eq_refl). done.
Qed.

(** What the interleaving keeps. *)
Record replay_inv (r : @rstate W) : Prop := {
  ri_wf : hints_wf (r_hints r);
  ri_acked : ∀ t, t ∈ r_acked r → t ∈ r_delivered r;
  ri_parked : ∀ t k b, parked (r_hints r) t k = Some b → r_latest r !! (t, k) = Some b;
  ri_latest : ∀ t k b, r_latest r !! (t, k) = Some b →
    parked (r_hints r) t k = Some b ∨ (t, k, b) ∈ r_delivered r
}.

Lemma replay_step_inv r r' : replay_step r r' → replay_inv r → replay_inv r'.
Proof.
  intros Hs [Hwf Hack Hpk Hlat]. destruct Hs as [r t k b|r r' [r1 Hp Ha|r1 t k b ts ts' w Hp HR
    |r1 t k b ts ts' w e Hp HR|r1 t k b ts ts' Ha]]; (split; simpl; [auto using add_hints_wf, remove_hints_wf|..]); try done.
  - intros t' k' b'. rewrite parked_add, lookup_insert. destruct (decide _) as [[-> ->]|Hd].
    + by rewrite decide_True.
    + rewrite decide_False by naive_solver. apply Hpk.
  - intros t' k' b'. rewrite parked_add, lookup_insert. destruct (decide (_ = _)) as [Heq|Hd].
    + injection Heq as -> ->. intros. left. by rewrite decide_True.
    + intros H. rewrite decide_False by naive_solver. by apply Hlat.
  - by intros t ?%elem_of_nil.
  - intros x [->|Hx]%elem_of_cons; apply elem_of_cons; [by left|right; by apply Hack].
  - intros t' k' b' H. destruct (Hlat _ _ _ H) as [?|?]; [by left|right; by apply elem_of_cons; right].
  - intros x Hx. apply Hack. rewrite Ha. set_solver.
  - intros t' k' b'. rewrite parked_remove. destruct (parked (r_hints r1) t k) as [b1|]; [|apply Hpk].
    destruct (decide _); [done|apply Hpk].
  - intros t' k' b' H. destruct (Hlat _ _ _ H) as [H1|?]; [|by right]. rewrite parked_remove.
    destruct (parked (r_hints r1) t k) as [b1|] eqn:E; [|by left].
    destruct (decide _) as [(-> & -> & ->)|]; [|by left]. right.
    assert (b = b') as -> by congruence. apply Hack. rewrite Ha. set_solver.
Qed.
End round.

(** ** Properties *)

(** C14: a hint is never lost.  Through any interleaving of writers parking
    hints, replay rounds, successful and failed deliveries and the removals
    that follow them, the last write parked for a replica and a key is still
    parked or has been delivered; in particular a newer write parked between a
    delivery and its removal survives the removal, and nothing is replayed that
    is not the latest. *)
Theorem hints_never_lost {W} `{!Replicator W} (w : W) (r : rstate) :
  rtc replay_step (mkR NewHintStore w [] [] ∅ []) r →
  hints_wf (r_hints r) ∧
  ∀ target key blob,
    (r_latest r !! (target, key) = Some blob →
       parked (r_hints r) target key = Some blob ∨ (target, key, blob) ∈ r_delivered r)
    ∧ (parked (r_hints r) target key = Some blob → r_latest r !! (target, key) = Some blob).
Proof.
  intros Hr. assert (replay_inv r) as [].
  { remember (mkR NewHintStore w [] [] ∅ []) as r0 eqn:E0.
    assert (replay_inv r0) as H0.
    { subst. split; simpl; [apply hints_wf_new|set_solver| |]; intros t k b H; [by unfold parked in H|].
      by rewrite lookup_empty in H. }
    clear E0. induction Hr as [|r1 r2 r3 Hstep _ IH]; [done|]. apply IH. by eapply replay_step_inv. }
  split; [done|]. intros t k b. auto.
Qed.

(** A replay round undisturbed by writers delivers every hint it can.  In
    whatever order its goroutines run, it keeps exactly the hints whose call
    failed, returns how many were delivered, and leaves no empty target. *)
Theorem replayOnce_spec {W} `{!Replicator W} (sched : list task → list task) (h : hintStore) (w : W) :
  (∀ ts, sched ts ≡ₚ ts) → hints_wf h →
  let ts := sched (tasks_of (hints h)) in
  let '(h', w', d) := replayOnce sched h w in
  hints_wf h' ∧ (Size h' + d = Size h)%Z ∧ (0 <= Size h')%Z
  ∧ ∀ t k b, parked h' t k = Some b ↔ ∃ i, ts !! i = Some (t, k, b) ∧ outcomes w ts !! i = Some false.
Proof.
  intros Hsched Hwf. cbv zeta. unfold replayOnce, snapshot. set (ts := sched _).
  assert (NoDup ts) as Hnd by (unfold ts; rewrite Hsched; apply NoDup_tasks).
  assert (∀ t k b, (t, k, b) ∈ ts ↔ parked h t k = Some b) as Hts
    by (intros t k b; unfold ts; by rewrite Hsched, elem_of_tasks).
  pose proof (replay_tasks ts h w 0 0 Hwf Hnd (λ t k b, proj1 (Hts t k b))) as H.
  destruct (foldl _ _ ts) as [[[h' w'] d'] f']. destruct H as (H1 & H2 & _ & H3).
  split_and!; [done|lia|rewrite Size_tasks; apply len_nonneg|]. intros t k b. rewrite H3. split.
  - intros [Hp Ho]. apply Hts, list_elem_of_lookup in Hp as [i Hi]. eauto.
  - intros (i & Hi & Ho). split; [apply Hts; by eapply list_elem_of_lookup_2|].
    intros j Hj. by rewrite (NoDup_lookup ts j i _ Hnd Hj Hi).
Qed.

(** [add] keeps the last blob parked, not the newest one: of two writes to a key
    whose fan-outs fail, the one whose goroutine parks last stays, even when
    the other supersedes it. *)
Lemma add_keeps_last h t k older newer : parked (add (add h t k newer) t k older) t k = Some older.
Proof. rewrite parked_add. by rewrite decide_True. Qed.

(** ** Witnesses *)

(** Peers that answer as a list of outcomes says. *)
Definition flaky : Replicator (list bool) := {|
  Replicate w _ _ _ := (tail w, if default true (head w) then None else Some (str "dial tcp: refused"));
  PeerGet w _ _ := (w, inr None)
|}.

(** A newer write is parked between the delivery of the older and its removal. *)
Definition raced : @rstate (list bool) :=
  mkR (add NewHintStore (str "n2") (str "k") (str "v2")) [] [] []
    {[(str "n2", str "k") := str "v2"]} [(str "n2", str "k", str "v1")].

Lemma hints_never_lost_witness : parked (r_hints raced) (str "n2") (str "k") = Some (str "v2").
Proof.
  destruct (hints_never_lost (Replicator0 := flaky) [] raced) as [_ H].
  - eapply rtc_l; [apply (step_park _ (str "n2") (str "k") (str "v1"))|].
    eapply rtc_l; [apply step_replayer, step_tick; reflexivity|].
    eapply rtc_l; [apply step_replayer, (step_deliver _ (str "n2") (str "k") (str "v1") [] [] []); reflexivity|].
    eapply rtc_l; [apply (step_park _ (str "n2") (str "k") (str "v2"))|].
    eapply rtc_l; [apply step_replayer, (step_remove _ (str "n2") (str "k") (str "v1") [] []); reflexivity|].
    apply reflexive_eq. vm_compute. reflexivity.
  - destruct (H (str "n2") (str "k") (str "v2")) as [H1 _].
    destruct (H1 eq_refl) as [H2|H2]; [exact H2|]. exfalso.
    apply list_elem_of_singleton in H2. discriminate H2.
Defined.

Lemma replayOnce_spec_witness :
  let h := add (add NewHintStore (str "n2") (str "k") (str "v")) (str "n3") (str "k") (str "v") in
  let '(h', _, d) := @replayOnce _ flaky reverse h [true; false] in (Size h' + d = 2)%Z.
Proof.
  intros h. pose proof (replayOnce_spec (Replicator0 := flaky) reverse h [true; false]) as H.
  destruct (@replayOnce _ flaky reverse h [true; false]) as [[h' w'] d].
  destruct H as (_ & E & _).
  - intros ts. apply reverse_Permutation.
  - apply add_hints_wf, add_hints_wf, hints_wf_new.
  - rewrite E. reflexivity.
Defined.
