(* ===== verification/Coordinator.v ===== *)
(** * The coordinator (internal/server/coordinator.go)

    Quorum replication of one client operation.  A call has two phases: what
    happens before the reply, and what the goroutines it leaves behind do
    afterwards (the rest of the fan-out, read repair).  [outcome] keeps the two
    apart: the reply, the state when it is sent, and the background work.

    The goroutines of [gather] and [read] send their results on a channel; the
    order in which they arrive is [e_arrive], and one goroutine's call is one
    step.  The loop that receives stops at the quorum, so the calls it did not
    wait for are background work. *)

From S2P Require Import Prelude Telemetry Binenc Resp Vclock Version Sketch Policy MapStore ShardedStore.
From S2P Require Import Membership Ring Router Replica Handoff.

(** ** Names and messages *)

(** [strings.ToUpper], exact for comparisons with a word of ASCII capitals: the
    letters that become ASCII are a to z, dotless i (C4 B1) and long s (C5 BF);
    no other character becomes one, so leaving it as it is decides the same. *)
Definition upper_byte (c : byte) : byte :=
  if (97 <=? Byte.to_N c)%N && (Byte.to_N c <=? 122)%N then byte_of_N (Byte.to_N c - 32) else c.

Fixpoint ToUpper (s : bytes) : bytes :=
  match s with
  | xc4 :: (xb1 :: s) => x49 :: ToUpper s
  | xc5 :: (xbf :: s) => x53 :: ToUpper s
  | c :: s => upper_byte c :: ToUpper s
  | [] => []
  end.

Definition get_verb : bytes := str "GET".
Definition set_verb : bytes := str "SET".
Definition del_verb : bytes := str "DEL".

Definition evHintsParked : bytes := str "hints_parked".
Definition evReadRepairs : bytes := str "read_repairs".

(** [err.Error()] of the store's sentinel errors. *)
Definition store_error (e : storeErr) : bytes :=
  match e with
  | ErrEmptyKey => str "store: key must not be empty"
  | ErrKeyTooLarge => str "store: key exceeds maximum size"
  | ErrValueTooLarge => str "store: value exceeds maximum size"
  | ErrInvalidTTL => str "store: ttl must be positive"
  end.

Definition quorumError (op : bytes) (got need : Z) : Resp.Value :=
  Error (str "ERR " ++ op ++ str " quorum not met: " ++ Itoa got ++ str " of " ++ Itoa need ++ str " replicas").

Definition peersExcept (replicas : list bytes) (self : bytes) : list bytes :=
  foldl (λ peers addr, if bool_decide (addr = self) then peers else peers ++ [addr]) [] replicas.

(** ** gather *)

(** The receiving loop over the results in their order of arrival: the count,
    the state, and the calls it did not wait for. *)
Fixpoint gather_loop {T} (op : bytes → T → bool * T) (need acks : Z) (arrivals : list bytes) (s : T) :
    Z * T * list bytes :=
  match arrivals with
  | [] => (acks, s, [])
  | addr :: rest =>
      if (need <=? acks)%Z then (acks, s, arrivals)
      else
        let '(ok, s) := op addr s in
        gather_loop op need (if ok : bool then acks + 1 else acks)%Z rest s
  end.

Definition gather {T} (arrive : list bytes → list bytes) (peers : list bytes) (need : Z)
    (op : bytes → T → bool * T) (s : T) : Z * T * list bytes :=
  gather_loop op need 1 (arrive peers) s.

(** The calls [gather] did not wait for run to completion too. *)
Definition drain {T} (op : bytes → T → bool * T) (rest : list bytes) (s : T) : T :=
  foldl (λ s addr, (op addr s).2) s rest.

Section coordinator.
Context {S W : Type} `{!Store S, !Replicator W}.

(** ** State *)

Record Coordinator : Type := mkCoordinator {
  c_self : bytes;
  c_router : Router;
  c_n : Z;
  c_r : Z;
  c_w : Z
}.

(** What the coordinator's calls change: the local store, the hints, the other
    nodes, and the log of telemetry calls ([apply_call] folds it into counters). *)
Record cstate : Type := mkC {
  c_store : S;
  c_hints : hintStore;
  c_net : W;
  c_events : list telemetryCall
}.

(** What a call does not choose: the clock (each time a sweep of the store reads it,
    for the handler's commands that make one), the map iteration orders (of the
    store, of each [Encode] by call site, of the responders) and the order in
    which results arrive. *)
Record env : Type := mkEnv {
  e_now : Z;
  e_sweep : nat → Z;
  e_store : sord;
  e_clock : list nat → nat → Clock → list (bytes * N);
  e_responders : gmap bytes (list Version) → list (bytes * list Version);
  e_arrive : list bytes → list bytes
}.

Record outcome : Type := mkOutcome {
  o_reply : Resp.Value;
  o_state : cstate;
  o_background : cstate → cstate
}.

Definition with_store (st : cstate) (s : S) : cstate := mkC s (c_hints st) (c_net st) (c_events st).
Definition with_net (st : cstate) (w : W) : cstate := mkC (c_store st) (c_hints st) w (c_events st).
Definition record (st : cstate) (call : telemetryCall) : cstate :=
  mkC (c_store st) (c_hints st) (c_net st) (c_events st ++ [call]).

(** ** Writes *)

(** The function [gather] runs for each peer: an unreachable one gets a hint. *)
Definition call_done (key blob addr : bytes) (err : option bytes) (st : cstate) : bool * cstate :=
  match err with
  | Some _ =>
      (false, record (mkC (c_store st) (add (c_hints st) addr key blob) (c_net st) (c_events st))
                (Event evHintsParked))
  | None => (true, st)
  end.

Definition replicate_op (key blob addr : bytes) (st : cstate) : bool * cstate :=
  let '(w, err) := Replicate (c_net st) addr rset [key; blob] in
  call_done key blob addr err (with_net st w).

(** The local half of a write: the new clock is minted inside the update. *)
Definition write_local (e : env) (c : Coordinator) (st : cstate) (key value : bytes) :
    cstate * gres storeErr unit * Clock :=
  let '(s, err, newClock) :=
    sUpdateReplica (e_store e) (c_store st) (e_now e) key (λ old,
      let existing := decode_or_nil old in
      let newClock := Increment (Frontier existing) (c_self c) in
      (Version.Encode (e_clock e [0%nat]) (Reconcile existing (mkVersion value newClock false 0)), newClock)) in
  (with_store st s, err, newClock).

(** [None] is a panic, which the store excludes. *)
Definition write (e : env) (c : Coordinator) (st : cstate) (key value : bytes) : option outcome :=
  let '(st, err, newClock) := write_local e c st key value in
  match err with
  | Panic => None
  | Err err => Some (mkOutcome (Error (str "ERR " ++ store_error err)) st id)
  | Ok _ =>
      let blob := Version.Encode (e_clock e [1%nat]) [mkVersion value newClock false 0] in
      let replicas := Owners (c_router c) key (c_n c) in
      let need := Z.min (c_w c) (len replicas) in
      let '(acks, st, rest) :=
        gather (e_arrive e) (peersExcept replicas (c_self c)) need (replicate_op key blob) st in
      let reply := if (need <=? acks)%Z then SimpleString (str "OK") else quorumError (str "write") acks need in
      Some (mkOutcome reply st (drain (replicate_op key blob) rest))
  end.

(** [time.Now().Unix()], with the clock in nanoseconds. *)
Definition unix (now : Z) : Z := (now / 1000000000)%Z.

Definition delete_local (e : env) (c : Coordinator) (st : cstate) (key : bytes) :
    cstate * gres storeErr unit * (Clock * Z) :=
  let deletedAt := unix (e_now e) in
  let '(s, err, x) :=
    sUpdateReplica (e_store e) (c_store st) (e_now e) key (λ old,
      let existing := decode_or_nil old in
      let newClock := Increment (Frontier existing) (c_self c) in
      let opState := if (0 <? len (Live existing))%Z then 1%Z else 0%Z in
      (Version.Encode (e_clock e [0%nat]) (Reconcile existing (Tombstone newClock deletedAt)),
       (newClock, opState))) in
  (with_store st s, err, x).

Definition delete (e : env) (c : Coordinator) (st : cstate) (key : bytes) : option outcome :=
  let deletedAt := unix (e_now e) in
  let '(st, err, (newClock, opState)) := delete_local e c st key in
  match err with
  | Panic => None
  | Err err => Some (mkOutcome (Error (str "ERR " ++ store_error err)) st id)
  | Ok _ =>
      let blob := Version.Encode (e_clock e [1%nat]) [Tombstone newClock deletedAt] in
      let replicas := Owners (c_router c) key (c_n c) in
      let need := Z.min (c_w c) (len replicas) in
      let '(acks, st, rest) :=
        gather (e_arrive e) (peersExcept replicas (c_self c)) need (replicate_op key blob) st in
      let reply := if (need <=? acks)%Z then Integer opState else quorumError (str "delete") acks need in
      Some (mkOutcome reply st (drain (replicate_op key blob) rest))
  end.

(** ** Reads *)

Record readState : Type := mkRead {
  responses : Z;
  merged : list Version;
  responders : gmap bytes (list Version)
}.

(** One result received: a failed call or an undecodable blob is no response. *)
Definition receive_result (rd : readState) (addr : bytes) (res : bytes + option bytes) : readState :=
  match res with
  | inl _ => rd
  | inr d =>
      match Version.Decode (default [] d) with
      | Ok versions =>
          mkRead (responses rd + 1) (foldl Reconcile (merged rd) versions)
            (<[addr := versions]> (responders rd))
      | _ => rd
      end
  end.

Fixpoint read_loop (key : bytes) (need : Z) (arrivals : list bytes) (w : W) (rd : readState) :
    W * readState * list bytes :=
  match arrivals with
  | [] => (w, rd, [])
  | addr :: rest =>
      if (need <=? responses rd)%Z then (w, rd, arrivals)
      else
        let '(w, res) := PeerGet w addr key in
        read_loop key need rest w (receive_result rd addr res)
  end.

(** The body of the loop of [readRepair] for the [i]-th responder. *)
Definition repair (e : env) (c : Coordinator) (key : bytes) (merged : list Version) (i : nat)
    (st : cstate) (addr : bytes) (set : list Version) : cstate :=
  if EqualVersions set merged then st
  else
    let st := record st (Event evReadRepairs) in
    if bool_decide (addr = c_self c) then
      let '(s, _, _) :=
        sUpdateReplica (e_store e) (c_store st) (e_now e) key (λ old,
          (Version.Encode (e_clock e [2%nat]) (foldl Reconcile (decode_or_nil old) merged), ())) in
      with_store st s
    else
      foldl (λ st '(j, v),
          with_net st
            (Replicate (c_net st) addr rset [key; Version.Encode (e_clock e [3%nat; i; j]) [v]]).1)
        st (imap pair merged).

Definition readRepair (e : env) (c : Coordinator) (key : bytes) (merged : list Version)
    (responders : gmap bytes (list Version)) (st : cstate) : cstate :=
  foldl (λ st '(i, (addr, set)), repair e c key merged i st addr set)
    st (imap pair (e_responders e responders)).

(** The reply: a tombstone or an empty set is a miss. *)
Definition read_reply (merged : list Version) : Resp.Value :=
  match Live merged with
  | [] => BulkString None
  | v :: _ => BulkString (Some (Version.Value v))
  end.

Definition read (e : env) (c : Coordinator) (st : cstate) (key : bytes) : outcome :=
  let replicas := Owners (c_router c) key (c_n c) in
  let need := Z.min (c_r c) (len replicas) in
  let '(s, blob) := sGet (c_store st) (e_now e) key in
  let local := decode_or_nil (default [] blob) in
  let st := with_store st s in
  let rd := mkRead 1 local {[c_self c := local]} in
  let '(w, rd, rest) :=
    if (responses rd <? need)%Z
    then read_loop key need (e_arrive e (peersExcept replicas (c_self c))) (c_net st) rd
    else (c_net st, rd, []) in
  let st := with_net st w in
  (** the reads not waited for *)
  let late st := foldl (λ st addr, with_net st (PeerGet (c_net st) addr key).1) st rest in
  if (responses rd <? need)%Z then mkOutcome (quorumError (str "read") (responses rd) need) st late
  else
    mkOutcome (read_reply (merged rd)) st
      (λ st, late (if (1 <? responses rd)%Z then readRepair e c key (merged rd) (responders rd) st else st)).

(** [None] is a panic: an argument out of range, which the arity check of
    [Handle] excludes, or the store's. *)
Definition coordinate (e : env) (c : Coordinator) (st : cstate) (cmd : Command) : option outcome :=
  match Args cmd with
  | [] => None
  | key :: args =>
      let name := ToUpper (Name cmd) in
      if bool_decide (name = set_verb) then
        match args with [] => None | value :: _ => write e c st key value end
      else if bool_decide (name = del_verb) then delete e c st key
      else if bool_decide (name = get_verb) then Some (read e c st key)
      else Some (mkOutcome (Error (str "ERR command not coordinated")) st id)
  end.
End coordinator.

(** ** What the coordinator relies on

    The contract of the node-to-node calls: [peer_holds w a k c] says the node at
    [a] covers the history [c] of key [k], and [peer_only w k Q] that every
    version any node holds for [k] satisfies [Q].  An acknowledged RSET is held
    by the node that acknowledged it, calls lose and invent nothing, and a read
    returns what the node holds. *)
Class ReplicatorLaws (W : Type) `{!Replicator W} := {
  peer_ok : W → Prop;
  peer_holds : W → bytes → bytes → Clock → Prop;
  peer_only : W → bytes → (Version → Prop) → Prop;
  law_Replicate w addr key blob v w' err :
    peer_ok w → Version.Decode blob = Ok [v] → Replicate w addr rset [key; blob] = (w', err) →
    peer_ok w' ∧ (∀ a k c, peer_holds w a k c → peer_holds w' a k c)
    ∧ (∀ k Q, (k = key → Q v) → peer_only w k Q → peer_only w' k Q)
    ∧ (err = None → peer_holds w' addr key (Clk v));
  law_PeerGet w addr key w' res :
    peer_ok w → PeerGet w addr key = (w', res) →
    peer_ok w' ∧ (∀ a k c, peer_holds w a k c → peer_holds w' a k c)
    ∧ (∀ k Q, peer_only w k Q → peer_only w' k Q)
    ∧ ∀ d vs, res = inr d → Version.Decode (default [] d) = Ok vs →
        (∀ c, peer_holds w addr key c → covers vs c) ∧ (∀ Q, peer_only w key Q → Forall Q vs)
}.

(** ** Lemmas on the fan-out *)

Lemma elem_of_peersExcept replicas self a : a ∈ peersExcept replicas self ↔ a ∈ replicas ∧ a ≠ self.
Proof.
  unfold peersExcept.
  enough (∀ acc, a ∈ foldl (λ peers addr, if bool_decide (addr = self) then peers else peers ++ [addr]) acc replicas
    ↔ a ∈ acc ∨ (a ∈ replicas ∧ a ≠ self)) as H by (rewrite H; set_solver).
  induction replicas as [|x l IH]; intros acc; simpl; [set_solver|]. rewrite IH. case_bool_decide; set_solver.
Qed.

Lemma peersExcept_filter replicas self : peersExcept replicas self = filter (λ a, a ≠ self) replicas.
Proof.
  unfold peersExcept.
  enough (∀ acc, foldl (λ peers addr, if bool_decide (addr = self) then peers else peers ++ [addr]) acc replicas
    = acc ++ filter (λ a, a ≠ self) replicas) as H by apply (H []).
  induction replicas as [|x l IH]; intros acc; simpl; [by rewrite filter_nil, app_nil_r|].
  rewrite IH, filter_cons. case_bool_decide as Hx.
  - by rewrite decide_False by naive_solver.
  - rewrite decide_True by done. by rewrite <-app_assoc.
Qed.

(** The peers are the replicas but for this node. *)
Lemma length_peersExcept replicas self :
  NoDup replicas → self ∈ replicas → (len (peersExcept replicas self) + 1 = len replicas)%Z.
Proof.
  intros Hnd Hin. rewrite peersExcept_filter. unfold len.
  induction Hnd as [|x l Hx Hnd IH]; [by apply elem_of_nil in Hin|]. rewrite filter_cons.
  destruct (decide (x = self)) as [->|Hne].
  - rewrite decide_False by naive_solver. rewrite filter_all; [simpl; lia|]. by intros y Hy ->.
  - rewrite decide_True by done. apply elem_of_cons in Hin as [->|Hin]; [done|]. simpl.
    specialize (IH Hin). lia.
Qed.

(** What the receiving loop has seen when it stops: some of the calls it waited
    for were acknowledged, the others failed, and it stopped at the quorum or
    after the last one. *)
Lemma gather_loop_spec {T} (op : bytes → T → bool * T) (I : T → Prop) (P F : bytes → T → Prop)
    need acks l s acks' s' rest :
  (∀ a s ok s', I s → op a s = (ok, s') →
    I s' ∧ (ok = true → P a s') ∧ (ok = false → F a s') ∧ (∀ b, P b s → P b s') ∧ (∀ b, F b s → F b s')) →
  I s → gather_loop op need acks l s = (acks', s', rest) →
  I s' ∧ ∃ waited acked, l = waited ++ rest ∧ sublist acked waited ∧ (acks' = acks + len acked)%Z
    ∧ (∀ a, a ∈ acked → P a s') ∧ (∀ a, a ∈ waited → a ∈ acked ∨ F a s')
    ∧ (rest = [] ∨ need <= acks')%Z ∧ (∀ b, P b s → P b s') ∧ (∀ b, F b s → F b s').
Proof.
  intros Hop. revert acks s. induction l as [|a l IH]; intros acks s HI H; simpl in H.
  { simplify_eq. split; [done|]. exists [], []. split_and!; try done; [unfold len; simpl; lia| | |by left];
      by intros a ?%elem_of_nil. }
  destruct (Z.leb_spec need acks) as [Hq|Hq].
  { simplify_eq. split; [done|]. exists [], []. split_and!; try done; [unfold len; simpl; lia| | |by right];
      by intros b ?%elem_of_nil. }
  destruct (op a s) as [ok s1] eqn:E. destruct (Hop a s ok s1 HI E) as (HI1 & HP & HF & HmP & HmF).
  destruct (IH _ _ HI1 H) as (HI' & waited & acked & -> & Hsub & Hn & HA & HW & Hst & HmP' & HmF').
  split; [done|]. exists (a :: waited). destruct ok.
  - exists (a :: acked). split_and!; [done|by apply sublist_skip|rewrite len_cons; lia| | |done|auto..].
    + intros b [->|Hb]%elem_of_cons; auto.
    + intros b [->|Hb]%elem_of_cons; [left; set_solver|]. destruct (HW b Hb); [left; set_solver|by right].
  - exists acked. split_and!; [done|by apply sublist_cons|lia|auto| |done|auto..].
    intros b [->|Hb]%elem_of_cons; [right; auto|auto].
Qed.

(** The calls left behind keep what was reached and add their own result. *)
Lemma drain_spec {T} (op : bytes → T → bool * T) (I : T → Prop) (P F : bytes → T → Prop) l s :
  (∀ a s ok s', I s → op a s = (ok, s') →
    I s' ∧ (ok = true → P a s') ∧ (ok = false → F a s') ∧ (∀ b, P b s → P b s') ∧ (∀ b, F b s → F b s')) →
  I s → I (drain op l s) ∧ (∀ b, P b s → P b (drain op l s)) ∧ (∀ b, F b s → F b (drain op l s))
    ∧ ∀ a, a ∈ l → P a (drain op l s) ∨ F a (drain op l s).
Proof.
  intros Hop. unfold drain. revert s. induction l as [|a l IH]; intros s HI; simpl.
  { split_and!; try done. by intros a ?%elem_of_nil. }
  destruct (op a s) as [ok s1] eqn:E. destruct (Hop a s ok s1 HI E) as (HI1 & HP & HF & HmP & HmF). simpl.
  destruct (IH s1 HI1) as (HI' & HmP' & HmF' & Hl). split_and!; [done|auto|auto|].
  intros b [->|Hb]%elem_of_cons; [|auto]. destruct ok; [left|right]; auto.
Qed.

(** ** The contract of a call *)

Section contract.
Context {S W : Type} `{!Store S, !StoreLaws S, !Replicator W, !ReplicatorLaws W}.
Implicit Types (st : @cstate S W) (e : @env S _) (w : W) (key blob : bytes) (v : Version).

(** The clock is an [int64] of nanoseconds, the iteration orders enumerate
    their maps, and every result arrives once. *)
Record lawful_env e : Prop := {
  le_now : (- 2 ^ 63 <= e_now e < 2 ^ 63)%Z;
  le_store : slawful (e_store e);
  le_clock : ∀ site, lawful_order (e_clock e site);
  le_responders : ∀ m, e_responders e m ≡ₚ map_to_list m;
  le_arrive : ∀ l, e_arrive e l ≡ₚ l
}.

(** [w'] comes from [w] by storing only versions that [V] allows. *)
Definition grows (V : bytes → Version → Prop) w w' : Prop :=
  (∀ a k c, peer_holds w a k c → peer_holds w' a k c)
  ∧ ∀ k Q, (∀ v, V k v → Q v) → peer_only w k Q → peer_only w' k Q.

Lemma grows_refl V w : grows V w w.
Proof. by split. Qed.

Lemma grows_trans V w1 w2 w3 : grows V w1 w2 → grows V w2 w3 → grows V w1 w3.
Proof. intros [H1 H2] [H3 H4]. split; auto. Qed.

Lemma grows_weaken (V V' : bytes → Version → Prop) w w' : (∀ k v, V k v → V' k v) → grows V w w' → grows V' w w'.
Proof. intros HV [H1 H2]. split; auto. Qed.

(** Storing [v] under [key], and storing nothing. *)
Definition only_at key v (k : bytes) (v' : Version) : Prop := k = key ∧ v' = v.
Definition nothing (k : bytes) (v : Version) : Prop := False.

Lemma Replicate_grows w addr key blob v w' err :
  peer_ok w → Version.Decode blob = Ok [v] → Replicate w addr rset [key; blob] = (w', err) →
  peer_ok w' ∧ grows (only_at key v) w w' ∧ (err = None → peer_holds w' addr key (Clk v)).
Proof.
  intros Hw Hd HR. destruct (law_Replicate _ _ _ _ _ _ _ Hw Hd HR) as (? & Hh & Ho & Ha).
  split_and!; [done| |done]. split; [done|]. intros k Q HQ. apply Ho. intros ->. by apply HQ.
Qed.

Lemma PeerGet_grows w addr key w' res :
  peer_ok w → PeerGet w addr key = (w', res) → peer_ok w' ∧ grows nothing w w'.
Proof.
  intros Hw HG. destruct (law_PeerGet _ _ _ _ _ Hw HG) as (? & Hh & Ho & _). split; [done|]. split; auto.
Qed.

Lemma replicate_op_spec st0 key blob v :
  Version.Decode blob = Ok [v] →
  ∀ a st ok st',
    (peer_ok (c_net st) ∧ c_store st = c_store st0 ∧ grows (only_at key v) (c_net st0) (c_net st)) →
    replicate_op key blob a st = (ok, st') →
    (peer_ok (c_net st') ∧ c_store st' = c_store st0 ∧ grows (only_at key v) (c_net st0) (c_net st'))
    ∧ (ok = true → peer_holds (c_net st') a key (Clk v))
    ∧ (ok = false → parked (c_hints st') a key = Some blob)
    ∧ (∀ b, peer_holds (c_net st) b key (Clk v) → peer_holds (c_net st') b key (Clk v))
    ∧ (∀ b, parked (c_hints st) b key = Some blob → parked (c_hints st') b key = Some blob).
Proof.
  intros Hd a st ok st' (Hok & Hst & Hg) Hop. unfold replicate_op in Hop.
  destruct (Replicate (c_net st) a rset [key; blob]) as [w' err] eqn:HR.
  destruct (Replicate_grows _ _ _ _ _ _ _ Hok Hd HR) as (Hok' & Hg' & Ha).
  assert (grows (only_at key v) (c_net st0) w') by (by eapply grows_trans).
  destruct err as [msg|]; simplify_eq/=; (split_and!; [done..| | | | ]); try done.
  - intros _. rewrite parked_add. by rewrite decide_True.
  - intros b. apply (proj1 Hg').
  - intros b Hb. rewrite parked_add. by destruct (decide _).
  - intros _. by apply Ha.
  - intros b. apply (proj1 Hg').
Qed.

(** The fan-out of a write: the state when the reply is sent, and when every
    call has finished. *)
Record fan_out (peers : list bytes) key blob v st (acks : Z) st' st'' : Prop := {
  fo_store : c_store st' = c_store st ∧ c_store st'' = c_store st;
  fo_ok : peer_ok (c_net st') ∧ peer_ok (c_net st'');
  fo_grows : grows (only_at key v) (c_net st) (c_net st') ∧ grows (only_at key v) (c_net st') (c_net st'');
  fo_acks : ∃ acked, sublist acked peers ∧ acks = (1 + len acked)%Z
    ∧ ∀ a, a ∈ acked → peer_holds (c_net st') a key (Clk v);
  fo_all : ∀ a, a ∈ peers →
    peer_holds (c_net st'') a key (Clk v) ∨ parked (c_hints st'') a key = Some blob
}.

Lemma gather_fan_out e peers key blob v need st acks st' rest :
  lawful_env e → peer_ok (c_net st) → Version.Decode blob = Ok [v] →
  gather (e_arrive e) peers need (replicate_op key blob) st = (acks, st', rest) →
  fan_out (e_arrive e peers) key blob v st acks st' (drain (replicate_op key blob) rest st')
  ∧ (acks < need → rest = [])%Z.
Proof.
  intros He Hok Hd Hg. pose proof (replicate_op_spec st key blob v Hd) as Hop.
  destruct (gather_loop_spec _ _ (λ a st, peer_holds (c_net st) a key (Clk v))
    (λ a st, parked (c_hints st) a key = Some blob) _ _ _ _ _ _ _ Hop
    (conj Hok (conj eq_refl (grows_refl _ _))) Hg)
    as ((Hok' & Hst' & Hg') & waited & acked & Hl & Hsub & -> & HA & HW & Hstop & _).
  pose proof (replicate_op_spec st' key blob v Hd) as Hop'.
  destruct (drain_spec _ _ (λ a st, peer_holds (c_net st) a key (Clk v))
    (λ a st, parked (c_hints st) a key = Some blob) rest st' Hop'
    (conj Hok' (conj eq_refl (grows_refl _ _))))
    as ((Hok'' & Hst'' & Hg'') & HmP & HmF & Hrest).
  split; [|intros Hlt; destruct Hstop; [done|lia]]. split; [by rewrite Hst''|done|done| |].
  - exists acked. split_and!; [|done|done]. rewrite Hl. by apply sublist_inserts_r.
  - intros a Ha. rewrite Hl in Ha. apply elem_of_app in Ha as [Ha|Ha]; [|by apply Hrest].
    destruct (HW a Ha) as [H|H]; [left; by apply HmP, HA|right; by apply HmF].
Qed.

(** ** Coordinated writes *)

(** The local half of a write: [UpdateReplica] with a function that mints the
    version [mk clock] and reconciles it. *)
Lemma mint_update {X : Type} (o : sord) (s : S) (now : Z) key (self : bytes) (mk : Clock → Version)
    (ord : nat → Clock → list (bytes * N)) (fn : bytes → bytes * X) :
  store_ok s → slawful o → lawful_order ord →
  (∀ c, Clk (mk c) = c) → version_ids (mk (mint self (siblings s now key))) →
  (counter (Frontier (siblings s now key)) self < 2 ^ 64 - 1)%N →
  (∀ old, (fn old).1 = Version.Encode ord (Reconcile (decode_or_nil old)
    (mk (Increment (Frontier (decode_or_nil old)) self)))) →
  let v := mk (mint self (siblings s now key)) in
  let '(s', r, x) := sUpdateReplica o s now key fn in
  x = (fn (default [] (slive s now key))).2 ∧ call_ok s s' ∧
  match r with
  | Ok _ => replicated s' key [v] ∧ bystanders s s' key ∧ version_wf v
  | Err _ => ∀ k, sview s' k = sview s k
  | Panic => False
  end.
Proof.
  intros Hs Ho Hord Hmk Hids Hc Hfn. cbv zeta. set (v := mk _).
  assert (reconcile_all (siblings s now key) [v] = [v]) as Hrec.
  { unfold reconcile_all. simpl. apply Reconcile_dominating. intros w Hw. unfold v. rewrite Hmk.
    apply mint_supersedes; [lia|done]. }
  pose proof (update_siblings o s now key fn ord [v] Hs Ho Hord) as H. rewrite Hrec in H.
  specialize (H ltac:(by apply Forall_singleton)). rewrite Hfn in H.
  specialize (H ltac:(by rewrite <-Hrec)).
  destruct (sUpdateReplica o s now key fn) as [[s' r] x]. destruct H as (-> & _ & Hs' & Hr).
  split_and!; [done..|]. destruct r as [u|err|]; [|by apply Hr|done]. destruct Hr as (Hrep & Hby & Hl).
  split_and!; [done..|]. destruct Hs as [_ Hlim].
  destruct (Encode_short_wf ord [v] Hord) as [Hw _]; [by apply Forall_singleton|lia|].
  exact (Forall_inv Hw).
Qed.

(** How a coordinated write of [v] ends: refused by the size limits, with
    nothing changed anywhere; or stored locally and fanned out, the reply
    deciding on the acknowledgements. *)
Inductive write_outcome e (c : Coordinator) st key v (done : Resp.Value) (op : bytes) (o : outcome) : Prop :=
| write_refused err :
    o_reply o = Error (str "ERR " ++ store_error err) →
    call_ok (c_store st) (c_store (o_state o)) →
    (∀ k, sview (c_store (o_state o)) k = sview (c_store st) k) →
    c_net (o_state o) = c_net st → c_hints (o_state o) = c_hints st →
    (∀ st', o_background o st' = st') →
    write_outcome e c st key v done op o
| write_stored acks blob s :
    let replicas := Owners (c_router c) key (c_n c) in
    let need := Z.min (c_w c) (len replicas) in
    call_ok (c_store st) s → replicated s key [v] → bystanders (c_store st) s key →
    Version.Decode blob = Ok [v] →
    fan_out (e_arrive e (peersExcept replicas (c_self c))) key blob v (with_store st s) acks
      (o_state o) (o_background o (o_state o)) →
    o_reply o = (if (need <=? acks)%Z then done else quorumError op acks need) →
    write_outcome e c st key v done op o.

(** The two coordinated writes, from the local half to the reply. *)
Lemma coordinated_write e c st key s v (done : Resp.Value) (op : bytes) :
  lawful_env e → call_ok (c_store st) s → peer_ok (c_net st) →
  replicated s key [v] → bystanders (c_store st) s key → version_wf v →
  let blob := Version.Encode (e_clock e [1%nat]) [v] in
  let replicas := Owners (c_router c) key (c_n c) in
  let need := Z.min (c_w c) (len replicas) in
  let '(acks, st', rest) :=
    gather (e_arrive e) (peersExcept replicas (c_self c)) need (replicate_op key blob) (with_store st s) in
  write_outcome e c st key v done op
    (mkOutcome (if (need <=? acks)%Z then done else quorumError op acks need) st'
      (drain (replicate_op key blob) rest)).
Proof.
  intros He Hs Hok Hrep Hby Hwf. cbv zeta. set (blob := Version.Encode _ _).
  assert (Version.Decode blob = Ok [v]) as Hd.
  { apply decode_encode_wf; [apply He|by apply Forall_singleton|done]. }
  destruct (gather _ _ _ _ _) as [[acks st'] rest] eqn:E.
  destruct (gather_fan_out e _ key blob v _ (with_store st s) _ _ _ He Hok Hd E) as [Hfo _].
  by eapply write_stored.
Qed.

(** What the local half leaves: the version alone under the key, or nothing
    changed. *)
Definition stored_locally st key v st' (r : gres storeErr unit) : Prop :=
  call_ok (c_store st) (c_store st') ∧ st' = with_store st (c_store st') ∧
  match r with
  | Ok _ => replicated (c_store st') key [v] ∧ bystanders (c_store st) (c_store st') key ∧ version_wf v
  | Err _ => ∀ k, sview (c_store st') k = sview (c_store st) k
  | Panic => False
  end.

Lemma write_local_spec e c st key value :
  lawful_env e → store_ok (c_store st) → (len (c_self c) < 2 ^ 16)%Z →
  (counter (Frontier (siblings (c_store st) (e_now e) key)) (c_self c) < 2 ^ 64 - 1)%N →
  let newClock := mint (c_self c) (siblings (c_store st) (e_now e) key) in
  ∃ st' r, write_local e c st key value = (st', r, newClock)
    ∧ stored_locally st key (mkVersion value newClock false 0) st' r.
Proof.
  intros He Hs Hself Hc. cbv zeta. set (existing := siblings (c_store st) (e_now e) key) in *.
  destruct (mint_ids (c_self c) existing Hself (siblings_ids _ _ _)) as [Hn Hcw].
  unfold write_local.
  pose proof (mint_update (e_store e) (c_store st) (e_now e) key (c_self c)
    (λ clk, mkVersion value clk false 0) (e_clock e [0%nat])
    (λ old, (Version.Encode (e_clock e [0%nat]) (Reconcile (decode_or_nil old)
      (mkVersion value (Increment (Frontier (decode_or_nil old)) (c_self c)) false 0)),
      Increment (Frontier (decode_or_nil old)) (c_self c)))) as H.
  cbv zeta in H |- *.
  destruct (sUpdateReplica _ _ _ _ _) as [[s r] x]. destruct H as (-> & Hs' & Hr);
    [done|apply He|apply He|done|by split|done|done|]. exists (with_store st s), r. by split.
Qed.

(** DEL answers one when a live value was there. *)
Definition deleted_count (existing : list Version) : Z := if decide (Live existing = []) then 0 else 1.

Lemma delete_local_spec e c st key :
  lawful_env e → store_ok (c_store st) → (len (c_self c) < 2 ^ 16)%Z →
  (counter (Frontier (siblings (c_store st) (e_now e) key)) (c_self c) < 2 ^ 64 - 1)%N →
  let existing := siblings (c_store st) (e_now e) key in
  ∃ st' r, delete_local e c st key = (st', r, (mint (c_self c) existing, deleted_count existing))
    ∧ stored_locally st key (Tombstone (mint (c_self c) existing) (unix (e_now e))) st' r.
Proof.
  intros He Hs Hself Hc. cbv zeta. set (existing := siblings (c_store st) (e_now e) key) in *.
  destruct (mint_ids (c_self c) existing Hself (siblings_ids _ _ _)) as [Hn Hcw].
  assert (- 2 ^ 63 <= unix (e_now e) < 2 ^ 63)%Z as Hat.
  { unfold unix. destruct (le_now e He). split; [apply Z.div_le_lower_bound; lia|].
    apply Z.div_lt_upper_bound; lia. }
  assert ((if (0 <? len (Live existing))%Z then 1%Z else 0%Z) = deleted_count existing) as Hop.
  { unfold deleted_count. destruct (decide _) as [->|Hl]; [done|]. destruct (Live existing) as [|x l]; [done|]. rewrite len_cons.
    pose proof (len_nonneg l). destruct (Z.ltb_spec 0 (1 + len l)); [done|lia]. }
  unfold delete_local.
  pose proof (mint_update (e_store e) (c_store st) (e_now e) key (c_self c)
    (λ clk, Tombstone clk (unix (e_now e))) (e_clock e [0%nat])
    (λ old, (Version.Encode (e_clock e [0%nat]) (Reconcile (decode_or_nil old)
      (Tombstone (Increment (Frontier (decode_or_nil old)) (c_self c)) (unix (e_now e)))),
      (Increment (Frontier (decode_or_nil old)) (c_self c),
       if (0 <? len (Live (decode_or_nil old)))%Z then 1%Z else 0%Z)))) as H.
  cbv zeta in H |- *.
  destruct (sUpdateReplica _ _ _ _ _) as [[s r] x]. destruct H as (-> & Hs' & Hr);
    [done|apply He|apply He|done|by split|done|done|]. exists (with_store st s), r.
  split; [|by split]. cbn [snd]. fold (siblings (c_store st) (e_now e) key). fold existing. by rewrite Hop.
Qed.

Lemma write_spec_aux e c st key value :
  lawful_env e → store_ok (c_store st) → peer_ok (c_net st) → (len (c_self c) < 2 ^ 16)%Z →
  (counter (Frontier (siblings (c_store st) (e_now e) key)) (c_self c) < 2 ^ 64 - 1)%N →
  ∃ o, write e c st key value = Some o ∧
    write_outcome e c st key
      (mkVersion value (mint (c_self c) (siblings (c_store st) (e_now e) key)) false 0)
      (SimpleString (str "OK")) (str "write") o.
Proof.
  intros He Hs Hok Hself Hc.
  destruct (write_local_spec e c st key value He Hs Hself Hc) as (st' & r & E & Hs' & Est & Hr).
  unfold write. rewrite E. rewrite Est. destruct r as [u|err|]; [|eexists; split; [done|]; by eapply write_refused|done].
  destruct Hr as (Hrep & Hby & Hwf).
  pose proof (coordinated_write e c st key (c_store st') _ (SimpleString (str "OK")) (str "write") He Hs' Hok Hrep Hby Hwf) as Ho.
  cbv zeta in Ho |- *. destruct (gather _ _ _ _ _) as [[acks st1] rest]. eexists. split; [done|]. exact Ho.
Qed.

Lemma delete_spec_aux e c st key :
  lawful_env e → store_ok (c_store st) → peer_ok (c_net st) → (len (c_self c) < 2 ^ 16)%Z →
  (counter (Frontier (siblings (c_store st) (e_now e) key)) (c_self c) < 2 ^ 64 - 1)%N →
  let existing := siblings (c_store st) (e_now e) key in
  ∃ o, delete e c st key = Some o ∧
    write_outcome e c st key (Tombstone (mint (c_self c) existing) (unix (e_now e)))
      (Integer (deleted_count existing)) (str "delete") o.
Proof.
  intros He Hs Hok Hself Hc. cbv zeta.
  destruct (delete_local_spec e c st key He Hs Hself Hc) as (st' & r & E & Hs' & Est & Hr).
  unfold delete. rewrite E. rewrite Est. destruct r as [u|err|]; [|eexists; split; [done|]; by eapply write_refused|done].
  destruct Hr as (Hrep & Hby & Hwf).
  pose proof (coordinated_write e c st key (c_store st') _ (Integer (deleted_count (siblings (c_store st) (e_now e) key)))
    (str "delete") He Hs' Hok Hrep Hby Hwf) as Ho.
  cbv zeta in Ho |- *. destruct (gather _ _ _ _ _) as [[acks st1] rest]. eexists. split; [done|]. exact Ho.
Qed.

(** ** Reads *)

(** What the read loop has when it stops: the nodes that answered, each with
    what it answered, all of it merged. *)
Record read_inv key (self : bytes) (local : list Version) w0 w (rd : readState) (seen : list bytes) : Prop := {
  rv_ok : peer_ok w;
  rv_grows : grows nothing w0 w;
  rv_responses : responses rd = Z.of_nat (size (responders rd));
  rv_self : responders rd !! self = Some local;
  rv_seen : ∀ a vs, responders rd !! a = Some vs → a = self ∨ a ∈ seen;
  rv_merged : ∀ a vs, responders rd !! a = Some vs → ∀ c, covers vs c → covers (merged rd) c;
  rv_holds : ∀ a vs, responders rd !! a = Some vs → a ≠ self → ∀ c, peer_holds w0 a key c → covers vs c;
  rv_only : ∀ Q, Forall Q local → peer_only w0 key Q → Forall Q (merged rd);
  rv_ids : Forall version_wf (merged rd);
  rv_antichain : antichain local → antichain (merged rd)
}.

Lemma receive_result_inv key self local w0 w w' rd seen a res :
  read_inv key self local w0 w rd seen → PeerGet w a key = (w', res) → a ≠ self → a ∉ seen →
  read_inv key self local w0 w' (receive_result rd a res) (a :: seen).
Proof.
  intros [Hok Hg Hn Hself Hseen Hm Hh Hon Hids Hanti] HG Ha Hns.
  destruct (law_PeerGet _ _ _ _ _ Hok HG) as (Hok' & Hh' & Ho' & Hres).
  assert (grows nothing w0 w') as Hg'.
  { eapply grows_trans; [exact Hg|]. split; [done|]. intros k Q _. apply Ho'. }
  assert (read_inv key self local w0 w' rd (a :: seen)) as Hskip.
  { split; try done. intros b vs Hb. destruct (Hseen b vs Hb); [by left|right; set_solver]. }
  unfold receive_result. destruct res as [msg|d]; [done|].
  destruct (Version.Decode (default [] d)) as [vs|err|] eqn:Hd; [|done..].
  destruct (Hres d vs eq_refl Hd) as [Hc HQ].
  assert (responders rd !! a = None) as Hnone.
  { apply eq_None_not_Some. intros [vs' Hv]. by destruct (Hseen a vs' Hv). }
  assert (∀ c, covers (foldl Reconcile (merged rd) vs) c ↔ covers (merged rd) c ∨ covers vs c) as Hcov
    by apply reconcile_all_covers.
  split; simpl; try done.
  - rewrite map_size_insert_None by done. lia.
  - by rewrite lookup_insert_ne.
  - intros b ws. rewrite lookup_insert. destruct (decide (a = b)) as [->|]; [right; set_solver|].
    intros Hb. destruct (Hseen b ws Hb); [by left|right; set_solver].
  - intros b ws. rewrite lookup_insert. intros H c Hcb. apply Hcov.
    destruct (decide (a = b)) as [->|]; [injection H as ->; by right|]. left. by eapply Hm.
  - intros b ws. rewrite lookup_insert. intros H Hb c Hcb.
    destruct (decide (a = b)) as [->|]; [injection H as <-; apply Hc; by apply (proj1 Hg)|]. by eapply Hh.
  - intros Q Hl Hp. apply (reconcile_all_Forall Q); [by apply Hon|]. apply HQ. by apply (proj2 Hg).
  - apply (reconcile_all_Forall version_wf); [done|]. by apply Decode_wf in Hd as [? _].
  - intros Hloc. by apply reconcile_all_antichain, Hanti.
Qed.

Lemma read_loop_inv key self local w0 need l w rd seen w' rd' rest :
  read_inv key self local w0 w rd seen → NoDup l → self ∉ l → (∀ a, a ∈ l → a ∉ seen) →
  read_loop key need l w rd = (w', rd', rest) →
  ∃ seen', read_inv key self local w0 w' rd' seen' ∧ (∀ a, a ∈ seen' → a ∈ seen ∨ a ∈ l)
    ∧ (rest = [] ∨ need <= responses rd')%Z ∧ sublist rest l.
Proof.
  revert w rd seen. induction l as [|a l IH]; intros w rd seen Hinv Hnd Hself Hseen H; simpl in H.
  { simplify_eq. exists seen. split_and!; try done; [by left|by left]. }
  destruct (Z.leb_spec need (responses rd)) as [Hq|Hq].
  { simplify_eq. exists seen. split_and!; try done; [by left|by right]. }
  destruct (PeerGet w a key) as [w1 res] eqn:HG. apply NoDup_cons in Hnd as [Hna Hnd].
  destruct (IH w1 (receive_result rd a res) (a :: seen)) as (seen' & Hinv' & Hs' & Hst & Hsub); try done.
  - eapply receive_result_inv; [done..| |]; [set_solver|]. apply Hseen. set_solver.
  - set_solver.
  - intros b Hb [->|Hbs]%elem_of_cons; [done|]. eapply Hseen; [|done]. set_solver.
  - exists seen'. split_and!; [done| |done|by apply sublist_cons].
    intros b Hb. destruct (Hs' b Hb) as [[->|Hbs]%elem_of_cons|Hbl]; [right|left|right]; set_solver.
Qed.

(** What read repair, and any work left behind by a read, does to a state: it
    stores only versions of the merged set, and loses nothing. *)
Record repaired key (merged : list Version) st st' : Prop := {
  rp_store : store_ok (c_store st');
  rp_call : call_ok (c_store st) (c_store st');
  rp_ok : peer_ok (c_net st');
  rp_grows : grows (λ k v, k = key ∧ v ∈ merged) (c_net st) (c_net st');
  rp_holds : ¬ sevicts (c_store st) → ∀ k c, holds (c_store st) k c → holds (c_store st') k c;
  rp_only : ∀ k Q, (k = key → Forall Q merged) → store_only (c_store st) k Q → store_only (c_store st') k Q;
  rp_hints : c_hints st' = c_hints st;
  rp_antichains : store_antichains (c_store st) → store_antichains (c_store st')
}.

Lemma repaired_refl key merged st : store_ok (c_store st) → peer_ok (c_net st) → repaired key merged st st.
Proof. intros Hs Hok. split; try done. apply call_ok_refl, Hs. Qed.

Lemma repaired_trans key merged st1 st2 st3 :
  repaired key merged st1 st2 → repaired key merged st2 st3 → repaired key merged st1 st3.
Proof.
  intros [A1 A2 A3 A4 A5 A6 A7 A8] [B1 B2 B3 B4 B5 B6 B7 B8]. split; try done.
  - by eapply call_ok_trans.
  - by eapply grows_trans.
  - intros Hne k c Hh. apply B5; [|by apply A5]. intros He. apply Hne. by apply A2.
  - intros k Q HQ H. auto.
  - congruence.
  - auto.
Qed.

Lemma repaired_net key merged st w :
  store_ok (c_store st) → peer_ok w → grows (λ k v, k = key ∧ v ∈ merged) (c_net st) w →
  repaired key merged st (with_net st w).
Proof. intros Hs Hok Hg. split; try done. apply call_ok_refl, Hs. Qed.

(** The local repair: the merged set reconciled into what the node holds. *)
Lemma repair_local_spec e key merged st :
  lawful_env e → store_ok (c_store st) → peer_ok (c_net st) → Forall version_wf merged →
  let '(s, _, _) :=
    sUpdateReplica (e_store e) (c_store st) (e_now e) key (λ old,
      (Version.Encode (e_clock e [2%nat]) (foldl Reconcile (decode_or_nil old) merged), ())) in
  repaired key merged st (with_store st s).
Proof.
  intros He Hs Hok Hwf.
  set (fn := λ old : bytes, (Version.Encode (e_clock e [2%nat]) (foldl Reconcile (decode_or_nil old) merged), ())).
  destruct (sUpdateReplica (e_store e) (c_store st) (e_now e) key fn) as [[s r] x] eqn:E.
  assert (Forall version_ids merged) as Hids by (eapply Forall_impl; [exact Hwf|apply version_wf_ids]).
  pose proof (update_siblings (e_store e) (c_store st) (e_now e) key fn (e_clock e [2%nat]) merged Hs
    (le_store e He) (le_clock e He _) Hids eq_refl) as H. rewrite E in H. destruct H as (_ & Hs' & Hcall & _).
  split; simpl; try done.
  - intros Hne. eapply (update_holds (e_store e) _ _ key fn (e_clock e [2%nat]) merged _ _ _ Hs
      (le_store e He) (le_clock e He _) Hids eq_refl E Hne).
  - intros k Q. by eapply (update_only (e_store e) _ _ key fn (e_clock e [2%nat]) merged _ _ _ k Q Hs
      (le_store e He) (le_clock e He _) Hids eq_refl E).
  - by eapply (update_antichains (e_store e) _ _ key fn (e_clock e [2%nat]) merged _ _ _ Hs
      (le_store e He) (le_clock e He _) Hids eq_refl E).
Qed.

Lemma repaired_record key merged st call :
  store_ok (c_store st) → peer_ok (c_net st) → repaired key merged st (record st call).
Proof. intros Hs Hok. split; simpl; try done. apply call_ok_refl, Hs. Qed.

Lemma repair_spec e c key merged i st addr set :
  lawful_env e → store_ok (c_store st) → peer_ok (c_net st) → Forall version_wf merged →
  repaired key merged st (repair e c key merged i st addr set).
Proof.
  intros He Hs Hok Hwf. unfold repair. destruct (EqualVersions set merged); [by apply repaired_refl|].
  case_bool_decide as Ha.
  - pose proof (repair_local_spec e key merged (record st (Event evReadRepairs)) He Hs Hok Hwf) as H.
    destruct (sUpdateReplica _ _ _ _ _) as [[s r] x]. eapply repaired_trans; [by apply repaired_record|exact H].
  - assert (∀ l st1, (∀ j v, (j, v) ∈ l → v ∈ merged) → store_ok (c_store st1) → peer_ok (c_net st1) →
      repaired key merged st1 (foldl (λ st '(j, v), with_net st
        (Replicate (c_net st) addr rset [key; Version.Encode (e_clock e [3%nat; i; j]) [v]]).1) st1 l)) as H.
    { induction l as [|[j v] l IH]; intros st1 Hl Hs1 Hok1; simpl; [by apply repaired_refl|].
      assert (v ∈ merged) as Hv by (apply (Hl j); set_solver).
      destruct (Replicate (c_net st1) addr rset [key; Version.Encode (e_clock e [3%nat; i; j]) [v]])
        as [w err] eqn:HR. simpl.
      assert (Version.Decode (Version.Encode (e_clock e [3%nat; i; j]) [v]) = Ok [v]) as Hd.
      { apply decode_encode_wf; [apply He| |done]. apply Forall_singleton.
        rewrite Forall_forall in Hwf. by apply Hwf. }
      destruct (Replicate_grows (c_net st1) addr key _ v w err Hok1 Hd HR) as (Hok' & Hg & _).
      assert (repaired key merged st1 (with_net st1 w)) as Hr.
      { apply repaired_net; [done..|]. eapply grows_weaken; [|exact Hg]. by intros k v' [-> ->]. }
      eapply repaired_trans; [exact Hr|]. apply IH; [set_solver|apply Hr|apply Hr]. }
    eapply repaired_trans; [by apply repaired_record|]. apply H; [|done..].
    intros j v (k & y & Hk & Hy)%elem_of_lookup_imap. injection Hk as -> ->. by eapply list_elem_of_lookup_2.
Qed.

Lemma readRepair_spec e c key merged responders st :
  lawful_env e → store_ok (c_store st) → peer_ok (c_net st) → Forall version_wf merged →
  repaired key merged st (readRepair e c key merged responders st).
Proof.
  intros He Hs Hok Hwf. unfold readRepair. generalize (imap pair (e_responders e responders)) as l.
  intros l. revert st Hs Hok. induction l as [|[i [a vs]] l IH]; intros st Hs Hok; simpl; [by apply repaired_refl|].
  pose proof (repair_spec e c key merged i st a vs He Hs Hok Hwf) as Hr.
  eapply repaired_trans; [exact Hr|]. apply IH; apply Hr.
Qed.

(** How a coordinated read ends. *)
Record read_outcome e (c : Coordinator) st key (o : outcome) (rd : readState) : Prop := {
  ro_store : call_ok (c_store st) (c_store (o_state o))
    ∧ ∀ k, sview (c_store (o_state o)) k = sview (c_store st) k;
  ro_hints : c_hints (o_state o) = c_hints st;
  ro_inv : ∃ seen, read_inv key (c_self c) (siblings (c_store st) (e_now e) key) (c_net st)
      (c_net (o_state o)) rd seen
    ∧ ∀ a, a ∈ seen → a ∈ peersExcept (Owners (c_router c) key (c_n c)) (c_self c);
  ro_reply :
    let need := Z.min (c_r c) (len (Owners (c_router c) key (c_n c))) in
    o_reply o = if (responses rd <? need)%Z then quorumError (str "read") (responses rd) need
                else read_reply (merged rd);
  ro_background st1 : store_ok (c_store st1) → peer_ok (c_net st1) →
    repaired key (merged rd) st1 (o_background o st1)
}.

Lemma late_reads_spec key merged l st :
  store_ok (c_store st) → peer_ok (c_net st) →
  repaired key merged st (foldl (λ st addr, with_net st (PeerGet (c_net st) addr key).1) st l).
Proof.
  revert st. induction l as [|a l IH]; intros st Hs Hok; simpl; [by apply repaired_refl|].
  destruct (PeerGet (c_net st) a key) as [w res] eqn:HG. simpl.
  destruct (PeerGet_grows _ _ _ _ _ Hok HG) as [Hok' Hg].
  assert (repaired key merged st (with_net st w)) as Hr.
  { apply repaired_net; [done..|]. by eapply grows_weaken; [|exact Hg]. }
  eapply repaired_trans; [exact Hr|]. apply IH; apply Hr.
Qed.

Lemma read_spec_aux e c st key :
  lawful_env e → store_ok (c_store st) → peer_ok (c_net st) →
  NoDup (Owners (c_router c) key (c_n c)) →
  ∃ rd, read_outcome e c st key (read e c st key) rd.
Proof.
  intros He Hs Hok Hnd. unfold read.
  destruct (law_Get (c_store st) (e_now e) key (proj1 Hs)) as (Hcall & Hlive & Hview).
  destruct (sGet (c_store st) (e_now e) key) as [s blob]. cbn [fst snd] in *. subst blob.
  fold (siblings (c_store st) (e_now e) key). cbv zeta.
  set (local := siblings (c_store st) (e_now e) key). set (peers := peersExcept _ _). set (need := Z.min _ _).
  assert (read_inv key (c_self c) local (c_net st) (c_net st) (mkRead 1 local {[c_self c := local]}) []) as Hinv0.
  { split; simpl; try done.
    - by rewrite map_size_singleton.
    - apply lookup_singleton_eq.
    - intros a vs [<- _]%lookup_singleton_Some. by left.
    - by intros a vs [_ <-]%lookup_singleton_Some.
    - intros a vs [<- _]%lookup_singleton_Some. done.
    - apply decode_or_nil_wf. }
  assert (∃ w rd rest seen,
    (if (responses (mkRead 1 local {[c_self c := local]}) <? need)%Z
     then read_loop key need (e_arrive e peers) (c_net (with_store st s)) (mkRead 1 local {[c_self c := local]})
     else (c_net (with_store st s), mkRead 1 local {[c_self c := local]}, [])) = (w, rd, rest)
    ∧ read_inv key (c_self c) local (c_net st) w rd seen ∧ ∀ a, a ∈ seen → a ∈ peers) as (w & rd & rest & seen & -> & Hinv & Hseen).
  { destruct (_ <? need)%Z; [|eexists _, _, _, []; split_and!; [done|exact Hinv0|set_solver]].
    destruct (read_loop _ _ _ _ _) as [[w rd] rest] eqn:E.
    assert (∀ a, a ∈ e_arrive e peers ↔ a ∈ peers) as Harr by (intros a; by rewrite (le_arrive e He)).
    destruct (read_loop_inv key (c_self c) local (c_net st) need (e_arrive e peers) _ _ [] w rd rest Hinv0)
      as (seen & Hinv & Hseen & _); [| |set_solver|exact E|].
    { rewrite (le_arrive e He). unfold peers. rewrite peersExcept_filter. by apply NoDup_filter. }
    { rewrite Harr. unfold peers. rewrite elem_of_peersExcept. naive_solver. }
    exists w, rd, rest, seen. split_and!; [done..|]. intros a Ha. apply Harr. destruct (Hseen a Ha); set_solver. }
  exists rd. split; cbn [o_reply o_state o_background];
    [destruct (responses rd <? need)%Z; simpl; by split|by destruct (responses rd <? need)%Z| |
     |intros st1 Hs1 Hok1].
  - exists seen. split; [|done]. by destruct (responses rd <? need)%Z.
  - cbv zeta. fold need. by destruct (responses rd <? need)%Z.
  - destruct (responses rd <? need)%Z; cbn [o_background]; [by apply late_reads_spec|].
    destruct (1 <? responses rd)%Z; [|by apply late_reads_spec].
    pose proof (readRepair_spec e c key (merged rd) (responders rd) st1 He Hs1 Hok1 (rv_ids _ _ _ _ _ _ _ Hinv)) as Hr.
    eapply repaired_trans; [exact Hr|]. apply late_reads_spec; apply Hr.
Qed.
End contract.

(** The ordinary environment of the examples: canonical orders, and results
    arriving in the order of the calls. *)
Definition plain_env (now : Z) : @env (MapStore lfu) MapStore_store := {|
  e_now := now;
  e_sweep := λ _, now;
  e_store := map_to_list : @sord (MapStore lfu) MapStore_store;
  e_clock := λ _ _, map_to_list;
  e_responders := map_to_list;
  e_arrive := id
|}.

Lemma plain_env_lawful now : (- 2 ^ 63 <= now < 2 ^ 63)%Z → lawful_env (plain_env now).
Proof.
  intros Hnow. split; simpl; [done|apply lawful_map_to_list| |done|done].
  intros site. apply lawful_clock_map_to_list.
Qed.
