(* ===== verification/Handler.v ===== *)
(** * Command dispatch (internal/server/handler.go)

    [Handle] looks a command up, checks its arity, redirects or coordinates keys
    in a cluster, and otherwise runs the command on the local store.  [None] is
    a panic. *)

From Stdlib Require Import SpecFloat.
From S2P Require Import Prelude Telemetry Binenc Resp Vclock Version Sketch Policy MapStore ShardedStore.
From S2P Require Import Membership Ring Router Sha256 Merkle Replica AntiEntropy Handoff Coordinator.

(** ** Parsing *)

(** [strconv.Atoi]: an optional sign and decimal digits within an [int]. *)
Definition Atoi (s : bytes) : option Z :=
  let '(neg, ds) :=
    match s with
    | x2d :: ds => (true, ds)
    | x2b :: ds => (false, ds)
    | _ => (false, s)
    end in
  match ds with
  | [] => None
  | _ =>
      if forallb is_digit ds then
        let n := foldl decimal 0%Z ds in
        let n := if neg : bool then (- n)%Z else n in
        if (- 2 ^ 63 <=? n)%Z && (n <? 2 ^ 63)%Z then Some n else None
      else None
  end.

Definition ping_verb : bytes := str "PING".
Definition nodes_verb : bytes := str "NODES".
Definition rget : bytes := str "RGET".
Definition rtree_verb : bytes := str "RTREE".
Definition rbucket_verb : bytes := str "RBUCKET".
Definition stats_verb : bytes := str "STATS".
Definition evAdmissionRejects : bytes := str "admission_rejects".

(** ** The text of STATS *)

(** [d.Seconds()] and the conversion of a float64 to an int64, truncating. *)
Definition Seconds (d : Z) : spec_float :=
  SFadd 53 1024 (float64 (Z.quot d Second)) (SFdiv 53 1024 (float64 (Z.rem d Second)) (float64 1000000000)).

Definition int64_of_float (f : spec_float) : Z :=
  match f with
  | S754_finite neg m e =>
      let n := if (0 <=? e)%Z then (Zpos m * 2 ^ e)%Z else (Zpos m / 2 ^ (- e))%Z in
      if neg then (- n)%Z else n
  | _ => 0
  end.

(** [d.String()] of a non-negative duration: the integer part of [v] in units of
    10^[prec], and its fraction without trailing zeros. *)
Fixpoint fraction (prec : nat) (v : N) (print : bool) (acc : bytes) : bytes :=
  match prec with
  | O => if print then x2e :: acc else acc
  | Datatypes.S prec =>
      let d := (v mod 10)%N in
      let print := print || negb (d =? 0)%N in
      fraction prec (v / 10) print (if print then digit d :: acc else acc)
  end.

Definition in_units (prec : nat) (v : N) : bytes :=
  digits 20 (v / 10 ^ N.of_nat prec) [] ++ fraction prec v false [].

Definition duration_string (d : Z) : bytes :=
  let u := Z.to_N d in
  if (u =? 0)%N then str "0s"
  else if (u <? 1000)%N then in_units 0 u ++ str "ns"
  else if (u <? 1000000)%N then in_units 3 u ++ [xc2; xb5] ++ str "s"
  else if (u <? 1000000000)%N then in_units 6 u ++ str "ms"
  else
    let secs := (u / 1000000000)%N in
    let tail := digits 20 (secs mod 60) [] ++ fraction 9 u false [] ++ str "s" in
    let mins := (secs / 60)%N in
    if (mins =? 0)%N then tail
    else
      let tail := digits 20 (mins mod 60) [] ++ str "m" ++ tail in
      let hours := (mins / 60)%N in
      if (hours =? 0)%N then tail else digits 20 hours [] ++ str "h" ++ tail.

Definition command_line (c : CommandSnapshot) : bytes :=
  cs_command c ++ str " total=" ++ Itoa (cs_total c) ++ str " hits=" ++ Itoa (cs_hits c)
  ++ str " misses=" ++ Itoa (cs_misses c) ++ str " errors=" ++ Itoa (cs_errors c)
  ++ str " p50=" ++ duration_string (cs_p50 c) ++ str " p99=" ++ duration_string (cs_p99 c) ++ crlf.

Definition value_line (gv : bytes * Z) : bytes := gv.1 ++ str ":" ++ Itoa gv.2 ++ crlf.

Definition stats_text (s : Telemetry.Snapshot) : bytes :=
  str "uptime_seconds:" ++ Itoa (int64_of_float (Seconds (Uptime s))) ++ crlf
  ++ concat (command_line <$> Commands s) ++ concat (value_line <$> Gauges s)
  ++ concat (value_line <$> Events s).

Section handler.
Context {S W : Type} `{!Store S, !Replicator W}.

(** ** State *)

Record Handler : Type := mkHandler {
  h_members : option Members;
  h_router : option Router;
  h_coordinator : option Coordinator;
  h_telemetry : option Telemetry
}.

(** What a call does not choose: the coordinator's part, the iteration orders of
    the roster and of a reply's entries, and how long the call took. *)
Record henv : Type := mkHenv {
  he : @env S _;
  he_roster : roster_order;
  he_entries : gmap bytes bytes → list (bytes * bytes);
  he_elapsed : Z
}.

Definition method : Type :=
  henv → Handler → @cstate S W → list bytes → option (Resp.Value * @cstate S W).

Record commandSpec : Type := mkSpec {
  minArgs : Z;
  maxArgs : Z;
  clusteredOp : bool;
  run : method
}.

(** ** The commands *)

Definition ping : method := λ _ _ st _, Some (SimpleString (str "PONG"), st).

Definition get : method := λ e _ st args,
  match args with
  | key :: _ =>
      let '(s, value) := sGet (c_store st) (e_now (he e)) key in
      Some (BulkString value, with_store st s)
  | [] => None
  end.

(** The reply [set] shares between its branches. *)
Definition set_reply (st : @cstate S W) (r : S * gres storeErr bool) : option (Resp.Value * @cstate S W) :=
  let '(s, r) := r in
  let st := with_store st s in
  match r with
  | Err err => Some (Error (str "ERR " ++ store_error err), st)
  | Ok admitted =>
      Some (SimpleString (str "OK"),
            if admitted : bool then st else record st (Event evAdmissionRejects))
  | Panic => None
  end.

Definition set : method := λ e _ st args,
  match args with
  | [key; value] => set_reply st (sSet (e_store (he e)) (c_store st) key value)
  | [key; value; opt; arg] =>
      match Atoi arg with
      | None => Some (Error (str "ERR value is not an integer or out of range"), st)
      | Some n =>
          let ex ttl := set_reply st (sSetWithTTL (e_store (he e)) (c_store st) (e_now (he e)) key value ttl) in
          if bool_decide (ToUpper opt = str "EX") then ex (i64 (n * Second))
          else if bool_decide (ToUpper opt = str "PX") then ex (i64 (n * Millisecond))
          else Some (Error (str "ERR syntax error"), st)
      end
  | _ :: _ :: _ => Some (Error (str "ERR syntax error"), st)
  | _ => None
  end.

Definition del : method := λ e _ st args,
  match args with
  | key :: _ =>
      let '(s, deleted) := sDelete (c_store st) key in
      Some (Integer (if deleted : bool then 1 else 0), with_store st s)
  | [] => None
  end.

Definition rset_cmd : method := λ e _ st args,
  match args with
  | key :: blob :: _ =>
      match Version.Decode blob with
      | Ok [incoming] =>
          let '(s, r, _) :=
            sUpdateReplica (e_store (he e)) (c_store st) (e_now (he e)) key (λ old,
              (Version.Encode (e_clock (he e) [4%nat]) (Reconcile (decode_or_nil old) incoming), ())) in
          let st := with_store st s in
          match r with
          | Err err => Some (Error (str "ERR " ++ store_error err), st)
          | Ok _ => Some (SimpleString (str "OK"), st)
          | Panic => None
          end
      | Panic => None
      | _ => Some (Error (str "ERR malformed version"), st)
      end
  | _ => None
  end.

Definition nodes_cmd : method := λ e h st _,
  match h_members h with
  | None => Some (Error (str "ERR clustering is disabled"), st)
  | Some m =>
      Some (Array (Some ((λ n, BulkString (Some (ID n ++ str " " ++ Addr n))) <$> AliveNodes (he_roster e) m)), st)
  end.

Definition rtree : method := λ e _ st args,
  match args with
  | arg :: _ =>
      match Atoi arg with
      | None => Some (Error (str "ERR failed to parse tree leaf count"), st)
      | Some leafCount =>
          match (do t <- tree_over leafCount (sRange (e_store (he e)) (c_store st) (e_sweep (he e)));
                 Merkle.Encode t) with
          | Ok blob => Some (BulkString (Some blob), st)
          | _ => None
          end
      end
  | [] => None
  end.

Definition rbucket : method := λ e _ st args,
  match args with
  | arg :: encoded :: _ =>
      match Atoi arg with
      | None => Some (Error (str "ERR failed to parse tree leaf count"), st)
      | Some leafCount =>
          match decodeBuckets encoded with
          | Ok want =>
              match New leafCount with
              | Ok tree =>
                  let entries : gmap bytes bytes :=
                    foldl (λ entries '(key, value),
                        if bool_decide (Bucket tree key ∈ want) then <[key := value]> entries else entries)
                      ∅ (sRange (e_store (he e)) (c_store st) (e_sweep (he e))) in
                  Some (BulkString (Some (encodeEntries (he_entries e entries))), st)
              | _ => None
              end
          | Err _ => Some (Error (str "ERR malformed bucket set"), st)
          | Panic => None
          end
      end
  | _ => None
  end.

(** The telemetry has seen the calls of the log. *)
Definition telemetry_of (h : Handler) (st : @cstate S W) : option Telemetry :=
  foldl apply_call (h_telemetry h) (c_events st).

Definition stats : method := λ e h st _,
  s ← TakeSnapshot (telemetry_of h st) (e_now (he e));
  Some (BulkString (Some (stats_text s)), st).

(** ** Dispatch *)

Definition commands : list (bytes * commandSpec) := [
  (ping_verb, mkSpec 0 0 false ping);
  (get_verb, mkSpec 1 1 true get);
  (set_verb, mkSpec 2 4 true set);
  (del_verb, mkSpec 1 1 true del);
  (nodes_verb, mkSpec 0 0 false nodes_cmd);
  (rget, mkSpec 1 1 false get);
  (rset, mkSpec 2 2 false rset_cmd);
  (rtree_verb, mkSpec 1 1 false rtree);
  (rbucket_verb, mkSpec 2 2 false rbucket);
  (stats_verb, mkSpec 0 0 false stats)
].

Definition lookup_command (name : bytes) : option commandSpec :=
  snd <$> find (λ '(n, _), bool_decide (n = name)) commands.

(** The telemetry calls of an outcome. *)
Definition recordOutcome (name : bytes) (elapsed : Z) (reply : Resp.Value) (st : @cstate S W) : @cstate S W :=
  let st := record st (Duration name elapsed) in
  match AsError reply with
  | Some _ => record st (Failure name)
  | None =>
      if bool_decide (name = get_verb) then
        match AsBulk reply with
        | Some _ => record st (Hit name)
        | None => record st (Miss name)
        end
      else st
  end.

Definition Handle (e : henv) (h : Handler) (st : @cstate S W) (cmd : Command) : option (@outcome S W) :=
  let name := ToUpper (Name cmd) in
  match lookup_command name with
  | None => Some (mkOutcome (Error (str "ERR unknown command '" ++ Name cmd ++ str "'")) st id)
  | Some spec =>
      if (len (Args cmd) <? minArgs spec)%Z || (maxArgs spec <? len (Args cmd))%Z then
        Some (mkOutcome (Error (str "ERR wrong number of arguments for '" ++ Name cmd ++ str "'")) st id)
      else
        let st := record st (Count name) in
        let locally :=
          '(reply, st) ← run spec e h st (Args cmd);
          Some (mkOutcome reply (recordOutcome name (he_elapsed e) reply st) id) in
        match h_router h, Args cmd with
        | Some router, key :: _ =>
            if clusteredOp spec then
              let coordinated :=
                match h_coordinator h with
                | Some c =>
                    o ← coordinate (he e) c st cmd;
                    Some (mkOutcome (o_reply o) (recordOutcome name (he_elapsed e) (o_reply o) (o_state o)) (o_background o))
                | None => locally
                end in
              if negb (IsLocal router key) then
                match Owner router key with
                | Some owner => Some (mkOutcome (Error (str "MOVED " ++ owner)) st id)
                | None => coordinated
                end
              else coordinated
            else locally
        | _, _ => locally
        end
  end.
End handler.

(** ** Lemmas *)

Section contract.
Context {S W : Type} `{!Store S, !StoreLaws S, !Replicator W}.
Implicit Types (st : @cstate S W) (e : @henv S _) (h : Handler).

(** A local command leaves the peers and the hints alone. *)
Definition local_only st st' : Prop :=
  call_ok (c_store st) (c_store st') ∧ c_net st' = c_net st ∧ c_hints st' = c_hints st.

(** A method that never panics and is local. *)
Definition method_ok (m : method) e h st (args : list bytes) : Prop :=
  ∃ reply st', m e h st args = Some (reply, st') ∧ local_only st st'.

Lemma local_only_refl st : swf (c_store st) → local_only st st.
Proof. intros Hs. split_and!; [by apply call_ok_refl|done..]. Qed.

Lemma local_only_trans st1 st2 st3 : local_only st1 st2 → local_only st2 st3 → local_only st1 st3.
Proof. intros (? & ? & ?) (? & ? & ?). split_and!; [by eapply call_ok_trans|congruence..]. Qed.

Lemma local_only_record st call : swf (c_store st) → local_only st (record st call).
Proof. intros Hs. split_and!; [by apply call_ok_refl|done..]. Qed.

Lemma local_only_with_store st s : call_ok (c_store st) s → local_only st (with_store st s).
Proof. intros. by split_and!. Qed.

Lemma recordOutcome_local name elapsed reply st :
  swf (c_store st) → local_only st (recordOutcome name elapsed reply st).
Proof.
  intros Hs. unfold recordOutcome. eapply local_only_trans; [by apply (local_only_record st (Duration name elapsed))|].
  destruct (AsError reply); [by apply local_only_record|]. case_bool_decide; [|by apply local_only_refl].
  destruct (AsBulk reply); by apply local_only_record.
Qed.

Lemma set_reply_ok e h st key v exp r :
  write_ok (c_store st) r.1 key v exp r.2 →
  ∃ reply st', set_reply st r = Some (reply, st') ∧ local_only st st'.
Proof.
  intros [Hc Hr]. unfold set_reply. destruct r as [s [adm|err|]]; simpl in *; [|eexists _, _; split; [done|by apply local_only_with_store]|done].
  eexists _, _. split; [done|]. destruct adm; [by apply local_only_with_store|].
  eapply local_only_trans; [by apply local_only_with_store|]. apply local_only_record, Hc.
Qed.

(** If the command is RTREE or RBUCKET and its leaf count parses, the count is at
    most 2^31.  (Beyond, the tree or its encoding may exceed what can be allocated.) *)
Definition sane_count (name : bytes) (args : list bytes) : Prop :=
  name = rtree_verb ∨ name = rbucket_verb →
  ∀ arg n, head args = Some arg → Atoi arg = Some n → (n <= 2 ^ 31)%Z.
Definition sane_leaves (cmd : Command) : Prop := sane_count (ToUpper (Name cmd)) (Args cmd).

Lemma tree_over_encode leaves es :
  (leaves <= 2 ^ 31)%Z → ∃ blob, (do t <- tree_over leaves es; Merkle.Encode t) = Ok blob.
Proof.
  intros Hl. destruct (tree_over_wf leaves es ltac:(lia)) as (t0 & t & E0 & -> & Wt & L). simpl.
  assert (leafCount t < 2 ^ 32)%Z; [|rewrite Encode_tree_eq by done; eauto].
  rewrite L. unfold New in E0. destruct (make_panics _ _); [done|]. simp_res. unfold nextPowerOfTwo.
  case_bool; [lia|]. rewrite shiftl_len_log2_up by lia.
  apply Z.le_lt_trans with (2 ^ 31)%Z; [|lia]. apply Z.pow_le_mono_r; [lia|]. apply Z.log2_up_le_pow2; lia.
Qed.

Lemma Decode_no_panic b : Version.Decode b ≠ Panic.
Proof.
  rewrite Version.Decode_eq. pose proof (reader_safe (dec := decode_blob) b 0 ltac:(lia)) as Hs. case_bool; [done|].
  by destruct (decode_blob b 0) as [[ws o]|e|].
Qed.

Lemma decodeBuckets_no_panic b : decodeBuckets b ≠ Panic.
Proof.
  rewrite decodeBuckets_eq. pose proof (reader_safe (dec := decode_bucket_list) b 0 ltac:(lia)) as Hs.
  by destruct (decode_bucket_list b 0) as [[x o]|e|].
Qed.

(** Every method of the table, at its arity, ends with a reply and is local. *)
Lemma commands_ok e h st spec name args :
  swf (c_store st) → slawful (e_store (he e)) → lookup_command name = Some spec →
  (minArgs spec <= len args <= maxArgs spec)%Z → sane_count name args →
  telemetry_wf (h_telemetry h) → method_ok (run spec) e h st args.
Proof.
  intros Hs Ho Hl Ha Hsane Htel. unfold lookup_command in Hl. simpl in Hl. unfold len in Ha.
  pose proof (local_only_refl st Hs) as Hrefl. unfold method_ok.
  repeat (case_bool_decide; [subst name; simpl in Hl; injection Hl as <-; simpl in Ha; clear -Hs Ho Ha Hsane Htel Hrefl StoreLaws0|]);
    try (by simpl in Hl); simpl run.
  - eexists _, _. by split.
  - destruct args as [|k args]; [simpl in Ha; lia|]. unfold get.
    destruct (law_Get (c_store st) (e_now (he e)) k Hs) as (Hc & _).
    destruct (sGet _ _ _) as [s v]. eexists _, _. split; [done|]. by apply local_only_with_store.
  - destruct args as [|k [|v [|opt [|arg [|? ?]]]]]; simpl in Ha; try lia; unfold set.
    + eapply set_reply_ok; [done..|]. by apply law_Set.
    + eexists _, _. by split.
    + destruct (Atoi arg) as [n|]; [|eexists _, _; by split].
      assert (∀ ttl, ∃ reply st', set_reply st (sSetWithTTL (e_store (he e)) (c_store st) (e_now (he e)) k v ttl)
        = Some (reply, st') ∧ local_only st st') as Hex.
      { intros ttl. pose proof (law_SetWithTTL (e_store (he e)) (c_store st) (e_now (he e)) k v ttl Hs Ho) as H.
        destruct (decide (0 < ttl)%Z); [by eapply set_reply_ok|]. unfold set_reply.
        destruct (sSetWithTTL _ _ _ _ _ _) as [s r]. destruct H as (E & Hc & _). simpl in E. subst r.
        eexists _, _. split; [done|]. by apply local_only_with_store. }
      case_bool_decide; [apply Hex|]. case_bool_decide; [apply Hex|]. eexists _, _. by split.
  - destruct args as [|k args]; [simpl in Ha; lia|]. unfold del.
    destruct (law_Delete (c_store st) k Hs) as (Hc & _).
    destruct (sDelete _ _) as [s d]. eexists _, _. split; [done|]. by apply local_only_with_store.
  - unfold nodes_cmd. destruct (h_members h); eexists _, _; by split.
  - destruct args as [|k args]; [simpl in Ha; lia|]. unfold get.
    destruct (law_Get (c_store st) (e_now (he e)) k Hs) as (Hc & _).
    destruct (sGet _ _ _) as [s v]. eexists _, _. split; [done|]. by apply local_only_with_store.
  - destruct args as [|k [|blob args]]; [simpl in Ha; lia..|]. unfold rset_cmd.
    pose proof (Decode_no_panic blob) as Hnp.
    destruct (Version.Decode blob) as [[|v [|v' vs]]|err|]; try done; try (eexists _, _; by split).
    match goal with |- context [sUpdateReplica ?o ?s ?now ?key ?fn] =>
      pose proof (law_UpdateReplica o s now key fn Hs Ho) as H end.
    cbv zeta in H. destruct (sUpdateReplica _ _ _ _ _) as [[s r] x]. destruct H as (_ & Hc & Hr).
    destruct r as [u|err|]; [| |done]; (eexists _, _; split; [done|]; by apply local_only_with_store).
  - destruct args as [|arg args]; [simpl in Ha; lia|]. unfold rtree.
    destruct (Atoi arg) as [n|] eqn:En; [|eexists _, _; by split].
    destruct (tree_over_encode n (sRange (e_store (he e)) (c_store st) (e_sweep (he e)))) as [blob ->];
      [by apply (Hsane (or_introl eq_refl) arg)|]. eexists _, _. by split.
  - destruct args as [|arg [|enc args]]; [simpl in Ha; lia..|]. unfold rbucket.
    destruct (Atoi arg) as [n|] eqn:En; [|eexists _, _; by split].
    pose proof (decodeBuckets_no_panic enc) as Hnp.
    destruct (decodeBuckets enc) as [want|err|]; [|eexists _, _; by split|done].
    destruct (New_wf n) as (t & -> & _); [pose proof (Hsane (or_intror eq_refl) arg n eq_refl En); lia|]. eexists _, _. by split.
  - unfold stats. destruct (TakeSnapshot_total (telemetry_of h st) (e_now (he e))) as [s ->];
      [by apply apply_calls_wf|]. eexists _, _. by split.
Qed.

(** The fan-out does not touch the coordinator's own store. *)
Lemma gather_store key blob arrive peers need st acks st' rest :
  gather arrive peers need (replicate_op key blob) st = (acks, st', rest) → c_store st' = c_store st.
Proof.
  unfold gather. generalize 1%Z. generalize (arrive peers). intros l. revert st. induction l as [|a l IH]; intros st z H; simpl in H.
  { by simplify_eq. }
  destruct (need <=? z)%Z; [by simplify_eq|]. unfold replicate_op in H at 1. destruct (Replicate (c_net st) a rset [key; blob]) as [w err].
  unfold call_done in H. destruct err; apply IH in H; done.
Qed.

Lemma coordinate_total (e : @env S _) c st cmd :
  swf (c_store st) → slawful (e_store e) → Args cmd ≠ [] →
  (ToUpper (Name cmd) = set_verb → 2 <= len (Args cmd))%Z →
  ∃ o, coordinate e c st cmd = Some o ∧ swf (c_store (o_state o)).
Proof.
  intros Hs Ho Hne Hset. unfold coordinate. destruct (Args cmd) as [|key args]; [done|]. cbv zeta.
  case_bool_decide as Hv.
  - destruct args as [|value args]; [specialize (Hset Hv); unfold len in Hset; simpl in Hset; lia|].
    unfold write, write_local. match goal with |- context [sUpdateReplica ?o ?s ?now ?key ?fn] =>
      pose proof (law_UpdateReplica o s now key fn Hs Ho) as H end.
    cbv zeta in H |- *. destruct (sUpdateReplica _ _ _ _ _) as [[s r] x]. destruct H as (_ & [Hs' _] & Hr).
    destruct r as [u|err|]; [|by eexists|done]. destruct (gather _ _ _ _ _) as [[acks st'] rest] eqn:Eg.
    apply gather_store in Eg. eexists. split; [done|]. simpl. by rewrite Eg.
  - case_bool_decide; [|case_bool_decide; [|by eexists]].
    2:{ eexists. split; [done|]. unfold read. destruct (law_Get (c_store st) (e_now e) key Hs) as ([Hs' _] & _).
        destruct (sGet (c_store st) (e_now e) key) as [s blob]. simpl in Hs'. cbv zeta.
        destruct (if (_ <? _)%Z then _ else _) as [[w rd] rest]. by destruct (responses rd <? _)%Z. }
    unfold delete, delete_local. match goal with |- context [sUpdateReplica ?o ?s ?now ?key ?fn] =>
      pose proof (law_UpdateReplica o s now key fn Hs Ho) as Hu end.
    cbv zeta in Hu |- *. destruct (sUpdateReplica _ _ _ _ _) as [[s r] [x y]]. destruct Hu as (_ & [Hs' _] & Hr).
    destruct r as [u|err|]; [|by eexists|done]. destruct (gather _ _ _ _ _) as [[acks st'] rest] eqn:Eg.
    apply gather_store in Eg. eexists. split; [done|]. simpl. by rewrite Eg.
Qed.

(** The routable commands have a key, and SET its value. *)
Lemma clustered_arity name (spec : @commandSpec S W _) :
  lookup_command name = Some spec → clusteredOp spec = true →
  (1 <= minArgs spec)%Z ∧ (name = set_verb → 2 <= minArgs spec)%Z.
Proof.
  unfold lookup_command. simpl. intros Hl.
  repeat (let Hn := fresh in case_bool_decide as Hn; [simpl in Hl; injection Hl as <-; rewrite <-Hn; simpl; intros Hq;
    (discriminate || (split; [lia|intros Hv; (discriminate Hv || lia)]))|]).
  by simpl in Hl.
Qed.

Lemma recordOutcome_store name elapsed reply st : c_store (recordOutcome name elapsed reply st) = c_store st.
Proof.
  unfold recordOutcome. destruct (AsError reply); [done|].
  case_bool_decide; [|done]. by destruct (AsBulk reply).
Qed.

(** Every command ends, and the store stays well formed. *)
Lemma Handle_total e h st cmd :
  swf (c_store st) → slawful (e_store (he e)) → sane_leaves cmd → telemetry_wf (h_telemetry h) →
  ∃ o, Handle e h st cmd = Some o ∧ swf (c_store (o_state o)).
Proof.
  intros Hs Ho Hsane Htel. unfold Handle. cbv zeta.
  destruct (lookup_command (ToUpper (Name cmd))) as [spec|] eqn:Hl; [|by eexists].
  destruct (Z.ltb_spec (len (Args cmd)) (minArgs spec)) as [H1|H1]; simpl; [by eexists|].
  destruct (Z.ltb_spec (maxArgs spec) (len (Args cmd))) as [H2|H2]; [by eexists|]. set (st1 := record st _).
  destruct (commands_ok e h st1 spec (ToUpper (Name cmd)) (Args cmd)) as (reply & st2 & Hrun & [Hst2 _] & _); [done..|].
  rewrite Hrun. cbn [mbind option_bind].
  assert (∃ o, Some (mkOutcome reply (recordOutcome (ToUpper (Name cmd)) (he_elapsed e) reply st2) id) = Some o
    ∧ swf (c_store (o_state o))) as Hlocal by (eexists; split; [done|]; simpl; by rewrite recordOutcome_store).
  destruct (h_router h) as [router|]; [|done]. destruct (Args cmd) as [|key args] eqn:Ea; [done|].
  destruct (clusteredOp spec) eqn:Hcl; [|done]. destruct (clustered_arity _ spec Hl Hcl) as [Hkey Hset].
  assert (∀ c, ∃ o, (o' ← coordinate (he e) c st1 cmd;
      Some (mkOutcome (o_reply o') (recordOutcome (ToUpper (Name cmd)) (he_elapsed e) (o_reply o') (o_state o'))
        (o_background o'))) = Some o
    ∧ swf (c_store (o_state o))) as Hco.
  { intros c. destruct (coordinate_total (he e) c st1 cmd) as (o & -> & Hso); [done|done|by rewrite Ea| |].
    - rewrite Ea. intros E. specialize (Hset E). lia.
    - eexists. split; [done|]. simpl. by rewrite recordOutcome_store. }
  destruct (IsLocal router key); [|destruct (Owner router key) as [owner|]]; simpl; [|by eexists|];
    (destruct (h_coordinator h) as [c|]; [apply Hco|done]).
Qed.

(** A command that is neither redirected nor coordinated. *)
Lemma Handle_local e h st name args spec reply st1 :
  h_router h = None → lookup_command (ToUpper name) = Some spec →
  (minArgs spec <= len args <= maxArgs spec)%Z →
  run spec e h (record st (Count (ToUpper name))) args = Some (reply, st1) →
  Handle e h st (mkCommand name args)
  = Some (mkOutcome reply (recordOutcome (ToUpper name) (he_elapsed e) reply st1) id).
Proof.
  intros Hr Hl Ha Hrun. unfold Handle. cbn [Name Args]. cbv zeta. rewrite Hl.
  destruct (Z.ltb_spec (len args) (minArgs spec)); [lia|].
  destruct (Z.ltb_spec (maxArgs spec) (len args)); [lia|]. simpl. rewrite Hrun, Hr. done.
Qed.
End contract.

(** ** Properties *)

(** C29: commands get a reply and only the coordinator replicates. [Handle] replies
    to every command, whatever its name and arguments, except that for RTREE and
    RBUCKET the theorem assumes a leaf count of at most 2^31 (a larger one may
    panic, Merkle.New_overflows). An unknown command or a wrong arity changes
    nothing. A key another node owns is answered with a redirect to the owner,
    having touched nothing but the command counter. A command that is not
    coordinated (internal, keyless, standalone) stays on this node: it sends
    nothing, parks no hint, leaves no work behind and keeps the store well formed. A
    key this node owns goes to the coordinator, whose reply is passed on. *)
Theorem Handle_routes {S W} `{!Store S, !StoreLaws S, !Replicator W}
    (e : @henv S _) (h : Handler) (st : @cstate S W) (cmd : Command) :
  swf (c_store st) → slawful (e_store (he e)) → sane_leaves cmd → telemetry_wf (h_telemetry h) →
  let name := ToUpper (Name cmd) in
  ∃ o, Handle e h st cmd = Some o ∧
    match lookup_command (S := S) (W := W) name with
    | None => o_state o = st ∧ o_reply o = Error (str "ERR unknown command '" ++ Name cmd ++ str "'")
    | Some spec =>
        if decide (minArgs spec <= len (Args cmd) <= maxArgs spec)%Z then
          (∀ router key owner, h_router h = Some router → clusteredOp spec = true →
             head (Args cmd) = Some key → IsLocal router key = false → Owner router key = Some owner →
             o_reply o = Error (str "MOVED " ++ owner) ∧ o_state o = record st (Count name)
             ∧ ∀ st', o_background o st' = st')
          ∧ (clusteredOp spec = false ∨ h_router h = None →
             local_only st (o_state o) ∧ ∀ st', o_background o st' = st')
          ∧ (∀ router c key, h_router h = Some router → h_coordinator h = Some c →
             clusteredOp spec = true → head (Args cmd) = Some key →
             IsLocal router key = true ∨ Owner router key = None →
             ∃ o', coordinate (he e) c (record st (Count name)) cmd = Some o'
               ∧ o_reply o = o_reply o' ∧ o_background o = o_background o'
               ∧ o_state o = recordOutcome name (he_elapsed e) (o_reply o') (o_state o'))
        else o_state o = st ∧ o_reply o = Error (str "ERR wrong number of arguments for '" ++ Name cmd ++ str "'")
    end.
Proof.
  intros Hs Ho Hsane Htel. cbv zeta. unfold Handle. cbv zeta.
  destruct (lookup_command (ToUpper (Name cmd))) as [spec|] eqn:Hl; [|by eexists].
  destruct (Z.ltb_spec (len (Args cmd)) (minArgs spec)) as [H1|H1]; simpl.
  { eexists. split; [done|]. by rewrite decide_False by lia. }
  destruct (Z.ltb_spec (maxArgs spec) (len (Args cmd))) as [H2|H2].
  { eexists. split; [done|]. by rewrite decide_False by lia. }
  destruct (decide (minArgs spec <= len (Args cmd) <= maxArgs spec)%Z) as [_|Hx]; [|lia]. set (st1 := record st _).
  destruct (commands_ok e h st1 spec (ToUpper (Name cmd)) (Args cmd)) as (reply & st2 & Hrun & Hloc); [done..|].
  assert (local_only st (recordOutcome (ToUpper (Name cmd)) (he_elapsed e) reply st2)) as Hlocal.
  { eapply local_only_trans; [by apply (local_only_record st (Count (ToUpper (Name cmd))))|].
    eapply local_only_trans; [exact Hloc|]. apply recordOutcome_local, Hloc. }
  rewrite Hrun. simpl.
  destruct (clusteredOp spec) eqn:Hcl.
  2:{ exists (mkOutcome reply (recordOutcome (ToUpper (Name cmd)) (he_elapsed e) reply st2) id).
      split; [by destruct (h_router h), (Args cmd)|]. split_and!; [done| |done]. by intros _. }
  destruct (clustered_arity _ spec Hl Hcl) as [Hkey Hset].
  destruct (Args cmd) as [|key args] eqn:Ea; [unfold len in H1; simpl in H1; lia|].
  destruct (h_router h) as [router|].
  2:{ eexists. split; [done|]. split_and!; [done| |done]. by intros _. }
  assert (∀ c, ∃ o, coordinate (he e) c st1 cmd = Some o ∧ swf (c_store (o_state o))) as Hco.
  { intros c. apply coordinate_total; [done|done|by rewrite Ea|]. rewrite Ea. intros E. specialize (Hset E). lia. }
  destruct (IsLocal router key) eqn:Hloc'; [|destruct (Owner router key) as [owner|] eqn:Hown]; simpl.
  - destruct (h_coordinator h) as [c|].
    + destruct (Hco c) as (o' & Eo & _). rewrite Eo. simpl. eexists. split; [done|]. split_and!.
      * intros. simplify_eq. congruence.
      * by intros [?|?].
      * intros ? c' ? [= <-] [= <-] _ [= <-] _. by exists o'.
    + eexists. split; [done|]. split_and!; [|by intros [?|?]|done]. intros. simplify_eq. congruence.
  - eexists. split; [done|]. split_and!; [|by intros [?|?]|].
    + intros ? ? ? [= <-] _ [= <-] _ E. by simplify_eq/=.
    + intros ? ? ? [= <-] _ _ [= <-] [?|?]; congruence.
  - destruct (h_coordinator h) as [c|].
    + destruct (Hco c) as (o' & Eo & _). rewrite Eo. simpl. eexists. split; [done|]. split_and!.
      * intros ? ? ? [= <-] _ [= <-] _ E. congruence.
      * by intros [?|?].
      * intros ? c' ? [= <-] [= <-] _ [= <-] _. by exists o'.
    + eexists. split; [done|]. split_and!; [|by intros [?|?]|done].
      intros ? ? ? [= <-] _ [= <-] _ E. congruence.
Qed.

(** C30: a standalone node is a key-value store.  GET replies with the value a
    reader sees, or null; SET replies +OK and the value is then stored without
    expiry (unless the policy of a full store refused it), or replies with the
    size error and changes nothing; DEL replies whether the key was stored and
    it is gone; other keys are only ever evicted, never changed. *)
Theorem standalone_commands {S W} `{!Store S, !StoreLaws S, !Replicator W}
    (e : @henv S _) (h : Handler) (st : @cstate S W) (key value : bytes) :
  swf (c_store st) → slawful (e_store (he e)) → h_router h = None →
  let s := c_store st in
  (∃ o, Handle e h st (mkCommand (str "get") [key]) = Some o
     ∧ o_reply o = BulkString (slive s (e_now (he e)) key)
     ∧ ∀ k, sview (c_store (o_state o)) k = sview s k)
  ∧ (∃ o, Handle e h st (mkCommand (str "SET") [key; value]) = Some o ∧
      match limit_error (slimits s) key value with
      | Some err => o_reply o = Error (str "ERR " ++ store_error err)
          ∧ ∀ k, sview (c_store (o_state o)) k = sview s k
      | None => o_reply o = SimpleString (str "OK") ∧ bystanders s (c_store (o_state o)) key
          ∧ (sview (c_store (o_state o)) key = Some (value, None)
             ∨ sevicts s ∧ sview (c_store (o_state o)) key = None)
      end)
  ∧ (∃ o, Handle e h st (mkCommand (str "del") [key]) = Some o
      ∧ o_reply o = Integer (if bool_decide (is_Some (sview s key)) then 1 else 0)
      ∧ sview (c_store (o_state o)) key = None
      ∧ ∀ k, k ≠ key → sview (c_store (o_state o)) k = sview s k).
Proof.
  intros Hs Ho Hr. cbv zeta.
  pose proof (recordOutcome_store (S := S) (W := W)) as Hrec.
  assert (∀ name args spec, lookup_command (S := S) (W := W) (ToUpper name) = Some spec →
    (minArgs spec <= len args <= maxArgs spec)%Z → ∀ reply st1,
    run spec e h (record st (Count (ToUpper name))) args = Some (reply, st1) →
    Handle e h st (mkCommand name args)
    = Some (mkOutcome reply (recordOutcome (ToUpper name) (he_elapsed e) reply st1) id)) as Hhandle.
  { intros. eapply Handle_local; eauto. }
  split_and!.
  - destruct (law_Get (c_store st) (e_now (he e)) key Hs) as (_ & Hv & Hview).
    destruct (sGet (c_store st) (e_now (he e)) key) as [s1 v] eqn:E. cbn [fst snd] in *. subst v.
    eexists. split; [eapply (Hhandle (str "get") [key] (mkSpec 1 1 true get) eq_refl); [done|]; simpl; by rewrite E|].
    split; [done|]. intros k. cbn [o_state]. rewrite Hrec. apply Hview.
  - destruct (law_Set (e_store (he e)) (c_store st) key value Hs Ho) as [_ Hw].
    destruct (sSet (e_store (he e)) (c_store st) key value) as [s1 r] eqn:E. cbn [fst snd] in *.
    destruct r as [adm|err|]; [| |done].
    + destruct Hw as (Hfit & Hby & Hv & Hadm). unfold fits in Hfit. rewrite Hfit.
      eexists. split; [eapply (Hhandle (str "SET") [key; value] (mkSpec 2 4 true set) eq_refl); [done|]; simpl; rewrite E; done|].
      cbn [o_state o_reply]. rewrite Hrec. destruct adm; simpl in *; (split_and!; [done|done|]); [by left|].
      right. split; [|done]. by destruct Hadm.
    + destruct Hw as (-> & Hv).
      eexists. split; [eapply (Hhandle (str "SET") [key; value] (mkSpec 2 4 true set) eq_refl); [done|]; simpl; rewrite E; done|].
      cbn [o_state o_reply]. split; [done|]. intros k. rewrite Hrec. apply Hv.
  - destruct (law_Delete (c_store st) key Hs) as (_ & Hd & Hn & Hv).
    destruct (sDelete (c_store st) key) as [s1 d] eqn:E. cbn [fst snd] in *. subst d.
    eexists. split; [eapply (Hhandle (str "del") [key] (mkSpec 1 1 true del) eq_refl); [done|]; simpl; by rewrite E|].
    cbn [o_state o_reply]. rewrite Hrec. done.
Qed.

(** The conversion of EX seconds to a duration wraps: 18446744074 seconds, some
    584 years, is accepted as a quarter of a second, and 9223372037 seconds is
    refused as not positive. *)
Lemma ttl_wraps : i64 (18446744074 * Second) = 290448384%Z ∧ (i64 (9223372037 * Second) < 0)%Z.
Proof. split; vm_compute; reflexivity. Qed.

(** ** Witnesses *)

Definition plain_henv : @henv (MapStore lfu) MapStore_store :=
  mkHenv (plain_env 0) map_to_list map_to_list 0.

(** A node without peers. *)
Definition alone : @cstate (MapStore lfu) (list bool) := mkC empty_store NewHintStore [] [].

(** Node a of a two-node cluster, without replication. *)
Definition handler_a : Handler :=
  mkHandler (Some roster_a) (Some (NewRouter (merge_sort hash_le) map_to_list roster_a 4 1)) None None.

Lemma lookup_unknown {S W} `{!Store S} :
  lookup_command (S := S) (W := W) (ToUpper (Name (mkCommand (str "NOPE") []))) = None.
Proof. reflexivity. Qed.

(** A key of node b, and an unknown command. *)
Lemma Handle_routes_witness :
  (∃ o, Handle (Replicator0 := flaky) plain_henv handler_a alone (mkCommand (str "get") [str "abc"]) = Some o
    ∧ o_reply o = Error (str "MOVED b"))
  ∧ ∃ o, Handle (Replicator0 := flaky) plain_henv handler_a alone (mkCommand (str "NOPE") []) = Some o
    ∧ o_state o = alone.
Proof.
  split.
  - destruct (Handle_routes (Replicator0 := flaky) plain_henv handler_a alone (mkCommand (str "get") [str "abc"]))
      as (o & E & H).
    + apply empty_store_ok.
    + apply lawful_map_to_list.
    + intros [H|H]; vm_compute in H; discriminate H.
    + exact I.
    + exists o. split; [exact E|]. simpl in H. destruct H as (H & _).
      apply (H (NewRouter (merge_sort hash_le) map_to_list roster_a 4 1) (str "abc") (str "b"));
        [reflexivity|reflexivity|reflexivity|vm_compute; reflexivity|vm_compute; reflexivity].
  - destruct (Handle_routes (Replicator0 := flaky) plain_henv handler_a alone (mkCommand (str "NOPE") []))
      as (o & E & H).
    + apply empty_store_ok.
    + apply lawful_map_to_list.
    + intros [H|H]; vm_compute in H; discriminate H.
    + exact I.
    + exists o. split; [exact E|]. cbv zeta in H. rewrite lookup_unknown in H. exact (proj1 H).
Defined.

Lemma standalone_commands_witness :
  ∃ o, Handle (Replicator0 := flaky) plain_henv (mkHandler None None None None) alone (mkCommand (str "get") [str "k"]) = Some o
    ∧ o_reply o = BulkString None.
Proof.
  destruct (standalone_commands (Replicator0 := flaky) plain_henv (mkHandler None None None None) alone (str "k") (str "v"))
    as ((o & E & H & _) & _).
  - apply empty_store_ok.
  - apply lawful_map_to_list.
  - reflexivity.
  - exists o. split; [exact E|]. rewrite H. vm_compute. reflexivity.
Defined.
