(* ===== verification/Server.v ===== *)
(** * The TCP server (internal/server/server.go)

    Two parts.  [handleConn] serves one connection: the bytes the client sends,
    up to the end of the stream, give the bytes the server writes; it is written
    over the function that executes a command, its only view of the handler.  The
    life of the server (accept loop, connection slots, tracking, shutdown) is a
    transition system, one step for each critical section or channel operation
    of its goroutines. *)

From S2P Require Import Prelude Telemetry Binenc Resp Vclock Version Sketch Policy MapStore ShardedStore.
From S2P Require Import Membership Ring Router Sha256 Merkle Replica AntiEntropy Handoff Coordinator Handler.

(** ** One connection *)

(** [errors.AsType[*protocol.ProtocolError]]: the others are the transport's. *)
Definition is_protocol (e : respErr) : bool :=
  match e with EOF | UnexpectedEOF | BufferFull => false | _ => true end.

Section connection.
Context {T : Type}.

(** [handle i cmd s] executes the connection's [i]-th command, [None] when it
    panics; [isPrint] is Unicode's table for [%q]; [fails i] is [Some n] when the
    write of the [i]-th reply stops, after its first [n] bytes. *)
Variable handle : nat → Command → T → option (Resp.Value * T).
Variable isPrint : N → bool.
Variable fails : nat → option nat.

(** The bytes that reach the socket, and whether the call succeeded. *)
Definition writeReply (i : nat) (v : Resp.Value) : bytes * bool :=
  let '(bs, err) := Resp.Encode v in
  match err with
  | Some _ => ([], false)
  | None => match fails i with None => (bs, true) | Some n => (take n bs, false) end
  end.

Definition error_reply (e : respErr) : Resp.Value := Error (str "ERR " ++ message isPrint e).

(** The read loop.  Every turn consumes input, so [fuel] bounds the turns. *)
Fixpoint serve_loop (fuel i : nat) (r out : bytes) (s : T) : option (bytes * T) :=
  match fuel with
  | O => None
  | Datatypes.S fuel =>
      match Resp.Decode r with
      | Panic => None
      | Err e => Some (out ++ (if is_protocol e then (writeReply i (error_reply e)).1 else []), s)
      | Ok (value, r) =>
          match to_command value with
          | Panic => None
          | Err e =>
              let '(bs, wrote) := writeReply i (error_reply e) in
              if wrote : bool then serve_loop fuel (Datatypes.S i) r (out ++ bs) s else Some (out ++ bs, s)
          | Ok cmd =>
              '(reply, s) ← handle i cmd s;
              let '(bs, wrote) := writeReply i reply in
              if wrote : bool then serve_loop fuel (Datatypes.S i) r (out ++ bs) s else Some (out ++ bs, s)
          end
      end
  end.

(** A connection that was tracked, with the bytes it will deliver. *)
Definition handleConn (r : bytes) (s : T) : option (bytes * T) :=
  serve_loop (Datatypes.S (length r)) 0 r [] s.

(** ** Lemmas *)

(** What the server answers to one decoded value. *)
Definition answer (i : nat) (v : Resp.Value) (s : T) : option (Resp.Value * T) :=
  match to_command v with
  | Ok cmd => handle i cmd s
  | Err e => Some (error_reply e, s)
  | Panic => None
  end.

(** The answers to a sequence of values. *)
Fixpoint answers (i : nat) (vs : list Resp.Value) (s : T) : option (list Resp.Value * T) :=
  match vs with
  | [] => Some ([], s)
  | v :: vs =>
      '(reply, s) ← answer i v s;
      '(replies, s) ← answers (Datatypes.S i) vs s;
      Some (reply :: replies, s)
  end.

Lemma command_args_no_panic vs : command_args vs ≠ Panic.
Proof.
  induction vs as [|v vs IH]; [done|]. destruct v; simpl; try done. by destruct (command_args vs).
Qed.

Lemma to_command_no_panic v : to_command v ≠ Panic.
Proof.
  destruct v as [| | | | | |[|v vs]]; try done. destruct v; try done. simpl.
  pose proof (command_args_no_panic vs). by destruct (command_args vs).
Qed.

Lemma decode_wire_ok v rest : wire_ok v → Resp.Decode (wire v ++ rest) = Ok (v, rest).
Proof. intros Hv. unfold Resp.Decode. apply decode_wire; [done|]. rewrite length_app. lia. Qed.

Lemma length_wire v : wire_ok v → (0 < length (wire v))%nat.
Proof. intros Hv. destruct v as [| | | |[b|]| |l]; simpl in *; try done; lia. Qed.

Lemma writeReply_ok i v : (∀ i, fails i = None) → wire_ok v → writeReply i v = (wire v, true).
Proof. intros Hok Hv. unfold writeReply, Resp.Encode. rewrite encode_wire by done. simpl. by rewrite Hok. Qed.

(** The commands among the values of a stream, up to where it stops being RESP. *)
Fixpoint requests_in (fuel : nat) (r : bytes) : list Command :=
  match fuel with
  | O => []
  | Datatypes.S fuel =>
      match Resp.Decode r with
      | Ok (value, r) => match to_command value with Ok cmd => [cmd] | _ => [] end ++ requests_in fuel r
      | _ => []
      end
  end.
Definition requests (r : bytes) : list Command := requests_in (Datatypes.S (length r)) r.

(** The loop never gives up: with enough fuel it ends, in a state the handler
    vouches for, if the handler ends on the commands of the stream. *)
Lemma serve_loop_total (I : T → Prop) fuel i r out s :
  (∀ i cmd s, cmd ∈ requests_in fuel r → I s → ∃ reply s', handle i cmd s = Some (reply, s') ∧ I s') →
  (length r < fuel)%nat → I s →
  ∃ out' s', serve_loop fuel i r out s = Some (out', s') ∧ I s'.
Proof.
  revert i r out s. induction fuel as [|fuel IH]; intros i r out s Hh Hf Hs; [lia|]. cbn [serve_loop].
  pose proof (decode_spec (Datatypes.S (length r)) r ltac:(lia)) as Hd.
  change (decode (Datatypes.S (length r)) r) with (Resp.Decode r) in Hd. cbn [requests_in] in Hh.
  destruct (Resp.Decode r) as [[v r']|e|]; [|by eexists _, _|done]. apply consumed_length in Hd.
  pose proof (to_command_no_panic v) as Hnp. destruct (to_command v) as [cmd|e|]; [| |done].
  - destruct (Hh i cmd s ltac:(set_solver) Hs) as (reply & s' & -> & Hs'). simpl.
    destruct (writeReply i reply) as [bs []]; [|by eexists _, _]. apply IH; [|lia|done].
    intros j cmd' s2 Hin. apply Hh. set_solver.
  - destruct (writeReply i (error_reply e)) as [bs []]; [|by eexists _, _]. by apply IH; [|lia|].
Qed.

Lemma serve_loop_frames vs fuel i tail out s replies s' :
  (∀ i, fails i = None) → Forall wire_ok vs → answers i vs s = Some (replies, s') → Forall wire_ok replies →
  (length (concat (wire <$> vs) ++ tail) < fuel)%nat →
  ∃ fuel', (length tail < fuel')%nat ∧
    serve_loop fuel i (concat (wire <$> vs) ++ tail) out s
    = serve_loop fuel' (i + length vs) tail (out ++ concat (wire <$> replies)) s'.
Proof.
  intros Hok Hvs. revert fuel i out s replies. induction Hvs as [|v vs Hv Hvs IH]; intros fuel i out s replies Ha Hr Hf.
  { simpl in Ha. injection Ha as <- <-. simpl. rewrite app_nil_r, Nat.add_0_r. eauto. }
  destruct fuel as [|fuel]; [lia|]. rewrite fmap_cons in *. cbn [concat] in *. rewrite <-app_assoc in *.
  cbn [serve_loop]. rewrite decode_wire_ok by done. simpl in Ha. unfold answer in Ha.
  pose proof (length_wire v Hv) as Hlen. rewrite length_app in Hf.
  assert (∀ reply s1, Some (reply, s1) = match to_command v with
      | Ok cmd => handle i cmd s | Err e => Some (error_reply e, s) | Panic => None end →
    ∃ fuel', (length tail < fuel')%nat ∧
      (let '(bs, wrote) := writeReply i reply in
       if wrote then serve_loop fuel (Datatypes.S i) (concat (wire <$> vs) ++ tail) (out ++ bs) s1 else Some (out ++ bs, s1))
      = serve_loop fuel' (i + length (v :: vs)) tail (out ++ concat (wire <$> replies)) s') as Hstep.
  { intros reply s1 E. rewrite <-E in Ha. simpl in Ha. destruct (answers (Datatypes.S i) vs s1) as [[reps s2]|] eqn:Ea; [|done].
    simpl in Ha. injection Ha as <- <-. apply Forall_cons in Hr as [Hr1 Hr2].
    rewrite writeReply_ok by done. destruct (IH fuel (Datatypes.S i) (out ++ wire reply) s1 reps Ea Hr2 ltac:(lia)) as (f' & Hf' & ->).
    exists f'. split; [done|]. rewrite fmap_cons. cbn [concat length]. rewrite <-app_assoc. f_equal. lia. }
  destruct (to_command v) as [cmd|e|] eqn:Ec; [| |done].
  - destruct (handle i cmd s) as [[reply s1]|]; [|done]. simpl. by apply Hstep.
  - by apply Hstep.
Qed.
End connection.

(** A client reading [n] replies. *)
Fixpoint read_replies (n : nat) (r : bytes) : gres respErr (list Resp.Value * bytes) :=
  match n with
  | O => Ok ([], r)
  | Datatypes.S n => do (v, r) <- Resp.Decode r; do (vs, r) <- read_replies n r; Ok (v :: vs, r)
  end.

Lemma read_replies_wire vs rest :
  Forall wire_ok vs → read_replies (length vs) (concat (wire <$> vs) ++ rest) = Ok (vs, rest).
Proof.
  induction 1 as [|v vs Hv _ IH]; [done|]. rewrite fmap_cons. cbn [concat length read_replies].
  rewrite <-app_assoc, decode_wire_ok by done. simpl. by rewrite IH.
Qed.

(** The reply to a malformed request is one frame: its text quotes the bytes it
    complains about. *)
Lemma error_reply_frame p e rest :
  (length (message p e) < 4000)%nat → Resp.Decode ((Resp.Encode (error_reply p e)).1 ++ rest) = Ok (error_reply p e, rest).
Proof.
  intros Hl. assert (wire_ok (error_reply p e)) as Hw.
  { unfold error_reply. simpl. pose proof (message_one_line p e). split; [|unfold bufioSize; lia].
    intros Hin. repeat (apply elem_of_cons in Hin as [Hin|Hin]; [discriminate Hin|]). done. }
  unfold Resp.Encode. rewrite encode_wire by done. by apply decode_wire_ok.
Qed.

(** A reply is not always one frame: the name of an unknown command is quoted in
    the error without escaping, so a name with a line break splits the reply. *)
Lemma reply_splitting :
  let name := str "x" ++ Resp.crlf ++ str "+OK" in
  let reply := Error (str "ERR unknown command '" ++ name ++ str "'") in
  read_replies 2 (Resp.Encode reply).1
  = Ok ([Error (str "ERR unknown command 'x"); SimpleString (str "OK'")], []).
Proof. vm_compute. reflexivity. Qed.

(** ** Life of the server *)

(** A connection goroutine: started, serving (its connection is in [conns]),
    past [untrackConn], past [conn.Close].  After that it releases its slot and
    is gone. *)
Inductive phase : Type := Spawned | Serving | Untracked | Closed.

(** The accept loop: before [acquire], holding a slot in [Accept], having
    accepted a connection, in its own [Close], returned. *)
Inductive accepting : Type :=
| AtAcquire
| AtAccept
| Accepted (c : nat)
| ClosingItself
| Returned.

#[global] Instance phase_eq_dec : EqDecision phase.
Proof. solve_decision. Defined.
#[global] Instance accepting_eq_dec : EqDecision accepting.
Proof. solve_decision. Defined.

(** [sem] is the capacity of the channel, [slots] its length; [wg] counts the
    goroutines of [goroutines]; [sockets] are the open connections. *)
Record Server : Type := mkServer {
  sem : option nat;
  slots : nat;
  loop : accepting;
  goroutines : gmap nat phase;
  conns : gset nat;
  sockets : gset nat;
  listening : bool;
  closed : bool
}.

Definition NewServer (MaxConns : Z) : Server :=
  mkServer (if (0 <? MaxConns)%Z then Some (Z.to_nat MaxConns) else None) 0 AtAcquire ∅ ∅ ∅ true false.

(** [s.sem <- struct{}{}] and [<-s.sem], no-ops without a cap. *)
Definition acquire (s : Server) : option nat :=
  match sem s with
  | None => Some (slots s)
  | Some cap => if (slots s <? cap)%nat then Some (Datatypes.S (slots s)) else None
  end.
Definition release (s : Server) : nat := match sem s with None => slots s | Some _ => pred (slots s) end.

Definition with_loop (s : Server) (l : accepting) (n : nat) : Server :=
  mkServer (sem s) n l (goroutines s) (conns s) (sockets s) (listening s) (closed s).

Definition trackConn (s : Server) (c : nat) : Server :=
  if closed s then
    mkServer (sem s) (slots s) (loop s) (<[c := Untracked]> (goroutines s)) (conns s) (sockets s) (listening s) (closed s)
  else
    mkServer (sem s) (slots s) (loop s) (<[c := Serving]> (goroutines s)) ({[c]} ∪ conns s) (sockets s) (listening s)
      (closed s).

Definition untrackConn (s : Server) (c : nat) : Server :=
  mkServer (sem s) (slots s) (loop s) (<[c := Untracked]> (goroutines s)) (conns s ∖ {[c]}) (sockets s) (listening s)
    (closed s).

(** The critical section of [Close]: only the first call acts. *)
Definition Close (s : Server) : Server :=
  if closed s then s
  else mkServer (sem s) (slots s) (loop s) (goroutines s) (conns s) (sockets s ∖ conns s) false true.

Definition liveConns (s : Server) : Z := Z.of_nat (size (conns s)).

Inductive server_step : Server → Server → Prop :=
| step_acquire s n : loop s = AtAcquire → acquire s = Some n → server_step s (with_loop s AtAccept n)
| step_accept s c :
    loop s = AtAccept → listening s = true → goroutines s !! c = None → c ∉ sockets s →
    server_step s (mkServer (sem s) (slots s) (Accepted c) (goroutines s) (conns s) ({[c]} ∪ sockets s)
      (listening s) (closed s))
| step_spawn s c :                                  (** [wg.Add(1)], [go] *)
    loop s = Accepted c →
    server_step s (mkServer (sem s) (slots s) AtAcquire (<[c := Spawned]> (goroutines s)) (conns s) (sockets s)
      (listening s) (closed s))
| step_accept_closing s :                           (** [Accept] fails, [isClosing] *)
    loop s = AtAccept → closed s = true → server_step s (with_loop s Returned (slots s))
| step_accept_failed s :                            (** [Accept] fails by itself *)
    loop s = AtAccept → closed s = false → server_step s (with_loop (Close s) ClosingItself (slots s))
| step_track s c : goroutines s !! c = Some Spawned → server_step s (trackConn s c)
| step_untrack s c : goroutines s !! c = Some Serving → server_step s (untrackConn s c)
| step_close_conn s c :
    goroutines s !! c = Some Untracked →
    server_step s (mkServer (sem s) (slots s) (loop s) (<[c := Closed]> (goroutines s)) (conns s) (sockets s ∖ {[c]})
      (listening s) (closed s))
| step_release s c :                                (** [release], [wg.Done] *)
    goroutines s !! c = Some Closed →
    server_step s (mkServer (sem s) (release s) (loop s) (base.delete c (goroutines s)) (conns s) (sockets s)
      (listening s) (closed s))
| step_close s : server_step s (Close s)
| step_wait s : loop s = ClosingItself → goroutines s = ∅ → server_step s (with_loop s Returned (slots s)).

(** [Close] returns once [wg.Wait] does. *)
Definition Close_returns (s : Server) : Prop := closed s = true ∧ goroutines s = ∅.

(** The slot the accept loop holds. *)
Definition loop_slot (s : Server) : nat :=
  match loop s with AtAcquire => 0 | _ => 1 end.

Record server_inv (s : Server) : Prop := {
  si_conns : ∀ c, c ∈ conns s ↔ goroutines s !! c = Some Serving;
  si_slots : ∀ cap, sem s = Some cap → slots s = size (goroutines s) + loop_slot s ∧ slots s <= cap;
  si_closed : closed s = true → ∀ c, c ∈ conns s → c ∉ sockets s;
  si_listening : listening s = negb (closed s);
  si_sockets : ∀ c, c ∈ sockets s → is_Some (goroutines s !! c) ∨ loop s = Accepted c;
  si_accepted : ∀ c, loop s = Accepted c → goroutines s !! c = None;
  si_gone : ∀ c, goroutines s !! c = Some Closed → c ∉ sockets s
}.

(** ** Lemmas on the life of the server *)

Lemma server_inv_new n : server_inv (NewServer n).
Proof.
  split; cbn [sem slots loop goroutines conns sockets listening closed NewServer]; try done.
  intros cap _. rewrite map_size_empty. unfold loop_slot. simpl. lia.
Qed.

(** Project the fields of an explicit state, keeping the maps folded. *)
Ltac server_fields :=
  cbn [sem slots loop goroutines conns sockets listening closed with_loop] in *.

(** A goroutine moves from one phase to another: what it needs to keep the
    invariant. *)
Lemma server_inv_phase s c p q (cs socks : gset nat) :
  server_inv s → goroutines s !! c = Some p →
  (∀ d, d ≠ c → d ∈ cs ↔ d ∈ conns s) → (c ∈ cs ↔ q = Serving) →
  (∀ d, d ∈ socks → d ∈ sockets s) → (closed s = true → q ≠ Serving) → (q = Closed → c ∉ socks) →
  server_inv (mkServer (sem s) (slots s) (loop s) (<[c := q]> (goroutines s)) cs socks (listening s) (closed s)).
Proof.
  intros [H1 H2 H3 H4 H5 H6 H7] Hc Hcs Hq Hsk Hcl Hcd. split; server_fields.
  - intros d. destruct (decide (d = c)) as [->|Hd]; [rewrite lookup_insert_eq, Hq; naive_solver|].
    rewrite lookup_insert_ne, Hcs by done. apply H1.
  - intros cap Hcap. rewrite map_size_insert_Some by (by eexists). unfold loop_slot. simpl. by apply H2.
  - intros Hclosed d Hd Hs. destruct (decide (d = c)) as [->|Hne]; [by apply Hcl, Hq|].
    apply Hcs in Hd; [|done]. by apply (H3 Hclosed d Hd), Hsk.
  - done.
  - intros d Hd. destruct (H5 d (Hsk d Hd)) as [Hg|Hl]; [left|by right].
    destruct (decide (d = c)) as [->|Hne]; [rewrite lookup_insert_eq; by eexists|by rewrite lookup_insert_ne].
  - intros d Hl. specialize (H6 d Hl). rewrite lookup_insert_ne; [done|]. congruence.
  - intros d. destruct (decide (d = c)) as [->|Hne].
    + rewrite lookup_insert_eq. intros [= ->]. by apply Hcd.
    + rewrite lookup_insert_ne by done. intros Hg Hs. by apply (H7 d Hg), Hsk.
Qed.

Lemma server_inv_loop s l n :
  server_inv s → (∀ c, l ≠ Accepted c) → (∀ c, loop s ≠ Accepted c) →
  (∀ cap, sem s = Some cap → n <= cap ∧ n + loop_slot s = slots s + match l with AtAcquire => 0 | _ => 1 end) →
  server_inv (with_loop s l n).
Proof.
  intros [H1 H2 H3 H4 H5 H6 H7] Hl Hl' Hn. split; server_fields; try done.
  - intros cap Hcap. destruct (H2 cap Hcap) as [E _], (Hn cap Hcap) as [Hle E']. split; [|done].
    unfold loop_slot in *. server_fields. lia.
  - intros c Hc. destruct (H5 c Hc) as [?|Hx]; [by left|by apply Hl' in Hx].
  - intros c Hc. by apply Hl in Hc.
Qed.

Lemma server_inv_Close s : server_inv s → server_inv (Close s).
Proof.
  intros Hs. unfold Close. destruct (closed s) eqn:Ec; [done|]. destruct Hs as [H1 H2 H3 H4 H5 H6 H7].
  split; server_fields; try done; set_solver.
Qed.

Lemma server_step_inv s s' : server_inv s → server_step s s' → server_inv s'.
Proof.
  intros Hs Hstep. pose proof Hs as [H1 H2 H3 H4 H5 H6 H7].
  destruct Hstep as [s n Hl Ha|s c Hl Hlis Hg Hsk|s c Hl|s Hl Hc|s Hl Hc|s c Hg|s c Hg|s c Hg|s c Hg|s|s Hl Hg].
  - apply server_inv_loop; [done|done|congruence|]. intros cap Hcap. destruct (H2 cap Hcap) as [E Hle].
    unfold acquire in Ha. rewrite Hcap in Ha. unfold loop_slot. rewrite Hl.
    destruct (Nat.ltb_spec (slots s) cap); [injection Ha as <-; lia|done].
  - split; server_fields; try done.
    + intros cap Hcap. destruct (H2 cap Hcap). unfold loop_slot in *. rewrite Hl in *. server_fields. lia.
    + intros Hc. rewrite Hc in H4. simpl in H4. congruence.
    + intros d [Hd|Hd]%elem_of_union; [right; f_equal; set_solver|]. destruct (H5 d Hd) as [?|?]; [by left|congruence].
    + by intros d [= <-].
    + intros d Hd [Hin|Hin]%elem_of_union; [|by eapply H7]. apply elem_of_singleton in Hin. congruence.
  - pose proof (H6 c Hl) as Hn. split; server_fields; try done.
    + intros d. destruct (decide (d = c)) as [->|Hd]; [|by rewrite lookup_insert_ne].
      rewrite lookup_insert_eq, H1, Hn. naive_solver.
    + intros cap Hcap. destruct (H2 cap Hcap). rewrite map_size_insert_None by done.
      unfold loop_slot in *. rewrite Hl in *. server_fields. lia.
    + intros d Hd. left. destruct (decide (d = c)) as [->|Hne]; [rewrite lookup_insert_eq; by eexists|].
      rewrite lookup_insert_ne by done. destruct (H5 d Hd) as [?|Hx]; [done|congruence].
    + intros d. destruct (decide (d = c)) as [->|Hd]; [by rewrite lookup_insert_eq|].
      rewrite lookup_insert_ne by done. apply H7.
  - apply server_inv_loop; [done|done|congruence|]. intros cap Hcap. destruct (H2 cap Hcap).
    unfold loop_slot. rewrite Hl. lia.
  - apply server_inv_loop; [by apply server_inv_Close|done| |]; unfold Close; rewrite Hc; server_fields; [congruence|].
    intros cap Hcap. destruct (H2 cap Hcap). unfold loop_slot. server_fields. rewrite Hl. lia.
  - unfold trackConn. destruct (closed s) eqn:Ec; rewrite <-Ec.
    + eapply server_inv_phase; try done. split; [|done]. rewrite H1. congruence.
    + eapply server_inv_phase; try done; [set_solver| |congruence]. split; [done|set_solver].
  - eapply server_inv_phase; try done; set_solver.
  - eapply server_inv_phase; try done; [|set_solver..]. rewrite H1, Hg. naive_solver.
  - split; server_fields; try done.
    + intros d. destruct (decide (d = c)) as [->|Hd]; [|by rewrite lookup_delete_ne].
      rewrite lookup_delete_eq, H1, Hg. naive_solver.
    + intros cap Hcap. destruct (H2 cap Hcap). rewrite map_size_delete, Hg. unfold release. rewrite Hcap.
      assert (size (goroutines s) ≠ 0) by (intros Hz%map_size_empty_inv; rewrite Hz, lookup_empty in Hg; done).
      unfold loop_slot in *. server_fields. lia.
    + intros d Hd. destruct (decide (d = c)) as [->|Hne]; [by apply (H7 c Hg) in Hd|].
      rewrite lookup_delete_ne by done. by apply H5.
    + intros d Hl. destruct (decide (d = c)) as [->|Hne]; [by rewrite lookup_delete_eq|].
      rewrite lookup_delete_ne by done. by apply H6.
    + intros d. destruct (decide (d = c)) as [->|Hne]; [by rewrite lookup_delete_eq|].
      rewrite lookup_delete_ne by done. apply H7.
  - by apply server_inv_Close.
  - apply server_inv_loop; [done|done|congruence|]. intros cap Hcap. destruct (H2 cap Hcap).
    unfold loop_slot. rewrite Hl. lia.
Qed.

Lemma server_reachable_inv n s : rtc server_step (NewServer n) s → server_inv s.
Proof.
  intros Hr. pose proof (server_inv_new n) as Hi. induction Hr as [|s1 s2 s3 Hs _ IH]; [done|].
  by apply IH, (server_step_inv s1).
Qed.

(** A goroutine of a closing server can run to its end. *)
Lemma goroutine_ends s c p :
  closed s = true → goroutines s !! c = Some p →
  ∃ s', rtc server_step s s' ∧ closed s' = true ∧ goroutines s' = base.delete c (goroutines s).
Proof.
  assert (∀ s, closed s = true → goroutines s !! c = Some Closed →
    ∃ s', rtc server_step s s' ∧ closed s' = true ∧ goroutines s' = base.delete c (goroutines s)) as HC.
  { intros s0 Hc Hg. eexists. split; [eapply rtc_once, (step_release _ c), Hg|]. done. }
  assert (∀ s, closed s = true → goroutines s !! c = Some Untracked →
    ∃ s', rtc server_step s s' ∧ closed s' = true ∧ goroutines s' = base.delete c (goroutines s)) as HU.
  { intros s0 Hc Hg. edestruct HC as (s' & Hr & Hc' & E); [| |].
    3:{ exists s'. split; [eapply rtc_l; [eapply (step_close_conn _ c), Hg|exact Hr]|]. split; [done|].
        rewrite E. server_fields. by rewrite delete_insert_eq. }
    - done.
    - server_fields. by rewrite lookup_insert_eq. }
  intros Hc Hg. destruct p; [| |by apply HU|by apply HC].
  - destruct (HU (trackConn s c)) as (s' & Hr & Hc' & E).
    + unfold trackConn. by rewrite Hc.
    + unfold trackConn. rewrite Hc. server_fields. by rewrite lookup_insert_eq.
    + exists s'. split; [eapply rtc_l; [eapply (step_track _ c), Hg|exact Hr]|]. split; [done|].
      rewrite E. unfold trackConn. rewrite Hc. server_fields. by rewrite delete_insert_eq.
  - destruct (HU (untrackConn s c)) as (s' & Hr & Hc' & E).
    + done.
    + unfold untrackConn. server_fields. by rewrite lookup_insert_eq.
    + exists s'. split; [eapply rtc_l; [eapply (step_untrack _ c), Hg|exact Hr]|]. split; [done|].
      rewrite E. unfold untrackConn. server_fields. by rewrite delete_insert_eq.
Qed.

Lemma server_drain s : closed s = true → ∃ s', rtc server_step s s' ∧ Close_returns s'.
Proof.
  remember (size (goroutines s)) as n eqn:En. revert s En. induction n as [|n IH]; intros s En Hc.
  - exists s. split; [done|]. split; [done|]. by apply map_size_empty_inv.
  - destruct (map_choose (goroutines s)) as (c & p & Hg).
    { intros Hz. rewrite Hz, map_size_empty in En. done. }
    destruct (goroutine_ends s c p Hc Hg) as (s1 & Hr & Hc1 & E).
    destruct (IH s1) as (s' & Hr' & H'); [rewrite E, map_size_delete, Hg; lia|done|].
    exists s'. split; [by etrans|done].
Qed.

(** When [Close] returns, the connections are closed. *)
Lemma server_returned s :
  server_inv s → Close_returns s → liveConns s = 0%Z ∧ ∀ c, c ∈ sockets s → loop s = Accepted c.
Proof.
  intros Hi [Hc Hg]. split.
  - unfold liveConns. assert (conns s = ∅) as ->; [|by rewrite size_empty].
    apply set_eq. intros c. rewrite (si_conns _ Hi), Hg, lookup_empty. set_solver.
  - intros c Hs. destruct (si_sockets _ Hi c Hs) as [[p Hp]|?]; [|done]. by rewrite Hg, lookup_empty in Hp.
Qed.

(** ** Properties *)

(** C31: a connection is a queue, when every reply is a frame and gets through.
    Suppose no write fails, and the values a client pipelines, and the replies the
    handler gives to them, are ones the encoding carries ([wire_ok]; a reply that
    copies a CR LF into an error line is not, [reply_splitting]). Then the server
    answers each value in turn, in order, with the handler's reply or, for a value
    that is not a command, with an error, and keeps serving, and the client reads
    back exactly those replies. Where the stream stops being RESP it answers once
    more and hangs up; where it just ends it hangs up. *)
Theorem handleConn_in_order {T : Type} (handle : nat → Command → T → option (Resp.Value * T))
    (isPrint : N → bool) (fails : nat → option nat) (vs : list Resp.Value) (tail : bytes) (s s' : T)
    (replies : list Resp.Value) (e : respErr) :
  (∀ i, fails i = None) → Forall wire_ok vs → answers handle isPrint 0 vs s = Some (replies, s') →
  Forall wire_ok replies → Resp.Decode tail = Err e →
  ∃ last, handleConn handle isPrint fails (concat (wire <$> vs) ++ tail) s
      = Some (concat (wire <$> replies) ++ last, s')
    ∧ last = (if is_protocol e then (Resp.Encode (error_reply isPrint e)).1 else [])
    ∧ read_replies (length vs) (concat (wire <$> replies) ++ last) = Ok (replies, last).
Proof.
  intros Hok Hvs Ha Hr Htail.
  destruct (serve_loop_frames handle isPrint fails vs _ 0 tail [] s replies s' Hok Hvs Ha Hr (Nat.lt_succ_diag_r _))
    as (fuel & Hf & E).
  assert (length replies = length vs) as Hlen.
  { clear -Ha. revert Ha. generalize 0%nat as i. revert s replies. induction vs as [|v vs IH]; intros s replies i Ha; simpl in Ha.
    - by injection Ha as <- _.
    - destruct (answer handle isPrint i v s) as [[r s1]|]; [|done]. simpl in Ha.
      destruct (answers handle isPrint (Datatypes.S i) vs s1) as [[rs s2]|] eqn:Ea; [|done]. simpl in Ha.
      injection Ha as <- <-. simpl. f_equal. by eapply IH. }
  eexists. split_and!; [|done|rewrite <-Hlen; by apply read_replies_wire].
  unfold handleConn. rewrite E. destruct fuel as [|fuel]; [lia|]. cbn [serve_loop]. rewrite Htail. simpl.
  destruct (is_protocol e); [|done]. unfold writeReply, Resp.Encode. rewrite Hok.
  unfold error_reply, Error. cbn [encode]. unfold writeString, writeByte. by rewrite !writeBytes_ok.
Qed.

(** What a connection runs for each command: the handler, over what the rest of the
    node made of the shared state since ([others]).  What an operation leaves behind
    runs in goroutines of its own. *)
Definition conn_handler {S W} `{!Store S, !Replicator W} (e : nat → @henv S _) (h : Handler)
    (others : nat → @cstate S W → @cstate S W) (i : nat) (cmd : Command) (st : @cstate S W) :
    option (Resp.Value * @cstate S W) :=
  o ← Handle (e i) h (others i st) cmd; Some (o_reply o, o_state o).

(** C32: serving a connection ends.  Whatever bytes arrive, and whether or not replies
    get through, [handleConn] running the node's handler reaches the end of the input
    or an error and returns, with the store well formed, provided no RTREE or
    RBUCKET among the commands received asks for more than 2^31 leaves; other
    connections and loops may change the state between commands, as long as they
    keep the store well formed. *)
Theorem handleConn_total {S W} `{!Store S, !StoreLaws S, !Replicator W} (e : nat → @henv S _) (h : Handler)
    (others : nat → @cstate S W → @cstate S W) (isPrint : N → bool) (fails : nat → option nat) (r : bytes)
    (st : @cstate S W) :
  (∀ i, slawful (e_store (he (e i)))) → telemetry_wf (h_telemetry h) →
  (∀ i st, swf (c_store st) → swf (c_store (others i st))) → swf (c_store st) →
  (∀ cmd, cmd ∈ requests r → sane_leaves cmd) →
  ∃ out st', handleConn (conn_handler e h others) isPrint fails r st = Some (out, st') ∧ swf (c_store st').
Proof.
  intros He Htel Hoth Hs Hsane.
  apply (serve_loop_total (conn_handler e h others) isPrint fails (λ st, swf (c_store st))); [|lia|done].
  intros i cmd st1 Hin Hs1. unfold conn_handler.
  destruct (Handle_total (e i) h (others i st1) cmd) as (o & -> & Ho); [auto|done|auto|done|]. by eexists _, _.
Qed.

(** C33: connections are bounded and shutdown is clean.  In every reachable state
    of a server, under every interleaving: at most MaxConns connection goroutines
    exist when a cap is set; the tracked connections are exactly those being
    served; once [Close] has begun no connection starts being served, every
    connection still served has had its socket closed, and the goroutines can all
    run to their end, so [Close] can return; and when it returns nothing is
    tracked and no socket is open, but for one the accept loop has not handed
    over yet, which will be refused. *)
Theorem server_lifecycle (MaxConns : Z) (s : Server) :
  rtc server_step (NewServer MaxConns) s →
  ((0 < MaxConns)%Z → Z.of_nat (size (goroutines s)) <= MaxConns)%Z
  ∧ (∀ c, c ∈ conns s ↔ goroutines s !! c = Some Serving)
  ∧ (closed s = true →
       (∀ c, c ∈ conns s → c ∉ sockets s)
       ∧ (∀ s' c, server_step s s' → goroutines s' !! c = Some Serving → goroutines s !! c = Some Serving)
       ∧ ∃ s', rtc server_step s s' ∧ Close_returns s')
  ∧ (Close_returns s → liveConns s = 0%Z ∧ ∀ c, c ∈ sockets s → loop s = Accepted c).
Proof.
  intros Hr. pose proof (server_reachable_inv _ _ Hr) as Hi. pose proof Hi as [H1 H2 H3 H4 H5 H6 H7]. split_and!.
  - intros Hpos. assert (sem s = Some (Z.to_nat MaxConns)) as Hsem.
    { assert (sem (NewServer MaxConns) = Some (Z.to_nat MaxConns)) as Hs0
        by (simpl; by destruct (Z.ltb_spec 0 MaxConns); [|lia]).
      clear -Hr Hs0. induction Hr as [|s1 s2 s3 Hs _ IH]; [done|]. apply IH.
      destruct Hs; try done; unfold trackConn, Close in *; by destruct (closed _). }
    destruct (H2 _ Hsem). lia.
  - done.
  - intros Hc. split_and!; [by apply H3| |by apply server_drain].
    intros s' c Hs. destruct Hs as [s n Hl Ha|s d Hl Hlis Hg Hsk|s d Hl|s Hl Hcl|s Hl Hcl|s d Hg|s d Hg|s d Hg|s d Hg|s|s Hl Hg];
      unfold trackConn, untrackConn, Close; rewrite ?Hc; server_fields; try done;
      try (destruct (decide (c = d)) as [->|Hne]; [by rewrite lookup_insert_eq|by rewrite lookup_insert_ne]).
    destruct (decide (c = d)) as [->|Hne]; [by rewrite lookup_delete_eq|by rewrite lookup_delete_ne].
  - by apply server_returned.
Qed.

(** ** Witnesses *)

(** A handler that counts the commands it sees. *)
Definition counting : nat → Command → nat → option (Resp.Value * nat) :=
  λ _ cmd n, Some (BulkString (Some (Name cmd)), Datatypes.S n).

Definition ping_frame : Resp.Value := VArray [VBulk (Some (str "PING"))].

Lemma handleConn_in_order_witness :
  ∃ last, handleConn counting (λ _, true) (λ _, None)
      (concat (wire <$> [ping_frame; VInteger 3; ping_frame]) ++ (str "?" ++ Resp.crlf)) 0%nat
    = Some (concat (wire <$> [BulkString (Some (str "PING")); Error (str "ERR protocol: command must be a non-empty array"); BulkString (Some (str "PING"))]) ++ last, 2%nat).
Proof.
  destruct (handleConn_in_order counting (λ _, true) (λ _, None) [ping_frame; VInteger 3; ping_frame]
    (str "?" ++ Resp.crlf) 0%nat 2%nat
    [BulkString (Some (str "PING")); Error (str "ERR protocol: command must be a non-empty array"); BulkString (Some (str "PING"))] (ErrUnknownType x3f))
    as (last & E & _).
  - reflexivity.
  - repeat constructor; try (vm_compute; discriminate).
  - reflexivity.
  - apply wire_ok_elems. cbn [foldr]. split; [vm_compute; discriminate|].
    split; [split|split; [vm_compute; discriminate|exact I]].
    + apply (bool_decide_unpack _). vm_compute. exact I.
    + unfold bufioSize. simpl. lia.
  - vm_compute. reflexivity.
  - exists last. exact E.
Defined.

(** A SET, then an array cut short, over a connection whose second reply is lost. *)
Lemma handleConn_total_witness :
  ∃ out st', handleConn (conn_handler (Replicator0 := flaky) (λ _, plain_henv) handler_a (λ _, id)) (λ _, true)
      (λ i, if Nat.ltb i 1 then None else Some 3)
      (concat (wire <$> [VArray [VBulk (Some (str "SET")); VBulk (Some (str "k")); VBulk (Some (str "v"))]]) ++ str "*1" ++ Resp.crlf)
      alone
    = Some (out, st') ∧ swf (Store := MapStore_store) (c_store st').
Proof.
  apply (handleConn_total (Replicator0 := flaky) (λ _, plain_henv) handler_a (λ _, id)).
  - intros i. apply lawful_map_to_list.
  - exact I.
  - intros i st Hs. exact Hs.
  - apply empty_store_ok.
  - intros cmd Hin. vm_compute in Hin. apply list_elem_of_singleton in Hin. subst cmd.
    intros [H|H]; vm_compute in H; discriminate H.
Defined.

(** One connection is accepted and served while the server begins to close. *)
Lemma server_lifecycle_witness :
  let s := Close (trackConn (mkServer (Some 2) 1 AtAcquire {[4 := Spawned]} ∅ {[4]} true false) 4) in
  rtc server_step (NewServer 2) s ∧ 4 ∈ conns s ∧ 4 ∉ sockets s.
Proof.
  intros s. assert (rtc server_step (NewServer 2) s) as Hr.
  { eapply rtc_l; [apply (step_acquire _ 1); reflexivity|].
    eapply rtc_l; [apply (step_accept _ 4); [reflexivity|reflexivity|reflexivity|apply not_elem_of_empty]|].
    eapply rtc_l; [apply (step_spawn _ 4); reflexivity|].
    eapply rtc_l; [apply (step_track _ 4); reflexivity|].
    eapply rtc_l; [apply step_close|].
    apply reflexive_eq. reflexivity. }
  destruct (server_lifecycle 2 s Hr) as (_ & H1 & H2 & _).
  destruct H2 as (H2 & _); [reflexivity|].
  assert (4 ∈ conns s) as H4 by (apply H1; reflexivity).
  split; [exact Hr|]. split; [exact H4|]. exact (H2 4 H4).
Defined.
