(* ===== verification/Peer.v ===== *)
(** * The peer client (internal/server/peer.go)

    [Peer] keeps a pool of warm connections per address.  A call takes one from
    the pool, falls back to a fresh one when it fails, and returns it.  [do] and
    the four verbs are written over a transport ([dial], one round trip on a
    connection, [Close] of a connection); [roundtrip] itself is written over the
    bytes of a socket.  The mutex makes [getIdle], [put] and [Close] atomic:
    [pool_step] interleaves the calls of several goroutines at that grain. *)

From S2P Require Import Prelude Telemetry Binenc Resp Vclock Version Sketch Policy MapStore ShardedStore.
From S2P Require Import Membership Ring Router Sha256 Merkle Replica AntiEntropy Handoff Coordinator Handler Server.

(** ** The pool *)

(** A connection: the address it was dialled to, and its identity. *)
Definition conn : Type := bytes * nat.

Record Peer : Type := mkPeer { idle : gmap bytes (list conn) }.

Definition NewPeer : Peer := mkPeer ∅.

Definition maxIdlePerPeer : Z := 8.

(** [p.idle[addr]]: absent is the nil slice. *)
Definition idle_of (p : Peer) (addr : bytes) : list conn := default [] (idle p !! addr).

Definition getIdle (p : Peer) (addr : bytes) : Peer * option conn :=
  let conns := idle_of p addr in
  match last conns with
  | Some c => (mkPeer (<[addr := take (pred (length conns)) conns]> (idle p)), Some c)
  | None => (p, None)
  end.

(** Whether the connection was kept; otherwise [put] closes it. *)
Definition put (p : Peer) (addr : bytes) (pc : conn) : Peer * bool :=
  if (maxIdlePerPeer <=? len (idle_of p addr))%Z then (p, false)
  else (mkPeer (<[addr := idle_of p addr ++ [pc]]> (idle p)), true).

(** ** Calls *)

(** What a call needs of the network, an error being its message. *)
Class Transport (W : Type) := {
  dial : W → bytes → W * (bytes + conn);
  rtt : W → conn → list bytes → W * (bytes + Resp.Value);
  hangup : W → conn → W
}.

Section calls.
Context {W : Type} `{!Transport W}.

Definition put_back (p : Peer) (w : W) (addr : bytes) (c : conn) : Peer * W :=
  let '(p, kept) := put p addr c in (p, if kept : bool then w else hangup w c).

(** The part of [do] after the pool: a fresh connection. *)
Definition do_fresh (p : Peer) (w : W) (addr : bytes) (args : list bytes) : Peer * W * (bytes + Resp.Value) :=
  match dial w addr with
  | (w, inl err) => (p, w, inl err)
  | (w, inr c) =>
      match rtt w c args with
      | (w, inl err) => (p, hangup w c, inl err)
      | (w, inr reply) => (put_back p w addr c, inr reply)
      end
  end.

Definition do_call (p : Peer) (w : W) (addr : bytes) (args : list bytes) : Peer * W * (bytes + Resp.Value) :=
  match getIdle p addr with
  | (p, Some c) =>
      match rtt w c args with
      | (w, inr reply) => (put_back p w addr c, inr reply)
      | (w, inl _) => do_fresh p (hangup w c) addr args
      end
  | (p, None) => do_fresh p w addr args
  end.

Definition peer_Get (p : Peer) (w : W) (addr key : bytes) : Peer * W * (bytes + option bytes) :=
  let '(pw, r) := do_call p w addr [rget; key] in
  (pw, match r with
       | inl err => inl err
       | inr reply => match AsError reply with Some msg => inl msg | None => inr (AsBulk reply) end
       end).

Definition peer_Replicate (p : Peer) (w : W) (addr verb : bytes) (args : list bytes) : Peer * W * option bytes :=
  let '(pw, r) := do_call p w addr (verb :: args) in
  (pw, match r with inl err => Some err | inr reply => AsError reply end).

Definition binenc_error (e : binerr) : bytes := str "binenc: truncated or malformed data".

Definition peer_Tree (p : Peer) (w : W) (addr : bytes) (leaves : Z) : Peer * W * gres bytes Tree :=
  let '(pw, r) := do_call p w addr [rtree_verb; Itoa leaves] in
  (pw, match r with
       | inl err => Err err
       | inr reply =>
           match AsError reply with
           | Some msg => Err msg
           | None =>
               match Merkle.Decode (default [] (AsBulk reply)) with
               | Ok t => Ok t | Err e => Err (binenc_error e) | Panic => Panic
               end
           end
       end).

Definition peer_BucketEntries (p : Peer) (w : W) (addr : bytes) (leaves : Z) (buckets : list Z) :
    Peer * W * gres bytes (gmap bytes bytes) :=
  let '(pw, r) := do_call p w addr [rbucket_verb; Itoa leaves; encodeBuckets buckets] in
  (pw, match r with
       | inl err => Err err
       | inr reply =>
           match AsError reply with
           | Some msg => Err msg
           | None =>
               match decodeEntries (default [] (AsBulk reply)) with
               | Ok m => Ok m | Err e => Err (binenc_error e) | Panic => Panic
               end
           end
       end).

(** [Close] of the pool. *)
Definition peer_Close (p : Peer) (w : W) : Peer * W :=
  (NewPeer, map_fold (λ _ cs w, foldl hangup w cs) w (idle p)).
End calls.

(** ** One round trip on a socket *)

(** [send] is the deadline and the write; [recv] the bytes the connection's
    persistent reader will deliver from now on; [advance] leaves it the rest. *)
Class Socket (W : Type) := {
  send : W → conn → bytes → W * option bytes;
  recv : W → conn → bytes;
  advance : W → conn → bytes → W
}.

Section socket.
Context {W : Type} `{!Socket W}.

(** The last case does not occur: [Resp.Decode] does not panic ([Decode_total]). *)
Definition roundtrip (isPrint : N → bool) (w : W) (pc : conn) (args : list bytes) :
    W * (bytes + Resp.Value) :=
  let elems := (λ a, BulkString (Some a)) <$> args in
  let '(bs, err) := Resp.Encode (Array (Some elems)) in
  match err with
  | Some e => (w, inl (message isPrint e))
  | None =>
      match send w pc bs with
      | (w, Some err) => (w, inl err)
      | (w, None) =>
          match Resp.Decode (recv w pc) with
          | Ok (v, rest) => (advance w pc rest, inr v)
          | Err e => (w, inl (message isPrint e))
          | Panic => (w, inl (message isPrint EOF))
          end
      end
  end.
End socket.

(** ** Lemmas on the pool *)

(** The pooled connections of an address were dialled to it. *)
Definition pool_ok (p : Peer) : Prop := ∀ addr c, c ∈ idle_of p addr → c.1 = addr.

Lemma idle_of_insert p addr cs a :
  idle_of (mkPeer (<[addr := cs]> (idle p))) a = if decide (a = addr) then cs else idle_of p a.
Proof.
  unfold idle_of. simpl. destruct (decide (a = addr)) as [->|Hne]; [by rewrite lookup_insert_eq|].
  by rewrite lookup_insert_ne.
Qed.

Lemma take_pred_snoc {A} (l : list A) x : take (pred (length (l ++ [x]))) (l ++ [x]) = l.
Proof. rewrite length_app, Nat.add_1_r. simpl. apply take_app_length. Qed.

(** [getIdle] removes the connection it returns, the last of its address. *)
Lemma getIdle_spec p addr p' o :
  getIdle p addr = (p', o) →
  match o with
  | None => p' = p ∧ idle_of p addr = []
  | Some c => idle_of p addr = idle_of p' addr ++ [c] ∧ ∀ a, a ≠ addr → idle_of p' a = idle_of p a
  end.
Proof.
  unfold getIdle. destruct (last (idle_of p addr)) as [c|] eqn:El; intros [= <- <-].
  - apply last_Some in El as [l El]. rewrite El, take_pred_snoc. split.
    + by rewrite idle_of_insert, decide_True.
    + intros a Ha. by rewrite idle_of_insert, decide_False.
  - apply last_None in El. done.
Qed.

Lemma put_spec p addr c p' kept :
  put p addr c = (p', kept) →
  if kept then (len (idle_of p addr) < maxIdlePerPeer)%Z ∧ idle_of p' addr = idle_of p addr ++ [c]
    ∧ ∀ a, a ≠ addr → idle_of p' a = idle_of p a
  else p' = p.
Proof.
  unfold put. destruct (Z.leb_spec maxIdlePerPeer (len (idle_of p addr))); intros [= <- <-]; [done|].
  split_and!; [done|by rewrite idle_of_insert, decide_True|]. intros a Ha. by rewrite idle_of_insert, decide_False.
Qed.

Lemma getIdle_pool_ok p addr p' o : pool_ok p → getIdle p addr = (p', o) → pool_ok p' ∧ ∀ c, o = Some c → c.1 = addr.
Proof.
  intros Hp H. apply getIdle_spec in H. destruct o as [c|]; [|by destruct H as [-> _]].
  destruct H as [E H]. split.
  - intros a d Hd. destruct (decide (a = addr)) as [->|Hne]; [apply Hp; rewrite E; set_solver|].
    apply Hp. by rewrite <-H.
  - intros d [= <-]. apply Hp. rewrite E. set_solver.
Qed.

Lemma put_pool_ok p addr c p' kept : pool_ok p → c.1 = addr → put p addr c = (p', kept) → pool_ok p'.
Proof.
  intros Hp Hc H. apply put_spec in H. destruct kept; [|by subst]. destruct H as (_ & E & H).
  intros a d Hd. destruct (decide (a = addr)) as [->|Hne]; [|apply Hp; by rewrite <-H].
  rewrite E in Hd. apply elem_of_app in Hd as [Hd|Hd]; [by apply Hp|]. by apply list_elem_of_singleton in Hd as ->.
Qed.

(** Rule for [do]: an invariant of the network that dialling, hanging up and
    round trips keep, with what a successful round trip establishes. *)
Section rule.
Context {W : Type} `{!Transport W}.
Variables (addr : bytes) (args : list bytes) (I : W → Prop) (Q : Resp.Value → W → Prop).
Hypothesis Hdial : ∀ w w' r, I w → dial w addr = (w', r) → I w' ∧ ∀ c, r = inr c → c.1 = addr.
Hypothesis Hhang : ∀ w c, I w → I (hangup w c).
Hypothesis HQhang : ∀ w c v, Q v w → Q v (hangup w c).
Hypothesis Hrtt : ∀ w c w' r, I w → c.1 = addr → rtt w c args = (w', r) → I w' ∧ ∀ v, r = inr v → Q v w'.

Lemma put_back_rule p w c p' w' :
  pool_ok p → I w → c.1 = addr → put_back p w addr c = (p', w') →
  pool_ok p' ∧ I w' ∧ ∀ v, Q v w → Q v w'.
Proof.
  intros Hp Hw Hc. unfold put_back. destruct (put p addr c) as [p1 kept] eqn:E. intros [= <- <-].
  split; [by eapply put_pool_ok|]. destruct kept; split; auto.
Qed.

Lemma do_fresh_rule p w p' w' r :
  pool_ok p → I w → do_fresh p w addr args = (p', w', r) →
  pool_ok p' ∧ I w' ∧ ∀ v, r = inr v → Q v w'.
Proof.
  intros Hp Hw. unfold do_fresh. destruct (dial w addr) as [w1 [err|c]] eqn:Ed; destruct (Hdial _ _ _ Hw Ed) as [H1 Hc].
  { intros [= <- <- <-]. by split_and!. }
  destruct (rtt w1 c args) as [w2 [err|v]] eqn:Er; destruct (Hrtt _ _ _ _ H1 (Hc c eq_refl) Er) as [H2 HQ].
  - intros [= <- <- <-]. split_and!; auto; done.
  - destruct (put_back p w2 addr c) as [p3 w3] eqn:Ep. intros [= <- <- <-].
    destruct (put_back_rule _ _ _ _ _ Hp H2 (Hc c eq_refl) Ep) as (A & B & C). split_and!; [done..|].
    intros v' [= <-]. by apply C, HQ.
Qed.

Lemma do_call_rule p w p' w' r :
  pool_ok p → I w → do_call p w addr args = (p', w', r) →
  pool_ok p' ∧ I w' ∧ ∀ v, r = inr v → Q v w'.
Proof.
  intros Hp Hw. unfold do_call. destruct (getIdle p addr) as [p1 [c|]] eqn:Eg;
    destruct (getIdle_pool_ok _ _ _ _ Hp Eg) as [Hp1 Hc]; [|by apply do_fresh_rule].
  destruct (rtt w c args) as [w1 [err|v]] eqn:Er; destruct (Hrtt _ _ _ _ Hw (Hc c eq_refl) Er) as [H1 HQ].
  - intros H. by eapply do_fresh_rule; [exact Hp1|apply Hhang, H1|].
  - destruct (put_back p1 w1 addr c) as [p3 w3] eqn:Ep. intros [= <- <- <-].
    destruct (put_back_rule _ _ _ _ _ Hp1 H1 (Hc c eq_refl) Ep) as (A & B & C). split_and!; [done..|].
    intros v' [= <-]. by apply C, HQ.
Qed.
End rule.

(** ** The pool under concurrent calls *)

(** [busy] are the connections calls are using, [opened] the sockets open. *)
Record pstate : Type := mkPState {
  pool : Peer;
  busy : gset conn;
  opened : gset conn
}.

(** [Close] closes what waits in the pool, and empties it. *)
Definition close_pool (s : pstate) : pstate :=
  mkPState NewPeer (busy s) (filter (λ c, c ∉ idle_of (pool s) c.1) (opened s)).

Inductive pool_step : pstate → pstate → Prop :=
| pool_take s addr p c :                     (** [getIdle] finds one *)
    getIdle (pool s) addr = (p, Some c) →
    pool_step s (mkPState p ({[c]} ∪ busy s) (opened s))
| pool_dial s c :                            (** [dial] succeeds *)
    c ∉ opened s → pool_step s (mkPState (pool s) ({[c]} ∪ busy s) ({[c]} ∪ opened s))
| pool_put s c p kept :                      (** a healthy connection is put back *)
    c ∈ busy s → put (pool s) c.1 c = (p, kept) →
    pool_step s (mkPState p (busy s ∖ {[c]}) (if kept : bool then opened s else opened s ∖ {[c]}))
| pool_discard s c :                         (** a failed one is closed *)
    c ∈ busy s → pool_step s (mkPState (pool s) (busy s ∖ {[c]}) (opened s ∖ {[c]}))
| pool_close s :                             (** [Close] *)
    pool_step s (close_pool s).

Record pool_inv (s : pstate) : Prop := {
  pi_addr : pool_ok (pool s);
  pi_cap : ∀ addr, (len (idle_of (pool s) addr) <= maxIdlePerPeer)%Z;
  pi_nodup : ∀ addr, NoDup (idle_of (pool s) addr);
  pi_open : ∀ c, c ∈ opened s ↔ c ∈ busy s ∨ c ∈ idle_of (pool s) c.1;
  pi_excl : ∀ c, c ∈ busy s → c ∉ idle_of (pool s) c.1
}.

Lemma pool_step_inv s s' : pool_inv s → pool_step s s' → pool_inv s'.
Proof.
  intros [H1 H2 H3 H4 H5] Hs. destruct Hs as [s addr p c Hg|s c Hc|s c p kept Hc Hp|s c Hc|s].
  - destruct (getIdle_pool_ok _ _ _ _ H1 Hg) as [Hp Hca]. specialize (Hca c eq_refl).
    apply getIdle_spec in Hg as [E Hsame].
    assert (c ∉ idle_of p addr) as Hnew.
    { pose proof (H3 addr) as Hnd. rewrite E in Hnd. apply NoDup_app in Hnd. set_solver. }
    split; simpl.
    + done.
    + intros a. destruct (decide (a = addr)) as [->|Hne]; [|by rewrite Hsame].
      specialize (H2 addr). rewrite E in H2. unfold len in *. rewrite length_app in H2. lia.
    + intros a. destruct (decide (a = addr)) as [->|Hne]; [|by rewrite Hsame].
      pose proof (H3 addr) as Hnd. rewrite E in Hnd. by apply NoDup_app in Hnd as [? _].
    + intros d. rewrite H4. destruct (decide (d.1 = addr)) as [Ed|Hne]; [|rewrite Hsame by done; set_solver].
      rewrite Ed, E. set_solver.
    + intros d Hd. destruct (decide (d = c)) as [->|Hne]; [by rewrite Hca|].
      assert (d ∈ busy s) as Hb by set_solver. specialize (H5 d Hb).
      destruct (decide (d.1 = addr)) as [Ed|Hne']; [|by rewrite Hsame]. rewrite Ed, E in H5. rewrite Ed. set_solver.
  - assert ((c ∉ busy s) ∧ (c ∉ idle_of (pool s) c.1)) as [Hb Hi] by (rewrite H4 in Hc; naive_solver).
    split; simpl; [done..| |]; intros d; specialize (H4 d); specialize (H5 d);
      destruct (decide (d = c)) as [->|Hne]; set_solver.
  - pose proof (put_pool_ok _ _ _ _ _ H1 eq_refl Hp) as Hok. apply put_spec in Hp. specialize (H5 c Hc) as Hci. destruct kept.
    + destruct Hp as (Hlen & E & Hsame). split; simpl.
      * done.
      * intros a. destruct (decide (a = c.1)) as [->|Hne]; [|by rewrite Hsame].
        rewrite E. unfold len in *. rewrite length_app. simpl. lia.
      * intros a. destruct (decide (a = c.1)) as [->|Hne]; [|by rewrite Hsame].
        rewrite E. apply NoDup_app. split_and!; [done|set_solver|apply NoDup_singleton].
      * intros d. rewrite H4. destruct (decide (d = c)) as [->|Hne]; [rewrite E; set_solver|].
        destruct (decide (d.1 = c.1)) as [Ed|Hne']; [rewrite Ed, E; set_solver|rewrite Hsame by done; set_solver].
      * intros d Hd. assert (d ∈ busy s ∧ d ≠ c) as [Hb Hne] by set_solver. specialize (H5 d Hb).
        destruct (decide (d.1 = c.1)) as [Ed|Hne']; [|by rewrite Hsame]. rewrite Ed in *. rewrite E. set_solver.
    + subst p. split; simpl; [done..| |].
      * intros d. specialize (H4 d). destruct (decide (d = c)) as [->|Hne]; set_solver.
      * intros d Hd. apply H5. set_solver.
  - specialize (H5 c Hc) as Hci. split; simpl; [done..| |].
    + intros d. specialize (H4 d). destruct (decide (d = c)) as [->|Hne]; set_solver.
    + intros d Hd. apply H5. set_solver.
  - assert (∀ a, idle_of NewPeer a = []) as En by (intros a; unfold idle_of; simpl; by rewrite lookup_empty).
    unfold close_pool. split; cbn [pool busy opened].
    + intros a c. rewrite En. set_solver.
    + intros a. by rewrite En.
    + intros a. rewrite En. constructor.
    + intros c. rewrite elem_of_filter, H4, En. specialize (H5 c). set_solver.
    + intros c _. rewrite En. set_solver.
Qed.

Lemma pool_reachable_inv s : rtc pool_step (mkPState NewPeer ∅ ∅) s → pool_inv s.
Proof.
  assert (pool_inv (mkPState NewPeer ∅ ∅)) as Hi.
  { assert (∀ a, idle_of NewPeer a = []) as En by (intros a; unfold idle_of; simpl; by rewrite lookup_empty).
    split; cbn [pool busy opened].
    - intros a c. rewrite En. set_solver.
    - intros a. by rewrite En.
    - intros a. rewrite En. constructor.
    - intros c. rewrite En. set_solver.
    - set_solver. }
  intros Hr. induction Hr as [|s1 s2 s3 Hs _ IH]; [done|]. by apply IH, (pool_step_inv s1).
Qed.

(** The frame of a command. *)
Definition command_frame (args : list bytes) : Resp.Value := VArray ((λ a, BulkString (Some a)) <$> args).

Lemma command_frame_ok args :
  (len args <= maxArrayCount)%Z → Forall (λ a, len a <= maxBulkSize)%Z args → wire_ok (command_frame args).
Proof.
  intros Hn Ha. split; [unfold len in *; by rewrite length_fmap|]. apply wire_ok_elems, Forall_fmap. exact Ha.
Qed.

Lemma command_frame_command verb args : to_command (command_frame (verb :: args)) = Ok (mkCommand verb args).
Proof.
  assert (command_args ((λ b, BulkString (Some b)) <$> args) = Ok args) as Ha.
  { induction args as [|a args IH]; [done|]. rewrite fmap_cons. cbn [command_args BulkString]. by rewrite IH. }
  unfold command_frame. rewrite fmap_cons. cbn [to_command BulkString]. by rewrite Ha.
Qed.

(** ** Properties *)

(** C35: no connection is shared, lost or piled up.  Whatever the calls in flight
    and however they interleave with each other and with [Close]: an open
    connection is held by exactly one call or waits exactly once in the pool of
    the address it was dialled to; a closed one is in neither; at most eight wait
    per address; and a [Close] with no call in flight leaves nothing open. *)
Theorem pool_invariant (s : pstate) :
  rtc pool_step (mkPState NewPeer ∅ ∅) s →
  (∀ c, c ∈ opened s ↔ c ∈ busy s ∨ c ∈ idle_of (pool s) c.1)
  ∧ (∀ c, c ∈ busy s → c ∉ idle_of (pool s) c.1)
  ∧ (∀ addr, NoDup (idle_of (pool s) addr) ∧ (len (idle_of (pool s) addr) <= 8)%Z
       ∧ ∀ c, c ∈ idle_of (pool s) addr → c.1 = addr)
  ∧ (busy s = ∅ → opened (close_pool s) = ∅).
Proof.
  intros Hr. pose proof (pool_reachable_inv s Hr) as [H1 H2 H3 H4 H5]. split_and!; [done|done| |].
  - intros addr. split_and!; [apply H3|apply H2|apply H1].
  - intros Hb. apply set_eq. intros c. unfold close_pool. cbn [opened]. rewrite elem_of_filter, H4, Hb. set_solver.
Qed.

(** C34: a remote call is a local one.  When a request crosses the connection and
    the node at the other end serves it with [handleConn], the round trip returns
    the reply its handler gave to that very command, the handler ran once, and
    the reader is left at the end of the reply, aligned for the next call. *)
Theorem roundtrip_served {W T : Type} `{!Socket W} (handle : nat → Command → T → option (Resp.Value * T))
    (isPrint : N → bool) (fails : nat → option nat) (w w1 : W) (c : conn) (verb : bytes) (args : list bytes)
    (s s1 s' : T) (reply : Resp.Value) :
  (∀ i, fails i = None) → (len args < maxArrayCount)%Z → Forall (λ a, len a <= maxBulkSize)%Z (verb :: args) →
  handle 0%nat (mkCommand verb args) s = Some (reply, s') → wire_ok reply →
  send w c (wire (command_frame (verb :: args))) = (w1, None) →
  handleConn handle isPrint fails (wire (command_frame (verb :: args))) s = Some (recv w1 c, s1) →
  roundtrip isPrint w c (verb :: args) = (advance w1 c [], inr reply) ∧ s1 = s'.
Proof.
  intros Hok Hn Ha Hh Hr Hsend Hserve.
  assert (wire_ok (command_frame (verb :: args))) as Hf.
  { apply command_frame_ok; [|done]. rewrite len_cons. lia. }
  assert (answers handle isPrint 0 [command_frame (verb :: args)] s = Some ([reply], s')) as Hans.
  { cbn [answers]. unfold answer. rewrite command_frame_command, Hh. done. }
  destruct (serve_loop_frames handle isPrint fails [command_frame (verb :: args)] _ 0 [] [] s [reply] s' Hok
    (proj2 (Forall_singleton _ _) Hf) Hans (proj2 (Forall_singleton _ _) Hr) (Nat.lt_succ_diag_r _)) as (fuel & Hfuel & E).
  assert (recv w1 c = wire reply ∧ s1 = s') as [Hrecv ->].
  { unfold handleConn in Hserve. rewrite fmap_cons in E. cbn [fmap list_fmap concat] in E. rewrite !app_nil_r in E.
    rewrite E in Hserve. destruct fuel as [|fuel]; [simpl in Hfuel; lia|]. simpl in Hserve.
    injection Hserve as <- <-. by rewrite !app_nil_r. }
  split; [|done]. unfold roundtrip. change (Array _) with (command_frame (verb :: args)).
  unfold Resp.Encode. rewrite encode_wire by done. cbn [Resp.w Resp.werr]. rewrite app_nil_l, Hsend, Hrecv.
  pose proof (decode_wire_ok reply [] Hr) as Hd. rewrite app_nil_r in Hd. by rewrite Hd.
Qed.

(** A call that puts its connection back after [Close] leaves it open: [put] does
    not know that the pool was closed. *)
Lemma put_after_close :
  ∃ s, rtc pool_step (mkPState NewPeer ∅ ∅) s ∧ busy s = ∅ ∧ opened s ≠ ∅
    ∧ rtc pool_step (close_pool (mkPState NewPeer {[(str "n", 0)]} {[(str "n", 0)]})) s.
Proof.
  exists (mkPState (mkPeer {[str "n" := [(str "n", 0)]]}) ∅ {[(str "n", 0)]}).
  assert (rtc pool_step (close_pool (mkPState NewPeer {[(str "n", 0)]} {[(str "n", 0)]}))
    (mkPState (mkPeer {[str "n" := [(str "n", 0)]]}) ∅ {[(str "n", 0)]})) as H.
  { eapply rtc_l; [eapply (pool_put _ (str "n", 0)); [set_solver|reflexivity]|]. apply reflexive_eq. vm_compute. reflexivity. }
  split_and!; [|done|set_solver|done]. eapply rtc_l; [apply (pool_dial _ (str "n", 0)); set_solver|].
  eapply rtc_l; [apply pool_close|]. etrans; [|exact H]. apply reflexive_eq. vm_compute. reflexivity.
Qed.

(** ** Witnesses *)

(** A socket whose other end echoes the first word of a command, as a bulk. *)
Definition echo : nat → Command → nat → option (Resp.Value * nat) :=
  λ _ cmd n, Some (BulkString (Some (Name cmd)), Datatypes.S n).

Definition echo_socket : Socket bytes := {|
  send w _ bs := (match handleConn echo (λ _, true) (λ _, None) bs 0%nat with Some (out, _) => out | None => [] end, None);
  recv w _ := w;
  advance _ _ rest := rest
|}.

Lemma pool_invariant_witness :
  let s := mkPState (mkPeer {[str "n" := [(str "n", 0)]]}) {[(str "n", 1)]} {[(str "n", 0); (str "n", 1)]} in
  ((str "n", 1) ∉ idle_of (pool s) (str "n")) ∧ opened (close_pool (mkPState (pool s) ∅ {[(str "n", 0)]})) = ∅.
Proof.
  intros s. assert (rtc pool_step (mkPState NewPeer ∅ ∅) (mkPState (pool s) ∅ {[(str "n", 0)]})) as Hr.
  { eapply rtc_l; [apply (pool_dial _ (str "n", 0)), not_elem_of_empty|].
    eapply rtc_l; [eapply (pool_put _ (str "n", 0)); [set_solver|reflexivity]|].
    apply reflexive_eq. vm_compute. reflexivity. }
  split.
  - apply (bool_decide_unpack _). vm_compute. exact Logic.I.
  - apply (pool_invariant (mkPState (pool s) ∅ {[(str "n", 0)]}) Hr). reflexivity.
Defined.

Lemma roundtrip_served_witness :
  @roundtrip bytes echo_socket (λ _, true) [] (str "n", 0) [str "PING"; str "x"] = ([], inr (BulkString (Some (str "PING")))).
Proof.
  apply (@roundtrip_served bytes nat echo_socket echo (λ _, true) (λ _, None) []
    (match handleConn echo (λ _, true) (λ _, None) (wire (command_frame [str "PING"; str "x"])) 0%nat with
     | Some (out, _) => out | None => [] end)
    (str "n", 0) (str "PING") [str "x"] 0%nat 1%nat 1%nat (BulkString (Some (str "PING")))).
  - reflexivity.
  - vm_compute. reflexivity.
  - repeat constructor; vm_compute; discriminate.
  - reflexivity.
  - vm_compute. discriminate.
  - reflexivity.
  - vm_compute. reflexivity.
Defined.
