(* ===== verification/Cluster.v ===== *)
(** * A cluster of nodes (internal/server/peer.go, coordinator.go, handler.go)

    The nodes of a cluster reach each other through [Peer].  Here the node at the
    other end of a connection runs [Handle] on its own store (that a round trip on
    a socket amounts to this is theorem [roundtrip_served]), and the network
    decides what becomes of each dial and of each round trip ([attempt]): lost
    before it is executed, executed with the reply lost, or answered; [Peer.do]
    retries on top.  This network discharges the contract the coordinator was
    proved against ([ReplicatorLaws]), which gives the guarantees of the whole: a
    read quorum meets every write quorum. *)

From S2P Require Import Prelude Telemetry Binenc Resp Vclock Version Sketch Policy MapStore ShardedStore.
From S2P Require Import Membership Ring Router Sha256 Merkle Replica AntiEntropy Handoff Coordinator Handler Server Peer.

(** ** The network *)

Inductive attempt : Type :=
| Unreached
| LostReply
| Answered.

(** A replica verb never reaches the peers of the node that serves it. *)
Definition no_peers : Replicator unit := {|
  Replicate w _ _ _ := (w, Some []);
  PeerGet w _ _ := (w, inl [])
|}.

Section net.
Context {S : Type} `{!Store S}.

(** The stores of the nodes by address; what becomes of each dial and round trip,
    and what the serving node does not choose (its clock and iteration orders),
    by its number; the pool of connections.  One pool stands for those of all
    nodes: it decides only whether a call makes an attempt on a warm connection
    first, and whether that attempt arrives is the network's choice. *)
Record net : Type := mkNet {
  n_nodes : gmap bytes S;
  n_dial : nat → bool;
  n_attempt : nat → attempt;
  n_env : nat → @henv S _;
  n_calls : nat;
  n_peer : Peer
}.

Definition with_nodes (w : net) (nodes : gmap bytes S) : net :=
  mkNet nodes (n_dial w) (n_attempt w) (n_env w) (n_calls w) (n_peer w).
Definition with_peer (w : net) (p : Peer) : net :=
  mkNet (n_nodes w) (n_dial w) (n_attempt w) (n_env w) (n_calls w) p.
Definition tick (w : net) : net :=
  mkNet (n_nodes w) (n_dial w) (n_attempt w) (n_env w) (Datatypes.S (n_calls w)) (n_peer w).

(** The serving node handles one command; [None] when it panics. *)
Definition serve (e : @henv S _) (s : S) (cmd : Command) : option (Resp.Value * S) :=
  o ← Handle (Replicator0 := no_peers) e (mkHandler None None None None) (mkC s NewHintStore () []) cmd;
  Some (o_reply o, c_store (o_state o)).

(** One execution at [addr]: the reply, or the error of a broken connection. *)
Definition execute (w : net) (addr : bytes) (cmd : Command) : net * (bytes + Resp.Value) :=
  match n_nodes w !! addr with
  | None => (tick w, inl (str "EOF"))
  | Some s =>
      match serve (n_env w (n_calls w)) s cmd with
      | Some (reply, s) => (tick (with_nodes w (<[addr := s]> (n_nodes w))), inr reply)
      | None => (tick w, inl (str "EOF"))
      end
  end.

(** The reply is handed over as the caller decodes it (Peer.roundtrip_served: what
    [handleConn] sends for a reply the encoding carries is decoded to that reply).
    A reply that does not decode, such as a bulk over the 512 MiB limit, reaches the
    caller as an error, which is the case [LostReply]. *)
Definition net_rtt (w : net) (c : conn) (args : list bytes) : net * (bytes + Resp.Value) :=
  match args with
  | [] => (tick w, inl (str "EOF"))
  | verb :: args =>
      match n_attempt w (n_calls w) with
      | Unreached => (tick w, inl (str "i/o timeout"))
      | LostReply => ((execute w c.1 (mkCommand verb args)).1, inl (str "i/o timeout"))
      | Answered => execute w c.1 (mkCommand verb args)
      end
  end.

#[export] Instance net_transport : Transport net := {|
  dial w addr := if n_dial w (n_calls w) then (tick w, inr (addr, n_calls w))
                 else (tick w, inl (str "dial tcp: connection refused"));
  rtt := net_rtt;
  hangup w _ := w
|}.

(** A call through the pool of the network. *)
Definition through {R} (call : Peer → net → Peer * net * R) (w : net) : net * R :=
  let '(p, w', r) := call (n_peer w) w in (with_peer w' p, r).

#[export] Instance net_replicator : Replicator net := {|
  Replicate w addr verb args := through (λ p w, peer_Replicate p w addr verb args) w;
  PeerGet w addr key := through (λ p w, peer_Get p w addr key) w
|}.

#[export] Instance net_syncer : TreeSyncer net := {|
  PeerTree w addr leaves := through (λ p w, peer_Tree p w addr leaves) w;
  PeerBucketEntries w addr leaves buckets := through (λ p w, peer_BucketEntries p w addr leaves buckets) w
|}.
End net.

(** ** Serving a replica verb *)

Section serving.
Context {S : Type} `{!Store S, !StoreLaws S}.
Implicit Types (s : S) (w : net) (e : @henv S _).

(** A store in a cluster of the theorems: well formed, not evicting, and holding
    sibling sets. *)
Definition node_ok s : Prop := store_ok s ∧ ¬ sevicts s ∧ store_antichains s.

Lemma node_ok_call s s' : node_ok s → call_ok s s' → store_antichains s' → node_ok s'.
Proof. intros (H1 & H2 & _) Hc Ha. split_and!; [by eapply store_ok_call| |done]. intros H. apply H2. by apply Hc. Qed.

(** The store has room for [v] next to the siblings of the key, however they are
    encoded. *)
Definition rset_fits s (key : bytes) (v : Version) : Prop :=
  ∀ ord now, lawful_order ord →
    limit_error (slimits s) key (Version.Encode ord (reconcile_all (siblings s now key) [v])) = None.

Lemma serve_rset e s key blob v :
  lawful_env (he e) → node_ok s → Version.Decode blob = Ok [v] →
  ∃ reply s', serve e s (mkCommand rset [key; blob]) = Some (reply, s') ∧ node_ok s'
    ∧ (∀ k c, holds s k c → holds s' k c)
    ∧ (∀ k Q, (k = key → Q v) → store_only s k Q → store_only s' k Q)
    ∧ (AsError reply = None → holds s' key (Clk v))
    ∧ call_ok s s' ∧ (∀ k, k ≠ key → sview s' k = sview s k)
    ∧ (rset_fits s key v → AsError reply = None).
Proof.
  intros He (Hs & Hne & Hanti) Hd.
  set (fn := λ old : bytes, (Version.Encode (e_clock (he e) [4%nat]) (Reconcile (decode_or_nil old) v), ())).
  assert (Forall version_ids [v]) as Hids.
  { apply Decode_wf in Hd as [Hw _]. eapply Forall_impl; [exact Hw|apply version_wf_ids]. }
  pose proof (update_siblings (e_store (he e)) s (e_now (he e)) key fn (e_clock (he e) [4%nat]) [v] Hs
    (le_store _ He) (le_clock _ He _) Hids eq_refl) as H.
  destruct (sUpdateReplica (e_store (he e)) s (e_now (he e)) key fn) as [[s' r] x] eqn:E.
  destruct (update_holds _ _ _ _ fn _ [v] s' r x Hs (le_store _ He) (le_clock _ He _) Hids eq_refl E Hne) as [H1 H2].
  destruct H as (_ & Hs' & Hcall & Hr).
  assert (∀ k Q, (k = key → Q v) → store_only s k Q → store_only s' k Q) as Ho.
  { intros k Q HQ. apply (update_only _ _ _ _ fn _ [v] s' r x k Q Hs (le_store _ He) (le_clock _ He _) Hids eq_refl E).
    intros ->. by apply Forall_singleton, HQ. }
  assert (node_ok s').
  { apply (node_ok_call s); [done|done|].
    by apply (update_antichains _ _ _ _ fn _ [v] s' r x Hs (le_store _ He) (le_clock _ He _) Hids eq_refl E). }
  assert (∀ reply, rset_cmd (W := unit) e (mkHandler None None None None)
      (record (mkC s NewHintStore () []) (Count rset)) [key; blob]
      = Some (reply, with_store (record (mkC s NewHintStore () []) (Count rset)) s') →
    serve e s (mkCommand rset [key; blob]) = Some (reply, s')) as Hserve.
  { intros reply Hrun. unfold serve.
    rewrite (Handle_local (Replicator0 := no_peers) e (mkHandler None None None None) (mkC s NewHintStore () []) rset
      [key; blob] (mkSpec 2 2 false rset_cmd) _ _ eq_refl eq_refl ltac:(done) Hrun).
    simpl. by rewrite recordOutcome_store. }
  assert (∀ c, clock_le c (Clk v) → covers [v] c) as Hcov by (intros c Hc; exists v; split; [set_solver|done]).
  unfold rset_cmd in Hserve. rewrite Hd in Hserve. cbn [c_store record] in Hserve. fold fn in Hserve.
  rewrite E in Hserve.
  assert (∀ k, k ≠ key → sview s' k = sview s k) as Hother.
  { intros k Hk. by apply (update_others _ _ _ _ fn s' r x k (proj1 Hs) (le_store _ He) E Hne Hk). }
  destruct r as [[]|err|]; [| |done].
  - exists (SimpleString (str "OK")), s'. split; [by apply Hserve|]. split_and!; try done.
    intros _. apply H2; [done|]. by apply Hcov.
  - exists (Error (str "ERR " ++ store_error err)), s'. split; [by apply Hserve|]. split_and!; try done.
    intros Hfit. destruct Hr as [Hr _]. by rewrite (Hfit _ _ (le_clock _ He _)) in Hr.
Qed.

Lemma serve_rget e s key :
  node_ok s → ∃ s', serve e s (mkCommand rget [key]) = Some (BulkString (slive s (e_now (he e)) key), s')
    ∧ node_ok s' ∧ ∀ k, sview s' k = sview s k.
Proof.
  intros Hs. destruct (law_Get s (e_now (he e)) key (proj1 (proj1 Hs))) as (Hc & Hv & Hview).
  destruct (sGet s (e_now (he e)) key) as [s' v] eqn:E. cbn [fst snd] in *. subst v. exists s'.
  split_and!; [|apply (node_ok_call s); [done|done|]; by apply (antichains_view s), Hs|done]. unfold serve.
  rewrite (Handle_local (Replicator0 := no_peers) e (mkHandler None None None None) (mkC s NewHintStore () []) rget
    [key] (mkSpec 1 1 false get) (BulkString (slive s (e_now (he e)) key))
    (with_store (record (mkC s NewHintStore () []) (Count rget)) s') eq_refl eq_refl ltac:(done)).
  - done.
  - simpl. by rewrite E.
Qed.

(** ** The network keeps the contract *)

Definition net_ok w : Prop :=
  map_Forall (λ _ s, node_ok s) (n_nodes w) ∧ (∀ i, lawful_env (he (n_env w i))) ∧ pool_ok (n_peer w).
Definition net_holds w (a k : bytes) (c : Clock) : Prop := ∃ s, n_nodes w !! a = Some s ∧ holds s k c.
Definition net_only w (k : bytes) (Q : Version → Prop) : Prop :=
  ∀ a s, n_nodes w !! a = Some s → store_only s k Q.

(** [w'] differs from [w] by one node, which lost nothing and gained only
    versions that [V] allows. *)
Lemma net_update w w' addr s s' (V : bytes → Version → Prop) :
  net_ok w → n_nodes w !! addr = Some s → n_nodes w' = <[addr := s']> (n_nodes w) → n_env w' = n_env w →
  n_peer w' = n_peer w →
  node_ok s' → (∀ k c, holds s k c → holds s' k c) →
  (∀ k Q, (∀ v, V k v → Q v) → store_only s k Q → store_only s' k Q) →
  net_ok w' ∧ (∀ a k c, net_holds w a k c → net_holds w' a k c)
  ∧ (∀ k Q, (∀ v, V k v → Q v) → net_only w k Q → net_only w' k Q).
Proof.
  intros (Hw & He & Hp) Hs En Ee Ep Hs' Hh Ho. split_and!.
  - split_and!; [rewrite En; by apply map_Forall_insert_2|by rewrite Ee|by rewrite Ep].
  - intros a k c (x & Hx & Hc). unfold net_holds. rewrite En. destruct (decide (a = addr)) as [->|Hne].
    + exists s'. rewrite lookup_insert_eq. split; [done|]. apply Hh. by simplify_eq.
    + exists x. by rewrite lookup_insert_ne.
  - intros k Q HQ Hq a x. rewrite En. destruct (decide (a = addr)) as [->|Hne].
    + rewrite lookup_insert_eq. intros [= <-]. apply Ho; [done|]. by eapply Hq.
    + rewrite lookup_insert_ne by done. apply Hq.
Qed.

Lemma execute_rset w addr key blob v w' r :
  net_ok w → Version.Decode blob = Ok [v] → execute w addr (mkCommand rset [key; blob]) = (w', r) →
  net_ok w' ∧ (∀ a k c, net_holds w a k c → net_holds w' a k c)
  ∧ (∀ k Q, (k = key → Q v) → net_only w k Q → net_only w' k Q)
  ∧ (∀ reply, r = inr reply → AsError reply = None → net_holds w' addr key (Clk v)).
Proof.
  intros Hw Hd. unfold execute. destruct (n_nodes w !! addr) as [s|] eqn:Es.
  2:{ intros [= <- <-]. by split_and!. }
  destruct (serve_rset (n_env w (n_calls w)) s key blob v) as (reply & s' & -> & Hs' & Hh & Ho & Hack & _);
    [apply Hw|by apply (proj1 Hw addr)|done|]. intros [= <- <-].
  destruct (net_update w (tick (with_nodes w (<[addr := s']> (n_nodes w)))) addr s s' (λ k x, k = key ∧ x = v))
    as (H1 & H2 & H3); try done.
  { intros k Q HQ. apply Ho. intros ->. by apply HQ. }
  split_and!; [done|done| |].
  - intros k Q HQ. apply H3. intros x [-> ->]. by apply HQ.
  - intros rep [= <-] Hrep. exists s'. split; [apply lookup_insert_eq|by apply Hack].
Qed.

Lemma execute_rget w addr key w' r :
  net_ok w → execute w addr (mkCommand rget [key]) = (w', r) →
  net_ok w' ∧ (∀ a k c, net_holds w a k c → net_holds w' a k c)
  ∧ (∀ k Q, net_only w k Q → net_only w' k Q)
  ∧ (∀ reply, r = inr reply → ∃ s now, n_nodes w !! addr = Some s ∧ reply = BulkString (slive s now key)).
Proof.
  intros Hw. unfold execute. destruct (n_nodes w !! addr) as [s|] eqn:Es.
  2:{ intros [= <- <-]. by split_and!. }
  destruct (serve_rget (n_env w (n_calls w)) s key) as (s' & -> & Hs' & Hv); [by apply (proj1 Hw addr)|].
  intros [= <- <-].
  destruct (net_update w (tick (with_nodes w (<[addr := s']> (n_nodes w)))) addr s s' (λ _ _, False))
    as (H1 & H2 & H3); try done.
  { intros k c. by apply holds_view. }
  { intros k Q _ Hq t. by rewrite (siblings_view s). }
  split_and!; [done|done|by intros k Q; apply H3|]. intros rep [= <-]. by eexists _, _.
Qed.

Lemma tick_ok w : net_ok w → net_ok (tick w).
Proof. done. Qed.

(** A network call keeps what every round trip keeps, and its result is one
    round trip's. *)
Lemma through_call w addr args (I : net → Prop) (Q : Resp.Value → net → Prop) p w' r :
  (∀ w, I w → net_ok w) → I w → (∀ w, I w → I (tick w)) →
  (∀ w p, pool_ok p → I w → I (with_peer w p)) → (∀ w p v, Q v w → Q v (with_peer w p)) →
  (∀ w c w' r, I w → c.1 = addr → net_rtt w c args = (w', r) → I w' ∧ ∀ v, r = inr v → Q v w') →
  do_call (n_peer w) w addr args = (p, w', r) →
  I (with_peer w' p) ∧ ∀ v, r = inr v → Q v (with_peer w' p).
Proof.
  intros Hok Hw Ht Hp HQ Hrtt E. destruct (do_call_rule addr args I Q) with (p := n_peer w) (w := w) (p' := p) (w' := w') (r := r)
    as (H1 & H2 & H3); try done.
  - intros w1 w2 r1 H1. simpl. destruct (n_dial w1 (n_calls w1)); intros [= <- <-]; (split; [by apply Ht|]); [|done].
    by intros c [= <-].
  - by apply Hok.
  - split; [by apply Hp|]. intros v Hv. by apply HQ, H3.
Qed.

#[export] Program Instance net_laws : ReplicatorLaws (net (S := S)) := {|
  peer_ok := net_ok;
  peer_holds := net_holds;
  peer_only := net_only
|}.
Next Obligation.
  intros w addr key blob v w' err Hw Hd. simpl. unfold through, peer_Replicate.
  destruct (do_call (n_peer w) w addr [rset; key; blob]) as [[p w1] r] eqn:E. intros [= <- <-].
  set (I w' := net_ok w' ∧ (∀ a k c, net_holds w a k c → net_holds w' a k c)
    ∧ (∀ k Q, (k = key → Q v) → net_only w k Q → net_only w' k Q)).
  destruct (through_call w addr [rset; key; blob] I
    (λ reply w', AsError reply = None → net_holds w' addr key (Clk v)) p w1 r) as [(H1 & H2 & H3) H4]; try done.
  - by intros w2 [? _].
  - intros w2 p2 Hp [[A [B C]] D]. by split.
  - intros w2 c w3 r2 (A & B & C) <- Hr. unfold net_rtt in Hr. destruct (n_attempt w2 (n_calls w2)).
    + injection Hr as <- <-. by split_and!.
    + destruct (execute w2 c.1 (mkCommand rset [key; blob])) as [w4 r4] eqn:Ex. injection Hr as <- <-.
      destruct (execute_rset _ _ _ _ _ _ _ A Hd Ex) as (E1 & E2 & E3 & _). split; [|done]. by split_and!; auto.
    + destruct (execute_rset _ _ _ _ _ _ _ A Hd Hr) as (E1 & E2 & E3 & E4). split; [by split_and!; auto|].
      intros reply Hreply. by apply E4.
  - split_and!; [done..|]. destruct r as [msg|reply]; [done|]. by apply H4.
Qed.
Next Obligation.
  intros w addr key w' res Hw. simpl. unfold through, peer_Get.
  destruct (do_call (n_peer w) w addr [rget; key]) as [[p w1] r] eqn:E. intros [= <- <-].
  set (I w' := net_ok w' ∧ (∀ a k c, net_holds w a k c → net_holds w' a k c)
    ∧ (∀ k Q, net_only w k Q → net_only w' k Q)).
  destruct (through_call w addr [rget; key] I
    (λ reply _, ∃ s now, reply = BulkString (slive s now key)
       ∧ (∀ c, net_holds w addr key c → holds s key c) ∧ ∀ Q, net_only w key Q → store_only s key Q) p w1 r)
    as [(H1 & H2 & H3) H4]; try done.
  - by intros w2 [? _].
  - intros w2 p2 Hp [[A [B C]] D]. by split.
  - intros w2 c w3 r2 (A & B & C) <- Hr. unfold net_rtt in Hr. destruct (n_attempt w2 (n_calls w2)).
    + injection Hr as <- <-. by split_and!.
    + destruct (execute w2 c.1 (mkCommand rget [key])) as [w4 r4] eqn:Ex. injection Hr as <- <-.
      destruct (execute_rget _ _ _ _ _ A Ex) as (E1 & E2 & E3 & _). split; [|done]. by split_and!; auto.
    + destruct (execute_rget _ _ _ _ _ A Hr) as (E1 & E2 & E3 & E4). split; [by split_and!; auto|].
      intros reply Hreply. destruct (E4 reply Hreply) as (s & now & Hs & ->). exists s, now. split_and!; [done| |].
      * intros cl Hcl. destruct (B _ _ _ Hcl) as (x & Hx & Hc). rewrite Hs in Hx. by injection Hx as <-.
      * intros Q HQ. by apply (C key Q HQ c.1 s).
  - split_and!; [done..|]. intros d vs Hres Hd. destruct r as [msg|reply]; [done|].
    destruct (H4 reply eq_refl) as (s & now & -> & Hc & Ho). simpl in Hres.
    assert (siblings s now key = vs) as Hsib.
    { assert (d = slive s now key) as -> by (destruct (slive s now key); simpl in Hres; congruence).
      unfold siblings, decode_or_nil. by rewrite Hd. }
    split.
    + intros cl Hcl. rewrite <-Hsib. apply (holds_siblings s now). by apply Hc.
    + intros Q HQ. rewrite <-Hsib. by apply Ho.
Qed.
End serving.

(** ** What happens in a cluster *)

Section cluster.
Context {S : Type} `{!Store S, !StoreLaws S}.
Implicit Types (s : S) (w : @net S _) (st : @cstate S (@net S _)).

(** The network after a coordinator at [a] acted on its own store. *)
Definition absorb (a : bytes) st : net := with_nodes (c_net st) (<[a := c_store st]> (n_nodes (c_net st))).

(** [c] coordinates on the node of its own address: the state it starts from. *)
Definition coordinates (e : @env S _) (c : Coordinator) (key : bytes) st : Prop :=
  lawful_env e ∧ n_nodes (c_net st) !! c_self c = Some (c_store st)
  ∧ (len (c_self c) < 2 ^ 16)%Z ∧ ring_sorted (ring (c_router c))
  ∧ (counter (Frontier (siblings (c_store st) (e_now e) key)) (c_self c) < 2 ^ 64 - 1)%N.

(** Replica verbs from any source (fan-out, hinted handoff, read repair), client
    operations with or without the work they leave behind, and anti-entropy. *)
Inductive cluster_step : @net S _ → @net S _ → Prop :=
| step_rset w addr key blob v w' err :
    Version.Decode blob = Ok [v] → Replicate w addr rset [key; blob] = (w', err) → cluster_step w w'
| step_rget w addr key w' res :
    PeerGet w addr key = (w', res) → cluster_step w w'
| step_coordinate e c st cmd key args o :
    coordinates e c key st → Args cmd = key :: args → coordinate e c st cmd = Some o →
    cluster_step (c_net st) (absorb (c_self c) (o_state o))
| step_coordinate_all e c st cmd key args o :
    coordinates e c key st → Args cmd = key :: args → coordinate e c st cmd = Some o →
    cluster_step (c_net st) (absorb (c_self c) (o_background o (o_state o)))
| step_pull w a s o now clk es :
    n_nodes w !! a = Some s → slawful o → (∀ k, lawful_order (clk k)) → NoDup es.*1 →
    cluster_step w (with_nodes w (<[a := foldl (pull_entry o now clk) s es]> (n_nodes w))).

(** What every step keeps. *)
Definition keeps w w' : Prop :=
  net_ok w' ∧ ∀ a k c, net_holds w a k c → net_holds w' a k c.

Lemma keeps_refl w : net_ok w → keeps w w.
Proof. by split. Qed.

Lemma keeps_trans w1 w2 w3 : keeps w1 w2 → keeps w2 w3 → keeps w1 w3.
Proof. intros [_ H1] [H2 H3]. split; auto. Qed.

(** A coordinator's node is part of the network it acts on. *)
Lemma absorb_keeps a st st' :
  net_ok (c_net st) → n_nodes (c_net st) !! a = Some (c_store st) →
  net_ok (c_net st') → (∀ b k c, net_holds (c_net st) b k c → net_holds (c_net st') b k c) →
  node_ok (c_store st') → (∀ k c, holds (c_store st) k c → holds (c_store st') k c) →
  keeps (c_net st) (absorb a st').
Proof.
  intros Hw Ha (Hw' & He' & Hp') Hh Hs' Hhs. split.
  - split_and!; [by apply map_Forall_insert_2|done|done].
  - intros b k c Hb. unfold net_holds, absorb. simpl. destruct (decide (b = a)) as [->|Hne].
    + exists (c_store st'). rewrite lookup_insert_eq. split; [done|]. apply Hhs.
      destruct Hb as (x & Hx & Hc). by simplify_eq.
    + destruct (Hh b k c Hb) as (x & Hx & Hc). exists x. by rewrite lookup_insert_ne.
Qed.

Lemma NoDup_Owners r key n : ring_sorted (ring r) → NoDup (Owners r key n).
Proof.
  intros Hs. unfold Owners. rewrite GetN_preference by done.
  eapply sublist_NoDup; [apply NoDup_preference|apply sublist_take].
Qed.

(** The local half of a coordinated write loses nothing. *)
Lemma local_write_keeps now (s0 s : S) key v :
  node_ok s0 → (∀ u, u ∈ siblings s0 now key → clock_lt (Clk u) (Clk v)) →
  call_ok s0 s → replicated s key [v] → bystanders s0 s key →
  node_ok s ∧ ∀ k c0, holds s0 k c0 → holds s k c0.
Proof.
  intros (Hok & Hne & Hanti) Hlt Hcall Hrep Hby. split.
  { apply (node_ok_call s0); [done|done|]. eapply antichains_replaced; [done|done| |done]. repeat constructor. }
  intros k c0 Hk. destruct (decide (k = key)) as [->|Hne'].
  - exists [v]. split; [done|]. exists v. split; [set_solver|].
    destruct (holds_siblings _ now _ _ Hk) as (u & Hu & Hle). trans (Clk u); [done|].
    apply clock_lt_le. by apply Hlt.
  - destruct (Hby k Hne') as [E|[_ ?]]; [by eapply holds_view|done].
Qed.

(** A coordinated write: what it keeps, and that its version is at the node. *)
Lemma write_outcome_keeps e c st key v done op o :
  net_ok (c_net st) → coordinates e c key st → (∀ u, u ∈ siblings (c_store st) (e_now e) key → clock_lt (Clk u) (Clk v)) →
  write_outcome e c st key v done op o →
  keeps (c_net st) (absorb (c_self c) (o_state o))
  ∧ keeps (c_net st) (absorb (c_self c) (o_background o (o_state o))).
Proof.
  intros Hw (He & Hself & Hlen & Hring & Hcnt) Hlt Ho.
  destruct (proj1 Hw _ _ Hself) as (Hok & Hne & Hanti).
  destruct Ho as [err Hreply Hcall Hview Hnet Hhints Hbg|acks blob s replicas need Hcall Hrep Hby Hd Hfo Hreply].
  - assert (keeps (c_net st) (absorb (c_self c) (o_state o))) as Hk.
    { apply absorb_keeps; [done|done|by rewrite Hnet|by rewrite Hnet| |].
      - by apply (node_ok_call (c_store st)); [| |apply (antichains_view (c_store st))].
      - intros k c0. by apply holds_view. }
    split; [done|]. by rewrite Hbg.
  - destruct Hfo as [[E1 E2] [Hok1 Hok2] [Hg1 Hg2] _ _]. simpl in E1, E2.
    destruct (local_write_keeps (e_now e) (c_store st) s key v) as [Hs Hh]; [by split_and!|done..|].
    split; apply absorb_keeps; try done; rewrite ?E1, ?E2; try done.
    + apply Hg1.
    + intros b k c0 Hb. by apply Hg2, Hg1.
Qed.

Lemma coordinate_keeps e c st cmd key args o :
  net_ok (c_net st) → coordinates e c key st → Args cmd = key :: args → coordinate e c st cmd = Some o →
  keeps (c_net st) (absorb (c_self c) (o_state o))
  ∧ keeps (c_net st) (absorb (c_self c) (o_background o (o_state o))).
Proof.
  intros Hw Hco Ea Ho. pose proof Hco as (He & Hself & Hlen & Hring & Hcnt).
  destruct (proj1 Hw _ _ Hself) as (Hok & Hne & Hanti).
  unfold coordinate in Ho. rewrite Ea in Ho. cbv zeta in Ho.
  assert (∀ mk, (∀ x, Clk (mk x) = x) → ∀ u, u ∈ siblings (c_store st) (e_now e) key →
    clock_lt (Clk u) (Clk (mk (mint (c_self c) (siblings (c_store st) (e_now e) key))))) as Hlt.
  { intros mk Hmk u Hu. rewrite Hmk. apply mint_supersedes; [lia|done]. }
  case_bool_decide; [destruct args as [|value args]; [done|]|case_bool_decide; [|case_bool_decide]].
  - destruct (write_spec_aux (ReplicatorLaws0 := net_laws) e c st key value He Hok Hw Hlen Hcnt) as (o' & E & Hout). simplify_eq.
    eapply write_outcome_keeps; [done..| |exact Hout]. by apply (Hlt (λ x, mkVersion value x false 0)).
  - destruct (delete_spec_aux (ReplicatorLaws0 := net_laws) e c st key He Hok Hw Hlen Hcnt) as (o' & E & Hout). simplify_eq.
    eapply write_outcome_keeps; [done..| |exact Hout]. by apply (Hlt (λ x, Tombstone x (unix (e_now e)))).
  - injection Ho as <-. destruct (read_spec_aux (ReplicatorLaws0 := net_laws) e c st key He Hok Hw (NoDup_Owners _ _ _ Hring)) as (rd & Hout).
    destruct (ro_inv _ _ _ _ _ _ Hout) as (seen & Hinv & _). destruct (ro_store _ _ _ _ _ _ Hout) as [Hcall Hview].
    set (o := read e c st key) in *.
    assert (node_ok (c_store (o_state o))) as Hn.
    { by apply (node_ok_call (c_store st)); [| |apply (antichains_view (c_store st))]. }
    pose proof (ro_background _ _ _ _ _ _ Hout (o_state o) (proj1 Hn) (rv_ok _ _ _ _ _ _ _ Hinv)) as Hrep.
    split; apply absorb_keeps; try done.
    + apply (rv_ok _ _ _ _ _ _ _ Hinv).
    + apply (rv_grows _ _ _ _ _ _ _ Hinv).
    + intros k c0. by apply holds_view.
    + apply (rp_ok _ _ _ _ Hrep).
    + intros b k c0 Hb. apply (rp_grows _ _ _ _ Hrep). by apply (rv_grows _ _ _ _ _ _ _ Hinv).
    + apply (node_ok_call (c_store (o_state o))); [done|apply (rp_call _ _ _ _ Hrep)|].
      apply (rp_antichains _ _ _ _ Hrep), Hn.
    + intros k c0 Hk. apply (rp_holds _ _ _ _ Hrep); [apply Hn|]. eapply holds_view; [apply Hview|done].
  - injection Ho as <-. simpl. assert (keeps (c_net st) (absorb (c_self c) st)); [|done].
    by apply absorb_keeps.
Qed.

(** Nothing a cluster does without eviction or tombstone collection loses a
    history. *)
Lemma cluster_step_keeps w w' : net_ok w → cluster_step w w' → keeps w w'.
Proof.
  intros Hw Hstep. destruct Hstep as [w addr key blob v w' err Hd HR|w addr key w' res HG
    |e c st cmd key args o Hco Ea Ho|e c st cmd key args o Hco Ea Ho|w a s o now clk es Hs Ho Hclk Hnd].
  - destruct (law_Replicate (ReplicatorLaws := net_laws) _ _ _ _ _ _ _ Hw Hd HR) as (H1 & H2 & _). by split.
  - destruct (law_PeerGet (ReplicatorLaws := net_laws) _ _ _ _ _ Hw HG) as (H1 & H2 & _). by split.
  - by eapply coordinate_keeps.
  - by eapply coordinate_keeps.
  - destruct (proj1 Hw _ _ Hs) as (Hok & Hne & Hanti).
    destruct (pull_entries o now clk s es Hok Ho Hclk Hne Hnd) as [[P1 P2 P3 P4 P5 P6] _].
    apply (absorb_keeps a (mkC s NewHintStore w []) (mkC (foldl (pull_entry o now clk) s es) NewHintStore w [])); try done.
    apply (node_ok_call s); auto. by split_and!.
Qed.

Lemma cluster_steps_keep w w' : net_ok w → rtc cluster_step w w' → keeps w w'.
Proof.
  intros Hw Hsteps. induction Hsteps as [w|w1 w2 w3 Hstep _ IH]; [by apply keeps_refl|].
  pose proof (cluster_step_keeps _ _ Hw Hstep) as Hk. eapply keeps_trans; [exact Hk|]. apply IH, Hk.
Qed.
End cluster.

(** ** Quorums meet *)

Lemma quorum_intersect {A} `{!EqDecision A} (rs l k : list A) :
  NoDup l → NoDup k → l ⊆ rs → k ⊆ rs → (len rs < len l + len k)%Z → ∃ x, x ∈ l ∧ x ∈ k.
Proof.
  intros Hl Hk Hls Hks Hlen. destruct (decide (Exists (λ x, x ∈ k) l)) as [[x [H1 H2]]%Exists_exists|Hno].
  { by exists x. }
  exfalso. rewrite <-Forall_Exists_neg, Forall_forall in Hno.
  assert (NoDup (l ++ k)) as Hnd by (apply NoDup_app; split_and!; auto).
  assert (l ++ k ⊆+ rs) as Hsub by (apply NoDup_submseteq; [done|set_solver]).
  apply submseteq_length in Hsub. rewrite length_app in Hsub. unfold len in Hlen. lia.
Qed.

Lemma len_elem_of {A} (x : A) (l : list A) : x ∈ l → (0 < len l)%Z.
Proof. intros Hx. destruct l as [|y l]; [by apply elem_of_nil in Hx|]. rewrite len_cons. pose proof (len_nonneg l). lia. Qed.

Lemma len_Owners r key n : ring_sorted (ring r) → (len (Owners r key n) <= Z.max 0 n)%Z.
Proof. intros Hs. unfold Owners, len. rewrite GetN_preference by done. rewrite length_take. lia. Qed.

Section quorum.
Context {S : Type} `{!Store S, !StoreLaws S}.
Implicit Types (st : @cstate S (@net S _)).

(** An acknowledged write is held by as many replicas as its quorum asks for. *)
Lemma acknowledged_holders e c st key v done op o :
  coordinates e c key st → c_self c ∈ Owners (c_router c) key (c_n c) →
  write_outcome e c st key v done op o → AsError (o_reply o) = None →
  let rs := Owners (c_router c) key (c_n c) in
  ∃ l, NoDup l ∧ l ⊆ rs ∧ (Z.min (c_w c) (len rs) <= len l)%Z
    ∧ ∀ a, a ∈ l → net_holds (absorb (c_self c) (o_state o)) a key (Clk v).
Proof.
  intros (He & Hself & _ & Hring & _) Hin Ho Hack. cbv zeta.
  destruct Ho as [err Hreply Hcall Hview Hnet Hhints Hbg|acks blob s replicas need Hcall Hrep Hby Hd Hfo Hreply].
  { by rewrite Hreply in Hack. }
  destruct Hfo as [[E1 _] _ _ (acked & Hsub & -> & Hacked) _]. simpl in E1.
  assert (∀ a, a ∈ acked → a ∈ replicas ∧ a ≠ c_self c) as Hpeers.
  { intros a Ha. apply elem_of_peersExcept. rewrite <-(le_arrive e He). by eapply elem_of_sublist. }
  assert (NoDup acked) as Hnd.
  { eapply sublist_NoDup; [|exact Hsub]. rewrite (le_arrive e He), peersExcept_filter.
    by apply NoDup_filter, NoDup_Owners. }
  exists (c_self c :: acked). split_and!.
  - apply NoDup_cons. split; [|done]. intros Hx. by destruct (Hpeers _ Hx).
  - intros a [->|Ha]%elem_of_cons; [done|by apply Hpeers].
  - rewrite Hreply in Hack. fold replicas. fold need. rewrite len_cons.
    destruct (Z.leb_spec need (1 + len acked)); [done|by simpl in Hack].
  - intros a [->|Ha]%elem_of_cons; unfold net_holds, absorb; simpl.
    + exists s. rewrite lookup_insert_eq, E1. split; [done|]. exists [v]. split; [done|]. exists v. set_solver.
    + destruct (Hpeers a Ha) as [_ Hne]. destruct (Hacked a Ha) as (x & Hx & Hc). exists x.
      by rewrite lookup_insert_ne.
Qed.

(** A read that meets its quorum has heard that many replicas, and what it
    merged covers everything each of them held. *)
Lemma read_responders e c st key :
  net_ok (c_net st) → lawful_env e → n_nodes (c_net st) !! c_self c = Some (c_store st) →
  ring_sorted (ring (c_router c)) → c_self c ∈ Owners (c_router c) key (c_n c) →
  AsError (o_reply (read e c st key)) = None →
  let rs := Owners (c_router c) key (c_n c) in
  ∃ l merged, NoDup l ∧ l ⊆ rs ∧ (Z.min (c_r c) (len rs) <= len l)%Z
    ∧ o_reply (read e c st key) = read_reply merged ∧ antichain merged
    ∧ (∀ a cl, a ∈ l → net_holds (c_net st) a key cl → covers merged cl)
    ∧ ∀ Q, net_only (c_net st) key Q → Forall Q merged.
Proof.
  intros Hw He Hself Hring Hin Hack. cbv zeta. destruct (proj1 Hw _ _ Hself) as (Hok & Hne & Hanti).
  destruct (read_spec_aux (ReplicatorLaws0 := net_laws) e c st key He Hok Hw (NoDup_Owners _ _ _ Hring)) as (rd & Hout).
  destruct (ro_inv _ _ _ _ _ _ Hout) as (seen & [Hok' Hg Hn Hs Hseen Hm Hh Hon Hids Ha] & Hpeers).
  pose proof (ro_reply _ _ _ _ _ _ Hout) as Hreply. cbv zeta in Hreply.
  destruct (Z.ltb_spec (responses rd) (Z.min (c_r c) (len (Owners (c_router c) key (c_n c))))) as [Hlt|Hge].
  { by rewrite Hreply in Hack. }
  exists (map_to_list (responders rd)).*1, (merged rd). split_and!.
  - apply NoDup_fst_map_to_list.
  - intros a ([a' vs] & -> & Hav%elem_of_map_to_list)%list_elem_of_fmap. simpl.
    destruct (Hseen a' vs Hav) as [->|Hx]; [done|]. apply Hpeers, elem_of_peersExcept in Hx. apply Hx.
  - unfold len at 2. rewrite length_fmap, length_map_to_list, <-Hn. done.
  - done.
  - apply Ha, Hanti.
  - intros a cl ([a' vs] & -> & Hav%elem_of_map_to_list)%list_elem_of_fmap Hcl. simpl in Hcl.
    apply (Hm a' vs Hav). destruct (decide (a' = c_self c)) as [->|Hne'].
    + rewrite Hs in Hav. injection Hav as <-. destruct Hcl as (x & Hx & Hc). rewrite Hself in Hx.
      injection Hx as <-. by apply holds_siblings.
    + by eapply Hh.
  - intros Q HQ. apply Hon; [|done]. by apply (HQ (c_self c)).
Qed.

(** What a quorum read returns when one version supersedes all others. *)
Lemma read_reply_winner (merged : list Version) v :
  antichain merged → covers merged (Clk v) → Forall (λ u, u = v ∨ clock_lt (Clk u) (Clk v)) merged →
  read_reply merged = if Deleted v then BulkString None else BulkString (Some (Version.Value v)).
Proof.
  intros Ha (u & Hu & Hle) HQ. rewrite Forall_forall in HQ.
  assert (v ∈ merged) as Hv by (destruct (HQ u Hu) as [->|[_ Hlt]]; done).
  assert (merged = [v]) as ->; [|unfold read_reply; rewrite Live_eq, filter_cons, filter_nil; by destruct (Deleted v)].
  assert (∀ x, x ∈ merged → x = v) as Hall.
  { intros x Hx. destruct (HQ x Hx) as [->|Hlt]; [done|].
    eapply antichain_maximal; [done..|]. by apply clock_lt_le. }
  pose proof (antichain_NoDup _ Ha) as Hnd. destruct merged as [|x l]; [by apply elem_of_nil in Hv|].
  apply NoDup_cons in Hnd as [Hx Hnd]. rewrite (Hall x) in * by set_solver. f_equal.
  destruct l as [|y l]; [done|]. exfalso. apply Hx. rewrite <-(Hall y) by set_solver. set_solver.
Qed.
End quorum.

(** ** Properties *)

(** The version a coordinated SET or DEL of [key] writes, with its outcome. *)
Inductive client_write {S} `{!Store S} (e : @env S _) (c : Coordinator) (st : @cstate S (@net S _)) (key : bytes)
    (o : @outcome S (@net S _)) : Version → Prop :=
| client_set value :
    coordinate e c st (mkCommand (str "SET") [key; value]) = Some o →
    client_write e c st key o
      (mkVersion value (mint (c_self c) (siblings (c_store st) (e_now e) key)) false 0)
| client_del :
    coordinate e c st (mkCommand (str "DEL") [key]) = Some o →
    client_write e c st key o
      (Tombstone (mint (c_self c) (siblings (c_store st) (e_now e) key)) (unix (e_now e))).

Lemma client_write_outcome {S} `{!Store S, !StoreLaws S} e c (st : @cstate S (@net S _)) key o v :
  net_ok (c_net st) → coordinates e c key st → client_write e c st key o v →
  ∃ done op, write_outcome e c st key v done op o.
Proof.
  intros Hw (He & Hself & Hlen & Hring & Hcnt) Hcw. destruct (proj1 Hw _ _ Hself) as (Hok & _).
  destruct Hcw as [value E|E].
  - destruct (write_spec_aux (ReplicatorLaws0 := net_laws) e c st key value He Hok Hw Hlen Hcnt) as (o' & E' & Ho).
    change (write e c st key value = Some o) in E. rewrite E in E'. injection E' as <-. by eexists _, _.
  - destruct (delete_spec_aux (ReplicatorLaws0 := net_laws) e c st key He Hok Hw Hlen Hcnt) as (o' & E' & Ho).
    change (delete e c st key = Some o) in E. rewrite E in E'. injection E' as <-. by eexists _, _.
Qed.

Lemma client_write_supersedes {S} `{!Store S} e c (st : @cstate S (@net S _)) key o v u :
  coordinates e c key st → client_write e c st key o v →
  u ∈ siblings (c_store st) (e_now e) key → clock_lt (Clk u) (Clk v).
Proof.
  intros (_ & _ & _ & _ & Hc) Hcw Hu.
  destruct Hcw; cbn [Clk Tombstone]; (apply mint_supersedes; [lia|done]).
Qed.

(** A read quorum meets every write quorum.  After a SET or DEL was
    acknowledged to its client, and whatever the cluster did since (other client
    operations on any node, replayed hints, read repair, anti-entropy, lost and
    repeated calls), a GET at any node that agrees on the replica set and is
    answered has merged a version that includes the one written; so if no other
    write overtook it, the GET returns the value written, or a miss after the
    DEL.  Needs R + W > N, and stores that do not evict. *)
Theorem read_sees_write {S} `{!Store S, !StoreLaws S} (e1 e2 : @env S _) (c1 c2 : Coordinator)
    (st1 st2 : @cstate S (@net S _)) (key : bytes) (o1 : outcome) (v : Version) :
  let rs := Owners (c_router c1) key (c_n c1) in
  net_ok (c_net st1) → coordinates e1 c1 key st1 → c_self c1 ∈ rs →
  client_write e1 c1 st1 key o1 v → AsError (o_reply o1) = None →
  rtc cluster_step (absorb (c_self c1) (o_state o1)) (c_net st2) →
  lawful_env e2 → n_nodes (c_net st2) !! c_self c2 = Some (c_store st2) →
  ring_sorted (ring (c_router c2)) → Owners (c_router c2) key (c_n c2) = rs → c_self c2 ∈ rs →
  (1 <= c_w c1)%Z → (1 <= c_r c2)%Z → (c_n c1 < c_r c2 + c_w c1)%Z →
  AsError (o_reply (read e2 c2 st2 key)) = None →
  ∃ merged, o_reply (read e2 c2 st2 key) = read_reply merged ∧ covers merged (Clk v)
    ∧ (net_only (c_net st2) key (λ u, u = v ∨ clock_lt (Clk u) (Clk v)) →
       o_reply (read e2 c2 st2 key) = if Deleted v then BulkString None else BulkString (Some (Version.Value v))).
Proof.
  intros rs Hw Hco Hin1 Hcw Hack Hsteps He2 Hself2 Hring2 Hrs Hin2 HW HR HN Hread.
  destruct (client_write_outcome _ _ _ _ _ _ Hw Hco Hcw) as (dn & op & Hout).
  destruct (acknowledged_holders _ _ _ _ _ _ _ _ Hco Hin1 Hout Hack) as (l & Hnd & Hl & Hlen & Hholds).
  assert (net_ok (absorb (c_self c1) (o_state o1))) as Hw1.
  { eapply write_outcome_keeps; [done|done| |exact Hout]. intros u. by apply (client_write_supersedes _ _ _ _ _ _ _ Hco Hcw). }
  destruct (cluster_steps_keep _ _ Hw1 Hsteps) as [Hw2 Hmono].
  assert (c_self c2 ∈ Owners (c_router c2) key (c_n c2)) as Hin2' by (by rewrite Hrs).
  destruct (read_responders e2 c2 st2 key Hw2 He2 Hself2 Hring2 Hin2' Hread)
    as (k & merged & Hndk & Hk & Hlenk & Hreply & Hanti & Hcov & Honly).
  rewrite Hrs in *.
  pose proof (len_Owners (c_router c1) key (c_n c1) ltac:(by apply Hco)) as HlenO. fold rs in Hlen, HlenO.
  pose proof (len_elem_of _ _ Hin1) as Hpos.
  destruct (quorum_intersect rs l k Hnd Hndk Hl Hk) as (a & Hal & Hak); [lia|].
  assert (covers merged (Clk v)) as Hc by (by eapply Hcov, Hmono, Hholds).
  exists merged. split_and!; [done..|]. intros HQ. rewrite Hreply. apply read_reply_winner; [done..|]. by apply Honly.
Qed.


(** ** Witnesses *)

(** Two nodes that reach each other, both replicas of every key: N = 2, W = 2,
    R = 1. *)
Definition two_nodes : @net (MapStore lfu) MapStore_store :=
  mkNet {[str "a" := empty_store; str "b" := empty_store]} (λ _, true) (λ _, Answered) (λ _, plain_henv) 0 NewPeer.
Definition router_ab : Router := NewRouter (merge_sort hash_le) map_to_list roster_a 4 1.
Definition coordinator_of (id : bytes) : Coordinator := mkCoordinator id router_ab 2 1 2.

(** A client sets k to v at node a. *)
Definition before_set : @cstate (MapStore lfu) (@net (MapStore lfu) MapStore_store) := mkC empty_store NewHintStore two_nodes [].
Definition set_k : Command := mkCommand (str "SET") [str "k"; str "v"].
Definition after_set : @outcome (MapStore lfu) (@net (MapStore lfu) MapStore_store) :=
  default (mkOutcome (Error []) before_set id) (coordinate (plain_env 0) (coordinator_of (str "a")) before_set set_k).

(** Node b then reads it. *)
Definition net_after_set : @net (MapStore lfu) MapStore_store := absorb (str "a") (o_state after_set).
Definition before_get : @cstate (MapStore lfu) (@net (MapStore lfu) MapStore_store) :=
  mkC (default empty_store (n_nodes net_after_set !! str "b")) NewHintStore net_after_set [].

Definition written : Version :=
  mkVersion (str "v") (mint (str "a") (siblings (Store0 := MapStore_store) empty_store 0 (str "k"))) false 0.

Lemma option_default {A} (d : A) (m : option A) : match m with Some _ => true | None => false end = true → m = Some (default d m).
Proof. by destruct m. Qed.

Lemma two_nodes_ok : net_ok two_nodes.
Proof.
  assert (node_ok (S := MapStore lfu) (Store0 := MapStore_store) empty_store) as He.
  { split_and!; [apply empty_store_ok..|]. intros k now. apply antichain_nil. }
  split_and!; [|intros i; by apply plain_env_lawful|].
  - apply map_Forall_insert_2; [done|]. apply map_Forall_singleton. done.
  - intros addr c Hc. unfold idle_of in Hc. simpl in Hc. rewrite lookup_empty in Hc. by apply elem_of_nil in Hc.
Qed.

Lemma router_ab_sorted : ring_sorted (ring router_ab).
Proof. apply build_sorted, merge_sort_sorts. Qed.

Lemma before_set_coordinates : coordinates (plain_env 0) (coordinator_of (str "a")) (str "k") before_set.
Proof.
  split_and!; [by apply plain_env_lawful|reflexivity|reflexivity|apply router_ab_sorted|vm_compute; reflexivity].
Qed.

Lemma set_k_written : client_write (plain_env 0) (coordinator_of (str "a")) before_set (str "k") after_set written.
Proof. apply client_set, option_default. vm_compute. reflexivity. Qed.

Lemma read_sees_write_witness :
  ∃ merged, o_reply (read (plain_env 7) (coordinator_of (str "b")) before_get (str "k")) = read_reply merged
    ∧ covers merged (Clk written).
Proof.
  destruct (read_sees_write (plain_env 0) (plain_env 7) (coordinator_of (str "a")) (coordinator_of (str "b"))
    before_set before_get (str "k") after_set written) as (merged & H1 & H2 & _).
  - apply two_nodes_ok.
  - apply before_set_coordinates.
  - apply (bool_decide_unpack _). vm_compute. exact I.
  - apply set_k_written.
  - vm_compute. reflexivity.
  - apply rtc_refl.
  - by apply plain_env_lawful.
  - apply (option_default empty_store). vm_compute. reflexivity.
  - apply router_ab_sorted.
  - reflexivity.
  - apply (bool_decide_unpack _). vm_compute. exact I.
  - simpl. lia.
  - simpl. lia.
  - simpl. lia.
  - vm_compute. reflexivity.
  - exists merged. split; [exact H1|exact H2].
Defined.

