(* ===== verification/Concurrent.v ===== *)
(** * Operations in flight (internal/server/coordinator.go, handoff.go)

    The coordinator's calls run in goroutines: one for the client's connection,
    one for each peer of a fan-out, one for read repair.  Here they take their
    steps one at a time, and the operations of all coordinators, the replay of
    hints and the background work of the cluster interleave between any two.
    The goroutine of a peer makes its call, acts on the result (a hint is parked
    after a failure) and sends on the channel of its operation, in three steps; a
    receiving loop takes one result at a turn.

    A call to a peer, with its retries, is one step: a retry after a lost reply
    repeats a call already made, which [cluster_step] allows at any time. *)

From S2P Require Import Prelude Telemetry Binenc Resp Vclock Sha256 Merkle Version Sketch Policy MapStore ShardedStore.
From S2P Require Import Membership Ring Router Replica AntiEntropy Handoff Coordinator Handler Server Peer Cluster.

(** ** A fan-out *)

(** The capacity of the channel; the goroutines that have not called yet; those
    whose call returned and that have not sent; what the channel holds, oldest
    first; the turns left to the receiving loop.  [f_got] records what it received. *)
Record fan (R B : Type) : Type := mkFan {
  f_cap : nat;
  f_todo : list bytes;
  f_called : list (bytes * R);
  f_chan : list (bytes * B);
  f_left : nat;
  f_got : list (bytes * B)
}.
Arguments mkFan {R B}.
Arguments f_cap {R B}.
Arguments f_todo {R B}.
Arguments f_called {R B}.
Arguments f_chan {R B}.
Arguments f_left {R B}.
Arguments f_got {R B}.

Definition spawn {R B} (peers : list bytes) : fan R B := mkFan (length peers) peers [] [] (length peers) [].

(** A goroutine's call returned; it sends, which blocks on a full channel; the loop
    receives the oldest result. *)
Inductive fan_call {R B} (a : bytes) (r : R) : fan R B → fan R B → Prop :=
| fan_call_intro cap ts ts' called chan left got :
    fan_call a r (mkFan cap (ts ++ a :: ts') called chan left got)
      (mkFan cap (ts ++ ts') ((a, r) :: called) chan left got).
Inductive fan_send {R B} (a : bytes) (r : R) (b : B) : fan R B → fan R B → Prop :=
| fan_send_intro cap todo cs cs' chan left got :
    (length chan < cap)%nat →
    fan_send a r b (mkFan cap todo (cs ++ (a, r) :: cs') chan left got)
      (mkFan cap todo (cs ++ cs') (chan ++ [(a, b)]) left got).
Definition fan_recv {R B} (f : fan R B) : option (bytes * B * fan R B) :=
  match f_chan f with
  | [] => None
  | (a, b) :: chan => Some (a, b, mkFan (f_cap f) (f_todo f) (f_called f) chan (pred (f_left f)) (f_got f ++ [(a, b)]))
  end.

(** ** Read repair *)

Inductive repair_task : Type :=
| RepairEvent
| RepairLocal
| RepairRemote (addr blob : bytes).

Section machine.
Context {S : Type} `{!Store S}.

(** What the goroutine of [readRepair] does, call by call. *)
Definition repair_tasks (e : @env S _) (c : Coordinator) (merged : list Version)
    (responders : gmap bytes (list Version)) : list repair_task :=
  concat (imap (λ i '(addr, set),
    if EqualVersions set merged then []
    else RepairEvent ::
      (if bool_decide (addr = c_self c) then [RepairLocal]
       else imap (λ j v, RepairRemote addr (Version.Encode (e_clock e [3%nat; i; j]) [v])) merged))
    (e_responders e responders)).

Definition run_repair {W} `{!Replicator W} (e : @env S _) (key : bytes) (merged : list Version)
    (st : @cstate S W) (t : repair_task) : @cstate S W :=
  match t with
  | RepairEvent => record st (Event evReadRepairs)
  | RepairLocal =>
      let '(s, _, _) :=
        sUpdateReplica (e_store e) (c_store st) (e_now e) key (λ old,
          (Version.Encode (e_clock e [2%nat]) (foldl Reconcile (decode_or_nil old) merged), ())) in
      with_store st s
  | RepairRemote addr blob => with_net st (Replicate (c_net st) addr rset [key; blob]).1
  end.

(** ** Operations *)

(** A SET or DEL after its local half.  [w_done] is its reply at the quorum,
    [w_name] its name in the error; [w_version] is what [w_blob] encodes. *)
Record writing : Type := mkWriting {
  w_coord : Coordinator;
  w_key : bytes;
  w_blob : bytes;
  w_version : Version;
  w_need : Z;
  w_done : Resp.Value;
  w_name : bytes;
  w_fan : fan (option bytes) bool;
  w_acks : Z;
  w_reply : option Resp.Value
}.

(** A GET after its local half, which read [r_local]. *)
Record reading : Type := mkReading {
  r_coord : Coordinator;
  r_key : bytes;
  r_need : Z;
  r_local : list Version;
  r_fan : fan (bytes + option bytes) (bytes + option bytes);
  r_rd : readState;
  r_reply : option Resp.Value;
  r_repairs : list repair_task
}.

Inductive op : Type :=
| Refused (reply : Resp.Value)
| Writing (x : writing)
| Reading (y : reading).

Definition op_reply (o : op) : option Resp.Value :=
  match o with Refused r => Some r | Writing x => w_reply x | Reading y => r_reply y end.

Section start.
Context {W : Type} `{!Replicator W}.
Implicit Types (e : @env S _) (c : Coordinator) (st : @cstate S W) (key : bytes).

(** The fan-out of a write whose local half succeeded. *)
Definition start_fan c key (blob : bytes) (v : Version) (done : Resp.Value) (name : bytes) : writing :=
  let replicas := Owners (c_router c) key (c_n c) in
  mkWriting c key blob v (Z.min (c_w c) (len replicas)) done name
    (spawn (peersExcept replicas (c_self c))) 1 None.

Definition begin_write e c st key (value : bytes) : option (@cstate S W * op) :=
  let '(st, err, newClock) := write_local e c st key value in
  let v := mkVersion value newClock false 0 in
  match err with
  | Panic => None
  | Err err => Some (st, Refused (Error (str "ERR " ++ store_error err)))
  | Ok _ =>
      Some (st, Writing (start_fan c key (Version.Encode (e_clock e [1%nat]) [v]) v (SimpleString (str "OK")) (str "write")))
  end.

Definition begin_delete e c st key : option (@cstate S W * op) :=
  let deletedAt := unix (e_now e) in
  let '(st, err, (newClock, opState)) := delete_local e c st key in
  let v := Tombstone newClock deletedAt in
  match err with
  | Panic => None
  | Err err => Some (st, Refused (Error (str "ERR " ++ store_error err)))
  | Ok _ =>
      Some (st, Writing (start_fan c key (Version.Encode (e_clock e [1%nat]) [v]) v (Integer opState) (str "delete")))
  end.

(** Without a second response to wait for, no goroutine is started. *)
Definition begin_read e c st key : @cstate S W * op :=
  let replicas := Owners (c_router c) key (c_n c) in
  let need := Z.min (c_r c) (len replicas) in
  let '(s, blob) := sGet (c_store st) (e_now e) key in
  let local := decode_or_nil (default [] blob) in
  let peers := if (1 <? need)%Z then peersExcept replicas (c_self c) else [] in
  (with_store st s,
   Reading (mkReading c key need local (spawn peers) (mkRead 1 local {[c_self c := local]}) None [])).

Definition begin e c st (cmd : Command) : option (@cstate S W * op) :=
  match Args cmd with
  | [] => None
  | key :: args =>
      let name := ToUpper (Name cmd) in
      if bool_decide (name = set_verb) then
        match args with [] => None | value :: _ => begin_write e c st key value end
      else if bool_decide (name = del_verb) then begin_delete e c st key
      else if bool_decide (name = get_verb) then Some (begin_read e c st key)
      else Some (st, Refused (Error (str "ERR command not coordinated")))
  end.
End start.

(** One turn of the goroutine of the client: it replies at the quorum or after
    the last result, and otherwise receives, blocked while nothing was sent. *)
Definition gather_turn (x : writing) : option writing :=
  if (w_need x <=? w_acks x)%Z || (f_left (w_fan x) =? 0)%nat then
    let reply := if (w_need x <=? w_acks x)%Z then w_done x else quorumError (w_name x) (w_acks x) (w_need x) in
    Some (mkWriting (w_coord x) (w_key x) (w_blob x) (w_version x) (w_need x) (w_done x) (w_name x) (w_fan x)
            (w_acks x) (Some reply))
  else
    '(_, ok, f) ← fan_recv (w_fan x);
    Some (mkWriting (w_coord x) (w_key x) (w_blob x) (w_version x) (w_need x) (w_done x) (w_name x) f
            (if ok : bool then w_acks x + 1 else w_acks x)%Z None).

Definition read_turn (e : @env S _) (y : reading) : option reading :=
  let rd := r_rd y in
  if (r_need y <=? responses rd)%Z || (f_left (r_fan y) =? 0)%nat then
    let met := negb (responses rd <? r_need y)%Z in
    Some (mkReading (r_coord y) (r_key y) (r_need y) (r_local y) (r_fan y) rd
            (Some (if met then read_reply (merged rd) else quorumError (str "read") (responses rd) (r_need y)))
            (if met && (1 <? responses rd)%Z then repair_tasks e (r_coord y) (merged rd) (responders rd) else []))
  else
    '(a, res, f) ← fan_recv (r_fan y);
    Some (mkReading (r_coord y) (r_key y) (r_need y) (r_local y) f (receive_result rd a res) None []).

(** ** The cluster and its operations *)

(** What a node keeps besides its store: the hints it has parked, the goroutines
    of its replayer ([rstate]), and its telemetry calls. *)
Record agent : Type := mkAgent {
  a_hints : hintStore;
  a_pending : list task;
  a_acked : list task;
  a_latest : gmap (bytes * bytes) bytes;
  a_delivered : list task;
  a_events : list telemetryCall
}.

Definition new_agent : agent := mkAgent NewHintStore [] [] ∅ [] [].

(** The network with the stores of all nodes, the rest of each node, and the
    operations by a number given to each. *)
Record config : Type := mkConfig {
  g_net : @net S _;
  g_agents : gmap bytes agent;
  g_ops : gmap nat op
}.
Implicit Types (g : config) (a : bytes).

Definition agent_of g a : agent := default new_agent (g_agents g !! a).
Definition set_net g (w : @net S _) : config := mkConfig w (g_agents g) (g_ops g).
Definition set_agent g a (x : agent) : config := mkConfig (g_net g) (<[a := x]> (g_agents g)) (g_ops g).
Definition set_op g (i : nat) (o : op) : config := mkConfig (g_net g) (g_agents g) (<[i := o]> (g_ops g)).

(** The state a coordinator on node [a] acts on, and what it leaves. *)
Definition node_state g a : option (@cstate S (@net S _)) :=
  s ← n_nodes (g_net g) !! a;
  Some (mkC s (a_hints (agent_of g a)) (g_net g) (a_events (agent_of g a))).
Definition commit g a (st : @cstate S (@net S _)) : config :=
  let x := agent_of g a in
  set_agent (set_net g (absorb a st)) a
    (mkAgent (c_hints st) (a_pending x) (a_acked x) (a_latest x) (a_delivered x) (c_events st)).

(** What the goroutine of a peer does with the result of its call. *)
Definition finish_call (key blob addr : bytes) (err : option bytes) (x : agent) : bool * agent :=
  match err with
  | Some _ =>
      (false, mkAgent (add (a_hints x) addr key blob) (a_pending x) (a_acked x)
                (<[(addr, key) := blob]> (a_latest x)) (a_delivered x) (a_events x ++ [Event evHintsParked]))
  | None => (true, x)
  end.

(** The replayer of node [a]. *)
Definition replayer g a : @rstate (@net S _) :=
  let x := agent_of g a in mkR (a_hints x) (g_net g) (a_pending x) (a_acked x) (a_latest x) (a_delivered x).
Definition commit_replayer g a (r : @rstate (@net S _)) : config :=
  set_agent (set_net g (r_net r)) a
    (mkAgent (r_hints r) (r_pending r) (r_acked r) (r_latest r) (r_delivered r) (a_events (agent_of g a))).

Definition with_wfan (x : writing) (f : fan (option bytes) bool) : op :=
  Writing (mkWriting (w_coord x) (w_key x) (w_blob x) (w_version x) (w_need x) (w_done x) (w_name x) f (w_acks x) (w_reply x)).
Definition with_rfan (y : reading) (f : fan (bytes + option bytes) (bytes + option bytes)) : op :=
  Reading (mkReading (r_coord y) (r_key y) (r_need y) (r_local y) f (r_rd y) (r_reply y) (r_repairs y)).
Definition with_repairs (y : reading) (ts : list repair_task) : op :=
  Reading (mkReading (r_coord y) (r_key y) (r_need y) (r_local y) (r_fan y) (r_rd y) (r_reply y) ts).

(** The steps of the goroutines of operation [i]. *)
Inductive op_step (i : nat) : config → config → Prop :=
| go_begin g e c st cmd key args st' o :        (** a client's command reaches its coordinator *)
    g_ops g !! i = None → node_state g (c_self c) = Some st → Args cmd = key :: args → coordinates e c key st →
    begin e c st cmd = Some (st', o) → op_step i g (set_op (commit g (c_self c) st') i o)
| go_replicate g x a w err f :                  (** a goroutine of [gather] calls its peer *)
    g_ops g !! i = Some (Writing x) → Replicate (g_net g) a rset [w_key x; w_blob x] = (w, err) →
    fan_call a err (w_fan x) f → op_step i g (set_op (set_net g w) i (with_wfan x f))
| go_ack g x a err ok y f :                     (** and sends, having parked a hint if it failed *)
    let self := c_self (w_coord x) in
    g_ops g !! i = Some (Writing x) → finish_call (w_key x) (w_blob x) a err (agent_of g self) = (ok, y) →
    fan_send a err ok (w_fan x) f → op_step i g (set_op (set_agent g self y) i (with_wfan x f))
| go_gather g x x' :                            (** the loop of [gather] *)
    g_ops g !! i = Some (Writing x) → w_reply x = None → gather_turn x = Some x' →
    op_step i g (set_op g i (Writing x'))
| go_get g y a w res f :                        (** a goroutine of [read] calls its peer *)
    g_ops g !! i = Some (Reading y) → PeerGet (g_net g) a (r_key y) = (w, res) →
    fan_call a res (r_fan y) f → op_step i g (set_op (set_net g w) i (with_rfan y f))
| go_result g y a res f :                       (** and sends *)
    g_ops g !! i = Some (Reading y) → fan_send a res res (r_fan y) f → op_step i g (set_op g i (with_rfan y f))
| go_read g e y y' :                            (** the loop of [read] *)
    g_ops g !! i = Some (Reading y) → r_reply y = None → lawful_env e → read_turn e y = Some y' →
    op_step i g (set_op g i (Reading y'))
| go_repair g e y t ts st :                     (** the goroutine of [readRepair] *)
    let self := c_self (r_coord y) in
    g_ops g !! i = Some (Reading y) → r_repairs y = t :: ts → lawful_env e → node_state g self = Some st →
    op_step i g (set_op (commit g self (run_repair e (r_key y) (merged (r_rd y)) st t)) i (with_repairs y ts)).

Inductive config_step : config → config → Prop :=
| go_op g i g' : op_step i g g' → config_step g g'
| go_replay g a r :                               (** the hint replayer of a node *)
    replayer_step (replayer g a) r → config_step g (commit_replayer g a r)
| go_background g w :                             (** anti-entropy, repeated calls *)
    cluster_step (g_net g) w → config_step g (set_net g w).
End machine.

(** ** Lemmas on fan-outs *)

(** Every peer has one goroutine, in one of its places, and the loop has a turn
    for each result it did not receive. *)
Record fan_ok {R B} (peers : list bytes) (f : fan R B) : Prop := {
  fk_perm : peers ≡ₚ f_todo f ++ (f_called f).*1 ++ (f_chan f).*1 ++ (f_got f).*1;
  fk_left : (f_left f + length (f_got f) = length peers)%nat;
  fk_cap : f_cap f = length peers
}.

Lemma spawn_ok {R B} peers : fan_ok peers (@spawn R B peers).
Proof. split; simpl; [by rewrite app_nil_r|lia|done]. Qed.

Lemma fan_call_ok {R B} peers a (r : R) (f f' : fan R B) : fan_call a r f f' → fan_ok peers f → fan_ok peers f'.
Proof.
  intros [cap ts ts' called chan left got] [H1 H2 H3]. split; simpl in *; [|done..]. rewrite H1, <-!app_assoc. simpl.
  by rewrite Permutation_middle.
Qed.

Lemma fan_send_ok {R B} peers a (r : R) b (f f' : fan R B) : fan_send a r b f f' → fan_ok peers f → fan_ok peers f'.
Proof.
  intros [cap todo cs cs' chan left got Hc] [H1 H2 H3]. split; simpl in *; [|done..].
  rewrite H1, !fmap_app. simpl. apply Permutation_app_head. rewrite <-!app_assoc. apply Permutation_app_head. simpl.
  by rewrite Permutation_middle, Permutation_middle.
Qed.

Lemma fan_recv_ok {R B} peers a (b : B) (f f' : fan R B) :
  fan_recv f = Some (a, b, f') → fan_ok peers f → f_left f ≠ 0%nat → fan_ok peers f'.
Proof.
  unfold fan_recv. destruct f as [cap todo called [|[a' b'] chan] left got]; [done|]. simpl.
  intros [= -> -> <-] [H1 H2 H3] Hl. simpl in *. split; simpl.
  - rewrite H1, !fmap_app. simpl. apply Permutation_app_head, Permutation_app_head.
    rewrite (Permutation_app_comm _ [a]), (assoc_L (++)). simpl. by rewrite <-Permutation_cons_append.
  - rewrite length_app. simpl. lia.
  - done.
Qed.

(** The channel has room for every goroutine that has not sent. *)
Lemma fan_room {R B} peers (f : fan R B) :
  fan_ok peers f → (length (f_todo f) + length (f_called f) + length (f_chan f) <= f_cap f)%nat.
Proof. intros [H1 _ ->]. rewrite H1, !length_app, !length_fmap. lia. Qed.

(** A loop with a turn left and all goroutines done has something to receive. *)
Lemma fan_not_blocked {R B} peers (f : fan R B) :
  fan_ok peers f → f_todo f = [] → f_called f = [] → f_left f ≠ 0%nat → is_Some (fan_recv f).
Proof.
  intros [H1 H2 _] Ht Hc Hl. unfold fan_recv. destruct (f_chan f) as [|[a b] chan] eqn:E; [|by eexists].
  apply Permutation_length in H1. rewrite Ht, Hc in H1. simpl in H1. rewrite length_fmap in H1. lia.
Qed.

(** ** Lemmas on reads *)

Lemma foldl_concat_imap {A B T} (F : T → nat * A → T) (step : T → B → T) (G : nat → A → list B) l t :
  (∀ t i x, F t (i, x) = foldl step t (G i x)) →
  foldl F t (imap pair l) = foldl step t (concat (imap G l)).
Proof.
  intros HF. change (imap pair l) with (imap (λ i, pair (id i)) l). change (imap G l) with (imap (λ i, G (id i)) l).
  generalize (id : nat → nat) as h. revert t. induction l as [|x l IH]; intros t h; [done|].
  rewrite !imap_cons. cbn [foldl concat]. rewrite foldl_app, HF. apply (IH _ (h ∘ Datatypes.S)).
Qed.

(** [readRepair] is its tasks in order. *)
Lemma readRepair_tasks {S W} `{!Store S, !Replicator W} (e : @env S _) c key merged responders (st : @cstate S W) :
  readRepair e c key merged responders st = foldl (run_repair e key merged) st (repair_tasks e c merged responders).
Proof.
  unfold readRepair, repair_tasks. apply foldl_concat_imap. intros st1 i [addr set]. unfold repair.
  destruct (EqualVersions set merged); [done|]. cbn [foldl run_repair]. case_bool_decide; [done|].
  rewrite (foldl_concat_imap _ (run_repair e key merged)
    (λ j v, [RepairRemote addr (Version.Encode (e_clock e [3%nat; i; j]) [v])])) by done.
  f_equal. generalize 3%nat. intros n.
  enough (∀ h : nat → nat, concat (imap (λ j v, [RepairRemote addr (Version.Encode (e_clock e [n; i; h j]) [v])]) merged)
    = imap (λ j v, RepairRemote addr (Version.Encode (e_clock e [n; i; h j]) [v])) merged) as Hc by apply (Hc id).
  induction merged as [|v l IH]; intros h; [done|]. rewrite !imap_cons. cbn [concat app]. f_equal. apply (IH (h ∘ Datatypes.S)).
Qed.

(** The state of a read after the results [got]. *)
Definition heard (self : bytes) (local : list Version) (got : list (bytes * (bytes + option bytes))) : readState :=
  foldl (λ rd '(a, res), receive_result rd a res) (mkRead 1 local {[self := local]}) got.

Record heard_ok (self : bytes) (local : list Version) (got : list (bytes * (bytes + option bytes))) (rd : readState) : Prop := {
  hd_responses : responses rd = Z.of_nat (size (responders rd));
  hd_from : ∀ a vs, responders rd !! a = Some vs →
    (a = self ∧ vs = local) ∨ ∃ d, (a, inr d) ∈ got ∧ Version.Decode (default [] d) = Ok vs;
  hd_merged : ∀ a vs c, responders rd !! a = Some vs → covers vs c → covers (merged rd) c;
  hd_wf : Forall version_wf local → Forall version_wf (merged rd);
  hd_antichain : antichain local → antichain (merged rd)
}.

Lemma heard_spec self local got : NoDup (self :: got.*1) → heard_ok self local got (heard self local got).
Proof.
  unfold heard. induction got as [|[a res] got IH] using rev_ind; intros Hnd.
  { split; simpl; try done.
    - by rewrite map_size_singleton.
    - intros a vs [-> ->]%lookup_singleton_Some. by left.
    - by intros a vs c [-> ->]%lookup_singleton_Some. }
  rewrite fmap_app, app_comm_cons in Hnd. apply NoDup_app in Hnd as (Hnd & Hna & _). specialize (IH Hnd).
  rewrite foldl_app. cbn [foldl]. set (rd := foldl _ _ got) in *. destruct IH as [H1 H2 H3 H4 H5].
  assert (heard_ok self local (got ++ [(a, res)]) rd) as Hskip.
  { split; try done. intros b vs Hb. destruct (H2 b vs Hb) as [?|(d & Hd & ?)]; [by left|right].
    exists d. split; [set_solver|done]. }
  unfold receive_result. destruct res as [msg|d]; [done|].
  destruct (Version.Decode (default [] d)) as [vs|err|] eqn:Hd; [|done..].
  assert (responders rd !! a = None) as Hnone.
  { apply eq_None_not_Some. intros [vs' Hv]. destruct (H2 a vs' Hv) as [[-> _]|(d' & Hd' & _)].
    - apply (Hna self); set_solver.
    - apply (Hna a); [|set_solver]. apply elem_of_cons. right. apply (list_elem_of_fmap_2 fst) in Hd'. exact Hd'. }
  split; simpl.
  - rewrite map_size_insert_None by done. lia.
  - intros b ws. rewrite lookup_insert. destruct (decide (a = b)) as [->|]; [|apply Hskip].
    intros [= <-]. right. exists d. split; [set_solver|done].
  - intros b ws c. rewrite lookup_insert. rewrite reconcile_all_covers.
    destruct (decide (a = b)) as [->|]; [intros [= <-]; by right|]. intros Hb Hc. left. by eapply H3.
  - intros Hl. apply (reconcile_all_Forall version_wf); [by apply H4|]. by apply Decode_wf in Hd as [? _].
  - intros Hl. by apply reconcile_all_antichain, H5.
Qed.

(** ** Invariants *)

Section safety.
Context {S : Type} `{!Store S, !StoreLaws S}.
Implicit Types (g : @config S _) (w : @net S _) (x : writing) (y : reading).

Definition w_self x : bytes := c_self (w_coord x).
Definition w_owners x : list bytes := Owners (c_router (w_coord x)) (w_key x) (c_n (w_coord x)).
Definition r_self y : bytes := c_self (r_coord y).
Definition r_owners y : list bytes := Owners (c_router (r_coord y)) (r_key y) (c_n (r_coord y)).

(** An acknowledgement, wherever it is on its way, comes from a node that holds
    the version. *)
Record writing_ok w x : Prop := {
  wk_ring : ring_sorted (ring (c_router (w_coord x)));
  wk_fan : fan_ok (peersExcept (w_owners x) (w_self x)) (w_fan x);
  wk_need : w_need x = Z.min (c_w (w_coord x)) (len (w_owners x));
  wk_blob : Version.Decode (w_blob x) = Ok [w_version x];
  wk_done : AsError (w_done x) = None;
  wk_self : net_holds w (w_self x) (w_key x) (Clk (w_version x));
  wk_called : ∀ a, (a, None) ∈ f_called (w_fan x) → net_holds w a (w_key x) (Clk (w_version x));
  wk_sent : ∀ a, (a, true) ∈ f_chan (w_fan x) ++ f_got (w_fan x) → net_holds w a (w_key x) (Clk (w_version x));
  wk_acks : w_acks x = (1 + len (filter (λ p, p.2 = true) (f_got (w_fan x))))%Z;
  wk_reply : ∀ r, w_reply x = Some r →
    r = if (w_need x <=? w_acks x)%Z then w_done x else quorumError (w_name x) (w_acks x) (w_need x)
}.

Record reading_ok y : Prop := {
  rk_ring : ring_sorted (ring (c_router (r_coord y)));
  rk_need : r_need y = Z.min (c_r (r_coord y)) (len (r_owners y));
  rk_fan : fan_ok (if (1 <? r_need y)%Z then peersExcept (r_owners y) (r_self y) else []) (r_fan y);
  rk_local : antichain (r_local y) ∧ Forall version_wf (r_local y);
  rk_rd : r_rd y = heard (r_self y) (r_local y) (f_got (r_fan y));
  rk_reply : ∀ r, r_reply y = Some r →
    r = if (responses (r_rd y) <? r_need y)%Z then quorumError (str "read") (responses (r_rd y)) (r_need y)
        else read_reply (merged (r_rd y));
  rk_repairs : ∀ a b, RepairRemote a b ∈ r_repairs y → ∃ v, Version.Decode b = Ok [v]
}.

Definition op_ok w (o : op) : Prop :=
  match o with Refused _ => True | Writing x => writing_ok w x | Reading y => reading_ok y end.

(** Every hint, parked or being replayed, is one version. *)
Definition one_version (b : bytes) : Prop := ∃ v, Version.Decode b = Ok [v].
Record agent_ok (x : agent) : Prop := {
  ak_parked : ∀ t k b, parked (a_hints x) t k = Some b → one_version b;
  ak_tasks : ∀ t k b, (t, k, b) ∈ a_pending x ++ a_acked x → one_version b
}.

Definition config_ok g : Prop :=
  net_ok (g_net g) ∧ (∀ i o, g_ops g !! i = Some o → op_ok (g_net g) o) ∧ ∀ a, agent_ok (agent_of g a).

Lemma writing_ok_keeps w w' x : keeps w w' → writing_ok w x → writing_ok w' x.
Proof. intros [_ Hk] [H1 H2 H3 H4 H5 H6 H7 H8 H9 H10]. split; auto. Qed.

Lemma op_ok_keeps w w' o : keeps w w' → op_ok w o → op_ok w' o.
Proof. intros Hk. destruct o; simpl; [done|by apply writing_ok_keeps|done]. Qed.

Lemma agents_ok_set g g' a (x : agent) :
  config_ok g → g_agents g' = <[a := x]> (g_agents g) → agent_ok x → ∀ b, agent_ok (agent_of g' b).
Proof.
  intros (_ & _ & H) E Hx b. unfold agent_of. rewrite E, lookup_insert. destruct (decide (a = b)); [done|apply H].
Qed.

(** A step that leaves the network, the agents and the operation it touches well
    formed. *)
Lemma config_ok_step g g' :
  config_ok g → keeps (g_net g) (g_net g') → (∀ a, agent_ok (agent_of g' a)) →
  (∀ i o, g_ops g' !! i = Some o → g_ops g !! i = Some o ∨ op_ok (g_net g') o) →
  config_ok g' ∧ keeps (g_net g) (g_net g').
Proof.
  intros (H1 & H2 & H3) Hk Ha Ho. split; [|done]. split_and!; [apply Hk| |done].
  intros i o Hi. destruct (Ho i o Hi) as [Hi'|?]; [|done]. eapply op_ok_keeps; [done|by eapply H2].
Qed.

Lemma set_op_ok g g' i o w :
  g_ops g' = <[i := o]> (g_ops g) → op_ok w o →
  ∀ j o', g_ops g' !! j = Some o' → g_ops g !! j = Some o' ∨ op_ok w o'.
Proof.
  intros E Ho j o'. rewrite E, lookup_insert. destruct (decide (i = j)); [intros [= <-]; by right|by left].
Qed.

(** ** The steps keep the invariants *)

Lemma start_fan_ok w c key blob v done name :
  ring_sorted (ring (c_router c)) → Version.Decode blob = Ok [v] → AsError done = None →
  net_holds w (c_self c) key (Clk v) → writing_ok w (start_fan c key blob v done name).
Proof.
  intros Hr Hb Hd Hs. split; simpl; try done; [apply spawn_ok|by intros a ?%elem_of_nil..].
Qed.

(** The local half of a write, refused or stored. *)
Lemma stored_locally_ok e c (st st' : @cstate S (@net S _)) key v r :
  net_ok (c_net st) → coordinates e c key st →
  (∀ u, u ∈ siblings (c_store st) (e_now e) key → clock_lt (Clk u) (Clk v)) → stored_locally st key v st' r →
  keeps (c_net st) (absorb (c_self c) st') ∧ c_hints st' = c_hints st
  ∧ ∀ u, r = Ok u → net_holds (absorb (c_self c) st') (c_self c) key (Clk v)
      ∧ Version.Decode (Version.Encode (e_clock e [1%nat]) [v]) = Ok [v].
Proof.
  intros Hw (He & Hself & Hlen & Hring & Hcnt) Hlt (Hcall & Est & Hr). pose proof (proj1 Hw _ _ Hself) as Hn.
  assert (c_net st' = c_net st ∧ c_hints st' = c_hints st) as [En Eh] by (by rewrite Est).
  destruct r as [u|err|]; [| |done].
  - destruct Hr as (Hrep & Hby & Hwf).
    destruct (local_write_keeps (e_now e) (c_store st) (c_store st') key v Hn Hlt Hcall Hrep Hby) as [Hn' Hh].
    split_and!; [apply absorb_keeps; by rewrite ?En|done|]. intros u' [= <-]. split.
    + exists (c_store st'). unfold absorb. simpl. rewrite lookup_insert_eq. split; [done|].
      exists [v]. split; [done|]. exists v. set_solver.
    + apply decode_encode_wf; [apply He|by apply Forall_singleton|done].
  - split_and!; [|done|done]. apply absorb_keeps; rewrite ?En; try done.
    + by apply (node_ok_call (c_store st)); [| |apply (antichains_view (c_store st)), Hn].
    + intros k c0. by apply holds_view.
Qed.

Lemma begin_ok e c (st : @cstate S (@net S _)) cmd key args st' o :
  net_ok (c_net st) → coordinates e c key st → Args cmd = key :: args → begin e c st cmd = Some (st', o) →
  keeps (c_net st) (absorb (c_self c) st') ∧ c_hints st' = c_hints st ∧ op_ok (absorb (c_self c) st') o.
Proof.
  intros Hw Hco Ea Ho. pose proof Hco as (He & Hself & Hlen & Hring & Hcnt).
  pose proof (proj1 Hw _ _ Hself) as Hn. destruct Hn as (Hok & Hne & Hanti).
  unfold begin in Ho. rewrite Ea in Ho. cbv zeta in Ho.
  assert (∀ mk, (∀ clk, Clk (mk clk) = clk) → ∀ u, u ∈ siblings (c_store st) (e_now e) key →
    clock_lt (Clk u) (Clk (mk (mint (c_self c) (siblings (c_store st) (e_now e) key))))) as Hlt.
  { intros mk Hmk u Hu. rewrite Hmk. apply mint_supersedes; [lia|done]. }
  case_bool_decide; [destruct args as [|value args]; [done|]|case_bool_decide; [|case_bool_decide]].
  - destruct (write_local_spec e c st key value He Hok Hlen Hcnt) as (st1 & r & E & Hst).
    destruct (stored_locally_ok e c st st1 key _ r Hw Hco (Hlt (λ clk, mkVersion value clk false 0) ltac:(done)) Hst)
      as (Hk & Eh & Hs). unfold begin_write in Ho. rewrite E in Ho.
    destruct r as [u|err|]; simplify_eq; (split_and!; [done|done|]); [|done].
    destruct (Hs u eq_refl) as [Hh Hd]. by apply start_fan_ok.
  - destruct (delete_local_spec e c st key He Hok Hlen Hcnt) as (st1 & r & E & Hst).
    destruct (stored_locally_ok e c st st1 key _ r Hw Hco (Hlt (λ clk, Tombstone clk (unix (e_now e))) ltac:(done)) Hst)
      as (Hk & Eh & Hs). unfold begin_delete in Ho. rewrite E in Ho.
    destruct r as [u|err|]; simplify_eq; (split_and!; [done|done|]); [|done].
    destruct (Hs u eq_refl) as [Hh Hd]. by apply start_fan_ok.
  - unfold begin_read in Ho. destruct (law_Get (c_store st) (e_now e) key (proj1 Hok)) as (Hc & Hv & Hview).
    destruct (sGet (c_store st) (e_now e) key) as [s blob]. cbn [fst snd] in *. subst blob. injection Ho as <- <-.
    assert (node_ok s) as Hn'.
    { by apply (node_ok_call (c_store st)); [| |apply (antichains_view (c_store st))]. }
    split_and!; [|done|].
    + apply absorb_keeps; try done. intros k c0. by apply holds_view.
    + split; simpl; try done; [apply spawn_ok| |].
      * split; [apply Hanti|apply decode_or_nil_wf].
      * by intros a b ?%elem_of_nil.
  - injection Ho as <- <-. split_and!; [|done|done]. by apply absorb_keeps; try apply Hn.
Qed.

Lemma gather_turn_ok w x x' : writing_ok w x → w_reply x = None → gather_turn x = Some x' → writing_ok w x'.
Proof.
  intros [H1 H2 H3 H4 H5 H6 H7 H8 H9 H10] Hr. unfold gather_turn.
  destruct ((w_need x <=? w_acks x)%Z || (f_left (w_fan x) =? 0)%nat) eqn:Hq.
  { intros [= <-]. split; simpl; try done. by intros r [= <-]. }
  apply orb_false_iff in Hq as [_ Hl%Nat.eqb_neq].
  destruct (fan_recv (w_fan x)) as [[[a ok] f]|] eqn:E; [|done]. simpl. intros [= <-].
  pose proof (fan_recv_ok _ _ _ _ _ E H2 Hl) as Hf. unfold fan_recv in E.
  destruct (f_chan (w_fan x)) as [|[a' ok'] chan] eqn:Ec; [done|]. injection E as -> -> <-.
  split; simpl; try done.
  - intros b Hb. apply H8. set_solver.
  - rewrite filter_app, len_app, filter_cons, filter_nil, H9. simpl.
    destruct ok; [rewrite decide_True by done|rewrite decide_False by done]; rewrite ?len_cons, ?len_nil; lia.
Qed.

Lemma repair_tasks_decode (e : @env S _) c merged responders a b :
  lawful_env e → Forall version_wf merged → RepairRemote a b ∈ repair_tasks e c merged responders → one_version b.
Proof.
  intros He Hwf. unfold repair_tasks. rewrite list_elem_of_In, in_concat. setoid_rewrite <-list_elem_of_In.
  intros (l & (i & [addr set] & -> & _)%elem_of_lookup_imap & Hl).
  destruct (EqualVersions set merged); [by apply elem_of_nil in Hl|].
  apply elem_of_cons in Hl as [?|Hl]; [done|]. case_bool_decide; [by apply list_elem_of_singleton in Hl|].
  apply elem_of_lookup_imap in Hl as (j & v & [= -> ->] & Hv%list_elem_of_lookup_2). exists v.
  apply decode_encode_wf; [apply He| |done]. apply Forall_singleton. rewrite Forall_forall in Hwf. auto.
Qed.

(** The results a read waits for come from distinct peers. *)
Lemma reading_got_nodup y : reading_ok y → NoDup (r_self y :: (f_got (r_fan y)).*1).
Proof.
  intros [Hring _ [Hperm _ _] _ _ _ _].
  assert (NoDup (r_self y :: peersExcept (r_owners y) (r_self y))) as Hnd.
  { apply NoDup_cons. split; [rewrite elem_of_peersExcept; naive_solver|].
    rewrite peersExcept_filter. by apply NoDup_filter, NoDup_Owners. }
  assert (NoDup (r_self y :: if (1 <? r_need y)%Z then peersExcept (r_owners y) (r_self y) else [])) as Hnd'.
  { destruct (1 <? r_need y)%Z; [done|]. by apply NoDup_singleton. }
  rewrite Hperm in Hnd'. eapply sublist_NoDup; [exact Hnd'|]. apply sublist_skip. rewrite !(assoc_L (++)).
  by apply sublist_inserts_l.
Qed.

Lemma reading_heard y : reading_ok y → heard_ok (r_self y) (r_local y) (f_got (r_fan y)) (r_rd y).
Proof. intros Hy. rewrite (rk_rd y Hy). by apply heard_spec, reading_got_nodup. Qed.

Lemma read_turn_ok e y y' :
  lawful_env e → reading_ok y → r_reply y = None → read_turn e y = Some y' → reading_ok y'.
Proof.
  intros He Hy Hr. pose proof (reading_heard y Hy) as Hh. destruct Hy as [H1 H2 H3 H4 H5 H6 H7].
  unfold read_turn. destruct ((r_need y <=? responses (r_rd y))%Z || (f_left (r_fan y) =? 0)%nat) eqn:Hq.
  { intros [= <-]. split; simpl; try done.
    - intros r [= <-]. by destruct (responses (r_rd y) <? r_need y)%Z.
    - intros a b. destruct (_ && _); [|by intros ?%elem_of_nil].
      apply repair_tasks_decode; [done|]. apply (hd_wf _ _ _ _ Hh), H4. }
  apply orb_false_iff in Hq as [_ Hl%Nat.eqb_neq].
  destruct (fan_recv (r_fan y)) as [[[a res] f]|] eqn:E; [|done]. simpl. intros [= <-].
  pose proof (fan_recv_ok _ _ _ _ _ E H3 Hl) as Hf. unfold fan_recv in E.
  destruct (f_chan (r_fan y)) as [|[a' res'] chan] eqn:Ec; [done|]. injection E as -> -> <-.
  split; simpl; try done; [|by intros b b' ?%elem_of_nil].
  unfold heard. rewrite foldl_app. cbn [foldl]. by rewrite H5.
Qed.

Lemma run_repair_keeps e key merged (st : @cstate S (@net S _)) a t :
  net_ok (c_net st) → n_nodes (c_net st) !! a = Some (c_store st) → lawful_env e → Forall version_wf merged →
  (∀ b blob, t = RepairRemote b blob → one_version blob) →
  keeps (c_net st) (absorb a (run_repair e key merged st t)) ∧ c_hints (run_repair e key merged st t) = c_hints st.
Proof.
  intros Hw Ha He Hwf Ht. pose proof (proj1 Hw _ _ Ha) as Hn. destruct t as [| |b blob]; simpl.
  - split; [|done]. by apply absorb_keeps.
  - pose proof (repair_local_spec (ReplicatorLaws0 := net_laws) e key merged st He (proj1 Hn) Hw Hwf) as H.
    destruct (sUpdateReplica _ _ _ _ _) as [[s r] x]. destruct H as [P1 P2 P3 P4 P5 P6 P7 P8]. simpl in *.
    split; [|done]. apply absorb_keeps; simpl; try done.
    + apply (node_ok_call (c_store st)); [done..|]. apply P8, Hn.
    + apply P5, Hn.
  - destruct (Ht b blob eq_refl) as [v Hv].
    destruct (through (λ p w, peer_Replicate p w b rset [key; blob]) (c_net st)) as [w err] eqn:HR.
    destruct (law_Replicate (ReplicatorLaws := net_laws) (c_net st) b key blob v w err Hw Hv HR) as (H1 & H2 & _).
    split; [|done]. by apply absorb_keeps.
Qed.

Lemma finish_call_ok key blob a err (z : agent) ok z' :
  agent_ok z → one_version blob → finish_call key blob a err z = (ok, z') → agent_ok z' ∧ (ok = true ↔ err = None).
Proof.
  intros [H1 H2] Hb. unfold finish_call. destruct err as [msg|]; intros [= <- <-]; [|by split].
  split; [|done]. split; simpl; [|done]. intros t k b. rewrite parked_add. destruct (decide _); [by intros [= <-]|apply H1].
Qed.

Lemma replayer_ok w (z : agent) (r : @rstate (@net S _)) events :
  net_ok w → agent_ok z → replayer_step (mkR (a_hints z) w (a_pending z) (a_acked z) (a_latest z) (a_delivered z)) r →
  keeps w (r_net r)
  ∧ agent_ok (mkAgent (r_hints r) (r_pending r) (r_acked r) (r_latest r) (r_delivered r) events).
Proof.
  intros Hw [H1 H2] Hs.
  assert (∀ t k b w' err, one_version b → Replicate w t rset [k; b] = (w', err) → keeps w w') as Hrep.
  { intros t k b w' err [v Hv] HR.
    destruct (law_Replicate (ReplicatorLaws := net_laws) _ _ _ _ _ _ _ Hw Hv HR) as (? & ? & _). by split. }
  remember (mkR _ _ _ _ _ _) as r0. destruct Hs as [r0 Hp Ha|r0 t k b ts ts' w' Hp HR
    |r0 t k b ts ts' w' err Hp HR|r0 t k b ts ts' Ha]; subst r0; simpl in *; split; try (by apply keeps_refl).
  - split; simpl; [done|]. intros t k b. rewrite app_nil_r. unfold snapshot. rewrite elem_of_tasks. apply H1.
  - eapply Hrep; [|exact HR]. apply (H2 t k). rewrite Hp. set_solver.
  - split; simpl; [done|]. intros t' k' b' Hin. apply (H2 t' k'). rewrite Hp. set_solver.
  - eapply Hrep; [|exact HR]. apply (H2 t k). rewrite Hp. set_solver.
  - split; simpl; [done|]. intros t' k' b' Hin. apply (H2 t' k'). rewrite Hp. set_solver.
  - split; simpl.
    + intros t' k' b'. rewrite parked_remove. destruct (parked (a_hints z) t k); [|apply H1].
      destruct (decide _); [done|apply H1].
    + intros t' k' b' Hin. apply (H2 t' k'). rewrite Ha. set_solver.
Qed.

Lemma node_state_Some g a (st : @cstate S (@net S _)) :
  node_state g a = Some st →
  n_nodes (c_net st) !! a = Some (c_store st) ∧ c_net st = g_net g ∧ c_hints st = a_hints (agent_of g a).
Proof. unfold node_state. destruct (n_nodes (g_net g) !! a) eqn:E; [|done]. by intros [= <-]. Qed.

Lemma commit_agent_ok g a (st : @cstate S (@net S _)) :
  config_ok g → c_hints st = a_hints (agent_of g a) → ∀ b, agent_ok (agent_of (commit g a st) b).
Proof.
  intros Hg Hh. eapply agents_ok_set; [exact Hg|done|]. destruct (proj2 (proj2 Hg) a) as [H1 H2].
  split; simpl; [by rewrite Hh|done].
Qed.

(** The moves of a fan-out keep what is known of a write. *)
Lemma writing_called w' x a err f :
  writing_ok w' x → (err = None → net_holds w' a (w_key x) (Clk (w_version x))) → fan_call a err (w_fan x) f →
  op_ok w' (with_wfan x f).
Proof.
  intros [H1 H2 H3 H4 H5 H6 H7 H8 H9 H10] Ha Hf. pose proof (fan_call_ok _ _ _ _ _ Hf H2) as Hok.
  destruct x as [c key blob v need dn name fx acks reply]. simpl in *. destruct Hf. split; simpl in *; try done.
  intros b [[= -> <-]|Hb]%elem_of_cons; auto.
Qed.

Lemma writing_sent w x a err ok f :
  writing_ok w x → (ok = true ↔ err = None) → fan_send a err ok (w_fan x) f → op_ok w (with_wfan x f).
Proof.
  intros [H1 H2 H3 H4 H5 H6 H7 H8 H9 H10] Ha Hf. pose proof (fan_send_ok _ _ _ _ _ _ Hf H2) as Hok.
  destruct x as [c key blob v need dn name fx acks reply]. simpl in *. destruct Hf. split; simpl in *; try done.
  - intros b Hb. apply H7. set_solver.
  - intros b Hb. rewrite !elem_of_app in Hb. destruct Hb as [[Hb|Hb]|Hb]; [apply H8; set_solver| |apply H8; set_solver].
    apply list_elem_of_singleton in Hb. injection Hb as -> <-. apply H7. rewrite (proj1 Ha eq_refl). set_solver.
Qed.

Lemma reading_moved w y f :
  reading_ok y → f_got f = f_got (r_fan y) → (∀ peers, fan_ok peers (r_fan y) → fan_ok peers f) → op_ok w (with_rfan y f).
Proof.
  intros [H1 H2 H3 H4 H5 H6 H7] Hg Hf. destruct y. simpl in *. split; simpl; try done; [by apply Hf|by rewrite Hg].
Qed.

(** No step of the cluster or of an operation loses a history or breaks an
    invariant. *)
Lemma config_step_ok g g' : config_ok g → config_step g g' → config_ok g' ∧ keeps (g_net g) (g_net g').
Proof.
  intros Hg Hs. pose proof Hg as (Hw & Hops & Hag).
  destruct Hs as [? i ? [g e c st cmd key args st' o Hi Hst Ea Hco Hb|g x a w err f Hi HR Hf|g x a err ok z f self Hi Hz Hf
    |g x x' Hi Hr Ht|g y a w res f Hi HG Hf|g y a res f Hi Hf|g e y y' Hi Hr He Ht
    |g e y t ts st self Hi Ht He Hst]|g a r Hr|g w Hb].
  - destruct (node_state_Some _ _ _ Hst) as (Hself & En & Eh). rewrite <-En in Hw.
    destruct (begin_ok _ _ _ _ _ _ _ _ Hw Hco Ea Hb) as (Hk & Eh' & Ho). rewrite En in Hk.
    apply config_ok_step; [done|done| |by eapply set_op_ok]. apply (commit_agent_ok g); [done|congruence].
  - pose proof (Hops _ _ Hi) as Hx. simpl in Hx.
    destruct (law_Replicate (ReplicatorLaws := net_laws) _ _ _ _ _ _ _ Hw (wk_blob _ _ Hx) HR) as (H1 & H2 & _ & Ha).
    assert (keeps (g_net g) w) as Hk by done.
    apply config_ok_step; [done|done|apply Hag|]. eapply set_op_ok; [done|].
    eapply writing_called; [by eapply writing_ok_keeps|exact Ha|done].
  - pose proof (Hops _ _ Hi) as Hx. simpl in Hx.
    destruct (finish_call_ok _ _ _ _ _ _ _ (Hag self) (ex_intro _ _ (wk_blob _ _ Hx)) Hz) as [Hz' Hok].
    apply config_ok_step; [done|by apply keeps_refl| |eapply set_op_ok; [done|by eapply writing_sent]].
    by eapply (agents_ok_set g).
  - apply config_ok_step; [done|by apply keeps_refl|apply Hag|]. eapply set_op_ok; [done|].
    eapply gather_turn_ok; [exact (Hops _ _ Hi)|done..].
  - destruct (law_PeerGet (ReplicatorLaws := net_laws) _ _ _ _ _ Hw HG) as (H1 & H2 & _).
    apply config_ok_step; [done|done|apply Hag|]. eapply set_op_ok; [done|apply reading_moved]; [exact (Hops _ _ Hi)|by destruct Hf|].
    intros peers. by eapply fan_call_ok.
  - apply config_ok_step; [done|by apply keeps_refl|apply Hag|].
    eapply set_op_ok; [done|apply reading_moved]; [exact (Hops _ _ Hi)|by destruct Hf|]. intros peers. by eapply fan_send_ok.
  - apply config_ok_step; [done|by apply keeps_refl|apply Hag|]. eapply set_op_ok; [done|].
    by eapply read_turn_ok; [| |exact Hr|]; [|exact (Hops _ _ Hi)|].
  - pose proof (Hops _ _ Hi) as Hy. simpl in Hy. destruct (node_state_Some _ _ _ Hst) as (Hself & En & Eh).
    rewrite <-En in Hw. assert (Forall version_wf (merged (r_rd y))) as Hwf.
    { apply (hd_wf _ _ _ _ (reading_heard y Hy)), (rk_local y Hy). }
    destruct (run_repair_keeps e (r_key y) (merged (r_rd y)) st self t Hw Hself He Hwf) as [Hk Eh'].
    { intros b blob ->. apply (rk_repairs y Hy b). rewrite Ht. set_solver. }
    rewrite En in Hk. apply config_ok_step; [done|done|apply (commit_agent_ok g); [done|congruence]|].
    eapply set_op_ok; [done|]. destruct Hy as [H1 H2 H3 H4 H5 H6 H7]. destruct y. simpl in *. split; simpl; try done.
    intros a b Hab. apply (H7 a). rewrite Ht. set_solver.
  - destruct (replayer_ok _ _ _ (a_events (agent_of g a)) Hw (Hag a) Hr) as [Hk Ha].
    apply config_ok_step; [done|done|by eapply (agents_ok_set g)|by left].
  - apply config_ok_step; [done|by apply cluster_step_keeps|apply Hag|by left].
Qed.

Lemma config_steps_ok g g' : config_ok g → rtc config_step g g' → config_ok g' ∧ keeps (g_net g) (g_net g').
Proof.
  intros Hg Hs. induction Hs as [g|g1 g2 g3 Hstep _ IH]; [split; [done|by apply keeps_refl, Hg]|].
  destruct (config_step_ok _ _ Hg Hstep) as [Hg2 Hk]. destruct (IH Hg2) as [Hg3 Hk2].
  split; [done|]. by eapply keeps_trans.
Qed.

(** ** What a read that starts now will have heard *)

(** Every answer a read has, on its way or received, covers what its sender held
    in [w0]. *)
Definition informed (w0 : @net S _) (cl : Clock) y : Prop :=
  (net_holds w0 (r_self y) (r_key y) cl → covers (r_local y) cl)
  ∧ ∀ a d vs, (a, inr d) ∈ f_called (r_fan y) ++ f_chan (r_fan y) ++ f_got (r_fan y) →
      Version.Decode (default [] d) = Ok vs → net_holds w0 a (r_key y) cl → covers vs cl.

Lemma begin_informed w0 cl e c (st : @cstate S (@net S _)) cmd key args st' y :
  keeps w0 (c_net st) → coordinates e c key st → Args cmd = key :: args → begin e c st cmd = Some (st', Reading y) →
  informed w0 cl y.
Proof.
  intros [Hw Hk] (He & Hself & _) Ea Ho. unfold begin in Ho. rewrite Ea in Ho. cbv zeta in Ho.
  case_bool_decide; [destruct args as [|value args]; [done|]|case_bool_decide; [|case_bool_decide]].
  - unfold begin_write in Ho. destruct (write_local e c st key value) as [[st1 r] clk]. by destruct r.
  - unfold begin_delete in Ho. destruct (delete_local e c st key) as [[st1 r] [clk n]]. by destruct r.
  - unfold begin_read in Ho. destruct (law_Get (c_store st) (e_now e) key) as (_ & Hv & _).
    { apply (proj1 Hw _ _ Hself). }
    destruct (sGet (c_store st) (e_now e) key) as [s blob]. simpl in Hv. subst blob. injection Ho as <- <-.
    split; simpl; [|by intros a d vs ?%elem_of_nil]. intros Hh. destruct (Hk _ _ _ Hh) as (s0 & Hs0 & Hc).
    unfold r_self in Hs0. simpl in Hs0. rewrite Hself in Hs0. injection Hs0 as <-. by apply holds_siblings.
  - done.
Qed.

Lemma informed_step w0 cl g g' j :
  config_ok g → keeps w0 (g_net g) → config_step g g' →
  (∀ y, g_ops g !! j = Some (Reading y) → informed w0 cl y) →
  ∀ y, g_ops g' !! j = Some (Reading y) → informed w0 cl y.
Proof.
  intros (Hw & Hops & _) Hk0 Hs Hinf y'.
  destruct Hs as [? i ? [g e c st cmd key args st' o Hi Hst Ea Hco Hb|g x a w err f Hi HR Hf|g x a err ok z f self Hi Hz Hf
    |g x x' Hi Hr Ht|g y a w res f Hi HG Hf|g y a res f Hi Hf|g e y y1 Hi Hr He Ht
    |g e y t ts st self Hi Ht He Hst]|g a r Hr|g w Hb]; try (simpl; apply Hinf);
    (simpl; rewrite lookup_insert; destruct (decide (i = j)) as [->|]; [intros [= E]|apply Hinf]).
  - subst o. destruct (node_state_Some _ _ _ Hst) as (_ & En & _). rewrite <-En in Hk0.
    by apply (begin_informed w0 cl e c st cmd key args st').
  - subst y'. destruct (Hinf _ Hi) as [H1 H2].
    destruct (law_PeerGet (ReplicatorLaws := net_laws) _ _ _ _ _ Hw HG) as (_ & _ & _ & Hres).
    destruct y as [c key need local fy rd reply rep]. simpl in *. destruct Hf as [cap ts ts' called chan left got].
    split; simpl in *; [exact H1|]. intros b d vs [[= -> <-]|Hb]%elem_of_cons; [|by apply H2].
    intros Hd Hh. apply (Hres d vs eq_refl Hd). by apply Hk0.
  - subst y'. destruct (Hinf _ Hi) as [H1 H2]. destruct y as [c key need local fy rd reply rep]. simpl in *.
    destruct Hf as [cap todo cs cs' chan left got Hcap]. split; simpl in *; [exact H1|]. intros b d vs Hb. apply (H2 b d vs). set_solver.
  - subst y1. destruct (Hinf _ Hi) as [H1 H2]. unfold read_turn in Ht. destruct (_ || _); [injection Ht as <-; by split|].
    unfold fan_recv in Ht. destruct (f_chan (r_fan y)) as [|[a res] chan] eqn:Ec; [done|]. simpl in Ht. injection Ht as <-.
    split; simpl; [exact H1|]. intros b d vs Hb. apply (H2 b d vs). set_solver.
  - subst y'. destruct (Hinf _ Hi) as [H1 H2]. by split.
Qed.

Lemma informed_steps cl g1 g2 j y :
  config_ok g1 → g_ops g1 !! j = None → rtc config_step g1 g2 → g_ops g2 !! j = Some (Reading y) →
  informed (g_net g1) cl y.
Proof.
  intros Hg Hj Hs. revert y.
  enough (∀ w0, keeps w0 (g_net g1) → (∀ y, g_ops g1 !! j = Some (Reading y) → informed w0 cl y) →
    ∀ y, g_ops g2 !! j = Some (Reading y) → informed w0 cl y) as H.
  { apply H; [by apply keeps_refl, Hg|by rewrite Hj]. }
  intros w0. clear Hj. induction Hs as [g|g h g' Hstep _ IH]; [done|]. intros Hk Hi.
  destruct (config_step_ok _ _ Hg Hstep) as [Hg' Hk']. apply IH; [done|by eapply keeps_trans|].
  by apply (informed_step w0 cl g h j).
Qed.

(** An answered write is held by as many replicas as its quorum asks for. *)
Lemma written_holders w x :
  writing_ok w x → w_self x ∈ w_owners x → w_reply x = Some (w_done x) →
  ∃ l, NoDup l ∧ l ⊆ w_owners x ∧ (Z.min (c_w (w_coord x)) (len (w_owners x)) <= len l)%Z
    ∧ ∀ a, a ∈ l → net_holds w a (w_key x) (Clk (w_version x)).
Proof.
  intros [H1 [H2 _ _] H3 H4 H5 H6 H7 H8 H9 H10] Hin Hr. set (acked := (filter (λ p, p.2 = true) (f_got (w_fan x))).*1).
  assert (sublist acked (f_got (w_fan x)).*1)  as Hsub by (apply fmap_sublist, sublist_filter).
  assert (∀ a, a ∈ acked → a ∈ peersExcept (w_owners x) (w_self x)) as Hpeers.
  { intros a Ha. rewrite H2. rewrite !elem_of_app. right. right. right. by eapply elem_of_sublist. }
  exists (w_self x :: acked). split_and!.
  - apply NoDup_cons. split; [intros Ha%Hpeers; apply elem_of_peersExcept in Ha; naive_solver|].
    eapply sublist_NoDup; [|exact Hsub].
    assert (NoDup (peersExcept (w_owners x) (w_self x))) as Hnd.
    { rewrite peersExcept_filter. by apply NoDup_filter, NoDup_Owners. }
    rewrite H2 in Hnd. eapply sublist_NoDup; [exact Hnd|]. rewrite !(assoc_L (++)). by apply sublist_inserts_l.
  - intros a [->|Ha%Hpeers]%elem_of_cons; [done|]. by apply elem_of_peersExcept in Ha as [? _].
  - pose proof (H10 _ Hr) as E. destruct (Z.leb_spec (w_need x) (w_acks x)) as [Hle|Hlt].
    + rewrite <-H3, len_cons. unfold acked, len. rewrite length_fmap. unfold len in H9. lia.
    + by rewrite E in H5.
  - intros a [->|Ha]%elem_of_cons; [done|]. apply list_elem_of_fmap in Ha as ([a' ok] & -> & Ha).
    apply list_elem_of_filter in Ha as [Hok Ha]. simpl in Hok. subst ok. apply H8. set_solver.
Qed.

(** An answered read merged what as many replicas held when it started. *)
Lemma answered_responders w0 cl y :
  reading_ok y → informed w0 cl y → r_self y ∈ r_owners y → (∃ r, r_reply y = Some r ∧ AsError r = None) →
  ∃ l, NoDup l ∧ l ⊆ r_owners y ∧ (Z.min (c_r (r_coord y)) (len (r_owners y)) <= len l)%Z
    ∧ r_reply y = Some (read_reply (merged (r_rd y)))
    ∧ ∀ a, a ∈ l → net_holds w0 a (r_key y) cl → covers (merged (r_rd y)) cl.
Proof.
  intros Hy [Hl Hh] Hin (r & Hr & Hack). pose proof (reading_heard y Hy) as [D1 D2 D3 _ _].
  destruct Hy as [H1 H2 [H3 _ _] H4 H5 H6 H7]. pose proof (H6 _ Hr) as E.
  destruct (Z.ltb_spec (responses (r_rd y)) (r_need y)) as [Hlt|Hge]; [by rewrite E in Hack|].
  exists (map_to_list (responders (r_rd y))).*1. split_and!.
  - apply NoDup_fst_map_to_list.
  - intros a ([a' vs] & -> & Hav%elem_of_map_to_list)%list_elem_of_fmap. simpl.
    destruct (D2 a' vs Hav) as [[-> _]|(d & Hd & _)]; [done|]. apply (list_elem_of_fmap_2 fst) in Hd. simpl in Hd.
    assert (a' ∈ if (1 <? r_need y)%Z then peersExcept (r_owners y) (r_self y) else []) as Hp.
    { rewrite H3, !elem_of_app. by right; right; right. }
    destruct (1 <? r_need y)%Z; [|by apply elem_of_nil in Hp]. by apply elem_of_peersExcept in Hp as [? _].
  - unfold len at 2. rewrite length_fmap, length_map_to_list, <-D1, <-H2. done.
  - by rewrite Hr, E.
  - intros a ([a' vs] & -> & Hav%elem_of_map_to_list)%list_elem_of_fmap Hcl. simpl in Hcl. apply (D3 a' vs); [done|].
    destruct (D2 a' vs Hav) as [[-> ->]|(d & Hd & Hdec)]; [by apply Hl|]. eapply Hh; [|done..]. set_solver.
Qed.

(** ** No operation is ever stuck *)

Definition settled {R B} (f : fan R B) (reply : option Resp.Value) : Prop :=
  f_todo f = [] ∧ f_called f = [] ∧ is_Some reply.

(** Its goroutines have sent and the client has its reply. *)
Definition op_settled (o : op) : Prop :=
  match o with
  | Refused _ => True
  | Writing x => settled (w_fan x) (w_reply x)
  | Reading y => settled (r_fan y) (r_reply y)
  end.

(** The steps an operation has ahead. *)
Definition fan_work {R B} (f : fan R B) (reply : option Resp.Value) : nat :=
  2 * length (f_todo f) + length (f_called f) + match reply with Some _ => 0 | None => Datatypes.S (f_left f) end.
Definition op_work (o : op) : nat :=
  match o with
  | Refused _ => 0
  | Writing x => fan_work (w_fan x) (w_reply x)
  | Reading y => fan_work (r_fan y) (r_reply y)
  end.

Lemma gather_turn_progress x : is_Some (fan_recv (w_fan x)) ∨ f_left (w_fan x) = 0%nat → w_reply x = None →
  ∃ x', gather_turn x = Some x' ∧ op_work (Writing x') < op_work (Writing x).
Proof.
  intros Hr Hn. unfold gather_turn. destruct (_ || _) eqn:Hq.
  { eexists. split; [done|]. simpl. rewrite Hn. unfold fan_work. simpl. lia. }
  apply orb_false_iff in Hq as [_ Hl%Nat.eqb_neq]. destruct Hr as [[[[a ok] f] E]|]; [|done]. rewrite E. simpl.
  eexists. split; [done|]. simpl. rewrite Hn. unfold fan_recv in E. destruct (f_chan (w_fan x)) as [|[? ?] ?]; [done|].
  injection E as -> -> <-. unfold fan_work. simpl. lia.
Qed.

Lemma read_turn_progress e y : is_Some (fan_recv (r_fan y)) ∨ f_left (r_fan y) = 0%nat → r_reply y = None →
  ∃ y', read_turn e y = Some y' ∧ op_work (Reading y') < op_work (Reading y).
Proof.
  intros Hr Hn. unfold read_turn. destruct (_ || _) eqn:Hq.
  { eexists. split; [done|]. simpl. rewrite Hn. unfold fan_work. simpl. lia. }
  apply orb_false_iff in Hq as [_ Hl%Nat.eqb_neq]. destruct Hr as [[[[a res] f] E]|]; [|done]. rewrite E. simpl.
  eexists. split; [done|]. simpl. rewrite Hn. unfold fan_recv in E. destruct (f_chan (r_fan y)) as [|[? ?] ?]; [done|].
  injection E as -> -> <-. unfold fan_work. simpl. lia.
Qed.

(** A fan-out that is not over has a goroutine that can call or send. *)
Lemma fan_progress {R B} peers (f : fan R B) :
  fan_ok peers f →
  (∃ a, ∀ r, ∃ f', fan_call a r f f' ∧ ∀ reply, fan_work f' reply < fan_work f reply)
  ∨ (∃ a r, ∀ b, ∃ f', fan_send a r b f f' ∧ ∀ reply, fan_work f' reply < fan_work f reply)
  ∨ (f_todo f = [] ∧ f_called f = []).
Proof.
  intros Hok%fan_room. destruct f as [cap [|a ts] [|[a' r] cs] chan n got]; simpl in Hok; [by right; right|right; left|..].
  3: left; exists a; intros r'. 2: left; exists a; intros r'.
  - exists a', r. intros b. eexists. split; [apply (fan_send_intro _ _ _ _ _ []); lia|]. intros reply. unfold fan_work. simpl. lia.
  - eexists. split; [apply (fan_call_intro _ _ _ [])|]. intros reply. unfold fan_work. simpl. lia.
  - eexists. split; [apply (fan_call_intro _ _ _ [])|]. intros reply. unfold fan_work. simpl. lia.
Qed.

(** An operation that is not settled can take a step of its own. *)
Lemma op_progress e g i o :
  lawful_env e → config_ok g → g_ops g !! i = Some o → op_settled o ∨
  ∃ g' o', op_step i g g' ∧ g_ops g' !! i = Some o' ∧ op_work o' < op_work o.
Proof.
  intros He (Hw & Hops & _) Hi. pose proof (Hops _ _ Hi) as Ho.
  assert (∀ h o', op_step i g (set_op h i o') → op_work o' < op_work o →
    ∃ g' o', op_step i g g' ∧ g_ops g' !! i = Some o' ∧ op_work o' < op_work o) as Hgo.
  { intros h o' Hs Hlt. exists (set_op h i o'), o'. split_and!; [done|apply lookup_insert_eq|done]. }
  destruct o as [r|x|y]; [by left|..]; simpl in Ho.
  - destruct (fan_progress _ (w_fan x) (wk_fan _ _ Ho)) as [[a Hf]|[(a & err & Hf)|[Et Ec]]].
    + right. destruct (Replicate (g_net g) a rset [w_key x; w_blob x]) as [w err] eqn:HR.
      destruct (Hf err) as (f & Hc & Hlt). eapply Hgo; [by eapply go_replicate|apply Hlt].
    + right. destruct (finish_call (w_key x) (w_blob x) a err (agent_of g (c_self (w_coord x)))) as [ok z] eqn:Hz.
      destruct (Hf ok) as (f & Hc & Hlt). eapply Hgo; [by eapply go_ack|apply Hlt].
    + destruct (w_reply x) as [r|] eqn:Er; [left; by split_and!; [..|eexists]|]. right.
      destruct (gather_turn_progress x) as (x' & Hx' & Hlt); [|done|eapply Hgo; [by eapply go_gather|done]].
      destruct (decide (f_left (w_fan x) = 0%nat)); [by right|left]. eapply fan_not_blocked; [apply Ho|done..].
  - destruct (fan_progress _ (r_fan y) (rk_fan _ Ho)) as [[a Hf]|[(a & res & Hf)|[Et Ec]]].
    + right. destruct (PeerGet (g_net g) a (r_key y)) as [w res] eqn:HG.
      destruct (Hf res) as (f & Hc & Hlt). eapply Hgo; [by eapply go_get|apply Hlt].
    + right. destruct (Hf res) as (f & Hc & Hlt). eapply Hgo; [by eapply go_result|apply Hlt].
    + destruct (r_reply y) as [r|] eqn:Er; [left; by split_and!; [..|eexists]|]. right.
      destruct (read_turn_progress e y) as (y' & Hy' & Hlt); [|done|eapply Hgo; [by eapply go_read|done]].
      destruct (decide (f_left (r_fan y) = 0%nat)); [by right|left]. eapply fan_not_blocked; [apply Ho|done..].
Qed.

Lemma op_settles e n g i o :
  lawful_env e → config_ok g → g_ops g !! i = Some o → op_work o < n →
  ∃ g' o', rtc (op_step i) g g' ∧ g_ops g' !! i = Some o' ∧ op_settled o'.
Proof.
  intros He. revert g o. induction n as [|n IH]; intros g o Hg Hi Hn; [lia|].
  destruct (op_progress e g i o He Hg Hi) as [Hs|(g1 & o1 & Hstep & Hi1 & Hlt)]; [by exists g, o|].
  destruct (IH g1 o1) as (g2 & o2 & Hs2 & Hi2 & Ho2); [by apply (config_step_ok g g1); [|by apply (go_op _ i)]|done|lia|].
  exists g2, o2. split; [|done]. by eapply rtc_l.
Qed.
End safety.

(** ** Running an operation *)

(** One step of operation [i]: its next goroutine calls, or else the next to send
    does, or else the goroutine of the client takes its turn. *)
Section drive.
Context {S : Type} `{!Store S}.
Implicit Types (g : @config S _) (e : @env S _).

Definition call_next g (i : nat) : option config :=
  match g_ops g !! i with
  | Some (Writing x) =>
      let f := w_fan x in
      match f_todo f with
      | [] => None
      | a :: ts =>
          let '(w, err) := Replicate (g_net g) a rset [w_key x; w_blob x] in
          Some (set_op (set_net g w) i (with_wfan x (mkFan (f_cap f) ts ((a, err) :: f_called f) (f_chan f) (f_left f) (f_got f))))
      end
  | Some (Reading y) =>
      let f := r_fan y in
      match f_todo f with
      | [] => None
      | a :: ts =>
          let '(w, res) := PeerGet (g_net g) a (r_key y) in
          Some (set_op (set_net g w) i (with_rfan y (mkFan (f_cap f) ts ((a, res) :: f_called f) (f_chan f) (f_left f) (f_got f))))
      end
  | _ => None
  end.

Definition send_next g (i : nat) : option config :=
  match g_ops g !! i with
  | Some (Writing x) =>
      let f := w_fan x in
      match f_called f with
      | [] => None
      | (a, err) :: cs =>
          let self := c_self (w_coord x) in
          let '(ok, z) := finish_call (w_key x) (w_blob x) a err (agent_of g self) in
          if (length (f_chan f) <? f_cap f)%nat then
            Some (set_op (set_agent g self z) i
              (with_wfan x (mkFan (f_cap f) (f_todo f) cs (f_chan f ++ [(a, ok)]) (f_left f) (f_got f))))
          else None
      end
  | Some (Reading y) =>
      let f := r_fan y in
      match f_called f with
      | [] => None
      | (a, res) :: cs =>
          if (length (f_chan f) <? f_cap f)%nat then
            Some (set_op g i (with_rfan y (mkFan (f_cap f) (f_todo f) cs (f_chan f ++ [(a, res)]) (f_left f) (f_got f))))
          else None
      end
  | _ => None
  end.

Definition turn e g (i : nat) : option config :=
  match g_ops g !! i with
  | Some (Writing x) =>
      match w_reply x with Some _ => None | None => x' ← gather_turn x; Some (set_op g i (Writing x')) end
  | Some (Reading y) =>
      match r_reply y with Some _ => None | None => y' ← read_turn e y; Some (set_op g i (Reading y')) end
  | _ => None
  end.

Lemma call_next_step g i g' : call_next g i = Some g' → config_step g g'.
Proof.
  unfold call_next. destruct (g_ops g !! i) as [[r|x|y]|] eqn:Hi; [done| | |done].
  - destruct (f_todo (w_fan x)) as [|a ts] eqn:E; [done|].
    destruct (Replicate (g_net g) a rset [w_key x; w_blob x]) as [w err] eqn:HR. intros [= <-].
    eapply go_op, go_replicate; [done..|]. destruct (w_fan x). simpl in *. subst. apply (fan_call_intro _ _ _ []).
  - destruct (f_todo (r_fan y)) as [|a ts] eqn:E; [done|].
    destruct (PeerGet (g_net g) a (r_key y)) as [w err] eqn:HG. intros [= <-].
    eapply go_op, go_get; [done..|]. destruct (r_fan y). simpl in *. subst. apply (fan_call_intro _ _ _ []).
Qed.

Lemma send_next_step g i g' : send_next g i = Some g' → config_step g g'.
Proof.
  unfold send_next. destruct (g_ops g !! i) as [[r|x|y]|] eqn:Hi; [done| | |done].
  - destruct (f_called (w_fan x)) as [|[a err] cs] eqn:E; [done|].
    destruct (finish_call (w_key x) (w_blob x) a err (agent_of g (c_self (w_coord x)))) as [ok z] eqn:Hz.
    destruct (Nat.ltb_spec (length (f_chan (w_fan x))) (f_cap (w_fan x))); [|done]. intros [= <-].
    eapply go_op, go_ack; [done..|]. destruct (w_fan x). simpl in *. subst. by apply (fan_send_intro _ _ _ _ _ []).
  - destruct (f_called (r_fan y)) as [|[a res] cs] eqn:E; [done|].
    destruct (Nat.ltb_spec (length (f_chan (r_fan y))) (f_cap (r_fan y))); [|done]. intros [= <-].
    eapply go_op, go_result; [done..|]. destruct (r_fan y). simpl in *. subst. by apply (fan_send_intro _ _ _ _ _ []).
Qed.

Lemma turn_step e g i g' : lawful_env e → turn e g i = Some g' → config_step g g'.
Proof.
  intros He. unfold turn. destruct (g_ops g !! i) as [[r|x|y]|] eqn:Hi; [done| | |done].
  - destruct (w_reply x) eqn:Hr; [done|]. destruct (gather_turn x) eqn:E; [|done]. intros [= <-]. by eapply go_op, go_gather.
  - destruct (r_reply y) eqn:Hr; [done|]. destruct (read_turn e y) eqn:E; [|done]. intros [= <-]. by eapply go_op, go_read.
Qed.

Definition begin_at e c (cmd : Command) g (i : nat) : option config :=
  st ← node_state g (c_self c);
  '(st', o) ← begin e c st cmd;
  Some (set_op (commit g (c_self c) st') i o).

Lemma begin_at_step e c cmd key args g i g' :
  g_ops g !! i = None → Args cmd = key :: args →
  (∀ st, node_state g (c_self c) = Some st → coordinates e c key st) →
  begin_at e c cmd g i = Some g' → config_step g g'.
Proof.
  intros Hi Ea Hco. unfold begin_at. destruct (node_state g (c_self c)) as [st|] eqn:Est; [|done]. simpl.
  destruct (begin e c st cmd) as [[st' o]|] eqn:Eb; [|done]. simpl. intros [= <-]. eapply go_op, go_begin; eauto.
Qed.

(** A sequence of such steps. *)
Definition run_all (fs : list (@config S _ → option (@config S _))) g : option (@config S _) := foldl (λ m f, m ≫= f) (Some g) fs.
Definition sound (f : @config S _ → option (@config S _)) : Prop := ∀ g g', f g = Some g' → config_step g g'.

Lemma run_all_steps fs g g' : Forall sound fs → run_all fs g = Some g' → rtc config_step g g'.
Proof.
  unfold run_all. intros Hfs. revert g. induction Hfs as [|f fs Hf _ IH]; intros g; cbn [foldl]; [by intros [= ->]|].
  cbn [mbind option_bind]. destruct (f g) as [g1|] eqn:E; [intros H; eapply rtc_l; [by apply Hf|by apply IH]|].
  intros H. exfalso. clear -H. induction fs; [done|auto].
Qed.
End drive.

(** ** Properties *)

Lemma fresh_config_ok {S} `{!Store S, !StoreLaws S} (w : @net S _) : net_ok w → config_ok (mkConfig w ∅ ∅).
Proof.
  intros Hw. split_and!; [done|intros i o; simpl; by rewrite lookup_empty|]. intros a. unfold agent_of. simpl. rewrite lookup_empty.
  split; simpl; [|by intros t k b ?%elem_of_nil]. intros t k b. unfold parked. simpl. by rewrite lookup_empty.
Qed.

(** C1: a read quorum meets every write quorum, with every operation in flight at
    once. Coordinators on all nodes run SETs, DELs and GETs whose goroutines
    interleave with one another, with hint replay, read repair and anti-entropy; no
    store evicts, no tombstone is collected and no node restarts. Once a SET or DEL
    was answered with success, a GET that starts later, at any node that agrees on
    the replica set, and is answered has merged a version that includes the one
    written; if all it merged is that version or older, the client gets the value
    written, or a miss after the DEL. The replies that had not arrived when the
    write was answered may still be on their way. *)
Theorem concurrent_read_sees_write {S} `{!Store S, !StoreLaws S} (w : @net S _) (g1 g2 : @config S _) (i j : nat)
    (x : writing) (y : reading) (reply : Resp.Value) :
  net_ok w → rtc config_step (mkConfig w ∅ ∅) g1 →
  g_ops g1 !! i = Some (Writing x) → w_reply x = Some (w_done x) → g_ops g1 !! j = None →
  rtc config_step g1 g2 → g_ops g2 !! j = Some (Reading y) → r_reply y = Some reply → AsError reply = None →
  r_key y = w_key x → r_owners y = w_owners x → w_self x ∈ w_owners x → r_self y ∈ w_owners x →
  (1 <= c_w (w_coord x))%Z → (1 <= c_r (r_coord y))%Z → (c_n (w_coord x) < c_r (r_coord y) + c_w (w_coord x))%Z →
  let v := w_version x in
  covers (merged (r_rd y)) (Clk v) ∧ reply = read_reply (merged (r_rd y))
  ∧ (Forall (λ u, u = v ∨ clock_lt (Clk u) (Clk v)) (merged (r_rd y)) →
     reply = if Deleted v then BulkString None else BulkString (Some (Version.Value v))).
Proof.
  intros Hw Hs1 Hx Hrx Hj Hs2 Hy Hry Hack Hkey Hrs Hin1 Hin2 HW HR HN v.
  destruct (config_steps_ok _ _ (fresh_config_ok w Hw) Hs1) as [Hg1 _].
  destruct (config_steps_ok _ _ Hg1 Hs2) as [Hg2 _].
  pose proof (proj1 (proj2 Hg1) _ _ Hx) as Hxok. pose proof (proj1 (proj2 Hg2) _ _ Hy) as Hyok. simpl in Hxok, Hyok.
  destruct (written_holders _ _ Hxok Hin1 Hrx) as (l & Hnd & Hl & Hlen & Hholds).
  pose proof (informed_steps (Clk v) g1 g2 j y Hg1 Hj Hs2 Hy) as Hinf.
  destruct (answered_responders _ _ _ Hyok Hinf) as (k & Hndk & Hk & Hlenk & Hreply & Hcov);
    [by rewrite Hrs|by exists reply|].
  rewrite Hrs in *. pose proof (len_Owners (c_router (w_coord x)) (w_key x) (c_n (w_coord x)) (wk_ring _ _ Hxok)) as HlenO.
  fold (w_owners x) in HlenO. pose proof (len_elem_of _ _ Hin1) as Hpos.
  destruct (quorum_intersect (w_owners x) l k Hnd Hndk Hl Hk) as (a & Hal & Hak); [lia|].
  assert (covers (merged (r_rd y)) (Clk v)) as Hc by (eapply Hcov; [exact Hak|]; rewrite Hkey; by apply Hholds).
  assert (reply = read_reply (merged (r_rd y))) as -> by congruence. split_and!; [done..|]. intros HQ.
  apply read_reply_winner; [|done..]. apply (hd_antichain _ _ _ _ (reading_heard y Hyok)), (rk_local y Hyok).
Qed.

(** C4: no operation waits forever.  Whatever is in flight, every operation of
    every coordinator can run to its end by steps of its own goroutines: each makes
    its call and sends on the channel, which is never full, and the client gets a
    reply.  The loop never waits for a result that no goroutine will send. *)
Theorem operations_complete {S} `{!Store S, !StoreLaws S} (e : @env S _) (w : @net S _) (g : @config S _) (i : nat) (o : op) :
  lawful_env e → net_ok w → rtc config_step (mkConfig w ∅ ∅) g → g_ops g !! i = Some o →
  ∃ g' o', rtc (op_step i) g g' ∧ g_ops g' !! i = Some o' ∧ op_settled o' ∧ is_Some (op_reply o').
Proof.
  intros He Hw Hs Hi. destruct (config_steps_ok _ _ (fresh_config_ok w Hw) Hs) as [Hg _].
  destruct (op_settles e _ g i o He Hg Hi (Nat.lt_succ_diag_r _)) as (g' & o' & Hs' & Hi' & Ho').
  exists g', o'. split_and!; [done..|]. destruct o' as [r|x|y]; [by eexists|apply Ho'..].
Qed.

(** ** Witnesses *)

(** Two nodes, both replicas of every key, R = 2 and W = 1: a SET at node a is
    answered before its fan-out, and a GET at node b hears of it from a. *)
Definition coordinator_r2 (id : bytes) : Coordinator := mkCoordinator id router_ab 2 2 1.
Definition quiet_config : @config (MapStore lfu) MapStore_store := mkConfig two_nodes ∅ ∅.
Definition get_k : Command := mkCommand (str "GET") [str "k"].

Definition set_started : @config (MapStore lfu) MapStore_store :=
  default quiet_config (begin_at (plain_env 0) (coordinator_r2 (str "a")) set_k quiet_config 0).
Definition set_answered : @config (MapStore lfu) MapStore_store :=
  default quiet_config (turn (plain_env 0) set_started 0).
Definition get_started : @config (MapStore lfu) MapStore_store :=
  default quiet_config (begin_at (plain_env 7) (coordinator_r2 (str "b")) get_k set_answered 1).
Definition get_steps : list (@config (MapStore lfu) MapStore_store → option (@config (MapStore lfu) MapStore_store)) :=
  [λ g, call_next g 1; λ g, send_next g 1; λ g, turn (plain_env 7) g 1; λ g, turn (plain_env 7) g 1].
Definition get_answered : @config (MapStore lfu) MapStore_store := default quiet_config (run_all get_steps get_started).

Lemma plain_lawful now : (- 2 ^ 63 <=? now)%Z && (now <? 2 ^ 63)%Z = true → lawful_env (plain_env now).
Proof. intros [H1%Z.leb_le H2%Z.ltb_lt]%andb_true_iff. by apply plain_env_lawful. Qed.

(** A concrete start of an operation: its premises by computation. *)
Lemma begin_at_plain now c cmd key args (g g' : @config (MapStore lfu) MapStore_store) i :
  lawful_env (plain_env now) → g_ops g !! i = None → Args cmd = key :: args → (len (c_self c) < 2 ^ 16)%Z →
  ring_sorted (ring (c_router c)) →
  match n_nodes (g_net g) !! c_self c with
  | Some s => (counter (Frontier (siblings (Store0 := MapStore_store) s now key)) (c_self c) <? 2 ^ 64 - 1)%N
  | None => true
  end = true →
  begin_at (plain_env now) c cmd g i = Some g' → config_step g g'.
Proof.
  intros He Hi Ea Hl Hr Hc. eapply begin_at_step; [done..|]. intros st Hst. unfold node_state in Hst.
  destruct (n_nodes (g_net g) !! c_self c) as [s|] eqn:Es; [|done]. injection Hst as <-.
  split_and!; [done|done|done|done|by apply N.ltb_lt].
Qed.

Lemma set_answered_reached : rtc config_step quiet_config set_answered.
Proof.
  eapply rtc_l; [apply (begin_at_plain 0 (coordinator_r2 (str "a")) set_k (str "k") [str "v"] quiet_config set_started 0)|].
  - apply plain_lawful. reflexivity.
  - reflexivity.
  - reflexivity.
  - reflexivity.
  - apply router_ab_sorted.
  - vm_compute. reflexivity.
  - apply option_default. vm_compute. reflexivity.
  - apply rtc_once, (turn_step (plain_env 0) _ 0); [apply plain_lawful; reflexivity|].
    apply option_default. vm_compute. reflexivity.
Qed.

Lemma get_answered_reached : rtc config_step set_answered get_answered.
Proof.
  eapply rtc_l; [apply (begin_at_plain 7 (coordinator_r2 (str "b")) get_k (str "k") [] set_answered get_started 1)|].
  - apply plain_lawful. reflexivity.
  - vm_compute. reflexivity.
  - reflexivity.
  - reflexivity.
  - apply router_ab_sorted.
  - vm_compute. reflexivity.
  - apply option_default. vm_compute. reflexivity.
  - apply (run_all_steps get_steps); [|apply option_default; vm_compute; reflexivity].
    repeat constructor; intros g g'; [apply call_next_step|apply send_next_step|apply turn_step, plain_lawful; reflexivity..].
Qed.

Definition the_write (g : @config (MapStore lfu) MapStore_store) (i : nat) : writing :=
  match g_ops g !! i with
  | Some (Writing x) => x
  | _ => start_fan (coordinator_r2 []) [] [] written (Error []) []
  end.
Definition the_read (g : @config (MapStore lfu) MapStore_store) (i : nat) : reading :=
  match g_ops g !! i with
  | Some (Reading y) => y
  | _ => mkReading (coordinator_r2 []) [] 0 [] (spawn []) (mkRead 0 [] ∅) None []
  end.

Lemma concurrent_read_sees_write_witness :
  covers (merged (r_rd (the_read get_answered 1))) (Clk (w_version (the_write set_answered 0))).
Proof.
  apply (concurrent_read_sees_write two_nodes set_answered get_answered 0 1 (the_write set_answered 0)
    (the_read get_answered 1) (BulkString (Some (str "v")))).
  - apply two_nodes_ok.
  - exact set_answered_reached.
  - vm_compute. reflexivity.
  - vm_compute. reflexivity.
  - vm_compute. reflexivity.
  - exact get_answered_reached.
  - vm_compute. reflexivity.
  - vm_compute. reflexivity.
  - reflexivity.
  - vm_compute. reflexivity.
  - vm_compute. reflexivity.
  - apply (bool_decide_unpack _). vm_compute. exact Logic.I.
  - apply (bool_decide_unpack _). vm_compute. exact Logic.I.
  - vm_compute. discriminate.
  - vm_compute. discriminate.
  - vm_compute. reflexivity.
Defined.

Lemma operations_complete_witness :
  ∃ g' o', rtc (op_step 0) set_answered g' ∧ g_ops g' !! 0%nat = Some o' ∧ op_settled o' ∧ is_Some (op_reply o').
Proof.
  apply (operations_complete (plain_env 0) two_nodes set_answered 0 (Writing (the_write set_answered 0))).
  - apply plain_lawful. reflexivity.
  - apply two_nodes_ok.
  - exact set_answered_reached.
  - vm_compute. reflexivity.
Defined.

(** ** An older hint replaces a newer one *)

(** Node b cannot be reached.  Two SETs of k in a row at node a, both answered;
    the goroutine of the second parks its hint before that of the first. *)
Definition b_down : @net (MapStore lfu) MapStore_store :=
  mkNet {[str "a" := empty_store; str "b" := empty_store]} (λ _, false) (λ _, Unreached) (λ _, plain_henv) 0 NewPeer.
Definition set_k2 : Command := mkCommand (str "SET") [str "k"; str "v2"].

Definition first_set : @config (MapStore lfu) MapStore_store :=
  default quiet_config (begin_at (plain_env 0) (coordinator_r2 (str "a")) set_k (mkConfig b_down ∅ ∅) 0).
Definition second_set : @config (MapStore lfu) MapStore_store :=
  default quiet_config (begin_at (plain_env 1) (coordinator_r2 (str "a")) set_k2 first_set 1).
Definition crossing : list (@config (MapStore lfu) MapStore_store → option (@config (MapStore lfu) MapStore_store)) :=
  [λ g, turn (plain_env 1) g 0; λ g, turn (plain_env 1) g 1; λ g, call_next g 0; λ g, call_next g 1;
   λ g, send_next g 1; λ g, send_next g 0].
Definition both_parked : @config (MapStore lfu) MapStore_store := default quiet_config (run_all crossing second_set).

(** Hints are keyed by replica and key, and the last one parked stays, not the
    newest write: the hint left for b is the first SET's, although the second was
    acknowledged and supersedes it, and b holds neither. *)
Lemma older_hint_replaces_newer :
  let x1 := the_write both_parked 0 in
  let x2 := the_write both_parked 1 in
  rtc config_step (mkConfig b_down ∅ ∅) both_parked
  ∧ w_reply x1 = Some (SimpleString (str "OK")) ∧ w_reply x2 = Some (SimpleString (str "OK"))
  ∧ Compare (Clk (w_version x1)) (Clk (w_version x2)) = Before
  ∧ parked (a_hints (agent_of both_parked (str "a"))) (str "b") (str "k") = Some (w_blob x1)
  ∧ ((λ s, siblings (Store0 := MapStore_store) s 2 (str "k")) <$> n_nodes (g_net both_parked) !! str "b") = Some [].
Proof.
  intros x1 x2. split.
  - eapply rtc_l; [apply (begin_at_plain 0 (coordinator_r2 (str "a")) set_k (str "k") [str "v"] _ first_set 0)|].
    + apply plain_lawful. reflexivity.
    + reflexivity.
    + reflexivity.
    + reflexivity.
    + apply router_ab_sorted.
    + vm_compute. reflexivity.
    + apply option_default. vm_compute. reflexivity.
    + eapply rtc_l; [apply (begin_at_plain 1 (coordinator_r2 (str "a")) set_k2 (str "k") [str "v2"] _ second_set 1)|].
      * apply plain_lawful. reflexivity.
      * vm_compute. reflexivity.
      * reflexivity.
      * reflexivity.
      * apply router_ab_sorted.
      * vm_compute. reflexivity.
      * apply option_default. vm_compute. reflexivity.
      * apply (run_all_steps crossing); [|apply option_default; vm_compute; reflexivity].
        repeat constructor; intros g g';
          [apply turn_step, plain_lawful; reflexivity..|apply call_next_step|apply call_next_step
          |apply send_next_step|apply send_next_step].
  - split_and!; vm_compute; reflexivity.
Qed.
