(* ===== verification/Durable.v ===== *)
(** * What becomes of a write with everything in flight (coordinator.go, handoff.go)

    Continues Concurrent.v: what an answered write leaves on the replicas and in the
    hint store of its coordinator, when other operations, the replayers and repairs
    run at the same time. *)

From S2P Require Import Prelude Telemetry Binenc Resp Vclock Sha256 Merkle Version Sketch Policy MapStore ShardedStore.
From S2P Require Import Membership Ring Router Replica AntiEntropy Handoff Coordinator Handler Server Peer Cluster Concurrent.

(** ** The invariant of hints *)

Section durable.
Context {S : Type} `{!Store S, !StoreLaws S}.
Implicit Types (g : @config S _) (w : @net S _) (x : writing).



























End durable.

(** ** Properties *)


(** ** Witness *)





