(* ===== verification/Serial.v ===== *)
(** * The coordinator alone (internal/server/coordinator.go)

    [Coordinator.v] gives each operation as a function: its calls in the order in
    which their results arrive, its reply, and the work it leaves behind.
    [Concurrent.v] gives it as goroutines.  Here the function is shown to be what
    its goroutines can do with no step of anyone else in between: the same reply, the same
    stores, hints and telemetry, when the client is answered and when the
    background work is over.  What is proved of the functions is therefore true
    of those runs, and what is proved of all runs covers the functions. *)

From S2P Require Import Prelude Telemetry Binenc Resp Vclock Sha256 Merkle Version Sketch Policy MapStore ShardedStore.
From S2P Require Import Membership Ring Router Replica AntiEntropy Handoff Coordinator Handler Server Peer Cluster Concurrent.

(** ** Calls leave the caller's node alone *)

(** A change [F] of the network that its calls to [addr] do not see. *)
Section frame.
Context {W : Type} `{!Transport W}.
Variables (F : W → W) (addr : bytes) (args : list bytes).
Hypothesis F_dial : ∀ w, dial (F w) addr = (F (dial w addr).1, (dial w addr).2).
Hypothesis F_rtt : ∀ w c, c.1 = addr → rtt (F w) c args = (F (rtt w c args).1, (rtt w c args).2).
Hypothesis F_hangup : ∀ w c, hangup (F w) c = F (hangup w c).
Hypothesis dial_addr : ∀ w w' c, dial w addr = (w', inr c) → c.1 = addr.

Lemma put_back_frame p w c : put_back p (F w) addr c = ((put_back p w addr c).1, F (put_back p w addr c).2).
Proof. unfold put_back. destruct (put p addr c) as [p' []]; simpl; by rewrite ?F_hangup. Qed.

Lemma do_fresh_frame p w :
  do_fresh p (F w) addr args = let '(p', w', r) := do_fresh p w addr args in (p', F w', r).
Proof.
  unfold do_fresh. rewrite F_dial. destruct (dial w addr) as [w1 [err|c]] eqn:E; simpl; [done|].
  rewrite F_rtt by by eapply dial_addr. destruct (rtt w1 c args) as [w2 [err|reply]]; simpl; [by rewrite F_hangup|].
  rewrite put_back_frame. by destruct (put_back p w2 addr c).
Qed.

Lemma do_call_frame p w :
  pool_ok p → do_call p (F w) addr args = let '(p', w', r) := do_call p w addr args in (p', F w', r).
Proof.
  intros Hp. unfold do_call. destruct (getIdle p addr) as [p1 [c|]] eqn:Eg;
    destruct (getIdle_pool_ok _ _ _ _ Hp Eg) as [_ Hc]; [|apply do_fresh_frame].
  rewrite F_rtt by by apply Hc. destruct (rtt w c args) as [w1 [err|reply]]; simpl.
  - rewrite F_hangup. apply do_fresh_frame.
  - rewrite put_back_frame. by destruct (put_back p1 w1 addr c).
Qed.
End frame.

Section serial.
Context {S : Type} `{!Store S, !StoreLaws S}.
Implicit Types (w : @net S _) (st : @cstate S (@net S _)) (g : @config S _).

Definition patch (a : bytes) (s : S) w : @net S _ := with_nodes w (<[a := s]> (n_nodes w)).

Lemma net_call_frame a (s : S) addr args p w :
  pool_ok p → addr ≠ a →
  do_call p (patch a s w) addr args = let '(p', w', r) := do_call p w addr args in (p', patch a s w', r).
Proof.
  intros Hp Ha. apply (do_call_frame (patch a s)); try done.
  - intros w1. simpl. by destruct (n_dial w1 (n_calls w1)).
  - intros w1 c Hc. simpl. unfold net_rtt. destruct args as [|verb args1]; [done|].
    assert (execute (patch a s w1) c.1 (mkCommand verb args1)
      = (patch a s (execute w1 c.1 (mkCommand verb args1)).1, (execute w1 c.1 (mkCommand verb args1)).2)) as He.
    { unfold execute. simpl. rewrite lookup_insert_ne by congruence. destruct (n_nodes w1 !! c.1) as [s1|]; [|done].
      destruct (serve _ _ _) as [[reply s2]|]; [|done]. simpl. unfold patch, tick, with_nodes. simpl.
      by rewrite insert_insert_ne by congruence. }
    simpl. destruct (n_attempt w1 (n_calls w1)); [done|by rewrite He|done].
  - intros w1 w2 c. simpl. destruct (n_dial w1 (n_calls w1)); [|done]. by intros [= <- <-].
Qed.

Lemma Replicate_frame a (s : S) addr verb args w :
  pool_ok (n_peer w) → addr ≠ a →
  Replicate (patch a s w) addr verb args = (patch a s (Replicate w addr verb args).1, (Replicate w addr verb args).2).
Proof.
  intros Hp Ha. simpl. unfold through, peer_Replicate. simpl. rewrite net_call_frame by done.
  by destruct (do_call (n_peer w) w addr (verb :: args)) as [[p w'] r].
Qed.

Lemma PeerGet_frame a (s : S) addr key w :
  pool_ok (n_peer w) → addr ≠ a → PeerGet (patch a s w) addr key = (patch a s (PeerGet w addr key).1, (PeerGet w addr key).2).
Proof.
  intros Hp Ha. simpl. unfold through, peer_Get. simpl. rewrite net_call_frame by done.
  by destruct (do_call (n_peer w) w addr [rget; key]) as [[p w'] r].
Qed.

Lemma net_call_pool addr args p w : pool_ok p → pool_ok (do_call p w addr args).1.1.
Proof.
  intros Hp. destruct (do_call p w addr args) as [[p' w'] r] eqn:E.
  destruct (do_call_rule addr args (λ _ : @net S _, True) (λ _ _, True)) with (p := p) (w := w) (p' := p') (w' := w') (r := r)
    as [? _]; try done.
  intros w1 w2 r1 _. simpl. destruct (n_dial w1 (n_calls w1)); intros [= <- <-]; (split; [done|]); [|done].
  by intros c [= <-].
Qed.

Lemma Replicate_pool addr verb args w : pool_ok (n_peer w) → pool_ok (n_peer (Replicate w addr verb args).1).
Proof.
  intros Hp. simpl. unfold through, peer_Replicate. pose proof (net_call_pool addr (verb :: args) _ w Hp) as H.
  by destruct (do_call (n_peer w) w addr (verb :: args)) as [[p w'] r].
Qed.

Lemma PeerGet_pool addr key w : pool_ok (n_peer w) → pool_ok (n_peer (PeerGet w addr key).1).
Proof.
  intros Hp. simpl. unfold through, peer_Get. pose proof (net_call_pool addr [rget; key] _ w Hp) as H.
  by destruct (do_call (n_peer w) w addr [rget; key]) as [[p w'] r].
Qed.

(** ** A state of the functions and a configuration *)

(** The stores of all nodes, the hints and the telemetry of node [a] are those of
    [st], whose own store is that of [a]. *)
Record mirrors g (a : bytes) st : Prop := {
  rep_net : g_net g = absorb a st;
  rep_hints : a_hints (agent_of g a) = c_hints st;
  rep_events : a_events (agent_of g a) = c_events st;
  rep_pool : pool_ok (n_peer (c_net st))
}.

Lemma mirrors_ops g g' a st :
  mirrors g a st → g_net g' = g_net g → g_agents g' = g_agents g → mirrors g' a st.
Proof. intros [H1 H2 H3 H4] En Ea. unfold agent_of in *. split; unfold agent_of; rewrite ?En, ?Ea; done. Qed.

Lemma mirrors_commit g a st i o : pool_ok (n_peer (c_net st)) → mirrors (set_op (commit g a st) i o) a st.
Proof. intros Hp. split; try done; unfold agent_of; simpl; by rewrite lookup_insert_eq. Qed.

Lemma mirrors_node_state g a st :
  mirrors g a st → ∃ st1, node_state g a = Some st1 ∧ c_store st1 = c_store st ∧ c_net st1 = patch a (c_store st) (c_net st)
    ∧ c_hints st1 = c_hints st ∧ c_events st1 = c_events st.
Proof.
  intros [H1 H2 H3 H4]. unfold node_state. rewrite H1. unfold absorb. simpl. rewrite lookup_insert_eq. simpl.
  eexists. split; [done|]. by rewrite H2, H3.
Qed.

Lemma absorb_patch a st : absorb a st = patch a (c_store st) (c_net st).
Proof. done. Qed.

(** ** Writes *)

Lemma elem_of_split_perm (a : bytes) (l k : list bytes) : l ≡ₚ a :: k → ∃ l1 l2, l = l1 ++ a :: l2 ∧ l1 ++ l2 ≡ₚ k.
Proof.
  intros Hp. assert (a ∈ l) as (l1 & l2 & ->)%list_elem_of_split by (rewrite Hp; set_solver).
  exists l1, l2. split; [done|]. rewrite <-Permutation_middle in Hp. by apply Permutation_cons_inv in Hp.
Qed.

(** One goroutine of [gather] from its call to its send. *)
Lemma write_round g i x st a k chan n got todo cap :
  mirrors g (w_self x) st → g_ops g !! i = Some (Writing x) → w_fan x = mkFan cap todo [] chan n got →
  todo ≡ₚ a :: k → a ≠ w_self x → (length chan < cap)%nat →
  let '(ok, st') := replicate_op (w_key x) (w_blob x) a st in
  ∃ g' todo', rtc (op_step i) g g' ∧ todo' ≡ₚ k ∧ mirrors g' (w_self x) st'
    ∧ g_ops g' !! i = Some (with_wfan x (mkFan cap todo' [] (chan ++ [(a, ok)]) n got)).
Proof.
  intros Hr Hi Hf Hp Ha Hroom. destruct (replicate_op (w_key x) (w_blob x) a st) as [ok st'] eqn:E.
  destruct (elem_of_split_perm _ _ _ Hp) as (l1 & l2 & -> & Hk). pose proof Hr as [H1 H2 H3 H4].
  pose proof (Replicate_frame (w_self x) (c_store st) a rset [w_key x; w_blob x] (c_net st) H4 Ha) as HF.
  pose proof (Replicate_pool a rset [w_key x; w_blob x] (c_net st) H4) as Hpool.
  unfold replicate_op in E. destruct (Replicate (c_net st) a rset [w_key x; w_blob x]) as [w err] eqn:HR. cbn [fst snd] in *.
  set (f1 := mkFan cap (l1 ++ l2) [(a, err)] chan n got).
  set (g1 := set_op (set_net g (patch (w_self x) (c_store st) w)) i (with_wfan x f1)).
  assert (op_step i g g1) as S1.
  { eapply go_replicate; [done| |rewrite Hf; apply fan_call_intro]. rewrite H1. exact HF. }
  assert (mirrors g1 (w_self x) (with_net st w)) as Hr1 by (by split).
  destruct (finish_call (w_key x) (w_blob x) a err (agent_of g1 (w_self x))) as [ok' z] eqn:Hz.
  assert (ok' = ok ∧ c_net st' = w ∧ c_store st' = c_store st ∧ a_hints z = c_hints st' ∧ a_events z = c_events st')
    as (-> & E1 & E2 & E3 & E4).
  { destruct Hr1 as [_ R2 R3 _]. unfold finish_call in Hz. unfold call_done in E.
    destruct err; simplify_eq/=; by rewrite ?R2, ?R3. }
  set (f2 := mkFan (R := option bytes) cap (l1 ++ l2) [] (chan ++ [(a, ok)]) n got). set (g2 := set_op (set_agent g1 (w_self x) z) i (with_wfan x f2)).
  exists g2, (l1 ++ l2). split_and!; [|done| |by apply lookup_insert_eq].
  - eapply rtc_l; [exact S1|]. apply rtc_once.
    apply (go_ack i g1 (mkWriting (w_coord x) (w_key x) (w_blob x) (w_version x) (w_need x) (w_done x) (w_name x) f1
      (w_acks x) (w_reply x)) a err ok z f2); [by apply lookup_insert_eq|exact Hz|by apply (fan_send_intro _ _ _ _ _ [])].
  - split; [|unfold agent_of; simpl; rewrite lookup_insert_eq; simpl..|by rewrite E1]; try done.
    unfold g2, absorb. simpl. by rewrite E1, E2.
Qed.

(** The turn that answers the client. *)
Lemma serial_reply g i x st :
  mirrors g (w_self x) st → g_ops g !! i = Some (Writing x) → w_reply x = None →
  (w_need x <=? w_acks x)%Z || (f_left (w_fan x) =? 0)%nat = true →
  ∃ g' x', op_step i g g' ∧ mirrors g' (w_self x) st ∧ g_ops g' !! i = Some (Writing x')
    ∧ w_reply x' = Some (if (w_need x <=? w_acks x)%Z then w_done x else quorumError (w_name x) (w_acks x) (w_need x))
    ∧ w_fan x' = w_fan x ∧ w_coord x' = w_coord x ∧ w_key x' = w_key x ∧ w_blob x' = w_blob x.
Proof.
  intros Hr Hi Hn E. destruct (gather_turn x) as [x'|] eqn:Et; unfold gather_turn in Et; rewrite E in Et; [|done].
  exists (set_op g i (Writing x')), x'. split_and!; [|by eapply mirrors_ops|by apply lookup_insert_eq|by simplify_eq..].
  eapply go_gather; [done..|]. unfold gather_turn. by rewrite E.
Qed.

(** The loop of [gather]. *)
Lemma serial_gather l g i x st todo got acks st' rest cap :
  mirrors g (w_self x) st → g_ops g !! i = Some (Writing x) → w_reply x = None →
  w_fan x = mkFan cap todo [] [] (length l) got → todo ≡ₚ l → (length l <= cap)%nat → w_self x ∉ l →
  gather_loop (replicate_op (w_key x) (w_blob x)) (w_need x) (w_acks x) l st = (acks, st', rest) →
  ∃ g' x' todo' n' got', rtc (op_step i) g g' ∧ mirrors g' (w_self x) st' ∧ g_ops g' !! i = Some (Writing x')
    ∧ w_reply x' = Some (if (w_need x <=? acks)%Z then w_done x else quorumError (w_name x) acks (w_need x))
    ∧ w_fan x' = mkFan cap todo' [] [] n' got' ∧ todo' ≡ₚ rest
    ∧ w_coord x' = w_coord x ∧ w_key x' = w_key x ∧ w_blob x' = w_blob x.
Proof.
  revert g x st todo got. induction l as [|a l IH]; intros g x st todo got Hr Hi Hn Hf Hp Hcap Hs E; cbn [gather_loop] in E.
  - injection E as <- <- <-. destruct (serial_reply g i x st Hr Hi Hn) as (g' & x' & S1 & Hr' & Hi' & Hre & Hf' & Hrest).
    { rewrite Hf. by rewrite orb_true_r. }
    exists g', x', todo, 0%nat, got. rewrite Hf', Hf. split_and!; try done; [by apply rtc_once|apply Hrest..].
  - destruct (w_need x <=? w_acks x)%Z eqn:Hq.
    { injection E as <- <- <-. destruct (serial_reply g i x st Hr Hi Hn) as (g' & x' & S1 & Hr' & Hi' & Hre & Hf' & Hrest).
      { by rewrite Hq. }
      exists g', x', todo, (length (a :: l)), got. rewrite Hf', Hf.
      split_and!; try done; [by apply rtc_once|apply Hrest..]. }
    pose proof (write_round g i x st a l [] _ got todo cap Hr Hi Hf Hp ltac:(set_solver) ltac:(simpl in *; lia)) as Hround.
    destruct (replicate_op (w_key x) (w_blob x) a st) as [ok st1]. destruct Hround as (g1 & todo1 & S1 & Hp1 & Hr1 & Hi1).
    set (x2 := mkWriting (w_coord x) (w_key x) (w_blob x) (w_version x) (w_need x) (w_done x) (w_name x)
      (mkFan cap todo1 [] [] (length l) (got ++ [(a, ok)])) (if ok then w_acks x + 1 else w_acks x)%Z None).
    assert (op_step i g1 (set_op g1 i (Writing x2))) as S2.
    { eapply go_gather; [exact Hi1|done|]. unfold gather_turn. simpl. by rewrite Hq. }
    destruct (IH (set_op g1 i (Writing x2)) x2 st1 todo1 (got ++ [(a, ok)])) as
      (g' & x' & todo' & n' & got' & S3 & Hr' & Hi' & Hreply & Hf' & Hp' & Hrest); try done.
    + by eapply mirrors_ops.
    + by apply lookup_insert_eq.
    + simpl in Hcap. lia.
    + set_solver.
    + exists g', x', todo', n', got'. split_and!; try done; [|apply Hrest..]. etrans; [exact S1|]. by eapply rtc_l.
Qed.

(** The goroutines it did not wait for. *)
Lemma serial_drain l g i x st todo chan n got cap :
  mirrors g (w_self x) st → g_ops g !! i = Some (Writing x) → w_fan x = mkFan cap todo [] chan n got → todo ≡ₚ l →
  (length l + length chan <= cap)%nat → w_self x ∉ l →
  ∃ g', rtc (op_step i) g g' ∧ mirrors g' (w_self x) (drain (replicate_op (w_key x) (w_blob x)) l st).
Proof.
  revert g x st todo chan. induction l as [|a l IH]; intros g x st todo chan Hr Hi Hf Hp Hcap Hs; [by exists g|].
  pose proof (write_round g i x st a l chan _ got todo cap Hr Hi Hf Hp ltac:(set_solver) ltac:(simpl in *; lia)) as Hround. unfold drain. simpl.
  destruct (replicate_op (w_key x) (w_blob x) a st) as [ok st1]. destruct Hround as (g1 & todo1 & S1 & Hp1 & Hr1 & Hi1).
  destruct (IH g1 (mkWriting (w_coord x) (w_key x) (w_blob x) (w_version x) (w_need x) (w_done x) (w_name x)
    (mkFan cap todo1 [] (chan ++ [(a, ok)]) n got) (w_acks x) (w_reply x)) st1 todo1 (chan ++ [(a, ok)])) as (g' & S2 & Hr');
    [done..|rewrite length_app; simpl in *; lia|set_solver|]. exists g'. split; [by etrans|done].
Qed.

(** ** Reads *)

(** One goroutine of [read] from its call to its send. *)
Lemma read_round g i y st a k chan n got todo cap :
  mirrors g (r_self y) st → g_ops g !! i = Some (Reading y) → r_fan y = mkFan cap todo [] chan n got →
  todo ≡ₚ a :: k → a ≠ r_self y → (length chan < cap)%nat →
  let '(w, res) := PeerGet (c_net st) a (r_key y) in
  ∃ g' todo', rtc (op_step i) g g' ∧ todo' ≡ₚ k ∧ mirrors g' (r_self y) (with_net st w)
    ∧ g_ops g' !! i = Some (with_rfan y (mkFan cap todo' [] (chan ++ [(a, res)]) n got)).
Proof.
  intros Hr Hi Hf Hp Ha Hroom. destruct (elem_of_split_perm _ _ _ Hp) as (l1 & l2 & -> & Hk). pose proof Hr as [H1 H2 H3 H4].
  pose proof (PeerGet_frame (r_self y) (c_store st) a (r_key y) (c_net st) H4 Ha) as HF.
  pose proof (PeerGet_pool a (r_key y) (c_net st) H4) as Hpool.
  destruct (PeerGet (c_net st) a (r_key y)) as [w res] eqn:HG. cbn [fst snd] in *.
  set (f1 := mkFan cap (l1 ++ l2) [(a, res)] chan n got).
  set (f2 := mkFan (R := bytes + option bytes) cap (l1 ++ l2) [] (chan ++ [(a, res)]) n got).
  set (g1 := set_op (set_net g (patch (r_self y) (c_store st) w)) i (with_rfan y f1)).
  exists (set_op g1 i (with_rfan y f2)), (l1 ++ l2). split_and!; [|done|by split|by apply lookup_insert_eq].
  eapply rtc_l; [|apply rtc_once].
  - eapply go_get; [exact Hi| |rewrite Hf; apply fan_call_intro]. rewrite H1. exact HF.
  - apply (go_result i g1 (mkReading (r_coord y) (r_key y) (r_need y) (r_local y) f1 (r_rd y) (r_reply y) (r_repairs y))
      a res f2); [by apply lookup_insert_eq|by apply (fan_send_intro _ _ _ _ _ [])].
Qed.

(** What [read] answers, and what its read repair has to do. *)
Definition read_answer (need : Z) (rd : readState) : Resp.Value :=
  if (responses rd <? need)%Z then quorumError (str "read") (responses rd) need else read_reply (merged rd).
Definition read_tasks (e : @env S _) (c : Coordinator) (need : Z) (rd : readState) : list repair_task :=
  if negb (responses rd <? need)%Z && (1 <? responses rd)%Z then repair_tasks e c (merged rd) (responders rd) else [].

Lemma serial_answer (e : @env S _) g i y st :
  lawful_env e → mirrors g (r_self y) st → g_ops g !! i = Some (Reading y) → r_reply y = None →
  (r_need y <=? responses (r_rd y))%Z || (f_left (r_fan y) =? 0)%nat = true →
  ∃ g' y', op_step i g g' ∧ mirrors g' (r_self y) st ∧ g_ops g' !! i = Some (Reading y')
    ∧ r_reply y' = Some (read_answer (r_need y) (r_rd y)) ∧ r_repairs y' = read_tasks e (r_coord y) (r_need y) (r_rd y)
    ∧ r_fan y' = r_fan y ∧ r_coord y' = r_coord y ∧ r_key y' = r_key y ∧ r_rd y' = r_rd y.
Proof.
  intros He Hr Hi Hn E. destruct (read_turn e y) as [y'|] eqn:Et; unfold read_turn in Et; rewrite E in Et; [|done].
  exists (set_op g i (Reading y')), y'. injection Et as <-.
  split_and!; [|by eapply mirrors_ops|by apply lookup_insert_eq| |done..].
  - eapply go_read; [done..|]. unfold read_turn. by rewrite E.
  - unfold read_answer. simpl. by destruct (responses (r_rd y) <? r_need y)%Z.
Qed.

(** The loop of [read]. *)
Lemma serial_read_loop (e : @env S _) l g i y st todo got w rd rest cap :
  lawful_env e → mirrors g (r_self y) st → g_ops g !! i = Some (Reading y) → r_reply y = None →
  r_fan y = mkFan cap todo [] [] (length l) got → todo ≡ₚ l → (length l <= cap)%nat → r_self y ∉ l →
  read_loop (r_key y) (r_need y) l (c_net st) (r_rd y) = (w, rd, rest) →
  ∃ g' y' todo' n' got', rtc (op_step i) g g' ∧ mirrors g' (r_self y) (with_net st w) ∧ g_ops g' !! i = Some (Reading y')
    ∧ r_reply y' = Some (read_answer (r_need y) rd) ∧ r_repairs y' = read_tasks e (r_coord y) (r_need y) rd
    ∧ r_fan y' = mkFan cap todo' [] [] n' got' ∧ todo' ≡ₚ rest
    ∧ r_coord y' = r_coord y ∧ r_key y' = r_key y ∧ r_rd y' = rd.
Proof.
  intros He. revert g y st todo got. induction l as [|a l IH]; intros g y st todo got Hr Hi Hn Hf Hp Hcap Hs E; cbn [read_loop] in E.
  - injection E as <- <- <-. destruct (serial_answer e g i y st He Hr Hi Hn) as (g' & y' & S1 & Hr' & Hi' & Hre & Ht & Hf' & Hrest).
    { rewrite Hf. by rewrite orb_true_r. }
    exists g', y', todo, 0%nat, got. rewrite Hf', Hf. split_and!; try done; [by apply rtc_once|by destruct st|apply Hrest..].
  - destruct (r_need y <=? responses (r_rd y))%Z eqn:Hq.
    { injection E as <- <- <-. destruct (serial_answer e g i y st He Hr Hi Hn) as (g' & y' & S1 & Hr' & Hi' & Hre & Ht & Hf' & Hrest).
      { by rewrite Hq. }
      exists g', y', todo, (length (a :: l)), got. rewrite Hf', Hf.
      split_and!; try done; [by apply rtc_once|by destruct st|apply Hrest..]. }
    pose proof (read_round g i y st a l [] _ got todo cap Hr Hi Hf Hp ltac:(set_solver) ltac:(simpl in *; lia)) as Hround.
    destruct (PeerGet (c_net st) a (r_key y)) as [w1 res]. destruct Hround as (g1 & todo1 & S1 & Hp1 & Hr1 & Hi1).
    set (y2 := mkReading (r_coord y) (r_key y) (r_need y) (r_local y)
      (mkFan cap todo1 [] [] (length l) (got ++ [(a, res)])) (receive_result (r_rd y) a res) None []).
    assert (op_step i g1 (set_op g1 i (Reading y2))) as S2.
    { eapply (go_read i g1 e); [exact Hi1|done|done|]. unfold read_turn. simpl. by rewrite Hq. }
    destruct (IH (set_op g1 i (Reading y2)) y2 (with_net st w1) todo1 (got ++ [(a, res)])) as
      (g' & y' & todo' & n' & got' & S3 & Hr' & Hi' & Hrest); try done.
    + by eapply mirrors_ops.
    + by apply lookup_insert_eq.
    + simpl in Hcap. lia.
    + set_solver.
    + exists g', y', todo', n', got'. split_and!; try done; [|apply Hrest..]. etrans; [exact S1|]. by eapply rtc_l.
Qed.

(** The reads it did not wait for. *)
Lemma serial_late l g i y st todo chan n got cap :
  mirrors g (r_self y) st → g_ops g !! i = Some (Reading y) → r_fan y = mkFan cap todo [] chan n got → todo ≡ₚ l →
  (length l + length chan <= cap)%nat → r_self y ∉ l →
  ∃ g', rtc (op_step i) g g'
    ∧ mirrors g' (r_self y) (foldl (λ st addr, with_net st (PeerGet (c_net st) addr (r_key y)).1) st l).
Proof.
  revert g y st todo chan. induction l as [|a l IH]; intros g y st todo chan Hr Hi Hf Hp Hcap Hs; [by exists g|].
  pose proof (read_round g i y st a l chan _ got todo cap Hr Hi Hf Hp ltac:(set_solver) ltac:(simpl in *; lia)) as Hround. cbn [foldl].
  destruct (PeerGet (c_net st) a (r_key y)) as [w res]. destruct Hround as (g1 & todo1 & S1 & Hp1 & Hr1 & Hi1).
  destruct (IH g1 (mkReading (r_coord y) (r_key y) (r_need y) (r_local y) (mkFan cap todo1 [] (chan ++ [(a, res)]) n got)
    (r_rd y) (r_reply y) (r_repairs y)) (with_net st w) todo1 (chan ++ [(a, res)])) as (g' & S2 & Hr');
    [done..|rewrite length_app; simpl in *; lia|set_solver|]. exists g'. split; [by etrans|done].
Qed.

(** ** Read repair *)

Lemma patch_patch a (s s' : S) w : patch a s (patch a s' w) = patch a s w.
Proof. unfold patch, with_nodes. simpl. by rewrite insert_insert_eq. Qed.

(** A task of read repair on the network with the node's own store in it. *)
Lemma run_repair_frame (e : @env S _) key merged a st st1 t :
  pool_ok (n_peer (c_net st)) → (∀ b blob, t = RepairRemote b blob → b ≠ a) →
  c_store st1 = c_store st → c_net st1 = patch a (c_store st) (c_net st) → c_hints st1 = c_hints st →
  c_events st1 = c_events st →
  let st' := run_repair e key merged st t in
  let st1' := run_repair e key merged st1 t in
  absorb a st1' = absorb a st' ∧ c_hints st1' = c_hints st' ∧ c_events st1' = c_events st'
  ∧ pool_ok (n_peer (c_net st')).
Proof.
  intros Hp Ht Es En Eh Ee. cbv zeta. rewrite !absorb_patch. destruct t as [| |b blob]; simpl.
  - rewrite En, Es, Eh, Ee. split_and!; try done. apply patch_patch.
  - rewrite Es. destruct (sUpdateReplica _ _ _ _ _) as [[s r] u]. simpl. rewrite En. split_and!; try done. apply patch_patch.
  - rewrite En. pose proof (Replicate_frame a (c_store st) b rset [key; blob] (c_net st) Hp (Ht b blob eq_refl)) as HF.
    simpl in HF. rewrite HF. simpl. rewrite Es. split_and!; try done; [apply patch_patch|].
    by apply (Replicate_pool b rset [key; blob]).
Qed.

Lemma serial_repairs (e : @env S _) ts g i y st :
  lawful_env e → mirrors g (r_self y) st → g_ops g !! i = Some (Reading y) → r_repairs y = ts →
  (∀ b blob, RepairRemote b blob ∈ ts → b ≠ r_self y) →
  ∃ g' y', rtc (op_step i) g g' ∧ g_ops g' !! i = Some (Reading y')
    ∧ mirrors g' (r_self y) (foldl (run_repair e (r_key y) (merged (r_rd y))) st ts)
    ∧ r_fan y' = r_fan y ∧ r_coord y' = r_coord y ∧ r_key y' = r_key y.
Proof.
  intros He. revert g y st. induction ts as [|t ts IH]; intros g y st Hr Hi Ht Hne; [by exists g, y|]. cbn [foldl].
  destruct (mirrors_node_state _ _ _ Hr) as (st1 & Hst1 & Es & En & Eh & Ee).
  destruct (run_repair_frame e (r_key y) (merged (r_rd y)) (r_self y) st st1 t) as (F1 & F2 & F3 & F4); try done.
  { apply Hr. }
  { intros b blob ->. apply (Hne b blob). set_solver. }
  set (g1 := set_op (commit g (r_self y) (run_repair e (r_key y) (merged (r_rd y)) st1 t)) i (with_repairs y ts)).
  assert (op_step i g g1) as S1 by (by eapply go_repair).
  destruct (IH g1 (mkReading (r_coord y) (r_key y) (r_need y) (r_local y) (r_fan y) (r_rd y) (r_reply y) ts)
    (run_repair e (r_key y) (merged (r_rd y)) st t)) as (g' & y' & S2 & Hi' & Hr' & Hrest); [|by apply lookup_insert_eq|done| |].
  - split; [done|unfold agent_of, g1; simpl; rewrite lookup_insert_eq; simpl..|done]; done.
  - intros b blob Hb. apply (Hne b blob). set_solver.
  - exists g', y'. split_and!; [by eapply rtc_l|done|done|apply Hrest..].
Qed.

Lemma repair_tasks_remote (e : @env S _) c merged responders b blob :
  RepairRemote b blob ∈ repair_tasks e c merged responders → b ≠ c_self c.
Proof.
  unfold repair_tasks. rewrite list_elem_of_In, in_concat. setoid_rewrite <-list_elem_of_In.
  intros (l & (i & [addr set] & -> & _)%elem_of_lookup_imap & Hl).
  destruct (EqualVersions set merged); [by apply elem_of_nil in Hl|].
  apply elem_of_cons in Hl as [?|Hl]; [done|]. case_bool_decide; [by apply list_elem_of_singleton in Hl|].
  by apply elem_of_lookup_imap in Hl as (j & v & [= -> ->] & _).
Qed.

(** ** Whole operations *)

(** Operation [i] of node [a] runs alone from [g] to the outcome [o]: every step is
    one of its own goroutines ([op_step i]), and they reach a configuration where the
    client has the reply and the state is [o]'s, then one where the work left behind
    is done. *)
Definition runs_to g (a : bytes) (i : nat) (o : @outcome S (@net S _)) : Prop :=
  ∃ g1 g2 op1, rtc (op_step i) g g1 ∧ g_ops g1 !! i = Some op1 ∧ op_reply op1 = Some (o_reply o)
    ∧ mirrors g1 a (o_state o) ∧ rtc (op_step i) g1 g2 ∧ mirrors g2 a (o_background o (o_state o)).

Lemma runs_to_step g g' a i o : op_step i g g' → runs_to g' a i o → runs_to g a i o.
Proof. intros Hs (g1 & g2 & op1 & S1 & H). exists g1, g2, op1. split; [by eapply rtc_l|done]. Qed.

Lemma not_a_peer (e : @env S _) rs a : lawful_env e → a ∉ e_arrive e (peersExcept rs a).
Proof. intros He. rewrite (le_arrive e He), elem_of_peersExcept. naive_solver. Qed.

Lemma gather_loop_rest {T} (op : bytes → T → bool * T) need acks l s acks' s' rest :
  gather_loop op need acks l s = (acks', s', rest) → sublist rest l.
Proof.
  revert acks s. induction l as [|a l IH]; intros acks s H; simpl in H; [by simplify_eq|].
  destruct (need <=? acks)%Z; [by simplify_eq|]. destruct (op a s) as [ok s1]. apply sublist_cons. by eapply IH.
Qed.

Lemma read_loop_rest key need l w rd w' rd' rest : read_loop key need l w rd = (w', rd', rest) → sublist rest l.
Proof.
  revert w rd. induction l as [|a l IH]; intros w rd H; simpl in H; [by simplify_eq|].
  destruct (need <=? responses rd)%Z; [by simplify_eq|].
  destruct (through _ w) as [w1 res]. apply sublist_cons. by eapply IH.
Qed.

(** From the start of the fan-out of a write. *)
Lemma serial_fan_out (e : @env S _) c g i st key blob v dn name acks st' rest :
  let rs := Owners (c_router c) key (c_n c) in
  let need := Z.min (c_w c) (len rs) in
  lawful_env e → mirrors g (c_self c) st → g_ops g !! i = Some (Writing (start_fan c key blob v dn name)) →
  gather (e_arrive e) (peersExcept rs (c_self c)) need (replicate_op key blob) st = (acks, st', rest) →
  runs_to g (c_self c) i (mkOutcome (if (need <=? acks)%Z then dn else quorumError name acks need) st'
    (drain (replicate_op key blob) rest)).
Proof.
  intros rs need He Hr Hi E. set (peers := peersExcept rs (c_self c)) in *.
  pose proof (not_a_peer e rs (c_self c) He) as Hself. fold peers in Hself.
  assert (length (e_arrive e peers) = length peers) as Hlen by (by rewrite (le_arrive e He)).
  destruct (serial_gather (e_arrive e peers) g i (start_fan c key blob v dn name) st peers [] acks st' rest (length peers))
    as (g1 & x' & todo' & n' & got' & S1 & Hr1 & Hi1 & Hreply & Hf & Hp & Ec & Ek & Eb); try done.
  { simpl. unfold spawn. by rewrite Hlen. }
  { by rewrite (le_arrive e He). }
  { by rewrite Hlen. }
  assert (w_self x' = c_self c) as Es by (unfold w_self; by rewrite Ec).
  destruct (serial_drain rest g1 i x' st' todo' [] n' got' (length peers)) as (g2 & S2 & Hr2); try done.
  { by rewrite Es. }
  { rewrite Nat.add_0_r, <-Hlen. eapply sublist_length, gather_loop_rest, E. }
  { rewrite Es. intros Hin. apply Hself. eapply elem_of_sublist; [exact Hin|]. by eapply gather_loop_rest. }
  exists g1, g2, (Writing x'). split_and!; try done. simpl. rewrite <-Es. by rewrite Ek, Eb in Hr2.
Qed.

(** From the start of a read. *)
Lemma serial_read (e : @env S _) c g i st key s blob :
  let rs := Owners (c_router c) key (c_n c) in
  let need := Z.min (c_r c) (len rs) in
  let local := decode_or_nil (default [] blob) in
  let peers := if (1 <? need)%Z then peersExcept rs (c_self c) else [] in
  lawful_env e → sGet (c_store st) (e_now e) key = (s, blob) → mirrors g (c_self c) (with_store st s) →
  g_ops g !! i = Some (Reading (mkReading c key need local (spawn peers) (mkRead 1 local {[c_self c := local]}) None [])) →
  runs_to g (c_self c) i (read e c st key).
Proof.
  intros rs need local peers He Eg Hr Hi. unfold read. rewrite Eg. fold rs. fold need. fold local. cbv zeta.
  set (rd0 := mkRead 1 local {[c_self c := local]}) in *. cbn [responses rd0]. change (c_net (with_store st s)) with (c_net st).
  set (l := if (1 <? need)%Z then e_arrive e (peersExcept rs (c_self c)) else []).
  assert ((if (1 <? need)%Z then read_loop key need (e_arrive e (peersExcept rs (c_self c))) (c_net st) rd0
           else (c_net st, rd0, [])) = read_loop key need l (c_net st) rd0) as ->.
  { unfold l. by destruct (1 <? need)%Z. }
  assert (peers ≡ₚ l ∧ c_self c ∉ l) as [Hpl Hself].
  { unfold peers, l. destruct (1 <? need)%Z; [|by split; [|set_solver]].
    split; [by rewrite (le_arrive e He)|by apply not_a_peer]. }
  destruct (read_loop key need l (c_net st) rd0) as [[w rd] rest] eqn:El.
  destruct (serial_read_loop e l g i (mkReading c key need local (spawn peers) rd0 None []) (with_store st s) peers [] w rd rest (length peers))
    as (g1 & y' & todo' & n' & got' & S1 & Hr1 & Hi1 & Hreply & Ht & Hf & Hp & Ec & Ek & Ed); try done.
  { simpl. unfold spawn. f_equal. by apply Permutation_length. }
  { by rewrite Hpl. }
  assert (r_self y' = c_self c) as Es by (unfold r_self; by rewrite Ec). cbn [r_need r_coord r_key] in *.
  unfold r_self in Hr1 at 1. cbn [r_coord] in Hr1.
  destruct (serial_repairs e (read_tasks e c need rd) g1 i y' (with_net (with_store st s) w)) as
    (g2 & y2 & S2 & Hi2 & Hr2 & Hf2 & Ec2 & Ek2); try done.
  { by rewrite Es. }
  { rewrite Es. intros b bl. unfold read_tasks. destruct (_ && _); [apply repair_tasks_remote|by intros ?%elem_of_nil]. }
  destruct (serial_late rest g2 i y2 (foldl (run_repair e key (merged rd)) (with_net (with_store st s) w)
    (read_tasks e c need rd)) todo' [] n' got' (length peers)) as (g3 & S3 & Hr3); try done.
  { unfold r_self. rewrite Ec2. fold (r_self y'). by rewrite Ek, Ed in Hr2. }
  { by rewrite Hf2. }
  { rewrite Nat.add_0_r, Hpl. eapply sublist_length, read_loop_rest, El. }
  { unfold r_self. rewrite Ec2. fold (r_self y'). rewrite Es. intros Hin. apply Hself.
    eapply elem_of_sublist; [exact Hin|]. by eapply read_loop_rest. }
  assert (r_self y2 = c_self c ∧ r_key y2 = key) as [Es2 Ek3] by (unfold r_self; rewrite Ec2, Ek2; done).
  rewrite Es2, Ek3 in Hr3. unfold read_tasks in Hr3. unfold read_answer in Hreply.
  exists g1, g3, (Reading y'). destruct (responses rd <? need)%Z; cbn [o_reply o_state o_background negb andb foldl] in *;
    split_and!; try done; try (by etrans).
  destruct (1 <? responses rd)%Z; [|done]. by rewrite readRepair_tasks.
Qed.

Lemma write_local_net (e : @env S _) c st key value st' r clk : write_local e c st key value = (st', r, clk) → c_net st' = c_net st.
Proof. unfold write_local. destruct (sUpdateReplica _ _ _ _ _) as [[s r1] x]. by intros [= <- <- <-]. Qed.

Lemma delete_local_net (e : @env S _) c st key st' r x : delete_local e c st key = (st', r, x) → c_net st' = c_net st.
Proof. unfold delete_local. destruct (sUpdateReplica _ _ _ _ _) as [[s r1] y]. by intros [= <- <- <-]. Qed.

(** An operation that is answered at once. *)
Lemma serial_refused g a st i reply :
  mirrors g a st → g_ops g !! i = Some (Refused reply) → runs_to g a i (mkOutcome reply st id).
Proof. intros Hr Hi. by exists g, g, (Refused reply). Qed.
End serial.

(** ** Properties *)

(** C5: the coordinator's functions are runs of its goroutines.  For every SET,
    DEL, GET or other command and every order in which results arrive, the function
    [coordinate] is one of the things the goroutines of that operation do by
    themselves: from any configuration, with other operations in any state, there is
    a sequence of steps of the operation's own goroutines, and of nobody else, that
    begins it, reaches the reply of [coordinate] with the stores, hints and telemetry
    of its outcome, and then reaches the state its background work leaves. *)
Theorem coordinate_is_a_run {S} `{!Store S, !StoreLaws S} (e : @env S _) (c : Coordinator) (g : @config S _)
    (st : @cstate S (@net S _)) (cmd : Command) (key : bytes) (args : list bytes) (o : outcome) (i : nat) :
  pool_ok (n_peer (g_net g)) → node_state g (c_self c) = Some st → g_ops g !! i = None →
  Args cmd = key :: args → coordinates e c key st → coordinate e c st cmd = Some o →
  runs_to g (c_self c) i o.
Proof.
  intros Hp Hst Hi Ea Hco Ho. pose proof Hco as (He & _). destruct (node_state_Some _ _ _ Hst) as (_ & En & _).
  rewrite <-En in Hp. assert (∀ st' op, begin e c st cmd = Some (st', op) → c_net st' = c_net st →
    let g' := set_op (commit g (c_self c) st') i op in
    (mirrors g' (c_self c) st' → g_ops g' !! i = Some op → runs_to g' (c_self c) i o) → runs_to g (c_self c) i o) as Hbegin.
  { intros st' op Eb En' g' Hrun. eapply runs_to_step; [by eapply go_begin|]. apply Hrun; [|by apply lookup_insert_eq].
    apply mirrors_commit. by rewrite En'. }
  unfold coordinate in Ho. unfold begin in Hbegin. rewrite Ea in Ho, Hbegin. cbv zeta in Ho, Hbegin.
  case_bool_decide; [destruct args as [|value args]; [done|]|case_bool_decide; [|case_bool_decide]].
  - unfold write in Ho. unfold begin_write in Hbegin.
    destruct (write_local e c st key value) as [[st1 r] clk] eqn:El. pose proof (write_local_net _ _ _ _ _ _ _ _ El) as En1.
    destruct r as [u|err|]; [|injection Ho as <-; eapply Hbegin; [done..|]; apply serial_refused|done].
    destruct (gather _ _ _ _ _) as [[acks st2] rest] eqn:Eg. injection Ho as <-.
    eapply Hbegin; [done..|]. intros Hr Hop. by eapply serial_fan_out.
  - unfold delete in Ho. unfold begin_delete in Hbegin.
    destruct (delete_local e c st key) as [[st1 r] [clk n]] eqn:El. pose proof (delete_local_net _ _ _ _ _ _ _ El) as En1.
    destruct r as [u|err|]; [|injection Ho as <-; eapply Hbegin; [done..|]; apply serial_refused|done].
    destruct (gather _ _ _ _ _) as [[acks st2] rest] eqn:Eg. injection Ho as <-.
    eapply Hbegin; [done..|]. intros Hr Hop. by eapply serial_fan_out.
  - injection Ho as <-. unfold begin_read in Hbegin. destruct (sGet (c_store st) (e_now e) key) as [s blob] eqn:Eg.
    eapply Hbegin; [done..|]. intros Hr Hop. by eapply serial_read.
  - injection Ho as <-. eapply Hbegin; [done..|]. apply serial_refused.
Qed.

(** ** Witnesses *)

(** The SET at node a of the quorum theorem, with W = 2. *)
Lemma coordinate_is_a_run_witness : runs_to quiet_config (str "a") 0 after_set.
Proof.
  apply (coordinate_is_a_run (plain_env 0) (coordinator_of (str "a")) quiet_config before_set set_k (str "k") [str "v"]).
  - apply two_nodes_ok.
  - reflexivity.
  - reflexivity.
  - reflexivity.
  - apply before_set_coordinates.
  - apply option_default. vm_compute. reflexivity.
Defined.
