(* ===== verification/Sync.v ===== *)
(** * Anti-entropy between two nodes (antientropy.go, handler.go, peer.go)

    One round of [syncWith] against a node of the network: the tree and the
    entries of the other store come through [Peer.Tree] and [Peer.BucketEntries],
    served by the RTREE and RBUCKET commands of its handler, and cross the wire
    in the codecs of merkle.go and antientropy.go. *)

From S2P Require Import Prelude Telemetry Binenc Resp Vclock Version Sketch Policy MapStore ShardedStore.
From S2P Require Import Membership Ring Router Sha256 Merkle Replica AntiEntropy Handoff Coordinator Handler Server Peer Cluster.

(** ** Parsing a leaf count *)

Lemma Atoi_Itoa z : (0 <= z < 2 ^ 63)%Z → Atoi (Itoa z) = Some z.
Proof.
  intros Hz. destruct (Itoa_digits z ltac:(lia)) as (ds & H1 & H2 & _ & H4 & ->).
  destruct (Z.ltb_spec z 0); [lia|]. destruct ds as [|c ds]; [done|].
  assert (forallb is_digit (c :: ds) = true) as Hd.
  { apply forallb_forall. intros x Hx. rewrite Forall_forall in H1. apply H1. by apply list_elem_of_In. }
  assert (c ≠ x2d ∧ c ≠ x2b) as [Hm Hp].
  { apply Forall_cons in H1 as [Hc _]. split; intros ->; done. }
  assert (Atoi (c :: ds) = if forallb is_digit (c :: ds) then
      (if (- 2 ^ 63 <=? foldl decimal 0 (c :: ds))%Z && (foldl decimal 0 (c :: ds) <? 2 ^ 63)%Z
       then Some (foldl decimal 0%Z (c :: ds)) else None) else None) as -> by (by destruct c).
  rewrite Hd, H4, Z.abs_eq by lia.
  destruct (Z.leb_spec (- 2 ^ 63) z); [|lia]. by destruct (Z.ltb_spec z (2 ^ 63)); [|lia].
Qed.

(** The tree a peer receives: the leaves, with the inner nodes to be computed. *)
Definition received (t : Tree) : Tree :=
  mkTree (leafCount t) (replicate (Z.to_nat (leafCount t)) [] ++ leaves t).

Lemma received_wf t : tree_wf t → tree_wf (received t) ∧ ∀ b, leaf (received t) b = leaf t b.
Proof.
  intros Ht. pose proof (tw_pos t Ht) as Hp. pose proof (length_leaves t Ht) as Hl. split.
  - split; simpl.
    + apply (tw_count t Ht).
    + unfold len. rewrite length_app, length_replicate, Hl. lia.
    + intros i b Hb Hi. rewrite lookup_app_r in Hb by (rewrite length_replicate; lia).
      pose proof (leaves_ok t Ht) as Hok. rewrite Forall_lookup in Hok. by eapply Hok.
  - intros b. unfold leaf, nd. simpl. rewrite lookup_app_r by (rewrite length_replicate; lia).
    rewrite length_replicate. unfold leaves. rewrite lookup_drop. do 2 f_equal. lia.
Qed.

Section sync.
Context {S : Type} `{!Store S, !StoreLaws S}.
Implicit Types (s : S) (w : @net S _) (e : @henv S _).

(** A store that keeps exactly the blobs of [m], none of which expires. *)
Definition keeps_map s (m : gmap bytes bytes) : Prop := ∀ k, sview s k = (λ b, (b, None)) <$> m !! k.

Lemma range_map o s rnow m :
  swf s → slawful o → keeps_map s m → sRange o s rnow ≡ₚ map_to_list m.
Proof.
  intros Hs Ho Hm. destruct (law_Range o s rnow Hs Ho) as [Hin Hnd].
  apply NoDup_Permutation; [by eapply NoDup_fmap_1|apply NoDup_map_to_list|].
  intros [k v]. rewrite Hin, elem_of_map_to_list. unfold slive. rewrite Hm. by destruct (m !! k).
Qed.

(** ** What the serving node replies *)

Lemma serve_rtree e s m n t :
  swf s → slawful (e_store (he e)) → keeps_map s m → (0 <= n <= 2 ^ 30)%Z →
  tree_over n (map_to_list m) = Ok t →
  ∃ blob, serve e s (mkCommand rtree_verb [Itoa n]) = Some (BulkString (Some blob), s)
    ∧ Merkle.Decode blob = Ok (received t).
Proof.
  intros Hs Ho Hm Hn Ht.
  assert (tree_over n (sRange (e_store (he e)) s (e_sweep (he e))) = Ok t) as Ht'.
  { destruct (New_wf n ltac:(lia)) as (t0 & E0 & W0 & _). unfold tree_over in *. rewrite E0 in *. simpl in *.
    by rewrite (add_all_perm t0 _ (map_to_list m)) by (done || by apply range_map). }
  destruct (tree_over_wf n (map_to_list m) ltac:(lia)) as (t0 & t1 & E0 & E1 & Wt & L).
  rewrite Ht in E1. injection E1 as <-.
  assert (leafCount t < 2 ^ 31)%Z as Hlc.
  { rewrite L. unfold New in E0. destruct (make_panics _ _); [done|]. simp_res. unfold nextPowerOfTwo.
    case_bool; [lia|]. rewrite shiftl_len_log2_up by lia.
    apply Z.le_lt_trans with (2 ^ 30)%Z; [|lia]. apply Z.pow_le_mono_r; [lia|]. apply Z.log2_up_le_pow2; lia. }
  destruct (Uint32_Decode_tree t Wt Hlc) as (blob & He & Hd & _). exists blob. split.
  - unfold serve. rewrite (Handle_local (Replicator0 := no_peers) e (mkHandler None None None None)
      (mkC s NewHintStore () []) rtree_verb [Itoa n] (mkSpec 1 1 false rtree) (BulkString (Some blob))
      (record (mkC s NewHintStore () []) (Count rtree_verb)) eq_refl eq_refl ltac:(done)).
    + done.
    + cbn [run]. unfold rtree. rewrite Atoi_Itoa by lia. cbn [c_store record]. rewrite Ht'. simpl. by rewrite He.
  - specialize (Hd []). by rewrite app_nil_r in Hd.
Qed.

Lemma bucket_fold (P : bytes → bool) (l : list (bytes * bytes)) (acc : gmap bytes bytes) k :
  NoDup l.*1 → (∀ k, k ∈ l.*1 → acc !! k = None) →
  foldl (λ (entries : gmap bytes bytes) '(key, value), if P key then <[key := value]> entries else entries) acc l !! k
  = match acc !! k with Some b => Some b | None => if P k then (list_to_map l : gmap bytes bytes) !! k else None end.
Proof.
  revert acc. induction l as [|[k' v] l IH]; intros acc Hnd Hacc.
  { simpl. rewrite lookup_empty. destruct (acc !! k), (P k); done. }
  apply NoDup_cons in Hnd as [Hk Hnd]. cbn [foldl list_to_map foldr]. rewrite IH; [|done|].
  - destruct (P k') eqn:Ep; [|].
    + destruct (decide (k = k')) as [->|Hne].
      * rewrite lookup_insert_eq, (Hacc k') by set_solver. rewrite Ep. simpl. by rewrite lookup_insert_eq.
      * rewrite lookup_insert_ne by done. simpl. by rewrite lookup_insert_ne.
    + destruct (acc !! k); [done|]. destruct (P k) eqn:Ek; [|done]. simpl.
      rewrite lookup_insert_ne; [done|]. congruence.
  - intros x Hx. destruct (P k'); [|apply Hacc; set_solver]. rewrite lookup_insert_ne; [apply Hacc; set_solver|].
    intros ->. by apply Hk.
Qed.

Lemma serve_rbucket e s m n t0 diffs :
  swf s → slawful (e_store (he e)) → keeps_map s m → (0 <= n <= 2 ^ 30)%Z → New n = Ok t0 →
  (∀ m, range_order m (he_entries e m)) → (Z.of_nat (size m) < 2 ^ 32)%Z → map_Forall (λ k b, pair_wf (k, b)) m →
  Forall (λ b, 0 <= b < 2 ^ 32)%Z diffs → (len diffs < 2 ^ 32)%Z →
  ∃ blob, serve e s (mkCommand rbucket_verb [Itoa n; encodeBuckets diffs]) = Some (BulkString (Some blob), s)
    ∧ decodeEntries blob = Ok (filter (λ kb, Bucket t0 kb.1 ∈ diffs) m).
Proof.
  intros Hs Ho Hm Hn H0 Hord Hsz Hwf Hd Hl.
  set (entries := foldl (λ (entries : gmap bytes bytes) '(key, value),
    if bool_decide (Bucket t0 key ∈ diffs) then <[key := value]> entries else entries) ∅
    (sRange (e_store (he e)) s (e_sweep (he e)))).
  assert (entries = filter (λ kb, Bucket t0 kb.1 ∈ diffs) m) as Hent.
  { destruct (law_Range (e_store (he e)) s (e_sweep (he e)) Hs Ho) as [Hin Hnd].
    apply map_eq. intros k. unfold entries.
    rewrite (bucket_fold (λ key, bool_decide (Bucket t0 key ∈ diffs))), lookup_empty by (done || (intros; apply lookup_empty)).
    assert ((list_to_map (sRange (e_store (he e)) s (e_sweep (he e))) : gmap bytes bytes) = m) as ->.
    { rewrite (list_to_map_proper _ (map_to_list m)) by (done || by apply range_map). apply list_to_map_to_list. }
    case_bool_decide as Hb.
    - destruct (m !! k) as [b|] eqn:Ek; symmetry; [by apply map_lookup_filter_Some|].
      apply map_lookup_filter_None. by left.
    - symmetry. apply map_lookup_filter_None. right. done. }
  exists (encodeEntries (he_entries e entries)). split.
  - unfold serve. rewrite (Handle_local (Replicator0 := no_peers) e (mkHandler None None None None)
      (mkC s NewHintStore () []) rbucket_verb [Itoa n; encodeBuckets diffs] (mkSpec 2 2 false rbucket)
      (BulkString (Some (encodeEntries (he_entries e entries))))
      (record (mkC s NewHintStore () []) (Count rbucket_verb)) eq_refl eq_refl ltac:(done)).
    + done.
    + cbn [run]. unfold rbucket. rewrite Atoi_Itoa by lia.
      rewrite decodeBuckets_eq, <-(app_nil_r (encodeBuckets diffs)), (reads_whole _ _ _ _ (encodeBuckets_reads diffs Hl Hd)).
      cbn [mbind gres_bind]. rewrite H0. done.
  - rewrite decodeEntries_eq, <-(app_nil_r (encodeEntries _)).
    rewrite (reads_whole _ entries); [by rewrite Hent|]. apply encodeEntries_reads; [apply Hord| |].
    + unfold len. rewrite (Hord entries), length_map_to_list. rewrite Hent.
      pose proof (map_subseteq_size _ _ (map_filter_subseteq (λ kb, Bucket t0 kb.1 ∈ diffs) m)). lia.
    + apply Forall_forall. intros [k b] Hkb. rewrite (Hord entries), elem_of_map_to_list, Hent in Hkb.
      apply map_lookup_filter_Some in Hkb as [Hkb _]. by apply (Hwf k b).
Qed.
(** ** Calls that get through *)

(** Every dial and every round trip from now on succeeds. *)
Definition reliable w : Prop := ∀ i, (n_calls w <= i)%nat → n_dial w i = true ∧ n_attempt w i = Answered.

(** A call reaches the node once, and its reply comes back. *)
Lemma reliable_exec w addr s verb args (R : Resp.Value → S → Prop) p w' r :
  reliable w → pool_ok (n_peer w) → n_nodes w !! addr = Some s →
  (∀ i, ∃ reply s', serve (n_env w i) s (mkCommand verb args) = Some (reply, s') ∧ R reply s') →
  do_call (n_peer w) w addr (verb :: args) = (p, w', r) →
  ∃ reply s', r = inr reply ∧ R reply s' ∧ pool_ok p ∧ reliable w'
    ∧ n_nodes w' = <[addr := s']> (n_nodes w) ∧ n_env w' = n_env w.
Proof.
  intros Hrel Hp Hs Hserve.
  assert (∀ w1 c w2 r2, n_dial w1 = n_dial w → n_attempt w1 = n_attempt w → n_nodes w1 = n_nodes w → n_env w1 = n_env w →
    (n_calls w <= n_calls w1)%nat → c.1 = addr → net_rtt w1 c (verb :: args) = (w2, r2) →
    ∃ reply s', r2 = inr reply ∧ R reply s' ∧ reliable w2 ∧ n_nodes w2 = <[addr := s']> (n_nodes w) ∧ n_env w2 = n_env w) as Hrtt.
  { intros w1 c w2 r2 E1 E2 E3 E4 Hn <- Hr. unfold net_rtt in Hr. rewrite E2, (proj2 (Hrel _ Hn)) in Hr.
    unfold execute in Hr. rewrite E3, Hs, E4 in Hr. destruct (Hserve (n_calls w1)) as (reply & s' & E & HR). rewrite E in Hr.
    injection Hr as <- <-. exists reply, s'. split_and!; [done|done| |done|done].
    intros i Hi. simpl in *. rewrite E1, E2. apply Hrel. lia. }
  unfold do_call. destruct (getIdle (n_peer w) addr) as [p1 o] eqn:Eg.
  destruct (getIdle_pool_ok _ _ _ _ Hp Eg) as [Hp1 Hc]. destruct o as [c|].
  - destruct (rtt w c (verb :: args)) as [w1 r1] eqn:Er.
    destruct (Hrtt w c w1 r1 eq_refl eq_refl eq_refl eq_refl (le_n _) (Hc c eq_refl) Er) as (reply & s' & -> & HR & H1 & H2 & H3).
    unfold put_back. destruct (put p1 addr c) as [p2 kept] eqn:Ep. intros [= <- <- <-]. exists reply, s'.
    split_and!; [done|done|exact (put_pool_ok p1 addr c p2 kept Hp1 (Hc c eq_refl) Ep)|by destruct kept..].
  - unfold do_fresh. simpl dial. rewrite (proj1 (Hrel _ (le_n _))). cbv beta iota.
    destruct (rtt (tick w) (addr, n_calls w) (verb :: args)) as [w1 r1] eqn:Er.
    destruct (Hrtt (tick w) (addr, n_calls w) w1 r1 eq_refl eq_refl eq_refl eq_refl (le_S _ _ (le_n _)) eq_refl Er)
      as (reply & s' & -> & HR & H1 & H2 & H3).
    unfold put_back. destruct (put p1 addr (addr, n_calls w)) as [p2 kept] eqn:Ep. intros [= <- <- <-]. exists reply, s'.
    split_and!; [done|done|exact (put_pool_ok p1 addr (addr, n_calls w) p2 kept Hp1 eq_refl Ep)|by destruct kept..].
Qed.

(** A node that only answers is left as it was. *)
Lemma reliable_call w addr s verb args (R : Resp.Value → Prop) p w' r :
  reliable w → pool_ok (n_peer w) → n_nodes w !! addr = Some s →
  (∀ i, ∃ reply, serve (n_env w i) s (mkCommand verb args) = Some (reply, s) ∧ R reply) →
  do_call (n_peer w) w addr (verb :: args) = (p, w', r) →
  (∃ reply, r = inr reply ∧ R reply) ∧ pool_ok p ∧ reliable w' ∧ n_nodes w' = n_nodes w ∧ n_env w' = n_env w.
Proof.
  intros Hrel Hp Hs Hserve E.
  destruct (reliable_exec w addr s verb args (λ reply s', R reply ∧ s' = s) p w' r Hrel Hp Hs)
    as (reply & s' & -> & [HR ->] & Hp' & Hr & En & Ee); [|exact E|].
  { intros i. destruct (Hserve i) as (reply & ? & ?). eauto. }
  split_and!; [by eexists|done|done|by rewrite En, insert_id|done].
Qed.

(** ** Both ends together *)

(** What a node is asked for and the network between must satisfy. *)
Record serving w (addr : bytes) (sb : S) (m : gmap bytes bytes) : Prop := {
  sv_reliable : reliable w;
  sv_pool : pool_ok (n_peer w);
  sv_node : n_nodes w !! addr = Some sb;
  sv_wf : swf sb;
  sv_keeps : keeps_map sb m;
  sv_orders : ∀ i, slawful (e_store (he (n_env w i)));
  sv_entries : ∀ i m, range_order m (he_entries (n_env w i) m);
  sv_size : (Z.of_nat (size m) < 2 ^ 32)%Z;
  sv_blobs : map_Forall (λ k b, pair_wf (k, b)) m
}.

Lemma serving_after w addr sb m w' p :
  serving w addr sb m → reliable w' → pool_ok p → n_nodes w' = n_nodes w → n_env w' = n_env w →
  serving (with_peer w' p) addr sb m.
Proof. intros [] Hr Hp En Ee. split; simpl; rewrite ?En, ?Ee; done. Qed.

Lemma PeerTree_served w addr sb m n t :
  serving w addr sb m → (0 <= n <= 2 ^ 30)%Z → tree_over n (map_to_list m) = Ok t →
  ∃ w', PeerTree w addr n = (w', Ok (received t)) ∧ serving w' addr sb m ∧ n_nodes w' = n_nodes w.
Proof.
  intros Hsv Hn Ht. simpl. unfold through, peer_Tree.
  destruct (do_call (n_peer w) w addr [rtree_verb; Itoa n]) as [[p w'] r] eqn:E.
  destruct (reliable_call w addr sb rtree_verb [Itoa n]
    (λ reply, ∃ blob, reply = BulkString (Some blob) ∧ Merkle.Decode blob = Ok (received t)) p w' r)
    as ((reply & -> & blob & -> & Hd) & Hp & Hr & En & Ee); [apply Hsv..| |exact E|].
  { intros i. destruct (serve_rtree (n_env w i) sb m n t) as (blob & Hb & Hd);
      [apply Hsv|apply (sv_orders _ _ _ _ Hsv)|apply Hsv|done|done|]. eauto 6. }
  simpl. rewrite Hd. eexists. split; [done|]. split; [by eapply serving_after|done].
Qed.

Lemma PeerBucketEntries_served w addr sb m n t0 diffs :
  serving w addr sb m → (0 <= n <= 2 ^ 30)%Z → New n = Ok t0 →
  Forall (λ b, 0 <= b < 2 ^ 32)%Z diffs → (len diffs < 2 ^ 32)%Z →
  ∃ w', PeerBucketEntries w addr n diffs = (w', Ok (filter (λ kb, Bucket t0 kb.1 ∈ diffs) m))
    ∧ n_nodes w' = n_nodes w.
Proof.
  intros Hsv Hn H0 Hd Hl. simpl. unfold through, peer_BucketEntries.
  destruct (do_call (n_peer w) w addr [rbucket_verb; Itoa n; encodeBuckets diffs]) as [[p w'] r] eqn:E.
  destruct (reliable_call w addr sb rbucket_verb [Itoa n; encodeBuckets diffs]
    (λ reply, ∃ blob, reply = BulkString (Some blob)
       ∧ decodeEntries blob = Ok (filter (λ kb, Bucket t0 kb.1 ∈ diffs) m)) p w' r)
    as ((reply & -> & blob & -> & Hdec) & Hp & Hr & En & Ee); [apply Hsv..| |exact E|].
  { intros i. destruct (serve_rbucket (n_env w i) sb m n t0 diffs) as (blob & Hb & Hdec);
      [apply Hsv|apply (sv_orders _ _ _ _ Hsv)|apply Hsv|done|done|apply (sv_entries _ _ _ _ Hsv)|apply Hsv|apply Hsv|done|done|].
    eauto 6. }
  simpl. rewrite Hdec. eexists. split; [done|]. simpl. done.
Qed.
(** ** One round *)

(** What a round needs: well-formed local state, a peer that can be reached, digests
    that do not collide (equal inner digests come from equal children, equal leaves
    from equal buckets), and room for the merged siblings. *)
Record round_ready (a : AntiEntropy) (o : sord) (rnow : nat → Z) (now : Z) (clk : bytes → nat → Clock → list (bytes * N))
    (ord : gmap bytes bytes → list (bytes * bytes)) s (sb : S) w (addr : bytes) (m : gmap bytes bytes) : Prop := {
  rd_store : store_ok s;
  rd_range : slawful o;
  rd_clocks : ∀ k, lawful_order (clk k);
  rd_entries : ∀ m, range_order m (ord m);
  rd_keeps : ¬ sevicts s;
  rd_peer : serving w addr sb m;
  rd_leaves : (0 <= a_leaves a <= 2 ^ 30)%Z;
  rd_digests : ∀ t tb, tree_over (a_leaves a) (sRange o s rnow) = Ok t → tree_over (a_leaves a) (map_to_list m) = Ok tb →
    no_alias (rooted t) (rooted (received tb))
    ∧ ∀ key, leaf t (Z.to_nat (Bucket t key)) = leaf tb (Z.to_nat (Bucket t key)) → sview s key = sview sb key;
  rd_fits : ∀ key blob, m !! key = Some blob → pull_fits clk s now key blob
}.

Lemma round_catches_up a o rnow now clk ord s sb w addr m :
  round_ready a o rnow now clk ord s sb w addr m →
  ∃ s' w', syncWith a o rnow now clk ord s w addr = Some (s', w') ∧ n_nodes w' = n_nodes w
    ∧ (∀ key c, holds sb key c → holds s' key c)
    ∧ (∀ key c, holds s key c → holds s' key c)
    ∧ (∀ key Q, store_only s key Q → store_only sb key Q → store_only s' key Q)
    ∧ (store_antichains s → store_antichains s') ∧ store_ok s'.
Proof.
  intros [Hs Ho Hclk Hord Hne Hsv Hn Hdig Hfit].
  destruct (tree_over_wf (a_leaves a) (sRange o s rnow) ltac:(lia)) as (t0 & t & E0 & Ht & Wt & Lt).
  destruct (tree_over_wf (a_leaves a) (map_to_list m) ltac:(lia)) as (t0' & tb & E0' & Htb & Wtb & Ltb).
  destruct (Hdig t tb Ht Htb) as [Hna Hsame]. rewrite E0 in E0'. injection E0' as <-.
  destruct (received_wf tb Wtb) as [Wr Hleaf].
  assert (leafCount t < 2 ^ 32)%Z as Hlc.
  { rewrite Lt. unfold New in E0. destruct (make_panics _ _); [done|]. simp_res. unfold nextPowerOfTwo.
    case_bool; [lia|]. rewrite shiftl_len_log2_up by lia.
    apply Z.le_lt_trans with (2 ^ 30)%Z; [|lia]. apply Z.pow_le_mono_r; [lia|]. apply Z.log2_up_le_pow2; lia. }
  destruct (PeerTree_served w addr sb m (a_leaves a) tb Hsv Hn Htb) as (w1 & Hpt & Hsv1 & En1).
  destruct (syncWith_pulls a o rnow now clk ord s w w1 addr m t (received tb) Hs Ho Hclk Hord Hne ltac:(lia) Ht Hpt Wr)
    as (s' & w' & E & [P1 P2 P3 P4 P5 P6] & Hnew & _ & Hw'); [simpl; congruence| |done|].
  { intros diffs Hd Hl. destruct (PeerBucketEntries_served w1 addr sb m (a_leaves a) t0 diffs Hsv1 Hn E0) as (w2 & Hb & _).
    - eapply Forall_impl; [exact Hd|]. simpl. lia.
    - lia.
    - exists w2. rewrite Hb. do 2 f_equal. apply map_filter_ext. intros k b _. simpl.
      by rewrite (Bucket_leafCount t0 t). }
  exists s', w'. split; [done|]. split_and!; [|intros key c Hc|exact P3|intros key Q Hq Hqb|exact P6|exact P1].
  - destruct Hw' as [->|(diffs & Hd & Hl & ->)]; [done|].
    destruct (PeerBucketEntries_served w1 addr sb m (a_leaves a) t0 diffs Hsv1 Hn E0) as (w2 & Hb & En2); [|lia|].
    { eapply Forall_impl; [exact Hd|]. simpl. lia. }
    rewrite Hb. simpl. congruence.
  - destruct (decide (leaf t (Z.to_nat (Bucket t key)) = leaf tb (Z.to_nat (Bucket t key)))) as [El|El].
    + apply P3. eapply holds_view; [by apply Hsame|done].
    + destruct Hc as (vs & (blob & Hv & Hd) & Hcov). pose proof (sv_keeps _ _ _ _ Hsv key) as Hk. rewrite Hv in Hk.
      destruct (m !! key) as [b|] eqn:Em; [|done]. injection Hk as <-.
      apply (Hnew key blob Em); [by rewrite Hleaf|by apply Hfit|]. unfold decode_or_nil. by rewrite Hd.
  - apply P4; [|done]. intros b Hb%elem_of_map_to_list. pose proof (sv_keeps _ _ _ _ Hsv key) as Hk. rewrite Hb in Hk.
    specialize (Hqb now). unfold siblings, slive in Hqb. rewrite Hk in Hqb. exact Hqb.
Qed.
End sync.

(** ** Property *)

(** C12: one round of anti-entropy catches up with a node. Over a network that lets
    the calls through (replies within the 512 MiB bulk limit of the decoder
    included), [syncWith] ends without a panic, the other node is left as it was,
    and the local store then covers every version of every key the other node holds;
    it loses no history of its own, and every version it gains is one of the other
    node's. Needs that the local store does not evict, that the digests met do not
    collide (equal inner digests come from equal children, equal leaves from equal
    buckets), and that the merged siblings fit the value limit. *)
Theorem antientropy_catches_up {S} `{!Store S, !StoreLaws S} (a : AntiEntropy) (o : sord) (rnow : nat → Z) (now : Z)
    (clk : bytes → nat → Clock → list (bytes * N)) (ord : gmap bytes bytes → list (bytes * bytes))
    (s sb : S) (w : @net S _) (addr : bytes) (m : gmap bytes bytes) (t tb : Tree) :
  store_ok s → slawful o → (∀ k, lawful_order (clk k)) → (∀ m, range_order m (ord m)) → ¬ sevicts s →
  serving w addr sb m → (0 <= a_leaves a <= 2 ^ 30)%Z →
  tree_over (a_leaves a) (sRange o s rnow) = Ok t → tree_over (a_leaves a) (map_to_list m) = Ok tb →
  no_alias (rooted t) (rooted (received tb)) →
  (∀ key, leaf t (Z.to_nat (Bucket t key)) = leaf tb (Z.to_nat (Bucket t key)) → sview s key = sview sb key) →
  (∀ key blob, m !! key = Some blob → pull_fits clk s now key blob) →
  ∃ s' w', syncWith a o rnow now clk ord s w addr = Some (s', w') ∧ n_nodes w' = n_nodes w
    ∧ (∀ key c, holds sb key c → holds s' key c)
    ∧ (∀ key c, holds s key c → holds s' key c)
    ∧ (∀ key Q, store_only s key Q → store_only sb key Q → store_only s' key Q).
Proof.
  intros Hs Ho Hclk Hord Hne Hsv Hn Ht Htb Hna Hsame Hfit.
  destruct (round_catches_up a o rnow now clk ord s sb w addr m) as (s' & w' & ? & ? & ? & ? & ? & _); [|eauto 10].
  split; try done. intros t' tb' Ht' Htb'. rewrite Ht in Ht'. rewrite Htb in Htb'. injection Ht' as <-. injection Htb' as <-. by split.
Qed.

(** ** Witness *)

(** Node n1 holds one version of one key; the local store is empty. *)
Definition greeting_store : MapStore lfu :=
  (sUpdateReplica (Store := MapStore_store) map_to_list empty_store 0 (str "greeting")
    (λ _, (Version.Encode (λ _, map_to_list) [ex_version], ()))).1.1.

Definition greeting_net : @net (MapStore lfu) MapStore_store :=
  mkNet {[str "n1" := greeting_store]} (λ _, true) (λ _, Answered) (λ _, plain_henv) 0 NewPeer.

Lemma empty_store_view k : sview (Store := MapStore_store) empty_store k = None.
Proof. change (view empty_store k = None). unfold view. change (data empty_store) with (∅ : gmap bytes entry). by rewrite lookup_empty. Qed.

Lemma greeting_store_keeps :
  swf (Store := MapStore_store) greeting_store ∧ keeps_map (Store0 := MapStore_store) greeting_store ex_remote.
Proof.
  pose proof (law_UpdateReplica (Store0 := MapStore_store) map_to_list empty_store 0 (str "greeting")
    (λ _, (Version.Encode (λ _, map_to_list) [ex_version], ())) (proj1 (proj1 empty_store_ok)) lawful_map_to_list) as H.
  cbv zeta in H. unfold greeting_store.
  destruct (sUpdateReplica (Store := MapStore_store) map_to_list empty_store 0 (str "greeting") _) as [[s r] x] eqn:E.
  destruct H as (_ & Hc & Hr). split; [apply Hc|].
  assert (r = Ok ()) as ->.
  { assert (r = (sUpdateReplica (Store := MapStore_store) map_to_list empty_store 0 (str "greeting")
      (λ _, (Version.Encode (λ _, map_to_list) [ex_version], ()))).1.2) as -> by (by rewrite E).
    vm_compute. reflexivity. }
  destruct Hr as (_ & Hby & Hv). intros k. destruct (decide (k = str "greeting")) as [->|Hne].
  - simpl fst in *. cbn [fst snd] in Hv |- *. rewrite Hv. unfold ex_remote. by rewrite lookup_singleton_eq.
  - unfold ex_remote. rewrite lookup_singleton_ne by done. cbn [fst snd].
    destruct (Hby k Hne) as [->|[_ He]]; [apply empty_store_view|destruct (proj2 empty_store_ok He)].
Qed.

Lemma ex_remote_only key blob :
  ex_remote !! key = Some blob → key = str "greeting" ∧ blob = Version.Encode (λ _, map_to_list) [ex_version].
Proof. unfold ex_remote. by intros [<- <-]%lookup_singleton_Some. Qed.

Definition tree_or_empty (es : list (bytes * bytes)) : Tree :=
  match tree_over 4 es with Ok t => t | _ => mkTree 0 [] end.

Lemma tree_or_empty_eq es : tree_over 4 es = Ok (tree_or_empty es).
Proof. unfold tree_or_empty. by destruct (tree_over_wf 4 es ltac:(lia)) as (t0 & t & _ & -> & _). Qed.

Lemma antientropy_catches_up_witness :
  ∃ s' w', @syncWith (MapStore lfu) (@net (MapStore lfu) MapStore_store) MapStore_store net_syncer
      (mkAntiEntropy (str "n2") 4) map_to_list (λ _, 0%Z) 0 (λ _ _, map_to_list) map_to_list empty_store greeting_net (str "n1")
      = Some (s', w')
    ∧ holds (Store0 := MapStore_store) s' (str "greeting") {[str "n1" := 2%N]}.
Proof.
  destruct greeting_store_keeps as [Hwf Hkeeps].
  destruct (antientropy_catches_up (Store0 := MapStore_store) (mkAntiEntropy (str "n2") 4) map_to_list (λ _, 0%Z) 0
    (λ _ _, map_to_list) map_to_list empty_store greeting_store greeting_net (str "n1") ex_remote
    (tree_or_empty (sRange (Store := MapStore_store) map_to_list empty_store (λ _, 0%Z))) (tree_or_empty (map_to_list ex_remote)))
    as (s' & w' & E & _ & H & _).
  - apply empty_store_ok.
  - apply lawful_map_to_list.
  - intros k. apply lawful_clock_map_to_list.
  - intros m. unfold range_order. reflexivity.
  - apply empty_store_ok.
  - split.
    + intros i. split; reflexivity.
    + intros addr c Hc. unfold idle_of in Hc. simpl in Hc. rewrite lookup_empty in Hc. by apply elem_of_nil in Hc.
    + reflexivity.
    + exact Hwf.
    + exact Hkeeps.
    + intros i. apply lawful_map_to_list.
    + intros i m. unfold range_order. reflexivity.
    + reflexivity.
    + intros k b Hb. apply ex_remote_only in Hb as [-> ->]. split; vm_compute; reflexivity.
  - simpl. lia.
  - apply tree_or_empty_eq.
  - apply tree_or_empty_eq.
  - apply no_alias_b_spec. vm_compute. reflexivity.
  - intros key Hl. destruct (decide (key = str "greeting")) as [->|Hne].
    + vm_compute in Hl. discriminate Hl.
    + rewrite Hkeeps. unfold ex_remote. rewrite lookup_singleton_ne by done. apply empty_store_view.
  - intros key blob Hb. apply ex_remote_only in Hb as [-> ->]. vm_compute. reflexivity.
  - exists s', w'. split; [exact E|]. apply H. exists [ex_version]. split.
    + exists (Version.Encode (λ _, map_to_list) [ex_version]). rewrite Hkeeps. unfold ex_remote.
      rewrite lookup_singleton_eq. split; [reflexivity|vm_compute; reflexivity].
    + exists ex_version. split; [left|]. intros n. reflexivity.
Defined.
