(* ===== verification/Repair.v ===== *)
(** * Deletes and repairs across the cluster

    What the background repairs achieve together with the coordinator: hinted
    handoff brings a write to every replica, anti-entropy in both directions makes
    two replicas agree, and a delete that reached every replica stays a delete
    while tombstones are collected. *)

From S2P Require Import Prelude Telemetry Binenc Resp Sha256 Merkle Vclock Version Sketch Policy MapStore ShardedStore.
From S2P Require Import Membership Ring Router Replica AntiEntropy TombstoneGC Handoff Coordinator Handler Server Peer.
From S2P Require Import Cluster Sync.

(** ** What steps can add to a key *)

Section only.
Context {S : Type} `{!Store S, !StoreLaws S}.
Implicit Types (s : S) (w : @net S _) (st : @cstate S (@net S _)) (k key : bytes) (Q : Version → Prop).




End only.

(** ** Life after a delete *)

Section deleted.
Context {S : Type} `{!Store S, !StoreLaws S}.
Implicit Types (s : S) (w : @net S _) (st : @cstate S (@net S _)).





End deleted.

(** ** Handing over what was missed *)

Section handoff.
Context {S : Type} `{!Store S, !StoreLaws S}.
Implicit Types (s : S) (w : @net S _) (st : @cstate S (@net S _)).

(** The target of a hint is there and has room for the version hinted. *)
Definition deliverable w (t : task) : Prop :=
  let '(target, key, blob) := t in
  ∃ s v, n_nodes w !! target = Some s ∧ Version.Decode blob = Ok [v] ∧ rset_fits s key v.

(** Calls from [w] on: what is held stays, and hints for other keys stay deliverable. *)
Record delivered w (t : task) w' : Prop := {
  dl_ok : net_ok w';
  dl_reliable : reliable w';
  dl_holds : ∀ a k c, net_holds w a k c → net_holds w' a k c;
  dl_done : ∀ v, Version.Decode t.2 = Ok [v] → net_holds w' t.1.1 t.1.2 (Clk v);
  dl_rest : ∀ u, u.1 ≠ t.1 → deliverable w u → deliverable w' u
}.

Lemma rset_fits_view s s' k v :
  slimits s' = slimits s → sview s' k = sview s k → rset_fits s k v → rset_fits s' k v.
Proof. intros El Ev Hf ord now Hord. rewrite El, (siblings_view s) by done. by apply Hf. Qed.

Lemma Replicate_delivered w target key blob :
  net_ok w → reliable w → deliverable w (target, key, blob) →
  ∃ w', Replicate w target rset [key; blob] = (w', None) ∧ delivered w (target, key, blob) w'.
Proof.
  intros Hw Hrel (s & v & Hs & Hd & Hfit).
  destruct (Replicate w target rset [key; blob]) as [w' err] eqn:ER.
  destruct (law_Replicate (ReplicatorLaws := net_laws) _ _ _ _ _ _ _ Hw Hd ER) as (H1 & H2 & _ & H4).
  simpl in ER. unfold through, peer_Replicate in ER.
  destruct (do_call (n_peer w) w target [rset; key; blob]) as [[p w1] r] eqn:E. injection ER as <- <-.
  destruct (reliable_exec w target s rset [key; blob] (λ reply s', AsError reply = None ∧ call_ok s s'
    ∧ ∀ k, k ≠ key → sview s' k = sview s k) p w1 r) as (reply & s' & -> & (HR & Hcall & Hview) & Hp & Hr & En & Ee);
    [done|apply Hw|done| |exact E|].
  { intros i. destruct (serve_rset (n_env w i) s key blob v) as (reply & s' & E' & _ & _ & _ & _ & Hc & Hv & Ha);
      [apply Hw|by apply (proj1 Hw target)|done|]. exists reply, s'. split_and!; auto. }
  rewrite HR in *. eexists. split; [reflexivity|]. split; [done|done|done| |].
  - simpl. intros v' Hv'. rewrite Hd in Hv'. injection Hv' as <-. by apply H4.
  - intros [[t k] b] Hne (su & vu & Hsu & Hdu & Hfu). simpl in *. destruct (decide (t = target)) as [->|Ht].
    + exists s', vu. simpl. rewrite En, lookup_insert_eq. split_and!; [done|done|].
      rewrite Hs in Hsu. injection Hsu as <-. apply (rset_fits_view s); [apply Hcall| |done].
      apply Hview. by intros ->.
    + exists su, vu. simpl. by rewrite En, lookup_insert_ne.
Qed.

(** A round in which every hint can be delivered delivers them all. *)
Lemma replay_delivers ts h w d f :
  net_ok w → reliable w → NoDup ts.*1 → Forall (deliverable w) ts →
  let '(h', w', d', f') := foldl replay_task (h, w, d, f) ts in
  d' = (d + len ts)%Z ∧ net_ok w' ∧ (∀ a k c, net_holds w a k c → net_holds w' a k c)
  ∧ ∀ t v, t ∈ ts → Version.Decode t.2 = Ok [v] → net_holds w' t.1.1 t.1.2 (Clk v).
Proof.
  revert h w d f. induction ts as [|[[t k] b] ts IH]; intros h w d f Hw Hrel Hnd Hall; cbn [foldl].
  { split_and!; [rewrite len_nil; lia|done|done|]. by intros t v ?%elem_of_nil. }
  apply NoDup_cons in Hnd as [Hk Hnd]. apply Forall_cons in Hall as [Ht Hall].
  destruct (Replicate_delivered w t k b Hw Hrel Ht) as (w1 & E & [A1 A2 A3 A4 A5]).
  unfold replay_task at 2. rewrite E.
  assert (Forall (deliverable w1) ts) as Hall1.
  { rewrite Forall_forall in *. intros u Hu. apply A5; [|by apply Hall]. intros Heq. apply Hk.
    apply list_elem_of_fmap. by exists u. }
  specialize (IH (remove h t k b) w1 (d + 1)%Z f A1 A2 Hnd Hall1).
  destruct (foldl replay_task _ ts) as [[[h' w'] d'] f']. destruct IH as (-> & B2 & B3 & B4).
  split_and!; [rewrite len_cons; lia|done|auto|].
  intros u v [->|Hu]%elem_of_cons Hd; [by apply B3, A4|by apply B4].
Qed.

Lemma NoDup_tasks_fst h : NoDup (tasks_of (hints h)).*1.
Proof.
  pose proof (NoDup_tasks h) as Hnd. apply NoDup_fmap_2_strong; [|done].
  intros [[t k] b] [[t' k'] b'] H1 H2 [= -> ->]. apply elem_of_tasks in H1, H2. congruence.
Qed.
End handoff.


(** ** Properties *)


(** C6: a replay completes a write whose hints are still parked. A SET or DEL,
    coordinated at a replica of the key and without interruption, was acknowledged
    while some replicas could not be reached, and its fan-out has ended. Later,
    after any replica calls, client operations and anti-entropy, with no eviction,
    no tombstone collection and no restart, the hint store still has the hints this
    write parked for its key: no other write of the key has replaced one, as
    Concurrent.older_hint_replaces_newer shows another may. If then one replay round
    runs with every call getting through, every target up and with room for what is
    parked, in whatever order the deliveries run, no hint is left and every replica
    of the key holds the write. *)
Theorem handoff_completes {S} `{!Store S, !StoreLaws S} (e : @env S _) (c : Coordinator)
    (st : @cstate S (@net S _)) (key : bytes) (o : outcome) (v : Version) (h : hintStore) (w : @net S _)
    (sched : list task → list task) :
  let rs := Owners (c_router c) key (c_n c) in
  let st' := o_background o (o_state o) in
  net_ok (c_net st) → coordinates e c key st → c_self c ∈ rs →
  client_write e c st key o v → AsError (o_reply o) = None →
  rtc cluster_step (absorb (c_self c) st') w →
  (∀ a b, a ∈ rs → parked (c_hints st') a key = Some b → parked h a key = Some b) →
  (∀ ts, sched ts ≡ₚ ts) → hints_wf h → reliable w →
  (∀ t k b, parked h t k = Some b → deliverable w (t, k, b)) →
  let '(h', w', d) := replayOnce sched h w in
  Size h' = 0%Z ∧ d = Size h ∧ ∀ a, a ∈ rs → net_holds w' a key (Clk v).
Proof.
  intros rs st' Hw Hco Hin Hcw Hack Hsteps Hstill Hsched Hwf Hrel Hdel.
  destruct (client_write_outcome _ _ _ _ _ _ Hw Hco Hcw) as (dn & op & Hout).
  assert (net_ok (absorb (c_self c) st')) as Hw0.
  { eapply write_outcome_keeps; [done|done| |exact Hout]. intros u. by apply (client_write_supersedes _ _ _ _ _ _ _ Hco Hcw). }
  destruct (cluster_steps_keep _ _ Hw0 Hsteps) as [Hw' Hkept].
  unfold replayOnce, snapshot. set (ts := sched (tasks_of (hints h))).
  assert (NoDup ts.*1) as Hnd by (unfold ts; rewrite Hsched; apply NoDup_tasks_fst).
  assert (∀ t k b, (t, k, b) ∈ ts ↔ parked h t k = Some b) as Hts
    by (intros t k b; unfold ts; by rewrite Hsched, elem_of_tasks).
  assert (Forall (deliverable w) ts) as Hall by (apply Forall_forall; intros [[t k] b] Ht; by apply Hdel, Hts).
  pose proof (replay_delivers ts h w 0 0 Hw' Hrel Hnd Hall) as Hr.
  pose proof (replay_tasks ts h w 0 0 Hwf (NoDup_fmap_1 _ _ Hnd) (λ t k b, proj1 (Hts t k b))) as Hs.
  destruct (foldl _ _ ts) as [[[h' w'] d'] f']. destruct Hr as (-> & _ & Hmono & Hdone), Hs as (_ & Hsize & _).
  assert (Size h = len ts) as Elen by (rewrite Size_tasks; unfold ts, len; by rewrite Hsched).
  unfold task in *. split_and!; [lia|lia|]. intros a Ha.
  destruct Hout as [err Hreply _ _ _ _ _|acks blob s replicas need Hcall Hrep Hby Hd Hfo Hreply].
  { by rewrite Hreply in Hack. }
  destruct (decide (a = c_self c)) as [->|Hne].
  - apply Hmono, Hkept. exists s. destruct (fo_store _ _ _ _ _ _ _ _ Hfo) as [_ E]. simpl in E.
    unfold absorb. simpl. rewrite lookup_insert_eq. split; [by f_equal|]. exists [v]. split; [done|]. exists v. set_solver.
  - destruct (fo_all _ _ _ _ _ _ _ _ Hfo a) as [H|H].
    + rewrite (le_arrive e (proj1 Hco)). by apply elem_of_peersExcept.
    + apply Hmono, Hkept. destruct H as (x & Hx & Hc). exists x. unfold absorb. simpl. by rewrite lookup_insert_ne.
    + by apply (Hdone (a, key, blob)); [apply Hts, Hstill|].
Qed.

(** ** Witnesses *)

(** Node a deletes k everywhere; then it collects the tombstone and node b is asked. *)
Definition del_k : Command := mkCommand (str "DEL") [str "k"].
Definition after_del : @outcome (MapStore lfu) (@net (MapStore lfu) MapStore_store) :=
  default (mkOutcome (Error []) before_set id) (coordinate (plain_env 0) (coordinator_of (str "a")) before_set del_k).
Definition net_after_del : @net (MapStore lfu) MapStore_store := absorb (str "a") (o_state after_del).
Definition store_a : MapStore lfu := default empty_store (n_nodes net_after_del !! str "a").
Definition net_after_sweep : @net (MapStore lfu) MapStore_store :=
  with_nodes net_after_del
    (<[str "a" := (sweep (S := MapStore lfu) map_to_list (10 * 1000000000) 0 (λ _, 0%Z) 0 store_a).1.1]> (n_nodes net_after_del)).





(** Node b cannot be dialled once, which a write with W = 1 does not wait for; the
    hint parked for it is replayed. *)
Definition outage : @net (MapStore lfu) MapStore_store :=
  mkNet (n_nodes two_nodes) (λ i, negb (i =? 0)%nat) (λ _, Answered) (λ _, plain_henv) 0 NewPeer.
Definition coordinator_w1 : Coordinator := mkCoordinator (str "a") router_ab 2 1 1.
Definition before_outage : @cstate (MapStore lfu) (@net (MapStore lfu) MapStore_store) := mkC empty_store NewHintStore outage [].
Definition missed : @outcome (MapStore lfu) (@net (MapStore lfu) MapStore_store) :=
  default (mkOutcome (Error []) before_outage id) (coordinate (plain_env 0) coordinator_w1 before_outage set_k).
Definition after_missed : @cstate (MapStore lfu) (@net (MapStore lfu) MapStore_store) := o_background missed (o_state missed).
Definition hint_k : bytes := default [] (parked (c_hints after_missed) (str "b") (str "k")).

Lemma outage_ok : net_ok outage.
Proof. exact two_nodes_ok. Qed.

Lemma outage_coordinates : coordinates (plain_env 0) coordinator_w1 (str "k") before_outage.
Proof.
  split_and!; [apply plain_env_lawful; split; [discriminate|reflexivity]|reflexivity|reflexivity|apply router_ab_sorted|vm_compute; reflexivity].
Qed.

Lemma missed_written : client_write (plain_env 0) coordinator_w1 before_outage (str "k") missed written.
Proof. apply client_set, option_default. vm_compute. reflexivity. Qed.

(** A clock of one node is encoded in only one way. *)
Lemma written_fits : rset_fits (S := MapStore lfu) (Store0 := MapStore_store) empty_store (str "k") written.
Proof.
  intros ord now Hord. assert (Version.Encode ord [written] = Version.Encode (λ _, map_to_list) [written]) as E.
  { unfold Version.Encode. cbn [encode_versions]. f_equal.
    pose proof (Hord 0%nat (Clk written)) as Hp. unfold range_order in Hp.
    change (map_to_list (Clk written)) with [(str "a", 1%N)] in Hp |- *. by apply Permutation_singleton_r in Hp. }
  change (reconcile_all (siblings (Store0 := MapStore_store) empty_store now (str "k")) [written]) with [written].
  rewrite E. vm_compute. reflexivity.
Qed.

Lemma missed_hints : hints (c_hints after_missed) = {[str "b" := {[str "k" := hint_k]}]}.
Proof. apply (bool_decide_unpack _). vm_compute. exact I. Qed.

Lemma hint_deliverable t k b :
  parked (c_hints after_missed) t k = Some b → deliverable (absorb (str "a") after_missed) (t, k, b).
Proof.
  unfold parked. rewrite missed_hints. intros H. destruct (decide (t = str "b")) as [->|Ht].
  2: { rewrite lookup_singleton_ne in H by done. discriminate H. }
  rewrite lookup_singleton_eq in H. simpl in H. destruct (decide (k = str "k")) as [->|Hk].
  2: { rewrite lookup_singleton_ne in H by done. discriminate H. }
  rewrite lookup_singleton_eq in H. apply (inj Some) in H. subst b. exists empty_store, written.
  split; [|split; [vm_compute; reflexivity|apply written_fits]].
  transitivity (Some (default empty_store (n_nodes (absorb (str "a") after_missed) !! str "b"))).
  - apply (option_default empty_store). vm_compute. reflexivity.
  - vm_compute. reflexivity.
Qed.

Lemma outage_over : reliable (absorb (str "a") after_missed).
Proof.
  assert (n_calls (absorb (str "a") after_missed) = 1%nat) as E by (vm_compute; reflexivity).
  assert (n_dial (absorb (str "a") after_missed) = n_dial outage) as Ed by (vm_compute; reflexivity).
  assert (n_attempt (absorb (str "a") after_missed) = n_attempt outage) as Et by (vm_compute; reflexivity).
  intros i Hi. rewrite E in Hi. rewrite Ed, Et. split; [|reflexivity]. destruct i as [|i]; [lia|reflexivity].
Qed.

Lemma missed_hints_wf : hints_wf (c_hints after_missed).
Proof.
  unfold hints_wf. rewrite missed_hints. apply map_Forall_singleton. intros E.
  apply (f_equal (lookup (str "k"))) in E. rewrite lookup_singleton_eq in E. discriminate E.
Qed.

Lemma handoff_completes_witness :
  Size (c_hints after_missed) = 1%Z
  ∧ let '(h', w', d) := replayOnce id (c_hints after_missed) (absorb (str "a") after_missed) in
    Size h' = 0%Z ∧ d = Size (c_hints after_missed)
    ∧ ∀ a, a ∈ Owners router_ab (str "k") 2 → net_holds w' a (str "k") (Clk written).
Proof.
  split; [vm_compute; reflexivity|].
  assert (c_self coordinator_w1 ∈ Owners (c_router coordinator_w1) (str "k") (c_n coordinator_w1)) as Hin.
  { apply (bool_decide_unpack _). vm_compute. exact I. }
  assert (AsError (o_reply missed) = None) as Hack by (vm_compute; reflexivity).
  exact (handoff_completes (plain_env 0) coordinator_w1 before_outage (str "k") missed written (c_hints after_missed)
    (absorb (str "a") after_missed) id outage_ok outage_coordinates Hin missed_written Hack (rtc_refl _ _) (λ a b _ H, H)
    (λ ts, Permutation_refl ts) missed_hints_wf outage_over hint_deliverable).
Defined.

(** ** What collection and the coordinator can do to a write *)

(** Nodes collect tombstones on their own.  After a has collected its tombstone and
    before b has, a SET at a is minted from an empty frontier: its clock is not above
    the tombstone's, so b acknowledges the write and discards it.  The client is told
    OK with W = 2, yet b answers a miss, and as the two versions carry equal clocks no
    repair ever tells them apart. *)
Definition before_set_again : @cstate (MapStore lfu) (@net (MapStore lfu) MapStore_store) :=
  mkC (default empty_store (n_nodes net_after_sweep !! str "a")) NewHintStore net_after_sweep [].
Definition set_again : @outcome (MapStore lfu) (@net (MapStore lfu) MapStore_store) :=
  default (mkOutcome (Error []) before_set_again id)
    (coordinate (plain_env 11) (coordinator_of (str "a")) before_set_again set_k).
Definition siblings_at (w : @net (MapStore lfu) MapStore_store) (a : bytes) : list Version :=
  siblings (Store0 := MapStore_store) (default empty_store (n_nodes w !! a)) 12 (str "k").

Lemma set_after_collection_lost :
  let w := absorb (str "a") (o_background set_again (o_state set_again)) in
  o_reply set_again = SimpleString (str "OK")
  ∧ siblings_at w (str "a") = [mkVersion (str "v") {[str "a" := 1%N]} false 0]
  ∧ siblings_at w (str "b") = [Tombstone {[str "a" := 1%N]} 0]
  ∧ o_reply (read (plain_env 12) (coordinator_of (str "b")) (mkC (default empty_store (n_nodes w !! str "b")) NewHintStore w []) (str "k"))
    = BulkString None.
Proof.
  assert (∀ vs ws : list Version, bool_decide (vs = ws) = true → vs = ws) as Hdec by (intros; by eapply bool_decide_eq_true).
  intros w. split; [vm_compute; reflexivity|]. split; [apply Hdec; vm_compute; reflexivity|].
  split; [apply Hdec; vm_compute; reflexivity|]. vm_compute. reflexivity.
Qed.

(** A clustered SET takes no notice of EX and PX: the value never expires. *)
Lemma clustered_set_ignores_ttl {S} `{!Store S} (e : @env S _) (c : Coordinator) (st : @cstate S (@net S _)) key value opt n :
  coordinate e c st (mkCommand (str "SET") [key; value; opt; n])
  = coordinate e c st (mkCommand (str "SET") [key; value]).
Proof. reflexivity. Qed.

