(* ===== verification/Converge.v ===== *)
(** * A cluster that keeps pulling (internal/server/antientropy.go)

    Each node's anti-entropy loop pulls from one peer at a time.  Here many nodes do,
    in any order, and whatever the order is, once word of every node has reached
    every other, directly or through others, all stores agree. *)

From S2P Require Import Prelude Telemetry Binenc Resp Sha256 Merkle Vclock Version Sketch Policy MapStore ShardedStore.
From S2P Require Import Membership Ring Router Replica AntiEntropy Handoff Coordinator Handler Server Peer.
From S2P Require Import Cluster Sync.

(** ** Stores that agree *)

Section agreement.
Context {S : Type} `{!Store S, !StoreLaws S}.
Implicit Types s : S.

(** Two stores cover the same histories of a key. *)
Definition in_agreement s s' (key : bytes) : Prop := ∀ c, holds s key c ↔ holds s' key c.

Lemma keeps_map_holds s m t key v : keeps_map s m → v ∈ siblings s t key → holds s key (Clk v).
Proof.
  intros Hm. unfold siblings, slive. specialize (Hm key). rewrite Hm. destruct (m !! key) as [b|]; simpl; [|by intros ?%elem_of_nil].
  unfold decode_or_nil. destruct (Decode b) as [vs| |] eqn:E; [|by intros ?%elem_of_nil..]. intros Hv.
  exists vs. split; [by exists b|auto with kyria].
Qed.

(** Sibling sets that cover each other are the same set when one history names one
    version. *)
Lemma antichains_agree (A B V : list Version) :
  antichain A → antichain B → unique_clocks V → Forall (.∈ V) A → Forall (.∈ V) B →
  (∀ v, v ∈ A → covers B (Clk v)) → (∀ v, v ∈ B → covers A (Clk v)) → A ≡ₚ B.
Proof.
  intros Ha Hb Hu HA HB HAB HBA. rewrite Forall_forall in HA, HB.
  assert (∀ X Y v, antichain X → (∀ v, v ∈ X → v ∈ V) → (∀ v, v ∈ Y → v ∈ V) → (∀ v, v ∈ X → covers Y (Clk v)) →
    (∀ v, v ∈ Y → covers X (Clk v)) → v ∈ X → v ∈ Y) as Hin.
  { intros X Y v HX HXV HYV HXY HYX Hv. destruct (HXY v Hv) as (u & Hu1 & Hle). destruct (HYX u Hu1) as (v' & Hv' & Hle').
    assert (v = v') as <- by (eapply antichain_maximal; [done..|]; by trans (Clk u)).
    assert (v = u) as ->; [|done]. apply Hu; [auto..|]. by apply clock_equiv_le. }
  apply NoDup_Permutation; [by apply antichain_NoDup..|]. intros v. split; apply Hin; auto.
Qed.

(** ** Rounds *)

(** The stores of the nodes, changed by rounds of [syncWith]: [(a, b)] is a round
    at node [a] that pulls from [b]. *)
Inductive rounds : gmap bytes S → list (bytes * bytes) → gmap bytes S → Prop :=
| rounds_nil n : rounds n [] n
| rounds_pull n a b s sb ae o rnow now clk ord (w : @net S _) m s' w' ps n' :
    n !! a = Some s → n !! b = Some sb → round_ready ae o rnow now clk ord s sb w b m →
    syncWith ae o rnow now clk ord s w b = Some (s', w') →
    rounds (<[a := s']> n) ps n' → rounds n ((a, b) :: ps) n'.

(** The nodes whose versions have reached [x] after the rounds. *)
Fixpoint heard_from (ps : list (bytes * bytes)) (K : bytes → gset bytes) : bytes → gset bytes :=
  match ps with
  | [] => K
  | (a, b) :: ps => heard_from ps (λ x, if decide (x = a) then K a ∪ K b else K x)
  end.
Definition heard_of (ps : list (bytes * bytes)) : bytes → gset bytes := heard_from ps (λ x, {[x]}).

(** What is known of each store relative to the stores at the start. *)
Definition caught_up (n0 n : gmap bytes S) (K : bytes → gset bytes) : Prop :=
  ∀ a s, n !! a = Some s →
    store_antichains s
    ∧ (∀ x s0 key c, x ∈ K a → n0 !! x = Some s0 → holds s0 key c → holds s key c)
    ∧ ∀ key Q, (∀ x s0, n0 !! x = Some s0 → store_only s0 key Q) → store_only s key Q.

Lemma rounds_caught_up n0 n ps n' K : rounds n ps n' → caught_up n0 n K → caught_up n0 n' (heard_from ps K).
Proof.
  intros Hr. revert K. induction Hr as [n|n a b s sb ae o rnow now clk ord w m s' w' ps n' Ha Hb Hready Hsync Hr IH]; intros K HK; [done|].
  destruct (round_catches_up _ _ _ _ _ _ _ _ _ _ _ Hready) as (s1 & w1 & E & _ & Hfrom & Hkeep & Honly & Hanti & _).
  rewrite E in Hsync. injection Hsync as <- <-. apply IH.
  destruct (HK a s Ha) as (A1 & A2 & A3), (HK b sb Hb) as (B1 & B2 & B3).
  intros x sx. rewrite lookup_insert. destruct (decide (a = x)) as [<-|Hne].
  - intros [= <-]. rewrite decide_True by done. split_and!; [auto| |auto].
    intros y s0 key c [Hy|Hy]%elem_of_union H0 Hc; eauto.
  - rewrite decide_False by done. apply HK.
Qed.
End agreement.

(** ** Properties *)

(** C13: anti-entropy makes a cluster of any size agree. Let nodes pull from one
    another in any order, each round with its calls getting through, no eviction, no
    digest collision, room for the merged siblings and nothing else writing
    ([round_ready]). If by then every node has heard of every other, directly or
    through the nodes between, then all stores cover the same histories of every
    key, all that any node covered at the start included. They hold the same
    siblings of those keys of which no two different versions anywhere carry equal
    clocks; of two versions with equal clocks, which
    Repair.set_after_collection_lost reaches, different nodes may keep different
    ones. *)
Theorem antientropy_converges {S} `{!Store S, !StoreLaws S} (nodes nodes' : gmap bytes S) (ps : list (bytes * bytes)) :
  rounds nodes ps nodes' →
  (∀ a s, nodes !! a = Some s → store_antichains s ∧ ∃ m, keeps_map s m) →
  (∀ a b, a ∈ dom nodes' → b ∈ dom nodes → b ∈ heard_of ps a) →
  ∀ a sa b sb key, nodes' !! a = Some sa → nodes' !! b = Some sb →
    (∀ x s c, nodes !! x = Some s → holds s key c → holds sa key c)
    ∧ in_agreement sa sb key
    ∧ ∀ V, unique_clocks V → (∀ x s, nodes !! x = Some s → store_only s key (.∈ V)) →
        ∀ t, siblings sa t key ≡ₚ siblings sb t key.
Proof.
  intros Hr H0 Hall a sa b sb key Ha Hb.
  assert (caught_up nodes nodes (λ x, {[x]})) as Hc0.
  { intros x s Hx. split_and!; [by apply (H0 x)| |by intros key' Q HQ; apply (HQ x)].
    intros y s0 key' c ->%elem_of_singleton Hy. by simplify_eq. }
  pose proof (rounds_caught_up _ _ _ _ _ Hr Hc0) as Hc. fold (heard_of ps) in Hc.
  set (Q v := ∃ x s, nodes !! x = Some s ∧ holds s key (Clk v)).
  assert (∀ x s, nodes !! x = Some s → store_only s key Q) as HQ.
  { intros x s Hx t. apply Forall_forall. intros v Hv. exists x, s. split; [done|].
    destruct (proj2 (H0 x s Hx)) as [m Hm]. by eapply keeps_map_holds. }
  assert (∀ y sy, nodes' !! y = Some sy → ∀ x s c, nodes !! x = Some s → holds s key c → holds sy key c) as Hin.
  { intros y sy Hy x s c Hx. apply (proj1 (proj2 (Hc y sy Hy)) x); [|done]. apply Hall; by eapply elem_of_dom_2. }
  assert (∀ y sy z sz t v, nodes' !! y = Some sy → nodes' !! z = Some sz → v ∈ siblings sy t key → holds sz key (Clk v)) as Hsib.
  { intros y sy z sz t v Hy Hz Hv. pose proof (proj2 (proj2 (Hc y sy Hy)) key Q HQ t) as HF. rewrite Forall_forall in HF.
    destruct (HF v Hv) as (x & s & Hx & Hh). by apply (Hin z sz Hz x s). }
  assert (∀ y sy z sz, nodes' !! y = Some sy → nodes' !! z = Some sz → ∀ c, holds sy key c → holds sz key c) as Hle.
  { intros y sy z sz Hy Hz c (vs & Hrep & v & Hv & Hle). eapply holds_le; [exact Hle|].
    apply (Hsib y sy z sz 0%Z v Hy Hz). by rewrite (replicated_siblings _ _ _ _ Hrep). }
  split_and!; [by apply (Hin a sa)|intros c; split; [by apply (Hle a sa b sb)|by apply (Hle b sb a sa)]|]. intros V HV HVall t.
  apply (antichains_agree _ _ V); [apply (Hc a sa Ha)|apply (Hc b sb Hb)|done
    |apply (proj2 (proj2 (Hc a sa Ha)) key _ HVall)|apply (proj2 (proj2 (Hc b sb Hb)) key _ HVall)|..].
  - intros v Hv. apply holds_siblings. by apply (Hsib a sa b sb t).
  - intros v Hv. apply holds_siblings. by apply (Hsib b sb a sa t).
Qed.

(** ** Witnesses *)

(** Nodes a and b hold concurrent versions of k; a pulls from b, then b from a. *)
Definition blob_of (v : Version) : bytes := Version.Encode (λ _, map_to_list) [v].
Definition version_a : Version := v_ex "x" {[str "a" := 1%N]}.
Definition version_b : Version := v_ex "y" {[str "b" := 1%N]}.
Definition holding (v : Version) : MapStore lfu :=
  (sUpdateReplica (Store := MapStore_store) map_to_list empty_store 0 (str "k") (λ _, (blob_of v, ()))).1.1.
Definition net_with (a : bytes) (s : MapStore lfu) : @net (MapStore lfu) MapStore_store :=
  mkNet {[a := s]} (λ _, true) (λ _, Answered) (λ _, plain_henv) 0 NewPeer.
Definition pull_at (a : bytes) (s : MapStore lfu) (b : bytes) (sb : MapStore lfu) : option (MapStore lfu * @net (MapStore lfu) MapStore_store) :=
  @syncWith (MapStore lfu) (@net (MapStore lfu) MapStore_store) MapStore_store net_syncer
    (mkAntiEntropy a 1) map_to_list (λ _, 0%Z) 0 (λ _ _, map_to_list) map_to_list s (net_with b sb) b.
Definition pull_from (a : bytes) (s : MapStore lfu) (b : bytes) (sb : MapStore lfu) : MapStore lfu :=
  default empty_store (fst <$> pull_at a s b sb).
Definition a_with_b : MapStore lfu := pull_from (str "a") (holding version_a) (str "b") (holding version_b).
Definition blob_ab : bytes := Version.Encode (λ _, map_to_list) [version_a; version_b].
Definition pair_of_nodes : gmap bytes (MapStore lfu) := {[str "a" := holding version_a; str "b" := holding version_b]}.
Definition both_ways : list (bytes * bytes) := [(str "a", str "b"); (str "b", str "a")].
Definition b_with_a : MapStore lfu := pull_from (str "b") (holding version_b) (str "a") a_with_b.
Definition pair_after : gmap bytes (MapStore lfu) := <[str "b" := b_with_a]> (<[str "a" := a_with_b]> pair_of_nodes).

Lemma one_key_keeps (s : MapStore lfu) k b :
  bool_decide (dom (data s) = {[k]}) = true → bool_decide (view s k = Some (b, None)) = true →
  keeps_map (Store0 := MapStore_store) s {[k := b]}.
Proof.
  intros Hd%bool_decide_eq_true Hv%bool_decide_eq_true k'. change (view s k' = (λ b, (b, None)) <$> ({[k := b]} : gmap bytes bytes) !! k').
  destruct (decide (k' = k)) as [->|Hne]; [by rewrite lookup_singleton_eq, Hv|].
  rewrite lookup_singleton_ne by done. unfold view.
  assert (data s !! k' = None) as -> by (apply not_elem_of_dom; rewrite Hd; set_solver). done.
Qed.

Lemma one_key_antichains (s : MapStore lfu) k b :
  keeps_map (Store0 := MapStore_store) s {[k := b]} → antichain (decode_or_nil b) → store_antichains (Store0 := MapStore_store) s.
Proof.
  intros Hk Ha now key. unfold siblings, slive. rewrite Hk. destruct (decide (key = k)) as [->|Hne].
  - by rewrite lookup_singleton_eq.
  - rewrite lookup_singleton_ne by done. constructor.
Qed.

Lemma Ok_inj {E A} (x y : A) : @Ok E A x = Ok y → x = y.
Proof. by intros [= ->]. Qed.

Lemma antichain_singleton v : antichain [v].
Proof. repeat constructor. Qed.

(** Trees of one leaf. *)
Definition one_leaf (es : list (bytes * bytes)) : Tree :=
  match tree_over 1 es with Ok t => t | Err _ | Panic => mkTree 0 [] end.

Lemma one_leaf_eq es : tree_over 1 es = Ok (one_leaf es).
Proof. unfold one_leaf. by destruct (tree_over_wf 1 es ltac:(lia)) as (t0 & t & _ & -> & _). Qed.

(** A round between two nodes that hold only k. *)
Lemma one_key_ready a (s sb : MapStore lfu) addr blob blob_b :
  store_ok (Store0 := MapStore_store) s → store_ok (Store0 := MapStore_store) sb → ¬ sevicts (Store := MapStore_store) s →
  keeps_map (Store0 := MapStore_store) s {[str "k" := blob]} → keeps_map (Store0 := MapStore_store) sb {[str "k" := blob_b]} →
  let t := one_leaf (sRange (Store := MapStore_store) map_to_list s (λ _, 0%Z)) in
  let tb := one_leaf (map_to_list ({[str "k" := blob_b]} : gmap bytes bytes)) in
  no_alias_b (rooted t) (rooted (received tb)) = true →
  bool_decide (leaf t (Z.to_nat (Bucket t (str "k"))) = leaf tb (Z.to_nat (Bucket t (str "k")))) = false →
  (len blob_b < 2 ^ 32)%Z → pull_fits (Store0 := MapStore_store) (λ _ _, map_to_list) s 0 (str "k") blob_b →
  round_ready (Store0 := MapStore_store) (mkAntiEntropy a 1) map_to_list (λ _, 0%Z) 0 (λ _ _, map_to_list) map_to_list
    s sb (net_with addr sb) addr {[str "k" := blob_b]}.
Proof.
  intros Hs Hsb Hne Hk Hkb t tb Hna Hleaf%bool_decide_eq_false Hlen Hfit. split.
  - exact Hs.
  - apply lawful_map_to_list.
  - intros k. apply lawful_clock_map_to_list.
  - intros m. unfold range_order. reflexivity.
  - exact Hne.
  - split.
    + intros i _. split; reflexivity.
    + intros a' c Hc. unfold idle_of in Hc. simpl in Hc. rewrite lookup_empty in Hc. by apply elem_of_nil in Hc.
    + apply lookup_singleton_eq.
    + exact (proj1 Hsb).
    + exact Hkb.
    + intros i. apply lawful_map_to_list.
    + intros i m. unfold range_order. reflexivity.
    + rewrite map_size_singleton. reflexivity.
    + intros k b [<- <-]%lookup_singleton_Some. split; [reflexivity|exact Hlen].
  - simpl. lia.
  - intros t' tb' Ht Htb. cbn [a_leaves] in Ht, Htb. rewrite one_leaf_eq in Ht, Htb. apply Ok_inj in Ht as <-. apply Ok_inj in Htb as <-.
    split; [by apply no_alias_b_spec|]. intros key Hl. rewrite Hk, Hkb.
    destruct (decide (key = str "k")) as [->|Hn]; [destruct (Hleaf Hl)|]. by rewrite !lookup_singleton_ne.
  - intros key b [<- <-]%lookup_singleton_Some. exact Hfit.
Qed.

Lemma holding_ok v : store_ok (Store0 := MapStore_store) (holding v) ∧ ¬ sevicts (Store := MapStore_store) (holding v).
Proof.
  pose proof (law_UpdateReplica (Store0 := MapStore_store) map_to_list empty_store 0 (str "k")
    (λ _, (blob_of v, ())) (proj1 (proj1 empty_store_ok)) lawful_map_to_list) as H.
  cbv zeta in H. unfold holding.
  destruct (sUpdateReplica (Store := MapStore_store) map_to_list empty_store 0 (str "k") _) as [[s r] x] eqn:E.
  destruct H as (_ & Hc & _). split; [by eapply store_ok_call; [apply empty_store_ok|]|].
  intros He. apply (proj2 empty_store_ok). by apply Hc.
Qed.

(** One round of the example. *)
Lemma one_key_round a (s sb : MapStore lfu) b blob blob_b n ps n' :
  store_ok (Store0 := MapStore_store) s → store_ok (Store0 := MapStore_store) sb → ¬ sevicts (Store := MapStore_store) s →
  keeps_map (Store0 := MapStore_store) s {[str "k" := blob]} → keeps_map (Store0 := MapStore_store) sb {[str "k" := blob_b]} →
  let t := one_leaf (sRange (Store := MapStore_store) map_to_list s (λ _, 0%Z)) in
  let tb := one_leaf (map_to_list ({[str "k" := blob_b]} : gmap bytes bytes)) in
  no_alias_b (rooted t) (rooted (received tb)) = true →
  bool_decide (leaf t (Z.to_nat (Bucket t (str "k"))) = leaf tb (Z.to_nat (Bucket t (str "k")))) = false →
  (len blob_b < 2 ^ 32)%Z → pull_fits (Store0 := MapStore_store) (λ _ _, map_to_list) s 0 (str "k") blob_b →
  n !! a = Some s → n !! b = Some sb →
  store_ok (Store0 := MapStore_store) (pull_from a s b sb)
  ∧ (rounds (Store0 := MapStore_store) (<[a := pull_from a s b sb]> n) ps n' → rounds (Store0 := MapStore_store) n ((a, b) :: ps) n').
Proof.
  intros Hs Hsb Hne Hk Hkb t tb Hna Hleaf Hlen Hfit Ha Hb.
  pose proof (one_key_ready a s sb b blob blob_b Hs Hsb Hne Hk Hkb Hna Hleaf Hlen Hfit) as Hready.
  destruct (round_catches_up _ _ _ _ _ _ _ _ _ _ _ Hready) as (s' & w' & E & _ & _ & _ & _ & _ & Hok).
  assert (pull_from a s b sb = s') as -> by (unfold pull_from, pull_at; rewrite E; reflexivity).
  split; [exact Hok|]. intros Hr. eapply rounds_pull; [exact Ha|exact Hb|exact Hready|exact E|exact Hr].
Qed.

Lemma antientropy_converges_witness :
  rounds (Store0 := MapStore_store) pair_of_nodes both_ways pair_after
  ∧ in_agreement (Store0 := MapStore_store) a_with_b b_with_a (str "k").
Proof.
  assert (keeps_map (Store0 := MapStore_store) (holding version_a) {[str "k" := blob_of version_a]}) as Hka
    by (apply one_key_keeps; vm_compute; reflexivity).
  assert (keeps_map (Store0 := MapStore_store) (holding version_b) {[str "k" := blob_of version_b]}) as Hkb
    by (apply one_key_keeps; vm_compute; reflexivity).
  destruct (holding_ok version_a) as [Ha Hna]. destruct (holding_ok version_b) as [Hb Hnb].
  assert (rounds (Store0 := MapStore_store) pair_of_nodes both_ways pair_after) as Hr.
  { destruct (one_key_round (str "a") (holding version_a) (holding version_b) (str "b") (blob_of version_a) (blob_of version_b)
      pair_of_nodes (tail both_ways) pair_after) as [Hok1 Hr1]; [exact Ha|exact Hb|exact Hna|exact Hka|exact Hkb|vm_compute; reflexivity..|].
    apply Hr1.
    destruct (one_key_round (str "b") (holding version_b) a_with_b (str "a") (blob_of version_b) blob_ab
      (<[str "a" := a_with_b]> pair_of_nodes) [] pair_after) as [_ Hr2];
      [exact Hb|exact Hok1|exact Hnb|exact Hkb|apply one_key_keeps; vm_compute; reflexivity|vm_compute; reflexivity..| | |].
    - rewrite lookup_insert_ne by discriminate. reflexivity.
    - apply lookup_insert_eq.
    - apply Hr2. apply rounds_nil. }
  split; [exact Hr|].
  apply (antientropy_converges pair_of_nodes pair_after both_ways Hr) with (a := str "a") (b := str "b").
  - intros a s Hs. unfold pair_of_nodes in Hs.
    apply lookup_insert_Some in Hs as [[_ <-]|[_ [_ <-]%lookup_singleton_Some]];
      (split; [eapply one_key_antichains; [eassumption|]|eexists; eassumption]).
    + assert (decode_or_nil (blob_of version_a) = [version_a]) as -> by (vm_compute; reflexivity). apply antichain_singleton.
    + assert (decode_or_nil (blob_of version_b) = [version_b]) as -> by (vm_compute; reflexivity). apply antichain_singleton.
  - intros a b Hda Hdb. assert (a ∈ ({[str "a"; str "b"]} : gset bytes)) as Hda'.
    { unfold pair_after, pair_of_nodes in Hda. rewrite !dom_insert, dom_singleton in Hda. set_solver. }
    assert (b ∈ ({[str "a"; str "b"]} : gset bytes)) as Hdb'.
    { unfold pair_of_nodes in Hdb. rewrite !dom_insert, dom_singleton in Hdb. set_solver. }
    revert a b Hda Hdb Hda' Hdb'. clear. intros a b _ _ Ha Hb.
    assert (({[str "a"; str "b"]} : gset bytes) ⊆ heard_of both_ways (str "a")
      ∧ ({[str "a"; str "b"]} : gset bytes) ⊆ heard_of both_ways (str "b")) as [H1 H2]
      by (split; apply (bool_decide_unpack _); vm_compute; exact Logic.I).
    apply elem_of_union in Ha as [->%elem_of_singleton| ->%elem_of_singleton]; [by apply H1|by apply H2].
  - unfold pair_after. rewrite lookup_insert_ne by discriminate. apply lookup_insert_eq.
  - apply lookup_insert_eq.
Defined.
