(* ===== verification/Loops.v ===== *)
(** * Background loops (janitor.go, handoff.go, antientropy.go, tombstonegc.go,
      router.go, gossip.go)

    Every background component of a node is one goroutine, or two for the
    gossiper, that takes turns until it is told to stop.  The constructor launches
    it, or for the router and the gossiper [Start] does, each time it is called.
    A goroutine on a ticker first calls [time.NewTicker], which panics unless the
    interval is positive; one that reads a connection ends when a read fails.  A
    panic, there or in a turn, ends the process.
    [Stop] closes a channel, guarded by a [sync.Once], and for the gossiper its
    connection with it, then waits for every goroutine launched.  When a tick and
    the closed channel are both ready [select] may take either, and a packet read
    before the close is still merged, so turns can follow the call of [Stop].
    Between turns the other parts of the node change the shared state
    ([step_other]). *)

From S2P Require Import Prelude Telemetry Binenc Resp Vclock Version Sketch Policy MapStore ShardedStore.
From S2P Require Import Membership Gossip Ring Router Sha256 Merkle Replica AntiEntropy TombstoneGC Handoff.

(** ** The protocol *)

(** A goroutine: launched, in its loop, returned. *)
Inductive gphase : Type := Launched | Looping | Gone.

#[global] Instance gphase_eq_dec : EqDecision gphase.
Proof. solve_decision. Defined.

Inductive loop_event : Type :=
| Started
| Entered (i : nat)
| Panicked (i : nat)
| Turn (i : nat)
| StopCalled
| Exited (i : nat)
| StopReturned
| Other.

#[global] Instance loop_event_eq_dec : EqDecision loop_event.
Proof. solve_decision. Defined.

(** The steps a goroutine takes by itself, turns apart. *)
Definition own_event (e : loop_event) : Prop := match e with Entered _ | Exited _ => True | _ => False end.

Section loop.
Context {T : Type}.

(** What a goroutine waits for, and what a turn of it does to the shared state;
    [None] is a turn that panics. *)
Inductive routine : Type :=
| Ticks (interval : Z) (body : T → option T → Prop)
| Reads (body : T → option T → Prop).

Definition body_of (g : routine) : T → option T → Prop := match g with Ticks _ body | Reads body => body end.

(** Whether the goroutine gets to its loop. *)
Definition ticker_ok (g : routine) : bool := match g with Ticks d _ => (0 <? d)%Z | Reads _ => true end.

Definition reads_conn (g : routine) : bool := match g with Ticks _ _ => false | Reads _ => true end.

(** The goroutines of a component, and whether its constructor launches them. *)
Record loopSpec : Type := mkLoopSpec {
  routines : list routine;
  by_constructor : bool
}.

Variable c : loopSpec.

(** [once] is the state of [stopOnce], [stopped] says that the stop channel is
    closed; [gs] are the goroutines launched so far, each with its number among
    the [routines]; a panic ends the process. *)
Record loop_state : Type := mkLoop {
  once : bool;
  stopped : bool;
  panicked : bool;
  gs : list (nat * gphase);
  shared : T
}.

Definition launch : list (nat * gphase) := (λ k, (k, Launched)) <$> seq 0 (length (routines c)).

Definition start (t : T) : loop_state :=
  mkLoop false false false (if by_constructor c then launch else []) t.

(** [stopOnce.Do(func() { close(stop) })]: closing a closed channel panics. *)
Definition close_stop (l : loop_state) : option loop_state :=
  if once l then Some l
  else if stopped l then None
  else Some (mkLoop true true (panicked l) (gs l) (shared l)).

Definition with_phase (l : loop_state) (i k : nat) (ph : gphase) (t : T) : loop_state :=
  mkLoop (once l) (stopped l) (panicked l) (<[i := (k, ph)]> (gs l)) t.

Inductive loop_step : loop_state → loop_event → loop_state → Prop :=
| step_start l :                       (** [Start] *)
    panicked l = false → by_constructor c = false →
    loop_step l Started (mkLoop (once l) (stopped l) false (gs l ++ launch) (shared l))
| step_enter l i k g :                 (** [time.NewTicker] returns *)
    panicked l = false → gs l !! i = Some (k, Launched) → routines c !! k = Some g → ticker_ok g = true →
    loop_step l (Entered i) (with_phase l i k Looping (shared l))
| step_panic l i k g :                 (** [time.NewTicker] panics *)
    panicked l = false → gs l !! i = Some (k, Launched) → routines c !! k = Some g → ticker_ok g = false →
    loop_step l (Panicked i) (mkLoop (once l) (stopped l) true (gs l) (shared l))
| step_turn l i k g t' :
    panicked l = false → gs l !! i = Some (k, Looping) → routines c !! k = Some g → body_of g (shared l) (Some t') →
    loop_step l (Turn i) (with_phase l i k Looping t')
| step_turn_panics l i k g :
    panicked l = false → gs l !! i = Some (k, Looping) → routines c !! k = Some g → body_of g (shared l) None →
    loop_step l (Panicked i) (mkLoop (once l) (stopped l) true (gs l) (shared l))
| step_stop l l' :
    panicked l = false → close_stop l = Some l' → loop_step l StopCalled l'
| step_exit l i k :                    (** [<-stop], or the read of a closed connection *)
    panicked l = false → gs l !! i = Some (k, Looping) → stopped l = true →
    loop_step l (Exited i) (with_phase l i k Gone (shared l))
| step_fail l i k g :                  (** a read fails *)
    panicked l = false → gs l !! i = Some (k, Looping) → routines c !! k = Some g → reads_conn g = true →
    loop_step l (Exited i) (with_phase l i k Gone (shared l))
| step_returned l :                    (** [<-done], [wg.Wait()] *)
    panicked l = false → once l = true → Forall (λ g, g.2 = Gone) (gs l) → loop_step l StopReturned l
| step_other l t' :
    panicked l = false → loop_step l Other (mkLoop (once l) (stopped l) false (gs l) t').

Inductive loop_trace : loop_state → list loop_event → loop_state → Prop :=
| trace_nil l : loop_trace l [] l
| trace_cons l1 e l2 es l3 : loop_step l1 e l2 → loop_trace l2 es l3 → loop_trace l1 (e :: es) l3.

(** How often the goroutines have been launched. *)
Definition launches (es : list loop_event) : nat :=
  (if by_constructor c then 1 else 0) + length (filter (λ e, e = Started) es).

(** ** Lemmas *)

Lemma trace_app l1 es1 es2 l3 :
  loop_trace l1 (es1 ++ es2) l3 ↔ ∃ l2, loop_trace l1 es1 l2 ∧ loop_trace l2 es2 l3.
Proof.
  split.
  - revert l1. induction es1 as [|e es1 IH]; intros l1 H; simpl in H.
    + exists l1. split; [constructor|done].
    + inversion H as [|? ? l' ? ? Hs Ht]; subst. destruct (IH _ Ht) as (l2 & H1 & H2).
      exists l2. split; [by econstructor|done].
  - intros (l2 & H1 & H2). induction H1 as [|? ? ? ? ? Hs _ IH]; [done|]. simpl. econstructor; eauto.
Qed.

Lemma launch_numbers : launch.*1 = seq 0 (length (routines c)).
Proof. unfold launch. by rewrite <-list_fmap_compose, (list_fmap_ext _ id), list_fmap_id by done. Qed.

(** The goroutines keep their numbers, and new ones come last. *)
Lemma step_numbers l e l' :
  loop_step l e l' → (gs l').*1 = (gs l).*1 ++ (if decide (e = Started) then seq 0 (length (routines c)) else []).
Proof.
  assert (∀ k i ph (g : list (nat * gphase)), g !! i = Some (k, ph) → ∀ ph', (<[i := (k, ph')]> g).*1 = g.*1) as Hk.
  { intros k i ph g Hg ph'. rewrite list_fmap_insert. apply list_insert_id. rewrite list_lookup_fmap, Hg. done. }
  intros Hs. destruct Hs as [l Hp Hc|l i k g Hp Hg Hr Hd|l i k g Hp Hg Hr Hd|l i k g t' Hp Hg Hr Hb|l i k g Hp Hg Hr Hb|l l' Hp Hc|l i k Hp Hg Hst|l i k g Hp Hg Hr Hf|l Hp Ho Hall|l t' Hp];
    [rewrite decide_True by done|rewrite decide_False, app_nil_r by done..]; unfold with_phase; cbn [gs]; try done; try by eapply Hk.
  - by rewrite fmap_app, launch_numbers.
  - unfold close_stop in Hc. repeat case_match; by simplify_eq.
Qed.

Lemma trace_numbers l es l' :
  loop_trace l es l' →
  (gs l').*1 = (gs l).*1 ++ mjoin (replicate (length (filter (λ e, e = Started) es)) (seq 0 (length (routines c)))).
Proof.
  induction 1 as [l|l1 e l2 es l3 Hs _ IH]; [by rewrite app_nil_r|].
  rewrite IH, (step_numbers _ _ _ Hs), <-app_assoc. f_equal. rewrite filter_cons. by case_decide.
Qed.

Lemma trace_same l es l' : loop_trace l es l' → Started ∉ es → (gs l').*1 = (gs l).*1.
Proof.
  intros Ht Hn. rewrite (trace_numbers _ _ _ Ht).
  assert (filter (λ e, e = Started) es = []) as ->; [|by rewrite app_nil_r].
  clear Ht. induction es as [|e es IH]; [done|]. apply not_elem_of_cons in Hn as [? ?].
  rewrite filter_cons_False by congruence. auto.
Qed.

Lemma numbers_keep l es l' i k ph :
  loop_trace l es l' → gs l !! i = Some (k, ph) → ∃ ph', gs l' !! i = Some (k, ph').
Proof.
  intros Ht Hg. assert ((gs l').*1 !! i = Some k) as H.
  { rewrite (trace_numbers _ _ _ Ht). apply lookup_app_l_Some. by rewrite list_lookup_fmap, Hg. }
  rewrite list_lookup_fmap in H. destruct (gs l' !! i) as [[k' ph']|]; simplify_eq/=. by exists ph'.
Qed.

(** [sync.Once] and the channel agree. *)
Record loop_inv (es : list loop_event) (l : loop_state) : Prop := {
  li_once : stopped l = once l;
  li_called : once l = true ↔ StopCalled ∈ es;
  li_unsound : ∀ i k g ph, gs l !! i = Some (k, ph) → routines c !! k = Some g → ticker_ok g = false → ph = Launched;
  li_running : once l = false → ∀ i k g ph, gs l !! i = Some (k, ph) → routines c !! k = Some g → reads_conn g = false → ph ≠ Gone;
  li_panic : panicked l = true → ∃ k g, routines c !! k = Some g ∧ (ticker_ok g = false ∨ ∃ t, body_of g t None)
}.

Lemma launch_phase i k ph : launch !! i = Some (k, ph) → ph = Launched.
Proof. unfold launch. rewrite list_lookup_fmap. destruct (seq _ _ !! i); simpl; intros; by simplify_eq. Qed.

Lemma start_inv t : loop_inv [] (start t).
Proof.
  assert (∀ i k ph, gs (start t) !! i = Some (k, ph) → ph = Launched) as H.
  { intros i k ph. simpl. destruct (by_constructor c); [apply launch_phase|by rewrite lookup_nil]. }
  split; try done.
  - split; [done|by intros ?%elem_of_nil].
  - intros i k g ph Hg _ _. by eapply H.
  - intros _ i k g ph Hg _ _ ->. by specialize (H _ _ _ Hg).
Qed.

Lemma phase_inv es e l i k g ph ph' t :
  loop_inv es l → e ≠ StopCalled → gs l !! i = Some (k, ph) → routines c !! k = Some g → ticker_ok g = true →
  (ph' = Gone → once l = true ∨ reads_conn g = true) → loop_inv (es ++ [e]) (with_phase l i k ph' t).
Proof.
  intros [H1 H2 H3 H4 H5] He Hg Hr Hsnd Hgone. split; try done; unfold with_phase; cbn [once gs].
  - rewrite H2. set_solver.
  - intros j k' g' q Hj Hr' Hd. destruct (decide (i = j)) as [->|Hne].
    + rewrite list_lookup_insert_eq in Hj by (by eapply lookup_lt_Some). congruence.
    + rewrite list_lookup_insert_ne in Hj by done. by eapply H3.
  - intros Ho j k' g' q Hj Hr' Hd. destruct (decide (i = j)) as [->|Hne].
    + rewrite list_lookup_insert_eq in Hj by (by eapply lookup_lt_Some). simplify_eq. intros ->.
      destruct (Hgone eq_refl); congruence.
    + rewrite list_lookup_insert_ne in Hj by done. by eapply H4.
Qed.

(** A goroutine in its loop has a positive interval, if it ticks. *)
Lemma looping_ticker es l i k : loop_inv es l → gs l !! i = Some (k, Looping) → ∀ g, routines c !! k = Some g → ticker_ok g = true.
Proof. intros Hi Hg g Hr. destruct (ticker_ok g) eqn:E; [done|]. by specialize (li_unsound _ _ Hi _ _ _ _ Hg Hr E). Qed.

Lemma in_routines es l i k ph t : loop_trace (start t) es l → gs l !! i = Some (k, ph) → is_Some (routines c !! k).
Proof.
  intros Ht Hg. apply lookup_lt_is_Some. assert (k ∈ (gs l).*1) as Hin.
  { apply list_elem_of_lookup. exists i. by rewrite list_lookup_fmap, Hg. }
  rewrite (trace_numbers _ _ _ Ht) in Hin. apply elem_of_app in Hin as [Hin|Hin].
  - simpl in Hin. destruct (by_constructor c); [|by apply elem_of_nil in Hin].
    rewrite launch_numbers in Hin. apply elem_of_seq in Hin. lia.
  - apply list_elem_of_join in Hin as (ks & Hk & Hks). apply elem_of_replicate_inv in Hks as ->.
    apply elem_of_seq in Hk. lia.
Qed.

Lemma step_inv es l e l' t :
  loop_trace (start t) es l → loop_inv es l → loop_step l e l' → loop_inv (es ++ [e]) l'.
Proof.
  intros Ht Hi Hs. pose proof Hi as [H1 H2 H3 H4 H5].
  destruct Hs as [l Hp Hc|l i k g Hp Hg Hr Hd|l i k g Hp Hg Hr Hd|l i k g t' Hp Hg Hr Hb|l i k g Hp Hg Hr Hb|l l' Hp Hc|l i k Hp Hg Hst|l i k g Hp Hg Hr Hf|l Hp Ho Hall|l t' Hp].
  - assert (∀ i k ph, (gs l ++ launch) !! i = Some (k, ph) → gs l !! i = Some (k, ph) ∨ ph = Launched) as HL.
    { intros i k ph [?|[_ ?%launch_phase]]%lookup_app_Some; auto. }
    split; cbn [once stopped gs panicked]; [done|rewrite H2; set_solver| | |done].
    + intros i k g ph [Hg|?]%HL; [by eapply H3|done].
    + intros Ho i k g ph Hg. apply HL in Hg as [Hg| ->]; [by eapply H4|done].
  - by eapply phase_inv.
  - split; cbn [once stopped gs panicked]; [done|rewrite H2; set_solver|done|done|intros _; exists k, g; split; [done|by left]].
  - eapply phase_inv; [done..| |done]. by eapply looping_ticker.
  - split; cbn [once stopped gs panicked]; [done|rewrite H2; set_solver|done|done|intros _; exists k, g; split; [done|right; by eexists]].
  - unfold close_stop in Hc. destruct (once l) eqn:Eo; [|rewrite H1 in Hc]; simplify_eq; (split; cbn [once stopped gs panicked]; try done).
    + congruence.
    + rewrite Eo. set_solver.
    + intros ?. congruence.
    + set_solver.
  - destruct (in_routines _ _ _ _ _ _ Ht Hg) as [g Hr].
    eapply phase_inv; [done..|by eapply looping_ticker|]. left. congruence.
  - eapply phase_inv; [done..|by eapply looping_ticker|]. by right.
  - split; try done. rewrite H2. set_solver.
  - split; cbn [once stopped gs panicked]; try done. rewrite H2. set_solver.
Qed.

Lemma trace_inv t es l : loop_trace (start t) es l → loop_inv es l.
Proof.
  revert l. induction es as [|e es IH] using rev_ind; intros l Ht.
  - inversion Ht; subst. apply start_inv.
  - apply trace_app in Ht as (l1 & H1 & H2). inversion H2 as [|? ? l2 ? ? Hs Hn]; subst. inversion Hn; subst.
    eapply step_inv; eauto.
Qed.

(** [Stop] does not close a closed channel. *)
Lemma inv_stop_ok es l : loop_inv es l → close_stop l ≠ None.
Proof. intros Hi. unfold close_stop. rewrite (li_once _ _ Hi). by destruct (once l). Qed.

Lemma step_panicked l e l' : loop_step l e l' → (∀ i, e ≠ Panicked i) → panicked l' = false.
Proof.
  intros Hs He. destruct Hs as [| | | | |l l' Hp Hc| | | |]; try done; try (by destruct (He i)).
  unfold close_stop in Hc. repeat case_match; by simplify_eq.
Qed.

(** Goroutines that have all returned do nothing more. *)
Lemma step_gone l e l' :
  loop_step l e l' → e ≠ Started → Forall (λ g, g.2 = Gone) (gs l) →
  Forall (λ g, g.2 = Gone) (gs l') ∧ e ∈ [StopCalled; StopReturned; Other].
Proof.
  intros Hs He Hf. pose proof (proj1 (Forall_lookup _ _) Hf) as Hl.
  destruct Hs as [l Hp Hc|l j k g Hp Hg Hr Hd|l j k g Hp Hg Hr Hd|l j k g t' Hp Hg Hr Hb|l j k g Hp Hg Hr Hb|l l' Hp Hc|l j k Hp Hg Hst|l j k g Hp Hg Hr Hfl|l Hp Ho Hall|l t' Hp];
    try done; try (by specialize (Hl _ _ Hg)); (split; [|set_solver]); try done.
  unfold close_stop in Hc. repeat case_match; by simplify_eq.
Qed.

(** They take no turn until [Start] launches more. *)
Lemma trace_exited l es l' i :
  loop_trace l es l' → Forall (λ g, g.2 = Gone) (gs l) → Started ∉ es → Turn i ∉ es.
Proof.
  induction 1 as [l|l1 e l2 es l3 Hs _ IH]; intros Hf Hn; [by apply not_elem_of_nil|].
  apply not_elem_of_cons in Hn as [He Hn]. destruct (step_gone _ _ _ Hs (not_eq_sym He) Hf) as [Hf' Hin].
  apply not_elem_of_cons. split; [set_solver|by apply IH].
Qed.

(** When a [Stop] has returned and nothing was started since, all have returned. *)
Lemma trace_returned l es l' :
  loop_trace l es l' → Started ∉ es → StopReturned ∈ es → Forall (λ g, g.2 = Gone) (gs l').
Proof.
  assert (∀ l es l', loop_trace l es l' → Started ∉ es → Forall (λ g, g.2 = Gone) (gs l) →
    Forall (λ g, g.2 = Gone) (gs l')) as Hkeep.
  { induction 1 as [l0|l1 e l2 es0 l3 Hs _ IH]; intros Hn Hf; [done|]. apply not_elem_of_cons in Hn as [He Hn].
    apply IH; [done|]. by apply (step_gone _ _ _ Hs (not_eq_sym He)). }
  intros Ht Hn (es1 & es2 & ->)%list_elem_of_split. apply trace_app in Ht as (l1 & _ & H2).
  inversion H2 as [|? ? l2 ? ? Hs Hrest]; subst. eapply Hkeep; [exact Hrest|set_solver|]. by inversion Hs; subst.
Qed.

(** Once [Stop] has been called, the goroutines of a component whose intervals are
    positive can all return. *)
Lemma stopping_drains l :
  stopped l = true → panicked l = false → Forall (λ g, is_Some (routines c !! g.1)) (gs l) →
  Forall (λ g, ticker_ok g = true) (routines c) →
  ∃ es l', loop_trace l es l' ∧ Forall (λ g, g.2 = Gone) (gs l') ∧ Forall own_event es
    ∧ once l' = once l ∧ panicked l' = false.
Proof.
  intros Hst Hp Hin Hs.
  assert (∀ n l, stopped l = true → panicked l = false → Forall (λ g, is_Some (routines c !! g.1)) (gs l) →
    Forall (λ g, g.2 = Gone) (take (length (gs l) - n) (gs l)) → n <= length (gs l) →
    ∃ es l', loop_trace l es l' ∧ Forall (λ g, g.2 = Gone) (gs l') ∧ Forall own_event es
      ∧ once l' = once l ∧ panicked l' = false) as H.
  2: { apply (H (length (gs l)) l Hst Hp Hin); [|done]. by rewrite Nat.sub_diag. }
  clear l Hst Hp Hin. induction n as [|n IH]; intros l Hst Hp Hin Hgone Hle.
  { rewrite Nat.sub_0_r, take_ge in Hgone by done. exists [], l. split_and!; try done; constructor. }
  set (i := length (gs l) - S n) in *. destruct (lookup_lt_is_Some_2 (gs l) i) as [[k ph] Hg]; [lia|].
  destruct (proj1 (Forall_lookup _ _) Hin _ _ Hg) as [g Hr]. simpl in Hr.
  assert (ticker_ok g = true) as Hsg by (by eapply (proj1 (Forall_lookup _ _) Hs)).
  assert (∀ l0, stopped l0 = true → panicked l0 = false → gs l0 = <[i := (k, Gone)]> (gs l) → once l0 = once l →
    ∃ es l', loop_trace l0 es l' ∧ Forall (λ g, g.2 = Gone) (gs l') ∧ Forall own_event es
      ∧ once l' = once l ∧ panicked l' = false) as Hnext.
  { intros l0 Hst0 Hp0 Eg <-. apply IH; [done|done|..]; rewrite Eg.
    - apply Forall_insert; [done|by eexists].
    - rewrite length_insert. replace (length (gs l) - n) with (S i) by lia.
      rewrite (take_S_r _ _ (k, Gone)) by (apply list_lookup_insert_eq; by eapply lookup_lt_Some).
      rewrite take_insert_ge by done. apply Forall_app. split; [done|]. by constructor.
    - rewrite length_insert. lia. }
  assert (∀ l0, stopped l0 = true → panicked l0 = false → gs l0 = <[i := (k, Looping)]> (gs l) → once l0 = once l →
    ∃ es l', loop_trace l0 es l' ∧ Forall (λ g, g.2 = Gone) (gs l') ∧ Forall own_event es
      ∧ once l' = once l ∧ panicked l' = false) as Hexit.
  { intros l0 Hst0 Hp0 Eg Ho. destruct (Hnext (with_phase l0 i k Gone (shared l0))) as (es & l' & H1 & H2 & H3 & H4 & H5); try done.
    { unfold with_phase. cbn [gs]. by rewrite Eg, list_insert_insert_eq. }
    exists (Exited i :: es), l'. split_and!; try done; [|by constructor].
    econstructor; [|exact H1]. apply step_exit; [done| |done]. rewrite Eg. apply list_lookup_insert_eq. by eapply lookup_lt_Some. }
  destruct ph.
  - destruct (Hexit (with_phase l i k Looping (shared l))) as (es & l' & H1 & H2 & H3 & H4 & H5); try done.
    exists (Entered i :: es), l'. split_and!; try done; [|by constructor].
    econstructor; [by eapply step_enter|exact H1].
  - apply Hexit; try done. by rewrite list_insert_id.
  - apply Hnext; try done. by rewrite list_insert_id.
Qed.
End loop.

Arguments routine : clear implicits.
Arguments loopSpec : clear implicits.
Arguments loop_state : clear implicits.

(** ** The loops of a node *)

Section node.
Context {P S W : Type} `{!Policy P, !Store S, !Replicator W, !TreeSyncer W}.

(** [Janitor.run] over the sharded store. *)
Definition janitor_turn (s : ShardedStore P) (s' : option (ShardedStore P)) : Prop :=
  ∃ ord now, s' = Some (ShardedReapExpired ord s now).1.
Definition Janitor (interval : Z) : loopSpec (ShardedStore P) := mkLoopSpec [Ticks interval janitor_turn] true.

(** [HintReplayer.run]: the hints and the nodes they are delivered to. *)
Definition replayer_turn (s : hintStore * W) (s' : option (hintStore * W)) : Prop :=
  ∃ sched, s' = Some (replayOnce sched s.1 s.2).1.
Definition HintReplayer (interval : Z) : loopSpec (hintStore * W) := mkLoopSpec [Ticks interval replayer_turn] true.

(** [AntiEntropy.run]: a round with a live peer, if there is one; a tree that does
    not decode may panic (Merkle.Decode_panics). *)
Definition antientropy_turn (a : AntiEntropy) (s : S * W * Members) (s' : option (S * W * Members)) : Prop :=
  let '(st, w, m) := s in
  ∃ roster rnd, match pickPeer a roster m rnd with
    | (p, true) => ∃ o rnow now clk ord, s' = (λ '(st', w'), (st', w', m)) <$> syncWith a o rnow now clk ord st w p
    | (_, false) => s' = Some s
    end.
Definition AntiEntropy_loop (a : AntiEntropy) (interval : Z) : loopSpec (S * W * Members) :=
  mkLoopSpec [Ticks interval (antientropy_turn a)] true.

(** [TombstoneGC.run]. *)
Definition gc_turn (grace : Z) (s : S * list telemetryCall) (s' : option (S * list telemetryCall)) : Prop :=
  ∃ o now rnow tnow, let '(st, _, log) := sweep o now grace rnow tnow s.1 in s' = Some (st, s.2 ++ log).
Definition TombstoneGC (grace interval : Z) : loopSpec (S * list telemetryCall) :=
  mkLoopSpec [Ticks interval (gc_turn grace)] true.

(** The goroutine [Router.Start] launches. *)
Definition router_turn (s : Router * Members) (s' : option (Router * Members)) : Prop :=
  ∃ sort ord, s' = Some (rebuild sort ord s.2 s.1, s.2).
Definition Router_loop (interval : Z) : loopSpec (Router * Members) := mkLoopSpec [Ticks interval router_turn] false.

(** [Gossiper.receiveLoop] and [Gossiper.gossipLoop]: a packet arrives, a round
    is run and its datagrams leave. *)
Definition returned {E A} (r : gres E A) : option A := match r with Ok a => Some a | _ => None end.
Definition receive_turn (g : Gossiper) (g' : option Gossiper) : Prop := ∃ packet now, g' = returned (receive g packet now).
Definition gossip_turn {D} (resolve : bytes → option D) (g : Gossiper) (g' : option Gossiper) : Prop :=
  ∃ ord ord' shuffle now, g' = fst <$> returned (round ord ord' shuffle resolve g now).
Definition Gossiper_loops {D} (resolve : bytes → option D) (interval : Z) : loopSpec Gossiper :=
  mkLoopSpec [Reads receive_turn; Ticks interval (gossip_turn resolve)] false.
End node.

(** ** Property *)

(** C37: the start/stop protocol of the background components.  For a component of
    any goroutines and any turns, in every interleaving with the rest of the node
    and any number of calls of [Stop], and of [Start] where the component has one:
    (1) [Stop] never closes its channel twice;
    (2) every launch adds one goroutine per loop of the component;
    (3) a goroutine on a ticker whose interval is not positive never takes a turn,
        and the component panics only if it has such a goroutine or a turn of it can
        panic (a round of anti-entropy can, on a tree that does not decode);
    (4) before [Stop] is called no goroutine on a ticker returns (one that reads a
        connection may, when a read fails);
    (5) after a [Stop] has returned no turn is taken, unless [Start] is called
        again;
    (6) once [Stop] is called, if all intervals are positive and nothing has
        panicked, it can return, by steps of the component's own goroutines and
        without a turn. *)
Theorem background_loop_stops {T : Type} (c : loopSpec T) (t : T) (es : list loop_event) (l : loop_state T) :
  loop_trace c (start c t) es l →
  close_stop l ≠ None
  ∧ (gs l).*1 = mjoin (replicate (launches c es) (seq 0 (length (routines c))))
  ∧ (∀ i k d body ph, gs l !! i = Some (k, ph) → routines c !! k = Some (Ticks d body) → (d <= 0)%Z → Turn i ∉ es)
  ∧ (panicked l = true →
       (∃ d body, Ticks d body ∈ routines c ∧ (d <= 0)%Z) ∨ ∃ g u, g ∈ routines c ∧ body_of g u None)
  ∧ (StopCalled ∉ es → ∀ i k d body ph, gs l !! i = Some (k, ph) → routines c !! k = Some (Ticks d body) → ph ≠ Gone)
  ∧ (∀ es1 es2 i, es = es1 ++ StopReturned :: es2 → Started ∉ es2 → Turn i ∉ es2)
  ∧ (StopCalled ∈ es → Forall (λ g, ticker_ok g = true) (routines c) → panicked l = false →
       ∃ es' l', loop_trace c l (es' ++ [StopReturned]) l' ∧ Forall own_event es').
Proof.
  intros Ht. pose proof (trace_inv c _ _ _ Ht) as Hi. split_and!.
  - by eapply inv_stop_ok.
  - rewrite (trace_numbers c _ _ _ Ht). unfold launches. simpl. destruct (by_constructor c); [|done].
    by rewrite launch_numbers.
  - intros i k d body ph Hg Hr Hd (es1 & es2 & ->)%list_elem_of_split.
    pose proof Ht as (l1 & H1 & H2)%trace_app. inversion H2 as [|? ? l2 ? ? Hs H3]; subst.
    inversion Hs as [| | |? ? k' g' t' Hp Hg' Hr' Hb| | | | | |]; subst.
    destruct (numbers_keep c l1 _ l i k' Looping H2 Hg') as [ph' Hg2]. simplify_eq.
    pose proof (looping_ticker c _ _ _ _ (trace_inv c _ _ _ H1) Hg' _ Hr) as Hsnd. simpl in Hsnd. lia.
  - intros Hp. destruct (li_panic _ _ _ Hi Hp) as (k & g & Hr & [Hd|[u Hu]]).
    + left. destruct g as [d body|body]; [|done]. exists d, body. split; [by eapply list_elem_of_lookup_2|]. simpl in Hd. lia.
    + right. exists g, u. split; [by eapply list_elem_of_lookup_2|done].
  - intros Hn i k d body ph Hg Hr. eapply (li_running _ _ _ Hi); [|done..].
    apply not_true_iff_false. by rewrite (li_called _ _ _ Hi).
  - intros es1 es2 i -> Hn. apply trace_app in Ht as (l1 & _ & H2). inversion H2 as [|? ? l2 ? ? Hs Hrest]; subst.
    eapply trace_exited; [exact Hrest| |done]. by inversion Hs; subst.
  - intros Hin Hs Hp.
    apply (li_called _ _ _ Hi) in Hin.
    destruct (stopping_drains c l) as (es' & l' & H1 & H2 & H3 & H4 & H5); [by rewrite (li_once _ _ _ Hi)|done| |done|].
    { apply Forall_lookup. intros i [k ph] Hg. by eapply in_routines. }
    exists es', l'. split; [|done]. apply trace_app. exists l'. split; [done|].
    econstructor; [|constructor]. apply step_returned; [done|congruence|done].
Qed.

(** ** Witness *)

(** The router of a node is started, rebuilds once and is stopped twice. *)
Lemma background_loop_stops_witness :
  let r := NewRouter (merge_sort hash_le) map_to_list roster_a 4 1 in
  let es := [Started; Entered 0; Turn 0; StopCalled; Exited 0; StopReturned; StopCalled; StopReturned] in
  (Turn 0 ∉ [StopCalled; StopReturned]) ∧
  loop_trace (Router_loop 1) (start (Router_loop 1) (r, roster_a)) es
    (mkLoop true true false [(0, Gone)] (rebuild (merge_sort hash_le) map_to_list roster_a r, roster_a)).
Proof.
  intros r es.
  assert (loop_trace (Router_loop 1) (start (Router_loop 1) (r, roster_a)) es
    (mkLoop true true false [(0, Gone)] (rebuild (merge_sort hash_le) map_to_list roster_a r, roster_a))) as Ht.
  { eapply trace_cons; [apply step_start; reflexivity|].
    eapply trace_cons; [eapply (step_enter _ _ 0); reflexivity|].
    eapply trace_cons; [eapply (step_turn _ _ 0) with (t' := (rebuild (merge_sort hash_le) map_to_list roster_a r, roster_a));
      [reflexivity..|]; by eexists _, _|].
    eapply trace_cons; [apply step_stop; reflexivity|].
    eapply trace_cons; [eapply (step_exit _ _ 0); reflexivity|].
    eapply trace_cons; [apply step_returned; [reflexivity..|]; repeat constructor|].
    eapply trace_cons; [apply step_stop; reflexivity|].
    eapply trace_cons; [apply step_returned; [reflexivity..|]; repeat constructor|]. apply trace_nil. }
  split; [|exact Ht].
  destruct (background_loop_stops _ _ _ _ Ht) as (_ & _ & _ & _ & _ & H & _).
  apply (H [Started; Entered 0; Turn 0; StopCalled; Exited 0]); [reflexivity|set_solver].
Defined.

(** ** Examples *)

(** One failed read ends the receiving half of a gossiper for good, although nobody
    called [Stop] and the other half still sends. *)
Lemma receive_loop_dies {D} (resolve : bytes → option D) d l l1 es l' k :
  gs l !! 0%nat = Some (k, Looping) → loop_step (Gossiper_loops resolve d) l (Exited 0) l1 →
  loop_trace (Gossiper_loops resolve d) l1 es l' → Turn 0 ∉ es.
Proof.
  intros Hg Hs Ht.
  assert (∃ k, gs l1 !! 0%nat = Some (k, Gone)) as Hr.
  { inversion Hs; subst; eexists; apply list_lookup_insert_eq; by eapply lookup_lt_Some. }
  clear Hs Hg. induction Ht as [l1|l1 e l2 es l3 Hs _ IH]; [apply not_elem_of_nil|]. apply not_elem_of_cons.
  destruct Hr as [k' Hr].
  destruct Hs as [l1 Hp Hc|l1 i k1 g Hp Hg Hk Hd|l1 i k1 g Hp Hg Hk Hd|l1 i k1 g t' Hp Hg Hk Hb|l1 i k1 g Hp Hg Hk Hb|l1 l1' Hp Hc|l1 i k1 Hp Hg Hst|l1 i k1 g Hp Hg Hk Hf|l1 Hp Ho Hall|l1 t' Hp].
  all: split; [intros [= <-]; congruence|]; apply IH; unfold with_phase; cbn [gs]; try (by eexists).
  1: exists k'; by apply lookup_app_l_Some.
  3: unfold close_stop in Hc; repeat case_match; simplify_eq; by exists k'.
  all: exists k'; rewrite list_lookup_insert_ne; [done|]; intros ->; congruence.
Qed.

(** Stopping a router that was never started returns at once. *)
Lemma stop_without_start d (t : Router * Members) :
  loop_trace (Router_loop d) (start (Router_loop d) t) [StopCalled; StopReturned] (mkLoop true true false [] t).
Proof.
  eapply trace_cons; [apply step_stop; reflexivity|].
  eapply trace_cons; [apply step_returned; [reflexivity..|constructor]|]. apply trace_nil.
Qed.
