(* ===== verification/GoText.v ===== *)
(** * Text the Go library reads at start-up

    The parsers of Go's standard library that config.go relies on: integers in
    their literal syntax ([strconv.ParseInt] with base 0), durations
    ([time.ParseDuration]), log levels ([slog.Level.UnmarshalText]), host and port
    ([net.SplitHostPort]) and IP addresses ([net.ParseIP]).  [None] is any error. *)

From Stdlib Require Import SpecFloat.
From S2P Require Import Prelude Telemetry Resp Coordinator Handler.

(** ** Bytes *)

Definition code (c : byte) : Z := Z.of_N (Byte.to_N c).
(** [lower(c) = c | 0x20]. *)
Definition lower (c : byte) : Z := Z.lor (code c) 32.

(** [bytealg.IndexByteString] and [LastIndexByteString]. *)
Fixpoint index_byte (s : bytes) (c : byte) : option nat :=
  match s with
  | [] => None
  | b :: s => if bool_decide (b = c) then Some 0%nat else S <$> index_byte s c
  end.
Definition last_index_byte (s : bytes) (c : byte) : option nat :=
  i ← index_byte (reverse s) c; Some (length s - 1 - i)%nat.

(** ** Integers *)

(** The value of a digit in bases up to 36. *)
Definition digit_value (c : byte) : option Z :=
  if is_digit c then Some (code c - 48)%Z
  else if (97 <=? lower c)%Z && (lower c <=? 122)%Z then Some (lower c - 87)%Z
  else None.

(** The loop of [ParseUint] at 64 bits; underscores are skipped here and judged by
    [underscoreOK]. *)
Fixpoint parse_uint (base : Z) (s : bytes) (n : Z) : option Z :=
  match s with
  | [] => Some n
  | c :: s =>
      if bool_decide (c = x5f) then parse_uint base s n
      else
        d ← digit_value c;
        if (base <=? d)%Z then None
        else
          let n := (n * base + d)%Z in
          if (2 ^ 64 <=? n)%Z then None else parse_uint base s n
  end.

(** A base prefix and what follows it. *)
Definition base_prefix (s : bytes) : option (Z * bytes) :=
  match s with
  | x30 :: (c :: rest) =>
      if (lower c =? 98)%Z then Some (2%Z, rest)
      else if (lower c =? 111)%Z then Some (8%Z, rest)
      else if (lower c =? 120)%Z then Some (16%Z, rest)
      else None
  | _ => None
  end.

Inductive prevChar : Type := PStart | PDigit | PUnderscore | POther.

(** The loop of [underscoreOK] over the number proper. *)
Fixpoint underscores_between (hex : bool) (s : bytes) (i : prevChar) : bool :=
  match s with
  | [] => match i with PUnderscore => false | _ => true end
  | c :: s =>
      if is_digit c || hex && (97 <=? lower c)%Z && (lower c <=? 102)%Z then underscores_between hex s PDigit
      else if bool_decide (c = x5f) then
        match i with PDigit => underscores_between hex s PUnderscore | _ => false end
      else match i with PUnderscore => false | _ => underscores_between hex s POther end
  end.

(** [underscoreOK], on a number without its sign. *)
Definition underscoreOK (s : bytes) : bool :=
  match base_prefix s with
  | Some (b, rest) => underscores_between (b =? 16)%Z rest PDigit
  | None => underscores_between false s PStart
  end.

(** [strconv.ParseUint(s, 0, 64)]. *)
Definition ParseUint (s : bytes) : option Z :=
  match s with
  | [] => None
  | c :: rest =>
      let '(base, ds) :=
        match base_prefix s with
        | Some (b, d :: ds) => (b, d :: ds)
        | _ => if bool_decide (c = x30) then (8%Z, rest) else (10%Z, s)
        end in
      n ← parse_uint base ds 0;
      if bool_decide (x5f ∈ ds) && negb (underscoreOK s) then None else Some n
  end.

(** [strconv.ParseInt(s, 0, 64)]. *)
Definition ParseInt (s : bytes) : option Z :=
  let '(neg, s) :=
    match s with
    | x2b :: s => (false, s)
    | x2d :: s => (true, s)
    | _ => (false, s)
    end in
  un ← ParseUint s;
  if neg : bool then if (2 ^ 63 <? un)%Z then None else Some (- un)%Z
  else if (2 ^ 63 <=? un)%Z then None else Some un.

(** ** Durations *)

(** [leadingInt]: the digits in front, [None] past 2^63. *)
Fixpoint leadingInt (x : Z) (s : bytes) : option (Z * bytes) :=
  match s with
  | c :: rest =>
      if is_digit c then
        if (2 ^ 63 / 10 <? x)%Z then None
        else let x := decimal x c in if (2 ^ 63 <? x)%Z then None else leadingInt x rest
      else Some (x, s)
  | [] => Some (x, [])
  end.

(** [leadingFraction]: digits that would overflow are dropped. *)
Fixpoint leadingFraction (x : Z) (scale : spec_float) (overflow : bool) (s : bytes) : Z * spec_float * bytes :=
  match s with
  | c :: rest =>
      if is_digit c then
        if overflow || ((2 ^ 63 - 1) / 10 <? x)%Z then leadingFraction x scale true rest
        else
          let y := decimal x c in
          if (2 ^ 63 <? y)%Z then leadingFraction x scale true rest
          else leadingFraction y (SFmul 53 1024 scale (float64 10)) false rest
      else (x, scale, s)
  | [] => (x, scale, [])
  end.

(** [unitMap]; the micro sign and the Greek mu are both accepted. *)
Definition unitMap (u : bytes) : option Z :=
  if bool_decide (u = str "ns") then Some 1%Z
  else if bool_decide (u = str "us" ∨ u = [xc2; xb5; x73] ∨ u = [xce; xbc; x73]) then Some 1000%Z
  else if bool_decide (u = str "ms") then Some 1000000%Z
  else if bool_decide (u = str "s") then Some 1000000000%Z
  else if bool_decide (u = str "m") then Some 60000000000%Z
  else if bool_decide (u = str "h") then Some 3600000000000%Z
  else None.

(** The bytes up to the next digit or point, and the rest. *)
Fixpoint span_unit (s : bytes) : bytes * bytes :=
  match s with
  | c :: rest =>
      if bool_decide (c = x2e) || is_digit c then ([], s)
      else let '(u, rest) := span_unit rest in (c :: u, rest)
  | [] => ([], [])
  end.

(** One round of the loop: a number with its unit, in nanoseconds. *)
Definition duration_item (s : bytes) : option (Z * bytes) :=
  match s with
  | [] => None
  | c :: _ =>
      if negb (bool_decide (c = x2e) || is_digit c) then None
      else
        '(v, s1) ← leadingInt 0 s;
        let pre := negb (length s =? length s1)%nat in
        let '(f, scale, post, s2) :=
          match s1 with
          | x2e :: s1' => let '(f, scale, s2) := leadingFraction 0 (float64 1) false s1' in
                          (f, scale, negb (length s1' =? length s2)%nat, s2)
          | _ => (0%Z, float64 1, false, s1)
          end in
        if negb pre && negb post then None
        else
          let '(u, s3) := span_unit s2 in
          match u with
          | [] => None
          | _ =>
              unit ← unitMap u;
              if (2 ^ 63 / unit <? v)%Z then None
              else
                let v := (v * unit)%Z in
                let v := if (0 <? f)%Z
                         then (v + int64_of_float (SFmul 53 1024 (float64 f) (SFdiv 53 1024 (float64 unit) scale)))%Z
                         else v in
                if (0 <? f)%Z && (2 ^ 63 <? v)%Z then None else Some (v, s3)
          end
  end.

(** The loop; each round consumes at least a byte, so the length is enough fuel
    ([duration_loop_fuel]). *)
Fixpoint duration_loop (fuel : nat) (d : Z) (s : bytes) : option Z :=
  match s, fuel with
  | [], _ => Some d
  | _, O => None
  | _, Datatypes.S fuel =>
      '(v, s) ← duration_item s;
      let d := ((d + v) mod 2 ^ 64)%Z in
      if (2 ^ 63 <? d)%Z then None else duration_loop fuel d s
  end.

(** [time.ParseDuration]. *)
Definition ParseDuration (s : bytes) : option Z :=
  let '(neg, s) :=
    match s with
    | x2d :: s => (true, s)
    | x2b :: s => (false, s)
    | _ => (false, s)
    end in
  if bool_decide (s = str "0") then Some 0%Z
  else if bool_decide (s = []) then None
  else
    d ← duration_loop (length s) 0 s;
    if neg : bool then Some (i64 (- d))
    else if (2 ^ 63 - 1 <? d)%Z then None else Some d.

(** ** Log levels *)

(** [strings.IndexAny(s, "+-")], as a split. *)
Fixpoint split_sign (s : bytes) : bytes * option bytes :=
  match s with
  | [] => ([], None)
  | c :: rest =>
      if bool_decide (c = x2b ∨ c = x2d) then ([], Some s)
      else let '(name, off) := split_sign rest in (c :: name, off)
  end.

(** [slog.Level.UnmarshalText]: a name, and an offset to it. *)
Definition ParseLevel (s : bytes) : option Z :=
  let '(name, off) := split_sign s in
  offset ← match off with None => Some 0%Z | Some o => Atoi o end;
  let name := ToUpper name in
  base ← (if bool_decide (name = str "DEBUG") then Some (-4)%Z
          else if bool_decide (name = str "INFO") then Some 0%Z
          else if bool_decide (name = str "WARN") then Some 4%Z
          else if bool_decide (name = str "ERROR") then Some 8%Z
          else None);
  Some (i64 (base + offset)).

(** ** Host and port *)

(** [net.SplitHostPort]: the host in brackets, or without a colon. *)
Definition SplitHostPort (hp : bytes) : option (bytes * bytes) :=
  i ← last_index_byte hp x3a;
  '(host, j, k) ←
    match hp with
    | x5b :: _ =>
        e ← index_byte hp x5d;
        if (e + 1 =? i)%nat then Some (take (e - 1) (drop 1 hp), 1%nat, (e + 1)%nat) else None
    | _ => let host := take i hp in
           if bool_decide (x3a ∈ host) then None else Some (host, 0%nat, 0%nat)
    end;
  if bool_decide (x5b ∈ drop j hp) then None
  else if bool_decide (x5d ∈ drop k hp) then None
  else Some (host, drop (i + 1) hp).

(** ** Addresses *)

(** [parseIPv4Fields], byte by byte: the octets read, the current value and its
    length in digits.  A dot must end a field that has digits. *)
Fixpoint ipv4_fields (s : bytes) (fields : list Z) (val : Z) (digLen : nat) : option (list Z) :=
  match s with
  | [] => if (length fields =? 3)%nat && (0 <? digLen)%nat then Some (fields ++ [val]) else None
  | c :: s =>
      if is_digit c then
        if (digLen =? 1)%nat && (val =? 0)%Z then None
        else let val := decimal val c in
             if (255 <? val)%Z then None else ipv4_fields s fields val (Datatypes.S digLen)
      else if bool_decide (c = x2e) then
        if (digLen =? 0)%nat || (length fields =? 3)%nat then None
        else ipv4_fields s (fields ++ [val]) 0 0
      else None
  end.
Definition parseIPv4 (s : bytes) : option (list Z) := ipv4_fields s [] 0 0.

(** A group of hexadecimal digits: its value, its length and what follows; [None]
    past four digits. *)
Definition hex_value (c : byte) : option Z :=
  if is_digit c then Some (code c - 48)%Z
  else if (97 <=? code c)%Z && (code c <=? 102)%Z then Some (code c - 87)%Z
  else if (65 <=? code c)%Z && (code c <=? 70)%Z then Some (code c - 55)%Z
  else None.
Fixpoint hex_group (off : nat) (acc : Z) (s : bytes) : option (Z * nat * bytes) :=
  match s with
  | [] => Some (acc, off, [])
  | c :: rest =>
      match hex_value c with
      | None => Some (acc, off, s)
      | Some d => if (3 <? off)%nat then None else hex_group (Datatypes.S off) (acc * 16 + d) rest
      end
  end.

(** What follows a group: nothing, a colon and more, or two colons. *)
Inductive afterGroup : Type :=
| GroupEnd
| GroupColon (rest : bytes)
| GroupEllipsis (rest : bytes)
| GroupBad.

Definition after_group (s : bytes) : afterGroup :=
  match s with
  | [] => GroupEnd
  | c :: rest =>
      if negb (bool_decide (c = x3a)) then GroupBad
      else match rest with
           | [] => GroupBad
           | d :: rest' => if bool_decide (d = x3a) then GroupEllipsis rest' else GroupColon rest
           end
  end.

(** The loop over the groups: [ip] are the bytes so far, [ell] the position of the
    ellipsis among them; the result adds what is left of the string. *)
Fixpoint ipv6_loop (fuel : nat) (ip : list Z) (ell : option nat) (s : bytes) :
    option (list Z * option nat * bytes) :=
  match fuel with
  | O => Some (ip, ell, s)
  | Datatypes.S fuel =>
      '(acc, off, s') ← hex_group 0 0 s;
      if (off =? 0)%nat then None
      else if bool_decide (head s' = Some x2e) then
        if bool_decide (ell = None) && negb (length ip =? 12)%nat then None
        else if (12 <? length ip)%nat then None
        else v4 ← parseIPv4 s; Some (ip ++ v4, ell, [])
      else
        let ip := ip ++ [(acc / 256)%Z; (acc mod 256)%Z] in
        match after_group s' with
        | GroupEnd => Some (ip, ell, [])
        | GroupBad => None
        | GroupColon rest => ipv6_loop fuel ip ell rest
        | GroupEllipsis rest =>
            if negb (bool_decide (ell = None)) then None
            else if bool_decide (rest = []) then Some (ip, Some (length ip), [])
            else ipv6_loop fuel ip (Some (length ip)) rest
        end
  end.

(** [parseIPv6] of an address without a zone.  At most eight groups are read. *)
Definition parseIPv6 (s : bytes) : option (list Z) :=
  let '(ell, s) := match s with x3a :: (x3a :: s) => (Some 0%nat, s) | _ => (None, s) end in
  match ell, s with
  | Some _, [] => Some (replicate 16 0%Z)
  | _, _ =>
      '(ip, ell, rest) ← ipv6_loop 8 [] ell s;
      match rest with
      | _ :: _ => None
      | [] =>
          if (length ip <? 16)%nat then
            e ← ell; Some (take e ip ++ replicate (16 - length ip) 0%Z ++ drop e ip)
          else match ell with Some _ => None | None => Some ip end
      end
  end.

(** [net.ParseIP]: sixteen bytes; a zone is refused. *)
Fixpoint first_of (s : bytes) : option byte :=
  match s with
  | [] => None
  | c :: s => if bool_decide (c = x2e ∨ c = x3a ∨ c = x25) then Some c else first_of s
  end.
Definition ParseIP (s : bytes) : option (list Z) :=
  match first_of s with
  | Some x2e => v4 ← parseIPv4 s; Some (replicate 10 0%Z ++ [255%Z; 255%Z] ++ v4)
  | Some x3a => if bool_decide (x25 ∈ s) then None else parseIPv6 s
  | _ => None
  end.

(** [IP.IsUnspecified]: 0.0.0.0 or ::, however written. *)
Definition IsUnspecified (host : bytes) : bool :=
  match ParseIP host with
  | Some ip => bool_decide (ip = replicate 10 0%Z ++ [255; 255; 0; 0; 0; 0]%Z ∨ ip = replicate 16 0%Z)
  | None => false
  end.

(** ** Examples *)

Example parse_int_examples :
  ParseInt <$> [str "0x1F"; str "-0b101"; str "1_000"; str "017"; str "+9223372036854775807"; str "0_8"]
  = [Some 31; Some (-5); Some 1000; Some 15; Some 9223372036854775807; None]%Z
  ∧ ParseInt <$> [[]; str "-"; str "1__0"; str "_1"; str "9223372036854775808"; str "0x"; str "12a"; str "0b2"]
    = replicate 8 None.
Proof. split; vm_compute; reflexivity. Qed.

Example parse_duration_examples :
  ParseDuration <$> [str "1.5h"; str "-2m30s"; str "0"; str "100ms"; str ".5s"; [x31; xc2; xb5; x73]; str "0.1h"]
  = [Some 5400000000000; Some (-150000000000); Some 0; Some 100000000; Some 500000000; Some 1000; Some 360000000000]%Z
  ∧ ParseDuration <$> [[]; str "5"; str "."; str "s"; str "1x"; str "9223372036854775808ns"; str "1h-"]
    = replicate 7 None.
Proof. split; vm_compute; reflexivity. Qed.

Example parse_host_examples :
  SplitHostPort <$> [str ":6379"; str "[::1]:80"; str "host:1"; str "a:b:1"; str "host"; str "[::1]"; str "[a]b:1"]
  = [Some ([], str "6379"); Some (str "::1", str "80"); Some (str "host", str "1"); None; None; None; None]
  ∧ IsUnspecified <$> [str "0.0.0.0"; str "::"; str "0::0"; str "::ffff:0.0.0.0"; str "0:0:0:0:0:0:0:0"]
    = replicate 5 true
  ∧ IsUnspecified <$> [str "127.0.0.1"; str "::1"; str "localhost"; str "0.0.0"; str "00.0.0.0"; str "::%eth0"; str ":::"]
    = replicate 7 false.
Proof. split_and!; vm_compute; reflexivity. Qed.

Example parse_level_examples :
  ParseLevel <$> [str "info"; str "Debug"; str "WARN+2"; str "error-1"; str "trace"; str "info+"]
  = [Some 0; Some (-4); Some 6; Some 7; None; None]%Z.
Proof. vm_compute. reflexivity. Qed.

(** ** Properties *)

(** Each parser returns a suffix of its input. *)
Lemma leadingInt_suffix x s v r : leadingInt x s = Some (v, r) → r `suffix_of` s.
Proof.
  revert x. induction s as [|c s IH]; intros x; simpl; [by intros [= _ <-]|].
  destruct (is_digit c); [|by intros [= _ <-]]. do 2 (case_bool; [done|]). intros Hr%IH. by apply suffix_cons_r.
Qed.

Lemma leadingFraction_suffix x scale o s : (leadingFraction x scale o s).2 `suffix_of` s.
Proof.
  revert x scale o. induction s as [|c s IH]; intros x scale o; simpl; [done|].
  destruct (is_digit c); [|done]. destruct (o || _); [|case_bool]; apply suffix_cons_r, IH.
Qed.

Lemma span_unit_app s : s = (span_unit s).1 ++ (span_unit s).2.
Proof.
  induction s as [|c s IH]; simpl; [done|]. destruct (bool_decide _ || _); [done|].
  destruct (span_unit s). simpl in *. by f_equal.
Qed.

(** A round of the duration loop consumes its unit, so the loop ends. *)
Lemma duration_item_consumes s v r : duration_item s = Some (v, r) → (length r < length s)%nat.
Proof.
  destruct s as [|c s]; [done|]. cbn [duration_item]. destruct (negb (_ || _)); [done|].
  destruct (leadingInt 0 (c :: s)) as [[n s1]|] eqn:E1; [|done]. cbn [mbind option_bind].
  apply leadingInt_suffix in E1 as H1%suffix_length.
  destruct (match s1 with x2e :: _ => _ | _ => _ end) as [[[f scale] post] s2] eqn:E2.
  assert (length s2 <= length s1)%nat as H2.
  { destruct s1 as [|b s1']; [by simplify_eq|]. destruct b; try by simplify_eq.
    pose proof (leadingFraction_suffix 0 (float64 1) false s1') as H%suffix_length.
    destruct (leadingFraction _ _ _ _) as [[??] ?]. simplify_eq. simpl in *. lia. }
  destruct (negb _ && negb _); [done|]. pose proof (span_unit_app s2) as E3.
  destruct (span_unit s2) as [u s3]. simpl in E3. subst s2. rewrite length_app in H2.
  destruct u as [|b u]; [done|]. destruct (unitMap _) as [unit|]; [|done]. cbn [mbind option_bind].
  case_bool; [done|]. destruct (_ && _); [done|]. intros [= _ <-]. simpl in *. lia.
Qed.

Lemma duration_loop_fuel fuel s d :
  (length s <= fuel)%nat → duration_loop fuel d s = duration_loop (length s) d s.
Proof.
  revert s d. induction fuel as [fuel IH] using lt_wf_ind. intros [|c s] d Hf; [by destruct fuel|].
  destruct fuel as [|fuel]; simpl in Hf; [lia|].
  cbn [duration_loop length]. destruct (duration_item (c :: s)) as [[v r]|] eqn:E; [|done].
  apply duration_item_consumes in E. simpl in E. cbn [mbind option_bind]. cbv zeta. case_bool; [done|].
  rewrite (IH fuel), (IH (length s)) by lia. done.
Qed.

(** ParseInt reads back what Itoa writes: no leading zero makes it octal. *)
Lemma digits_no_zero fuel n acc : (0 < n < 10 ^ N.of_nat fuel)%N → head (digits fuel n acc) ≠ Some x30.
Proof.
  revert n acc. induction fuel as [|fuel IH]; intros n acc Hn; [simpl in Hn; lia|]. cbn [digits].
  destruct (N.ltb_spec n 10).
  - intros [= E]. pose proof (digit_N n ltac:(done)) as H'. rewrite E in H'. cbn in H'. lia.
  - apply IH. rewrite Nat2N.inj_succ, N.pow_succ_r' in Hn. split.
    + apply N.div_str_pos. lia.
    + apply N.Div0.div_lt_upper_bound. lia.
Qed.

Lemma Itoa_no_zero n : (0 < n < 2 ^ 64)%Z → head (Itoa n) ≠ Some x30.
Proof.
  intros Hn. unfold Itoa. rewrite (proj2 (Z.ltb_ge n 0)) by lia. apply digits_no_zero.
  change (10 ^ N.of_nat 20)%N with 100000000000000000000%N. lia.
Qed.

Lemma digit_value_decimal c n : is_digit c = true →
  digit_value c = Some (decimal n c - n * 10)%Z ∧ (0 <= decimal n c - n * 10 < 10)%Z.
Proof.
  intros Hc. unfold digit_value, decimal, code. rewrite Hc. unfold is_digit in Hc.
  apply andb_true_iff in Hc as [?%N.leb_le ?%N.leb_le]. split; [f_equal|]; lia.
Qed.

Lemma decimal_grows ds n : Forall (λ c, is_digit c = true) ds → (0 <= n)%Z → (n <= foldl decimal n ds)%Z.
Proof.
  intros H. revert n. induction H as [|c ds Hc _ IH]; intros n Hn; simpl; [done|].
  pose proof (proj2 (digit_value_decimal c n Hc)). specialize (IH (decimal n c)). lia.
Qed.

Lemma parse_uint_digits ds n : Forall (λ c, is_digit c = true) ds → (0 <= n)%Z → (foldl decimal n ds < 2 ^ 64)%Z →
  parse_uint 10 ds n = Some (foldl decimal n ds).
Proof.
  intros H. revert n. induction H as [|c ds Hc Hds IH]; intros n Hn Hb; [done|]. cbn [parse_uint foldl] in *.
  rewrite bool_decide_eq_false_2 by (by apply (digit_not c)).
  destruct (digit_value_decimal c n Hc) as [-> Hd]. cbn [mbind option_bind]. cbv zeta.
  replace (n * 10 + (decimal n c - n * 10))%Z with (decimal n c) by lia.
  pose proof (decimal_grows ds (decimal n c) Hds ltac:(lia)).
  destruct (Z.leb_spec 10 (decimal n c - n * 10)); [lia|].
  destruct (Z.leb_spec (2 ^ 64) (decimal n c)); [lia|]. apply IH; lia.
Qed.

Lemma ParseUint_digits ds : Forall (λ c, is_digit c = true) ds → ds ≠ [] → head ds ≠ Some x30 →
  (foldl decimal 0 ds < 2 ^ 64)%Z → ParseUint ds = Some (foldl decimal 0%Z ds).
Proof.
  intros H Hne Hz Hb. destruct ds as [|c ds]; [done|]. unfold ParseUint.
  assert (c ≠ x30) as Hc by (intros ->; done).
  replace (base_prefix (c :: ds)) with (@None (Z * bytes)) by (by destruct c).
  rewrite bool_decide_eq_false_2 by done. rewrite parse_uint_digits by done. cbn [mbind option_bind].
  rewrite bool_decide_eq_false_2; [done|]. intros Hin. rewrite Forall_forall in H. by specialize (H _ Hin).
Qed.

Lemma ParseInt_Itoa z : (- 2 ^ 63 <= z < 2 ^ 63)%Z → ParseInt (Itoa z) = Some z.
Proof.
  intros Hz. destruct (decide (z = 0%Z)) as [->|Hnz]; [done|].
  destruct (Itoa_digits z Hz) as (ds & H1 & H2 & _ & H4 & E).
  assert (head ds ≠ Some x30) as H0.
  { pose proof (Itoa_no_zero (Z.abs z) ltac:(lia)) as H. unfold Itoa in *.
    rewrite (proj2 (Z.ltb_ge (Z.abs z) 0)) in H by lia. destruct (Z.ltb_spec z 0).
    - rewrite Z.abs_neq in H by lia. apply (f_equal tail) in E. cbn [tail] in E. by rewrite E in H.
    - rewrite Z.abs_eq in H by lia. by rewrite E in H. }
  pose proof (ParseUint_digits ds H1 H2 H0 ltac:(lia)) as Hp. rewrite H4 in Hp. rewrite E.
  destruct (Z.ltb_spec z 0).
  - unfold ParseInt. rewrite Hp. cbn [mbind option_bind]. destruct (Z.ltb_spec (2 ^ 63) (Z.abs z)); [lia|]. f_equal. lia.
  - destruct ds as [|c ds]; [done|]. apply Forall_cons in H1 as [Hc _].
    assert (ParseInt (c :: ds) = (un ← ParseUint (c :: ds); if (2 ^ 63 <=? un)%Z then None else Some un)) as ->
      by (destruct c; done).
    rewrite Hp. cbn [mbind option_bind]. destruct (Z.leb_spec (2 ^ 63) (Z.abs z)); [lia|]. f_equal. lia.
Qed.
