(* ===== verification/Config.v ===== *)
(** * Start-up configuration (cmd/kyria/config.go, main.go)

    [parseFlags] resolves every flag (command line, then environment, then
    default) and validates the result; [storeOptions], [gossiperOptions] and
    [splitSeeds] turn it into what the components are built with.  The command line
    is read as Go's flag package reads it ([Parse]), values as in GoText.v. *)

From S2P Require Import Prelude Sketch Policy MapStore ShardedStore StoreSpec Membership Gossip GoText.

(** ** Data *)

Record Config : Type := mkConfig {
  cfg_Addr : bytes;
  cfg_Shards : Z;
  cfg_MaxConns : Z;
  cfg_ConnTimeout : Z;
  cfg_LogLevel : Z;
  cfg_Eviction : bytes;
  cfg_MaxEntries : Z;
  cfg_MaxValueSize : Z;
  cfg_MaxKeySize : Z;
  cfg_ReapInterval : Z;
  cfg_GossipAddr : bytes;
  cfg_Seeds : bytes;
  cfg_GossipInterval : Z;
  cfg_FailTimeout : Z;
  cfg_Fanout : Z;
  cfg_Replicas : Z;
  cfg_RebuildInterval : Z;
  cfg_ReplicationFactor : Z;
  cfg_ReadQuorum : Z;
  cfg_WriteQuorum : Z;
  cfg_ReplicaTimeout : Z;
  cfg_HintReplayerInterval : Z;
  cfg_AntiEntropyInterval : Z;
  cfg_TombstoneGrace : Z;
  cfg_TombstoneGCInterval : Z
}.

Inductive configErr : Type :=
| ErrHelp
| ErrSyntax (arg : bytes)
| ErrUnknownFlag (name : bytes)
| ErrNeedsArgument (name : bytes)
| ErrFlag (name : bytes)
| ErrEnv (key : bytes)
| ErrLogLevel
| ErrEviction
| ErrRoutable (name : bytes)
| ErrNeedsMaxEntries
| ErrMaxConns
| ErrReplicationFactor
| ErrReadQuorum
| ErrWriteQuorum
| ErrNeedsGrace.

(** A flag's value: [fs.String], [fs.Int] and [fs.Duration]. *)
Inductive flagValue : Type :=
| FString (s : bytes)
| FInt (n : Z)
| FDuration (d : Z).

(** The flags and their defaults, in the order [VisitAll] visits them. *)
Definition flags : list (bytes * flagValue) := [
  (str "addr", FString (str ":6379"));
  (str "anti-entropy-interval", FDuration 0);
  (str "conn-timeout", FDuration 0);
  (str "eviction", FString (str "none"));
  (str "fail-timeout", FDuration 0);
  (str "fanout", FInt 0);
  (str "gossip-addr", FString []);
  (str "gossip-interval", FDuration 0);
  (str "hint-replayer-interval", FDuration second);
  (str "log-level", FString (str "info"));
  (str "max-conns", FInt 0);
  (str "max-entries", FInt 0);
  (str "max-key-size", FInt 0);
  (str "max-value-size", FInt 0);
  (str "read-quorum", FInt 2);
  (str "reap-interval", FDuration second);
  (str "rebuild-interval", FDuration second);
  (str "replica-timeout", FDuration (2 * second));
  (str "replicas", FInt 100);
  (str "replication-factor", FInt 3);
  (str "seeds", FString []);
  (str "shards", FInt 32);
  (str "tombstone-gc-interval", FDuration 0);
  (str "tombstone-grace", FDuration 0);
  (str "write-quorum", FInt 2)].

Abbreviation flagSet := (gmap bytes flagValue).

Definition defaults : flagSet := list_to_map flags.

Definition str_of (fs : flagSet) (name : string) : bytes :=
  match fs !! str name with Some (FString s) => s | _ => [] end.
Definition num_of (fs : flagSet) (name : string) : Z :=
  match fs !! str name with Some (FInt n) => n | Some (FDuration d) => d | _ => 0 end.

(** ["KYRIA_" + strings.ToUpper(strings.ReplaceAll(name, "-", "_"))]: flag names
    are lower-case ASCII. *)
Definition env_byte (c : byte) : byte :=
  if bool_decide (c = x2d) then x5f
  else if (97 <=? Byte.to_N c)%N && (Byte.to_N c <=? 122)%N then byte_of_N (Byte.to_N c - 32) else c.
Definition env_key (name : bytes) : bytes := str "KYRIA_" ++ (env_byte <$> name).

(** ** Resolving the flags *)

(** A flag's own [Set]: the text [v] read as a value of the kind of [old]. *)
Definition parse_as (old : flagValue) (v : bytes) : option flagValue :=
  match old with
  | FString _ => Some (FString v)
  | FInt _ => FInt <$> ParseInt v
  | FDuration _ => FDuration <$> ParseDuration v
  end.

(** [fs.Set]: [None] for an unknown flag or a value of the wrong form. *)
Definition Set_flag (fs : flagSet) (name v : bytes) : option flagSet :=
  old ← fs !! name; new ← parse_as old v; Some (<[name := new]> fs).

(** What an argument says: not a flag, bad syntax, or a flag's name with the value
    after an equals sign if there is one. *)
Inductive flagText : Type :=
| NotFlag
| BadFlag
| Flag (name : bytes) (value : option bytes).

Definition flag_text (s : bytes) : flagText :=
  match s with
  | x2d :: ((c :: rest) as name) =>
      if bool_decide (c = x2d ∧ rest = []) then NotFlag
      else
        let name := if bool_decide (c = x2d) then rest else name in
        match name with
        | [] | x2d :: _ | x3d :: _ => BadFlag
        | _ => match index_byte name x3d with
               | Some i => Flag (take i name) (Some (drop (i + 1) name))
               | None => Flag name None
               end
        end
  | _ => NotFlag
  end.

(** [fs.Parse]: the flags set and the names seen.  It stops at the first argument
    that is not a flag. *)
Fixpoint Parse (args : list bytes) (fs : flagSet) (seen : list bytes) : gres configErr (flagSet * list bytes) :=
  match args with
  | [] => Ok (fs, seen)
  | s :: args =>
      match flag_text s with
      | NotFlag => Ok (fs, seen)
      | BadFlag => Err (ErrSyntax s)
      | Flag name value =>
          match fs !! name, value, args with
          | None, _, _ => Err (if bool_decide (name = str "help" ∨ name = str "h") then ErrHelp else ErrUnknownFlag name)
          | Some _, Some v, _ =>
              match Set_flag fs name v with
              | Some fs => Parse args fs (seen ++ [name])
              | None => Err (ErrFlag name)
              end
          | Some _, None, v :: args =>
              match Set_flag fs name v with
              | Some fs => Parse args fs (seen ++ [name])
              | None => Err (ErrFlag name)
              end
          | Some _, None, [] => Err (ErrNeedsArgument name)
          end
      end
  end.

(** The flags not [seen] are looked up in the environment. *)
Fixpoint from_env (seen : list bytes) (env : bytes → option bytes) (names : list bytes) (fs : flagSet) :
    gres configErr flagSet :=
  match names with
  | [] => Ok fs
  | name :: names =>
      if bool_decide (name ∈ seen) then from_env seen env names fs
      else
        match env (env_key name) with
        | None => from_env seen env names fs
        | Some v =>
            match Set_flag fs name v with
            | Some fs => from_env seen env names fs
            | None => Err (ErrEnv (env_key name))
            end
        end
  end.

Definition config_of (fs : flagSet) (level : Z) : Config := {|
  cfg_Addr := str_of fs "addr";
  cfg_Shards := num_of fs "shards";
  cfg_MaxConns := num_of fs "max-conns";
  cfg_ConnTimeout := num_of fs "conn-timeout";
  cfg_LogLevel := level;
  cfg_Eviction := str_of fs "eviction";
  cfg_MaxEntries := num_of fs "max-entries";
  cfg_MaxValueSize := num_of fs "max-value-size";
  cfg_MaxKeySize := num_of fs "max-key-size";
  cfg_ReapInterval := num_of fs "reap-interval";
  cfg_GossipAddr := str_of fs "gossip-addr";
  cfg_Seeds := str_of fs "seeds";
  cfg_GossipInterval := num_of fs "gossip-interval";
  cfg_FailTimeout := num_of fs "fail-timeout";
  cfg_Fanout := num_of fs "fanout";
  cfg_Replicas := num_of fs "replicas";
  cfg_RebuildInterval := num_of fs "rebuild-interval";
  cfg_ReplicationFactor := num_of fs "replication-factor";
  cfg_ReadQuorum := num_of fs "read-quorum";
  cfg_WriteQuorum := num_of fs "write-quorum";
  cfg_ReplicaTimeout := num_of fs "replica-timeout";
  cfg_HintReplayerInterval := num_of fs "hint-replayer-interval";
  cfg_AntiEntropyInterval := num_of fs "anti-entropy-interval";
  cfg_TombstoneGrace := num_of fs "tombstone-grace";
  cfg_TombstoneGCInterval := num_of fs "tombstone-gc-interval"
|}.

(** ** Validation *)

Definition routableHost (value : bytes) : bool :=
  match SplitHostPort value with
  | None => false
  | Some (host, _) => negb (bool_decide (host = []) || IsUnspecified host)
  end.

Definition policies : list bytes := [str "none"; str "lru"; str "lfu"; str "tinylfu"].

(** The checks after the flags are resolved, in their order. *)
Definition validate (cfg : Config) : gres configErr Config :=
  if negb (bool_decide (cfg_Eviction cfg ∈ policies)) then Err ErrEviction
  else if negb (bool_decide (cfg_GossipAddr cfg = [])) && negb (routableHost (cfg_Addr cfg))
  then Err (ErrRoutable (str "-addr"))
  else if negb (bool_decide (cfg_GossipAddr cfg = [])) && negb (routableHost (cfg_GossipAddr cfg))
  then Err (ErrRoutable (str "-gossip-addr"))
  else if negb (bool_decide (cfg_Eviction cfg = str "none")) && (cfg_MaxEntries cfg <=? 0)%Z then Err ErrNeedsMaxEntries
  else if (cfg_MaxConns cfg <? 0)%Z then Err ErrMaxConns
  else if (cfg_ReplicationFactor cfg <=? 0)%Z then Err ErrReplicationFactor
  else if (cfg_ReadQuorum cfg <=? 0)%Z || (cfg_ReplicationFactor cfg <? cfg_ReadQuorum cfg)%Z then Err ErrReadQuorum
  else if (cfg_WriteQuorum cfg <=? 0)%Z || (cfg_ReplicationFactor cfg <? cfg_WriteQuorum cfg)%Z then Err ErrWriteQuorum
  else if (0 <? cfg_TombstoneGCInterval cfg)%Z && (cfg_TombstoneGrace cfg <=? 0)%Z then Err ErrNeedsGrace
  else Ok cfg.

Definition parseFlags (args : list bytes) (env : bytes → option bytes) : gres configErr Config :=
  do p <- Parse args defaults [];
  do fs <- from_env p.2 env flags.*1 p.1;
  match ParseLevel (str_of fs "log-level") with
  | None => Err ErrLogLevel
  | Some level => validate (config_of fs level)
  end.
(** ** What resolving means *)

(** The flags and values an argument list spells out, as far as it goes. *)
Fixpoint flags_of (args : list bytes) : option (list (bytes * bytes)) :=
  match args with
  | [] => Some []
  | s :: args =>
      match flag_text s, args with
      | NotFlag, _ => Some []
      | BadFlag, _ => None
      | Flag name (Some v), _ => cons (name, v) <$> flags_of args
      | Flag name None, v :: args => cons (name, v) <$> flags_of args
      | Flag name None, [] => None
      end
  end.

(** The last value the command line gives a flag. *)
Fixpoint given (args : list (bytes * bytes)) (name : bytes) : option bytes :=
  match args with
  | [] => None
  | (n, v) :: args =>
      match given args name with
      | Some w => Some w
      | None => if bool_decide (n = name) then Some v else None
      end
  end.

(** The value a flag of default [d] ends up with: command line, environment, default. *)
Definition value_of (args : list (bytes * bytes)) (env : bytes → option bytes) (name : bytes) (d : flagValue) :
    option flagValue :=
  match given args name with
  | Some v => parse_as d v
  | None => match env (env_key name) with Some v => parse_as d v | None => Some d end
  end.

(** A configuration a node may start with. *)
Record valid_config (c : Config) : Prop := {
  vc_eviction : cfg_Eviction c ∈ policies;
  vc_routable : cfg_GossipAddr c ≠ [] → routableHost (cfg_Addr c) = true ∧ routableHost (cfg_GossipAddr c) = true;
  vc_capped : cfg_Eviction c ≠ str "none" → (0 < cfg_MaxEntries c)%Z;
  vc_conns : (0 <= cfg_MaxConns c)%Z;
  vc_read : (1 <= cfg_ReadQuorum c <= cfg_ReplicationFactor c)%Z;
  vc_write : (1 <= cfg_WriteQuorum c <= cfg_ReplicationFactor c)%Z;
  vc_grace : (0 < cfg_TombstoneGCInterval c)%Z → (0 < cfg_TombstoneGrace c)%Z
}.

(** ** Lemmas *)

Lemma defaults_flags n : n ∈ flags.*1 ↔ is_Some (defaults !! n).
Proof.
  split.
  - intros Hin. destruct (defaults !! n) as [d|] eqn:Ed; [by eexists|]. by apply not_elem_of_list_to_map_2 in Ed.
  - intros [d Hd%elem_of_list_to_map_2]. apply list_elem_of_fmap. by exists (n, d).
Qed.

Lemma parse_as_kind d v w v' : parse_as d v = Some w → parse_as w v' = parse_as d v'.
Proof. destruct d; simpl; intros H; [by simplify_eq|apply fmap_Some in H as (? & _ & ->); done..]. Qed.

Lemma given_app a b n : given (a ++ b) n = match given b n with Some w => Some w | None => given a n end.
Proof. induction a as [|[m v] a IH]; simpl; [by destruct (given b n)|]. rewrite IH. by destruct (given b n). Qed.

Lemma given_None l n : given l n = None ↔ n ∉ l.*1.
Proof.
  induction l as [|[m v] l IH]; simpl; [by split; [intros _; apply not_elem_of_nil|]|].
  rewrite not_elem_of_cons, <-IH. case_bool_decide; destruct (given l n); naive_solver.
Qed.

Lemma given_Some l n v : given l n = Some v → (n, v) ∈ l.
Proof.
  induction l as [|[m w] l IH]; simpl; [done|]. destruct (given l n) as [u|].
  - intros [= ->]. right. by apply IH.
  - case_bool_decide as Hm; [|done]. intros [= ->]. subst. left.
Qed.

(** The flag set as a function of the values given so far. *)
Definition settle (args : list (bytes * bytes)) (fs : flagSet) (n : bytes) : option flagValue :=
  d ← fs !! n; match given args n with Some v => parse_as d v | None => Some d end.

(** Setting flags one after the other. *)
Fixpoint set_all (given : list (bytes * bytes)) (fs : flagSet) : gres configErr flagSet :=
  match given with
  | [] => Ok fs
  | (name, v) :: given =>
      match Set_flag fs name v with
      | Some fs => set_all given fs
      | None => Err (ErrFlag name)
      end
  end.

Lemma set_all_ok args fs fs' :
  set_all args fs = Ok fs' ↔
  Forall (λ '(n, v), is_Some (d ← fs !! n; parse_as d v)) args ∧ ∀ n, fs' !! n = settle args fs n.
Proof.
  revert fs. induction args as [|[m v] args IH]; intros fs; simpl.
  - split; [intros [= ->]; split; [done|]; intros n; unfold settle; simpl; by destruct (fs' !! n)|].
    intros [_ H]. f_equal. apply map_eq. intros n. rewrite H. unfold settle. simpl. by destruct (fs !! n).
  - unfold Set_flag. rewrite Forall_cons. destruct (fs !! m) as [old|] eqn:Em; simpl; [|split; [done|by intros [[[? ?] _] _]]].
    destruct (parse_as old v) as [new|] eqn:Ep; simpl; [|split; [done|by intros [[[? ?] _] _]]].
    rewrite IH. 
    assert (∀ n w, (d ← <[m:=new]> fs !! n; parse_as d w) = (d ← fs !! n; parse_as d w)) as Hk.
    { intros n w. destruct (decide (n = m)) as [->|Hn]; [|by rewrite lookup_insert_ne].
      rewrite lookup_insert_eq, Em. simpl. by eapply parse_as_kind. }
    assert (∀ n, settle args (<[m:=new]> fs) n = settle ((m, v) :: args) fs n) as Hs.
    { intros n. unfold settle. simpl. destruct (given args n) as [w|] eqn:Eg; [apply Hk|].
      case_bool_decide as Hmn; [subst n; by rewrite lookup_insert_eq, Em|by rewrite lookup_insert_ne]. }
    split.
    + intros [Hf Hn]. split_and!; [done| |intros n; by rewrite Hn].
      eapply Forall_impl; [exact Hf|]. intros [n w]. by rewrite Hk.
    + intros [[_ Hf] Hn]. split; [|intros n; by rewrite Hn].
      eapply Forall_impl; [exact Hf|]. intros [n w]. by rewrite Hk.
Qed.

(** The environment is a second command line, for the flags the first left out. *)
Fixpoint env_args (seen : list bytes) (env : bytes → option bytes) (names : list bytes) : list (bytes * bytes) :=
  match names with
  | [] => []
  | n :: names =>
      match (if bool_decide (n ∈ seen) then None else env (env_key n)) with
      | Some v => (n, v) :: env_args seen env names
      | None => env_args seen env names
      end
  end.

Lemma from_env_args seen env names fs fs' :
  from_env seen env names fs = Ok fs' ↔ set_all (env_args seen env names) fs = Ok fs'.
Proof.
  revert fs. induction names as [|n names IH]; intros fs; simpl; [done|].
  case_bool_decide; [apply IH|]. destruct (env (env_key n)) as [v|]; simpl; [|apply IH].
  destruct (Set_flag fs n v); [apply IH|done].
Qed.

Lemma given_env seen env names n :
  given (env_args seen env names) n = if bool_decide (n ∈ names ∧ n ∉ seen) then env (env_key n) else None.
Proof.
  induction names as [|m names IH]; [rewrite bool_decide_eq_false_2 by set_solver; done|].
  cbn [env_args]. destruct (bool_decide (m ∈ seen)) eqn:Hm; [|destruct (env (env_key m)) as [v|] eqn:Ev]; cbn [given];
    rewrite IH; (apply bool_decide_eq_true in Hm || apply bool_decide_eq_false in Hm);
    repeat case_bool_decide; subst; try destruct (env (env_key n)) eqn:?; set_solver.
Qed.

Lemma elem_of_env_args seen env names n v :
  (n, v) ∈ env_args seen env names → n ∈ names ∧ (n ∉ seen) ∧ env (env_key n) = Some v.
Proof.
  induction names as [|m names IH]; cbn [env_args]; [by intros ?%elem_of_nil|].
  destruct (bool_decide (m ∈ seen)) eqn:Hm; [set_solver|]. apply bool_decide_eq_false in Hm.
  destruct (env (env_key m)) as [w|] eqn:Ev; [|set_solver].
  intros [[= -> ->]|?]%elem_of_cons; set_solver.
Qed.

Lemma set_all_app a b fs fs' : set_all (a ++ b) fs = Ok fs' ↔ ∃ fs1, set_all a fs = Ok fs1 ∧ set_all b fs1 = Ok fs'.
Proof.
  revert fs. induction a as [|[n v] a IH]; intros fs; simpl; [naive_solver|].
  destruct (Set_flag fs n v); [apply IH|naive_solver].
Qed.

Ltac bools :=
  repeat match goal with
  | H : _ = true |- _ => progress rewrite ?negb_true_iff, ?andb_true_iff, ?orb_true_iff, ?Z.leb_le, ?Z.ltb_lt in H
  | H : _ = false |- _ => progress rewrite ?negb_false_iff, ?andb_false_iff, ?orb_false_iff, ?Z.leb_gt, ?Z.ltb_ge in H
  | H : bool_decide _ = true |- _ => apply bool_decide_eq_true in H
  | H : bool_decide _ = false |- _ => apply bool_decide_eq_false in H
  | H : _ ∧ _ |- _ => destruct H
  | H : _ ∨ _ |- _ => destruct H
  | H : ?P → _, H1 : ?P |- _ => specialize (H H1)
  end.

Lemma validate_ok c c' : validate c = Ok c' ↔ c' = c ∧ valid_config c.
Proof.
  unfold validate. split.
  - intros E. repeat (case_match; [done|]); simplify_eq. split; [done|]. bools;
      constructor; try intros ?; first [done|lia|naive_solver lia].
  - intros [-> []]. repeat (case_match; [exfalso; bools; first [done|lia|congruence]|]). done.
Qed.
(** [Parse] sets what the arguments spell out. *)
Lemma Parse_flags_of args fs seen fs' seen' :
  Parse args fs seen = Ok (fs', seen') ↔
  ∃ given, flags_of args = Some given ∧ set_all given fs = Ok fs' ∧ seen' = seen ++ given.*1.
Proof.
  revert fs seen. induction args as [args IH] using (induction_ltof1 _ (@length _)). unfold ltof in IH. intros fs seen.
  assert (∀ rest name v, (length rest < length args)%nat →
    (match Set_flag fs name v with Some fs => Parse rest fs (seen ++ [name]) | None => Err (ErrFlag name) end = Ok (fs', seen')
     ↔ ∃ given, cons (name, v) <$> flags_of rest = Some given ∧ set_all given fs = Ok fs' ∧ seen' = seen ++ given.*1)) as Hset.
  { intros rest name v Hlt. destruct (Set_flag fs name v) as [fs1|] eqn:E.
    - rewrite IH by done. split.
      + intros (g & -> & Hg & ->). exists ((name, v) :: g). cbn [set_all fmap list_fmap]. rewrite E, <-app_assoc. done.
      + intros (g & (g' & Eg & ->)%fmap_Some & Hs & ->). exists g'. cbn [set_all] in Hs. rewrite E in Hs.
        by rewrite <-app_assoc.
    - split; [done|]. intros (g & (g' & Eg & ->)%fmap_Some & Hs & ->). cbn [set_all] in Hs. by rewrite E in Hs. }
  destruct args as [|s args]; cbn [Parse flags_of].
  { split; [intros [= -> ->]; exists []; by rewrite app_nil_r|]. intros (g & [= <-] & [= ->] & ->). by rewrite app_nil_r. }
  destruct (flag_text s) as [| |name value].
  - split; [intros [= -> ->]; exists []; by rewrite app_nil_r|]. intros (g & [= <-] & [= ->] & ->). by rewrite app_nil_r.
  - split; [done|]. by intros (? & ? & _).
  - destruct (fs !! name) as [old|] eqn:Eo.
    + destruct value as [v|]; [apply Hset; simpl; lia|].
      destruct args as [|v args]; [split; [done|by intros (? & ? & _)]|]. apply Hset; simpl; lia.
    + split; [done|]. intros (g & Hg & Hs & _).
      assert (∃ v g', g = (name, v) :: g') as (v & g' & ->).
      { destruct value as [v|]; [|destruct args as [|v args]; [done|]]; apply fmap_Some in Hg as (g' & _ & ->); by eexists _, _. }
      cbn [set_all] in Hs. unfold Set_flag in Hs. by rewrite Eo in Hs.
Qed.

Lemma parseFlags_valid args env c : parseFlags args env = Ok c → valid_config c.
Proof.
  unfold parseFlags. generalize defaults (flags.*1). intros fs0 names.
  destruct (Parse args fs0 []) as [[fs1 seen]|e|]; simpl; [|done..].
  destruct (from_env seen _ names fs1) as [fs|e|]; simpl; [|done..].
  destruct (ParseLevel _) as [level|]; [|done]. by intros [-> Hv]%validate_ok.
Qed.

Lemma resolve_ok fs0 names args env fs :
  (∀ n, n ∈ names ↔ is_Some (fs0 !! n)) →
  (do fs <- set_all args fs0; from_env args.*1 env names fs) = Ok fs ↔
  Forall (λ '(n, v), is_Some (d ← fs0 !! n; parse_as d v)) args
  ∧ (∀ n d, fs0 !! n = Some d → is_Some (value_of args env n d))
  ∧ ∀ n, fs !! n = (d ← fs0 !! n; value_of args env n d).
Proof.
  intros Hnames. set (all := args ++ env_args args.*1 env names).
  assert ((do fs <- set_all args fs0; from_env args.*1 env names fs) = Ok fs ↔ set_all all fs0 = Ok fs) as ->.
  { unfold all. rewrite set_all_app. destruct (set_all args fs0) as [fs1|e|]; simpl; [|naive_solver..].
    rewrite from_env_args. naive_solver. }
  assert (∀ n, settle all fs0 n = (d ← fs0 !! n; value_of args env n d)) as Hs.
  { intros n. unfold settle, value_of, all. destruct (fs0 !! n) as [d|] eqn:Ed; [|done]. simpl.
    assert (n ∈ names) as Hin by (apply Hnames; by rewrite Ed).
    rewrite given_app, given_env. destruct (given args n) as [v|] eqn:Eg.
    - rewrite bool_decide_eq_false_2; [done|]. intros [_ Hn]. apply given_None in Hn. congruence.
    - rewrite bool_decide_eq_true_2; [by destruct (env (env_key n))|]. split; [done|by apply given_None]. }
  rewrite set_all_ok. unfold all at 1. rewrite Forall_app. split.
  - intros [[Ha He] Hn]. split_and!; [done| |intros n; by rewrite Hn, Hs].
    intros n d Hd. pose proof (Hs n) as Hsn. rewrite Hd in Hsn. simpl in Hsn. rewrite <-Hsn. unfold settle.
    rewrite Hd. simpl. destruct (given all n) as [v|] eqn:Eg; [|by eexists].
    assert (Forall (λ '(n, v), is_Some (d ← fs0 !! n; parse_as d v)) all) as Hall by (by apply Forall_app).
    apply given_Some in Eg. rewrite Forall_forall in Hall. specialize (Hall _ Eg). simpl in Hall. by rewrite Hd in Hall.
  - intros (Ha & Hv & Hn). split; [split; [done|]|intros n; by rewrite Hn, Hs].
    apply Forall_forall. intros [n v] (Hin & Hns & Ev)%elem_of_env_args.
    apply Hnames in Hin as [d Ed]. rewrite Ed. simpl.
    specialize (Hv n d Ed). unfold value_of in Hv. apply given_None in Hns. by rewrite Hns, Ev in Hv.
Qed.

(** ** Property *)

(** C38: what start-up accepts, exactly.  Configuration succeeds if and only if
    the arguments up to the first that is not a flag are well-formed flags with
    values, every one of them exists and has a value of its kind, every flag left
    to the environment that is set there has one too, the log level is known, and
    the resulting configuration is valid: a known eviction policy, capped if it
    evicts, routable addresses when clustered, quorums reachable within the replica
    set, and a grace period for the tombstone collector.  Each flag then has the
    last value the command line gave it, else the environment's, else its default. *)
Theorem parseFlags_exact args env cfg :
  parseFlags args env = Ok cfg ↔
  ∃ given fs level,
    flags_of args = Some given
    ∧ Forall (λ '(n, v), is_Some (d ← defaults !! n; parse_as d v)) given
    ∧ (∀ n d, defaults !! n = Some d → is_Some (value_of given env n d))
    ∧ (∀ n, fs !! n = (d ← defaults !! n; value_of given env n d))
    ∧ ParseLevel (str_of fs "log-level") = Some level
    ∧ cfg = config_of fs level ∧ valid_config cfg.
Proof.
  unfold parseFlags. generalize defaults (flags.*1) defaults_flags. intros fs0 names Hnames.
  pose proof (λ args fs, resolve_ok fs0 names args env fs Hnames) as Hr.
  pose proof (λ fs', Parse_flags_of args fs0 [] fs') as Hp. simpl in Hp. split.
  - destruct (Parse args fs0 []) as [[fs1 seen]|e|]; simpl in *; [|done..].
    destruct (proj1 (Hp fs1 seen) eq_refl) as (given & Hg & Hs & ->).
    destruct (from_env _ _ names fs1) as [fs|e|] eqn:Ef; simpl; [|done..].
    destruct (ParseLevel _) as [level|] eqn:El; [|done]. intros [-> Hv]%validate_ok.
    specialize (Hr given fs). rewrite Hs in Hr. simpl in Hr. destruct (proj1 Hr Ef) as (H1 & H2 & H3).
    by exists given, fs, level.
  - intros (given & fs & level & Hg & H1 & H2 & H3 & El & -> & Hv).
    pose proof (proj2 (Hr given fs) (conj H1 (conj H2 H3))) as Hok.
    destruct (set_all given fs0) as [fs1|e|] eqn:Es; simpl in Hok; [|done..].
    rewrite (proj2 (Hp fs1 given.*1) (ex_intro _ given (conj Hg (conj Es eq_refl)))). simpl. rewrite Hok. simpl.
    rewrite El. by apply validate_ok.
Qed.

(** ** The store's options *)

(** The policy a shard may have: Go's interface value. *)
Inductive evictionPolicy : Type :=
| PolicyLRU (p : lru)
| PolicyLFU (p : lfu)
| PolicyTiny (p : tinyLFU).

(** Apply a recorder of the dynamic type. *)
Definition dispatch (f : ∀ P, Policy P → P → bytes → N → P * N) (p : evictionPolicy) (key : bytes) (hint : N) :
    evictionPolicy * N :=
  match p with
  | PolicyLRU p => let '(p, h) := f lru lru_policy p key hint in (PolicyLRU p, h)
  | PolicyLFU p => let '(p, h) := f lfu lfu_policy p key hint in (PolicyLFU p, h)
  | PolicyTiny p => let '(p, h) := f tinyLFU tinyLFU_policy p key hint in (PolicyTiny p, h)
  end.

#[export] Instance evictionPolicy_policy : Policy evictionPolicy := {|
  recordAccess := dispatch (@recordAccess);
  recordInsert := dispatch (@recordInsert);
  score p key hint :=
    match p with PolicyLRU p => score p key hint | PolicyLFU p => score p key hint | PolicyTiny p => score p key hint end;
  policyAdmit p c v :=
    match p with PolicyLRU p => policyAdmit p c v | PolicyLFU p => policyAdmit p c v | PolicyTiny p => policyAdmit p c v end
|}.

(** The options as applied to one shard, whose policy factory draws [seed]. *)
Definition storeOptions (seed : bytes → N) (c : Config) : gres False (list (@Option_ evictionPolicy)) :=
  let opts := if (0 <? cfg_MaxEntries c)%Z then [WithMaxEntries (cfg_MaxEntries c)] else [] in
  let opts := if (0 <? cfg_MaxValueSize c)%Z then opts ++ [WithMaxValueSize (cfg_MaxValueSize c)] else opts in
  let opts := if (0 <? cfg_MaxKeySize c)%Z then opts ++ [WithMaxKeySize (cfg_MaxKeySize c)] else opts in
  if bool_decide (cfg_Eviction c = str "lru") then Ok (opts ++ [WithPolicy (PolicyLRU NewLRU)])
  else if bool_decide (cfg_Eviction c = str "lfu") then Ok (opts ++ [WithPolicy (PolicyLFU NewLFU)])
  else if bool_decide (cfg_Eviction c = str "tinylfu") then
    do p <- NewTinyLFU seed (cfg_MaxEntries c); Ok (opts ++ [WithPolicy (PolicyTiny p)])
  else Ok opts.

(** ** Seeds and gossip options *)

(** [strings.TrimSpace]: the UTF-8 encodings of the Unicode spaces. *)
Definition spaces : list bytes :=
  [[x09]; [x0a]; [x0b]; [x0c]; [x0d]; [x20]; [xc2; x85]; [xc2; xa0]; [xe1; x9a; x80];
   [xe2; x80; x80]; [xe2; x80; x81]; [xe2; x80; x82]; [xe2; x80; x83]; [xe2; x80; x84]; [xe2; x80; x85];
   [xe2; x80; x86]; [xe2; x80; x87]; [xe2; x80; x88]; [xe2; x80; x89]; [xe2; x80; x8a]; [xe2; x80; xa8];
   [xe2; x80; xa9]; [xe2; x80; xaf]; [xe2; x81; x9f]; [xe3; x80; x80]].

(** Remove leading members of [ps], at most [fuel] of them. *)
Fixpoint trim_left (fuel : nat) (ps : list bytes) (s : bytes) : bytes :=
  match fuel with
  | O => s
  | S fuel => match list_find (λ p, take (length p) s = p) ps with
              | Some (_, p) => trim_left fuel ps (drop (length p) s)
              | None => s
              end
  end.

Definition TrimSpace (s : bytes) : bytes :=
  let s := trim_left (length s) spaces s in
  reverse (trim_left (length s) (reverse <$> spaces) (reverse s)).

(** [strings.SplitSeq(s, ",")]. *)
Fixpoint split_commas (s : bytes) : list bytes :=
  match s with
  | [] => [[]]
  | c :: s =>
      if bool_decide (c = x2c) then [] :: split_commas s
      else match split_commas s with
           | p :: ps => (c :: p) :: ps
           | [] => [[c]]
           end
  end.

Definition splitSeeds (s : bytes) : list bytes := filter (λ p, p ≠ []) (TrimSpace <$> split_commas s).

Definition gossiperOptions (c : Config) : list GossiperOption :=
  let opts := [WithSeeds (splitSeeds (cfg_Seeds c))] in
  let opts := if (0 <? cfg_GossipInterval c)%Z then opts ++ [WithGossipInterval (cfg_GossipInterval c)] else opts in
  let opts := if (0 <? cfg_FailTimeout c)%Z then opts ++ [WithFailTimeout (cfg_FailTimeout c)] else opts in
  if (0 <? cfg_Fanout c)%Z then opts ++ [WithFanout (cfg_Fanout c)] else opts.

(** ** Building the store *)

(** [store.NewSharded(cfg.Shards, cfg.storeOptions()...)]: shard [i]'s policy
    factory draws [seed i].  The sketches of all shards have the same capacity, so
    they panic alike. *)
Definition newStore (hash : bytes → N) (seed : nat → bytes → N) (c : Config) :
    gres False (ShardedStore evictionPolicy) :=
  do _ <- storeOptions (seed 0%nat) c;
  NewSharded hash (cfg_Shards c)
    (λ i, match storeOptions (seed i) c with Ok opts => opts | Err _ | Panic => [] end).

(** A limit flag that is not positive leaves the default. *)
Definition limit (flag dflt : Z) : Z := if (0 <? flag)%Z then flag else dflt.

(** ** Lemmas *)

Lemma New_storeOptions seed c opts :
  storeOptions seed c = Ok opts →
  let m := New opts in
  data m = ∅ ∧ maxKeySize m = limit (cfg_MaxKeySize c) DefaultMaxKeySize
  ∧ maxValueSize m = limit (cfg_MaxValueSize c) DefaultMaxValueSize
  ∧ maxEntries m = limit (cfg_MaxEntries c) 0
  ∧ (policy m ≠ None ↔ cfg_Eviction c ∈ [str "lru"; str "lfu"; str "tinylfu"]).
Proof.
  unfold storeOptions, limit. intros H.
  assert (∃ ps, opts = (if (0 <? cfg_MaxEntries c)%Z then [WithMaxEntries (cfg_MaxEntries c)] else [])
    ++ (if (0 <? cfg_MaxValueSize c)%Z then [WithMaxValueSize (cfg_MaxValueSize c)] else [])
    ++ (if (0 <? cfg_MaxKeySize c)%Z then [WithMaxKeySize (cfg_MaxKeySize c)] else []) ++ ps
    ∧ ((∃ p, ps = [WithPolicy p]) ∧ cfg_Eviction c ∈ [str "lru"; str "lfu"; str "tinylfu"]
       ∨ ps = [] ∧ cfg_Eviction c ∉ [str "lru"; str "lfu"; str "tinylfu"])) as (ps & -> & Hps).
  { pose proof (not_elem_of_nil (cfg_Eviction c)).
    case_bool_decide; [|case_bool_decide; [|case_bool_decide;
      [destruct (NewTinyLFU _ _) as [p|?|]; simpl in H; [|done..]|]]]; injection H as <-;
      (eexists; split; [destruct (0 <? cfg_MaxEntries c)%Z, (0 <? cfg_MaxValueSize c)%Z, (0 <? cfg_MaxKeySize c)%Z;
                        simpl; reflexivity|]); rewrite !not_elem_of_cons, !elem_of_cons; eauto 10. }
  unfold New. rewrite !foldl_app. clear H.
  destruct Hps as [[[p ->] Hev]|[-> Hev]];
    destruct (0 <? cfg_MaxEntries c)%Z, (0 <? cfg_MaxValueSize c)%Z, (0 <? cfg_MaxKeySize c)%Z; cbn; naive_solver.
Qed.

Lemma NewCountMinSketch_shape seed seed' capacity :
  match NewCountMinSketch seed capacity, NewCountMinSketch seed' capacity with
  | Ok _, Ok _ | Err _, Err _ | Panic, Panic => True
  | _, _ => False
  end.
Proof. unfold NewCountMinSketch. destruct (make_panics _ _) eqn:E; simpl; by rewrite ?E. Qed.

Lemma storeOptions_shape seed seed' c opts :
  storeOptions seed c = Ok opts → ∃ opts', storeOptions seed' c = Ok opts'.
Proof.
  unfold storeOptions, NewTinyLFU. pose proof (NewCountMinSketch_shape seed seed' (cfg_MaxEntries c)).
  repeat case_bool_decide; try by eexists.
  destruct (NewCountMinSketch seed _), (NewCountMinSketch seed' _); simpl; try done. by eexists.
Qed.

Lemma storeOptions_ok seed c :
  (cfg_MaxEntries c <= 2 ^ 44)%Z → ∃ opts, storeOptions seed c = Ok opts.
Proof.
  intros Hc. unfold storeOptions, NewTinyLFU. destruct (NewCountMinSketch_ok seed _ Hc) as (s & -> & _).
  repeat case_bool_decide; by eexists.
Qed.

Lemma newStore_inv hash seed c s :
  newStore hash seed c = Ok s →
  ∃ opts, (∀ i, storeOptions (seed i) c = Ok (opts i)) ∧ s = sharded_of hash (cfg_Shards c) opts.
Proof.
  unfold newStore. destruct (storeOptions (seed 0%nat) c) as [opts0|?|] eqn:E; simpl; [|done..]. intros ->%NewSharded_Ok.
  eexists. split; [|reflexivity]. intros i. simpl. by destruct (storeOptions_shape _ (seed i) _ _ E) as [? ->].
Qed.

Lemma storeOptions_uniform seed c opts : (∀ i, storeOptions (seed i) c = Ok (opts i)) → uniform_opts opts.
Proof.
  intros Ho i. pose proof (New_storeOptions _ _ _ (Ho 0%nat)) as (_ & K1 & K2 & K3 & K4).
  pose proof (New_storeOptions _ _ _ (Ho i)) as (L0 & L1 & L2 & L3 & L4). split; [done|].
  unfold same_config. split_and!; [congruence..|].
  destruct (policy (New (opts 0%nat))), (policy (New (opts i))); naive_solver.
Qed.

Lemma evicting_policies e : e ∈ policies → e ≠ str "none" ↔ e ∈ [str "lru"; str "lfu"; str "tinylfu"].
Proof.
  unfold policies. rewrite elem_of_cons. intros [->|Hin]; [|split; [done|]].
  - split; [done|]. intros H%(bool_decide_eq_true_2 _). discriminate H.
  - intros H ->. apply (bool_decide_eq_true_2 _) in H. discriminate H.
Qed.

(** The store a node builds from any configuration start-up accepts: as many
    shards as configured and at least one, empty and well formed, each with the
    configured cap and size limits (the defaults where a flag is not positive),
    and evicting exactly when a policy other than none is configured, in which case
    the cap is positive. *)
Lemma configured_store args env c hash seed :
  parseFlags args env = Ok c →
  (cfg_MaxEntries c <= 2 ^ 44)%Z → (cfg_Shards c <= 2 ^ 45)%Z →
  ∃ s, newStore hash seed c = Ok s
  ∧ length (shards s) = Z.to_nat (Z.max 1 (cfg_Shards c))
  ∧ swf s ∧ represents s ∅
  ∧ slimits s = (limit (cfg_MaxKeySize c) DefaultMaxKeySize, limit (cfg_MaxValueSize c) DefaultMaxValueSize)
  ∧ Forall (λ m, maxEntries m = limit (cfg_MaxEntries c) 0) (shards s)
  ∧ (sevicts s ↔ cfg_Eviction c ≠ str "none")
  ∧ (sevicts s → Forall (λ m, (0 < maxEntries m)%Z) (shards s)).
Proof.
  intros Hp Hc Hsh. apply parseFlags_valid in Hp as Hv. destruct (storeOptions_ok (seed 0%nat) c Hc) as [opts0 E0].
  assert (∃ s, newStore hash seed c = Ok s) as [s Es] by (unfold newStore; rewrite E0; simpl; rewrite NewSharded_eq, (proj2 (Z.leb_le _ _) Hsh); by eexists).
  exists s. split; [done|]. apply newStore_inv in Es as (opts & Ho & ->). pose proof (storeOptions_uniform _ _ _ Ho) as Hu.
  assert (∀ i m, shards (sharded_of hash (cfg_Shards c) opts) !! i = Some m →
    maxEntries m = limit (cfg_MaxEntries c) 0
    ∧ (policy m ≠ None ↔ cfg_Eviction c ∈ [str "lru"; str "lfu"; str "tinylfu"])) as Hm.
  { intros i m ->%lookup_sharded_of. by destruct (New_storeOptions _ _ _ (Ho i)) as (_ & _ & _ & ? & ?). }
  pose proof (sharded_of_length hash (cfg_Shards c) opts) as Hlen.
  assert (sevicts (sharded_of hash (cfg_Shards c) opts) ↔ cfg_Eviction c ≠ str "none") as Hev.
  { rewrite (evicting_policies _ (vc_eviction _ Hv)). split.
    - intros (m & [i Hi]%list_elem_of_lookup & Hne). by apply (Hm i m Hi).
    - intros Hin. destruct (shards (sharded_of hash (cfg_Shards c) opts) !! 0%nat) as [m|] eqn:E;
        [|apply lookup_ge_None in E; lia].
      exists m. split; [by eapply list_elem_of_lookup_2|]. by apply (Hm 0%nat m E). }
  split_and!; [done|by apply sharded_of_wf|by apply sharded_of_represents| | |done|].
  - rewrite sharded_of_limits by done. destruct (New_storeOptions _ _ _ (Ho 0%nat)) as (_ & E1 & E2 & _).
    unfold limits. by rewrite E1, E2.
  - apply Forall_lookup_2. intros i m Hi. by apply (Hm i m Hi).
  - intros Hne%Hev. apply Forall_lookup_2. intros i m Hi. destruct (Hm i m Hi) as [-> _]. unfold limit.
    pose proof (vc_capped _ Hv Hne). case_match; lia.
Qed.

(** The number of shards is not checked: one for which the shard slice cannot be
    allocated makes start-up panic. *)
Lemma shards_unchecked hash seed c : (2 ^ 45 < cfg_Shards c)%Z → newStore hash seed c = Panic.
Proof.
  intros Hs. unfold newStore. destruct (storeOptions (seed 0%nat) c) as [opts|[]|]; simpl; [|done].
  by rewrite NewSharded_eq, (proj2 (Z.leb_gt _ _) Hs).
Qed.

(** ** The gossiper's settings *)

Lemma split_commas_no_comma s p : p ∈ split_commas s → x2c ∉ p.
Proof.
  revert p. induction s as [|c s IH]; intros p; cbn [split_commas].
  - intros ->%list_elem_of_singleton. apply not_elem_of_nil.
  - case_bool_decide as Hc; [intros [->|?]%elem_of_cons; [apply not_elem_of_nil|by apply IH]|].
    destruct (split_commas s) as [|q qs] eqn:E.
    + intros ->%list_elem_of_singleton. apply not_elem_of_cons. split; [done|apply not_elem_of_nil].
    + intros [->|?]%elem_of_cons; [|apply IH; by right]. apply not_elem_of_cons. split; [done|]. apply IH. left.
Qed.

Lemma trim_left_suffix fuel ps s : ∃ pre, s = pre ++ trim_left fuel ps s.
Proof.
  revert s. induction fuel as [|fuel IH]; intros s; cbn [trim_left]; [by exists []|].
  destruct (list_find _ ps) as [[i p]|]; [|by exists []]. destruct (IH (drop (length p) s)) as [pre E].
  exists (take (length p) s ++ pre). rewrite <-app_assoc, <-E. symmetry. apply take_drop.
Qed.

Lemma TrimSpace_elem b s : b ∈ TrimSpace s → b ∈ s.
Proof.
  unfold TrimSpace. cbv zeta. destruct (trim_left_suffix (length s) spaces s) as [pre E]. set (t := trim_left _ _ s) in *.
  destruct (trim_left_suffix (length t) (reverse <$> spaces) (reverse t)) as [pre' E'].
  set (u := trim_left _ _ (reverse t)) in *. rewrite elem_of_reverse. intros Hb.
  rewrite E. apply elem_of_app. right. rewrite <-elem_of_reverse, E'. apply elem_of_app. by right.
Qed.

(** The seeds are non-empty addresses without commas, and the gossiper a node
    builds has the configured timings where they are positive. *)
Lemma configured_gossiper m c :
  let g := NewGossiper m (gossiperOptions c) in
  members g = m ∧ seeds g = splitSeeds (cfg_Seeds c)
  ∧ Forall (λ p, p ≠ [] ∧ x2c ∉ p) (seeds g)
  ∧ gossipInterval g = limit (cfg_GossipInterval c) second
  ∧ failTimeout g = limit (cfg_FailTimeout c) (5 * second)
  ∧ fanout g = limit (cfg_Fanout c) 3.
Proof.
  intros g. assert (seeds g = splitSeeds (cfg_Seeds c)) as Es.
  { unfold g, gossiperOptions. by repeat case_match. }
  rewrite Es. unfold g, gossiperOptions, limit. split_and!; try (by repeat case_match).
  apply Forall_forall. intros p [Hne (q & -> & Hq)%list_elem_of_fmap]%list_elem_of_filter. split; [done|].
  intros Hin%TrimSpace_elem. by apply (split_commas_no_comma _ _ Hq).
Qed.

(** ** Examples *)

(** The intervals of the hint replayer and of the ring rebuild are not checked: a
    cluster node may be started with zero, for which [time.NewTicker] panics. *)
Lemma intervals_unchecked :
  ∃ c, parseFlags [str "-addr=10.0.0.1:7001"; str "--gossip-addr"; str "10.0.0.1:7002";
                   str "-hint-replayer-interval=0s"; str "-rebuild-interval"; str "0"] (λ _, None) = Ok c
    ∧ cfg_GossipAddr c ≠ [] ∧ cfg_HintReplayerInterval c = 0%Z ∧ cfg_RebuildInterval c = 0%Z.
Proof. eexists. split; [vm_compute; reflexivity|]. by split_and!. Qed.

(** Arguments after the first that is not a flag are ignored, flags among them. *)
Lemma trailing_flags_ignored :
  ∃ c, parseFlags [str "-shards"; str "4"; str "start"; str "-eviction"; str "unheard-of"] (λ _, None) = Ok c
    ∧ cfg_Shards c = 4%Z ∧ cfg_Eviction c = str "none".
Proof. eexists. split; [vm_compute; reflexivity|]. by split_and!. Qed.
