(* ===== verification/Main.v ===== *)
(** * The process (cmd/kyria/main.go)

    [main] starts the components the configuration asks for, binds its ports,
    serves until a signal arrives or serving fails, and then stops them in a fixed
    order.  The process is a step relation over the background loops of Loops.v,
    one per component, the connection pool of Peer.v, the server of Server.v and
    the position of [main].  What a turn of a loop does is in Loops.v; here only
    when turns happen matters, so the loops carry no state.  Calls to replicas use
    the pool whenever the process is alive, whoever makes them: a loop, a request,
    or a goroutine of a fan-out that nobody waits for any more. *)

From S2P Require Import Prelude Gossip Loops Server Peer Config.

(** ** Data *)

Inductive component : Type :=
| CJanitor | CGossiper | CRouter | CReplayer | CAntiEntropy | CTombstoneGC.

#[export] Instance component_eq_dec : EqDecision component.
Proof. solve_decision. Defined.

Definition clustered (cfg : Config) : bool := negb (bool_decide (cfg_GossipAddr cfg = [])).

(** The components [main] starts, in the order it does. *)
Definition started (cfg : Config) : list component :=
  (if (0 <? cfg_ReapInterval cfg)%Z then [CJanitor] else [])
  ++ if clustered cfg then
       [CGossiper; CRouter; CReplayer]
       ++ (if (0 <? cfg_AntiEntropyInterval cfg)%Z then [CAntiEntropy] else [])
       ++ (if (0 <? cfg_TombstoneGCInterval cfg)%Z then [CTombstoneGC] else [])
     else [].

(** The goroutines of each, with the interval it is given.  Only a round of
    anti-entropy may panic. *)
Definition component_loop (cfg : Config) (c : component) : loopSpec unit :=
  let turn := λ (_ : unit) (t : option unit), t = Some () in
  let may_panic := λ (_ : unit) (_ : option unit), True in
  match c with
  | CJanitor => mkLoopSpec [Ticks (cfg_ReapInterval cfg) turn] true
  | CGossiper => mkLoopSpec [Reads turn; Ticks (limit (cfg_GossipInterval cfg) second) turn] false
  | CRouter => mkLoopSpec [Ticks (cfg_RebuildInterval cfg) turn] false
  | CReplayer => mkLoopSpec [Ticks (cfg_HintReplayerInterval cfg) turn] true
  | CAntiEntropy => mkLoopSpec [Ticks (cfg_AntiEntropyInterval cfg) may_panic] true
  | CTombstoneGC => mkLoopSpec [Ticks (cfg_TombstoneGCInterval cfg) turn] true
  end.

(** The constructor of a component, and [Start] where it has one. *)
Definition create (cfg : Config) (c : component) : loop_state unit :=
  let l := start (component_loop cfg c) () in
  if by_constructor (component_loop cfg c) then l
  else mkLoop (once l) (stopped l) (panicked l) (gs l ++ launch (component_loop cfg c)) ().

(** ** Shutdown *)

Inductive action : Type :=
| StopLoop (c : component)
| ClosePeer
| CloseServer.

(** The branch of [main] a signal selects: stop what was started, release the
    pooled connections, close the server. *)
Definition shutdown (cfg : Config) : list action :=
  (StopLoop <$> filter (λ c, c ∈ started cfg)
     [CJanitor; CGossiper; CRouter; CReplayer; CAntiEntropy; CTombstoneGC])
  ++ (if clustered cfg then [ClosePeer] else [])
  ++ [CloseServer].

(** [Starting todo]: the components left to start.  [Running]: in the [select].
    [Stopping todo called]: the actions left, and whether the [Stop] or [Close]
    that heads them has been entered; with none left [main] has returned, and the
    process with it.  [Dead]: [os.Exit(1)], a panic, or a signal before
    [signal.NotifyContext]. *)
Inductive status : Type :=
| Starting (todo : list component)
| Running
| Stopping (todo : list action) (called : bool)
| Dead.

Record process : Type := mkProcess {
  loops : component → loop_state unit;
  main_at : status;
  peers : pstate;
  srv : Server
}.

Definition alive (p : process) : Prop :=
  match main_at p with Starting _ | Running | Stopping (_ :: _) _ => True | Stopping [] _ | Dead => False end.

(** [Serve] has been launched. *)
Definition serving (p : process) : Prop :=
  match main_at p with Running | Stopping (_ :: _) _ => True | _ => False end.

(** A component that was not created has no goroutines. *)
Definition boot (cfg : Config) : process := {|
  loops _ := mkLoop false false false [] ();
  main_at := Starting (started cfg);
  peers := mkPState NewPeer ∅ ∅;
  srv := NewServer (cfg_MaxConns cfg)
|}.

Definition set_loop (p : process) (c : component) (l : loop_state unit) (s : status) : process :=
  mkProcess (λ c', if decide (c' = c) then l else loops p c') s (peers p) (srv p).

Definition set_status (p : process) (s : status) : process := mkProcess (loops p) s (peers p) (srv p).

Inductive event : Type :=
| ECreated (c : component)
| EListening
| EKilled
| ELoop (c : component) (e : loop_event)
| EPool
| EServer
| ERequest (c : nat)
| ERequestPanics (c : nat)
| ESignal
| EServeFailed
| EDone (a : action).

(** What the goroutines of a component do, a panic apart. *)
Definition loop_acts (e : loop_event) : Prop := match e with Entered _ | Turn _ | Exited _ => True | _ => False end.

Inductive main_step (cfg : Config) : process → event → process → Prop :=
| main_create p c todo :
    main_at p = Starting (c :: todo) → main_step cfg p (ECreated c) (set_loop p c (create cfg c) (Starting todo))
| main_listen p :                          (** the ports are bound, [Serve] is launched *)
    main_at p = Starting [] → main_step cfg p EListening (set_status p Running)
| main_killed p todo :                     (** a port is taken, or a signal is not yet caught *)
    main_at p = Starting todo → main_step cfg p EKilled (set_status p Dead)
| main_loop p c e l :
    alive p → loop_acts e → loop_step (component_loop cfg c) (loops p c) e l →
    main_step cfg p (ELoop c e) (set_loop p c l (main_at p))
| main_panic p c i l :                     (** a panic in any goroutine ends the process *)
    alive p → loop_step (component_loop cfg c) (loops p c) (Panicked i) l →
    main_step cfg p (ELoop c (Panicked i)) (set_loop p c l Dead)
| main_pool p s :                          (** a call takes or gives up a connection *)
    alive p → clustered cfg = true → pool_step (peers p) s → busy s ≠ busy (peers p) →
    main_step cfg p EPool (mkProcess (loops p) (main_at p) s (srv p))
| main_server p s :                        (** nobody but [main] and [Serve] call [Close] *)
    serving p → server_step (srv p) s → closed s = closed (srv p) ∨ loop s = ClosingItself →
    main_step cfg p EServer (mkProcess (loops p) (main_at p) (peers p) s)
| main_request p c :                       (** a command on an open connection *)
    serving p → goroutines (srv p) !! c = Some Serving → main_step cfg p (ERequest c) p
| main_request_panics p c :                (** RTREE and RBUCKET can, Merkle.New_overflows *)
    serving p → goroutines (srv p) !! c = Some Serving → main_step cfg p (ERequestPanics c) (set_status p Dead)
| main_signal p :
    main_at p = Running → main_step cfg p ESignal (set_status p (Stopping (shutdown cfg) false))
| main_serve_failed p :
    main_at p = Running → loop (srv p) = Returned → main_step cfg p EServeFailed (set_status p Dead)
| main_stop p c todo l :
    main_at p = Stopping (StopLoop c :: todo) false → loop_step (component_loop cfg c) (loops p c) StopCalled l →
    main_step cfg p (ELoop c StopCalled) (set_loop p c l (Stopping (StopLoop c :: todo) true))
| main_stopped p c todo l :
    main_at p = Stopping (StopLoop c :: todo) true → loop_step (component_loop cfg c) (loops p c) StopReturned l →
    main_step cfg p (EDone (StopLoop c)) (set_loop p c l (Stopping todo false))
| main_close_peer p todo :
    main_at p = Stopping (ClosePeer :: todo) false →
    main_step cfg p (EDone ClosePeer) (mkProcess (loops p) (Stopping todo false) (close_pool (peers p)) (srv p))
| main_close_server p todo :
    main_at p = Stopping (CloseServer :: todo) false →
    main_step cfg p EServer
      (mkProcess (loops p) (Stopping (CloseServer :: todo) true) (peers p) (Close (srv p)))
| main_closed p todo :
    main_at p = Stopping (CloseServer :: todo) true → Close_returns (srv p) →
    main_step cfg p (EDone CloseServer) (set_status p (Stopping todo false)).

Inductive main_trace (cfg : Config) : process → list event → process → Prop :=
| mtrace_nil p : main_trace cfg p [] p
| mtrace_cons p1 e p2 es p3 :
    main_step cfg p1 e p2 → main_trace cfg p2 es p3 → main_trace cfg p1 (e :: es) p3.

(** The intervals [time.NewTicker] accepts: those of the router and the hint
    replayer are not checked when the flags are parsed. *)
Definition intervals_ok (cfg : Config) : bool :=
  negb (clustered cfg) || (0 <? cfg_RebuildInterval cfg)%Z && (0 <? cfg_HintReplayerInterval cfg)%Z.

(** ** Invariant *)

Definition actions (es : list event) : list action :=
  omap (λ e, match e with EDone a => Some a | _ => None end) es.

(** What of a run one component sees, from its constructor on. *)
Definition seen_by (c : component) (e : event) : list loop_event :=
  match e with
  | ELoop c' e' => if decide (c' = c) then [e'] else []
  | EDone (StopLoop c') => if decide (c' = c) then [StopReturned] else []
  | _ => []
  end.
Definition loop_events (c : component) (es : list event) : list loop_event := es ≫= seen_by c.
Definition create_events (cfg : Config) (c : component) : list loop_event :=
  if by_constructor (component_loop cfg c) then [] else [Started].

Definition created (cfg : Config) (p : process) (c : component) : Prop :=
  c ∈ started cfg ∧ match main_at p with Starting todo => c ∉ todo | _ => True end.

#[global] Instance created_dec cfg p c : Decision (created cfg p c).
Proof. unfold created. destruct (main_at p); apply _. Defined.

(** Every goroutine of the component has returned. *)
Definition exited (p : process) (c : component) : Prop := Forall (λ g, g.2 = Gone) (gs (loops p c)).

(** The actions [main] has completed, and the call it is in. *)
Definition progress (cfg : Config) (es : list event) (p : process) : Prop :=
  match main_at p with
  | Starting todo =>
      actions es = [] ∧ (ESignal ∉ es) ∧ (∃ pre, started cfg = pre ++ todo) ∧ ∀ c, StopCalled ∉ loop_events c es
  | Running => actions es = [] ∧ (ESignal ∉ es) ∧ ∀ c, StopCalled ∉ loop_events c es
  | Stopping todo called =>
      shutdown cfg = actions es ++ todo
      ∧ (called = true → (∃ c todo', todo = StopLoop c :: todo' ∧ StopCalled ∈ loop_events c es)
                         ∨ (∃ todo', todo = CloseServer :: todo' ∧ closed (srv p) = true))
  | Dead => True
  end.

Record main_inv (cfg : Config) (es : list event) (p : process) : Prop := {
  mi_progress : progress cfg es p;
  mi_created : ∀ c, created cfg p c →
    loop_trace (component_loop cfg c) (start (component_loop cfg c) ()) (create_events cfg c ++ loop_events c es) (loops p c);
  mi_absent : ∀ c, ¬ created cfg p c → gs (loops p c) = [] ∧ loop_events c es = [];
  mi_fine : ∀ c, panicked (loops p c) = false
}.

(** ** Lemmas *)

Lemma loops_set p c l s c' : loops (set_loop p c l s) c' = if decide (c' = c) then l else loops p c'.
Proof. done. Qed.

Lemma loop_events_snoc c es e : loop_events c (es ++ [e]) = loop_events c es ++ seen_by c e.
Proof. unfold loop_events. by rewrite bind_app, bind_singleton. Qed.

Lemma actions_snoc es e : actions (es ++ [e]) = actions es ++ match e with EDone a => [a] | _ => [] end.
Proof. unfold actions. rewrite omap_app. by destruct e. Qed.

Lemma started_NoDup cfg : NoDup (started cfg).
Proof. unfold started. repeat case_match; apply (bool_decide_unpack _); vm_compute; exact I. Qed.

Lemma create_trace cfg c :
  loop_trace (component_loop cfg c) (start (component_loop cfg c) ()) (create_events cfg c) (create cfg c).
Proof.
  unfold create_events, create. destruct (by_constructor (component_loop cfg c)) eqn:E; [constructor|].
  econstructor; [|constructor]. by apply step_start.
Qed.

Lemma create_events_no_stop cfg c : StopCalled ∉ create_events cfg c.
Proof. unfold create_events. case_match; set_solver. Qed.

(** A component whose goroutines act has been created. *)
Lemma acts_created cfg es p c e l :
  main_inv cfg es p → loop_acts e → loop_step (component_loop cfg c) (loops p c) e l → created cfg p c.
Proof.
  intros Hi He Hl. destruct (decide (created cfg p c)) as [Hc|Hc]; [done|].
  destruct (mi_absent _ _ _ Hi c Hc) as [Hg _]. destruct Hl; try done; by rewrite Hg, lookup_nil in *.
Qed.

Lemma created_same cfg p p' c :
  (∀ todo, main_at p ≠ Starting todo) ∨ main_at p = Starting [] ∨ main_at p' = main_at p →
  (∀ todo, main_at p' = Starting todo → main_at p' = main_at p) → created cfg p' c ↔ created cfg p c.
Proof.
  unfold created. intros H H'. destruct (main_at p) as [todo| | |] eqn:E, (main_at p') as [todo'| | |] eqn:E';
    destruct H as [H|[H|H]]; simplify_eq; try done; try (by specialize (H _ eq_refl));
    try (specialize (H' _ eq_refl); simplify_eq; done); clear H'; set_solver.
Qed.

(** A step that no component takes part in. *)
Lemma inv_quiet cfg es e p p' :
  main_inv cfg es p → loops p' = loops p → (∀ c, seen_by c e = []) →
  (∀ todo, main_at p ≠ Starting todo) ∨ main_at p = Starting [] ∨ main_at p' = main_at p →
  (∀ todo, main_at p' = Starting todo → main_at p' = main_at p) →
  progress cfg (es ++ [e]) p' → main_inv cfg (es ++ [e]) p'.
Proof.
  intros [H1 H2 H3 H4] El Hs Hm Hm' Hp. split; [done|..|by rewrite El]; intros c; rewrite (created_same cfg p p') by done;
    rewrite loop_events_snoc, Hs, app_nil_r, El; auto.
Qed.

(** A step of one component that exists. *)
Lemma inv_loop cfg es e le p c l s :
  main_inv cfg es p → created cfg p c → seen_by c e = [le] → (∀ c', c' ≠ c → seen_by c' e = []) →
  loop_step (component_loop cfg c) (loops p c) le l → (∀ i, le ≠ Panicked i) →
  (∀ todo, main_at p ≠ Starting todo) ∨ main_at p = Starting [] ∨ s = main_at p →
  (∀ todo, s = Starting todo → s = main_at p) →
  progress cfg (es ++ [e]) (set_loop p c l s) → main_inv cfg (es ++ [e]) (set_loop p c l s).
Proof.
  intros [H1 H2 H3 H4] Hc He Hne Hl Hpn Hm Hm' Hp. split; [done|..|].
  3: { intros c'. rewrite loops_set. case_decide; [by eapply step_panicked|done]. }
  all: intros c'; rewrite (created_same cfg p) by done;
    rewrite loop_events_snoc, loops_set; case_decide as E; [subst c'|].
  - intros _. rewrite He, app_assoc. apply trace_app. eexists. split; [by apply H2|]. econstructor; [exact Hl|constructor].
  - rewrite Hne, app_nil_r by done. auto.
  - done.
  - rewrite Hne, app_nil_r by done. auto.
Qed.

(** Events that leave [main] where it is. *)
Lemma progress_same cfg es e p p' :
  progress cfg es p → main_at p' = main_at p → (closed (srv p) = true → closed (srv p') = true) →
  (∀ a, e ≠ EDone a) → e ≠ ESignal → (∀ c, StopCalled ∉ seen_by c e) → progress cfg (es ++ [e]) p'.
Proof.
  unfold progress. intros Hp -> Hc Ha Hs Hn.
  assert (actions (es ++ [e]) = actions es) as ->.
  { rewrite actions_snoc. destruct e; try by rewrite app_nil_r. by destruct (Ha a). }
  destruct (main_at p) as [todo| |todo called|]; [| | |done].
  - destruct Hp as (? & ? & ? & Hst). split_and!; [done|set_solver|done|]. intros c. rewrite loop_events_snoc. set_solver.
  - destruct Hp as (? & ? & Hst). split_and!; [done|set_solver|]. intros c. rewrite loop_events_snoc. set_solver.
  - destruct Hp as [? Hcall]. split; [done|]. intros Ht. destruct (Hcall Ht) as [(c & todo' & -> & Hin)|(todo' & -> & ?)].
    + left. exists c, todo'. split; [done|]. rewrite loop_events_snoc. set_solver.
    + right. exists todo'. auto.
Qed.

Lemma closed_keeps s s' : server_step s s' → closed s = true → closed s' = true.
Proof. intros Hs Hc. destruct Hs; unfold trackConn, Close in *; try done; by rewrite ?Hc. Qed.

Lemma elem_of_stops cfg c : StopLoop c ∈ shutdown cfg ↔ c ∈ started cfg.
Proof.
  unfold shutdown. rewrite !elem_of_app, list_elem_of_fmap. split.
  - intros [(c' & [= <-] & Hc)|[H|H]].
    + by apply list_elem_of_filter in Hc as [? _].
    + destruct (clustered cfg); [by apply list_elem_of_singleton in H|by apply elem_of_nil in H].
    + by apply list_elem_of_singleton in H.
  - intros Hc. left. exists c. split; [done|]. apply list_elem_of_filter. split; [done|]. destruct c; set_solver.
Qed.

Lemma elem_of_shutdown_peer cfg : ClosePeer ∈ shutdown cfg ↔ clustered cfg = true.
Proof.
  unfold shutdown. rewrite !elem_of_app, list_elem_of_fmap. split.
  - intros [(c' & ? & _)|[H|H]]; [done| |by apply list_elem_of_singleton in H].
    destruct (clustered cfg); [done|by apply elem_of_nil in H].
  - intros ->. right. left. by left.
Qed.

(** When the pool is closed every loop has been stopped. *)
Lemma stops_before_close cfg done todo c :
  shutdown cfg = done ++ todo → ClosePeer ∈ done → c ∈ started cfg → StopLoop c ∈ done.
Proof.
  intros E Hp Hc. apply elem_of_stops in Hc. unfold shutdown in *. set (stops := StopLoop <$> _) in *.
  assert (ClosePeer ∉ stops) as Hn by (unfold stops; by intros (? & ? & _)%list_elem_of_fmap).
  assert (StopLoop c ∈ stops) as Hs.
  { apply elem_of_app in Hc as [?|Hc]; [done|]. destruct (clustered cfg); set_solver. }
  symmetry in E. apply app_eq_inv in E as [(k & -> & _)|(k & Ek & _)].
  - apply elem_of_app. by left.
  - exfalso. apply Hn. rewrite Ek. apply elem_of_app. by left.
Qed.

Lemma inv_create cfg es p c todo :
  main_inv cfg es p → main_at p = Starting (c :: todo) →
  main_inv cfg (es ++ [ECreated c]) (set_loop p c (create cfg c) (Starting todo)).
Proof.
  intros [Hp H2 H3 H4] Hm. unfold progress in Hp. rewrite Hm in Hp. destruct Hp as (Ha & Hsig & [pre Epre] & Hst).
  pose proof (started_NoDup cfg) as Hnd. rewrite Epre in Hnd. apply NoDup_app in Hnd as (_ & _ & [Hnin _]%NoDup_cons).
  assert (∀ c', created cfg (set_loop p c (create cfg c) (Starting todo)) c' ↔ created cfg p c' ∨ c' = c) as Hcr.
  { intros c'. unfold created. rewrite Hm. simpl. rewrite not_elem_of_cons. split; [intros [? ?]; destruct (decide (c' = c)); naive_solver|].
    intros [[? [_ ?]]| ->]; [done|]. split; [rewrite Epre; set_solver|done]. }
  assert (¬ created cfg p c) as Hnc by (unfold created; rewrite Hm; set_solver).
  destruct (H3 c Hnc) as [_ Hno].
  assert (∀ c', loop_events c' (es ++ [ECreated c]) = loop_events c' es) as Hev
    by (intros c'; by rewrite loop_events_snoc, app_nil_r).
  split.
  - unfold progress. simpl. rewrite actions_snoc, app_nil_r. split_and!; [done|set_solver| |intros c'; by rewrite Hev].
    exists (pre ++ [c]). by rewrite <-app_assoc.
  - intros c' Hc'%Hcr. rewrite Hev, loops_set. case_decide as E; [subst c'|].
    + rewrite Hno, app_nil_r. apply create_trace.
    + destruct Hc'; [auto|done].
  - intros c' Hc'. rewrite Hcr in Hc'. rewrite Hev, loops_set, decide_False by (intros ->; auto). apply H3. tauto.
  - intros c'. rewrite loops_set. case_decide; [|done]. unfold create. by case_match.
Qed.

Lemma main_step_inv cfg es p e p' :
  main_inv cfg es p → main_step cfg p e p' → main_at p' ≠ Dead → main_inv cfg (es ++ [e]) p'.
Proof.
  intros Hi Hs Hd. pose proof (mi_progress _ _ _ Hi) as Hp.
  destruct Hs as [p c todo Hm|p Hm|p todo Hm|p c e l Ha He Hl|p c i l Ha Hl|p s Ha Hc Hs Hb|p s Ha Hs Hc|p c Ha Hg|p c Ha Hg|p Hm|p Hm Hr|p c todo l Hm Hl|p c todo l Hm Hl|p todo Hm|p todo Hm|p todo Hm Hr].
  - by apply inv_create.
  - apply (inv_quiet cfg es _ p); [done|done|done|by right; left|done|].
    unfold progress in *. rewrite Hm in Hp. destruct Hp as (H1 & H2 & _ & H4). simpl. rewrite actions_snoc, app_nil_r.
    split_and!; [done|set_solver|]. intros c. rewrite loop_events_snoc. simpl. by rewrite app_nil_r.
  - done.
  - eapply inv_loop; [done|by eapply acts_created|simpl; by rewrite decide_True| |exact Hl|by destruct e|by right; right|done|].
    + intros c' Hne. simpl. by rewrite decide_False.
    + eapply progress_same; [done..|]. intros c'. simpl. case_decide; [|set_solver]. destruct e; set_solver.
  - done.
  - apply (inv_quiet cfg es _ p); [done..|by right; right|done|]. eapply progress_same; try done. set_solver.
  - apply (inv_quiet cfg es _ p); [done..|by right; right|done|].
    eapply progress_same; try done; [by apply closed_keeps|set_solver].
  - apply (inv_quiet cfg es _ p); [done..|by right; right|done|]. eapply progress_same; try done. set_solver.
  - done.
  - apply (inv_quiet cfg es _ p); [done|done|done|left; by rewrite Hm|done|].
    unfold progress in *. rewrite Hm in Hp. destruct Hp as (H1 & _). simpl. by rewrite actions_snoc, app_nil_r, H1.
  - done.
  - eapply inv_loop; [done| |simpl; by rewrite decide_True| |exact Hl|done|left; by rewrite Hm|done|].
    + unfold progress in Hp. rewrite Hm in Hp. destruct Hp as [E _]. split; [|by rewrite Hm].
      apply elem_of_stops. rewrite E. set_solver.
    + intros c' Hne. simpl. by rewrite decide_False.
    + unfold progress in *. rewrite Hm in Hp. destruct Hp as [E _]. simpl. rewrite actions_snoc, app_nil_r.
      split; [done|]. intros _. left. exists c, todo. split; [done|]. rewrite loop_events_snoc. simpl. rewrite decide_True by done.
      set_solver.
  - eapply inv_loop; [done| |simpl; by rewrite decide_True| |exact Hl|done|left; by rewrite Hm|done|].
    + unfold progress in Hp. rewrite Hm in Hp. destruct Hp as [E _]. split; [|by rewrite Hm].
      apply elem_of_stops. rewrite E. set_solver.
    + intros c' Hne. simpl. by rewrite decide_False.
    + unfold progress in *. rewrite Hm in Hp. destruct Hp as [E _]. simpl. rewrite actions_snoc, <-app_assoc. done.
  - apply (inv_quiet cfg es _ p); [done|done|done|left; by rewrite Hm|done|].
    unfold progress in *. rewrite Hm in Hp. destruct Hp as [E _]. simpl. rewrite actions_snoc, <-app_assoc. done.
  - apply (inv_quiet cfg es _ p); [done|done|done|left; by rewrite Hm|done|].
    unfold progress in *. rewrite Hm in Hp. destruct Hp as [E _]. simpl. rewrite actions_snoc, app_nil_r.
    split; [done|]. intros _. right. exists todo. split; [done|]. unfold Close. by destruct (closed (srv p)) eqn:?.
  - apply (inv_quiet cfg es _ p); [done|done|done|left; by rewrite Hm|done|].
    unfold progress in *. rewrite Hm in Hp. destruct Hp as [E _]. simpl. rewrite actions_snoc, <-app_assoc. done.
Qed.

Lemma mtrace_app cfg p1 es1 es2 p3 :
  main_trace cfg p1 (es1 ++ es2) p3 ↔ ∃ p2, main_trace cfg p1 es1 p2 ∧ main_trace cfg p2 es2 p3.
Proof.
  split.
  - revert p1. induction es1 as [|e es1 IH]; intros p1 H; [exists p1; by split; [constructor|]|].
    inversion H as [|? ? p' ? ? Hs Ht]; subst. destruct (IH _ Ht) as (p2 & H1 & H2). exists p2. by split; [econstructor|].
  - intros (p2 & H1 & H2). induction H1; [done|]. simpl. econstructor; eauto.
Qed.

Lemma dead_stuck cfg p e p' : main_step cfg p e p' → main_at p ≠ Dead.
Proof. intros Hs Hd. destruct Hs; unfold alive, serving in *; rewrite Hd in *; done. Qed.

Lemma main_trace_inv cfg es p es' p' :
  main_inv cfg es p → main_trace cfg p es' p' → main_at p' ≠ Dead → main_inv cfg (es ++ es') p'.
Proof.
  intros Hi Ht. revert es Hi. induction Ht as [p|p1 e p2 es' p3 Hs Ht IH]; intros es Hi Hd; [by rewrite app_nil_r|].
  rewrite cons_middle, app_assoc. apply IH; [|done]. eapply main_step_inv; [done|done|].
  destruct Ht as [|p2 e2 p4 ? ? Hs2]; [done|]. by eapply dead_stuck.
Qed.

Lemma boot_inv cfg : main_inv cfg [] (boot cfg).
Proof.
  split; [|intros c [? Hn]; by destruct Hn|done|done].
  split; [done|]. split; [apply not_elem_of_nil|]. split; [by exists []|]. intros c. apply not_elem_of_nil.
Qed.

Lemma process_inv cfg es p : main_trace cfg (boot cfg) es p → main_at p ≠ Dead → main_inv cfg es p.
Proof. apply (main_trace_inv cfg []), boot_inv. Qed.

(** The pool and the server of a process are those of Peer.v and Server.v. *)
Lemma run_pool cfg p es p' : main_trace cfg p es p' → rtc pool_step (peers p) (peers p').
Proof.
  induction 1 as [|p1 e p2 es p3 Hs _ IH]; [done|]. etrans; [|exact IH].
  destruct Hs; try done; eapply rtc_once; [done|apply pool_close].
Qed.

Lemma run_server cfg p es p' : main_trace cfg p es p' → rtc server_step (srv p) (srv p').
Proof.
  induction 1 as [|p1 e p2 es p3 Hs _ IH]; [done|]. etrans; [|exact IH].
  destruct Hs; try done; eapply rtc_once; [done|apply step_close].
Qed.

Lemma no_restart cfg p es p' c : main_trace cfg p es p' → Started ∉ loop_events c es.
Proof.
  induction 1 as [|p1 e p2 es p3 Hs _ IH]; [apply not_elem_of_nil|]. unfold loop_events in *. rewrite bind_cons.
  apply not_elem_of_app. split; [|done].
  destruct Hs as [| | |? ? e| | | | | | | | | | | |]; simpl; try case_decide; set_solver.
Qed.

Lemma done_returned c es : StopLoop c ∈ actions es → StopReturned ∈ loop_events c es.
Proof.
  unfold actions, loop_events. rewrite list_elem_of_omap. intros (e & He & Ha). apply list_elem_of_bind.
  destruct e as [| | | | | | | | | |a]; simplify_eq. exists (EDone (StopLoop c)). split; [|done]. simpl. rewrite decide_True by done. left.
Qed.

(** A component that has been stopped, or never was started, has no goroutine. *)
Lemma stopped_exited cfg es p c :
  main_trace cfg (boot cfg) es p → main_at p ≠ Dead → StopLoop c ∈ actions es ∨ c ∉ started cfg → exited p c.
Proof.
  intros Ht Hd Hc. pose proof (process_inv _ _ _ Ht Hd) as Hi. unfold exited.
  destruct (decide (created cfg p c)) as [Hcr|Hcr].
  2: { destruct (mi_absent _ _ _ Hi c Hcr) as [-> _]. constructor. }
  destruct Hc as [Hc|Hc]; [|by destruct Hcr].
  pose proof (mi_created _ _ _ Hi c Hcr) as (l & _ & H2)%trace_app.
  eapply trace_returned; [exact H2|by eapply no_restart|by apply done_returned].
Qed.

(** Its goroutines do nothing more. *)
Lemma exited_silent cfg p es p' c e :
  main_trace cfg p es p' → (∀ todo, main_at p ≠ Starting todo) → exited p c → loop_acts e → ELoop c e ∉ es.
Proof.
  intros Ht Hm He Ha. induction Ht as [p|p1 e1 p2 es p3 Hs _ IH]; [apply not_elem_of_nil|].
  assert (exited p2 c ∧ (∀ todo, main_at p2 ≠ Starting todo) ∧ ELoop c e ≠ e1) as (H1 & H2 & H3).
  2: { apply not_elem_of_cons. auto. }
  destruct Hs as [p c1 todo Hm1|p Hm1|p todo Hm1|p c1 e1 l _ He1 Hl|p c1 i l _ Hl|p s|p s|p c1|p c1|p Hm1|p Hm1|p c1 todo l Hm1 Hl|p c1 todo l Hm1 Hl|p todo Hm1|p todo Hm1|p todo Hm1];
    try (by destruct (Hm _ Hm1)); split_and!; try done;
    unfold exited; rewrite ?loops_set; try case_decide as E; try subst c1; try done;
    try (by intros [= -> ->]); try (destruct (step_gone _ _ _ _ Hl ltac:(first [done|by intros ->]) He); done).
  intros [= -> ->]. destruct (step_gone _ _ _ _ Hl ltac:(by intros ->) He) as [_ Hin]. destruct e1; set_solver.
Qed.

Lemma intervals_sound cfg c :
  intervals_ok cfg = true → c ∈ started cfg → Forall (λ g, ticker_ok g = true) (routines (component_loop cfg c)).
Proof.
  unfold intervals_ok, started. intros Hok Hc.
  assert (0 < limit (cfg_GossipInterval cfg) second)%Z as Hg by (unfold limit; destruct (Z.ltb_spec 0 (cfg_GossipInterval cfg)); [done|vm_compute; done]).
  destruct (clustered cfg); [apply andb_true_iff in Hok as [H1 H2]|];
    destruct c; repeat constructor; simpl; try lia; repeat case_match; try lia; set_solver.
Qed.

(** What the goroutines of a component do by themselves, the process does. *)
Lemma lift_loop cfg p c es l :
  loop_trace (component_loop cfg c) (loops p c) es l → Forall own_event es → alive p →
  ∃ es' p', main_trace cfg p es' p' ∧ main_at p' = main_at p ∧ loops p' c = l ∧ peers p' = peers p ∧ srv p' = srv p.
Proof.
  remember (loops p c) as l0 eqn:E. intros Ht. revert p E.
  induction Ht as [l|l1 e l2 es l3 Hs _ IH]; intros p -> Hf Ha; [exists [], p; by split; [constructor|]|].
  apply Forall_cons in Hf as [He Hf].
  destruct (IH (set_loop p c l2 (main_at p))) as (es' & p' & H1 & H2); [|done|done|].
  { rewrite loops_set. by rewrite decide_True. }
  exists (ELoop c e :: es'), p'. split; [|done]. econstructor; [|exact H1]. apply main_loop; [done|by destruct e|done].
Qed.

Lemma lift_server cfg p s :
  rtc server_step (srv p) s → serving p → closed (srv p) = true →
  ∃ es p', main_trace cfg p es p' ∧ main_at p' = main_at p ∧ srv p' = s ∧ peers p' = peers p.
Proof.
  remember (srv p) as s0 eqn:E. intros Hr. revert p E.
  induction Hr as [s0|s0 s1 s2 Hs _ IH]; intros p -> Ha Hc; [exists [], p; by split; [constructor|]|].
  pose proof (closed_keeps _ _ Hs Hc) as Hc1.
  destruct (IH (mkProcess (loops p) (main_at p) (peers p) s1)) as (es & p' & H1 & H2); [done..|].
  exists (EServer :: es), p'. split; [|done]. econstructor; [|exact H1]. apply main_server; [done|done|]. left. congruence.
Qed.

(** The [Stop] that heads the shutdown can be entered. *)
Lemma stop_enters cfg es c todo called p :
  main_trace cfg (boot cfg) es p → main_at p = Stopping (StopLoop c :: todo) called →
  panicked (loops p c) = false → loop_inv (component_loop cfg c) (create_events cfg c ++ loop_events c es) (loops p c) →
  ∃ es1 p1, main_trace cfg p es1 p1 ∧ main_at p1 = Stopping (StopLoop c :: todo) true
    ∧ once (loops p1 c) = true ∧ stopped (loops p1 c) = true ∧ panicked (loops p1 c) = false
    ∧ gs (loops p1 c) = gs (loops p c) ∧ peers p1 = peers p ∧ srv p1 = srv p.
Proof.
  intros Ht Hm Hpn Hl. pose proof (mi_progress _ _ _ (process_inv _ _ _ Ht ltac:(by rewrite Hm))) as Hp.
  unfold progress in Hp. rewrite Hm in Hp. destruct Hp as [_ Hcall]. pose proof (li_once _ _ _ Hl) as Hoc. destruct called.
  - exists [], p. destruct (Hcall eq_refl) as [(c' & todo' & [= <- <-] & Hin)|(? & ? & _)]; [|done].
    assert (once (loops p c) = true) as Ho by (apply (li_called _ _ _ Hl); set_solver).
    split_and!; try done; [constructor|congruence].
  - destruct (close_stop (loops p c)) as [l|] eqn:Ecl; [|by destruct (inv_stop_ok _ _ _ Hl)].
    eexists [_], _. split; [econstructor; [by eapply main_stop, step_stop|constructor]|].
    split; [done|]. rewrite loops_set, decide_True by done. unfold close_stop in Ecl.
    repeat case_match; simplify_eq; split_and!; try done; congruence.
Qed.

(** And it can return. *)
Lemma stop_completes cfg es c todo called p :
  intervals_ok cfg = true → main_trace cfg (boot cfg) es p → main_at p = Stopping (StopLoop c :: todo) called →
  ∃ es' p', main_trace cfg p es' p' ∧ main_at p' = Stopping todo false ∧ peers p' = peers p ∧ srv p' = srv p.
Proof.
  intros Hok Ht Hm. pose proof (process_inv _ _ _ Ht ltac:(by rewrite Hm)) as Hi.
  pose proof (mi_progress _ _ _ Hi) as Hp. unfold progress in Hp. rewrite Hm in Hp. destruct Hp as [E _].
  assert (c ∈ started cfg) as Hc by (apply elem_of_stops; rewrite E; set_solver).
  pose proof (intervals_sound _ _ Hok Hc) as Hsnd.
  assert (created cfg p c) as Hcr by (split; [done|by rewrite Hm]).
  pose proof (mi_created _ _ _ Hi c Hcr) as Htr. pose proof (trace_inv _ _ _ _ Htr) as Hl.
  pose proof (mi_fine _ _ _ Hi c) as Hpn.
  destruct (stop_enters _ _ _ _ _ _ Ht Hm Hpn Hl) as (es1 & p1 & H1 & Hm1 & Ho & Hst & Hpn1 & Hg & Hpe & Hsv).
  destruct (stopping_drains (component_loop cfg c) (loops p1 c)) as (es2 & l2 & H2 & Hgone & Hown & Ho2 & Hp2); try done.
  { rewrite Hg. apply Forall_lookup. intros i [k ph] Hgi. by eapply in_routines. }
  destruct (lift_loop cfg p1 c es2 l2) as (es3 & p2 & H3 & Hm2 & Hl2 & Hpe2 & Hsv2); [done|done|unfold alive; by rewrite Hm1|].
  eexists (es1 ++ es3 ++ [EDone (StopLoop c)]), _. split.
  - apply mtrace_app. exists p1. split; [done|]. apply mtrace_app. exists p2. split; [done|].
    econstructor; [|constructor]. eapply main_stopped; [by rewrite Hm2|]. rewrite Hl2. apply step_returned; [done|congruence|done].
  - split_and!; [done|simpl; congruence..].
Qed.

(** The server can be closed. *)
Lemma close_completes cfg es todo called p :
  main_trace cfg (boot cfg) es p → main_at p = Stopping (CloseServer :: todo) called →
  ∃ es' p', main_trace cfg p es' p' ∧ main_at p' = Stopping todo false ∧ peers p' = peers p.
Proof.
  intros Ht Hm. pose proof (mi_progress _ _ _ (process_inv _ _ _ Ht ltac:(by rewrite Hm))) as Hp.
  unfold progress in Hp. rewrite Hm in Hp. destruct Hp as [_ Hcall].
  assert (∃ es1 p1, main_trace cfg p es1 p1 ∧ main_at p1 = Stopping (CloseServer :: todo) true ∧ closed (srv p1) = true
    ∧ peers p1 = peers p) as (es1 & p1 & H1 & Hm1 & Hc1 & Hpe).
  { destruct called.
    - exists [], p. destruct (Hcall eq_refl) as [(? & ? & ? & _)|(? & _ & ?)]; [done|]. by split; [constructor|].
    - eexists [_], _. split; [econstructor; [by apply main_close_server|constructor]|]. split; [done|].
      simpl. unfold Close. by destruct (closed (srv p)) eqn:?. }
  destruct (server_drain _ Hc1) as (s & Hr & Hret).
  destruct (lift_server cfg p1 s Hr) as (es2 & p2 & H2 & Hm2 & Hs2 & Hpe2); [unfold serving; by rewrite Hm1|done|].
  eexists (es1 ++ es2 ++ [EDone CloseServer]), _. split.
  - apply mtrace_app. exists p1. split; [done|]. apply mtrace_app. exists p2. split; [done|].
    econstructor; [|constructor]. eapply main_closed; [by rewrite Hm2|by rewrite Hs2].
  - split; [done|]. simpl. congruence.
Qed.

(** So every action can be completed. *)
Lemma action_completes cfg es a todo called p :
  intervals_ok cfg = true → main_trace cfg (boot cfg) es p → main_at p = Stopping (a :: todo) called →
  ∃ es' p', main_trace cfg p es' p' ∧ main_at p' = Stopping todo false.
Proof.
  intros Hok Ht Hm. destruct a as [c| |].
  - destruct (stop_completes _ _ _ _ _ _ Hok Ht Hm) as (es' & p' & ? & ? & _). eauto.
  - pose proof (mi_progress _ _ _ (process_inv _ _ _ Ht ltac:(by rewrite Hm))) as Hp. unfold progress in Hp. rewrite Hm in Hp.
    destruct called; [by destruct (proj2 Hp eq_refl) as [(? & ? & ? & _)|(? & ? & _)]|].
    eexists [_], _. split; [econstructor; [by apply main_close_peer|constructor]|done].
  - destruct (close_completes _ _ _ _ _ Ht Hm) as (es' & p' & ? & ? & _). eauto.
Qed.

Lemma shutdown_completes cfg es todo called p :
  intervals_ok cfg = true → main_trace cfg (boot cfg) es p → main_at p = Stopping todo called →
  ∃ es' p', main_trace cfg p es' p' ∧ main_at p' = Stopping [] false.
Proof.
  intros Hok. revert es called p. induction todo as [|a todo IH]; intros es called p Ht Hm.
  - pose proof (mi_progress _ _ _ (process_inv _ _ _ Ht ltac:(by rewrite Hm))) as Hp. unfold progress in Hp. rewrite Hm in Hp.
    destruct Hp as [_ Hc]. destruct called; [by destruct (Hc eq_refl) as [(? & ? & ? & _)|(? & ? & _)]|].
    exists [], p. by split; [constructor|].
  - destruct (action_completes _ _ _ _ _ _ Hok Ht Hm) as (es1 & p1 & H1 & Hm1).
    destruct (IH (es ++ es1) false p1) as (es2 & p2 & H2 & Hm2); [apply mtrace_app; by exists p|done|].
    exists (es1 ++ es2), p2. split; [apply mtrace_app; by exists p1|done].
Qed.

(** With positive intervals only a round of anti-entropy panics. *)
Lemma no_panic cfg p es p' c i :
  main_inv cfg [] p → intervals_ok cfg = true → main_trace cfg p es p' → ELoop c (Panicked i) ∈ es → c = CAntiEntropy.
Proof.
  intros Hi Hok Ht (es1 & es2 & ->)%list_elem_of_split. apply mtrace_app in Ht as (p1 & H1 & H2).
  inversion H2 as [|? ? p2 ? ? Hs _]; subst.
  pose proof (main_trace_inv _ _ _ _ _ Hi H1 (dead_stuck _ _ _ _ Hs)) as Hi1.
  inversion Hs as [| | |? ? ? ? _ Ha| ? ? ? l Ha Hl| | | | | | | | | | |]; subst; [done|].
  inversion Hl as [| |? ? k g Hp Hg Hr Hd| |? ? k g Hp Hg Hr Hb| | | | |]; subst.
  - destruct (decide (created cfg p1 c)) as [[Hc _]|Hc].
    + pose proof (proj1 (Forall_lookup _ _) (intervals_sound _ _ Hok Hc) _ _ Hr). simpl in *. congruence.
    + destruct (mi_absent _ _ _ Hi1 c Hc) as [E _]. by rewrite E, lookup_nil in Hg.
  - destruct c; try done; repeat (destruct k as [|k]; simplify_eq/=).
Qed.

(** After the signal [main] is shutting down, unless something panicked. *)
Lemma signalled cfg p es p' :
  main_trace cfg p es p' → (∃ todo called, main_at p = Stopping todo called) ∨ main_at p = Dead ∨ ESignal ∈ es →
  (∃ todo called, main_at p' = Stopping todo called) ∨ main_at p' = Dead.
Proof.
  induction 1 as [p|p1 e p2 es p3 Hs _ IH]; intros Hp; [destruct Hp as [?|[?|?%elem_of_nil]]; [by left|by right|done]|].
  apply IH. assert (main_at p1 ≠ Dead) as Hd by (by eapply dead_stuck).
  destruct Hs; simpl in *; auto; try (left; by eauto);
    destruct Hp as [(? & ? & ?)|[?|[?|?]%elem_of_cons]]; try congruence; eauto.
Qed.

(** The last thing [main] does is to wait for the server. *)
Lemma finished_closed cfg es p :
  main_trace cfg (boot cfg) es p → main_at p = Stopping [] false → Close_returns (srv p).
Proof.
  intros Ht Hm. destruct es as [|e es _] using rev_ind; [by inversion Ht; subst|].
  apply mtrace_app in Ht as (p1 & H1 & H2). inversion H2 as [|? ? p2 ? ? Hs H3]; subst. inversion H3; subst.
  pose proof (mi_progress _ _ _ (process_inv _ _ _ H1 (dead_stuck _ _ _ _ Hs))) as Hp. unfold progress in Hp.
  assert (∀ acts a, shutdown cfg = acts ++ [a] → a = CloseServer) as Hlast.
  { intros acts a. unfold shutdown. rewrite app_assoc. by intros [_ [= ->]]%app_inj_tail. }
  destruct Hs as [p c todo Hm1|p Hm1|p todo Hm1|p c e l Ha He Hl|p c i l Ha Hl|p s Ha Hc Hs Hb|p s Ha Hs Hc|p c Ha Hg|p c Ha Hg|p Hm1|p Hm1 Hr|p c todo l Hm1 Hl|p c todo l Hm1 Hl|p todo Hm1|p todo Hm1|p todo Hm1 Hr];
    simpl in Hm; simplify_eq; try (unfold alive, serving in *; by rewrite Hm in Ha); try done.
  - exfalso. match goal with H : shutdown cfg = [] |- _ => unfold shutdown in H; by destruct (_ <$> _), (clustered cfg) end.
  - rewrite Hm1 in Hp. destruct Hp as [E%Hlast _]. done.
  - rewrite Hm1 in Hp. destruct Hp as [E%Hlast _]. done.
Qed.

(** ** Property *)

(** C36: the life of the process.  In every interleaving of [main], the background
    loops, the replica calls, the server and the signal:
    (1) while [main] waits for the signal every started component has its
        goroutines, and none on a ticker has returned (the gossiper's reader may
        have, after a failed read);
    (2) if the rebuild and hint-replay intervals of a cluster node are positive, no
        background goroutine panics, but for one in a round of anti-entropy, and once
        the signal has arrived [main] can always finish, unless a panic (there, or in
        a request) has ended the process;
    (3) right after the pool of replica connections is closed the connections open
        are those of calls in flight, and from then on no goroutine of a background
        component does anything (requests may still use the pool, and leave
        connections in it, see [requests_outlive_pool]);
    (4) when [main] has finished it has done every action of the shutdown once, in
        order, every goroutine of the background components has returned, and the
        server has drained: no connection is served, and no client socket is open
        but for one [Accept] may have returned too late. *)
Theorem shutdown_orderly cfg es p :
  main_trace cfg (boot cfg) es p →
  (main_at p = Running → ∀ c, c ∈ started cfg →
     (gs (loops p c)).*1 = seq 0 (length (routines (component_loop cfg c)))
     ∧ ∀ k d body ph, (k, ph) ∈ gs (loops p c) → routines (component_loop cfg c) !! k = Some (Ticks d body) → ph ≠ Gone)
  ∧ (intervals_ok cfg = true →
       (∀ c i, ELoop c (Panicked i) ∈ es → c = CAntiEntropy)
       ∧ (ESignal ∈ es → main_at p ≠ Dead → ∃ es' p', main_trace cfg p es' p' ∧ main_at p' = Stopping [] false))
  ∧ (∀ es1 es2, es = es1 ++ EDone ClosePeer :: es2 →
       (es2 = [] → opened (peers p) = busy (peers p))
       ∧ ∀ c e, loop_acts e → ELoop c e ∉ es2)
  ∧ (main_at p = Stopping [] false →
       actions es = shutdown cfg ∧ (∀ c, exited p c)
       ∧ Close_returns (srv p) ∧ liveConns (srv p) = 0%Z ∧ ∀ c, c ∈ sockets (srv p) → loop (srv p) = Accepted c).
Proof.
  intros Ht. split_and!.
  - intros Hm c Hc. pose proof (process_inv _ _ _ Ht ltac:(by rewrite Hm)) as Hi.
    assert (created cfg p c) as Hcr by (split; [done|by rewrite Hm]).
    pose proof (mi_created _ _ _ Hi c Hcr) as Htr. pose proof (trace_inv _ _ _ _ Htr) as Hl.
    pose proof (mi_progress _ _ _ Hi) as Hp. unfold progress in Hp. rewrite Hm in Hp. destruct Hp as (_ & _ & Hst). split.
    + apply trace_app in Htr as (l & H1 & H2). rewrite (trace_same _ _ _ _ H2), (trace_numbers _ _ _ _ H1) by (by eapply no_restart).
      unfold create_events. simpl.
      destruct (by_constructor (component_loop cfg c)); simpl; rewrite ?app_nil_r; [apply launch_numbers|done].
    + intros k d body ph (i & Hg)%list_elem_of_lookup Hr. eapply (li_running _ _ _ Hl); [|done..].
      apply not_true_iff_false. rewrite (li_called _ _ _ Hl), elem_of_app. intros [?|?]; [by eapply create_events_no_stop|by eapply Hst].
  - intros Hok. split; [intros c i; by eapply no_panic; [apply boot_inv|..]|]. intros Hin Hd.
    destruct (signalled _ _ _ _ Ht) as [(todo & called & Hm)|Hm]; [by auto| |done].
    by eapply shutdown_completes.
  - intros es1 es2 ->. apply mtrace_app in Ht as (p1 & H1 & H2). inversion H2 as [|? ? p2 ? ? Hs H3]; subst.
    assert (main_at p2 ≠ Dead ∧ ∀ todo, main_at p2 ≠ Starting todo) as [Hd Hns] by (by inversion Hs).
    assert (main_trace cfg (boot cfg) (es1 ++ [EDone ClosePeer]) p2) as Ht2.
    { apply mtrace_app. exists p1. split; [done|]. econstructor; [exact Hs|constructor]. }
    split.
    + intros ->. inversion H3; subst. inversion Hs; subst. simpl.
      pose proof (pool_reachable_inv _ (run_pool _ _ _ _ H1)) as Hpi. apply set_eq. intros x.
      rewrite elem_of_filter, (pi_open _ Hpi). pose proof (pi_excl _ Hpi x). tauto.
    + intros c e He. eapply exited_silent; [exact H3|done| |done]. eapply stopped_exited; [exact Ht2|done|].
      destruct (decide (c ∈ started cfg)) as [Hc|]; [left|by right].
      pose proof (mi_progress _ _ _ (process_inv _ _ _ Ht2 Hd)) as Hp. unfold progress in Hp.
      inversion Hs as [| | | | | | | | | | | | |? todo Hm| |]; subst. simpl in Hp. destruct Hp as [E _].
      eapply stops_before_close; [exact E| |done]. rewrite actions_snoc. set_solver.
  - intros Hm. pose proof (process_inv _ _ _ Ht ltac:(by rewrite Hm)) as Hi. pose proof (mi_progress _ _ _ Hi) as Hp.
    unfold progress in Hp. rewrite Hm, app_nil_r in Hp. destruct Hp as [E _].
    assert (Close_returns (srv p)) as Hr by (by eapply finished_closed).
    pose proof (server_returned _ (server_reachable_inv _ _ (run_server _ _ _ _ Ht)) Hr) as [Hv Hk].
    split_and!; [done| |done..].
    intros c. eapply stopped_exited; [exact Ht|by rewrite Hm|]. rewrite <-E.
    destruct (decide (c ∈ started cfg)); [left; by apply elem_of_stops|by right].
Qed.

(** ** Witnesses *)

(** A cluster node with the default intervals starts its four loops, accepts a
    connection, and is told to stop.  It stops the loops and closes the pool; a
    request of the open connection then calls a replica and parks its connection
    in the closed pool; the server is closed and [main] returns. *)
Definition sample_config (cfg : Config) : Prop :=
  started cfg = [CJanitor; CGossiper; CRouter; CReplayer] ∧ clustered cfg = true ∧ cfg_MaxConns cfg = 0%Z
  ∧ shutdown cfg = [StopLoop CJanitor; StopLoop CGossiper; StopLoop CRouter; StopLoop CReplayer; ClosePeer; CloseServer]
  ∧ intervals_ok cfg = true.

Ltac next_event tac := eapply mtrace_cons; [tac; fail|cbn].
Tactic Notation "server_turn" uconstr(step) :=
  next_event ltac:(eapply main_server; [exact I|cbn; apply step; reflexivity|left; reflexivity]).

Definition sample_boot : list event :=
  (ECreated <$> [CJanitor; CGossiper; CRouter; CReplayer]) ++ [EListening; EServer; EServer; EServer; EServer; ESignal].

Lemma sample_signal cfg :
  sample_config cfg →
  ∃ p, main_trace cfg (boot cfg) sample_boot p ∧ main_at p = Stopping (shutdown cfg) false
    ∧ peers p = mkPState NewPeer ∅ ∅ ∧ goroutines (srv p) !! 0 = Some Serving.
Proof.
  intros (Hs & _ & Hmax & _). unfold boot. rewrite Hs, Hmax. eexists. split.
  - unfold sample_boot. cbn.
    do 4 next_event ltac:(eapply main_create; reflexivity).
    next_event ltac:(eapply main_listen; reflexivity).
    server_turn step_acquire.
    next_event ltac:(eapply main_server; [exact I|cbn; apply (step_accept _ 0); [reflexivity..|set_solver]|left; reflexivity]).
    server_turn step_spawn. server_turn (step_track _ 0).
    eapply mtrace_cons; [eapply main_signal; reflexivity|]. apply mtrace_nil.
  - split_and!; reflexivity.
Qed.

Lemma stops_complete cfg es cs todo p :
  intervals_ok cfg = true → main_trace cfg (boot cfg) es p → main_at p = Stopping ((StopLoop <$> cs) ++ todo) false →
  ∃ es' p', main_trace cfg (boot cfg) (es ++ es') p' ∧ main_at p' = Stopping todo false ∧ peers p' = peers p ∧ srv p' = srv p.
Proof.
  intros Hok. revert es p. induction cs as [|c cs IH]; intros es p Ht Hm.
  - exists [], p. by rewrite app_nil_r.
  - destruct (stop_completes _ _ _ _ _ _ Hok Ht Hm) as (es1 & p1 & H1 & Hm1 & Hpe & Hsv).
    destruct (IH (es ++ es1) p1) as (es2 & p2 & H2 & Hm2 & Hpe2 & Hsv2); [apply mtrace_app; by exists p|done|].
    exists (es1 ++ es2), p2. rewrite app_assoc. split_and!; [done|done|congruence..].
Qed.

(** A call that dials [n] and puts its connection back. *)
Definition calling : pstate := mkPState NewPeer {[(str "n", 0)]} {[(str "n", 0)]}.
Definition parked : pstate := mkPState (mkPeer {[str "n" := [(str "n", 0)]]}) ∅ {[(str "n", 0)]}.

Lemma pool_call : pool_step (close_pool (mkPState NewPeer ∅ ∅)) calling ∧ pool_step calling parked.
Proof.
  split.
  - replace calling with (let s := close_pool (mkPState NewPeer ∅ ∅) in
      mkPState (pool s) ({[(str "n", 0)]} ∪ busy s) ({[(str "n", 0)]} ∪ opened s)) by (vm_compute; reflexivity).
    apply (pool_dial _ (str "n", 0)). set_solver.
  - replace parked with (mkPState (pool parked) (busy calling ∖ {[(str "n", 0)]}) (opened calling)) by (vm_compute; reflexivity).
    apply (pool_put calling (str "n", 0) (pool parked) true); [set_solver|vm_compute; reflexivity].
Qed.

Lemma busy_calling : busy calling ≠ ∅.
Proof. simpl. set_solver. Qed.

Lemma sample_trace cfg :
  sample_config cfg →
  ∃ es1 es2 p, main_trace cfg (boot cfg) ((sample_boot ++ es1) ++ EDone ClosePeer :: ERequest 0 :: es2) p
    ∧ main_at p = Stopping [] false ∧ busy (peers p) = ∅ ∧ opened (peers p) = {[(str "n", 0)]}.
Proof.
  intros Hcfg. pose proof Hcfg as (Hs & Hc & _ & Hsh & Hok). destruct (sample_signal _ Hcfg) as (p0 & H0 & Hm0 & Hpe0 & Hg0).
  destruct (stops_complete cfg sample_boot [CJanitor; CGossiper; CRouter; CReplayer] [ClosePeer; CloseServer] p0)
    as (es1 & p1 & H1 & Hm1 & Hpe1 & Hsv1); [done|done|by rewrite Hm0, Hsh|].
  assert (∃ p2, main_trace cfg p1 [EDone ClosePeer; ERequest 0; EPool; EPool] p2 ∧ main_at p2 = Stopping [CloseServer] false
    ∧ busy (peers p2) = ∅ ∧ opened (peers p2) = {[(str "n", 0)]}) as (p2 & H2 & Hm2 & Hb & Ho).
  { eexists. split.
    - eapply mtrace_cons; [by eapply main_close_peer|]. rewrite Hpe1, Hpe0, Hsv1.
      eapply mtrace_cons; [by apply main_request|].
      eapply mtrace_cons; [apply (main_pool _ _ calling); [exact I|done|exact (proj1 pool_call)|exact busy_calling]|].
      eapply mtrace_cons; [apply (main_pool _ _ parked); [exact I|done|exact (proj2 pool_call)|exact (not_eq_sym busy_calling)]|].
      apply mtrace_nil.
    - done. }
  assert (main_trace cfg (boot cfg) ((sample_boot ++ es1) ++ [EDone ClosePeer; ERequest 0; EPool; EPool]) p2) as Ht2
    by (apply mtrace_app; by exists p1).
  destruct (close_completes _ _ _ _ _ Ht2 Hm2) as (es3 & p3 & H3 & Hm3 & Hpe3).
  exists es1, ([EPool; EPool] ++ es3), p3. split_and!; [|done|congruence..].
  change (EDone ClosePeer :: ERequest 0 :: [EPool; EPool] ++ es3) with ([EDone ClosePeer; ERequest 0; EPool; EPool] ++ es3).
  rewrite app_assoc. apply mtrace_app. by exists p2.
Qed.

Definition cfg_cluster : Config :=
  match parseFlags [str "-addr"; str "10.0.0.1:7001"; str "-gossip-addr"; str "10.0.0.1:7002"] (λ _, None) with
  | Ok c => c | Err _ | Panic => config_of ∅ 0
  end.

Lemma cluster_config : sample_config cfg_cluster.
Proof. unfold sample_config. split_and!; vm_compute; reflexivity. Qed.

Lemma shutdown_orderly_witness :
  ∃ es p, main_trace cfg_cluster (boot cfg_cluster) es p
    ∧ actions es = shutdown cfg_cluster ∧ (∀ c, exited p c) ∧ Close_returns (srv p) ∧ ESignal ∈ es
    ∧ (∀ c i, ELoop c (Panicked i) ∈ es → c = CAntiEntropy).
Proof.
  pose proof cluster_config as Hs. destruct (sample_trace _ Hs) as (es1 & es2 & p & Ht & Hm & _).
  destruct Hs as (_ & _ & _ & _ & Hok). eexists _, p. split; [exact Ht|].
  destruct (shutdown_orderly cfg_cluster _ p Ht) as (_ & H2 & _ & H4).
  destruct (H4 Hm) as (A & B & C & _). destruct (H2 Hok) as [D _]. split_and!; [exact A|exact B|exact C| |exact D].
  apply elem_of_app. left. apply elem_of_app. left. unfold sample_boot. cbn. repeat (first [left|right]).
Defined.

(** The pool is closed while the server still serves: a request coordinated after
    it parks its connection in the closed pool, where nobody closes it before
    [main] returns. *)
Lemma requests_outlive_pool :
  ∃ es1 es2 p, main_trace cfg_cluster (boot cfg_cluster) (es1 ++ EDone ClosePeer :: es2) p ∧ ERequest 0 ∈ es2
    ∧ main_at p = Stopping [] false ∧ busy (peers p) = ∅ ∧ opened (peers p) ≠ ∅.
Proof.
  destruct (sample_trace _ cluster_config) as (es1 & es2 & p & Ht & Hm & Hb & Ho).
  eexists _, _, p. split_and!; [exact Ht|left|done|done|]. rewrite Ho. set_solver.
Qed.

(** A zero rebuild interval is accepted, and the process dies of it. *)
Lemma zero_interval_kills cfg p i :
  alive p → cfg_RebuildInterval cfg = 0%Z → gs (loops p CRouter) !! i = Some (0, Launched) → panicked (loops p CRouter) = false →
  ∃ p', main_step cfg p (ELoop CRouter (Panicked i)) p' ∧ main_at p' = Dead.
Proof.
  intros Ha Hz Hg Hp. eexists (set_loop p CRouter _ Dead). split; [|reflexivity]. eapply main_panic; [done|].
  eapply step_panic; [done|done|reflexivity|]. simpl. by rewrite Hz.
Qed.
