(* ===== verification/Node.v ===== *)
(** * Putting a node together (cmd/kyria/main.go, NewCoordinator, NewHandler)

    [assemble] follows [main] from the resolved configuration to the handler and the
    server: the telemetry and what is registered with it, the roster with this node
    in it, the gossiper, the router, the coordinator.  [udp] is the address the
    gossip socket was bound to; the gauges sample running state and are given. *)

From S2P Require Import Prelude Telemetry Binenc Resp Vclock Version Sketch Policy MapStore ShardedStore StoreSpec.
From S2P Require Import Membership Gossip Ring Router Sha256 Merkle Replica AntiEntropy TombstoneGC Handoff Coordinator Handler.
From S2P Require Import Server Peer Config Main.

(** ** Definitions *)

Definition ClientCommands : list bytes := [get_verb; set_verb; del_verb].
Definition ReplicationEvents : list bytes := [evHintsParked; evReadRepairs; evTombstonesReaped; evAdmissionRejects].

(** The store, the peer and the hints the source passes along are the components of
    [cstate], which every call of the coordinator takes. *)
Definition NewCoordinator (self : bytes) (router : Router) (n r w : Z) : Coordinator :=
  mkCoordinator self router n r w.
Definition NewHandler (members : option Members) (router : option Router) (coordinator : option Coordinator)
    (telemetry : option Telemetry) : Handler :=
  mkHandler members router coordinator telemetry.

Record gaugeFns : Type := mkGaugeFns {
  store_keys : Z → Z;
  hints_pending : Z → Z;
  conns_live : Z → Z;
  conns_max : Z → Z
}.

(** Every node must build its trees over the same number of leaves. *)
Definition antiEntropyLeaves : Z := 1024.

(** [n_pool], [n_hints], [n_antientropy] and [n_grace] are what the coordinator, the
    hint replayer, anti-entropy and the tombstone collector are built over. *)
Record node : Type := mkNodeParts {
  n_gossiper : option Gossiper;
  n_pool : option Peer;
  n_hints : option hintStore;
  n_antientropy : option AntiEntropy;
  n_grace : option Z;
  n_handler : Handler;
  n_server : Server
}.

Definition assemble (sort : list point → list point) (ord : roster_order) (udp : bytes) (now : Z) (g : gaugeFns)
    (cfg : Config) : node :=
  let tel := Some (Telemetry.New now ClientCommands) in
  let tel := RegisterGauge tel (str "store_keys") (store_keys g) in
  let tel := RegisterEvents tel ReplicationEvents in
  let '(members, gossiper, router, peer, hints, coordinator, antiEntropy, tombstoneGC, tel) :=
    if clustered cfg then
      let self := mkNode (cfg_Addr cfg) udp Alive 1 in
      let members := NewMembers self now in
      let gossiper := NewGossiper members (gossiperOptions cfg) in
      let router := NewRouter sort ord members (cfg_Replicas cfg) (cfg_RebuildInterval cfg) in
      let peer := NewPeer in
      let hints := NewHintStore in
      let tel := RegisterGauge tel (str "hints_pending") (hints_pending g) in
      let coordinator := NewCoordinator (ID self) router (cfg_ReplicationFactor cfg) (cfg_ReadQuorum cfg)
                           (cfg_WriteQuorum cfg) in
      let antiEntropy :=
        if (0 <? cfg_AntiEntropyInterval cfg)%Z then Some (mkAntiEntropy (ID self) antiEntropyLeaves) else None in
      let tombstoneGC := if (0 <? cfg_TombstoneGCInterval cfg)%Z then Some (cfg_TombstoneGrace cfg) else None in
      (Some members, Some gossiper, Some router, Some peer, Some hints, Some coordinator, antiEntropy, tombstoneGC, tel)
    else (None, None, None, None, None, None, None, None, tel) in
  let tel := RegisterGauge tel (str "conns_live") (conns_live g) in
  let tel := RegisterGauge tel (str "conns_max") (conns_max g) in
  mkNodeParts gossiper peer hints antiEntropy tombstoneGC (NewHandler members router coordinator tel)
    (NewServer (cfg_MaxConns cfg)).

(** How [main] begins: it exits with a status, panics while it builds the store, or
    serves. *)
Inductive startup : Type :=
| Exits (status : Z)
| Panics
| Runs (st : ShardedStore evictionPolicy) (n : node).

(** [main] up to [srv.Serve].  [bind_udp] is [net.ListenPacket] with the address it
    got, [bind_tcp] whether [srv.Listen] succeeds. *)
Definition main (hash : bytes → N) (seed : nat → bytes → N) (sort : list point → list point) (ord : roster_order)
    (now : Z) (g : gaugeFns) (bind_udp : bytes → option bytes) (bind_tcp : bytes → bool)
    (args : list bytes) (env : bytes → option bytes) : startup :=
  match parseFlags args env with
  | Err _ => Exits 1
  | Panic => Panics
  | Ok cfg =>
      match newStore hash seed cfg with
      | Ok st =>
          match (if clustered cfg then bind_udp (cfg_GossipAddr cfg) else Some []) with
          | None => Exits 1
          | Some udp => if bind_tcp (cfg_Addr cfg) then Runs st (assemble sort ord udp now g cfg) else Exits 1
          end
      | _ => Panics
      end
  end.

(** ** Lemmas *)

(** A node alone in its roster. *)
Lemma lone_alive_ids ord s now : lawful_roster ord → alive_ids ord (NewMembers s now) = [ID s].
Proof.
  intros Hord. pose proof (NewMembers_wf s now) as Hm. apply Permutation_singleton_r, NoDup_Permutation.
  - by apply NoDup_alive_ids.
  - apply NoDup_singleton.
  - intros x. rewrite elem_of_alive_ids, list_elem_of_singleton by done. simpl. split.
    + intros (e & [<- <-]%lookup_singleton_Some & _). done.
    + intros ->. eexists. split; [by apply lookup_singleton_eq|done].
Qed.

(** It has every key to itself, provided the ring has points at all. *)
Lemma lone_preference sort ord s now replicas ivl key :
  sorts sort → lawful_roster ord →
  let r := NewRouter sort ord (NewMembers s now) replicas ivl in
  ring_sorted (ring r) ∧ preference (ring r) key = if (0 <? replicas)%Z then [ID s] else [].
Proof.
  intros Hs Hord r. assert (ring r = build sort replicas [ID s]) as E.
  { unfold r, NewRouter. rewrite rebuild_ring. simpl. by rewrite lone_alive_ids. }
  rewrite E. split; [by apply build_sorted|].
  assert (∀ x, x ∈ preference (build sort replicas [ID s]) key ↔ x = ID s ∧ (0 < replicas)%Z) as Hin.
  { intros x. rewrite elem_of_preference, (build_points sort replicas [ID s] Hs). unfold all_points, vpoints. simpl.
    rewrite app_nil_r, list_elem_of_fmap. split.
    - intros (p & -> & (i & -> & Hi%elem_of_seq)%list_elem_of_fmap). simpl. split; [done|lia].
    - intros [-> Hr]. eexists. split; [|apply list_elem_of_fmap; exists 0%nat; split; [reflexivity|]]; [done|].
      apply elem_of_seq. lia. }
  destruct (Z.ltb_spec 0 replicas) as [Hr|Hr].
  - apply Permutation_singleton_r, NoDup_Permutation; [apply NoDup_preference|apply NoDup_singleton|].
    intros x. rewrite Hin, list_elem_of_singleton. naive_solver.
  - apply elem_of_nil_inv. intros x [_ ?]%Hin. lia.
Qed.

Lemma lone_router sort ord s now replicas ivl key n :
  sorts sort → lawful_roster ord → (0 < replicas)%Z → (1 <= n)%Z →
  let r := NewRouter sort ord (NewMembers s now) replicas ivl in
  IsLocal r key = true ∧ Owners r key n = [ID s].
Proof.
  intros Hs Hord Hr Hn r. destruct (lone_preference sort ord s now replicas ivl key Hs Hord) as [Hsort Hp].
  fold r in Hsort, Hp. rewrite (proj2 (Z.ltb_lt _ _) Hr) in Hp. split.
  - unfold IsLocal, Owner. rewrite Get_preference, Hp by done. simpl. by apply bool_decide_eq_true_2.
  - unfold Owners. rewrite GetN_preference, Hp by done. destruct (Z.to_nat n) eqn:E; [lia|]. simpl. by rewrite take_nil.
Qed.

(** ** Property *)

(** C39: the node built from a configuration start-up accepts, with -max-entries at
    most 2^44 and -shards at most 2^45 (beyond which the allocations panic,
    [shards_unchecked]). Its store is empty and well formed, with the configured
    shards, cap and limits, and evicts exactly when a policy is configured. Without
    a gossip address it has no roster, router or coordinator, so every command is
    served locally. With one it knows itself under its client address, coordinates
    with quorums that a replica set of N can reach, and, if -replicas is positive,
    takes every key for its own until it hears of others (with -replicas 0 it owns
    none, [no_virtual_nodes]); its anti-entropy, when on, names itself the same and
    builds its trees over the 1024 leaves all nodes use, and it collects tombstones
    only past a positive grace. The server admits as many connections as configured.
    Start-up reaches this node whenever both sockets can be bound. *)
Theorem configured_node args env c hash seed sort ord udp now g :
  parseFlags args env = Ok c →
  (cfg_MaxEntries c <= 2 ^ 44)%Z → (cfg_Shards c <= 2 ^ 45)%Z → sorts sort → lawful_roster ord →
  let n := assemble sort ord udp now g c in
  (∃ s, newStore hash seed c = Ok s
    ∧ length (shards s) = Z.to_nat (Z.max 1 (cfg_Shards c))
    ∧ swf s ∧ represents s ∅
    ∧ slimits s = (limit (cfg_MaxKeySize c) DefaultMaxKeySize, limit (cfg_MaxValueSize c) DefaultMaxValueSize)
    ∧ Forall (λ m, maxEntries m = limit (cfg_MaxEntries c) 0) (shards s)
    ∧ (sevicts s ↔ cfg_Eviction c ≠ str "none")
    ∧ (sevicts s → Forall (λ m, (0 < maxEntries m)%Z) (shards s))
    ∧ ∀ bind_udp bind_tcp, (clustered c = true → bind_udp (cfg_GossipAddr c) = Some udp) → bind_tcp (cfg_Addr c) = true →
        main hash seed sort ord now g bind_udp bind_tcp args env = Runs s n)
  ∧ (cfg_GossipAddr c = [] →
       h_members (n_handler n) = None ∧ h_router (n_handler n) = None ∧ h_coordinator (n_handler n) = None
       ∧ n_gossiper n = None ∧ n_hints n = None ∧ n_antientropy n = None ∧ n_grace n = None)
  ∧ (cfg_GossipAddr c ≠ [] → ∃ m gs r co,
       h_members (n_handler n) = Some m ∧ n_gossiper n = Some gs ∧ Gossip.members gs = m
       ∧ h_router (n_handler n) = Some r ∧ h_coordinator (n_handler n) = Some co
       ∧ members_wf m ∧ self m = cfg_Addr c ∧ c_self co = cfg_Addr c ∧ c_router co = r
       ∧ (1 <= c_r co <= c_n co)%Z ∧ (1 <= c_w co <= c_n co)%Z
       ∧ n_hints n = Some NewHintStore
       ∧ (∀ ae, n_antientropy n = Some ae → a_self ae = cfg_Addr c ∧ a_leaves ae = 1024%Z)
       ∧ (∀ grace, n_grace n = Some grace → (0 < grace)%Z)
       ∧ ((0 < cfg_Replicas c)%Z → ∀ key, IsLocal r key = true ∧ Owners r key (c_n co) = [cfg_Addr c]))
  ∧ sem (n_server n) = (if (0 <? cfg_MaxConns c)%Z then Some (Z.to_nat (cfg_MaxConns c)) else None)
  ∧ ∃ tel, h_telemetry (n_handler n) = Some tel
      ∧ names tel = [str "GET"; str "SET"; str "DEL"]
      ∧ g_name <$> gauges tel = [str "store_keys"] ++ (if clustered c then [str "hints_pending"] else [])
                                ++ [str "conns_live"; str "conns_max"].
Proof.
  intros Hp Hc Hsh Hsort Hord n. pose proof (parseFlags_valid _ _ _ Hp) as Hv.
  split.
  { destruct (configured_store args env c hash seed Hp Hc Hsh) as (s & Es & H1 & H2 & H3 & H4 & H5 & H6 & H7).
    exists s. split_and!; try done. intros bu bt Hu Ht. unfold main. rewrite Hp, Es, Ht.
    unfold n, assemble. destruct (clustered c); [by rewrite Hu|done]. }
  unfold n, assemble. split_and!.
  - intros E. assert (clustered c = false) as -> by (unfold clustered; by rewrite E). done.
  - intros E. assert (clustered c = true) as -> by (unfold clustered; by rewrite bool_decide_eq_false_2).
    do 4 eexists. split_and!; try reflexivity; try apply NewMembers_wf; try apply (vc_read _ Hv); try apply (vc_write _ Hv).
    + by apply configured_gossiper.
    + simpl. intros ae. destruct (0 <? cfg_AntiEntropyInterval c)%Z; [by intros [= <-]|done].
    + simpl. intros grace. destruct (Z.ltb_spec 0 (cfg_TombstoneGCInterval c)); [|done]. intros [= <-]. by apply (vc_grace _ Hv).
    + intros Hr key. apply lone_router; [done..|]. pose proof (vc_read _ Hv). simpl. lia.
  - by destruct (clustered c).
  - destruct (clustered c); eexists; (split; [reflexivity|]); by split.
Qed.

(** ** Witnesses *)

Definition args_lru : list bytes :=
  [str "-eviction=lru"; str "-shards"; str "0x4"; str "--addr"; str "10.0.0.1:7001"; str "-gossip-addr=10.0.0.1:7002"].
Definition env_lru (k : bytes) : option bytes :=
  if bool_decide (k = str "KYRIA_MAX_ENTRIES") then Some (str "8") else None.
Definition cfg_lru : Config :=
  match parseFlags args_lru env_lru with Ok c => c | Err _ | Panic => config_of ∅ 0 end.


Lemma configured_node_witness :
  ∃ s r, newStore hash_len (λ _, hash_len) cfg_lru = Ok s ∧ length (shards s) = 4%nat ∧ sevicts s
    ∧ h_router (n_handler (assemble (merge_sort hash_le) map_to_list (str "10.0.0.1:2") 0 (mkGaugeFns id id id id) cfg_lru)) = Some r
    ∧ IsLocal r (str "k") = true.
Proof.
  destruct (configured_node args_lru env_lru cfg_lru hash_len (λ _, hash_len) (merge_sort hash_le) map_to_list (str "10.0.0.1:2") 0
    (mkGaugeFns id id id id)) as ((s & Es & Hlen & _ & _ & _ & _ & Hev & _) & _ & Hcl & _).
  - vm_compute. reflexivity.
  - vm_compute. discriminate.
  - vm_compute. discriminate.
  - apply merge_sort_sorts.
  - intros m. unfold range_order. reflexivity.
  - destruct Hcl as (m & gs & r & co & _ & _ & _ & Hr & _ & _ & _ & _ & _ & _ & _ & Hloc); [vm_compute; discriminate|].
    exists s, r. split; [exact Es|]. split; [rewrite Hlen; vm_compute; reflexivity|].
    split; [apply Hev; vm_compute; discriminate|]. split; [exact Hr|]. apply Hloc. vm_compute. reflexivity.
Defined.

(** The number of virtual nodes is not checked: with -replicas 0 the ring stays
    empty, so a cluster node owns no key and its coordinator finds no replicas. *)
Lemma no_virtual_nodes sort ord s now replicas ivl key n :
  sorts sort → lawful_roster ord → (replicas <= 0)%Z →
  let r := NewRouter sort ord (NewMembers s now) replicas ivl in
  Owner r key = None ∧ IsLocal r key = false ∧ Owners r key n = [].
Proof.
  intros Hs Hord Hr r. destruct (lone_preference sort ord s now replicas ivl key Hs Hord) as [Hsort Hp].
  fold r in Hsort, Hp. rewrite (proj2 (Z.ltb_ge _ _) Hr) in Hp.
  assert (Owner r key = None) as Ho by (unfold Owner; by rewrite Get_preference, Hp).
  split_and!; [done|unfold IsLocal; by rewrite Ho|]. unfold Owners. rewrite GetN_preference, Hp by done. apply take_nil.
Qed.
